(* ===== verification/_CoqProject ===== *)
-Q . S2P
Prelude.v
Transpose.v
TiledTranspose.v
ShmNames.v
PosixShm.v
Sockets.v
SharedMemory.v
Bytes.v
SpscQueue.v
RingBuffer.v
SeqLock.v
SpscThreads.v
Benchmarks.v
Tests.v
CppMemory.v
RingAtomics.v
SeqLockAtomics.v
QueueCtor.v
Futex.v
Messages.v
SharedMatrixBuffer.v
FutexSignaller.v
Ownership.v
ClientStats.v
ClientBank.v
Release.v
Server.v
HandshakeAtomics.v
Protocol.v
System.v
SessionAtomics.v
SessionQueue.v
Service.v
ServiceSessions.v
ServiceQueue.v
Numbers.v
MemoryUtils.v
Arguments.v
UnixSock.v
SockObjects.v
Shutdown.v
Workspace.v
Table.v
