(* ===== verification/Prelude.v ===== *)
(** * matrix-transposer: a verification development

    The program under [src/] is a client-server demo and the library it is made
    of.  A server process transposes 64-bit matrices that its clients keep in
    POSIX shared memory.  A client subscribes with a message on a Unix socket.
    From then on the two meet only in shared memory: the client puts the index of
    a buffer in a queue and sleeps on a futex; the server's dispatcher takes the
    index, transposes the buffer with several threads and wakes the client.

    ** The files

    Foundations:
    - [Prelude]: 32- and 64-bit unsigned arithmetic ([u32], [u64]), results that
      carry an exception or an out-of-bounds fault, the state monad [stM] with
      its triples [hoare], bounds-checked buffers ([load], [store]), the C++ [for]
      loop, reachability and executions of step relations, and the tactics and
      hint databases of the development.
    - [Bytes]: little-endian integers as lists of bytes.
    - [Numbers]: what is used of [std::stoi], [std::atoi] and stream extraction.

    The matrix kernels ([lib/mat-transpose/]):
    - [Transpose]: [TransposeNaive] and [MatricesAreEqual].
    - [TiledTranspose]: [TransposeTiledMultiThreaded].  [make_blocks] is the block
      list, [thread_accesses] the loads and stores of a worker, [tiled_step] an
      access of any worker to the shared destination.

    Shared memory:
    - [ShmNames]: the [CreateShmObjectName] functions and [Constants.h].
    - [PosixShm]: the class of the system calls, what their manual pages document
      as its laws [PosixShmSpec], and an executable instance of both.
    - [SharedMemory] ([lib/shared-mem/]): constructor, destructor and accessors.
    - [SharedMatrixBuffer] ([lib/matrix-buf/]): size arithmetic, constructor and
      initialisation of a matrix, and its cells read from the shared bytes.
    - [Ownership]: what every constructor of a shared object takes from the system
      and every destructor gives back, in one form for owners ([owner_ends]) and
      one for borrowers ([borrower_ends]).

    Synchronisation:
    - [SpscQueue]: ring arithmetic, the abstract bounded FIFO [fifo_step], and the
      interface [Spsc] of whole operations with its laws, which the session in
      [System] is proved over.
    - [SpscThreads]: the interface [Threads] of two sides whose accesses interleave,
      and that both queues offer it.
    - [RingBuffer], [SeqLock] ([lib/spsc-queue/]): both queues, as functions and as
      machines with one access to shared memory per step.
    - [CppMemory]: the C++ memory model as far as the program needs it: plain
      accesses with their data races, atomic ones with their memory orders, and the
      accesses that a machine makes in a step.
    - [RingAtomics], [SeqLockAtomics]: the same two queues with their accesses made
      to that memory.
    - [QueueCtor]: the constructors of both queues, over [SharedMemory].
    - [Futex], [FutexSignaller] ([lib/futex/]): [Wait] and [Wake] over an abstract
      system call [FutexSyscall], and the constructor.

    Client and server ([transposer_demo/], [lib/unix-socks/], [lib/stats/],
    [lib/mem-utils/]):
    - [Messages]: [ClientServerMessage.h], the messages, their bytes and text.
    - [Sockets]: the class of the socket calls, their laws [SocketSpec], and an
      executable instance of both.
    - [UnixSock]: the handling of an event by the threads of server and client.
    - [SockObjects]: the constructors and destructors of [UnixSockIpcServer] and
      [UnixSockIpcClient], [Send], and the loops of both threads.
    - [ClientStats]: request counter and timer.
    - [ClientBank]: [ClientContext.h], the bit set of slots, the searches of
      [AddClient] and [RemoveClient], and the set-up of a slot.
    - [Release]: the reset of a slot for its next client.
    - [Server]: the communication thread and [WorkloadDispatcher] interleaved.
    - [HandshakeAtomics]: the accesses of these two threads made to the memory of
      [CppMemory].
    - [Shutdown]: the start of the server's [main], and its end after Enter.
    - [Protocol]: the clients' [main] from subscription to unsubscription, their
      message handlers, and the server, connected by their sockets; any client may
      be killed at any time.
    - [Workspace]: [ClientWorkspace.h]: the client's [main] with its set-up, its two
      messages, its final check and its end, and the attachment of the server to the
      objects the client has created.
    - [System]: a client's request loop interleaved with the dispatcher, over the
      interface [Spsc] and the abstract semaphore, and the client's final check.
    - [SessionQueue]: a session with the accesses of [Enqueue] and [Dequeue] as
      steps of their own.
    - [SessionAtomics]: a session whose matrices and futex word are the memory of
      [CppMemory], cell by cell, with the workers of the transpose as threads that
      are started and joined.
    - [Service]: [Protocol] and the sessions of all clients in one machine, proved
      over a [session_machine] that obeys the [session_laws].
    - [ServiceSessions], [ServiceQueue]: that machine with the sessions of [System],
      and with those of [SessionQueue].
    - [MemoryUtils], [Arguments]: cache and memory sizes, and the command lines.
    - [Table] ([lib/presentation/]): text tables.

    Benchmarks and tests ([benchmarks/], [tests/]):
    - [Benchmarks]: the timed loops with their set-up and teardown: [Single] with one
      thread over [Spsc], [Multi] with two over [Threads], [Tiled].
    - [Tests]: the assertions of the tests of the transposes and of the queues in one
      process.

    ** What the theorems show

    - The service is correct ([ServiceSessions]) for matrices that the tile size
      divides and at least one worker: with any number of clients, whatever happens to
      the others, a client that reaches its final check after at least one repetition
      exits with 0; the dispatcher can always take a step, and a client's request is taken and
      answered within a fixed number of its steps, 517.  All this holds as well when
      the accesses of every queue interleave ([ServiceQueue]); then no access leaves
      its queue, and the bound is 1738, because a [Dequeue] that is under way when
      the request is made can be refused, and the dispatcher comes again.
    - A session is correct end to end ([System]): under every interleaving of
      client and dispatcher it never gets stuck, ends, and the final check
      succeeds; whenever [Wait] returns, the buffer that was asked for holds the
      transpose.  The final check reports an error exactly when there is one.
      The same holds, with a bound for every wait, when the accesses of the
      queue are interleaved one by one ([SessionQueue]).  On the C++ memory
      model, if the queue is an ideal one, [Wake] and [Wait] and the starts and the
      joins of the workers order the accesses to the matrices: there is no data race
      on them, and the client reads the transposes ([SessionAtomics]).
    - The server is a registry of clients ([Server]): its threads refine
      [registry_step], the dispatcher works only on slots that are completely set
      up and that the communication thread does not write meanwhile, the bit set is
      never read while it is written, the bank stays well formed, and the handshake
      between the threads is answered within a fixed number of steps.  On the C++ memory model the handshake leaves one data race,
      on the statistics that are logged ([HandshakeAtomics]).
    - The protocol around the session is right ([Protocol]): with any number of
      clients, a client that works has a complete slot of its own; a subscription
      that has been read can be answered once its slot is set up, or else, because
      the server never refuses explicitly, is waited for forever, as it is for buffers
      of 2^32 cells or more.  A client that is killed, or whose unsubscription is
      overtaken by the hang-up of its connection, keeps its slot; it can end the
      server with the signal of a response that nobody reads, and 64 such
      clients make the next subscription undefined behaviour.  What client and
      server have then created and attached is, object by object, the state in
      which the session of [System] starts ([Workspace]).
    - The server stops, with two exceptions that are stated and shown to occur
      ([Shutdown], [SockObjects]): the dispatcher ends within a fixed number of
      steps, but the communication thread waits forever for a dispatcher that has
      gone, and its draining loop does not end while a client waits to be
      accepted.
    - What is left behind is known: the regular end of a client, a failed set-up, the
      reset of a slot and the destruction of a socket object restore what they had
      taken, apart from the leaks that the theorems name ([Workspace], [Release],
      [SockObjects]); a client whose message cannot be sent is ended by an uncaught
      exception or a signal and leaves the names of all its objects ([Workspace]).
    - The kernels compute the transpose in bounds, with their 32-bit indices.  The
      tiled one does so under every interleaving, without two workers storing to
      one cell, when the tile size divides both dimensions; when it does not,
      every execution leaves the buffers ([TiledTranspose]).
    - Both queues refine the bounded FIFO under every interleaving of one producer
      and one consumer.  A dequeue of the sequence-lock queue may in addition be
      refused, but not when no enqueue overlaps it.  On the C++ memory model the
      acquire and release orders of the ring buffer are enough for that, without a
      data race ([RingAtomics]); the plain members of the sequence-lock queue do
      race as soon as producer and consumer overlap ([SeqLockAtomics]).
    - The futex signaller refines the binary semaphore [sem_step]; no wake-up is
      lost and a thread inside [Wait] can return when a signal is pending.
    - Constructors of shared objects either leave the object ready, with exactly
      the size and the contents stated, or throw and leak nothing; an owner and a
      borrower meet in one object; names of different clients never clash.
    - Messages survive their twenty bytes, however [recv] cuts them, and are read
      back with the values they were built from.
    - Cache sizes, client parameters and the number of worker threads are read
      back exactly, and what is refused is stated.
    - Rendered tables are aligned ([Table]).
    - The benchmark of two threads gets its items in order and ends, if the variable
      that its consumer reads through a dangling reference keeps its value, which no
      execution avoids reading; the benchmark of [Dequeue] measures an empty queue
      ([Benchmarks]).  The tests that are restated pass under every schedule ([Tests]).

    ** Modelling decisions

    - Functions that can fail return a [result]: a value, an exception of the
      program ([Throw]), or the undefined behaviour of an access outside its buffer
      ([Undef]).  A theorem with the result [Ok] therefore includes memory safety.
    - An [unsigned int] is an integer in [0, 2^32), a [size_t] one in [0, 2^64);
      wrap-around is written out where the code computes, never assumed away.
    - Loops run on fuel.  [for_loop] computes the number of iterations from its
      bounds and has a lemma that it is enough; [MatricesAreEqual_from] has the
      number of cells, [thread_accesses] one more step than the list has blocks,
      and [run_call] the number of steps of a call, none of which loops.  Running
      out is the result [NoFuel], which the theorems exclude by stating the result.
    - Threads are step relations with one access to shared state per step.  The
      accesses are sequentially consistent, except in the files on [CppMemory].
      These justify that for the ring buffer, for the matrices of a session and,
      but for the statistics, for the handshake of the server's threads; for the
      sequence-lock queue it is an assumption on compiler and processor.
      Waiting loops that read an unchanged value make no step.
    - In [CppMemory] a load of an atomic yields any store that its thread does not
      know to be overwritten, a store takes the last place in the modification
      order of its location, a plain access that conflicts with one its thread does
      not know is a data race, and a load does not read from a later store.  An
      exchange, like all accesses to the futex word sequentially consistent, finds
      the last store.
    - The queue of a session is one step per operation in [System] and
      [ServiceSessions], where a dequeue can be refused only while its client is inside
      [Enqueue]; [SessionQueue] and [ServiceQueue] justify that, with one step per
      access.  The bound on a wait counts, per slot, the steps of the dispatcher there
      and one to move on, for two rounds of the 64 slots ([turns_left]), and a third
      one after a refusal ([extra_turn]).
    - In [Benchmarks] the number of iterations is an argument, and what the consumer
      finds at the place of a local variable that no longer exists is a predicate.
    - System calls may fail at any time.  What they do when they succeed is a law
      of [PosixShmSpec], [SocketSpec] or [FutexSpec]; each has an instance, so that
      it holds of something, and the witnesses evaluate on it.
    - A constructor is a program in [stM]: it passes the state of the system, and
      of the object under construction, through its calls, and an exception leaves
      the state as it is at that point.
    - What a thread meets when it asks the system ([epoll_wait], [recv], [send],
      the test of [m_Running]) is an input of its loop; a theorem quantifies over
      the inputs and states which ones the system can give.
    - In [Protocol] a connection delivers messages whole and in order, as
      [message_delivered] justifies, until one of its ends is gone; the request
      loop of a client is the single state [PSession], which [Service] opens up.
      The hang-up of a killed client discards what the server has not read of it.
      Its process identifier and the descriptor of its connection are not used
      again.  After undefined behaviour the communication thread makes no more
      steps.

    ** Not modelled

    Console output.  Random numbers, clocks and the number of processors are
    arguments.  The plain variables [running], [m_Running] and
    [subscribeResponseReceived] that one thread polls and another assigns, and the
    pointer [pIpcServer], are sequentially consistent in the machines of server and
    client, although the accesses are data races.  The exception of
    [std::thread] for the dispatcher and the worker threads is not modelled.  The
    whole service is not put on the memory of [CppMemory]; its parts are.  Of the
    tests, those that fork, that look into [/dev/shm], and that ask for the sizes of
    the machine are not restated: they only call what is modelled.  Google Benchmark,
    GoogleTest and the build files are not code of the program. *)

From stdpp Require Export base tactics option list list_numbers numbers relations strings gmap.
From Stdlib Require Export ZArith Lia.

#[export] Set Default Goal Selector "!".

Declare Scope cpp_scope.
Delimit Scope cpp_scope with cpp.
#[local] Open Scope Z_scope.

(** * Machine integers *)

(** Unsigned C++ integers are integers of [Z] kept in range: [uint32_t] in
    [0, 2^32) and [uint64_t] / [size_t] in [0, 2^64).  Every C++ operation that
    can wrap is followed by the conversion back to its width. *)
Definition u32 (x : Z) : Z := x mod 2 ^ 32.
Definition u64 (x : Z) : Z := x mod 2 ^ 64.
Definition is_u32 (x : Z) : Prop := 0 ≤ x < 2 ^ 32.
Definition is_u64 (x : Z) : Prop := 0 ≤ x < 2 ^ 64.

#[export] Instance is_u32_dec x : Decision (is_u32 x).
Proof. unfold is_u32. apply _. Defined.
#[export] Instance is_u64_dec x : Decision (is_u64 x).
Proof. unfold is_u64. apply _. Defined.

Lemma u32_small x : 0 ≤ x < 2 ^ 32 → u32 x = x.
Proof. apply Z.mod_small. Qed.
Lemma u64_small x : 0 ≤ x < 2 ^ 64 → u64 x = x.
Proof. apply Z.mod_small. Qed.
Lemma u32_range x : is_u32 (u32 x).
Proof. unfold is_u32, u32. apply Z.mod_pos_bound. lia. Qed.
Lemma u64_range x : is_u64 (u64 x).
Proof. unfold is_u64, u64. apply Z.mod_pos_bound. lia. Qed.
Lemma u32_idemp x : u32 (u32 x) = u32 x.
Proof. apply u32_small, u32_range. Qed.
Lemma u32_add_l x y : u32 (u32 x + y) = u32 (x + y).
Proof. apply Zplus_mod_idemp_l. Qed.
Lemma u32_sub_l x y : u32 (u32 x - y) = u32 (x - y).
Proof. apply Zminus_mod_idemp_l. Qed.
Lemma u64_add_l x y : u64 (u64 x + y) = u64 (x + y).
Proof. apply Zplus_mod_idemp_l. Qed.

Create HintDb word.
#[export] Hint Resolve u32_range u64_range : word.
Create Rewrite HintDb word.
#[export] Hint Rewrite u32_idemp u32_add_l u32_sub_l u64_add_l : word.

(** Remove a wrap-around whose argument is visibly in range. *)
Ltac unwrap :=
  repeat first [ rewrite u32_small by (unfold is_u32, is_u64 in *; lia)
               | rewrite u64_small by (unfold is_u32, is_u64 in *; lia) ].

(** [x & (2^k - 1)] is the remainder modulo [2^k]. *)
Lemma land_pow2_mask x k : 0 ≤ k → Z.land x (2 ^ k - 1) = x mod 2 ^ k.
Proof. intros Hk. rewrite <-Z.land_ones by done. by rewrite Z.ones_equiv, <-Z.sub_1_r. Qed.

(** * Outcomes of C++ code *)

(** The exceptions the program throws. *)
Inductive exn :=
  | RuntimeError (what : string)
  | InvalidArgument (what : string)
  | OutOfRange (what : string)
  | BadAlloc.

#[export] Instance exn_eq_dec : EqDecision exn.
Proof. solve_decision. Defined.

(** A computation returns a value, throws, has undefined behaviour (an access
    outside an array, a division by zero, a use of an uninitialised variable),
    or exhausts the fuel of the model's loop. *)
Inductive result (A : Type) :=
  | Ok (a : A)
  | Throw (e : exn)
  | Undef
  | NoFuel.
Arguments Ok {A} a.
Arguments Throw {A} e.
Arguments Undef {A}.
Arguments NoFuel {A}.

#[export] Instance result_ret : MRet result := @Ok.
#[export] Instance result_bind : MBind result := λ A B f m,
  match m with
  | Ok a => f a
  | Throw e => Throw e
  | Undef => Undef
  | NoFuel => NoFuel
  end.
#[export] Instance result_fmap : FMap result := λ A B f m,
  match m with
  | Ok a => Ok (f a)
  | Throw e => Throw e
  | Undef => Undef
  | NoFuel => NoFuel
  end.
#[export] Instance result_eq_dec `{EqDecision A} : EqDecision (result A).
Proof. solve_decision. Defined.

Lemma result_bind_Ok {A B} (m : result A) (f : A → result B) b :
  m ≫= f = Ok b ↔ ∃ a, m = Ok a ∧ f a = Ok b.
Proof. destruct m; simpl; naive_solver. Qed.

(** Split a successful sequence of computations into its steps. *)
Ltac bind_inv :=
  repeat match goal with
  | H : _ ≫= _ = Ok _ |- _ =>
      let a := fresh "a" in let Ha := fresh "Ha" in
      apply result_bind_Ok in H as (a & Ha & H)
  | H : Ok _ = Ok _ |- _ => injection H as H; subst
  | H : Throw _ = Ok _ |- _ => discriminate H
  | H : Undef = Ok _ |- _ => discriminate H
  | H : NoFuel = Ok _ |- _ => discriminate H
  end.

(** * Computations over a state

    A computation may change the state even when it throws. *)

Definition stM (S A : Type) : Type := S → S * result A.

#[export] Instance stM_ret {S} : MRet (stM S) := λ A a s, (s, Ok a).
#[export] Instance stM_bind {S} : MBind (stM S) := λ A B f m s,
  let '(s1, r) := m s in
  match r with
  | Ok a => f a s1
  | Throw e => (s1, Throw e)
  | Undef => (s1, Undef)
  | NoFuel => (s1, NoFuel)
  end.

Lemma stM_bind_cases {S A B} (m : stM S A) (f : A → stM S B) s s' r :
  (m ≫= f) s = (s', r) →
  (∃ s1 a, m s = (s1, Ok a) ∧ f a s1 = (s', r)) ∨
  (∃ e, m s = (s', Throw e) ∧ r = Throw e) ∨
  (m s = (s', Undef) ∧ r = Undef) ∨ (m s = (s', NoFuel) ∧ r = NoFuel).
Proof.
  unfold mbind, stM_bind. destruct (m s) as [s1 [a|e| |]]; intros Hrun; [by eauto|..];
    injection Hrun as <- <-; eauto 6.
Qed.

(** Triples: from states that satisfy [P], a return leads to [Q], an exception to
    [E], and nothing else happens. *)
Definition hoare {S A} (P : S → Prop) (m : stM S A) (Q : A → S → Prop) (E : S → Prop) : Prop :=
  ∀ s, P s →
    match m s with
    | (s', Ok a) => Q a s'
    | (s', Throw _) => E s'
    | _ => False
    end.

Section hoare.
Context {S A B : Type} (E : S → Prop).

Lemma hoare_bind (m : stM S A) (f : A → stM S B) P R Q :
  hoare P m R E → (∀ a, hoare (R a) (f a) Q E) → hoare P (m ≫= f) Q E.
Proof.
  intros Hm Hf s Hs. specialize (Hm s Hs). unfold mbind, stM_bind.
  destruct (m s) as [s1 [a|e| |]]; [|done..]. by apply (Hf a).
Qed.

Lemma hoare_weaken (m : stM S A) (P P' : S → Prop) (Q Q' : A → S → Prop) (E' : S → Prop) :
  hoare P m Q E' → (∀ s, P' s → P s) → (∀ a s, Q a s → Q' a s) → (∀ s, E' s → E s) → hoare P' m Q' E.
Proof.
  intros Hm HP HQ HE s Hs. specialize (Hm s (HP s Hs)). destruct (m s) as [s1 [a|e| |]]; auto.
Qed.

Lemma hoare_ret (a : A) (P : S → Prop) (Q : A → S → Prop) : (∀ s, P s → Q a s) → hoare P (mret a) Q E.
Proof. intros H s Hs. by apply H. Qed.

(** What a run from a state that satisfies [P] ends in. *)
Lemma hoare_run (m : stM S A) P Q s s' r :
  hoare P m Q E → P s → m s = (s', r) → (∃ a, r = Ok a ∧ Q a s') ∨ (∃ e, r = Throw e ∧ E s').
Proof. intros Hm Hs Hrun. specialize (Hm s Hs). rewrite Hrun in Hm. destruct r; [left|right|done..]; eauto. Qed.
End hoare.

(** * Arrays

    A C array (a mapped buffer, a [std::vector]) is a list read and written at
    an integer index.  [zget] is the plain lookup; [load] and [store] are the
    program's accesses, with undefined behaviour outside the bounds. *)

Section arrays.
Context {A : Type}.
Implicit Types (m : list A) (i j : Z) (x y : A).

Definition zget m i : option A := if decide (0 ≤ i) then m !! Z.to_nat i else None.
Definition zset m i x : list A := if decide (0 ≤ i) then <[Z.to_nat i := x]> m else m.
Definition zlen m : Z := Z.of_nat (length m).

Definition load m i : result A :=
  match zget m i with Some x => Ok x | None => Undef end.
Definition store m i x : result (list A) :=
  if decide (0 ≤ i < zlen m) then Ok (zset m i x) else Undef.

Lemma zget_is_Some m i : is_Some (zget m i) ↔ 0 ≤ i < zlen m.
Proof. unfold zget, zlen. case_decide; rewrite ?lookup_lt_is_Some, ?is_Some_alt; simpl; lia. Qed.
Lemma zget_Some_range m i x : zget m i = Some x → 0 ≤ i < zlen m.
Proof. intros H. apply zget_is_Some. eauto. Qed.
Lemma zget_None m i : ¬ (0 ≤ i < zlen m) → zget m i = None.
Proof. intros H. apply eq_None_not_Some. by rewrite zget_is_Some. Qed.
Lemma zget_None_ge m i : 0 ≤ i → zget m i = None → zlen m ≤ i.
Proof.
  intros Hi H. destruct (decide (i < zlen m)) as [Hlt|]; [|lia].
  destruct (proj2 (zget_is_Some m i)); [lia|congruence].
Qed.
Lemma zlen_zset m i x : zlen (zset m i x) = zlen m.
Proof. unfold zlen, zset. case_decide; by rewrite ?length_insert. Qed.
Lemma zget_zset_eq m i x : 0 ≤ i < zlen m → zget (zset m i x) i = Some x.
Proof.
  unfold zget, zset, zlen. intros. rewrite !decide_True by lia.
  apply list_lookup_insert_eq. lia.
Qed.
Lemma zget_zset_ne m i j x : i ≠ j → zget (zset m i x) j = zget m j.
Proof.
  unfold zget, zset. intros. repeat case_decide; try done.
  apply list_lookup_insert_ne. lia.
Qed.
Lemma zget_to_nat m i : 0 ≤ i → zget m i = m !! Z.to_nat i.
Proof. intros. unfold zget. by rewrite decide_True. Qed.
Lemma zget_of_nat m (n : nat) : zget m (Z.of_nat n) = m !! n.
Proof. rewrite zget_to_nat by lia. by rewrite Nat2Z.id. Qed.
Lemma zget_replicate (n : nat) x i : 0 ≤ i < Z.of_nat n → zget (replicate n x) i = Some x.
Proof. intros. rewrite zget_to_nat by lia. apply lookup_replicate_2. lia. Qed.
Lemma zlen_replicate (n : nat) x : zlen (replicate n x) = Z.of_nat n.
Proof. unfold zlen. by rewrite length_replicate. Qed.
Lemma zlen_app m1 m2 : zlen (m1 ++ m2) = zlen m1 + zlen m2.
Proof. unfold zlen. rewrite length_app. lia. Qed.
Lemma zlen_nonneg m : 0 ≤ zlen m.
Proof. unfold zlen. lia. Qed.
Lemma zget_app_l m1 m2 i : i < zlen m1 → zget (m1 ++ m2) i = zget m1 i.
Proof. unfold zget, zlen. intros. case_decide; [|done]. apply lookup_app_l. lia. Qed.
Lemma zget_app_r m1 m2 i : zlen m1 ≤ i → zget (m1 ++ m2) i = zget m2 (i - zlen m1).
Proof.
  unfold zget, zlen. intros. rewrite !decide_True by lia.
  rewrite lookup_app_r by lia. f_equal. lia.
Qed.

(** Two arrays of the same length that agree at every index are equal. *)
Lemma zget_ext m1 m2 :
  zlen m1 = zlen m2 → (∀ i, 0 ≤ i < zlen m1 → zget m1 i = zget m2 i) → m1 = m2.
Proof.
  intros Hlen Hget. apply list_eq. intros n.
  destruct (decide (n < length m1)%nat) as [Hn|Hn].
  - rewrite <-!zget_of_nat. apply Hget. unfold zlen. lia.
  - unfold zlen in Hlen. rewrite !lookup_ge_None_2 by lia. done.
Qed.

Lemma load_Ok m i x : load m i = Ok x ↔ zget m i = Some x.
Proof. unfold load. destruct (zget m i); naive_solver. Qed.
Lemma load_Undef m i : load m i = Undef ↔ ¬ (0 ≤ i < zlen m).
Proof.
  rewrite <-zget_is_Some, <-eq_None_not_Some. unfold load.
  destruct (zget m i); naive_solver.
Qed.
Lemma load_in_range m i : 0 ≤ i < zlen m → ∃ x, load m i = Ok x ∧ zget m i = Some x.
Proof. intros [x Hx]%zget_is_Some. exists x. by rewrite load_Ok. Qed.
Lemma store_in_range m i x : 0 ≤ i < zlen m → store m i x = Ok (zset m i x).
Proof. intros. unfold store. by rewrite decide_True. Qed.
Lemma store_Undef m i x : store m i x = Undef ↔ ¬ (0 ≤ i < zlen m).
Proof. unfold store. case_decide; naive_solver. Qed.
Lemma store_Ok m i x m' : store m i x = Ok m' ↔ 0 ≤ i < zlen m ∧ m' = zset m i x.
Proof. unfold store. case_decide; naive_solver. Qed.
End arrays.

Lemma zget_zset_Some {A} (b : list A) i j x c :
  zget (zset b i x) j = Some c → (j = i ∧ c = x) ∨ (j ≠ i ∧ zget b j = Some c).
Proof.
  destruct (decide (j = i)) as [->|Hne].
  - intros Hget. pose proof (zget_Some_range _ _ _ Hget) as Hr. rewrite zlen_zset in Hr.
    rewrite zget_zset_eq in Hget by done. injection Hget as <-. by left.
  - rewrite zget_zset_ne by done. by right.
Qed.

Lemma zget_replicate_inv {A} n (x : A) i c : zget (replicate n x) i = Some c → c = x.
Proof. unfold zget. case_decide; [|done]. by intros [-> _]%lookup_replicate. Qed.

Create Rewrite HintDb arrays.
#[export] Hint Rewrite @zlen_zset @zlen_app @zlen_replicate : arrays.

Lemma zlen_fmap {A B} (f : A → B) (l : list A) : zlen (f <$> l) = zlen l.
Proof. unfold zlen. by rewrite length_fmap. Qed.
Lemma zlen_seqZ lo n : 0 ≤ n → zlen (seqZ lo n) = n.
Proof. intros. unfold zlen. rewrite length_seqZ. lia. Qed.
Lemma zget_fmap {A B} (f : A → B) (l : list A) i : zget (f <$> l) i = f <$> zget l i.
Proof. unfold zget. case_decide; [apply list_lookup_fmap|done]. Qed.
Lemma zget_seqZ n i : 0 ≤ i < n → zget (seqZ 0 n) i = Some i.
Proof.
  intros. rewrite zget_to_nat, lookup_seqZ_lt by lia. f_equal. lia.
Qed.

Lemma filter_all {A} (P : A → Prop) `{∀ x, Decision (P x)} (l : list A) :
  (∀ x, x ∈ l → P x) → filter P l = l.
Proof.
  induction l as [|x l IH]; intros Hl; [done|]. rewrite filter_cons_True by (apply Hl; by left).
  f_equal. apply IH. intros y Hy. apply Hl. by right.
Qed.

Lemma sum_list_with_insert {A} (f : A → nat) (l : list A) i x y :
  l !! i = Some x → (sum_list_with f (<[i := y]> l) + f x = sum_list_with f l + f y)%nat.
Proof.
  revert i. induction l as [|z l IH]; intros [|i] H; simplify_eq/=; [lia|].
  specialize (IH _ H). lia.
Qed.

(** * Strings *)

Definition slen (s : string) : Z := Z.of_nat (String.length s).

Lemma slen_app s1 s2 : slen (s1 +:+ s2) = slen s1 + slen s2.
Proof.
  unfold slen. induction s1 as [|c s1 IH]; [done|].
  change (String c s1 +:+ s2) with (String c (s1 +:+ s2)). cbn [String.length]. lia.
Qed.
Lemma slen_nonneg s : 0 ≤ slen s.
Proof. unfold slen. lia. Qed.
Lemma string_app_assoc s1 s2 s3 : s1 +:+ (s2 +:+ s3) = (s1 +:+ s2) +:+ s3.
Proof.
  induction s1 as [|c s1 IH]; [done|]. change (String c (s1 +:+ (s2 +:+ s3)) = String c ((s1 +:+ s2) +:+ s3)).
  by rewrite IH.
Qed.
Lemma app_empty s : s +:+ "" = s.
Proof. induction s as [|c s IH]; [done|]. exact (f_equal (String c) IH). Qed.

(** * Counted loops

    [for (uint32_t i = lo; i < hi; i++) body] over a loop state.  The counter
    wraps at 32 bits as the source's does; [for_loop] gives the loop as much
    fuel as it has iterations, and the lemmas below show that is enough. *)

Section loops.
Context {S : Type}.
Implicit Types (body : Z → S → result S) (lo hi : Z) (s : S).

Fixpoint for_fuel (fuel : nat) body (i hi : Z) s : result S :=
  if decide (i < hi) then
    match fuel with
    | O => NoFuel
    | Datatypes.S fuel' => body i s ≫= for_fuel fuel' body (u32 (i + 1)) hi
    end
  else Ok s.

Definition for_loop body lo hi s : result S := for_fuel (Z.to_nat (hi - lo)) body lo hi s.

(** The loop rule: a body that succeeds and carries the invariant from [i] to
    [i + 1] makes the whole loop terminate with the invariant at [hi]. *)
Lemma for_loop_rule (P : Z → S → Prop) body lo hi s :
  0 ≤ lo ≤ hi → hi < 2 ^ 32 → P lo s →
  (∀ i s, lo ≤ i < hi → P i s → ∃ s', body i s = Ok s' ∧ P (i + 1) s') →
  ∃ s', for_loop body lo hi s = Ok s' ∧ P hi s'.
Proof.
  unfold for_loop. intros Hlo Hhi HP Hbody.
  remember (Z.to_nat (hi - lo)) as n eqn:Hn.
  revert lo s Hn Hlo HP Hbody. induction n as [|n IH]; intros lo s Hn Hlo HP Hbody; simpl.
  - rewrite decide_False by lia. assert (lo = hi) as <- by lia. eauto.
  - rewrite decide_True by lia.
    destruct (Hbody lo s) as (s1 & -> & HP1); [lia|done|]. simpl.
    rewrite u32_small by lia. apply IH; [lia|lia|done|].
    intros i s' Hi. apply Hbody. lia.
Qed.

Lemma for_loop_empty body lo hi s : hi ≤ lo → for_loop body lo hi s = Ok s.
Proof. intros. unfold for_loop. destruct (Z.to_nat _); simpl; by rewrite decide_False by lia. Qed.

(** One turn of the loop. *)
Lemma for_loop_step body lo hi s :
  0 ≤ lo < hi → hi < 2 ^ 32 →
  for_loop body lo hi s = body lo s ≫= for_loop body (lo + 1) hi.
Proof.
  intros. unfold for_loop. replace (Z.to_nat (hi - lo)) with (Datatypes.S (Z.to_nat (hi - (lo + 1)))) by lia.
  cbn [for_fuel]. rewrite decide_True by lia. by rewrite u32_small by lia.
Qed.
End loops.

Lemma seqZ_snoc n : 0 ≤ n → seqZ 0 (n + 1) = seqZ 0 n ++ [n].
Proof. intros. rewrite seqZ_app by lia. by rewrite Z.add_0_l. Qed.

(** Run the goal's loop by its invariant: the side conditions come first. *)
Ltac for_loop_by P s' Hs' :=
  match goal with
  | |- context [for_loop ?body ?lo ?hi ?s] =>
      destruct (for_loop_rule P body lo hi s) as (s' & -> & Hs')
  end.

(** A loop that only appends is a list comprehension. *)
Lemma for_loop_append {A} (f : Z → list A) body lo hi acc :
  0 ≤ lo ≤ hi → hi < 2 ^ 32 →
  (∀ i acc, lo ≤ i < hi → body i acc = Ok (acc ++ f i)) →
  for_loop body lo hi acc = Ok (acc ++ (seqZ lo (hi - lo) ≫= f)).
Proof.
  intros Hlo Hhi. remember (Z.to_nat (hi - lo)) as n eqn:Hn.
  revert lo acc Hn Hlo. induction n as [|n IH]; intros lo acc Hn Hlo Hbody.
  - rewrite for_loop_empty by lia. rewrite seqZ_nil by lia. simpl. by rewrite app_nil_r.
  - rewrite for_loop_step by lia. rewrite Hbody by lia. simpl. rewrite IH; [|lia..|].
    + rewrite (seqZ_cons lo) by lia. simpl. rewrite <-app_assoc.
      by replace (Z.pred (hi - lo)) with (hi - (lo + 1)) by lia.
    + intros. apply Hbody. lia.
Qed.

(** * Transition systems *)

Section transitions.
Context {St : Type} (step : relation St).

Definition reachable (init : St → Prop) (s : St) : Prop := ∃ s0, init s0 ∧ rtc step s0 s.

(** Rule induction: a property of the initial states that every step keeps
    holds in every reachable state. *)
Lemma invariant_reachable (init I : St → Prop) s :
  (∀ s, init s → I s) → (∀ s s', I s → step s s' → I s') → reachable init s → I s.
Proof. intros Hi Hs (s0 & H0%Hi & Hr). induction Hr; eauto. Qed.

Lemma invariant_rtc (I : St → Prop) s s' :
  (∀ s s', I s → step s s' → I s') → I s → rtc step s s' → I s'.
Proof. intros Hs H0 Hr. induction Hr; eauto. Qed.

(** Steps that all decrease a measure make every execution finite. *)
Lemma measure_nsteps (μ : St → nat) (I : St → Prop) n s s' :
  (∀ s s', I s → step s s' → I s' ∧ (μ s' < μ s)%nat) → I s → nsteps step n s s' → (n ≤ μ s)%nat.
Proof.
  intros Hs H0 Hn. induction Hn as [|n x y z Hxy _ IH]; [lia|].
  destruct (Hs _ _ H0 Hxy) as [Hy Hlt]. specialize (IH Hy). lia.
Qed.

(** If moreover a state that is not final can always step, a final state is
    reached. *)
Lemma measure_reaches (μ : St → nat) (I final : St → Prop) s :
  (∀ s s', I s → step s s' → I s' ∧ (μ s' < μ s)%nat) →
  (∀ s, I s → final s ∨ ∃ s', step s s') →
  I s → ∃ s', rtc step s s' ∧ final s'.
Proof.
  intros Hdec Hprog. remember (μ s) as n eqn:Hn. revert s Hn.
  induction n as [n IH] using lt_wf_ind. intros s -> HI.
  destruct (Hprog s HI) as [|[s' Hs']]; [by exists s; split|].
  destruct (Hdec _ _ HI Hs') as [HI' Hlt].
  destruct (IH _ Hlt s' eq_refl HI') as (s2 & Hr & Hf). exists s2. split; [|done].
  by eapply rtc_l.
Qed.
End transitions.

(** Labelled transition systems: a step may emit an event ([None] is silent),
    and an execution yields the list of its events. *)
Section labelled.
Context {St Ev : Type} (lstep : St → option Ev → St → Prop).

Inductive exec : St → list Ev → St → Prop :=
  | exec_nil s : exec s [] s
  | exec_tau s s' s'' tr : lstep s None s' → exec s' tr s'' → exec s tr s''
  | exec_event s s' s'' e tr : lstep s (Some e) s' → exec s' tr s'' → exec s (e :: tr) s''.

Lemma exec_invariant (I : St → Prop) s tr s' :
  (∀ s l s', I s → lstep s l s' → I s') → I s → exec s tr s' → I s'.
Proof. intros Hs H0 He. induction He; eauto. Qed.

Lemma exec_single s e s' : lstep s (Some e) s' → exec s [e] s'.
Proof. intros H. eapply exec_event; [exact H|constructor]. Qed.

(** With the event given by an equation, to run a machine on concrete states. *)
Lemma exec_event_eq s s' s'' e e' tr :
  lstep s (Some e') s' → e' = e → exec s' tr s'' → exec s (e :: tr) s''.
Proof. intros H <-. by apply exec_event. Qed.

Lemma exec_app s1 s2 s3 tr1 tr2 : exec s1 tr1 s2 → exec s2 tr2 s3 → exec s1 (tr1 ++ tr2) s3.
Proof. induction 1; simpl; eauto using exec. Qed.
End labelled.

(** Simulation between labelled systems: when every concrete step is matched by
    an abstract execution with the same event, traces are preserved. *)
Section simulation.
Context {C A Ev : Type} (cstep : C → option Ev → C → Prop) (astep : A → option Ev → A → Prop).
Context (R : C → A → Prop).
Hypothesis sim : ∀ c l c' a,
  R c a → cstep c l c' → ∃ a', exec astep a (option_list l) a' ∧ R c' a'.

Lemma simulation_exec c tr c' a :
  R c a → exec cstep c tr c' → ∃ a', exec astep a tr a' ∧ R c' a'.
Proof.
  intros HR He. revert a HR. induction He as [|? ? ? ? H _ IH|? ? ? e ? H _ IH]; intros a HR.
  - eauto using exec.
  - destruct (sim _ _ _ _ HR H) as (a1 & H1 & HR1). destruct (IH _ HR1) as (a2 & H2 & HR2).
    exists a2. split; [|done]. by apply (exec_app astep _ _ _ [] _ H1).
  - destruct (sim _ _ _ _ HR H) as (a1 & H1 & HR1). destruct (IH _ HR1) as (a2 & H2 & HR2).
    exists a2. split; [|done]. by apply (exec_app astep _ _ _ [e] _ H1).
Qed.
End simulation.
