(* ===== verification/Transpose.v ===== *)
(** The matrix kernels of [src/lib/mat-transpose/]: [MatricesAreEqual],
    [TransposeNaive], and their sequential correctness against the mathematical
    transpose of a row-major matrix. *)

From S2P Require Import Prelude.
#[local] Open Scope Z_scope.

(** * The code *)

(** The scan of [MatricesAreEqual]; it returns at the first difference. *)
Fixpoint MatricesAreEqual_from (fuel : nat) (src dst : list Z) (i count : Z) : result bool :=
  if decide (i < count) then
    match fuel with
    | O => NoFuel
    | S fuel' =>
        a ← load src i;
        b ← load dst i;
        if decide (a = b) then MatricesAreEqual_from fuel' src dst (u32 (i + 1)) count
        else Ok false
    end
  else Ok true.

(** The bound [rowCount * colCount] is a 32-bit product. *)
Definition MatricesAreEqual (src dst : list Z) (rowCount colCount : Z) : result bool :=
  let count := u32 (rowCount * colCount) in
  MatricesAreEqual_from (Z.to_nat count) src dst 0 count.

(** [dst[j * rowCount + i] = src[i * colCount + j]], the assignment both
    transposes perform, with its 32-bit index arithmetic. *)
Definition src_index (colCount i j : Z) : Z := u32 (u32 (i * colCount) + j).
Definition dst_index (rowCount i j : Z) : Z := u32 (u32 (j * rowCount) + i).

Definition TransposeNaive (src dst : list Z) (rowCount colCount : Z) : result (list Z) :=
  for_loop (λ i, for_loop (λ j dst,
      v ← load src (src_index colCount i j);
      store dst (dst_index rowCount i j) v) 0 colCount) 0 rowCount dst.

(** * Row-major matrices *)

(** [dst] is the [C] x [R] transpose of the [R] x [C] matrix [src]. *)
Definition is_transpose (R C : Z) (src dst : list Z) : Prop :=
  ∀ i j, 0 ≤ i < R → 0 ≤ j < C → zget dst (j * R + i) = zget src (i * C + j).

(** The mathematical transpose, as a closed expression: cell [k] of the result
    lies in row [k / R] and column [k mod R]. *)
Definition transpose (R C : Z) (src : list Z) : list Z :=
  (λ k, default 0 (zget src ((k mod R) * C + k / R))) <$> seqZ 0 (R * C).

Section row_major.
Implicit Types i j R C : Z.

Lemma index_bound R C i j : 0 ≤ i < R → 0 ≤ j < C → 0 ≤ i * C + j < R * C.
Proof. nia. Qed.

Lemma index_inj C i i' j j' :
  0 ≤ j < C → 0 ≤ j' < C → i * C + j = i' * C + j' → i = i' ∧ j = j'.
Proof. intros. assert (i = i') as -> by nia. lia. Qed.

(** Every index of the buffer is the index of one cell. *)
Lemma index_surj R C k :
  0 ≤ C → 0 ≤ k < R * C → 0 ≤ k / C < R ∧ 0 ≤ k mod C < C ∧ k = (k / C) * C + k mod C.
Proof.
  intros HC Hk. assert (C ≠ 0) by (intros ->; lia). pose proof (Z.mod_pos_bound k C).
  pose proof (Z.div_mod k C). split_and!; [apply Z.div_pos; lia| |lia..].
  apply Z.div_lt_upper_bound; lia.
Qed.

Lemma src_index_small R C i j :
  0 ≤ i < R → 0 ≤ j < C → R * C < 2 ^ 32 → src_index C i j = i * C + j.
Proof.
  intros Hi Hj H. pose proof (index_bound R C i j Hi Hj). unfold src_index.
  autorewrite with word. by rewrite u32_small by lia.
Qed.
Lemma dst_index_small R C i j :
  0 ≤ i < R → 0 ≤ j < C → R * C < 2 ^ 32 → dst_index R i j = j * R + i.
Proof. intros. apply (src_index_small C R j i); lia. Qed.
End row_major.

Lemma is_transpose_unique R C src dst1 dst2 :
  0 ≤ R → is_transpose R C src dst1 → is_transpose R C src dst2 →
  zlen dst1 = R * C → zlen dst2 = R * C → dst1 = dst2.
Proof.
  intros HR H1 H2 L1 L2. apply zget_ext; [lia|]. intros k Hk.
  rewrite L1, (Z.mul_comm R C) in Hk. destruct (index_surj C R k HR Hk) as (Hj & Hi & ->).
  by rewrite H1, H2.
Qed.

Lemma is_transpose_sym R C src dst : is_transpose R C src dst → is_transpose C R dst src.
Proof. intros H i j Hi Hj. symmetry. by apply H. Qed.

Lemma zlen_transpose R C src : 0 ≤ R * C → zlen (transpose R C src) = R * C.
Proof. intros. unfold transpose, zlen. rewrite length_fmap, length_seqZ. lia. Qed.

Lemma transpose_is_transpose R C src :
  zlen src = R * C → is_transpose R C src (transpose R C src).
Proof.
  intros Hlen i j Hi Hj. pose proof (index_bound C R j i Hj Hi) as Hb.
  unfold transpose. rewrite zget_to_nat by lia.
  rewrite list_lookup_fmap, lookup_seqZ_lt by lia. simpl.
  rewrite Z2Nat.id, Z.add_0_l by lia.
  replace ((j * R + i) mod R) with i by (rewrite Z.add_comm, Z.mod_add, Z.mod_small; lia).
  replace ((j * R + i) / R) with j by (rewrite Z.div_add_l, Z.div_small; lia).
  destruct (proj2 (zget_is_Some src (i * C + j))) as [v ->]; [|done].
  rewrite Hlen. by apply index_bound.
Qed.

Lemma is_transpose_eq R C src dst :
  0 ≤ R → is_transpose R C src dst → zlen src = R * C → zlen dst = R * C → dst = transpose R C src.
Proof.
  intros. eapply is_transpose_unique; eauto using transpose_is_transpose.
  apply zlen_transpose. pose proof (zlen_nonneg src). lia.
Qed.

(** * Correctness of the sequential kernels *)

Section naive.
Context (R C : Z) (src : list Z).
Hypothesis HR : 0 ≤ R < 2 ^ 32.
Hypothesis HC : 0 ≤ C < 2 ^ 32.
Hypothesis Hsize : R * C < 2 ^ 32.
Hypothesis Hsrc : zlen src = R * C.

(** The cells done when the loops are about to process row [i], column [j]. *)
Definition naive_inv (i j : Z) (dst : list Z) : Prop :=
  zlen dst = R * C ∧
  ∀ i' j', 0 ≤ i' < R → 0 ≤ j' < C → i' < i ∨ (i' = i ∧ j' < j) →
    zget dst (j' * R + i') = zget src (i' * C + j').

Lemma naive_cell i j dst :
  0 ≤ i < R → 0 ≤ j < C → naive_inv i j dst →
  ∃ dst', (v ← load src (src_index C i j); store dst (dst_index R i j) v) = Ok dst' ∧
          naive_inv i (j + 1) dst'.
Proof.
  intros Hi Hj [Hlen Hdone].
  rewrite (src_index_small R), (dst_index_small R C) by done.
  destruct (load_in_range src (i * C + j)) as (v & -> & Hv);
    [rewrite Hsrc; by apply index_bound|]. simpl.
  pose proof (index_bound C R j i Hj Hi).
  rewrite store_in_range by lia. eexists. split; [done|]. split; [by rewrite zlen_zset|].
  intros i' j' Hi' Hj' Hlt. destruct (decide (j * R + i = j' * R + i')) as [Heq|Hne].
  - apply (index_inj R j j' i i') in Heq as [-> ->]; [|lia..].
    rewrite Hv. apply zget_zset_eq. lia.
  - rewrite zget_zset_ne by done. apply Hdone; [lia..|].
    destruct Hlt as [|[-> ?]]; [by left|right]. split; [done|].
    assert (j' ≠ j) by (intros ->; lia). lia.
Qed.

Lemma naive_row i dst :
  0 ≤ i < R → naive_inv i 0 dst →
  ∃ dst', for_loop (λ j dst, v ← load src (src_index C i j); store dst (dst_index R i j) v)
            0 C dst = Ok dst' ∧ naive_inv (i + 1) 0 dst'.
Proof.
  intros Hi H0. for_loop_by (naive_inv i) dst' Hend; [lia..|done| |].
  { intros j s Hj Hinv. by apply naive_cell. }
  exists dst'. split; [done|]. destruct Hend as [Hlen Hdone]. split; [done|].
  intros i' j' Hi' Hj' Hlt. apply Hdone; lia.
Qed.

Lemma TransposeNaive_spec dst :
  zlen dst = R * C → TransposeNaive src dst R C = Ok (transpose R C src).
Proof.
  intros Hdst. unfold TransposeNaive. for_loop_by (λ i, naive_inv i 0) dst' Hend; [lia..| | |].
  { split; [done|]. lia. }
  { intros i s Hi Hinv. by apply naive_row. }
  destruct Hend as [Hlen Hdone]. f_equal. apply is_transpose_eq; [lia| |done..].
  intros i j Hi Hj. apply Hdone; lia.
Qed.
End naive.

(** The scan compares the first [count] cells. *)
Lemma MatricesAreEqual_from_spec src dst count fuel i :
  0 ≤ i ≤ count → count < 2 ^ 32 → count ≤ zlen src → count ≤ zlen dst →
  (Z.to_nat (count - i) ≤ fuel)%nat →
  ∃ b, MatricesAreEqual_from fuel src dst i count = Ok b ∧
       (b = true ↔ ∀ k, i ≤ k < count → zget src k = zget dst k).
Proof.
  intros Hi Hc Hs Hd. revert i Hi. induction fuel as [|fuel IH]; intros i Hi Hf; simpl.
  - rewrite decide_False by lia. exists true. split; [done|]. split; [lia|done].
  - case_decide; [|exists true; split; [done|]; split; [lia|done]].
    destruct (load_in_range src i) as (a & -> & Ha); [lia|].
    destruct (load_in_range dst i) as (b & -> & Hb); [lia|]. simpl.
    case_decide as Hab.
    + rewrite u32_small by lia. destruct (IH (i + 1)) as (r & -> & Hr); [lia..|].
      exists r. split; [done|]. rewrite Hr. split; intros Hk k Hik; [|apply Hk; lia].
      destruct (decide (k = i)) as [->|]; [congruence|]. apply Hk. lia.
    + exists false. split; [done|]. split; [done|]. intros Hk.
      specialize (Hk i). rewrite Ha, Hb in Hk. naive_solver lia.
Qed.

(** The scan of whole matrices. *)
Lemma MatricesAreEqual_eq R C src dst :
  0 ≤ R * C < 2 ^ 32 → zlen src = R * C → zlen dst = R * C →
  MatricesAreEqual src dst R C = Ok (bool_decide (src = dst)).
Proof.
  intros Hsz Hs Hd. unfold MatricesAreEqual. rewrite u32_small by done.
  destruct (MatricesAreEqual_from_spec src dst (R * C) (Z.to_nat (R * C)) 0)
    as (b & -> & Hb); [lia..|]. f_equal.
  apply eq_true_iff_eq. rewrite Hb, bool_decide_eq_true. split; [|by intros ->].
  intros H. apply zget_ext; [lia|]. by rewrite Hs.
Qed.

(** * Properties *)

(** C28: For every matrix whose cell count fits the code's 32-bit index
    arithmetic, [TransposeNaive] terminates, touches no cell outside the two
    buffers, and leaves in [dst] the transpose of [src], whatever [dst] held. *)
Theorem TransposeNaive_correct R C src dst :
  is_u32 R → is_u32 C → R * C < 2 ^ 32 → zlen src = R * C → zlen dst = R * C →
  ∃ dst', TransposeNaive src dst R C = Ok dst' ∧ zlen dst' = R * C ∧ is_transpose R C src dst'.
Proof.
  intros HR HC Hsz Hs Hd. exists (transpose R C src). split_and!.
  - by apply TransposeNaive_spec.
  - apply zlen_transpose. pose proof (zlen_nonneg src). lia.
  - by apply transpose_is_transpose.
Qed.

Lemma TransposeNaive_correct_witness :
  ∃ dst', TransposeNaive [1; 2; 3; 4; 5; 6] [0; 0; 0; 0; 0; 0] 3 2 = Ok dst' ∧
          zlen dst' = 3 * 2 ∧ is_transpose 3 2 [1; 2; 3; 4; 5; 6] dst'.
Proof. apply TransposeNaive_correct; by vm_compute. Defined.

(** Transposing twice, with the dimensions exchanged, restores the matrix. *)
Theorem TransposeNaive_involutive R C src dst dst2 :
  is_u32 R → is_u32 C → R * C < 2 ^ 32 →
  zlen src = R * C → zlen dst = R * C → zlen dst2 = R * C →
  (TransposeNaive src dst R C ≫= λ t, TransposeNaive t dst2 C R) = Ok src.
Proof.
  intros HR HC Hsz Hs Hd Hd2. unfold is_u32 in *.
  assert (zlen (transpose R C src) = R * C) by (apply zlen_transpose; lia).
  rewrite TransposeNaive_spec by done. cbn [mbind result_bind].
  rewrite TransposeNaive_spec by lia. f_equal. symmetry.
  apply is_transpose_eq; [lia| |lia..].
  by apply is_transpose_sym, transpose_is_transpose.
Qed.

Lemma TransposeNaive_involutive_witness :
  (TransposeNaive [1; 2; 3; 4; 5; 6] (replicate 6 0) 2 3 ≫=
     λ t, TransposeNaive t (replicate 6 9) 3 2) = Ok [1; 2; 3; 4; 5; 6].
Proof. apply TransposeNaive_involutive; by vm_compute. Defined.

(** [MatricesAreEqual] decides equality of two buffers of [R * C] cells when
    that count fits in 32 bits: it terminates, reads only inside the buffers,
    and answers [true] exactly on equal buffers. *)
Theorem MatricesAreEqual_decides R C src dst :
  0 ≤ R * C < 2 ^ 32 → zlen src = R * C → zlen dst = R * C →
  MatricesAreEqual src dst R C = Ok (bool_decide (src = dst)).
Proof.
  apply MatricesAreEqual_eq.
Qed.

Lemma MatricesAreEqual_decides_witness :
  MatricesAreEqual [1; 3; 2; 4] [1; 3; 2; 5] 2 2 = Ok false.
Proof.
  etransitivity; [apply MatricesAreEqual_decides|]; by vm_compute.
Defined.

(** The 32-bit bound of [MatricesAreEqual]: matrices whose cell count is a
    multiple of 2^32 (such as 65536 x 65536) compare equal whatever they hold,
    without any cell being read. *)
Theorem MatricesAreEqual_wraps src dst m n :
  0 ≤ m → 0 ≤ n → 32 ≤ m + n → MatricesAreEqual src dst (2 ^ m) (2 ^ n) = Ok true.
Proof.
  intros Hm Hn H. unfold MatricesAreEqual, u32.
  rewrite <-Z.pow_add_r by done. replace (m + n) with (m + n - 32 + 32) by lia.
  rewrite Z.pow_add_r, Z_mod_mult by lia. done.
Qed.

Lemma MatricesAreEqual_wraps_witness :
  MatricesAreEqual [1] [2] (2 ^ 16) (2 ^ 16) = Ok true.
Proof. apply MatricesAreEqual_wraps; lia. Defined.
