(* ===== verification/TiledTranspose.v ===== *)
(** The multi-threaded tiled transpose of
    [src/lib/mat-transpose/TransposeTiledMultiThreaded.cpp]: the construction of
    the block list, the accesses each worker thread performs, and the
    interleaving semantics of the threads on the shared destination buffer. *)

From S2P Require Import Prelude Transpose.
#[local] Open Scope Z_scope.

(** * The code *)

(** [struct Block]. *)
Record Block := mkBlock { iStart : Z; iEnd : Z; jStart : Z; jEnd : Z }.

#[export] Instance Block_eq_dec : EqDecision Block.
Proof. solve_decision. Defined.

(** [std::vector<Block> blocks(n)] value-initialises its elements. *)
Definition Block_zero : Block := mkBlock 0 0 0 0.

(** [(count + tileSize - 1) / tileSize] in 32-bit arithmetic. *)
Definition numBlocks (count tileSize : Z) : Z := u32 (u32 (count + tileSize) - 1) / tileSize.

(** The block of tile row [bi] and tile column [bj].  The declarations
    [iEnd = iStart + tileSize, rowCount] and [jEnd = jStart + tileSize, colCount]
    introduce fresh, unused locals named [rowCount] and [colCount]: the ends are
    not clamped to the matrix. *)
Definition tile_block (tileSize bi bj : Z) : Block :=
  let iStart := u32 (bi * tileSize) in
  let jStart := u32 (bj * tileSize) in
  mkBlock iStart (u32 (iStart + tileSize)) jStart (u32 (jStart + tileSize)).

(** The vector starts with one zero block per tile and the loops push the real
    blocks after them.  A zero tile size divides by zero. *)
Definition make_blocks (rowCount colCount tileSize : Z) : result (list Block) :=
  if decide (tileSize = 0) then Undef else
  let numBlocksInRow := numBlocks rowCount tileSize in
  let numBlocksInCol := numBlocks colCount tileSize in
  for_loop (λ bj, for_loop (λ bi blocks,
      Ok (blocks ++ [tile_block tileSize bi bj])) 0 numBlocksInRow) 0 numBlocksInCol
    (replicate (Z.to_nat (u32 (numBlocksInRow * numBlocksInCol))) Block_zero).

(** The shared-memory accesses of a worker, in program order: the statement
    [dst[j * rowCount + i] = src[i * colCount + j]] loads a cell of [src] into a
    register and stores the register into a cell of [dst]. *)
Inductive access :=
  | ALoad (s : Z)
  | AStore (d : Z).

#[export] Instance access_eq_dec : EqDecision access.
Proof. solve_decision. Defined.

(** The two inner loops, over one block. *)
Definition block_accesses (rowCount colCount : Z) (b : Block) : result (list access) :=
  for_loop (λ i, for_loop (λ j acc,
      Ok (acc ++ [ALoad (src_index colCount i j); AStore (dst_index rowCount i j)]))
    (jStart b) (jEnd b)) (iStart b) (iEnd b) [].

(** [for (size_t idx = t; idx < blocks.size(); idx += numThreads)]. *)
Fixpoint thread_accesses (fuel : nat) (rowCount colCount numThreads : Z)
    (blocks : list Block) (idx : Z) : result (list access) :=
  match zget blocks idx with
  | None => Ok []
  | Some b =>
      match fuel with
      | O => NoFuel
      | S fuel' =>
          now ← block_accesses rowCount colCount b;
          later ← thread_accesses fuel' rowCount colCount numThreads blocks
                    (u64 (idx + numThreads));
          Ok (now ++ later)
      end
  end.

(** A running worker: the accesses left and the register of the load. *)
Record worker := mkWorker { prog : list access; reg : Z }.

(** The call in flight: its workers and the destination buffer, or an access
    outside a buffer (undefined behaviour). *)
Inductive tiled_state :=
  | Running (workers : list worker) (dst : list Z)
  | Faulted.

(** One access of one worker. *)
Definition worker_step (src : list Z) (w : worker) (dst : list Z) : option (result (worker * list Z)) :=
  match prog w with
  | [] => None
  | ALoad s :: rest => Some (v ← load src s; Ok (mkWorker rest v, dst))
  | AStore d :: rest => Some (dst' ← store dst d (reg w); Ok (mkWorker rest (reg w), dst'))
  end.

Inductive tiled_step (src : list Z) : tiled_state → tiled_state → Prop :=
  | tiled_step_ok ws dst (t : nat) w w' dst' :
      ws !! t = Some w → worker_step src w dst = Some (Ok (w', dst')) →
      tiled_step src (Running ws dst) (Running (<[t := w']> ws) dst')
  | tiled_step_fault ws dst (t : nat) w :
      ws !! t = Some w → worker_step src w dst = Some Undef →
      tiled_step src (Running ws dst) Faulted.

(** The workers of the call, [threads[t]] for [t < numThreads]. *)
Definition make_workers (rowCount colCount numThreads : Z) (blocks : list Block) : result (list worker) :=
  for_loop (λ t ws,
      p ← thread_accesses (S (length blocks)) rowCount colCount numThreads blocks t;
      Ok (ws ++ [mkWorker p 0])) 0 numThreads [].

(** The call up to the joins: the state in which all workers exist. *)
Definition tiled_start (rowCount colCount tileSize numThreads : Z) (dst : list Z) : result tiled_state :=
  blocks ← make_blocks rowCount colCount tileSize;
  ws ← make_workers rowCount colCount numThreads blocks;
  Ok (Running ws dst).

(** All workers have been joined. *)
Definition tiled_done (s : tiled_state) : Prop :=
  match s with
  | Running ws _ => Forall (λ w, prog w = []) ws
  | Faulted => False
  end.

(** [TransposeTiledMultiThreaded] may return with the destination holding [out]. *)
Definition tiled_returns (src dst : list Z) (rowCount colCount tileSize numThreads : Z)
    (out : list Z) : Prop :=
  ∃ s ws, tiled_start rowCount colCount tileSize numThreads dst = Ok s ∧
          rtc (tiled_step src) s (Running ws out) ∧ tiled_done (Running ws out).

(** * The cells of a block and of a worker *)

(** The accesses that transpose a list of cells, one after the other. *)
Definition cells_prog (R C : Z) (l : list (Z * Z)) : list access :=
  l ≫= λ c, [ALoad (src_index C c.1 c.2); AStore (dst_index R c.1 c.2)].

Definition block_cells (b : Block) : list (Z * Z) :=
  seqZ (iStart b) (iEnd b - iStart b) ≫= λ i,
  seqZ (jStart b) (jEnd b - jStart b) ≫= λ j, [(i, j)].

Lemma cells_prog_app R C l1 l2 : cells_prog R C (l1 ++ l2) = cells_prog R C l1 ++ cells_prog R C l2.
Proof. apply bind_app. Qed.

Lemma cells_prog_bind R C {A} (f : A → list (Z * Z)) l :
  cells_prog R C (l ≫= f) = l ≫= λ x, cells_prog R C (f x).
Proof. induction l as [|x l IH]; [done|]. by rewrite !bind_cons, cells_prog_app, IH. Qed.

Lemma elem_of_cells_prog R C l d :
  AStore d ∈ cells_prog R C l ↔ ∃ i j, (i, j) ∈ l ∧ d = dst_index R i j.
Proof.
  unfold cells_prog. rewrite list_elem_of_bind. split.
  - intros ([i j] & Hd & Hl). rewrite !elem_of_cons, elem_of_nil in Hd. naive_solver.
  - intros (i & j & Hl & ->). exists (i, j). rewrite !elem_of_cons. auto.
Qed.

Lemma elem_of_block_cells b i j :
  (i, j) ∈ block_cells b ↔ iStart b ≤ i < iEnd b ∧ jStart b ≤ j < jEnd b.
Proof.
  unfold block_cells. rewrite list_elem_of_bind. split.
  - intros (i' & Hj & Hi). rewrite list_elem_of_bind in Hj. destruct Hj as (j' & Heq & Hj).
    apply list_elem_of_singleton in Heq. rewrite elem_of_seqZ in *. naive_solver lia.
  - intros [Hi Hj]. exists i. rewrite elem_of_seqZ. split; [|lia].
    apply list_elem_of_bind. exists j. rewrite elem_of_seqZ, list_elem_of_singleton. split; [done|lia].
Qed.

Definition block_ok (b : Block) : Prop :=
  0 ≤ iStart b ≤ iEnd b ∧ iEnd b < 2 ^ 32 ∧ 0 ≤ jStart b ≤ jEnd b ∧ jEnd b < 2 ^ 32.

Lemma block_accesses_eq R C b :
  block_ok b → block_accesses R C b = Ok (cells_prog R C (block_cells b)).
Proof.
  intros (? & ? & ? & ?). unfold block_accesses, block_cells. rewrite cells_prog_bind.
  rewrite <-(app_nil_l (_ ≫= _)). apply for_loop_append; [done..|].
  intros i acc Hi. rewrite cells_prog_bind. by apply for_loop_append.
Qed.

Lemma thread_accesses_eq R C N blocks fuel idx :
  0 < N < 2 ^ 32 → 0 ≤ idx → zlen blocks < 2 ^ 63 → Forall block_ok blocks →
  zlen blocks - idx ≤ Z.of_nat fuel →
  ∃ l, thread_accesses fuel R C N blocks idx = Ok (cells_prog R C l) ∧
       ∀ c, c ∈ l ↔ ∃ k b, 0 ≤ k ∧ zget blocks (idx + k * N) = Some b ∧ c ∈ block_cells b.
Proof.
  intros HN. revert idx. induction fuel as [|fuel IH]; intros idx Hidx Hlen Hok Hfuel; simpl.
  all: destruct (zget blocks idx) as [b|] eqn:Hb.
  2,4: exists []; split; [done|]; intros c; split; [set_solver|]; intros (k & b & Hk & Hb' & _);
       apply zget_Some_range in Hb'; apply zget_None_ge in Hb; nia.
  - apply zget_Some_range in Hb. lia.
  - pose proof (zget_Some_range _ _ _ Hb). rewrite block_accesses_eq.
    2:{ rewrite Forall_lookup in Hok. rewrite zget_to_nat in Hb by done. eauto. }
    rewrite u64_small by lia. destruct (IH (idx + N)) as (l & -> & Hl); [lia|done|done|lia|].
    simpl. rewrite <-cells_prog_app. eexists. split; [done|]. intros c.
    rewrite elem_of_app, Hl. split.
    + intros [Hc|(k & b' & ? & Hb' & Hc)].
      * exists 0, b. rewrite Z.mul_0_l, Z.add_0_r. auto with lia.
      * exists (k + 1), b'. replace (idx + (k + 1) * N) with (idx + N + k * N) by lia. auto with lia.
    + intros (k & b' & Hk & Hb' & Hc). destruct (decide (k = 0)) as [->|].
      * left. rewrite Z.mul_0_l, Z.add_0_r in Hb'. congruence.
      * right. exists (k - 1), b'. replace (idx + N + (k - 1) * N) with (idx + k * N) by lia. auto with lia.
Qed.

(** * The blocks of a call *)

Lemma numBlocks_eq count T :
  0 ≤ count → 0 < T → count + T ≤ 2 ^ 32 → numBlocks count T = (count + T - 1) / T.
Proof.
  intros. unfold numBlocks. autorewrite with word. by rewrite u32_small by lia.
Qed.

(** The ceiling of [count / T], in the form the proofs use. *)
Lemma ceil_bounds count T (n := (count + T - 1) / T) :
  0 ≤ count → 0 < T → 0 ≤ n ≤ count ∧ count ≤ n * T ∧ n * T < count + T.
Proof.
  intros Hc HT. pose proof (Z.div_mod (count + T - 1) T) as Hd.
  pose proof (Z.mod_pos_bound (count + T - 1) T HT) as Hm. fold n in Hd. nia.
Qed.

Section tiles.
Context (R C T N : Z).
Hypothesis HR : 0 ≤ R.
Hypothesis HC : 0 ≤ C.
Hypothesis HT : 0 < T.
Hypothesis HRT : R + T ≤ 2 ^ 32.
Hypothesis HCT : C + T ≤ 2 ^ 32.
Hypothesis Hsize : R * C < 2 ^ 32.
Hypothesis HN : 0 < N < 2 ^ 32.

(** The numbers of tile rows and tile columns. *)
Definition tile_rows : Z := (R + T - 1) / T.
Definition tile_cols : Z := (C + T - 1) / T.
Definition tile_count : Z := tile_rows * tile_cols.

(** The [k]-th pushed block. *)
Definition nth_block (k : Z) : Block := tile_block T (k mod tile_rows) (k / tile_rows).

(** The thread that transposes cell [(i, j)]. *)
Definition owner (i j : Z) : Z := (tile_count + (j / T * tile_rows + i / T)) mod N.

Lemma tile_rows_bounds : 0 ≤ tile_rows ≤ R ∧ R ≤ tile_rows * T ∧ tile_rows * T < R + T.
Proof. by apply ceil_bounds. Qed.
Lemma tile_cols_bounds : 0 ≤ tile_cols ≤ C ∧ C ≤ tile_cols * T ∧ tile_cols * T < C + T.
Proof. by apply ceil_bounds. Qed.
Lemma tile_count_bounds : 0 ≤ tile_count < 2 ^ 32.
Proof.
  unfold tile_count. pose proof tile_rows_bounds. pose proof tile_cols_bounds. nia.
Qed.

Lemma tile_block_eq bi bj :
  0 ≤ bi < tile_rows → 0 ≤ bj < tile_cols →
  tile_block T bi bj = mkBlock (bi * T) (bi * T + T) (bj * T) (bj * T + T).
Proof.
  intros Hi Hj. pose proof tile_rows_bounds. pose proof tile_cols_bounds.
  unfold tile_block. rewrite !u32_add_l.
  rewrite !u32_small by nia. done.
Qed.

(** The loops push [nth_block 0], [nth_block 1], ... in this order. *)
Lemma make_blocks_eq :
  make_blocks R C T =
  Ok (replicate (Z.to_nat tile_count) Block_zero ++ (nth_block <$> seqZ 0 tile_count)).
Proof.
  unfold make_blocks. rewrite decide_False by lia. rewrite !numBlocks_eq by done.
  fold tile_rows tile_cols. pose proof tile_rows_bounds. pose proof tile_cols_bounds.
  pose proof tile_count_bounds as Hcount. rewrite u32_small by done. fold tile_count.
  set (pre := replicate _ _).
  for_loop_by (λ bj blocks, blocks = pre ++ (nth_block <$> seqZ 0 (bj * tile_rows))) bs Hbs;
    [lia..| | |].
  - by rewrite app_nil_r.
  - intros bj bs Hbj ->.
    for_loop_by (λ bi blocks, blocks = pre ++ (nth_block <$> seqZ 0 (bj * tile_rows + bi))) bs Hbs;
      [lia..| | |].
    + by rewrite Z.add_0_r.
    + intros bi bs Hbi ->. eexists. split; [done|].
      rewrite Z.add_assoc, <-app_assoc, seqZ_snoc, fmap_app by nia. do 2 f_equal.
      unfold nth_block. simpl. rewrite Z.div_add_l, Z.div_small, Z.add_0_r by lia.
      rewrite (Z.add_comm _ bi), Z.mod_add, Z.mod_small by lia. done.
    + eexists. split; [done|]. rewrite Hbs. do 3 f_equal. lia.
  - rewrite Hbs. unfold tile_count. by rewrite Z.mul_comm.
Qed.

Definition call_blocks : list Block :=
  replicate (Z.to_nat tile_count) Block_zero ++ (nth_block <$> seqZ 0 tile_count).

Lemma zlen_call_blocks : zlen call_blocks = 2 * tile_count.
Proof.
  pose proof tile_count_bounds. unfold call_blocks.
  rewrite zlen_app, zlen_replicate, zlen_fmap, zlen_seqZ by lia. lia.
Qed.

Lemma call_blocks_lookup idx b :
  zget call_blocks idx = Some b ↔
  (0 ≤ idx < tile_count ∧ b = Block_zero) ∨
  (tile_count ≤ idx < 2 * tile_count ∧ b = nth_block (idx - tile_count)).
Proof.
  pose proof tile_count_bounds as Hc. unfold call_blocks.
  destruct (decide (0 ≤ idx)); [|rewrite zget_None by lia; naive_solver lia].
  destruct (decide (idx < tile_count)).
  - rewrite zget_app_l by (rewrite zlen_replicate; lia).
    rewrite zget_replicate by lia. naive_solver lia.
  - rewrite zget_app_r, zlen_replicate, Z2Nat.id by (rewrite ?zlen_replicate; lia).
    rewrite zget_fmap. destruct (decide (idx < 2 * tile_count)).
    + rewrite zget_seqZ by lia. simpl. naive_solver lia.
    + rewrite zget_None by (rewrite zlen_seqZ; lia). simpl. naive_solver lia.
Qed.

Lemma nth_block_range k :
  0 ≤ k < tile_count → 0 ≤ k mod tile_rows < tile_rows ∧ 0 ≤ k / tile_rows < tile_cols ∧
  k = k / tile_rows * tile_rows + k mod tile_rows.
Proof.
  unfold tile_count. intros Hk. pose proof tile_rows_bounds.
  destruct (index_surj tile_cols tile_rows k) as (? & ? & ?); [lia..|]. auto.
Qed.

Lemma call_blocks_ok : Forall block_ok call_blocks.
Proof.
  apply Forall_lookup. intros n b Hb. rewrite <-zget_of_nat, call_blocks_lookup in Hb.
  destruct Hb as [[_ ->]|[Hk ->]]; [by repeat split; simpl|].
  destruct (nth_block_range (Z.of_nat n - tile_count)) as (Hi & Hj & _); [lia|].
  unfold nth_block. rewrite tile_block_eq by done.
  pose proof tile_rows_bounds. pose proof tile_cols_bounds. unfold block_ok. simpl. nia.
Qed.

(** The cells of pushed block [k] are those whose tile is [k]. *)
Lemma nth_block_cells k i j :
  0 ≤ k < tile_count →
  (i, j) ∈ block_cells (nth_block k) ↔
  0 ≤ i < tile_rows * T ∧ 0 ≤ j < tile_cols * T ∧ k = j / T * tile_rows + i / T.
Proof.
  intros Hk. destruct (nth_block_range k Hk) as (Hi & Hj & Hkeq).
  rewrite elem_of_block_cells. unfold nth_block at 1 2 3 4. rewrite tile_block_eq by done. simpl.
  set (bi := k mod tile_rows) in *. set (bj := k / tile_rows) in *.
  pose proof (Z.div_mod i T). pose proof (Z.mod_pos_bound i T HT).
  pose proof (Z.div_mod j T). pose proof (Z.mod_pos_bound j T HT). split.
  - intros [Hbi Hbj]. assert (i / T = bi) by nia. assert (j / T = bj) by nia. nia.
  - intros (Hi' & Hj' & Hk'). assert (0 ≤ i / T < tile_rows) by nia.
    assert (bj = j / T ∧ bi = i / T) as [-> ->] by (apply (index_inj tile_rows); lia). lia.
Qed.

(** Worker [t] transposes exactly the cells it owns. *)
Lemma thread_cells t :
  0 ≤ t < N →
  ∃ l, thread_accesses (S (length call_blocks)) R C N call_blocks t = Ok (cells_prog R C l) ∧
       ∀ i j, (i, j) ∈ l ↔
         0 ≤ i < tile_rows * T ∧ 0 ≤ j < tile_cols * T ∧ owner i j = t.
Proof.
  intros Ht. pose proof tile_count_bounds. pose proof zlen_call_blocks as Hlen.
  destruct (thread_accesses_eq R C N call_blocks (S (length call_blocks)) t) as (l & Hl & Hin);
    [lia..|apply call_blocks_ok|unfold zlen; lia|].
  exists l. split; [done|]. intros i j. rewrite Hin. split.
  - intros (k & b & Hk & [[_ ->]|[Hidx ->]]%call_blocks_lookup & Hc).
    + apply elem_of_block_cells in Hc. simpl in Hc. lia.
    + apply nth_block_cells in Hc as (Hi & Hj & Heq); [|lia]. split_and!; [lia..|].
      unfold owner. rewrite <-Heq. replace (_ + _) with (t + k * N) by lia.
      rewrite Z.mod_add, Z.mod_small; lia.
  - intros (Hi & Hj & Ho). unfold owner in Ho.
    set (kk := j / T * tile_rows + i / T) in *.
    assert (0 ≤ kk < tile_count).
    { pose proof (Z.div_pos i T). pose proof (Z.div_pos j T).
      pose proof (Z.div_lt_upper_bound i T tile_rows). pose proof (Z.div_lt_upper_bound j T tile_cols).
      unfold kk, tile_count. nia. }
    exists ((tile_count + kk) / N), (nth_block kk). split_and!; [apply Z.div_pos; lia| |].
    + apply call_blocks_lookup. right. pose proof (Z.div_mod (tile_count + kk) N).
      split; [|f_equal]; lia.
    + apply nth_block_cells; [done|]. auto.
Qed.

(** The workers of the call, each about to run the cells it owns. *)
Definition workers_spec (n : Z) (ws : list worker) : Prop :=
  zlen ws = n ∧
  ∀ t, 0 ≤ t < n → ∃ l, zget ws t = Some (mkWorker (cells_prog R C l) 0) ∧
    ∀ i j, (i, j) ∈ l ↔ 0 ≤ i < tile_rows * T ∧ 0 ≤ j < tile_cols * T ∧ owner i j = t.

Lemma make_workers_eq : ∃ ws, make_workers R C N call_blocks = Ok ws ∧ workers_spec N ws.
Proof.
  unfold make_workers. for_loop_by workers_spec ws Hws; [lia..| | |by eauto].
  { split; [done|]. lia. }
  intros t ws Ht [Hlen Hws]. destruct (thread_cells t Ht) as (l & -> & Hl). simpl.
  eexists. split; [done|]. split; [rewrite zlen_app, Hlen; done|].
  intros t' Ht'. destruct (decide (t' = t)) as [->|Hne].
  - exists l. rewrite zget_app_r, Hlen, Z.sub_diag by lia. done.
  - rewrite zget_app_l by lia. apply Hws. lia.
Qed.

Lemma tiled_start_eq dst :
  ∃ ws, tiled_start R C T N dst = Ok (Running ws dst) ∧ workers_spec N ws.
Proof.
  unfold tiled_start. rewrite make_blocks_eq. simpl. fold call_blocks.
  destruct make_workers_eq as (ws & -> & Hws). by exists ws.
Qed.
End tiles.

(** * The invariant of the workers *)

Section interleaving.
Context (R C : Z) (src : list Z).
Hypothesis Hsize : R * C < 2 ^ 32.
Hypothesis Hsrc : zlen src = R * C.

Definition cell_ok (c : Z * Z) : Prop := 0 ≤ c.1 < R ∧ 0 ≤ c.2 < C.

(** A worker is between two cells, or holds the loaded value of the cell it is
    about to store. *)
Inductive worker_ok : worker → Prop :=
  | worker_between l r :
      Forall cell_ok l → worker_ok (mkWorker (cells_prog R C l) r)
  | worker_loaded i j l r :
      cell_ok (i, j) → Forall cell_ok l → zget src (i * C + j) = Some r →
      worker_ok (mkWorker (AStore (dst_index R i j) :: cells_prog R C l) r).

(** Cell [(i, j)] is transposed, or some worker still has to store it. *)
Definition covered (ws : list worker) (dst : list Z) (i j : Z) : Prop :=
  zget dst (j * R + i) = zget src (i * C + j) ∨
  ∃ (t : nat) w, ws !! t = Some w ∧ AStore (j * R + i) ∈ prog w.

Definition tiled_inv (s : tiled_state) : Prop :=
  match s with
  | Running ws dst =>
      zlen dst = R * C ∧ Forall worker_ok ws ∧
      ∀ i j, 0 ≤ i < R → 0 ≤ j < C → covered ws dst i j
  | Faulted => False
  end.

(** A well-formed worker never faults; a load leaves the destination alone,
    and a store writes the transposed value of its cell. *)
Lemma worker_step_ok w dst r :
  worker_ok w → zlen dst = R * C → worker_step src w dst = Some r →
  ∃ w' dst', r = Ok (w', dst') ∧ worker_ok w' ∧
    ((∃ s, prog w = ALoad s :: prog w' ∧ dst' = dst) ∨
     (∃ i j v, cell_ok (i, j) ∧ prog w = AStore (j * R + i) :: prog w' ∧
        zget src (i * C + j) = Some v ∧ dst' = zset dst (j * R + i) v)).
Proof.
  intros Hw Hlen Hstep. destruct Hw as [l r0 Hl|i j l r0 [Hi Hj] Hl Hv].
  - destruct l as [|[i j] l]; [done|].
    apply Forall_cons in Hl as [[Hi Hj] Hl]. simpl in Hi, Hj.
    unfold worker_step in Hstep. simpl in Hstep. injection Hstep as <-.
    rewrite (src_index_small R) by done.
    destruct (load_in_range src (i * C + j)) as (v & -> & Hv).
    { rewrite Hsrc. by apply index_bound. }
    eexists (mkWorker (AStore _ :: cells_prog R C l) v), dst. split; [done|]. split.
    + by constructor.
    + left. eexists. split; [|done]. unfold cells_prog. rewrite bind_cons. simpl. done.
  - simpl in Hi, Hj. unfold worker_step in Hstep. simpl in Hstep. injection Hstep as <-.
    rewrite (dst_index_small R C) by done. pose proof (index_bound C R j i Hj Hi).
    rewrite store_in_range by lia. eexists _, _. split; [done|]. split; [by constructor|].
    right. by exists i, j, r0.
Qed.

Lemma covered_step ws dst (t : nat) w w' dst' i j :
  ws !! t = Some w → zlen dst = R * C → cell_ok (i, j) →
  ((∃ s, prog w = ALoad s :: prog w' ∧ dst' = dst) ∨
   (∃ i j v, cell_ok (i, j) ∧ prog w = AStore (j * R + i) :: prog w' ∧
      zget src (i * C + j) = Some v ∧ dst' = zset dst (j * R + i) v)) →
  covered ws dst i j → covered (<[t := w']> ws) dst' i j.
Proof.
  intros Hw Hlen [Hi Hj] Hstep Hcov. simpl in Hi, Hj. unfold covered.
  pose proof (lookup_lt_Some _ _ _ Hw) as Ht.
  assert (∀ a, a ∈ prog w → a ∈ prog w' ∨ prog w = a :: prog w') as Hhead.
  { intros a Ha. destruct Hstep as [(? & Hp & _)|(? & ? & ? & _ & Hp & _)];
      rewrite Hp in *; apply elem_of_cons in Ha as [->|]; auto. }
  assert (zget dst' (j * R + i) = zget src (i * C + j) ∨ zget dst' (j * R + i) = zget dst (j * R + i)
          ∧ prog w ≠ AStore (j * R + i) :: prog w') as [|[Hsame Hne]]; [|by left|].
  { destruct Hstep as [(? & Hp & ->)|(i' & j' & v & [Hi' Hj'] & Hp & Hv & ->)].
    - right. split; [done|]. by rewrite Hp.
    - simpl in Hi', Hj'. destruct (decide (j' * R + i' = j * R + i)) as [Heq|Hne].
      + left. rewrite Heq, zget_zset_eq by (rewrite Hlen, (Z.mul_comm R); by apply index_bound).
        apply (index_inj R) in Heq as [-> ->]; [done|lia..].
      + right. rewrite zget_zset_ne by done. split; [done|]. rewrite Hp. naive_solver. }
  destruct Hcov as [Hdone|(t' & w1 & Ht' & Hin)]; [left; congruence|right].
  destruct (decide (t' = t)) as [->|].
  - exists t, w'. rewrite list_lookup_insert_eq by done. split; [done|].
    assert (w1 = w) as -> by congruence. destruct (Hhead _ Hin); naive_solver.
  - exists t', w1. by rewrite list_lookup_insert_ne.
Qed.

Lemma tiled_inv_step s s' : tiled_inv s → tiled_step src s s' → tiled_inv s'.
Proof.
  intros Hinv Hstep. destruct Hstep as [ws dst t w w' dst' Hw Hs|ws dst t w Hw Hs];
    destruct Hinv as (Hlen & Hws & Hcov);
    pose proof (proj1 (Forall_lookup _ _) Hws _ _ Hw) as Hok;
    destruct (worker_step_ok _ _ _ Hok Hlen Hs) as (w1 & dst1 & Heq & Hok' & Heff); [|done].
  injection Heq as <- <-. split_and!.
  - destruct Heff as [(? & _ & ->)|(? & ? & ? & _ & _ & _ & ->)]; by rewrite ?zlen_zset.
  - by apply Forall_insert.
  - intros i j Hi Hj. eapply covered_step; eauto. by split.
Qed.
End interleaving.

(** * Progress and termination *)

Definition work (s : tiled_state) : nat :=
  match s with
  | Running ws _ => S (sum_list_with (λ w, length (prog w)) ws)
  | Faulted => 0
  end.

Lemma worker_step_length src w dst w' dst' :
  worker_step src w dst = Some (Ok (w', dst')) → length (prog w) = S (length (prog w')).
Proof.
  unfold worker_step. destruct (prog w) as [|[?|?] rest]; [done|..];
    intros H; injection H as H; apply result_bind_Ok in H as (? & _ & H); by simplify_eq/=.
Qed.

Lemma work_decreases src s s' : tiled_step src s s' → (work s' < work s)%nat.
Proof.
  destruct 1 as [ws dst t w w' dst' Hw Hs|ws dst t w Hw Hs]; simpl; [|lia].
  apply worker_step_length in Hs.
  pose proof (sum_list_with_insert (λ w, length (prog w)) ws t w w' Hw). simpl in *. lia.
Qed.

(** As long as a worker has work left, it can perform its next access. *)
Lemma tiled_progress src ws dst :
  tiled_done (Running ws dst) ∨ ∃ s', tiled_step src (Running ws dst) s'.
Proof.
  simpl. destruct (decide (Forall (λ w, prog w = []) ws)) as [|Hn]; [by left|right].
  apply not_Forall_Exists in Hn; [|apply _]. apply Exists_exists in Hn as (w & Hin & Hw).
  apply list_elem_of_lookup in Hin as [t Ht].
  assert ((∃ w' d', worker_step src w dst = Some (Ok (w', d'))) ∨
          worker_step src w dst = Some Undef) as [(w' & d' & Hs)|Hs].
  { unfold worker_step, load, store. destruct (prog w) as [|[a|d] rest] eqn:Hp; [done|..].
    - destruct (zget src a); simpl; eauto.
    - case_decide; simpl; eauto. }
  - eexists. by eapply tiled_step_ok.
  - eexists. by eapply tiled_step_fault.
Qed.

Lemma ceil_exact count T : 0 < T → (T | count) → (count + T - 1) / T * T = count.
Proof.
  intros HT [q ->]. replace (q * T + T - 1) with (q * T + (T - 1)) by lia.
  rewrite Z.div_add_l, (Z.div_small (T - 1)) by lia. lia.
Qed.

(** The state in which the workers start satisfies the invariant. *)
Lemma tiled_inv_start R C T N src dst ws :
  0 ≤ R → 0 ≤ C → 0 < T → (T | R) → (T | C) → R * C < 2 ^ 32 → zlen dst = R * C →
  0 < N → workers_spec R C T N N ws → tiled_inv R C src (Running ws dst).
Proof.
  intros HR HC HT HRT HCT Hsz Hdst HN [Hlen Hws].
  unfold tile_rows, tile_cols in Hws. setoid_rewrite (ceil_exact R T HT HRT) in Hws.
  setoid_rewrite (ceil_exact C T HT HCT) in Hws. split_and!; [done| |].
  - apply Forall_lookup. intros n w Hw. pose proof (lookup_lt_Some _ _ _ Hw).
    destruct (Hws (Z.of_nat n)) as (l & Hl & Hin); [unfold zlen in Hlen; lia|].
    rewrite zget_of_nat, Hw in Hl. injection Hl as ->. constructor.
    apply Forall_forall. intros [i j] (? & ? & _)%Hin. by split.
  - intros i j Hi Hj. right. assert (0 ≤ owner R C T N i j < N) as Ho by (apply Z.mod_pos_bound; lia).
    destruct (Hws _ Ho) as (l & Hl & Hin). rewrite zget_to_nat in Hl by lia.
    eexists _, _. split; [exact Hl|]. apply elem_of_cells_prog. exists i, j.
    rewrite (dst_index_small R C) by done. split; [|done]. by apply Hin.
Qed.

Lemma tiled_inv_done R C src ws dst :
  0 ≤ R → zlen src = R * C → tiled_inv R C src (Running ws dst) →
  tiled_done (Running ws dst) → dst = transpose R C src.
Proof.
  intros HR Hsrc (Hlen & _ & Hcov) Hdone. apply is_transpose_eq; [done| |done..].
  intros i j Hi Hj. destruct (Hcov i j Hi Hj) as [|(t & w & Hw & Hin)]; [done|].
  simpl in Hdone. rewrite Forall_lookup in Hdone. rewrite (Hdone _ _ Hw) in Hin. by apply elem_of_nil in Hin.
Qed.

(** What a call may return when the tile size divides both dimensions: the
    transpose, and nothing else. *)
Lemma tiled_returns_transpose R C T N src dst out :
  0 ≤ R → 0 ≤ C → 0 < T → (T | R) → (T | C) → R + T ≤ 2 ^ 32 → C + T ≤ 2 ^ 32 →
  R * C < 2 ^ 32 → 0 < N < 2 ^ 32 → zlen src = R * C → zlen dst = R * C →
  tiled_returns src dst R C T N out ↔ out = transpose R C src.
Proof.
  intros HR HC HT HTR HTC HRT HCT Hsz HN Hs Hd.
  destruct (tiled_start_eq R C T N HR HC HT HRT HCT Hsz HN dst) as (ws & Hstart & Hws).
  assert (tiled_inv R C src (Running ws dst)) as Hinv
    by (apply (tiled_inv_start R C T N); try done; lia).
  pose proof (tiled_inv_step R C src Hsz Hs) as Hpres. split.
  - intros (s & ws' & Hs1 & Hr & Hdone). rewrite Hstart in Hs1. injection Hs1 as <-.
    eapply tiled_inv_done; eauto. by eapply invariant_rtc.
  - intros ->. destruct (measure_reaches (tiled_step src) work (tiled_inv R C src) tiled_done
      (Running ws dst)) as (s' & Hr & Hdone); [|by intros [|]; [intros; apply tiled_progress|]|done|].
    { eauto using work_decreases. }
    destruct s' as [ws' out|]; [|done]. exists (Running ws dst), ws'. split; [done|].
    assert (out = transpose R C src) as ->; [|done].
    eapply tiled_inv_done; eauto. by eapply invariant_rtc.
Qed.

(** * Properties *)

(** C9: The tiled transpose is correct under every schedule.  When the tile size
    divides both dimensions, the call starts its workers without error; no
    interleaving of their accesses leaves the buffers, every interleaving
    terminates, a state that has not finished can always continue, and the call
    returns exactly what [TransposeNaive] computes. *)
Theorem tiled_correct R C T N src dst :
  0 ≤ R → 0 ≤ C → 0 < T → (T | R) → (T | C) → R + T ≤ 2 ^ 32 → C + T ≤ 2 ^ 32 →
  R * C < 2 ^ 32 → 0 < N < 2 ^ 32 → zlen src = R * C → zlen dst = R * C →
  ∃ s, tiled_start R C T N dst = Ok s ∧
    (∀ s', rtc (tiled_step src) s s' →
       s' ≠ Faulted ∧ (tiled_done s' ∨ ∃ s'', tiled_step src s' s'')) ∧
    (∃ bound, ∀ n s', nsteps (tiled_step src) n s s' → (n ≤ bound)%nat) ∧
    (∀ out, tiled_returns src dst R C T N out ↔ TransposeNaive src dst R C = Ok out).
Proof.
  intros HR HC HT HTR HTC HRT HCT Hsz HN Hs Hd.
  destruct (tiled_start_eq R C T N HR HC HT HRT HCT Hsz HN dst) as (ws & Hstart & Hws).
  assert (tiled_inv R C src (Running ws dst)) as Hinv
    by (apply (tiled_inv_start R C T N); try done; lia).
  pose proof (tiled_inv_step R C src Hsz Hs) as Hpres.
  exists (Running ws dst). split_and!; [done| | |].
  - intros s' Hr. pose proof (invariant_rtc _ _ _ _ Hpres Hinv Hr) as Hs'.
    destruct s' as [ws' dst'|]; [|done]. split; [done|]. apply tiled_progress.
  - exists (work (Running ws dst)). intros n s'.
    apply (measure_nsteps _ work (λ _, True)); [|done]. eauto using work_decreases.
  - intros out. rewrite TransposeNaive_spec by lia.
    rewrite (tiled_returns_transpose R C T N) by done. split; [by intros ->|by intros [= <-]].
Qed.

(** A 4 x 2 matrix in 2 x 2 tiles on three threads. *)
Lemma tiled_correct_witness :
  ∃ s, tiled_start 4 2 2 3 (replicate 8 0) = Ok s ∧
    (∀ s', rtc (tiled_step [1; 2; 3; 4; 5; 6; 7; 8]) s s' →
       s' ≠ Faulted ∧ (tiled_done s' ∨ ∃ s'', tiled_step [1; 2; 3; 4; 5; 6; 7; 8] s' s'')) ∧
    (∃ bound, ∀ n s', nsteps (tiled_step [1; 2; 3; 4; 5; 6; 7; 8]) n s s' → (n ≤ bound)%nat) ∧
    (∀ out, tiled_returns [1; 2; 3; 4; 5; 6; 7; 8] (replicate 8 0) 4 2 2 3 out ↔
       TransposeNaive [1; 2; 3; 4; 5; 6; 7; 8] (replicate 8 0) 4 2 = Ok out).
Proof.
  apply tiled_correct; try (by vm_compute); [by exists 2|by exists 1].
Defined.

(** The workers are free of data races: two different workers of a call
    never store to the same cell of the destination. *)
Theorem tiled_race_free R C T N dst ws :
  0 ≤ R → 0 ≤ C → 0 < T → (T | R) → (T | C) → R + T ≤ 2 ^ 32 → C + T ≤ 2 ^ 32 →
  R * C < 2 ^ 32 → 0 < N < 2 ^ 32 →
  tiled_start R C T N dst = Ok (Running ws dst) →
  ∀ t1 t2 w1 w2 d, zget ws t1 = Some w1 → zget ws t2 = Some w2 →
    AStore d ∈ prog w1 → AStore d ∈ prog w2 → t1 = t2.
Proof.
  intros HR HC HT HTR HTC HRT HCT Hsz HN Hstart t1 t2 w1 w2 d H1 H2 Hd1 Hd2.
  destruct (tiled_start_eq R C T N HR HC HT HRT HCT Hsz HN dst) as (ws' & Hstart' & [Hlen Hws]).
  rewrite Hstart in Hstart'. injection Hstart' as <-.
  unfold tile_rows, tile_cols in Hws. setoid_rewrite (ceil_exact R T HT HTR) in Hws.
  setoid_rewrite (ceil_exact C T HT HTC) in Hws.
  assert (∀ t w, zget ws t = Some w → AStore d ∈ prog w →
    ∃ i j, 0 ≤ i < R ∧ 0 ≤ j < C ∧ owner R C T N i j = t ∧ d = j * R + i) as Hcell.
  { intros t w Hw Hin. pose proof (zget_Some_range _ _ _ Hw) as Ht. rewrite Hlen in Ht.
    destruct (Hws t Ht) as (l & Hl & Hch). rewrite Hw in Hl. injection Hl as ->.
    apply elem_of_cells_prog in Hin as (i & j & (? & ? & ?)%Hch & ->).
    exists i, j. by rewrite (dst_index_small R C). }
  destruct (Hcell _ _ H1 Hd1) as (i1 & j1 & Hi1 & Hj1 & <- & Heq1).
  destruct (Hcell _ _ H2 Hd2) as (i2 & j2 & Hi2 & Hj2 & <- & Heq2).
  destruct (index_inj R j1 j2 i1 i2) as [-> ->]; [lia..|done].
Qed.

(** The sequential schedule used by the witness below starts from this state. *)
Lemma tiled_race_free_witness :
  ∃ ws, tiled_start 2 4 2 2 (replicate 8 0) = Ok (Running ws (replicate 8 0)) ∧
  ∀ t1 t2 w1 w2 d, zget ws t1 = Some w1 → zget ws t2 = Some w2 →
    AStore d ∈ prog w1 → AStore d ∈ prog w2 → t1 = t2.
Proof.
  eexists. split; [vm_compute; reflexivity|].
  apply (tiled_race_free 2 4 2 2 (replicate 8 0)); try (by vm_compute);
    [by exists 1|by exists 2].
Defined.

(** ** Tiles that do not divide the matrix *)

(** An access that no execution can perform: outside its buffer. *)
Definition bad_access (src dst : list Z) (a : access) : Prop :=
  match a with
  | ALoad s => ¬ (0 ≤ s < zlen src)
  | AStore d => ¬ (0 ≤ d < zlen dst)
  end.

(** A pending out-of-bounds access stays pending until it faults. *)
Definition doomed (src : list Z) (n : Z) (s : tiled_state) : Prop :=
  match s with
  | Running ws dst =>
      zlen dst = n ∧
      ∃ (t : nat) w a, ws !! t = Some w ∧ a ∈ prog w ∧ bad_access src dst a
  | Faulted => True
  end.

Lemma worker_step_bad src w dst w' dst' a :
  worker_step src w dst = Some (Ok (w', dst')) → a ∈ prog w → bad_access src dst a →
  zlen dst' = zlen dst ∧ a ∈ prog w' ∧ bad_access src dst' a.
Proof.
  unfold worker_step. intros Hs Ha Hbad.
  destruct (prog w) as [|[s|d] rest]; [done|..]; injection Hs as Hs;
    apply result_bind_Ok in Hs as (x & Hx & Hs); simplify_eq/=;
    apply elem_of_cons in Ha as [->|Ha].
  - apply load_Ok, zget_Some_range in Hx. by destruct Hbad.
  - done.
  - apply store_Ok in Hx as [Hx _]. by destruct Hbad.
  - apply store_Ok in Hx as [_ ->]. destruct a; simpl in *; by rewrite zlen_zset.
Qed.

Lemma worker_step_len src w dst w' dst' :
  worker_step src w dst = Some (Ok (w', dst')) → zlen dst' = zlen dst.
Proof.
  unfold worker_step. destruct (prog w) as [|[s|d] rest]; [done|..]; intros Hs; injection Hs as Hs;
    apply result_bind_Ok in Hs as (x & Hx & Hs); simplify_eq/=; [done|].
  apply store_Ok in Hx as [_ ->]. by rewrite zlen_zset.
Qed.

Lemma doomed_step src n s s' : doomed src n s → tiled_step src s s' → doomed src n s'.
Proof.
  intros Hd Hs. destruct Hs as [ws dst t w w' dst' Hw Hs|]; [|done].
  destruct Hd as (Hlen & t1 & w1 & a & Hw1 & Ha & Hbad).
  pose proof (worker_step_len _ _ _ _ _ Hs). pose proof (lookup_lt_Some _ _ _ Hw).
  split; [congruence|]. destruct (decide (t1 = t)) as [->|Hne].
  - assert (w1 = w) as -> by congruence.
    destruct (worker_step_bad _ _ _ _ _ _ Hs Ha Hbad) as (_ & ? & ?).
    exists t, w', a. by rewrite list_lookup_insert_eq.
  - exists t1, w1, a. rewrite list_lookup_insert_ne by done. split_and!; [done..|].
    destruct a; simpl in *; congruence.
Qed.

Lemma doomed_not_done src n s : doomed src n s → ¬ tiled_done s.
Proof.
  destruct s as [ws dst|]; [|auto]. intros (_ & t & w & a & Hw & Ha & _) Hdone.
  simpl in Hdone. rewrite Forall_lookup in Hdone. rewrite (Hdone _ _ Hw) in Ha.
  by apply elem_of_nil in Ha.
Qed.

(** Every execution of a doomed call can only end in the fault. *)
Lemma doomed_faults src n s : doomed src n s → rtc (tiled_step src) s Faulted.
Proof.
  intros Hd. destruct (measure_reaches (tiled_step src) work (doomed src n) (λ s, s = Faulted) s)
    as (s' & Hr & ->); [..|done].
  - eauto using doomed_step, work_decreases.
  - intros [ws dst|] H; [|by left]. right.
    destruct (tiled_progress src ws dst) as [Hdone|]; [|done].
    by destruct (doomed_not_done _ _ _ H).
  - done.
Qed.

Lemma ceil_inexact count T : 0 ≤ count → 0 < T → ¬ (T | count) → count < (count + T - 1) / T * T.
Proof.
  intros Hc HT Hdiv. pose proof (ceil_bounds count T Hc HT) as (? & ? & ?).
  destruct (decide (count = (count + T - 1) / T * T)) as [Heq|]; [|lia].
  destruct Hdiv. by exists ((count + T - 1) / T).
Qed.

(** The cell just outside the matrix that an overhanging tile reaches. *)
Lemma overhang_cell R C T :
  0 < R → 0 < C → 0 < T → R + T ≤ 2 ^ 32 → C + T ≤ 2 ^ 32 → R * C < 2 ^ 32 →
  ¬ ((T | R) ∧ (T | C)) →
  ∃ i j a, 0 ≤ i < tile_rows R T * T ∧ 0 ≤ j < tile_cols C T * T ∧
    a ∈ [ALoad (src_index C i j); AStore (dst_index R i j)] ∧
    ∀ src dst, zlen src = R * C → zlen dst = R * C → bad_access src dst a.
Proof.
  intros HR HC HT HRT HCT Hsz Hdiv. unfold tile_rows, tile_cols.
  pose proof (ceil_bounds R T ltac:(lia) HT) as Hr. pose proof (ceil_bounds C T ltac:(lia) HT) as Hc.
  cbv zeta in Hr, Hc.
  destruct (Znumtheory.Zdivide_dec T R) as [HdR|HdR].
  - assert (¬ (T | C)) as HdC by tauto. pose proof (ceil_inexact C T ltac:(lia) HT HdC).
    exists 0, C, (AStore (dst_index R 0 C)). split_and!; [lia..|set_solver|].
    intros src dst Hs Hd. simpl. rewrite Hd. unfold dst_index. autorewrite with word.
    rewrite u32_small; lia.
  - pose proof (ceil_inexact R T ltac:(lia) HT HdR).
    exists R, 0, (ALoad (src_index C R 0)). split_and!; [lia..|set_solver|].
    intros src dst Hs Hd. simpl. rewrite Hs. unfold src_index. autorewrite with word.
    rewrite u32_small; lia.
Qed.

Lemma cells_prog_accesses R C l i j a :
  (i, j) ∈ l → a ∈ [ALoad (src_index C i j); AStore (dst_index R i j)] → a ∈ cells_prog R C l.
Proof. intros Hl Ha. apply list_elem_of_bind. by exists (i, j). Qed.

(** C39: Tiles that overhang the matrix are not clamped (the [rowCount] and
    [colCount] in the declarations of [iEnd] and [jEnd] declare new variables).
    On a nonempty matrix with a dimension the tile size does not divide, such as
    the client's default 16 x 16 with the server's 64 x 64 tiles, the call never
    returns normally: whatever the schedule so far, it ends in an access
    outside the buffers. *)
Theorem tiled_overhang_faults R C T N src dst :
  0 < R → 0 < C → 0 < T → ¬ ((T | R) ∧ (T | C)) → R + T ≤ 2 ^ 32 → C + T ≤ 2 ^ 32 →
  R * C < 2 ^ 32 → 0 < N < 2 ^ 32 → zlen src = R * C → zlen dst = R * C →
  (∀ out, ¬ tiled_returns src dst R C T N out) ∧
  ∃ s, tiled_start R C T N dst = Ok s ∧
    ∀ s', rtc (tiled_step src) s s' → rtc (tiled_step src) s' Faulted.
Proof.
  intros HR HC HT Hdiv HRT HCT Hsz HN Hs Hd.
  destruct (tiled_start_eq R C T N ltac:(lia) ltac:(lia) HT HRT HCT Hsz HN dst) as (ws & Hstart & [Hlen Hws]).
  destruct (overhang_cell R C T HR HC HT HRT HCT Hsz Hdiv) as (i & j & a & Hi & Hj & Ha & Hbad).
  assert (doomed src (R * C) (Running ws dst)) as Hdoom.
  { split; [done|]. assert (0 ≤ owner R C T N i j < N) as Ho by (apply Z.mod_pos_bound; lia).
    destruct (Hws _ Ho) as (l & Hl & Hin). rewrite zget_to_nat in Hl by lia.
    eexists _, _, a. split; [exact Hl|]. split; [|by apply Hbad].
    apply (cells_prog_accesses R C l i j); [by apply Hin|done]. }
  split.
  - intros out (s & ws' & Hs' & Hr & Hdone). rewrite Hstart in Hs'. injection Hs' as <-.
    eapply doomed_not_done; [|exact Hdone]. by eapply invariant_rtc; [apply doomed_step|..].
  - eexists. split; [done|]. intros s' Hr. eapply doomed_faults.
    by eapply invariant_rtc; [apply doomed_step|..].
Qed.

Lemma tiled_overhang_faults_witness :
  (∀ out, ¬ tiled_returns (replicate 256 7) (replicate 256 0) 16 16 64 8 out) ∧
  ∃ s, tiled_start 16 16 64 8 (replicate 256 0) = Ok s ∧
    ∀ s', rtc (tiled_step (replicate 256 7)) s s' → rtc (tiled_step (replicate 256 7)) s' Faulted.
Proof.
  apply tiled_overhang_faults; try (by vm_compute).
  intros [[q Hq] _]. lia.
Defined.

(** With no worker thread the call returns without touching the
    destination: no cell of the matrix is transposed. *)
Lemma tiled_zero_threads R C T src dst out :
  0 < T → 0 ≤ R → 0 ≤ C → R + T ≤ 2 ^ 32 → C + T ≤ 2 ^ 32 → R * C < 2 ^ 32 →
  tiled_returns src dst R C T 0 out ↔ out = dst.
Proof.
  intros HT HR HC HRT HCT Hsz.
  assert (tiled_start R C T 0 dst = Ok (Running [] dst)) as Hstart.
  { unfold tiled_start. by rewrite make_blocks_eq. }
  split.
  - intros (s & ws & Hs & Hr & _). rewrite Hstart in Hs. injection Hs as <-.
    apply rtc_inv in Hr as [[= _ ->]|(s' & Hs & _)]; [done|]. by inversion Hs.
  - intros ->. exists (Running [] dst), []. split; [done|]. split; [done|]. by constructor.
Qed.
