(* ===== verification/ShmNames.v ===== *)
(** The names of the shared-memory objects: the [CreateShmObjectName] functions
    of [FutexSignaller], [SpscQueueRingBuffer], [SpscQueueSeqLock] and
    [SharedMatrixBuffer], the suffixes of [Constants.h], and the proof that the
    objects of a client never clash with each other or with another client's. *)

From stdpp Require Import pretty.
From S2P Require Import Prelude.
#[local] Open Scope Z_scope.

(** * The code *)

(** [std::ostringstream << x] for an unsigned integer prints it in decimal. *)
Definition dec (x : Z) : string := pretty x.

Definition FutexSignaller_CreateShmObjectName (ownerPid : Z) (nameSuffix : string) : string :=
  "futex_uid{" +:+ dec ownerPid +:+ "}" +:+ nameSuffix.

Definition SpscQueueRingBuffer_CreateShmObjectName (ownerPid : Z) (nameSuffix : string) : string :=
  "spsc_queue_buffer_uid{" +:+ dec ownerPid +:+ "}" +:+ nameSuffix.

Definition SpscQueueSeqLock_CreateShmObjectName (ownerPid : Z) (nameSuffix : string) : string :=
  "spsc_queue_buffer_uid{" +:+ dec ownerPid +:+ "}" +:+ nameSuffix.

Definition SharedMatrixBuffer_CreateShmObjectName (ownerPid k : Z) (nameSuffix : string) : string :=
  "mat_buff_uid{" +:+ dec ownerPid +:+ "}_k{" +:+ dec k +:+ "}" +:+ nameSuffix.

(** [MatrixTransposer::Constants]. *)
Definition SERVER_SOCKET_ADDRESS : string := "/tmp/transpose_server.sock".
Definition MATRIX_BUF_NAME_SUFFIX : string := "".
Definition TR_MATRIX_BUF_NAME_SUFFIX : string := "_tr".
Definition TR_GOLDEN_MATRIX_BUF_NAME_SUFFIX : string := "_tr_gold".
Definition REQ_QUEUE_NAME_SUFFIX : string := "_req".
Definition REQ_QUEUE_CAPACITY : Z := 16.
Definition MAX_CLIENTS : Z := 64.
Definition TRANSPOSE_TILE_SIZE : Z := 64.

(** * Decimal numbers contain only digits *)

Definition is_digit (c : Ascii.ascii) : bool :=
  match Ascii.is_nat c with Some _ => true | None => false end.

Fixpoint all_digits (s : string) : bool :=
  match s with
  | EmptyString => true
  | String c s' => is_digit c && all_digits s'
  end.

Lemma pretty_N_char_digit x : is_digit (pretty_N_char x) = true.
Proof. destruct x as [|[[[[]|[]|]|[[]|[]|]|]|[[[]|[]|]|[[]|[]|]|]|]]; reflexivity. Qed.

Lemma pretty_N_go_digits x s : all_digits s = true → all_digits (pretty_N_go x s) = true.
Proof.
  revert s. induction (N.lt_wf_0 x) as [x _ IH]; intros s Hs.
  destruct (decide (0 < x)%N) as [Hx|Hx].
  - rewrite pretty_N_go_step by done. apply IH; [by apply N.div_lt|].
    simpl. by rewrite pretty_N_char_digit.
  - assert (x = 0%N) as -> by lia. done.
Qed.

Lemma dec_digits x : 0 ≤ x → all_digits (dec x) = true.
Proof.
  intros Hx. destruct x as [|p|p]; [done| |lia].
  unfold dec, pretty, pretty_Z, pretty, pretty_positive, pretty, pretty_N.
  case_decide; [done|]. by apply pretty_N_go_digits.
Qed.

Lemma dec_inj x y : dec x = dec y → x = y.
Proof. apply (inj pretty). Qed.

(** A run of digits ends at the first closing brace. *)
Lemma digits_brace_inj s1 s2 r1 r2 :
  all_digits s1 = true → all_digits s2 = true →
  s1 +:+ "}" +:+ r1 = s2 +:+ "}" +:+ r2 → s1 = s2 ∧ r1 = r2.
Proof.
  revert s2. induction s1 as [|c1 s1 IH]; intros [|c2 s2]; simpl; intros H1 H2 Heq.
  - by injection Heq.
  - injection Heq as <- _. discriminate.
  - injection Heq as -> _. discriminate.
  - apply andb_true_iff in H1 as [_ H1], H2 as [_ H2]. injection Heq as -> Heq.
    destruct (IH _ H1 H2 Heq) as [-> ->]. done.
Qed.

Lemma app_inj_l p s1 s2 : p +:+ s1 = p +:+ s2 → s1 = s2.
Proof. induction p as [|c p IH]; [done|]. intros H. injection H as H. by apply IH. Qed.

Lemma braced_inj p x y r1 r2 :
  0 ≤ x → 0 ≤ y → p +:+ dec x +:+ "}" +:+ r1 = p +:+ dec y +:+ "}" +:+ r2 → x = y ∧ r1 = r2.
Proof.
  intros Hx Hy H%app_inj_l. apply digits_brace_inj in H as [?%dec_inj ?]; auto using dec_digits.
Qed.

(** The objects the client's [main] creates, in creation order: its futex, its
    request queue, and three buffers per matrix. *)
Definition client_objects (pid k : Z) : list string :=
  FutexSignaller_CreateShmObjectName pid "" ::
  SpscQueueSeqLock_CreateShmObjectName pid REQ_QUEUE_NAME_SUFFIX ::
  (seqZ 0 k ≫= λ bufferIndex,
     [ SharedMatrixBuffer_CreateShmObjectName pid bufferIndex MATRIX_BUF_NAME_SUFFIX;
       SharedMatrixBuffer_CreateShmObjectName pid bufferIndex TR_MATRIX_BUF_NAME_SUFFIX;
       SharedMatrixBuffer_CreateShmObjectName pid bufferIndex TR_GOLDEN_MATRIX_BUF_NAME_SUFFIX ]).

(** The objects the server's [AddClient] borrows for that client. *)
Definition server_objects (pid k : Z) : list string :=
  FutexSignaller_CreateShmObjectName pid "" ::
  SpscQueueSeqLock_CreateShmObjectName pid REQ_QUEUE_NAME_SUFFIX ::
  (seqZ 0 k ≫= λ bufferIndex,
     [ SharedMatrixBuffer_CreateShmObjectName pid bufferIndex MATRIX_BUF_NAME_SUFFIX;
       SharedMatrixBuffer_CreateShmObjectName pid bufferIndex TR_MATRIX_BUF_NAME_SUFFIX ]).

(** * Injectivity *)

Lemma matrix_name_inj pid1 k1 s1 pid2 k2 s2 :
  0 ≤ pid1 → 0 ≤ k1 → 0 ≤ pid2 → 0 ≤ k2 →
  SharedMatrixBuffer_CreateShmObjectName pid1 k1 s1 = SharedMatrixBuffer_CreateShmObjectName pid2 k2 s2 →
  pid1 = pid2 ∧ k1 = k2 ∧ s1 = s2.
Proof.
  intros Hp1 Hk1 Hp2 Hk2 H. unfold SharedMatrixBuffer_CreateShmObjectName in H.
  apply (braced_inj "mat_buff_uid{" pid1 pid2 ("_k{" +:+ dec k1 +:+ "}" +:+ s1)
    ("_k{" +:+ dec k2 +:+ "}" +:+ s2)) in H as [-> H]; [|done..].
  apply braced_inj in H as [-> ->]; auto.
Qed.

(** The owner's process id, as it can be read back from the name of an object. *)
Definition name_of_pid (pid : Z) (name : string) : Prop :=
  (∃ s, name = FutexSignaller_CreateShmObjectName pid s) ∨
  (∃ s, name = SpscQueueSeqLock_CreateShmObjectName pid s) ∨
  (∃ k s, 0 ≤ k ∧ name = SharedMatrixBuffer_CreateShmObjectName pid k s).

Lemma name_of_pid_inj pid1 pid2 name :
  0 ≤ pid1 → 0 ≤ pid2 → name_of_pid pid1 name → name_of_pid pid2 name → pid1 = pid2.
Proof.
  intros H1 H2 [(s1 & ->)|[(s1 & ->)|(k1 & s1 & Hk1 & ->)]] [(s2 & Heq)|[(s2 & Heq)|(k2 & s2 & Hk2 & Heq)]];
    try discriminate Heq.
  - by apply braced_inj in Heq as [-> _].
  - by apply braced_inj in Heq as [-> _].
  - by apply matrix_name_inj in Heq as (-> & _).
Qed.

Lemma client_objects_pid pid k name : name ∈ client_objects pid k → name_of_pid pid name.
Proof.
  unfold client_objects. rewrite !elem_of_cons, list_elem_of_bind.
  intros [->|[->|(i & Hname & Hi)]]; [left; eauto|right; left; eauto|right; right].
  rewrite elem_of_seqZ in Hi. rewrite !elem_of_cons, elem_of_nil in Hname.
  destruct Hname as [->|[->|[->|[]]]]; (eexists i, _; split; [lia|done]).
Qed.

Lemma NoDup_bind {A B} (f : A → list B) (l : list A) :
  NoDup l → (∀ x, x ∈ l → NoDup (f x)) →
  (∀ x y b, x ∈ l → y ∈ l → b ∈ f x → b ∈ f y → x = y) → NoDup (l ≫= f).
Proof.
  induction 1 as [|x l Hx Hl IH]; intros Hf Hinj; [constructor|].
  rewrite bind_cons. apply NoDup_app. split_and!.
  - apply Hf. by left.
  - intros b Hb (y & Hby & Hy)%list_elem_of_bind.
    assert (x = y) as -> by (apply (Hinj x y b); [by left|by right|done|done]). done.
  - apply IH; [|intros; eapply Hinj; eauto; by right]. intros. apply Hf. by right.
Qed.

(** No two shared-memory objects of a client have the same name, no object
    of one client has the name of an object of a client with another process id,
    and the server opens only objects the client creates. *)
Theorem client_objects_isolated :
  (∀ pid k, 0 ≤ pid → NoDup (client_objects pid k)) ∧
  (∀ pid1 k1 pid2 k2 name, 0 ≤ pid1 → 0 ≤ pid2 →
     name ∈ client_objects pid1 k1 → name ∈ client_objects pid2 k2 → pid1 = pid2) ∧
  (∀ pid k, server_objects pid k ⊆ client_objects pid k).
Proof.
  split_and!.
  - intros pid k Hpid. unfold client_objects. apply NoDup_cons. split.
    { rewrite elem_of_cons, list_elem_of_bind. intros [H|(i & Hin & _)]; [discriminate|].
      rewrite !elem_of_cons, elem_of_nil in Hin. by destruct Hin as [|[|[|]]]. }
    apply NoDup_cons. split.
    { rewrite list_elem_of_bind. intros (i & Hin & _).
      rewrite !elem_of_cons, elem_of_nil in Hin. by destruct Hin as [|[|[|]]]. }
    apply NoDup_bind; [apply NoDup_seqZ| |].
    + intros i Hi. rewrite elem_of_seqZ in Hi.
      repeat (apply NoDup_cons; split; [rewrite ?elem_of_cons, elem_of_nil|]); [..|constructor];
        intros H; destruct_or? H; try done; apply matrix_name_inj in H as (_ & _ & H); done || lia.
    + intros i j name Hi Hj Hni Hnj. rewrite elem_of_seqZ in Hi, Hj.
      rewrite !elem_of_cons, elem_of_nil in Hni, Hnj.
      destruct Hni as [->|[->|[->|[]]]], Hnj as [H|[H|[H|[]]]];
        apply matrix_name_inj in H as (_ & -> & _); done || lia.
  - intros pid1 k1 pid2 k2 name H1 H2 Hn1 Hn2.
    eapply name_of_pid_inj; eauto using client_objects_pid.
  - intros pid k name. unfold client_objects, server_objects.
    rewrite !elem_of_cons, !list_elem_of_bind.
    intros [->|[->|(i & Hin & Hi)]]; [by left|by right; left|]. right; right. exists i. split; [|done].
    set_solver.
Qed.
