(* ===== verification/PosixShm.v ===== *)
(** The POSIX shared-memory interface the program calls.  The calls themselves
    are not part of the repository: they are the operations of the class
    [PosixShm], arguments of every definition that uses them, and the class
    [PosixShmSpec] states what their manual pages document.  A call may always
    fail; which calls fail, and the identifiers and addresses the system
    chooses, are left open. *)

From S2P Require Import Prelude.
#[local] Open Scope Z_scope.

(** What the program can observe of the system: the names of the shared-memory
    objects, the bytes of each object, the process's descriptors and mappings
    (an address maps an object up to a length), and [errno].  [world] is
    everything else the outcome of a call may depend on. *)
Record kernel := mkKernel {
  names : gmap string Z;
  objects : gmap Z (list Z);
  fds : gmap Z Z;
  mappings : gmap Z (Z * Z);
  errno : Z;
  world : Z
}.

(** The same visible objects, names, descriptors and mappings. *)
Definition unchanged (k k' : kernel) : Prop :=
  names k' = names k ∧ objects k' = objects k ∧ fds k' = fds k ∧ mappings k' = mappings k.

Definition MAP_FAILED : Z := -1.
Definition nullptr : Z := 0.

Class PosixShm := {
  (** [shm_open(name, O_CREAT | O_RDWR [| O_EXCL], 0666)] *)
  shm_open : kernel → string → bool → kernel * Z;
  (** [ftruncate(fd, length)] *)
  ftruncate : kernel → Z → Z → kernel * Z;
  (** [mmap(0, length, PROT_READ | PROT_WRITE, MAP_SHARED, fd, 0)] *)
  mmap : kernel → Z → Z → kernel * Z;
  close : kernel → Z → kernel;
  munmap : kernel → Z → Z → kernel;
  shm_unlink : kernel → string → kernel;
  strerror : Z → string
}.

(** shm_open(3): with [O_CREAT] the object is created, with length zero, when
    the name does not exist; with [O_EXCL] too, an existing name is an error. *)
Inductive posix_shm_open (k : kernel) (name : string) (excl : bool) : kernel → Z → Prop :=
  | shm_open_fails k' fd :
      fd < 0 → unchanged k k' → posix_shm_open k name excl k' fd
  | shm_open_creates k' fd x :
      0 ≤ fd → fds k !! fd = None → names k !! name = None → objects k !! x = None →
      names k' = <[name := x]> (names k) → objects k' = <[x := []]> (objects k) →
      fds k' = <[fd := x]> (fds k) → mappings k' = mappings k →
      posix_shm_open k name excl k' fd
  | shm_open_existing k' fd x :
      excl = false → 0 ≤ fd → fds k !! fd = None → names k !! name = Some x →
      names k' = names k → objects k' = objects k →
      fds k' = <[fd := x]> (fds k) → mappings k' = mappings k →
      posix_shm_open k name excl k' fd.

(** [bs] cut or extended with zero bytes to [n]. *)
Definition resize_zero (n : nat) (bs : list Z) : list Z := resize n 0 bs.

(** ftruncate(2): the object gets the given length, new bytes are zero. *)
Inductive posix_ftruncate (k : kernel) (fd length : Z) : kernel → Z → Prop :=
  | ftruncate_fails k' r : r < 0 → unchanged k k' → posix_ftruncate k fd length k' r
  | ftruncate_sets k' x bs :
      0 ≤ length → fds k !! fd = Some x → objects k !! x = Some bs →
      names k' = names k → objects k' = <[x := resize_zero (Z.to_nat length) bs]> (objects k) →
      fds k' = fds k → mappings k' = mappings k →
      posix_ftruncate k fd length k' 0.

(** mmap(2): a new mapping at an address that was free; length zero is an error. *)
Inductive posix_mmap (k : kernel) (length fd : Z) : kernel → Z → Prop :=
  | mmap_fails k' : unchanged k k' → posix_mmap k length fd k' MAP_FAILED
  | mmap_maps k' p x :
      0 < length → 0 < p → fds k !! fd = Some x → mappings k !! p = None →
      names k' = names k → objects k' = objects k → fds k' = fds k →
      mappings k' = <[p := (x, length)]> (mappings k) →
      posix_mmap k length fd k' p.

(** close(2), munmap(2), shm_unlink(3) on valid arguments.  The bytes of an
    unlinked object stay reachable through its mappings. *)
Definition posix_close (k : kernel) (fd : Z) (k' : kernel) : Prop :=
  names k' = names k ∧ objects k' = objects k ∧ fds k' = delete fd (fds k) ∧ mappings k' = mappings k.
Definition posix_munmap (k : kernel) (p : Z) (k' : kernel) : Prop :=
  names k' = names k ∧ objects k' = objects k ∧ fds k' = fds k ∧ mappings k' = delete p (mappings k).
Definition posix_shm_unlink (k : kernel) (name : string) (k' : kernel) : Prop :=
  names k' = delete name (names k) ∧ objects k' = objects k ∧ fds k' = fds k ∧ mappings k' = mappings k.

Class PosixShmSpec `{PosixShm} : Prop := {
  shm_open_spec k name excl k' fd :
    shm_open k name excl = (k', fd) → posix_shm_open k name excl k' fd;
  ftruncate_spec k fd length k' r :
    ftruncate k fd length = (k', r) → posix_ftruncate k fd length k' r;
  mmap_spec k length fd k' p : mmap k length fd = (k', p) → posix_mmap k length fd k' p;
  close_spec k fd : posix_close k fd (close k fd);
  munmap_spec k p length : posix_munmap k p (munmap k p length);
  shm_unlink_spec k name : posix_shm_unlink k name (shm_unlink k name)
}.

(** * Computations over the system

    A computation may change the system even when it throws. *)

Abbreviation kernelM := (stM kernel).

(** Computations that build an object [C] step by step and change the system: an
    exception leaves both as they were at that point. *)
Definition in_kernel {C A} (m : kernelM A) : stM (kernel * C) A := λ '(k, c), let '(k', r) := m k in ((k', c), r).
Definition modify {C} (f : C → C) : stM (kernel * C) () := λ '(k, c), ((k, f c), Ok ()).

(** * Memory through a mapping *)

(** A byte is accessible when its mapping covers it and the object is long
    enough; otherwise the access raises SIGSEGV or SIGBUS. *)
Definition accessible (k : kernel) (p offset : Z) : Prop :=
  ∃ x len bs, mappings k !! p = Some (x, len) ∧ objects k !! x = Some bs ∧
    0 ≤ offset < len ∧ offset < zlen bs.

(** [memset(p, 0, n)]. *)
Definition memset_zero (k : kernel) (p n : Z) : result kernel :=
  match mappings k !! p with
  | Some (x, len) =>
      match objects k !! x with
      | Some bs =>
          if decide (n ≤ len ∧ n ≤ zlen bs) then
            Ok (mkKernel (names k)
                  (<[x := replicate (Z.to_nat n) 0 ++ drop (Z.to_nat n) bs]> (objects k))
                  (fds k) (mappings k) (errno k) (world k))
          else Undef
      | None => Undef
      end
  | None => Undef
  end.

(** Overwrite the bytes of [bs] from offset [off] on with [new]. *)
Definition splice (off : nat) (new bs : list Z) : list Z :=
  take off bs ++ new ++ drop (off + length new) bs.

(** Write [new] at [p + off]. *)
Definition poke (k : kernel) (p off : Z) (new : list Z) : result kernel :=
  match mappings k !! p with
  | Some (x, len) =>
      match objects k !! x with
      | Some bs =>
          if decide (0 ≤ off ∧ off + zlen new ≤ len ∧ off + zlen new ≤ zlen bs) then
            Ok (mkKernel (names k) (<[x := splice (Z.to_nat off) new bs]> (objects k))
                  (fds k) (mappings k) (errno k) (world k))
          else Undef
      | None => Undef
      end
  | None => Undef
  end.

Definition poke_at (p off : Z) (new : list Z) : kernelM () := λ k,
  match poke k p off new with
  | Ok k' => (k', Ok ())
  | Throw e => (k, Throw e)
  | Undef => (k, Undef)
  | NoFuel => (k, NoFuel)
  end.

(** * A concrete system

    An instance on which the theorems are evaluated: descriptors, objects and
    addresses are numbered upwards, and [world] is a budget of successful calls
    after which every call fails. *)

Definition with_world (k : kernel) (w e : Z) : kernel :=
  mkKernel (names k) (objects k) (fds k) (mappings k) e w.

Definition fresh_key {A} (m : gmap Z A) : Z := 1 + map_fold (λ i _ acc, Z.max i acc) 0 m.

Lemma fresh_key_ge {A} (m : gmap Z A) i x : m !! i = Some x → i < fresh_key m.
Proof.
  unfold fresh_key. intros H. enough (i ≤ map_fold (λ i _ acc, Z.max i acc) 0 m) by lia.
  revert i x H. apply (map_fold_weak_ind (λ r (m : gmap Z A), ∀ i x, m !! i = Some x → i ≤ r)).
  - intros i x. by rewrite lookup_empty.
  - intros j y m' r _ IH i x [[Hij _]|[_ Hi%IH]]%lookup_insert_Some; cbn; lia.
Qed.
Lemma fresh_key_None {A} (m : gmap Z A) : m !! fresh_key m = None.
Proof.
  apply eq_None_not_Some. intros [x Hx%fresh_key_ge]. lia.
Qed.
Lemma fresh_key_pos {A} (m : gmap Z A) : 0 < fresh_key m.
Proof.
  unfold fresh_key. enough (0 ≤ map_fold (λ i _ acc, Z.max i acc) 0 m) by lia.
  apply (map_fold_weak_ind (λ r _, 0 ≤ r)); cbn; lia.
Qed.

Definition sim_shm_open (k : kernel) (name : string) (excl : bool) : kernel * Z :=
  if decide (world k ≤ 0) then (with_world k 0 24, -1) else
  let fd := fresh_key (fds k) in
  match names k !! name with
  | Some x =>
      if excl then (with_world k (world k - 1) 17, -1)
      else (mkKernel (names k) (objects k) (<[fd := x]> (fds k)) (mappings k) (errno k) (world k - 1), fd)
  | None =>
      let x := fresh_key (objects k) in
      (mkKernel (<[name := x]> (names k)) (<[x := []]> (objects k)) (<[fd := x]> (fds k))
         (mappings k) (errno k) (world k - 1), fd)
  end.

Definition sim_ftruncate (k : kernel) (fd length : Z) : kernel * Z :=
  if decide (world k ≤ 0 ∨ length < 0) then (with_world k 0 27, -1) else
  match fds k !! fd with
  | None => (with_world k (world k - 1) 9, -1)
  | Some x =>
      match objects k !! x with
      | None => (with_world k (world k - 1) 9, -1)
      | Some bs =>
          (mkKernel (names k) (<[x := resize_zero (Z.to_nat length) bs]> (objects k)) (fds k)
             (mappings k) (errno k) (world k - 1), 0)
      end
  end.

Definition sim_mmap (k : kernel) (length fd : Z) : kernel * Z :=
  if decide (world k ≤ 0 ∨ length ≤ 0) then (with_world k 0 22, MAP_FAILED) else
  match fds k !! fd with
  | None => (with_world k (world k - 1) 9, MAP_FAILED)
  | Some x =>
      let p := fresh_key (mappings k) in
      (mkKernel (names k) (objects k) (fds k) (<[p := (x, length)]> (mappings k))
         (errno k) (world k - 1), p)
  end.

Definition sim_close (k : kernel) (fd : Z) : kernel :=
  mkKernel (names k) (objects k) (delete fd (fds k)) (mappings k) (errno k) (world k).
Definition sim_munmap (k : kernel) (p length : Z) : kernel :=
  mkKernel (names k) (objects k) (fds k) (delete p (mappings k)) (errno k) (world k).
Definition sim_shm_unlink (k : kernel) (name : string) : kernel :=
  mkKernel (delete name (names k)) (objects k) (fds k) (mappings k) (errno k) (world k).

#[export] Instance sim_shm : PosixShm := {|
  shm_open := sim_shm_open; ftruncate := sim_ftruncate; mmap := sim_mmap;
  close := sim_close; munmap := sim_munmap; shm_unlink := sim_shm_unlink;
  strerror := λ _, "error"
|}.

#[export] Instance sim_shm_spec : PosixShmSpec.
Proof.
  split.
  - intros k name excl k' fd H. simpl in H. unfold sim_shm_open in H.
    case_decide; [injection H as <- <-; by apply shm_open_fails|].
    pose proof (fresh_key_pos (fds k)).
    destruct (names k !! name) as [x|] eqn:Hn; [destruct excl|]; injection H as <- <-.
    + by apply shm_open_fails.
    + eapply shm_open_existing; eauto using fresh_key_None; lia.
    + eapply shm_open_creates; eauto using fresh_key_None; lia.
  - intros k fd length k' r H. simpl in H. unfold sim_ftruncate in H.
    case_decide; [injection H as <- <-; by apply ftruncate_fails|].
    destruct (fds k !! fd) as [x|] eqn:Hx; [|injection H as <- <-; by apply ftruncate_fails].
    destruct (objects k !! x) as [bs|] eqn:Hb; injection H as <- <-; [|by apply ftruncate_fails].
    eapply ftruncate_sets; eauto; lia.
  - intros k length fd k' p H. simpl in H. unfold sim_mmap in H.
    case_decide; [injection H as <- <-; by apply mmap_fails|].
    destruct (fds k !! fd) as [x|] eqn:Hx; injection H as <- <-; [|by apply mmap_fails].
    eapply mmap_maps; eauto using fresh_key_None, fresh_key_pos. lia.
  - done.
  - done.
  - done.
Qed.

Definition boot : kernel := mkKernel ∅ ∅ ∅ ∅ 0 1000.
