(* ===== verification/Sockets.v ===== *)
(** The socket and [epoll] interface the program calls.  The calls are not part
    of the repository: they are the operations of the class [SocketApi], and the
    class [SocketSpec] states what their manual pages document.  A call may
    always fail; the numbers the system chooses are left open. *)

From S2P Require Import Prelude PosixShm.
#[local] Open Scope Z_scope.

(** What the program can observe: the descriptors of the process and the kernel
    objects they stand for, the objects of all processes, the object at each
    path of the file system, the sockets that listen, the objects each epoll
    instance watches, and [errno].  [net_world] is everything else. *)
Record net := mkNet {
  fdtab : gmap Z Z;
  live : gset Z;
  paths : gmap string Z;
  listening : gset Z;
  watched : gmap Z (gset Z);
  net_errno : Z;
  net_world : Z
}.

(** [sockaddr_un]: [sun_path] is an array of 108 characters. *)
Record sockaddr_un := mkSockaddr {
  sun_family : Z;
  sun_path : list Z
}.

(** The path in an address: the characters before the first NUL. *)
Fixpoint c_string (bs : list Z) : list Z :=
  match bs with
  | [] => []
  | b :: bs' => if decide (b = 0) then [] else b :: c_string bs'
  end.

Definition bytes_of_string (s : string) : list Z :=
  (λ c, Z.of_nat (Ascii.nat_of_ascii c)) <$> String.list_ascii_of_string s.
Definition string_of_bytes (bs : list Z) : string :=
  String.string_of_list_ascii ((λ b, Ascii.ascii_of_nat (Z.to_nat b)) <$> bs).

Definition address_path (addr : sockaddr_un) : string := string_of_bytes (c_string (sun_path addr)).

(** [s.c_str()] as a file name. *)
Definition c_path (s : string) : string := string_of_bytes (c_string (bytes_of_string s)).

Class SocketApi := {
  (** [socket(AF_UNIX, SOCK_STREAM, 0)] *)
  socket : net → net * Z;
  (** [remove(path)], whose result is ignored *)
  remove : net → string → net;
  bind : net → Z → sockaddr_un → net * Z;
  (** [listen(fd, backlog)] *)
  listen : net → Z → Z → net * Z;
  connect : net → Z → sockaddr_un → net * Z;
  (** [epoll_create1(0)] *)
  epoll_create1 : net → net * Z;
  (** [epoll_ctl(epfd, EPOLL_CTL_ADD, fd, {EPOLLIN, fd})] *)
  epoll_ctl_add : net → Z → Z → net * Z;
  close_descriptor : net → Z → net;
  (** The construction of a [std::thread]: whether the system grants it. *)
  start_thread : net → net * bool;
  error_text : Z → string
}.

Definition net_unchanged (k k' : net) : Prop :=
  fdtab k' = fdtab k ∧ live k' = live k ∧ paths k' = paths k ∧ listening k' = listening k ∧
  watched k' = watched k.

(** A new object behind a new descriptor: socket(2), epoll_create1(2). *)
Record new_object (k k' : net) (fd x : Z) : Prop := {
  no_fd : 0 ≤ fd;
  no_free : fdtab k !! fd = None;
  no_fresh : x ∉ live k;
  no_fdtab : fdtab k' = <[fd := x]> (fdtab k);
  no_live : live k' = {[x]} ∪ live k;
  no_paths : paths k' = paths k;
  no_listening : listening k' = listening k
}.

Inductive posix_socket (k : net) : net → Z → Prop :=
  | socket_fails k' fd : fd < 0 → net_unchanged k k' → posix_socket k k' fd
  | socket_makes k' fd x : new_object k k' fd x → watched k' = watched k → posix_socket k k' fd.

Inductive posix_epoll_create (k : net) : net → Z → Prop :=
  | epoll_create_fails k' fd : fd < 0 → net_unchanged k k' → posix_epoll_create k k' fd
  | epoll_create_makes k' fd x :
      new_object k k' fd x → watched k' = <[x := ∅]> (watched k) → posix_epoll_create k k' fd.

(** remove(3): the path is gone, unless the call fails; it fails when there is
    nothing at the path. *)
Inductive posix_remove (k : net) (path : string) : net → Prop :=
  | remove_fails k' : net_unchanged k k' → posix_remove k path k'
  | remove_deletes k' :
      fdtab k' = fdtab k → live k' = live k → paths k' = delete path (paths k) →
      listening k' = listening k → watched k' = watched k → posix_remove k path k'.

(** bind(2): the path must not exist; it then names the socket. *)
Inductive posix_bind (k : net) (fd : Z) (addr : sockaddr_un) : net → Z → Prop :=
  | bind_fails k' r : r < 0 → net_unchanged k k' → posix_bind k fd addr k' r
  | bind_names k' x :
      fdtab k !! fd = Some x → paths k !! address_path addr = None →
      fdtab k' = fdtab k → live k' = live k → paths k' = <[address_path addr := x]> (paths k) →
      listening k' = listening k → watched k' = watched k → posix_bind k fd addr k' 0.

Inductive posix_listen (k : net) (fd : Z) : net → Z → Prop :=
  | listen_fails k' r : r < 0 → net_unchanged k k' → posix_listen k fd k' r
  | listen_marks k' x :
      fdtab k !! fd = Some x → fdtab k' = fdtab k → live k' = live k → paths k' = paths k →
      listening k' = {[x]} ∪ listening k → watched k' = watched k → posix_listen k fd k' 0.

(** connect(2): the path must name a socket that listens. *)
Inductive posix_connect (k : net) (addr : sockaddr_un) : net → Z → Prop :=
  | connect_fails k' r : r < 0 → net_unchanged k k' → posix_connect k addr k' r
  | connect_finds k' x :
      paths k !! address_path addr = Some x → x ∈ listening k → net_unchanged k k' →
      posix_connect k addr k' 0.

(** epoll_ctl(2): the object of [fd] is watched by the instance. *)
Inductive posix_epoll_add (k : net) (epfd fd : Z) : net → Z → Prop :=
  | epoll_add_fails k' r : r < 0 → net_unchanged k k' → posix_epoll_add k epfd fd k' r
  | epoll_add_watches k' e x s :
      fdtab k !! epfd = Some e → fdtab k !! fd = Some x → watched k !! e = Some s →
      fdtab k' = fdtab k → live k' = live k → paths k' = paths k → listening k' = listening k →
      watched k' = <[e := {[x]} ∪ s]> (watched k) → posix_epoll_add k epfd fd k' 0.

(** close(2) of the only descriptor of an object: paths stay. *)
Definition posix_close_descriptor (k : net) (fd : Z) (k' : net) : Prop :=
  fdtab k' = delete fd (fdtab k) ∧ live k' = live k ∧ paths k' = paths k ∧
  ∀ x, fdtab k !! fd = Some x → listening k' = listening k ∖ {[x]}.

Class SocketSpec `{SocketApi} : Prop := {
  socket_spec k k' fd : socket k = (k', fd) → posix_socket k k' fd;
  remove_spec k path : posix_remove k path (remove k path);
  bind_spec k fd addr k' r : bind k fd addr = (k', r) → posix_bind k fd addr k' r;
  listen_spec k fd backlog k' r : listen k fd backlog = (k', r) → posix_listen k fd k' r;
  connect_spec k fd addr k' r : connect k fd addr = (k', r) → posix_connect k addr k' r;
  epoll_create1_spec k k' fd : epoll_create1 k = (k', fd) → posix_epoll_create k k' fd;
  epoll_ctl_add_spec k epfd fd k' r :
    epoll_ctl_add k epfd fd = (k', r) → posix_epoll_add k epfd fd k' r;
  close_descriptor_spec k fd : posix_close_descriptor k fd (close_descriptor k fd);
  start_thread_spec k k' ok : start_thread k = (k', ok) → net_unchanged k k'
}.

Abbreviation netM := (stM net).

(** * A concrete system

    Descriptors and objects are numbered upwards; [net_world] is a budget of
    successful calls after which every call fails. *)

Definition spend (k : net) (e : Z) : net :=
  mkNet (fdtab k) (live k) (paths k) (listening k) (watched k) e (Z.max 0 (net_world k - 1)).

(** A call that may fail for want of budget, or because [ok] is false. *)
Definition guarded (ok : bool) (k : net) (k' : net) (r : Z) : net * Z :=
  if ok && bool_decide (0 < net_world k) then (k', r) else (spend k 22, -1).

Definition fresh_object (k : net) : Z := 1 + set_fold Z.max 0 (live k).

Lemma fresh_object_fresh k : fresh_object k ∉ live k.
Proof.
  unfold fresh_object. intros Hin. enough (∀ x, x ∈ live k → x ≤ set_fold Z.max 0 (live k)) as Hle
    by (specialize (Hle _ Hin); lia). clear Hin.
  apply (set_fold_ind_L (λ r X, ∀ x : Z, x ∈ X → x ≤ r)); [set_solver|].
  intros y X r _ IH x [->%elem_of_singleton|Hx%IH]%elem_of_union; lia.
Qed.

Definition sim_new (k : net) (epoll : bool) : net * Z :=
  let fd := fresh_key (fdtab k) in
  let x := fresh_object k in
  guarded true k
    (mkNet (<[fd := x]> (fdtab k)) ({[x]} ∪ live k) (paths k) (listening k)
       (if epoll then <[x := ∅]> (watched k) else watched k) (net_errno k) (net_world k - 1)) fd.

Definition sim_remove (k : net) (path : string) : net :=
  mkNet (fdtab k) (live k) (delete path (paths k)) (listening k) (watched k) (net_errno k) (net_world k).

Definition sim_bind (k : net) (fd : Z) (addr : sockaddr_un) : net * Z :=
  match fdtab k !! fd, paths k !! address_path addr with
  | Some x, None =>
      guarded true k
        (mkNet (fdtab k) (live k) (<[address_path addr := x]> (paths k)) (listening k) (watched k)
           (net_errno k) (net_world k - 1)) 0
  | _, _ => (spend k 98, -1)
  end.

Definition sim_listen (k : net) (fd backlog : Z) : net * Z :=
  match fdtab k !! fd with
  | Some x =>
      guarded true k
        (mkNet (fdtab k) (live k) (paths k) ({[x]} ∪ listening k) (watched k) (net_errno k) (net_world k - 1)) 0
  | None => (spend k 9, -1)
  end.

Definition sim_connect (k : net) (fd : Z) (addr : sockaddr_un) : net * Z :=
  match paths k !! address_path addr with
  | Some x => guarded (bool_decide (x ∈ listening k)) k (spend k 0) 0
  | None => (spend k 2, -1)
  end.

Definition sim_epoll_add (k : net) (epfd fd : Z) : net * Z :=
  match fdtab k !! epfd, fdtab k !! fd with
  | Some e, Some x =>
      match watched k !! e with
      | Some s =>
          guarded true k
            (mkNet (fdtab k) (live k) (paths k) (listening k) (<[e := {[x]} ∪ s]> (watched k))
               (net_errno k) (net_world k - 1)) 0
      | None => (spend k 22, -1)
      end
  | _, _ => (spend k 9, -1)
  end.

Definition sim_close_descriptor (k : net) (fd : Z) : net :=
  match fdtab k !! fd with
  | Some x =>
      mkNet (delete fd (fdtab k)) (live k) (paths k) (listening k ∖ {[x]}) (watched k) (net_errno k) (net_world k)
  | None =>
      mkNet (delete fd (fdtab k)) (live k) (paths k) (listening k) (watched k) (net_errno k) (net_world k)
  end.

#[export] Instance sim_sockets : SocketApi := {|
  socket k := sim_new k false; remove := sim_remove; bind := sim_bind; listen := sim_listen;
  connect := sim_connect; epoll_create1 k := sim_new k true; epoll_ctl_add := sim_epoll_add;
  close_descriptor := sim_close_descriptor; start_thread k := (spend k 11, bool_decide (0 < net_world k));
  error_text := λ _, "error"
|}.

Lemma net_unchanged_spend k e : net_unchanged k (spend k e).
Proof. done. Qed.

Lemma guarded_cases ok k k1 r k' r' :
  guarded ok k k1 r = (k', r') →
  (r' < 0 ∧ net_unchanged k k') ∨ (ok = true ∧ k' = k1 ∧ r' = r).
Proof.
  unfold guarded. destruct ok; [case_bool_decide|]; simpl; intros [= <- <-]; [by right|by left..].
Qed.

Lemma sim_new_object k epoll k' fd :
  sim_new k epoll = (k', fd) →
  (fd < 0 ∧ net_unchanged k k') ∨
  ∃ x, new_object k k' fd x ∧ watched k' = (if epoll then <[x := ∅]> (watched k) else watched k).
Proof.
  unfold sim_new. intros [?|(_ & -> & ->)]%guarded_cases; [by left|]. right.
  pose proof (fresh_key_pos (fdtab k)). exists (fresh_object k). split; [|done].
  split; try done; [lia|apply fresh_key_None|apply fresh_object_fresh].
Qed.

#[export] Instance sim_sockets_spec : SocketSpec.
Proof.
  split.
  - intros k k' fd [[? ?]|(x & ? & ?)]%sim_new_object; [by left|by eright].
  - intros k path. by right.
  - intros k fd addr k' r H. simpl in H. unfold sim_bind in H.
    destruct (fdtab k !! fd) eqn:?; [|injection H as <- <-; by left].
    destruct (paths k !! address_path addr) eqn:?; [injection H as <- <-; by left|].
    apply guarded_cases in H as [[? ?]|(_ & -> & ->)]; [by left|by eright].
  - intros k fd backlog k' r H. simpl in H. unfold sim_listen in H.
    destruct (fdtab k !! fd) eqn:?; [|injection H as <- <-; by left].
    apply guarded_cases in H as [[? ?]|(_ & -> & ->)]; [by left|by eright].
  - intros k fd addr k' r H. simpl in H. unfold sim_connect in H.
    destruct (paths k !! address_path addr) eqn:?; [|injection H as <- <-; by left].
    apply guarded_cases in H as [[? ?]|(?%bool_decide_eq_true & -> & ->)]; [by left|by eright].
  - intros k k' fd [[? ?]|(x & ? & ?)]%sim_new_object; [by left|by eright].
  - intros k epfd fd k' r H. simpl in H. unfold sim_epoll_add in H.
    destruct (fdtab k !! epfd) eqn:?; [|injection H as <- <-; by left].
    destruct (fdtab k !! fd) eqn:?; [|injection H as <- <-; by left].
    destruct (watched k !! z) eqn:?; [|injection H as <- <-; by left].
    apply guarded_cases in H as [[? ?]|(_ & -> & ->)]; [by left|by eright].
  - intros k fd. simpl. unfold posix_close_descriptor, sim_close_descriptor. destruct (fdtab k !! fd); naive_solver.
  - intros k k' ok [= <- <-]. done.
Qed.

(** A system with nothing open. *)
Definition net_boot : net := mkNet ∅ ∅ ∅ ∅ ∅ 0 1000.
