(* ===== verification/SharedMemory.v ===== *)
(** [src/lib/shared-mem/SharedMemory.cpp]: creation, borrowing and destruction of
    a POSIX shared-memory object, on every path, errors included. *)

From S2P Require Import Prelude ShmNames PosixShm.
#[local] Open Scope Z_scope.

(** * The code *)

Inductive Ownership := Owner | Borrower.
Inductive BufferInitMode := Zero | NoInit.

#[export] Instance Ownership_eq_dec : EqDecision Ownership.
Proof. solve_decision. Defined.
#[export] Instance BufferInitMode_eq_dec : EqDecision BufferInitMode.
Proof. solve_decision. Defined.

(** The members of the class.  [m_FileDescriptor] keeps the number of the
    descriptor after it has been closed. *)
Record SharedMemory := mkSharedMemory {
  m_ShmObjectName : string;
  m_SizeInBytes : Z;
  m_FileDescriptor : Z;
  m_RawPointer : Z;
  m_Ownership : Ownership
}.

Section code.
Context `{PosixShm}.

Definition errno_text (k : kernel) : string := dec (errno k) +:+ "): " +:+ strerror (errno k).

(** The errors of the constructor; [errno] is the one at the time the message
    is built, after the clean-up calls. *)
Definition create_error (name : string) (k : kernel) : exn :=
  RuntimeError ("Failed to create shared memory object for " +:+ name +:+ ". errno(" +:+ errno_text k).
Definition size_error (name : string) (size : Z) (k : kernel) : exn :=
  RuntimeError ("Failed to set shared memory size (" +:+ dec size +:+ " bytes) for " +:+ name
                +:+ ". errno(" +:+ errno_text k).
Definition map_error (name : string) (k : kernel) : exn :=
  RuntimeError ("Failed to map shared memory for " +:+ name +:+ ". errno (" +:+ errno_text k).

(** The branch on the ownership: open, and for an owner size, the object. *)
Definition open_object (sizeInBytes : Z) (name : string) (ownership : Ownership) : kernelM Z := λ k,
  match ownership with
  | Owner =>
      let '(k1, fd) := shm_open k name true in
      if decide (fd < 0) then (k1, Throw (create_error name k1)) else
      let '(k2, r) := ftruncate k1 fd sizeInBytes in
      if decide (r < 0) then
        let k3 := close k2 fd in
        let k4 := shm_unlink k3 name in
        (k4, Throw (size_error name sizeInBytes k4))
      else (k2, Ok fd)
  | Borrower =>
      let '(k1, fd) := shm_open k name false in
      if decide (fd < 0) then (k1, Throw (create_error name k1)) else (k1, Ok fd)
  end.

(** Map the object; a failure closes the descriptor and unlinks the name,
    whoever owns it. *)
Definition map_object (sizeInBytes : Z) (name : string) (fd : Z) : kernelM Z := λ k,
  let '(k1, p) := mmap k sizeInBytes fd in
  if decide (p = MAP_FAILED ∨ p = nullptr) then
    let k2 := close k1 fd in
    let k3 := shm_unlink k2 name in
    (k3, Throw (map_error name k3))
  else (k1, Ok p).

Definition close_fd (fd : Z) : kernelM () := λ k, (close k fd, Ok ()).

(** [FillWithZero]. *)
Definition FillWithZero (p size : Z) : kernelM () := λ k,
  match memset_zero k p size with
  | Ok k' => (k', Ok ())
  | Throw e => (k, Throw e)
  | Undef => (k, Undef)
  | NoFuel => (k, NoFuel)
  end.

(** The constructor. *)
Definition SharedMemory_ctor (sizeInBytes : Z) (name : string) (ownership : Ownership)
    (initMode : BufferInitMode) : kernelM SharedMemory :=
  fd ← open_object sizeInBytes name ownership;
  p ← map_object sizeInBytes name fd;
  _ ← close_fd fd;
  _ ← (if decide (initMode = Zero ∧ ownership = Owner) then FillWithZero p sizeInBytes
       else mret ());
  mret (mkSharedMemory name sizeInBytes fd p ownership).

(** The destructor: the system afterwards, and the cleared members. *)
Definition SharedMemory_dtor (k : kernel) (sm : SharedMemory) : kernel * SharedMemory :=
  let k1 := if decide (m_RawPointer sm ≠ MAP_FAILED ∧ m_RawPointer sm ≠ nullptr)
            then munmap k (m_RawPointer sm) (m_SizeInBytes sm) else k in
  let k2 := if decide (m_Ownership sm = Owner)
            then shm_unlink k1 (m_ShmObjectName sm) else k1 in
  (k2, mkSharedMemory "" 0 (-1) nullptr (m_Ownership sm)).

Definition GetRawPointer (sm : SharedMemory) : Z := m_RawPointer sm.
Definition GetName (sm : SharedMemory) : string := m_ShmObjectName sm.
Definition GetBufferSizeInBytes (sm : SharedMemory) : Z := m_SizeInBytes sm.
End code.

(** * The contract of the constructor *)

(** What constructing a [SharedMemory] does to the system, case by case. *)
Inductive ctor_contract (k : kernel) (size : Z) (name : string) :
    Ownership → kernel → result SharedMemory → Prop :=
  (** An owner creates the object, filled with zero bytes, and maps it. *)
  | owner_created k' fd x p :
      0 < size → names k !! name = None → objects k !! x = None → mappings k !! p = None → 0 < p →
      names k' = <[name := x]> (names k) →
      objects k' = <[x := replicate (Z.to_nat size) 0]> (objects k) →
      fds k' = fds k → mappings k' = <[p := (x, size)]> (mappings k) →
      ctor_contract k size name Owner k' (Ok (mkSharedMemory name size fd p Owner))
  (** An owner that fails leaves names, descriptors and mappings as they were. *)
  | owner_failed k' e :
      names k' = names k → fds k' = fds k → mappings k' = mappings k → objects k ⊆ objects k' →
      ctor_contract k size name Owner k' (Throw (RuntimeError e))
  (** A borrower maps the existing object, whatever its length. *)
  | borrower_mapped k' fd x p :
      0 < size → names k !! name = Some x → mappings k !! p = None → 0 < p →
      names k' = names k → objects k' = objects k → fds k' = fds k →
      mappings k' = <[p := (x, size)]> (mappings k) →
      ctor_contract k size name Borrower k' (Ok (mkSharedMemory name size fd p Borrower))
  (** A borrower of a missing object creates it, with length zero. *)
  | borrower_created k' fd x p :
      0 < size → names k !! name = None → objects k !! x = None → mappings k !! p = None → 0 < p →
      names k' = <[name := x]> (names k) → objects k' = <[x := []]> (objects k) →
      fds k' = fds k → mappings k' = <[p := (x, size)]> (mappings k) →
      ctor_contract k size name Borrower k' (Ok (mkSharedMemory name size fd p Borrower))
  (** A borrower that cannot open leaves everything as it was. *)
  | borrower_open_failed k' e :
      unchanged k k' → ctor_contract k size name Borrower k' (Throw (RuntimeError e))
  (** A borrower that cannot map removes the name of the object. *)
  | borrower_map_failed k' e :
      names k' = delete name (names k) → fds k' = fds k → mappings k' = mappings k →
      objects k ⊆ objects k' →
      ctor_contract k size name Borrower k' (Throw (RuntimeError e)).

Section proofs.
Context `{PosixShmSpec}.

Lemma open_owner_spec size name k k' r :
  open_object size name Owner k = (k', r) →
  (∃ fd x, r = Ok fd ∧ fds k !! fd = None ∧ names k !! name = None ∧ objects k !! x = None ∧
     names k' = <[name := x]> (names k) ∧
     objects k' = <[x := replicate (Z.to_nat size) 0]> (objects k) ∧
     fds k' = <[fd := x]> (fds k) ∧ mappings k' = mappings k) ∨
  (∃ e, r = Throw (RuntimeError e) ∧ names k' = names k ∧ fds k' = fds k ∧
     mappings k' = mappings k ∧ objects k ⊆ objects k').
Proof.
  unfold open_object, create_error, size_error. intros Hrun.
  destruct (shm_open k name true) as [k1_ fd_] eqn:E1.
  apply shm_open_spec in E1; revert Hrun; destruct E1 as [k1 fd Hfd (Hn & Ho & Hf & Hm)
    |k1 fd x Hfd Hfree Hname Hobj Hn Ho Hf Hm|]; [..|done]; intros Hrun.
  { rewrite decide_True in Hrun by done. injection Hrun as <- <-.
    right. eexists. split_and!; [done..|by rewrite Ho]. }
  rewrite decide_False in Hrun by lia.
  destruct (ftruncate k1 fd size) as [k2_ z_] eqn:E2.
  apply ftruncate_spec in E2; revert Hrun; destruct E2 as [k2 z Hz (Hn2 & Ho2 & Hf2 & Hm2)
    |k2 x' bs Hlen Hx Hbs Hn2 Ho2 Hf2 Hm2]; intros Hrun.
  - rewrite decide_True in Hrun by done. injection Hrun as <- <-. right.
    destruct (shm_unlink_spec (close k2 fd) name) as (Hn4 & Ho4 & Hf4 & Hm4).
    destruct (close_spec k2 fd) as (Hn3 & Ho3 & Hf3 & Hm3).
    eexists. split_and!; [done|..].
    + rewrite Hn4, Hn3, Hn2, Hn. by apply delete_insert_id.
    + rewrite Hf4, Hf3, Hf2, Hf. by apply delete_insert_id.
    + by rewrite Hm4, Hm3, Hm2, Hm.
    + rewrite Ho4, Ho3, Ho2, Ho. by apply insert_subseteq.
  - rewrite decide_False in Hrun by lia. injection Hrun as <- <-. left.
    rewrite Hf, lookup_insert_eq in Hx. injection Hx as <-.
    rewrite Ho, lookup_insert_eq in Hbs. injection Hbs as <-.
    eexists fd, x. split_and!; try congruence.
    rewrite Ho2, Ho, insert_insert_eq. unfold resize_zero. by rewrite resize_nil.
Qed.

Lemma open_borrower_spec size name k k' r :
  open_object size name Borrower k = (k', r) →
  (∃ fd x, r = Ok fd ∧ fds k !! fd = None ∧ fds k' = <[fd := x]> (fds k) ∧
     mappings k' = mappings k ∧
     ((names k !! name = Some x ∧ names k' = names k ∧ objects k' = objects k) ∨
      (names k !! name = None ∧ objects k !! x = None ∧ names k' = <[name := x]> (names k) ∧
       objects k' = <[x := []]> (objects k)))) ∨
  (∃ e, r = Throw (RuntimeError e) ∧ unchanged k k').
Proof.
  unfold open_object, create_error. intros Hrun.
  destruct (shm_open k name false) as [k1_ fd_] eqn:E1.
  apply shm_open_spec in E1; revert Hrun; destruct E1 as [k1 fd Hfd Hun|k1 fd x Hfd Hfree Hname Hobj Hn Ho Hf Hm
    |k1 fd x _ Hfd Hfree Hname Hn Ho Hf Hm]; intros Hrun.
  - rewrite decide_True in Hrun by done. injection Hrun as <- <-. right. eauto.
  - rewrite decide_False in Hrun by lia. injection Hrun as <- <-. left.
    exists fd, x. split_and!; try done. right. auto.
  - rewrite decide_False in Hrun by lia. injection Hrun as <- <-. left.
    exists fd, x. split_and!; try done. left. auto.
Qed.

Lemma map_object_spec size name fd x k k' r :
  fds k !! fd = Some x → map_object size name fd k = (k', r) →
  (∃ p, r = Ok p ∧ 0 < size ∧ 0 < p ∧ mappings k !! p = None ∧ names k' = names k ∧
     objects k' = objects k ∧ fds k' = fds k ∧ mappings k' = <[p := (x, size)]> (mappings k)) ∨
  (∃ e, r = Throw (RuntimeError e) ∧ names k' = delete name (names k) ∧
     objects k' = objects k ∧ fds k' = delete fd (fds k) ∧ mappings k' = mappings k).
Proof.
  unfold map_object, map_error. intros Hfd Hrun. destruct (mmap k size fd) as [k1_ p_] eqn:E1.
  apply mmap_spec in E1; revert Hrun; destruct E1 as [k1 (Hn & Ho & Hf & Hm)|k1 p x' Hsz Hp Hx Hfree Hn Ho Hf Hm]; intros Hrun.
  - rewrite decide_True in Hrun by auto. injection Hrun as <- <-. right.
    destruct (shm_unlink_spec (close k1 fd) name) as (Hn4 & Ho4 & Hf4 & Hm4).
    destruct (close_spec k1 fd) as (Hn3 & Ho3 & Hf3 & Hm3).
    eexists. split_and!; [done|congruence..].
  - rewrite decide_False in Hrun by (unfold MAP_FAILED, nullptr; lia).
    injection Hrun as <- <-. left. rewrite Hfd in Hx. injection Hx as <-.
    exists p. split_and!; done.
Qed.

(** Zeroing a fresh mapping of a zeroed object changes nothing visible. *)
Lemma FillWithZero_fresh k p x size :
  mappings k !! p = Some (x, size) → objects k !! x = Some (replicate (Z.to_nat size) 0) →
  0 < size → ∃ k', FillWithZero p size k = (k', Ok ()) ∧ unchanged k k'.
Proof.
  intros Hp Hx Hsz. unfold FillWithZero, memset_zero. rewrite Hp, Hx.
  rewrite decide_True by (rewrite zlen_replicate; lia). eexists. split; [done|].
  unfold unchanged. simpl. split_and!; try done. rewrite drop_replicate, Nat.sub_diag. simpl.
  rewrite app_nil_r. by apply insert_id.
Qed.

(** What follows the opening of object [x] with descriptor [fd]. *)
Lemma ctor_tail_spec size name own mode fd x k k' r :
  fds k !! fd = Some x →
  (own = Owner → objects k !! x = Some (replicate (Z.to_nat size) 0)) →
  (p ← map_object size name fd;
   _ ← close_fd fd;
   _ ← (if decide (mode = Zero ∧ own = Owner) then FillWithZero p size else mret ());
   mret (mkSharedMemory name size fd p own) : kernelM SharedMemory) k = (k', r) →
  (∃ p, r = Ok (mkSharedMemory name size fd p own) ∧ 0 < size ∧ 0 < p ∧ mappings k !! p = None ∧
     names k' = names k ∧ objects k' = objects k ∧ fds k' = delete fd (fds k) ∧
     mappings k' = <[p := (x, size)]> (mappings k)) ∨
  (∃ e, r = Throw (RuntimeError e) ∧ names k' = delete name (names k) ∧
     objects k' = objects k ∧ fds k' = delete fd (fds k) ∧ mappings k' = mappings k).
Proof.
  intros Hfd Hobj Hrun. unfold mbind at 1, stM_bind at 1 in Hrun.
  destruct (map_object size name fd k) as [k1 r1] eqn:E1.
  destruct (map_object_spec _ _ _ _ _ _ _ Hfd E1)
    as [(p & -> & Hsz & Hp & Hfree & Hn & Ho & Hf & Hm)|(e & -> & Hmap)].
  2:{ injection Hrun as <- <-. right. eauto. }
  left. exists p. unfold mbind, stM_bind, close_fd, mret, stM_ret in Hrun.
  destruct (close_spec k1 fd) as (Hn2 & Ho2 & Hf2 & Hm2). set (k2 := close k1 fd) in *.
  case_decide as Hd.
  - destruct Hd as [_ ->].
    destruct (FillWithZero_fresh k2 p x size) as (k3 & Hfill & Hn3 & Ho3 & Hf3 & Hm3).
    { rewrite Hm2, Hm. apply lookup_insert_eq. }
    { rewrite Ho2, Ho. auto. }
    { done. }
    rewrite Hfill in Hrun. injection Hrun as <- <-. split_and!; congruence.
  - injection Hrun as <- <-. split_and!; congruence.
Qed.

(** The constructor implements its contract. *)
Lemma SharedMemory_ctor_contract size name own mode k k' r :
  SharedMemory_ctor size name own mode k = (k', r) → ctor_contract k size name own k' r.
Proof.
  intros Hrun. unfold SharedMemory_ctor, mbind at 1, stM_bind at 1 in Hrun.
  destruct (open_object size name own k) as [k1 r1] eqn:E1. destruct own.
  - destruct (open_owner_spec _ _ _ _ _ E1)
      as [(fd & x & -> & Hfree & Hname & Hobj & Hn & Ho & Hf & Hm)|(e & -> & ? & ? & ? & ?)].
    2:{ injection Hrun as <- <-. by apply owner_failed. }
    apply (ctor_tail_spec size name Owner mode fd x k1) in Hrun
      as [(p & -> & Hsz & Hp & Hpf & Hn2 & Ho2 & Hf2 & Hm2)|(e & -> & Hn2 & Ho2 & Hf2 & Hm2)].
    + apply (owner_created _ _ _ _ fd x p); try congruence.
      rewrite Hf2, Hf. by apply delete_insert_id.
    + apply owner_failed; [..|rewrite Ho2, Ho; by apply insert_subseteq]; try congruence.
      * rewrite Hn2, Hn. by apply delete_insert_id.
      * rewrite Hf2, Hf. by apply delete_insert_id.
    + rewrite Hf. apply lookup_insert_eq.
    + intros _. rewrite Ho. apply lookup_insert_eq.
  - destruct (open_borrower_spec _ _ _ _ _ E1) as [(fd & x & -> & Hfree & Hf & Hm & Hcase)|(e & -> & ?)].
    2:{ injection Hrun as <- <-. by apply borrower_open_failed. }
    apply (ctor_tail_spec size name Borrower mode fd x k1) in Hrun
      as [(p & -> & Hsz & Hp & Hpf & Hn2 & Ho2 & Hf2 & Hm2)|(e & -> & Hn2 & Ho2 & Hf2 & Hm2)].
    + assert (fds k' = fds k) by (rewrite Hf2, Hf; by apply delete_insert_id).
      destruct Hcase as [(? & ? & ?)|(? & ? & ? & ?)].
      * apply (borrower_mapped _ _ _ _ fd x p); congruence.
      * apply (borrower_created _ _ _ _ fd x p); congruence.
    + apply borrower_map_failed; [..|congruence|].
      * destruct Hcase as [(_ & -> & _)|(? & _ & Hn & _)] in Hn2 |- *; [done|].
        rewrite Hn2, Hn, delete_insert_id by done. symmetry. by apply delete_id.
      * rewrite Hf2, Hf. by apply delete_insert_id.
      * rewrite Ho2. destruct Hcase as [(_ & _ & ->)|(_ & ? & _ & ->)]; [done|by apply insert_subseteq].
    + rewrite Hf. apply lookup_insert_eq.
    + done.
Qed.
End proofs.

(** Writing zero bytes into a zeroed object changes nothing visible. *)
Lemma splice_zeros off m n :
  (off + m ≤ n)%nat → splice off (replicate m 0) (replicate n 0) = replicate n 0.
Proof.
  intros H. unfold splice. rewrite take_replicate, drop_replicate, length_replicate.
  rewrite <-!replicate_add. f_equal. lia.
Qed.

Lemma poke_zeros k p x len off m :
  mappings k !! p = Some (x, len) → objects k !! x = Some (replicate (Z.to_nat len) 0) →
  (0 < len) → Z.of_nat off + Z.of_nat m ≤ len →
  ∃ k', poke_at p (Z.of_nat off) (replicate m 0) k = (k', Ok ()) ∧ unchanged k k'.
Proof.
  intros Hp Hx Hl Hoff. unfold poke_at, poke. rewrite Hp, Hx, !zlen_replicate.
  rewrite decide_True by lia. eexists. split; [done|]. unfold unchanged. simpl. split_and!; try done.
  rewrite Nat2Z.id, splice_zeros by lia. by apply insert_id.
Qed.

(** * Properties *)

(** C23: Constructing a [SharedMemory] is safe on every path and every system:
    it returns an object or throws a [runtime_error] (it never touches memory it
    has not mapped), leaks no descriptor, loses no existing object, and when it
    throws it leaves no mapping behind and, for an owner, no name. *)
Theorem SharedMemory_ctor_safe `{PosixShmSpec} size name own mode k k' r :
  SharedMemory_ctor size name own mode k = (k', r) →
  fds k' = fds k ∧ objects k ⊆ objects k' ∧
  ((∃ sm, r = Ok sm ∧ m_Ownership sm = own ∧ ∃ x, names k' !! name = Some x ∧
      mappings k' !! m_RawPointer sm = Some (x, size)) ∨
   (∃ what, r = Throw (RuntimeError what) ∧ mappings k' = mappings k ∧
      (own = Owner → names k' = names k))).
Proof.
  intros Hrun%SharedMemory_ctor_contract.
  destruct Hrun as [k' fd x p ? ? ? ? ? Hn Ho Hf Hm|k' e Hn Hf Hm Ho|k' fd x p ? ? ? ? Hn Ho Hf Hm
    |k' fd x p ? ? ? ? ? Hn Ho Hf Hm|k' e (Hn & Ho & Hf & Hm)|k' e Hn Hf Hm Ho];
    (split; [done|]); (split; [rewrite ?Ho; first [done|by apply insert_subseteq]|]).
  2,5,6: right; eexists; by split_and!.
  all: left; eexists; split; [done|]; split; [done|]; exists x; simpl;
    rewrite Hm, lookup_insert_eq, Hn, ?lookup_insert_eq; done.
Qed.

Lemma SharedMemory_ctor_safe_witness :
  ∃ k' r, SharedMemory_ctor 8 "buf" Owner Zero boot = (k', r) ∧
  fds k' = fds boot ∧ objects boot ⊆ objects k' ∧
  ((∃ sm, r = Ok sm ∧ m_Ownership sm = Owner ∧ ∃ x, names k' !! "buf" = Some x ∧
      mappings k' !! m_RawPointer sm = Some (x, 8)) ∨
   (∃ what, r = Throw (RuntimeError what) ∧ mappings k' = mappings boot ∧
      (Owner = Owner → names k' = names boot))).
Proof.
  eexists _, _. split; [reflexivity|].
  eapply (SharedMemory_ctor_safe 8 "buf" Owner Zero boot). reflexivity.
Defined.

(** A borrower that attaches after the owner sees the owner's memory: the two
    mappings are distinct addresses of the same object, [size] zero bytes long,
    and all of it is accessible through both. *)
Theorem owner_borrower_share `{PosixShmSpec} size name mode1 mode2 k k1 k2 own bor :
  SharedMemory_ctor size name Owner mode1 k = (k1, Ok own) →
  SharedMemory_ctor size name Borrower mode2 k1 = (k2, Ok bor) →
  GetRawPointer own ≠ GetRawPointer bor ∧
  (∃ x, mappings k2 !! GetRawPointer own = Some (x, size) ∧
        mappings k2 !! GetRawPointer bor = Some (x, size) ∧
        objects k2 !! x = Some (replicate (Z.to_nat size) 0)) ∧
  (∀ i, 0 ≤ i < size → accessible k2 (GetRawPointer own) i ∧ accessible k2 (GetRawPointer bor) i).
Proof.
  intros H1%SharedMemory_ctor_contract H2%SharedMemory_ctor_contract.
  inversion H1 as [k1' fd1 x p1 Hsz Hname Hobj Hp1 ? Hn1 Ho1 Hf1 Hm1| | | | |]; subst.
  inversion H2 as [| |k2' fd2 x2 p2 _ Hname2 Hp2 ? Hn2 Ho2 Hf2 Hm2
    |k2' fd2 x2 p2 _ Hname2 ? Hp2 ? Hn2 Ho2 Hf2 Hm2| |]; subst; simpl;
    rewrite Hn1, lookup_insert_eq in Hname2; [|done]. injection Hname2 as <-.
  rewrite Hm1 in Hp2. apply lookup_insert_None in Hp2 as [Hp2 Hne].
  assert (mappings k2 !! p1 = Some (x, size)) as E1.
  { rewrite Hm2, lookup_insert_ne, Hm1 by done. apply lookup_insert_eq. }
  assert (mappings k2 !! p2 = Some (x, size)) as E2 by (rewrite Hm2; apply lookup_insert_eq).
  assert (objects k2 !! x = Some (replicate (Z.to_nat size) 0)) as E3
    by (rewrite Ho2, Ho1; apply lookup_insert_eq).
  split_and!; [done|by exists x|]. intros i Hi. unfold accessible.
  split; eexists _, _, _; (split; [eassumption|]); (split; [eassumption|]);
    rewrite zlen_replicate; lia.
Qed.

Lemma owner_borrower_share_witness :
  ∃ k2 own bor, GetRawPointer own ≠ GetRawPointer bor ∧
  (∃ x, mappings k2 !! GetRawPointer own = Some (x, 8) ∧
        mappings k2 !! GetRawPointer bor = Some (x, 8) ∧
        objects k2 !! x = Some (replicate (Z.to_nat 8) 0)) ∧
  (∀ i, 0 ≤ i < 8 → accessible k2 (GetRawPointer own) i ∧ accessible k2 (GetRawPointer bor) i).
Proof.
  eexists _, _, _. eapply (owner_borrower_share 8 "buf" Zero NoInit boot); vm_compute; reflexivity.
Defined.

(** Construction and destruction are inverse for an owner: the name, the
    descriptors and the mappings are again those before the construction; a
    borrower's destruction keeps the owner's name. *)
Theorem SharedMemory_lifecycle `{PosixShmSpec} size name own mode k k1 sm :
  SharedMemory_ctor size name own mode k = (k1, Ok sm) →
  let '(k2, cleared) := SharedMemory_dtor k1 sm in
  mappings k2 = mappings k ∧ fds k2 = fds k ∧
  (own = Owner ∨ is_Some (names k !! name) → names k2 = names k) ∧
  GetRawPointer cleared = nullptr ∧ GetName cleared = "" ∧ GetBufferSizeInBytes cleared = 0.
Proof.
  intros Hrun%SharedMemory_ctor_contract. unfold SharedMemory_dtor.
  inversion Hrun as [k1' fd x p Hsz Hname Hobj Hp ? Hn Ho Hf Hm|
    |k1' fd x p Hsz Hname Hp ? Hn Ho Hf Hm|k1' fd x p Hsz Hname Hobj Hp ? Hn Ho Hf Hm| |];
    subst; simpl; rewrite (decide_True (P := p ≠ MAP_FAILED ∧ p ≠ nullptr))
      by (unfold MAP_FAILED, nullptr; lia);
    destruct (munmap_spec k1 p size) as (Hn2 & Ho2 & Hf2 & Hm2).
  1: destruct (shm_unlink_spec (munmap k1 p size) name) as (Hn3 & Ho3 & Hf3 & Hm3).
  all: split_and!; try done.
  - rewrite Hm3, Hm2, Hm. by apply delete_insert_id.
  - congruence.
  - intros _. rewrite Hn3, Hn2, Hn. by apply delete_insert_id.
  - rewrite Hm2, Hm. by apply delete_insert_id.
  - congruence.
  - congruence.
  - rewrite Hm2, Hm. by apply delete_insert_id.
  - congruence.
  - rewrite Hname. by intros [|[? ?]].
Qed.

Lemma SharedMemory_lifecycle_witness :
  ∃ k1 sm, SharedMemory_ctor 8 "buf" Owner Zero boot = (k1, Ok sm) ∧
  let '(k2, cleared) := SharedMemory_dtor k1 sm in
  mappings k2 = mappings boot ∧ fds k2 = fds boot ∧
  (Owner = Owner ∨ is_Some (names boot !! "buf") → names k2 = names boot) ∧
  GetRawPointer cleared = nullptr ∧ GetName cleared = "" ∧ GetBufferSizeInBytes cleared = 0.
Proof.
  eexists _, _. split; [reflexivity|].
  apply (SharedMemory_lifecycle 8 "buf" Owner Zero boot). reflexivity.
Defined.

(** A borrower that comes before the owner does not fail but creates the
    object itself, empty: no byte of its mapping can be accessed, and the owner
    that comes afterwards always throws because the name exists. *)
Theorem borrower_first_blocks_owner `{PosixShmSpec} size name mode1 mode2 k k1 k2 bor r :
  names k !! name = None →
  SharedMemory_ctor size name Borrower mode1 k = (k1, Ok bor) →
  SharedMemory_ctor size name Owner mode2 k1 = (k2, r) →
  (∀ i, ¬ accessible k1 (GetRawPointer bor) i) ∧ ∃ what, r = Throw (RuntimeError what).
Proof.
  intros Hname H1%SharedMemory_ctor_contract H2%SharedMemory_ctor_contract.
  inversion H1 as [| |k1' fd x p Hsz Hname1|k1' fd x p Hsz _ Hobj Hp ? Hn Ho Hf Hm| |];
    subst; [congruence|]. split.
  - intros i (x' & len & bs & Hp' & Hx' & ? & Hi). simpl in Hp'.
    rewrite Hm, lookup_insert_eq in Hp'. injection Hp' as <- <-.
    rewrite Ho, lookup_insert_eq in Hx'. injection Hx' as <-. unfold zlen in Hi. simpl in Hi. lia.
  - inversion H2 as [k2' fd2 x2 p2 _ Hname2|k2' e| | | |]; subst; [|by eexists].
    by rewrite Hn, lookup_insert_eq in Hname2.
Qed.

Lemma borrower_first_blocks_owner_witness :
  ∃ k1 bor (r : result SharedMemory),
  (∀ i, ¬ accessible k1 (GetRawPointer bor) i) ∧ ∃ what, r = Throw (RuntimeError what).
Proof.
  eexists _, _, _.
  eapply (borrower_first_blocks_owner 8 "buf" NoInit Zero boot); [|vm_compute..]; reflexivity.
Defined.
