(* ===== verification/SpscQueue.v ===== *)
(** What the two single-producer single-consumer queues of [src/lib/spsc-queue/]
    share: the ring arithmetic, the relation between a ring and the list of items
    it holds, the abstract bounded FIFO that both implement, and the interface
    their clients rely on. *)

From S2P Require Import Prelude.
#[local] Open Scope Z_scope.

(** * Ring arithmetic *)

(** [(i + 1) & m_CapacityMinusOne] on [size_t]. *)
Definition next_index (capacityMinusOne i : Z) : Z := Z.land (u64 (i + 1)) capacityMinusOne.

(** The capacities the constructors accept: powers of two, at least 2. *)
Definition valid_capacity (cap : Z) : Prop := ∃ k, 1 ≤ k < 64 ∧ cap = 2 ^ k.

Lemma valid_capacity_bounds cap : valid_capacity cap → 2 ≤ cap < 2 ^ 64.
Proof.
  intros (k & Hk & ->). split.
  - change 2 with (2 ^ 1) at 1. apply Z.pow_le_mono_r; lia.
  - apply Z.pow_lt_mono_r; lia.
Qed.

Lemma next_index_mod cap i :
  valid_capacity cap → 0 ≤ i < cap → next_index (cap - 1) i = (i + 1) mod cap.
Proof.
  intros Hcap Hi. pose proof (valid_capacity_bounds cap Hcap). destruct Hcap as (k & Hk & ->).
  unfold next_index. rewrite land_pow2_mask by lia. unfold u64.
  destruct (decide (i + 1 = 2 ^ 64)) as [Heq|]; [|by rewrite (Z.mod_small (i + 1) (2 ^ 64)) by lia].
  assert (2 ^ 64 = 2 ^ k) as <- by lia. by rewrite Z.mod_mod by lia.
Qed.

(** The constructors' test [(capacity & (capacity - 1)) != 0] rejects exactly
    the values that are not powers of two. *)
Lemma land_pred_pow2 c : 0 < c → Z.land c (c - 1) = 0 ↔ ∃ k, 0 ≤ k ∧ c = 2 ^ k.
Proof.
  intros Hc. split.
  - intros H. exists (Z.log2 c). split; [apply Z.log2_nonneg|].
    pose proof (Z.log2_spec c Hc) as [Hlo Hhi]. set (k := Z.log2 c) in *.
    pose proof (Z.log2_nonneg c : 0 ≤ k).
    destruct (decide (c = 2 ^ k)) as [|Hne]; [done|]. exfalso.
    assert (Z.log2 (c - 1) = k) as Hk1.
    { apply Z.log2_unique; [done|]. lia. }
    assert (Z.testbit (Z.land c (c - 1)) k = true) as Hbit.
    { rewrite Z.land_spec. unfold k at 1. rewrite Z.bit_log2 by done.
      rewrite <-Hk1. rewrite Z.bit_log2; [done|].
      pose proof (Z.pow_pos_nonneg 2 k). lia. }
    rewrite H, Z.bits_0 in Hbit. discriminate.
  - intros (k & Hk & ->). rewrite land_pow2_mask by done. by apply Z.mod_same, Z.pow_nonzero.
Qed.

(** * A ring and the items it holds *)

Section ring.
Context (cap : Z).
Implicit Types (buffer items : list Z) (head tail : Z).

Definition slot (tail i : Z) : Z := (tail + i) mod cap.

(** [items] are the cells from [tail] up to but excluding [head], in order. *)
Definition holds buffer head tail items : Prop :=
  zlen buffer = cap ∧ 0 ≤ tail < cap ∧ zlen items < cap ∧ head = slot tail (zlen items) ∧
  ∀ i, 0 ≤ i < zlen items → zget buffer (slot tail i) = zget items i.

Lemma slot_range tail i : 0 < cap → 0 ≤ slot tail i < cap.
Proof. intros. by apply Z.mod_pos_bound. Qed.

Lemma slot_inj tail i j : 0 ≤ i < cap → 0 ≤ j < cap → slot tail i = slot tail j → i = j.
Proof.
  unfold slot. intros Hi Hj H.
  pose proof (Z.div_mod (tail + i) cap ltac:(lia)) as H1.
  pose proof (Z.div_mod (tail + j) cap ltac:(lia)) as H2.
  rewrite H in H1. revert H1 H2.
  generalize ((tail + i) / cap) ((tail + j) / cap) ((tail + j) mod cap). intros a b r H1 H2.
  destruct (Z.lt_trichotomy a b) as [|[->|]]; [nia|lia|nia].
Qed.

Lemma slot_0 tail : 0 ≤ tail < cap → slot tail 0 = tail.
Proof. intros. unfold slot. rewrite Z.add_0_r. by apply Z.mod_small. Qed.

Lemma slot_succ tail i : 0 < cap → (slot tail i + 1) mod cap = slot tail (i + 1).
Proof. intros. unfold slot. rewrite Zplus_mod_idemp_l. f_equal. lia. Qed.

Lemma slot_shift tail i : 0 < cap → slot ((tail + 1) mod cap) i = slot tail (i + 1).
Proof. intros. unfold slot. rewrite Zplus_mod_idemp_l. f_equal. lia. Qed.

Lemma holds_range buffer head tail items :
  holds buffer head tail items → 0 ≤ head < cap ∧ 0 ≤ tail < cap.
Proof. intros (_ & Ht & _ & -> & _). split; [apply slot_range; lia|done]. Qed.

Lemma holds_empty_iff buffer head tail items :
  holds buffer head tail items → tail = head ↔ items = [].
Proof.
  intros (_ & Ht & Hlen & -> & _). pose proof (zlen_nonneg items). split.
  - intros Heq. rewrite <-(slot_0 tail Ht) in Heq at 1. apply slot_inj in Heq; [|lia..].
    destruct items; [done|]. unfold zlen in Heq. simpl in Heq. lia.
  - intros ->. symmetry. by apply slot_0.
Qed.

Lemma holds_full_iff buffer head tail items :
  holds buffer head tail items → (head + 1) mod cap = tail ↔ zlen items = cap - 1.
Proof.
  intros (_ & Ht & Hlen & -> & _). pose proof (zlen_nonneg items). rewrite slot_succ by lia. split.
  - intros Heq. destruct (decide (zlen items = cap - 1)) as [|Hne]; [done|].
    rewrite <-(slot_0 tail Ht) in Heq at 2. apply slot_inj in Heq; lia.
  - intros ->. replace (cap - 1 + 1) with cap by lia. unfold slot.
    rewrite <-(Z.mod_small tail cap) at 2 by done. rewrite <-Z.add_mod_idemp_r, Z.mod_same by lia.
    by rewrite Z.add_0_r.
Qed.

(** The cell at [head] is not one of the items: writing it is invisible. *)
Lemma holds_write_free buffer head tail items x :
  holds buffer head tail items → holds (zset buffer head x) head tail items.
Proof.
  intros (Hb & Ht & Hlen & -> & Hget). pose proof (zlen_nonneg items).
  split_and!; [by rewrite zlen_zset|lia..|done|].
  intros i Hi. rewrite zget_zset_ne; [by apply Hget|]. intros H'%slot_inj; lia.
Qed.

(** Publishing the cell at [head] appends its value. *)
Lemma holds_publish buffer head tail items x :
  holds buffer head tail items → zget buffer head = Some x → zlen items < cap - 1 →
  holds buffer ((head + 1) mod cap) tail (items ++ [x]).
Proof.
  intros (Hb & Ht & Hlen & -> & Hget) Hx Hroom. pose proof (zlen_nonneg items).
  assert (zlen (items ++ [x]) = zlen items + 1) as Hl by (rewrite zlen_app; done).
  split_and!; [done|lia..|by rewrite Hl, slot_succ by lia|].
  intros i Hi. destruct (decide (i = zlen items)) as [->|].
  - rewrite Hx, zget_app_r, Z.sub_diag by lia. done.
  - rewrite zget_app_l by lia. apply Hget. lia.
Qed.

Lemma holds_head buffer head tail x items :
  holds buffer head tail (x :: items) → zget buffer tail = Some x.
Proof.
  intros (_ & Ht & _ & _ & Hget). rewrite <-(slot_0 tail Ht). rewrite Hget; [done|].
  unfold zlen. simpl. lia.
Qed.

(** Moving [tail] drops the oldest item. *)
Lemma holds_consume buffer head tail x items :
  holds buffer head tail (x :: items) → holds buffer head ((tail + 1) mod cap) items.
Proof.
  intros (Hb & Ht & Hlen & Hh & Hget). pose proof (zlen_nonneg items).
  assert (zlen (x :: items) = zlen items + 1) as Hl by (unfold zlen; simpl; lia).
  split_and!; [done|apply Z.mod_pos_bound; lia..|lia| |].
  - by rewrite Hh, Hl, slot_shift by lia.
  - intros i Hi. rewrite slot_shift by lia. rewrite Hget by lia.
    unfold zget. rewrite !decide_True by lia. by replace (Z.to_nat (i + 1)) with (S (Z.to_nat i)) by lia.
Qed.

Lemma holds_init : 0 < cap → holds (replicate (Z.to_nat cap) 0) 0 0 [].
Proof.
  intros. split_and!; [rewrite zlen_replicate; lia|lia..|done|by rewrite slot_0 by lia|].
  unfold zlen. simpl. lia.
Qed.
End ring.

(** * The abstract queue *)

(** The observable outcomes of the operations: [Enqueue] returned [true] or
    [false], [Dequeue] returned [true] with an item, [false] on an empty queue,
    or (sequence lock only) [false] because it overlapped a write. *)
Inductive queue_event :=
  | EvEnq (x : Z)
  | EvFull (x : Z)
  | EvDeq (x : Z)
  | EvEmpty
  | EvBusy.

(** A FIFO of at most [n] items.  [Enqueue] fails exactly when it is full. *)
Inductive fifo_step (n : Z) : list Z → option queue_event → list Z → Prop :=
  | fifo_enq l x : zlen l < n → fifo_step n l (Some (EvEnq x)) (l ++ [x])
  | fifo_full l x : zlen l = n → fifo_step n l (Some (EvFull x)) l
  | fifo_deq l x : fifo_step n (x :: l) (Some (EvDeq x)) l
  | fifo_empty : fifo_step n [] (Some EvEmpty) [].

Definition enqueued (tr : list queue_event) : list Z :=
  tr ≫= λ e, match e with EvEnq x => [x] | _ => [] end.
Definition dequeued (tr : list queue_event) : list Z :=
  tr ≫= λ e, match e with EvDeq x => [x] | _ => [] end.

(** Items leave in the order they entered; the difference is what is held. *)
Lemma fifo_order n l tr l' :
  exec (fifo_step n) l tr l' → l ++ enqueued tr = dequeued tr ++ l'.
Proof.
  induction 1 as [l|l l1 l2 tr H _ _|l l1 l2 e tr H _ IH].
  - unfold enqueued, dequeued. simpl. by rewrite app_nil_r.
  - inversion H.
  - unfold enqueued, dequeued in *. rewrite !bind_cons.
    inversion H; subst; simpl in *; rewrite <-?IH, <-?app_assoc; done.
Qed.

Lemma fifo_bound n l tr l' : 0 ≤ n → zlen l ≤ n → exec (fifo_step n) l tr l' → zlen l' ≤ n.
Proof.
  intros Hn Hl He. revert Hl. induction He as [|l l1 l2 tr H _ _|l l1 l2 e tr H _ IH]; intros Hl;
    [done|inversion H|].
  apply IH. inversion H; subst; rewrite ?zlen_app; unfold zlen in *; simpl in *; lia.
Qed.

(** The same FIFO for a queue whose [Dequeue] may look at it some time before
    it answers.  The flag records that the queue was found empty at a moment
    since the last completed [Dequeue]; only then may [Dequeue] report that. *)
Inductive seen_step (n : Z) : list Z * bool → option queue_event → list Z * bool → Prop :=
  | seen_look l o : seen_step n (l, o) None (l, bool_decide (l = []))
  | seen_enq l o x : zlen l < n → seen_step n (l, o) (Some (EvEnq x)) (l ++ [x], o)
  | seen_full l o x : zlen l = n → seen_step n (l, o) (Some (EvFull x)) (l, o)
  | seen_deq l o x : seen_step n (x :: l, o) (Some (EvDeq x)) (l, false)
  | seen_empty l : seen_step n (l, true) (Some EvEmpty) (l, false)
  | seen_busy l o : seen_step n (l, o) (Some EvBusy) (l, false).

Lemma seen_order n s tr s' :
  exec (seen_step n) s tr s' → s.1 ++ enqueued tr = dequeued tr ++ s'.1.
Proof.
  induction 1 as [l|l l1 l2 tr H _ IH|l l1 l2 e tr H _ IH].
  - unfold enqueued, dequeued. simpl. by rewrite app_nil_r.
  - by inversion H; subst.
  - unfold enqueued, dequeued in *. rewrite !bind_cons.
    inversion H; subst; simpl in *; rewrite <-?IH, <-?app_assoc; done.
Qed.

Lemma seen_bound n s tr s' :
  0 ≤ n → zlen s.1 ≤ n → exec (seen_step n) s tr s' → zlen s'.1 ≤ n.
Proof.
  intros Hn Hl He. revert Hl.
  induction He as [|l l1 l2 tr H _ IH|l l1 l2 e tr H _ IH]; intros Hl; [done|..];
    apply IH; inversion H; subst; simpl in *; rewrite ?zlen_app; unfold zlen in *; simpl in *; lia.
Qed.

(** ** What the events do to the items *)

(** What the queue's events do to the items it holds. *)
Definition event_effect (n : Z) (e : option queue_event) (l l' : list Z) : Prop :=
  match e with
  | Some (EvEnq x) => l' = l ++ [x] ∧ zlen l < n
  | Some (EvFull _) => l' = l ∧ zlen l = n
  | Some (EvDeq x) => l = x :: l'
  | _ => l' = l
  end.

Lemma seen_quiet n s s' : exec (seen_step n) s [] s' → s'.1 = s.1.
Proof.
  intros He. remember [] as tr eqn:Htr. induction He as [|? ? ? ? Hs _ IH|]; [done| |done].
  rewrite IH by done. by inversion Hs.
Qed.

Lemma seen_effect n s e s' : exec (seen_step n) s (option_list e) s' → event_effect n e s.1 s'.1.
Proof.
  destruct e as [e|]; simpl; [|by apply seen_quiet]. intros He. remember [e] as tr eqn:Htr.
  induction He as [|s1 s2 s3 tr Hs _ IH|s1 s2 s3 e' tr Hs He _]; [done| |].
  - specialize (IH Htr). inversion Hs; subst. exact IH.
  - injection Htr as -> ->. apply seen_quiet in He. inversion Hs; subst; simpl in *; by rewrite ?He.
Qed.

Lemma fifo_effect n l e l' : exec (fifo_step n) l (option_list e) l' → event_effect n e l l'.
Proof.
  destruct e as [e|]; simpl; intros He.
  - inversion He as [|? l1 ? ? Hs| ? l1 ? ? ? Hs Hr]; subst; [by inversion Hs|].
    inversion Hr as [|? ? ? ? H1|]; subst; [|by inversion H1]. by inversion Hs; subst.
  - inversion He as [|? l1 ? ? Hs|]; subst; [done|by inversion Hs].
Qed.

(** * Running one side alone

    A side of a queue is a machine: a step performs one access to the shared data,
    possibly ends the call with an event, and is [None] when no call is active. *)
Section machine.
Context {P Q : Type} (step : P → Q → option (result (P * Q * option queue_event))).

(** Run a call to its end without the other side. *)
Fixpoint run_call (fuel : nat) (p : P) (q : Q) : result (option queue_event * Q) :=
  match fuel with
  | O => NoFuel
  | S fuel' =>
      match step p q with
      | None => Ok (None, q)
      | Some r =>
          '(p', q', e) ← r;
          match e with
          | Some e => Ok (Some e, q')
          | None => run_call fuel' p' q'
          end
      end
  end.
End machine.

(** * The interface of a queue

    A client of a queue sees its two operations as functions on the shared data
    and relies on these laws, which hold when the operations do not overlap. *)
Class Spsc (Q : Type) := {
  spsc_enqueue : Q → Z → result (bool * Q);
  spsc_dequeue : Q → result (option Z * Q);
  (** [spsc_contents n q l]: [q] can hold [n] items and holds [l]. *)
  spsc_contents : Z → Q → list Z → Prop
}.

Class SpscLaws (Q : Type) `{Spsc Q} : Prop := {
  spsc_enqueue_room n q l x :
    spsc_contents n q l → zlen l < n →
    ∃ q', spsc_enqueue q x = Ok (true, q') ∧ spsc_contents n q' (l ++ [x]);
  spsc_enqueue_full n q l x :
    spsc_contents n q l → zlen l = n → spsc_enqueue q x = Ok (false, q);
  spsc_dequeue_item n q x l :
    spsc_contents n q (x :: l) →
    ∃ q', spsc_dequeue q = Ok (Some x, q') ∧ spsc_contents n q' l;
  spsc_dequeue_empty n q :
    spsc_contents n q [] → spsc_dequeue q = Ok (None, q);
  spsc_contents_bound n q l : spsc_contents n q l → zlen l ≤ n
}.
