(* ===== verification/RingBuffer.v ===== *)
(** [src/lib/spsc-queue/SpscQueueRingBuffer.cpp]: the lock-free ring buffer.

    [Enqueue] and [Dequeue] appear twice: as functions on the shared data, for
    calls that do not overlap, and as step machines that perform one access to
    shared memory per step, for a producer and a consumer that run concurrently
    with arbitrary interleaving.  The accesses of the machines are atomic and take
    effect in program order; [RingAtomics] has the memory orders of the code. *)

From S2P Require Import Prelude SpscQueue.
#[local] Open Scope Z_scope.

(** * The code *)

(** [struct QueueData]. *)
Record QueueData := mkQueueData { head : Z; tail : Z; buffer : list Z }.

(** The shared data together with the handle's [m_CapacityMinusOne]. *)
Record RingBuffer := mkRingBuffer { m_CapacityMinusOne : Z; data : QueueData }.

Definition Enqueue (q : RingBuffer) (item : Z) : result (bool * RingBuffer) :=
  let h := head (data q) in
  let nextHead := next_index (m_CapacityMinusOne q) h in
  if decide (nextHead = tail (data q)) then Ok (false, q) else
  buffer' ← store (buffer (data q)) h item;
  Ok (true, mkRingBuffer (m_CapacityMinusOne q) (mkQueueData nextHead (tail (data q)) buffer')).

Definition Dequeue (q : RingBuffer) : result (option Z * RingBuffer) :=
  let t := tail (data q) in
  if decide (t = head (data q)) then Ok (None, q) else
  item ← load (buffer (data q)) t;
  Ok (Some item,
      mkRingBuffer (m_CapacityMinusOne q)
        (mkQueueData (head (data q)) (next_index (m_CapacityMinusOne q) t) (buffer (data q)))).

Definition GetRealCapacity (q : RingBuffer) : Z := m_CapacityMinusOne q.

(** ** The producer's and the consumer's program counters *)

(** [PLoaded item head]: [head] has been loaded.  [PChecked]: [tail] has been
    compared.  [PWritten]: the cell has been written. *)
Inductive producer :=
  | PIdle
  | PLoaded (item h : Z)
  | PChecked (item h : Z)
  | PWritten (item nextHead : Z).

Inductive consumer :=
  | CIdle
  | CLoaded (t : Z)
  | CChecked (t : Z)
  | CRead (t item : Z).

(** The next access of a producer inside a call of [Enqueue]. *)
Definition producer_step (mask : Z) (p : producer) (q : QueueData) :
    option (result (producer * QueueData * option queue_event)) :=
  match p with
  | PIdle => None
  | PLoaded item h =>
      if decide (next_index mask h = tail q) then Some (Ok (PIdle, q, Some (EvFull item)))
      else Some (Ok (PChecked item h, q, None))
  | PChecked item h =>
      Some (b ← store (buffer q) h item;
            Ok (PWritten item (next_index mask h), mkQueueData (head q) (tail q) b, None))
  | PWritten item nextHead =>
      Some (Ok (PIdle, mkQueueData nextHead (tail q) (buffer q), Some (EvEnq item)))
  end.

(** The next access of a consumer inside a call of [Dequeue]. *)
Definition consumer_step (mask : Z) (c : consumer) (q : QueueData) :
    option (result (consumer * QueueData * option queue_event)) :=
  match c with
  | CIdle => None
  | CLoaded t =>
      if decide (t = head q) then Some (Ok (CIdle, q, Some EvEmpty))
      else Some (Ok (CChecked t, q, None))
  | CChecked t => Some (item ← load (buffer q) t; Ok (CRead t item, q, None))
  | CRead t item =>
      Some (Ok (CIdle, mkQueueData (head q) (next_index mask t) (buffer q), Some (EvDeq item)))
  end.

(** Producer, consumer and shared data; or an access outside the buffer. *)
Inductive ring_state :=
  | RRun (p : producer) (c : consumer) (q : QueueData)
  | RFault.

(** Each side may start a call at any time it is idle, and otherwise performs its
    next access; the order between the sides is arbitrary. *)
Inductive ring_step (mask : Z) : ring_state → option queue_event → ring_state → Prop :=
  | enqueue_call item c q :
      ring_step mask (RRun PIdle c q) None (RRun (PLoaded item (head q)) c q)
  | dequeue_call p q :
      ring_step mask (RRun p CIdle q) None (RRun p (CLoaded (tail q)) q)
  | enqueue_access p p' c q q' e :
      producer_step mask p q = Some (Ok (p', q', e)) →
      ring_step mask (RRun p c q) e (RRun p' c q')
  | dequeue_access p c c' q q' e :
      consumer_step mask c q = Some (Ok (c', q', e)) →
      ring_step mask (RRun p c q) e (RRun p c' q')
  | enqueue_fault p c q :
      producer_step mask p q = Some Undef → ring_step mask (RRun p c q) None RFault
  | dequeue_fault p c q :
      consumer_step mask c q = Some Undef → ring_step mask (RRun p c q) None RFault.

(** The data the producer's constructor sets up. *)
Definition ring_init (cap : Z) : ring_state :=
  RRun PIdle CIdle (mkQueueData 0 0 (replicate (Z.to_nat cap) 0)).

(** * The ring buffer implements the bounded FIFO *)

Section refinement.
Context (cap : Z).
Hypothesis Hcap : valid_capacity cap.

Definition producer_ok (p : producer) (q : QueueData) (l : list Z) : Prop :=
  match p with
  | PIdle => True
  | PLoaded _ h => h = head q
  | PChecked _ h => h = head q ∧ zlen l < cap - 1
  | PWritten item n =>
      n = (head q + 1) mod cap ∧ zlen l < cap - 1 ∧ zget (buffer q) (head q) = Some item
  end.

Definition consumer_ok (c : consumer) (q : QueueData) (l : list Z) : Prop :=
  match c with
  | CIdle => True
  | CLoaded t => t = tail q
  | CChecked t => t = tail q ∧ l ≠ []
  | CRead t item => t = tail q ∧ ∃ l', l = item :: l'
  end.

(** The concrete state holds the abstract list. *)
Definition ring_rel (s : ring_state) (l : list Z) : Prop :=
  match s with
  | RRun p c q => holds cap (buffer q) (head q) (tail q) l ∧ producer_ok p q l ∧ consumer_ok c q l
  | RFault => False
  end.

Lemma consumer_ok_app c q q' l x :
  tail q' = tail q → consumer_ok c q l → consumer_ok c q' (l ++ [x]).
Proof.
  intros Ht. destruct c as [|t|t|t item]; simpl; rewrite ?Ht; [done|done| |].
  - intros [-> H]. split; [done|]. by destruct l.
  - intros [-> (l' & ->)]. split; [done|]. by exists (l' ++ [x]).
Qed.

Lemma producer_ok_tail p q q' l x :
  head q' = head q → buffer q' = buffer q → producer_ok p q (x :: l) → producer_ok p q' l.
Proof.
  intros Hh Hb. destruct p; simpl; rewrite ?Hh, ?Hb; unfold zlen; simpl; intuition lia.
Qed.

Lemma producer_step_sim p c q l r :
  ring_rel (RRun p c q) l → producer_step (cap - 1) p q = Some r →
  ∃ p' q' e l', r = Ok (p', q', e) ∧ exec (fifo_step (cap - 1)) l (option_list e) l' ∧
    ring_rel (RRun p' c q') l'.
Proof.
  intros (Hh & Hp & Hc) Hstep. destruct (holds_range _ _ _ _ _ Hh) as [Hhr Htr].
  destruct p as [|item h|item h|item n]; simpl in Hp, Hstep; [done|..].
  - subst h. rewrite next_index_mod in Hstep by done. case_decide as Hfull; injection Hstep as <-.
    + apply (holds_full_iff _ _ _ _ _ Hh) in Hfull. eexists _, _, _, l. split; [done|].
      split; [apply exec_single; by constructor|]. done.
    + rewrite (holds_full_iff _ _ _ _ _ Hh) in Hfull. eexists _, _, _, l. split; [done|].
      split; [constructor|]. split_and!; [done| |done]. simpl. split; [done|].
      destruct Hh as (_ & _ & Hlt & _). lia.
  - destruct Hp as [-> Hroom]. injection Hstep as <-. destruct Hh as (Hb & Hh).
    rewrite store_in_range by lia. eexists _, _, _, l. split; [done|]. split; [constructor|].
    simpl. rewrite next_index_mod by done. split_and!; [|done|done|by apply zget_zset_eq; lia|].
    + by apply holds_write_free.
    + by destruct c.
  - destruct Hp as (-> & Hroom & Hitem). injection Hstep as <-. eexists _, _, _, (l ++ [item]).
    split; [done|]. split; [apply exec_single; by constructor|]. simpl. split_and!; [|done|].
    + by apply holds_publish.
    + by eapply consumer_ok_app.
Qed.

Lemma consumer_step_sim p c q l r :
  ring_rel (RRun p c q) l → consumer_step (cap - 1) c q = Some r →
  ∃ c' q' e l', r = Ok (c', q', e) ∧ exec (fifo_step (cap - 1)) l (option_list e) l' ∧
    ring_rel (RRun p c' q') l'.
Proof.
  intros (Hh & Hp & Hc) Hstep. destruct (holds_range _ _ _ _ _ Hh) as [Hhr Htr].
  destruct c as [|t|t|t item]; simpl in Hc, Hstep; [done|..].
  - subst t. case_decide as Hempty; injection Hstep as <-.
    + apply (holds_empty_iff _ _ _ _ _ Hh) in Hempty as ->. eexists _, _, _, []. split; [done|].
      split; [apply exec_single; by constructor|]. done.
    + rewrite (holds_empty_iff _ _ _ _ _ Hh) in Hempty. eexists _, _, _, l. split; [done|].
      split; [constructor|]. done.
  - destruct Hc as [-> Hne]. injection Hstep as <-. destruct l as [|x l]; [done|].
    rewrite (proj2 (load_Ok _ _ _) (holds_head _ _ _ _ _ _ Hh)).
    eexists _, _, _, (x :: l). split; [done|]. split; [constructor|]. simpl. eauto.
  - destruct Hc as [-> (l' & ->)]. injection Hstep as <-. eexists _, _, _, l'. split; [done|].
    split; [apply exec_single; by constructor|]. simpl. rewrite next_index_mod by done. split_and!; [| |done].
    + by apply holds_consume in Hh.
    + by apply (producer_ok_tail p q _ l' item).
Qed.

Lemma ring_simulation s e s' l :
  ring_rel s l → ring_step (cap - 1) s e s' →
  ∃ l', exec (fifo_step (cap - 1)) l (option_list e) l' ∧ ring_rel s' l'.
Proof.
  intros Hrel Hstep. destruct Hstep as [item c q|p q|p p' c q q' e Hs|p c c' q q' e Hs|p c q Hs|p c q Hs].
  - exists l. destruct Hrel as (? & ? & ?). split; [constructor|]. done.
  - exists l. destruct Hrel as (? & ? & ?). split; [constructor|]. done.
  - destruct (producer_step_sim _ _ _ _ _ Hrel Hs) as (? & ? & ? & l' & [= -> -> ->] & ? & ?). eauto.
  - destruct (consumer_step_sim _ _ _ _ _ Hrel Hs) as (? & ? & ? & l' & [= -> -> ->] & ? & ?). eauto.
  - by destruct (producer_step_sim _ _ _ _ _ Hrel Hs) as (? & ? & ? & l' & ? & _).
  - by destruct (consumer_step_sim _ _ _ _ _ Hrel Hs) as (? & ? & ? & l' & ? & _).
Qed.

Lemma ring_rel_init : ring_rel (ring_init cap) [].
Proof.
  pose proof (valid_capacity_bounds _ Hcap). split_and!; [|done|done]. apply holds_init. lia.
Qed.
End refinement.

(** * The sequential operations *)

(** [q] is a ring for [n] items that holds [l]. *)
Definition ring_contents (n : Z) (q : RingBuffer) (l : list Z) : Prop :=
  m_CapacityMinusOne q = n ∧ valid_capacity (n + 1) ∧
  holds (n + 1) (buffer (data q)) (head (data q)) (tail (data q)) l.

#[export] Instance RingBuffer_spsc : Spsc RingBuffer := {|
  spsc_enqueue := Enqueue; spsc_dequeue := Dequeue; spsc_contents := ring_contents
|}.

#[export] Instance RingBuffer_laws : SpscLaws RingBuffer.
Proof.
  split; simpl.
  - intros n [mask [h t b]] l x (Hn & Hcap & Hh) Hroom. simpl in *. subst mask.
    pose proof (holds_range _ _ _ _ _ Hh) as [Hhr Htr]. pose proof Hh as (Hb & _).
    replace n with (n + 1 - 1) by lia. unfold Enqueue. simpl. rewrite next_index_mod by done.
    rewrite decide_False; [|rewrite (holds_full_iff _ _ _ _ _ Hh); lia].
    rewrite store_in_range by lia. eexists. split; [done|].
    split_and!; [done|by replace (n + 1 - 1 + 1) with (n + 1) by lia|]. simpl.
    replace (n + 1 - 1 + 1) with (n + 1) by lia. apply holds_publish; [by apply holds_write_free| |lia].
    apply zget_zset_eq. lia.
  - intros n [mask [h t b]] l x (Hn & Hcap & Hh) Hfull. simpl in *. subst mask.
    pose proof (holds_range _ _ _ _ _ Hh) as [Hhr Htr].
    replace n with (n + 1 - 1) by lia. unfold Enqueue. simpl. rewrite next_index_mod by done.
    by rewrite decide_True by (rewrite (holds_full_iff _ _ _ _ _ Hh); lia).
  - intros n [mask [h t b]] x l (Hn & Hcap & Hh). simpl in *. subst mask.
    pose proof (holds_range _ _ _ _ _ Hh) as [Hhr Htr].
    replace n with (n + 1 - 1) by lia. unfold Dequeue. simpl. rewrite next_index_mod by done.
    rewrite decide_False by (by rewrite (holds_empty_iff _ _ _ _ _ Hh)).
    rewrite (proj2 (load_Ok _ _ _) (holds_head _ _ _ _ _ _ Hh)). eexists. split; [done|].
    split_and!; [done|by replace (n + 1 - 1 + 1) with (n + 1) by lia|]. simpl.
    replace (n + 1 - 1 + 1) with (n + 1) by lia. by apply holds_consume in Hh.
  - intros n [mask [h t b]] (Hn & Hcap & Hh). simpl in *. unfold Dequeue. simpl.
    by rewrite decide_True by (by rewrite (holds_empty_iff _ _ _ _ _ Hh)).
  - intros n q l (_ & _ & (_ & _ & Hl & _)). lia.
Qed.

(** * Properties *)

(** C20: The ring buffer is a correct concurrent queue.  Under every
    interleaving of a producer's [Enqueue]s and a consumer's [Dequeue]s, no access
    leaves the buffer, and the outcomes are those of a FIFO holding at most
    [capacity - 1] items: [Enqueue] fails exactly when it is full, [Dequeue]
    exactly when it is empty, and every item is delivered once and in order. *)
Theorem ring_buffer_refines_fifo cap tr s :
  valid_capacity cap → exec (ring_step (cap - 1)) (ring_init cap) tr s →
  s ≠ RFault ∧ ∃ l, exec (fifo_step (cap - 1)) [] tr l ∧ enqueued tr = dequeued tr ++ l ∧
    zlen l ≤ cap - 1.
Proof.
  intros Hcap Hexec. pose proof (valid_capacity_bounds _ Hcap).
  destruct (simulation_exec _ _ (ring_rel cap) (λ c e c' a, ring_simulation cap Hcap c e c' a)
    _ _ _ _ (ring_rel_init cap Hcap) Hexec) as (l & Hfifo & Hrel).
  split; [by destruct s|]. exists l. split; [done|]. split.
  - by apply fifo_order in Hfifo.
  - eapply fifo_bound; [..|exact Hfifo]; [lia|]. unfold zlen. simpl. lia.
Qed.

(** A capacity of 4, with a dequeue that starts before and ends after an enqueue. *)
Lemma ring_buffer_refines_fifo_witness :
  ∃ s, exec (ring_step 3) (ring_init 4) [EvEnq 7; EvDeq 7] s ∧ s ≠ RFault ∧
  ∃ l, exec (fifo_step 3) [] [EvEnq 7; EvDeq 7] l ∧
    enqueued [EvEnq 7; EvDeq 7] = dequeued [EvEnq 7; EvDeq 7] ++ l ∧ zlen l ≤ 3.
Proof.
  assert (∃ s, exec (ring_step 3) (ring_init 4) [EvEnq 7; EvDeq 7] s) as [s Hs].
  { eexists. eapply exec_tau; [apply (enqueue_call 3 7)|].
    eapply exec_tau; [apply dequeue_call|].
    eapply exec_tau; [eapply enqueue_access; reflexivity|].
    eapply exec_tau; [eapply enqueue_access; reflexivity|].
    eapply exec_event; [eapply enqueue_access; reflexivity|].
    eapply exec_tau; [eapply dequeue_access; reflexivity|].
    eapply exec_tau; [eapply dequeue_access; reflexivity|].
    eapply exec_event; [eapply dequeue_access; reflexivity|]. apply exec_nil. }
  exists s. split; [exact Hs|].
  apply (ring_buffer_refines_fifo 4 _ s); [exists 2; lia|exact Hs].
Defined.

(** The step machines are the functions: a call of [Enqueue] or [Dequeue]
    that is not interleaved with the other side has the result and the effect of
    the sequential function, on every branch. *)
Theorem ring_machines_are_functions mask q item :
  run_call (producer_step mask) 4 (PLoaded item (head q)) q =
    (λ '(ok, q'), (Some (if ok : bool then EvEnq item else EvFull item), data q')) <$>
      Enqueue (mkRingBuffer mask q) item ∧
  run_call (consumer_step mask) 4 (CLoaded (tail q)) q =
    (λ '(r, q'), (Some (match r with Some x => EvDeq x | None => EvEmpty end), data q')) <$>
      Dequeue (mkRingBuffer mask q).
Proof.
  destruct q as [h t b]. unfold Enqueue, Dequeue, mbind, result_bind, fmap, result_fmap. split; simpl.
  - destruct (decide (next_index mask h = t)); [done|]. simpl. by destruct (store b h item).
  - destruct (decide (t = h)); [done|]. simpl. by destruct (load b t).
Qed.
