(* ===== verification/SeqLock.v ===== *)
(** [src/lib/spsc-queue/SpscQueueSeqLock.cpp]: the queue the demo uses.  A ring
    whose writer increments a sequence counter before and after it touches the
    ring, and whose reader gives up when the counter is odd or has moved.

    As for the ring buffer, the operations are given as functions and as step
    machines with one shared access per step.  [head] and [tail] are plain
    [size_t] members that both processes access; here they get the atomic, in-order
    accesses they have on the program's platform.  [SeqLockAtomics] has them as the
    C++ memory model has them. *)

From S2P Require Import Prelude SpscQueue.
#[local] Open Scope Z_scope.

(** * The code *)

Record QueueData := mkQueueData { head : Z; tail : Z; seq : Z; buffer : list Z }.

Record SeqLockQueue := mkSeqLockQueue { m_CapacityMinusOne : Z; data : QueueData }.

(** [seq.fetch_add(1)] on an atomic [size_t]. *)
Definition bump (q : QueueData) : QueueData :=
  mkQueueData (head q) (tail q) (u64 (seq q + 1)) (buffer q).

Definition Enqueue (q : SeqLockQueue) (item : Z) : result (bool * SeqLockQueue) :=
  let h := head (data q) in
  let nextHead := next_index (m_CapacityMinusOne q) h in
  if decide (nextHead = tail (data q)) then Ok (false, q) else
  let d1 := bump (data q) in
  buffer' ← store (buffer d1) h item;
  let d2 := mkQueueData nextHead (tail d1) (seq d1) buffer' in
  Ok (true, mkSeqLockQueue (m_CapacityMinusOne q) (bump d2)).

(** Without a concurrent writer the two reads of [seq] agree. *)
Definition Dequeue (q : SeqLockQueue) : result (option Z * SeqLockQueue) :=
  let h := head (data q) in
  let t := tail (data q) in
  if decide (t = h) then Ok (None, q) else
  let seqStart := seq (data q) in
  if decide (seqStart mod 2 ≠ 0) then Ok (None, q) else
  item ← load (buffer (data q)) t;
  let nextTail := next_index (m_CapacityMinusOne q) t in
  let seqEnd := seq (data q) in
  if decide (seqStart = seqEnd) then
    Ok (Some item, mkSeqLockQueue (m_CapacityMinusOne q) (mkQueueData h nextTail seqEnd (buffer (data q))))
  else Ok (None, q).

Definition GetRealCapacity (q : SeqLockQueue) : Z := m_CapacityMinusOne q.

(** ** The two sides *)

(** The producer after loading [head]; after the test; after the first increment;
    after writing the cell; after moving [head]. *)
Inductive producer :=
  | PIdle
  | PLoaded (item h : Z)
  | PChecked (item h : Z)
  | PLocked (item h : Z)
  | PWritten (item nextHead : Z)
  | PPublished.

(** The consumer after loading [head]; after loading [tail] and testing; after
    loading an even [seq]; after reading the cell; after the final test. *)
Inductive consumer :=
  | CIdle
  | CHead (h : Z)
  | CLoaded (t : Z)
  | CSeq (t seqStart : Z)
  | CRead (t seqStart item : Z)
  | CValid (t item : Z).

(** The success of [Enqueue] is recorded when [head] moves, which is when the
    item becomes visible; the call still has to increment [seq]. *)
Definition producer_step (mask : Z) (p : producer) (q : QueueData) :
    option (result (producer * QueueData * option queue_event)) :=
  match p with
  | PIdle => None
  | PLoaded item h =>
      if decide (next_index mask h = tail q) then Some (Ok (PIdle, q, Some (EvFull item)))
      else Some (Ok (PChecked item h, q, None))
  | PChecked item h => Some (Ok (PLocked item h, bump q, None))
  | PLocked item h =>
      Some (b ← store (buffer q) h item;
            Ok (PWritten item (next_index mask h), mkQueueData (head q) (tail q) (seq q) b, None))
  | PWritten item nextHead =>
      Some (Ok (PPublished, mkQueueData nextHead (tail q) (seq q) (buffer q), Some (EvEnq item)))
  | PPublished => Some (Ok (PIdle, bump q, None))
  end.

Definition consumer_step (mask : Z) (c : consumer) (q : QueueData) :
    option (result (consumer * QueueData * option queue_event)) :=
  match c with
  | CIdle => None
  | CHead h =>
      if decide (tail q = h) then Some (Ok (CIdle, q, Some EvEmpty))
      else Some (Ok (CLoaded (tail q), q, None))
  | CLoaded t =>
      if decide (seq q mod 2 ≠ 0) then Some (Ok (CIdle, q, Some EvBusy))
      else Some (Ok (CSeq t (seq q), q, None))
  | CSeq t seqStart => Some (item ← load (buffer q) t; Ok (CRead t seqStart item, q, None))
  | CRead t seqStart item =>
      if decide (seqStart = seq q) then Some (Ok (CValid t item, q, None))
      else Some (Ok (CIdle, q, Some EvBusy))
  | CValid t item =>
      Some (Ok (CIdle, mkQueueData (head q) (next_index mask t) (seq q) (buffer q), Some (EvDeq item)))
  end.

Inductive seqlock_state :=
  | SRun (p : producer) (c : consumer) (q : QueueData)
  | SFault.

Inductive seqlock_step (mask : Z) : seqlock_state → option queue_event → seqlock_state → Prop :=
  | enqueue_call item c q :
      seqlock_step mask (SRun PIdle c q) None (SRun (PLoaded item (head q)) c q)
  | dequeue_call p q :
      seqlock_step mask (SRun p CIdle q) None (SRun p (CHead (head q)) q)
  | enqueue_access p p' c q q' e :
      producer_step mask p q = Some (Ok (p', q', e)) →
      seqlock_step mask (SRun p c q) e (SRun p' c q')
  | dequeue_access p c c' q q' e :
      consumer_step mask c q = Some (Ok (c', q', e)) →
      seqlock_step mask (SRun p c q) e (SRun p c' q')
  | enqueue_fault p c q :
      producer_step mask p q = Some Undef → seqlock_step mask (SRun p c q) None SFault
  | dequeue_fault p c q :
      consumer_step mask c q = Some Undef → seqlock_step mask (SRun p c q) None SFault.

Definition seqlock_init (cap : Z) : seqlock_state :=
  SRun PIdle CIdle (mkQueueData 0 0 0 (replicate (Z.to_nat cap) 0)).

(** * The sequence-lock queue implements the FIFO *)

Section refinement.
Context (cap : Z).
Hypothesis Hcap : valid_capacity cap.

(** The writer is between its two increments. *)
Definition writing (p : producer) : bool :=
  match p with PLocked _ _ | PWritten _ _ | PPublished => true | _ => false end.

Definition producer_ok (p : producer) (q : QueueData) (l : list Z) : Prop :=
  match p with
  | PIdle | PPublished => True
  | PLoaded _ h => h = head q
  | PChecked _ h | PLocked _ h => h = head q ∧ zlen l < cap - 1
  | PWritten item n =>
      n = (head q + 1) mod cap ∧ zlen l < cap - 1 ∧ zget (buffer q) (head q) = Some item
  end.

Definition consumer_ok (c : consumer) (q : QueueData) (l : list Z) (o : bool) : Prop :=
  match c with
  | CIdle => True
  | CHead h => (tail q = h ∧ o = true) ∨ (tail q ≠ h ∧ l ≠ [])
  | CLoaded t | CSeq t _ => t = tail q ∧ l ≠ []
  | CRead t _ item | CValid t item => t = tail q ∧ ∃ l', l = item :: l'
  end.

Definition seqlock_rel (s : seqlock_state) (a : list Z * bool) : Prop :=
  match s with
  | SRun p c q =>
      holds cap (buffer q) (head q) (tail q) a.1 ∧ producer_ok p q a.1 ∧ consumer_ok c q a.1 a.2 ∧
      seq q mod 2 = (if writing p then 1 else 0)
  | SFault => False
  end.

Lemma u64_succ_parity x : u64 (x + 1) mod 2 = (x + 1) mod 2.
Proof.
  unfold u64. change (2 ^ 64) with (2 * 2 ^ 63). rewrite Z.rem_mul_r by lia.
  rewrite Z.mul_comm, Z.mod_add by lia. by rewrite Z.mod_mod by lia.
Qed.

Lemma parity_flip x (b : bool) :
  x mod 2 = (if b then 1 else 0) → u64 (x + 1) mod 2 = (if negb b then 1 else 0).
Proof.
  intros H. rewrite u64_succ_parity, <-Z.add_mod_idemp_l, H by lia. by destruct b.
Qed.

Lemma seq_consumer_ok_app c q q' l x o :
  tail q' = tail q → consumer_ok c q l o → consumer_ok c q' (l ++ [x]) o.
Proof.
  intros Ht. assert (l ++ [x] ≠ []) by by destruct l.
  destruct c as [|h|t|t s|t s item|t item]; simpl; rewrite ?Ht; try naive_solver.
  all: intros [-> (l' & ->)]; split; [done|]; by exists (l' ++ [x]).
Qed.

Lemma consumer_ok_data c q q' l o : tail q' = tail q → consumer_ok c q l o → consumer_ok c q' l o.
Proof. intros Ht. destruct c; simpl; by rewrite ?Ht. Qed.

Lemma seq_producer_ok_tail p q q' l x :
  head q' = head q → buffer q' = buffer q → producer_ok p q (x :: l) → producer_ok p q' l.
Proof.
  intros Hh Hb. destruct p; simpl; rewrite ?Hh, ?Hb; unfold zlen; simpl; intuition lia.
Qed.

Lemma seq_producer_step_sim p c q a r :
  seqlock_rel (SRun p c q) a → producer_step (cap - 1) p q = Some r →
  ∃ p' q' e a', r = Ok (p', q', e) ∧ exec (seen_step (cap - 1)) a (option_list e) a' ∧
    seqlock_rel (SRun p' c q') a'.
Proof.
  destruct a as [l o]. intros (Hh & Hp & Hc & Hpar) Hstep.
  destruct (holds_range _ _ _ _ _ Hh) as [Hhr Htr]. simpl in Hh, Hp, Hc.
  destruct p as [|item h|item h|item h|item n|]; simpl in Hp, Hstep; [done|..].
  - subst h. rewrite next_index_mod in Hstep by done. case_decide as Hfull; injection Hstep as <-.
    + apply (holds_full_iff _ _ _ _ _ Hh) in Hfull. eexists _, _, _, (l, o). split; [done|].
      split; [apply exec_single; by constructor|]. done.
    + rewrite (holds_full_iff _ _ _ _ _ Hh) in Hfull. eexists _, _, _, (l, o). split; [done|].
      split; [constructor|]. split_and!; [done| |done..]. simpl. split; [done|].
      destruct Hh as (_ & _ & Hlt & _). lia.
  - destruct Hp as [-> Hroom]. injection Hstep as <-. eexists _, _, _, (l, o). split; [done|].
    split; [constructor|]. split_and!; [done|done| |by apply (parity_flip _ false)].
    by eapply consumer_ok_data.
  - destruct Hp as [-> Hroom]. injection Hstep as <-. pose proof Hh as (Hb & _).
    rewrite store_in_range by lia. eexists _, _, _, (l, o). split; [done|]. split; [constructor|].
    simpl. rewrite next_index_mod by done.
    split_and!; [by apply holds_write_free|done|done|apply zget_zset_eq; lia|by destruct c|done].
  - destruct Hp as (-> & Hroom & Hitem). injection Hstep as <-.
    eexists _, _, _, (l ++ [item], o). split; [done|].
    split; [apply exec_single; by constructor|]. simpl.
    split_and!; [by apply holds_publish|done|by eapply seq_consumer_ok_app|done].
  - injection Hstep as <-. eexists _, _, _, (l, o). split; [done|].
    split; [constructor|]. split_and!; [done|done|by eapply consumer_ok_data|].
    by apply (parity_flip _ true).
Qed.

Lemma seq_consumer_step_sim p c q a r :
  seqlock_rel (SRun p c q) a → consumer_step (cap - 1) c q = Some r →
  ∃ c' q' e a', r = Ok (c', q', e) ∧ exec (seen_step (cap - 1)) a (option_list e) a' ∧
    seqlock_rel (SRun p c' q') a'.
Proof.
  destruct a as [l o]. intros (Hh & Hp & Hc & Hpar) Hstep.
  destruct (holds_range _ _ _ _ _ Hh) as [Hhr Htr]. simpl in Hh, Hp, Hc.
  destruct c as [|h|t|t s|t s item|t item]; simpl in Hc, Hstep; [done|..].
  - case_decide as Heq; injection Hstep as <-.
    + destruct Hc as [[_ ->]|[]]; [|done]. eexists _, _, _, (l, false). split; [done|].
      split; [apply exec_single; by constructor|]. done.
    + destruct Hc as [[]|[_ Hne]]; [done|]. eexists _, _, _, (l, o). split; [done|].
      split; [constructor|]. done.
  - destruct Hc as [-> Hne]. case_decide; injection Hstep as <-.
    + eexists _, _, _, (l, false). split; [done|]. split; [apply exec_single; by constructor|]. done.
    + eexists _, _, _, (l, o). split; [done|]. split; [constructor|]. done.
  - destruct Hc as [-> Hne]. injection Hstep as <-. destruct l as [|x l]; [done|].
    rewrite (proj2 (load_Ok _ _ _) (holds_head _ _ _ _ _ _ Hh)).
    eexists _, _, _, (x :: l, o). split; [done|]. split; [constructor|]. simpl. split_and!; eauto.
  - destruct Hc as [-> (l' & ->)]. case_decide; injection Hstep as <-.
    + eexists _, _, _, (_, o). split; [done|]. split; [constructor|]. simpl. split_and!; eauto.
    + eexists _, _, _, (_, false). split; [done|]. split; [apply exec_single; by constructor|]. done.
  - destruct Hc as [-> (l' & ->)]. injection Hstep as <-. eexists _, _, _, (l', false).
    split; [done|]. split; [apply exec_single; by constructor|]. simpl.
    rewrite next_index_mod by done. split_and!; [by apply holds_consume in Hh| |done|done].
    by apply (seq_producer_ok_tail p q _ l' item).
Qed.

Lemma seqlock_simulation s e s' a :
  seqlock_rel s a → seqlock_step (cap - 1) s e s' →
  ∃ a', exec (seen_step (cap - 1)) a (option_list e) a' ∧ seqlock_rel s' a'.
Proof.
  intros Hrel Hstep.
  destruct Hstep as [item c q|p q|p p' c q q' e Hs|p c c' q q' e Hs|p c q Hs|p c q Hs].
  - exists a. destruct Hrel as (? & ? & ? & ?). split; [constructor|]. done.
  - destruct a as [l o], Hrel as (Hh & ? & ? & ?). exists (l, bool_decide (l = [])).
    split; [eapply exec_tau; [apply seen_look|constructor]|]. split_and!; [done|done| |done]. simpl.
    rewrite bool_decide_eq_true, <-(holds_empty_iff _ _ _ _ _ Hh).
    destruct (decide (tail q = head q)); auto.
  - destruct (seq_producer_step_sim _ _ _ _ _ Hrel Hs) as (? & ? & ? & a' & [= -> -> ->] & ? & ?). eauto.
  - destruct (seq_consumer_step_sim _ _ _ _ _ Hrel Hs) as (? & ? & ? & a' & [= -> -> ->] & ? & ?). eauto.
  - by destruct (seq_producer_step_sim _ _ _ _ _ Hrel Hs) as (? & ? & ? & a' & ? & _).
  - by destruct (seq_consumer_step_sim _ _ _ _ _ Hrel Hs) as (? & ? & ? & a' & ? & _).
Qed.

Lemma seqlock_rel_init : seqlock_rel (seqlock_init cap) ([], false).
Proof.
  pose proof (valid_capacity_bounds _ Hcap). split_and!; [|done..]. apply holds_init. lia.
Qed.

Lemma seqlock_exec_rel tr s :
  exec (seqlock_step (cap - 1)) (seqlock_init cap) tr s →
  ∃ a, exec (seen_step (cap - 1)) ([], false) tr a ∧ seqlock_rel s a.
Proof. by apply simulation_exec; [intros; by eapply seqlock_simulation|apply seqlock_rel_init]. Qed.
End refinement.

(** * The sequential operations *)

Definition seqlock_contents (n : Z) (q : SeqLockQueue) (l : list Z) : Prop :=
  m_CapacityMinusOne q = n ∧ valid_capacity (n + 1) ∧ seq (data q) mod 2 = 0 ∧
  holds (n + 1) (buffer (data q)) (head (data q)) (tail (data q)) l.

#[export] Instance SeqLock_spsc : Spsc SeqLockQueue := {|
  spsc_enqueue := Enqueue; spsc_dequeue := Dequeue; spsc_contents := seqlock_contents
|}.

Lemma seqlock_next n i : valid_capacity (n + 1) → 0 ≤ i < n + 1 → next_index n i = (i + 1) mod (n + 1).
Proof. intros Hcap Hi. rewrite <-(next_index_mod (n + 1)) by done. f_equal. lia. Qed.

#[export] Instance SeqLock_laws : SpscLaws SeqLockQueue.
Proof.
  split; simpl.
  - intros n [mask [h t s b]] l x (Hn & Hcap & Hseq & Hh) Hroom. simpl in *. subst mask.
    pose proof (holds_range _ _ _ _ _ Hh) as [Hhr Htr]. pose proof Hh as (Hb & _).
    unfold Enqueue. simpl. rewrite seqlock_next by done.
    rewrite decide_False; [|rewrite (holds_full_iff _ _ _ _ _ Hh); lia].
    rewrite store_in_range by lia. eexists. split; [done|]. split_and!; [done|done| |].
    + simpl. by apply (parity_flip _ true), (parity_flip _ false).
    + apply holds_publish; [by apply holds_write_free|apply zget_zset_eq; lia|lia].
  - intros n [mask [h t s b]] l x (Hn & Hcap & Hseq & Hh) Hfull. simpl in *. subst mask.
    pose proof (holds_range _ _ _ _ _ Hh) as [Hhr Htr]. unfold Enqueue. simpl.
    rewrite seqlock_next by done.
    by rewrite decide_True by (rewrite (holds_full_iff _ _ _ _ _ Hh); lia).
  - intros n [mask [h t s b]] x l (Hn & Hcap & Hseq & Hh). simpl in *. subst mask.
    pose proof (holds_range _ _ _ _ _ Hh) as [Hhr Htr]. unfold Dequeue. simpl.
    rewrite decide_False by (by rewrite (holds_empty_iff _ _ _ _ _ Hh)).
    rewrite decide_False by (rewrite Hseq; auto).
    rewrite (proj2 (load_Ok _ _ _) (holds_head _ _ _ _ _ _ Hh)). simpl.
    rewrite decide_True by done. rewrite seqlock_next by done. eexists. split; [done|].
    split_and!; [done..|]. by apply holds_consume in Hh.
  - intros n [mask [h t s b]] (Hn & Hcap & Hseq & Hh). simpl in *. unfold Dequeue. simpl.
    by rewrite decide_True by (by rewrite (holds_empty_iff _ _ _ _ _ Hh)).
  - intros n q l (_ & _ & _ & (_ & _ & Hl & _)). lia.
Qed.

Lemma seqlock_consumer_solo mask q :
  seq q mod 2 = 0 →
  run_call (consumer_step mask) 6 (CHead (head q)) q =
    (λ '(r, q'), (Some (match r with Some x => EvDeq x | None => EvEmpty end), data q')) <$>
      Dequeue (mkSeqLockQueue mask q).
Proof.
  destruct q as [h t s b]. simpl. intros Hs.
  unfold Dequeue, mbind, result_bind, fmap, result_fmap. simpl.
  destruct (decide (t = h)); [done|]. simpl. rewrite Hs. simpl.
  destruct (load b t); simpl; try done. by rewrite !decide_True by done.
Qed.

(** * Properties *)

(** C10: The sequence-lock queue is a correct concurrent queue.  Under every
    interleaving of one producer and one consumer no access leaves the buffer;
    [Enqueue] fails exactly when the queue is full; [Dequeue] reports an empty
    queue only if it was empty at some moment since the previous [Dequeue]; and
    every item is delivered once, in order, and never torn, although [Dequeue]
    may also fail because it overlapped a write. *)
Theorem seqlock_refines_fifo cap tr s :
  valid_capacity cap → exec (seqlock_step (cap - 1)) (seqlock_init cap) tr s →
  s ≠ SFault ∧ ∃ l o, exec (seen_step (cap - 1)) ([], false) tr (l, o) ∧
    enqueued tr = dequeued tr ++ l ∧ zlen l ≤ cap - 1.
Proof.
  intros Hcap Hexec. pose proof (valid_capacity_bounds _ Hcap).
  destruct (seqlock_exec_rel cap Hcap _ _ Hexec) as ([l o] & Hfifo & Hrel).
  split; [by destruct s|]. exists l, o. split; [done|]. split.
  - by apply (seen_order _ _ _ _ Hfifo).
  - apply (seen_bound (cap - 1) _ _ _ ltac:(lia)) in Hfifo; [done|]. unfold zlen. simpl. lia.
Qed.

(** A dequeue that overlaps the write of a second item gives up. *)
Lemma seqlock_refines_fifo_witness :
  ∃ s, exec (seqlock_step 3) (seqlock_init 4) [EvEnq 7; EvBusy] s ∧ s ≠ SFault ∧
  ∃ l o, exec (seen_step 3) ([], false) [EvEnq 7; EvBusy] (l, o) ∧
    enqueued [EvEnq 7; EvBusy] = dequeued [EvEnq 7; EvBusy] ++ l ∧ zlen l ≤ 3.
Proof.
  assert (∃ s, exec (seqlock_step 3) (seqlock_init 4) [EvEnq 7; EvBusy] s) as [s Hs].
  { eexists. eapply exec_tau; [apply (enqueue_call 3 7)|].
    eapply exec_tau; [eapply enqueue_access; reflexivity|].
    eapply exec_tau; [eapply enqueue_access; reflexivity|].
    eapply exec_tau; [eapply enqueue_access; reflexivity|].
    eapply exec_event; [eapply enqueue_access; reflexivity|].
    eapply exec_tau; [apply dequeue_call|].
    eapply exec_tau; [eapply dequeue_access; reflexivity|].
    eapply exec_event; [eapply dequeue_access; reflexivity|]. apply exec_nil. }
  exists s. split; [exact Hs|].
  apply (seqlock_refines_fifo 4 _ s); [exists 2; lia|exact Hs].
Defined.

(** A [Dequeue] can be spuriously refused only by an overlapping write.  In
    every reachable state in which the producer is not between its two increments
    of [seq], a [Dequeue] that runs undisturbed returns the oldest item in the
    queue, or reports empty exactly when the queue is empty. *)
Theorem seqlock_dequeue_undisturbed cap tr p q :
  valid_capacity cap → exec (seqlock_step (cap - 1)) (seqlock_init cap) tr (SRun p CIdle q) →
  writing p = false →
  ∃ l q', enqueued tr = dequeued tr ++ l ∧
    run_call (consumer_step (cap - 1)) 6 (CHead (head q)) q =
      Ok (Some (match l with x :: _ => EvDeq x | [] => EvEmpty end), q').
Proof.
  intros Hcap Hexec Hw. destruct (seqlock_exec_rel cap Hcap _ _ Hexec) as ([l o] & Hfifo & Hrel).
  destruct Hrel as (Hh & _ & _ & Hpar). rewrite Hw in Hpar. exists l.
  assert (seqlock_contents (cap - 1) (mkSeqLockQueue (cap - 1) q) l) as Hc.
  { replace cap with (cap - 1 + 1) in Hcap, Hh by lia. by split_and!. }
  assert (enqueued tr = dequeued tr ++ l) by apply (seen_order _ _ _ _ Hfifo).
  rewrite seqlock_consumer_solo by done. destruct l as [|x l].
  - pose proof (spsc_dequeue_empty (Q := SeqLockQueue) _ _ Hc) as Hd. simpl in Hd. rewrite Hd. by exists q.
  - destruct (@spsc_dequeue_item _ _ SeqLock_laws _ _ _ _ Hc) as (q' & Hd & _).
    simpl in Hd. rewrite Hd. by exists (data q').
Qed.

Lemma seqlock_dequeue_undisturbed_witness :
  ∃ q l q', enqueued [EvEnq 7] = dequeued [EvEnq 7] ++ l ∧
    run_call (consumer_step 3) 6 (CHead (head q)) q =
      Ok (Some (match l with x :: _ => EvDeq x | [] => EvEmpty end), q').
Proof.
  assert (∃ q, exec (seqlock_step 3) (seqlock_init 4) [EvEnq 7] (SRun PIdle CIdle q)) as [q Hs].
  { eexists. eapply exec_tau; [apply (enqueue_call 3 7)|].
    eapply exec_tau; [eapply enqueue_access; reflexivity|].
    eapply exec_tau; [eapply enqueue_access; reflexivity|].
    eapply exec_tau; [eapply enqueue_access; reflexivity|].
    eapply exec_event; [eapply enqueue_access; reflexivity|].
    eapply exec_tau; [eapply enqueue_access; reflexivity|]. apply exec_nil. }
  exists q. apply (seqlock_dequeue_undisturbed 4 [EvEnq 7] PIdle q); [exists 2; lia|exact Hs|reflexivity].
Defined.
