(* ===== verification/SpscThreads.v ===== *)
(** What two threads rely on that share one of the queues: a producer, which is in its
    loop or inside a call of [Enqueue], and a consumer.  [Spsc] has whole operations;
    here the accesses of both sides interleave.  [RingBuffer] and [SeqLock] both offer
    it. *)

From S2P Require Import Prelude SpscQueue RingBuffer SeqLock.
#[local] Open Scope Z_scope.

(** The two sides as machines, in the states [P] and [C], on the shared data [D].  A call
    begins with its first load. *)
Class Threads (P C D : Type) := {
  idle_producer : P;
  idle_consumer : C;
  begin_enqueue : Z → D → P;
  begin_dequeue : D → C;
  enqueue_access : P → D → option (result (P * D * option queue_event));
  dequeue_access : C → D → option (result (C * D * option queue_event));
  (** The accesses that are left of a call, at most eight. *)
  enqueue_rank : P → Z;
  dequeue_rank : C → Z;
  (** The item of a call that is not decided yet. *)
  carries : P → option Z;
  (** What a call of [Dequeue] has read is not out of date. *)
  current : C → D → bool;
  (** The items in the queue, in order. *)
  holding : P → C → D → list Z → Prop
}.

Class ThreadsLaws (P C D : Type) `{Threads P C D} (n : Z) : Prop := {
  enqueue_begins c d l x : holding idle_producer c d l → holding (begin_enqueue x d) c d l;
  dequeue_begins p d l : holding p idle_consumer d l → holding p (begin_dequeue d) d l;
  enqueue_accesses p c d l r :
    holding p c d l → enqueue_access p d = Some r →
    ∃ p' d' e l', r = Ok (p', d', e) ∧ event_effect n e l l' ∧ holding p' c d' l';
  dequeue_accesses p c d l r :
    holding p c d l → dequeue_access c d = Some r →
    ∃ c' d' e l', r = Ok (c', d', e) ∧ event_effect n e l l' ∧ holding p c' d' l';
  enqueue_rank_begins x d : 0 < enqueue_rank (begin_enqueue x d) ≤ 8;
  enqueue_rank_zero p : 0 ≤ enqueue_rank p ∧ (enqueue_rank p = 0 ↔ p = idle_producer);
  enqueue_rank_access p d p' d' e :
    enqueue_access p d = Some (Ok (p', d', e)) → enqueue_rank p' < enqueue_rank p;
  enqueue_can_access p d : p ≠ idle_producer → ∃ r, enqueue_access p d = Some r;
  enqueue_carries x d : carries (begin_enqueue x d) = Some x;
  idle_carries : carries idle_producer = None;
  access_carries p d p' d' e :
    enqueue_access p d = Some (Ok (p', d', e)) →
    match e with
    | Some (EvEnq x) | Some (EvFull x) => carries p = Some x ∧ carries p' = None
    | None => carries p' = carries p ∧ (p' = idle_producer → carries p = None)
    | _ => False
    end;
  dequeue_rank_begins d : 0 < dequeue_rank (begin_dequeue d) ≤ 8;
  dequeue_rank_zero c : 0 ≤ dequeue_rank c ≤ 8 ∧ (dequeue_rank c = 0 ↔ c = idle_consumer);
  dequeue_rank_access c d c' d' e :
    dequeue_access c d = Some (Ok (c', d', e)) → dequeue_rank c' < dequeue_rank c;
  dequeue_can_access c d : c ≠ idle_consumer → ∃ r, dequeue_access c d = Some r;
  dequeue_answers c d c' d' e :
    dequeue_access c d = Some (Ok (c', d', e)) →
    match e with
    | None => c' ≠ idle_consumer
    | Some (EvDeq _) | Some EvEmpty | Some EvBusy => c' = idle_consumer
    | _ => False
    end;
  (** While no call of [Enqueue] is under way, a call that begins gets the item. *)
  current_begins d l : holding idle_producer idle_consumer d l → l ≠ [] → current (begin_dequeue d) d = true;
  current_answers c d l c' d' e :
    holding idle_producer c d l → l ≠ [] → current c d = true → dequeue_access c d = Some (Ok (c', d', e)) →
    (e = None ∧ current c' d' = true) ∨ ∃ x, e = Some (EvDeq x)
}.

(** * The ring buffer *)

#[export] Instance RingBuffer_threads (cap : Z) : Threads RingBuffer.producer RingBuffer.consumer RingBuffer.QueueData := {|
  idle_producer := RingBuffer.PIdle;
  idle_consumer := RingBuffer.CIdle;
  begin_enqueue x q := RingBuffer.PLoaded x (RingBuffer.head q);
  begin_dequeue q := RingBuffer.CLoaded (RingBuffer.tail q);
  enqueue_access := RingBuffer.producer_step (cap - 1);
  dequeue_access := RingBuffer.consumer_step (cap - 1);
  enqueue_rank p :=
    match p with
    | RingBuffer.PIdle => 0 | RingBuffer.PLoaded _ _ => 3 | RingBuffer.PChecked _ _ => 2 | RingBuffer.PWritten _ _ => 1
    end;
  dequeue_rank c :=
    match c with
    | RingBuffer.CIdle => 0 | RingBuffer.CLoaded _ => 3 | RingBuffer.CChecked _ => 2 | RingBuffer.CRead _ _ => 1
    end;
  carries p :=
    match p with
    | RingBuffer.PIdle => None
    | RingBuffer.PLoaded x _ | RingBuffer.PChecked x _ | RingBuffer.PWritten x _ => Some x
    end;
  current _ _ := true;
  holding p c q l := ring_rel cap (RingBuffer.RRun p c q) l
|}.

(** Case analysis of an access. *)
Ltac by_access Hs :=
  simpl in Hs; repeat case_decide;
  try (match type of Hs with context [store ?b ?i ?x] => destruct (store b i x) end);
  try (match type of Hs with context [load ?b ?i] => destruct (load b i) end);
  simpl in Hs; simplify_eq; simpl in *; simplify_eq.

#[export] Instance RingBuffer_threads_laws cap : valid_capacity cap →
  ThreadsLaws RingBuffer.producer RingBuffer.consumer RingBuffer.QueueData (cap - 1) (H := RingBuffer_threads cap).
Proof.
  intros Hcap. split; simpl.
  - intros c d l x (? & ? & ?). done.
  - intros p d l (? & ? & ?). done.
  - intros p c d l r Hh Hs. destruct (RingBuffer.producer_step_sim cap Hcap _ _ _ _ _ Hh Hs) as (p' & d' & e & l' & ? & ?%fifo_effect & ?).
    by exists p', d', e, l'.
  - intros p c d l r Hh Hs. destruct (RingBuffer.consumer_step_sim cap Hcap _ _ _ _ _ Hh Hs) as (c' & d' & e & l' & ? & ?%fifo_effect & ?).
    by exists c', d', e, l'.
  - lia.
  - intros []; (split; [lia|]); by split.
  - intros p d p' d' e Hs. destruct p; by_access Hs; lia.
  - intros [] d Hp; simpl; try done; repeat case_decide; by eexists.
  - done.
  - done.
  - intros p d p' d' e Hs. destruct p; by_access Hs; naive_solver.
  - lia.
  - intros []; (split; [lia|]); by split.
  - intros c d c' d' e Hs. destruct c; by_access Hs; lia.
  - intros [] d Hp; simpl; try done; repeat case_decide; by eexists.
  - intros c d c' d' e Hs. destruct c; by_access Hs; auto.
  - done.
  - intros c d l c' d' e (Hh & _ & Hc) Hne _ Hs. destruct c; by_access Hs; eauto.
    by destruct Hne; apply (holds_empty_iff _ _ _ _ _ Hh).
Qed.

(** * The sequence lock *)

#[export] Instance SeqLock_threads (cap : Z) : Threads SeqLock.producer SeqLock.consumer SeqLock.QueueData := {|
  idle_producer := SeqLock.PIdle;
  idle_consumer := SeqLock.CIdle;
  begin_enqueue x q := SeqLock.PLoaded x (SeqLock.head q);
  begin_dequeue q := SeqLock.CHead (SeqLock.head q);
  enqueue_access := SeqLock.producer_step (cap - 1);
  dequeue_access := SeqLock.consumer_step (cap - 1);
  enqueue_rank p :=
    match p with
    | SeqLock.PIdle => 0 | SeqLock.PLoaded _ _ => 5 | SeqLock.PChecked _ _ => 4 | SeqLock.PLocked _ _ => 3
    | SeqLock.PWritten _ _ => 2 | SeqLock.PPublished => 1
    end;
  dequeue_rank c :=
    match c with
    | SeqLock.CIdle => 0 | SeqLock.CHead _ => 5 | SeqLock.CLoaded _ => 4 | SeqLock.CSeq _ _ => 3
    | SeqLock.CRead _ _ _ => 2 | SeqLock.CValid _ _ => 1
    end;
  carries p :=
    match p with
    | SeqLock.PIdle | SeqLock.PPublished => None
    | SeqLock.PLoaded x _ | SeqLock.PChecked x _ | SeqLock.PLocked x _ | SeqLock.PWritten x _ => Some x
    end;
  current c q :=
    match c with
    | SeqLock.CHead h => bool_decide (SeqLock.tail q ≠ h)
    | SeqLock.CSeq _ seqStart | SeqLock.CRead _ seqStart _ => bool_decide (seqStart = SeqLock.seq q)
    | _ => true
    end;
  holding p c q l := ∃ o, seqlock_rel cap (SeqLock.SRun p c q) (l, o)
|}.

#[local] Arguments seqlock_rel : simpl never.

#[export] Instance SeqLock_threads_laws cap : valid_capacity cap →
  ThreadsLaws SeqLock.producer SeqLock.consumer SeqLock.QueueData (cap - 1) (H := SeqLock_threads cap).
Proof.
  intros Hcap. split; simpl.
  - intros c d l x (o & ? & ? & ? & ?). exists o. done.
  - intros p d l (o & Hh & ? & ? & ?). exists (bool_decide (l = [])). split_and!; [done|done| |done]. simpl.
    rewrite bool_decide_eq_true, <-(holds_empty_iff _ _ _ _ _ Hh). destruct (decide (SeqLock.tail d = SeqLock.head d)); auto.
  - intros p c d l r (o & Hh) Hs. destruct (seq_producer_step_sim cap Hcap _ _ _ _ _ Hh Hs) as (p' & d' & e & [l' o'] & ? & ?%seen_effect & ?).
    exists p', d', e, l'. split_and!; [done|done|by exists o'].
  - intros p c d l r (o & Hh) Hs. destruct (seq_consumer_step_sim cap Hcap _ _ _ _ _ Hh Hs) as (c' & d' & e & [l' o'] & ? & ?%seen_effect & ?).
    exists c', d', e, l'. split_and!; [done|done|by exists o'].
  - lia.
  - intros []; (split; [lia|]); by split.
  - intros p d p' d' e Hs. destruct p; by_access Hs; lia.
  - intros [] d Hp; simpl; try done; repeat case_decide; by eexists.
  - done.
  - done.
  - intros p d p' d' e Hs. destruct p; by_access Hs; naive_solver.
  - lia.
  - intros []; (split; [lia|]); by split.
  - intros c d c' d' e Hs. destruct c; by_access Hs; lia.
  - intros [] d Hp; simpl; try done; repeat case_decide; by eexists.
  - intros c d c' d' e Hs. destruct c; by_access Hs; auto.
  - intros d l (o & Hh & _) Hne. apply bool_decide_eq_true. by rewrite (holds_empty_iff _ _ _ _ _ Hh).
  - intros c d l c' d' e (o & Hh & _ & _ & Hpar) Hne Hcur Hs. simpl in Hpar.
    destruct c; by_access Hs; repeat case_bool_decide; eauto; try done.
Qed.
