(* ===== verification/Benchmarks.v ===== *)
(** The benchmarks of [src/benchmarks/]: the loops that Google Benchmark times, with what
    their set-up and their teardown do.  The two queues have the same benchmarks, so
    these are stated over the interfaces [Spsc], for one thread, and [Threads], for
    two.  How often the library runs the body ([state]) is a parameter. *)

From S2P Require Import Prelude Transpose TiledTranspose SpscQueue RingBuffer SeqLock SpscThreads.
#[local] Open Scope Z_scope.

(** * One thread *)

Module Single.
Section code.
Context {Q : Type} `{Spsc Q}.

(** [for (int i = 0; i < numItems; i++) pQueue->Enqueue(i);] with the answer ignored. *)
Fixpoint enqueue_from (count : nat) (i : Z) (q : Q) : result Q :=
  match count with
  | O => Ok q
  | S count' => '(_, q') ← spsc_enqueue q i; enqueue_from count' (i + 1) q'
  end.
Definition enqueue_items (numItems : Z) (q : Q) : result Q := enqueue_from (Z.to_nat numItems) 0 q.

(** The values of the local [item]: [None] is that of an uninitialised variable. *)
Fixpoint dequeue_items (count : nat) (q : Q) : result (list (option Z) * Q) :=
  match count with
  | O => Ok ([], q)
  | S count' => '(item, q') ← spsc_dequeue q; '(items, q'') ← dequeue_items count' q'; Ok (item :: items, q'')
  end.

Fixpoint enqueue_dequeue_from (count : nat) (i : Z) (q : Q) : result (list (option Z) * Q) :=
  match count with
  | O => Ok ([], q)
  | S count' =>
      '(_, q1) ← spsc_enqueue q i;
      '(item, q2) ← spsc_dequeue q1;
      '(items, q3) ← enqueue_dequeue_from count' (i + 1) q2;
      Ok (item :: items, q3)
  end.

(** [for (auto _ : state)]. *)
Fixpoint BM_Enque (iterations : nat) (numItems : Z) (q : Q) : result Q :=
  match iterations with
  | O => Ok q
  | S iterations' => q' ← enqueue_items numItems q; BM_Enque iterations' numItems q'
  end.
Fixpoint for_state (body : Q → result (list (option Z) * Q)) (iterations : nat) (q : Q) : result (list (option Z) * Q) :=
  match iterations with
  | O => Ok ([], q)
  | S iterations' => '(items, q') ← body q; '(more, q'') ← for_state body iterations' q'; Ok (items ++ more, q'')
  end.
Definition BM_Deque (iterations : nat) (numItems : Z) : Q → result (list (option Z) * Q) :=
  for_state (dequeue_items (Z.to_nat numItems)) iterations.
Definition BM_EnqueueDeque (iterations : nat) (numItems : Z) : Q → result (list (option Z) * Q) :=
  for_state (enqueue_dequeue_from (Z.to_nat numItems) 0) iterations.

(** [DoSetupDeque], which no benchmark uses, fills the queue that [DoSetup] creates. *)
Definition DoSetupDeque (numItems : Z) (q : Q) : result Q := enqueue_items numItems q.
End code.

Section facts.
Context {Q : Type} `{SpscLaws Q} (n : Z).
Implicit Types (q : Q) (l : list Z).

Lemma enqueue_from_spec count i q l :
  spsc_contents n q l →
  ∃ q', enqueue_from count i q = Ok q' ∧ spsc_contents n q' (take (Z.to_nat n) (l ++ seqZ i (Z.of_nat count))).
Proof.
  revert i q l. induction count as [|count IH]; intros i q l Hq; simpl.
  - exists q. rewrite app_nil_r, take_ge; [done|]. pose proof (spsc_contents_bound _ _ _ Hq). unfold zlen in *. lia.
  - pose proof (spsc_contents_bound _ _ _ Hq) as Hle.
    replace (Z.of_nat (S count)) with (1 + Z.of_nat count) by lia. rewrite seqZ_app by lia. change (seqZ i 1) with [i].
    destruct (decide (zlen l < n)) as [Hlt|Hge].
    + destruct (spsc_enqueue_room _ _ _ i Hq Hlt) as (q1 & -> & Hq1). simpl. rewrite cons_middle, app_assoc. by apply IH.
    + rewrite (spsc_enqueue_full _ _ _ i Hq) by lia. simpl. destruct (IH (i + 1) q l Hq) as (q' & Hrun & Hq').
      exists q'. split; [done|]. unfold zlen in *. rewrite take_app_length' in Hq' |- * by lia. done.
Qed.

Lemma dequeue_items_empty count q : spsc_contents n q [] → dequeue_items count q = Ok (replicate count None, q).
Proof. intros Hq. induction count as [|count IH]; simpl; [done|]. rewrite (spsc_dequeue_empty n q Hq). simpl. by rewrite IH. Qed.

Lemma dequeue_items_spec q l l' :
  spsc_contents n q (l ++ l') → ∃ q', dequeue_items (length l) q = Ok (Some <$> l, q') ∧ spsc_contents n q' l'.
Proof.
  revert q. induction l as [|x l IH]; intros q Hq; simpl; [by exists q|].
  destruct (spsc_dequeue_item _ _ _ _ Hq) as (q1 & -> & Hq1). simpl.
  destruct (IH q1 Hq1) as (q' & -> & Hq'). by exists q'.
Qed.

Lemma enqueue_dequeue_spec count i q :
  1 ≤ n → spsc_contents n q [] →
  ∃ q', enqueue_dequeue_from count i q = Ok (Some <$> seqZ i (Z.of_nat count), q') ∧ spsc_contents n q' [].
Proof.
  intros Hn. revert i q. induction count as [|count IH]; intros i q Hq; simpl; [by exists q|].
  destruct (spsc_enqueue_room _ _ _ i Hq) as (q1 & -> & Hq1); [unfold zlen; simpl; lia|]. simpl.
  destruct (spsc_dequeue_item _ _ _ _ Hq1) as (q2 & -> & Hq2). simpl.
  destruct (IH (i + 1) q2 Hq2) as (q' & -> & Hq'). exists q'. split; [|done]. simpl.
  replace (Z.of_nat (S count)) with (1 + Z.of_nat count) by lia. rewrite seqZ_app by lia. by change (seqZ i 1) with [i].
Qed.

Lemma for_state_spec (body : Q → result (list (option Z) * Q)) iterations items q :
  (∀ q, spsc_contents n q [] → ∃ q', body q = Ok (items, q') ∧ spsc_contents n q' []) → spsc_contents n q [] →
  ∃ q', for_state body iterations q = Ok (concat (replicate iterations items), q') ∧ spsc_contents n q' [].
Proof.
  intros Hbody. revert q. induction iterations as [|r IH]; intros q Hq; simpl; [by exists q|].
  destruct (Hbody q Hq) as (q1 & -> & Hq1). simpl. destruct (IH q1 Hq1) as (q' & -> & Hq'). by exists q'.
Qed.

Lemma BM_Enque_spec iterations numItems q l :
  0 ≤ numItems → spsc_contents n q l →
  ∃ q', BM_Enque iterations numItems q = Ok q' ∧
    spsc_contents n q' (take (Z.to_nat n) (l ++ concat (replicate iterations (seqZ 0 numItems)))).
Proof.
  intros Hnum. revert q l. induction iterations as [|r IH]; intros q l Hq; simpl.
  - exists q. rewrite app_nil_r, take_ge; [done|]. pose proof (spsc_contents_bound _ _ _ Hq). unfold zlen in *. lia.
  - destruct (enqueue_from_spec (Z.to_nat numItems) 0 q l Hq) as (q1 & Hrun & Hq1). unfold enqueue_items. rewrite Hrun. simpl.
    rewrite Z2Nat.id in Hq1 by done. destruct (IH q1 _ Hq1) as (q' & -> & Hq'). exists q'. split; [done|].
    rewrite app_assoc. replace (take _ ((l ++ _) ++ _)) with
      (take (Z.to_nat n) (take (Z.to_nat n) (l ++ seqZ 0 numItems) ++ concat (replicate r (seqZ 0 numItems)))); [done|].
    generalize (l ++ seqZ 0 numItems) (concat (replicate r (seqZ 0 numItems))) (Z.to_nat n). clear. intros l1 l2 k.
    rewrite !take_app, take_take, Nat.min_id, length_take. f_equal. f_equal. lia.
Qed.
End facts.
End Single.

(** * Two threads *)

Module Multi.

(** The main thread: in [DoSetup], at the test of [for (auto _ : state)] with the number of
    iterations that are left, in the inner loop, in [Enqueue], in [join], after it. *)
Inductive main_pc :=
  | MSetup
  | MFor (todo : nat)
  | MLoop (todo : nat) (i : Z)
  | MCall (todo : nat) (i : Z)
  | MJoin
  | MDone.

(** The consumer's thread: at the test of its loop, in [Dequeue], in [sleep_for], ended. *)
Inductive consumer_pc :=
  | KTest (i : Z)
  | KCall (i : Z)
  | KSleep (i : Z)
  | KDone.

Definition during_setup (m : main_pc) : bool := match m with MSetup => true | _ => false end.

Record bench (P C D : Type) := mkBench {
  main_at : main_pc;
  consumer_at : consumer_pc;
  producer : P;
  consumer : C;
  queue : D;
  received : list Z;   (** the items passed to [DoNotOptimize] *)
  dangling : bool      (** [numItems] has been read after [DoSetup] returned *)
}.
Arguments mkBench {P C D} _ _ _ _ _ _ _.
Arguments main_at {P C D} _.
Arguments consumer_at {P C D} _.
Arguments producer {P C D} _.
Arguments consumer {P C D} _.
Arguments queue {P C D} _.
Arguments received {P C D} _.
Arguments dangling {P C D} _.

Inductive bench_state (P C D : Type) := BRun (b : bench P C D) | BFault.
Arguments BRun {P C D} _.
Arguments BFault {P C D}.

Section code.
Context {P C D : Type} `{Threads P C D} (numItems : Z) (iterations : nat).

(** The lambda of the consumer captures the local [numItems] of [DoSetup] by reference:
    what it reads there once [DoSetup] has returned, which is undefined behaviour. *)
Context (dead : Z → Prop).

Definition reads_numItems (m : main_pc) (v : Z) : Prop := if during_setup m then v = numItems else dead v.

(** The flag tells the steps of the main thread. *)
Inductive bench_step : bool → bench_state P C D → bench_state P C D → Prop :=
  | setup_returns k p c d rs u :
      bench_step true (BRun (mkBench MSetup k p c d rs u)) (BRun (mkBench (MFor iterations) k p c d rs u))
  | for_next todo k p c d rs u :
      bench_step true (BRun (mkBench (MFor (S todo)) k p c d rs u)) (BRun (mkBench (MLoop todo 0) k p c d rs u))
  | for_done k p c d rs u :
      bench_step true (BRun (mkBench (MFor 0) k p c d rs u)) (BRun (mkBench MJoin k p c d rs u))
  | loop_call todo i k p c d rs u :
      i < numItems →
      bench_step true (BRun (mkBench (MLoop todo i) k p c d rs u))
        (BRun (mkBench (MCall todo i) k (begin_enqueue i d) c d rs u))
  | loop_exit todo i k p c d rs u :
      numItems ≤ i →
      bench_step true (BRun (mkBench (MLoop todo i) k p c d rs u)) (BRun (mkBench (MFor todo) k p c d rs u))
  | call_access todo i k p p' c d d' e rs u :
      enqueue_access p d = Some (Ok (p', d', e)) → p' ≠ idle_producer →
      bench_step true (BRun (mkBench (MCall todo i) k p c d rs u)) (BRun (mkBench (MCall todo i) k p' c d' rs u))
  | call_returns todo i k p p' c d d' e rs u :
      enqueue_access p d = Some (Ok (p', d', e)) → p' = idle_producer →
      bench_step true (BRun (mkBench (MCall todo i) k p c d rs u)) (BRun (mkBench (MLoop todo (i + 1)) k p' c d' rs u))
  | call_fault todo i k p c d rs u :
      enqueue_access p d = Some Undef → bench_step true (BRun (mkBench (MCall todo i) k p c d rs u)) BFault
  | join_returns p c d rs u :
      bench_step true (BRun (mkBench MJoin KDone p c d rs u)) (BRun (mkBench MDone KDone p c d rs u))
  | test_next m i v p c d rs u :
      reads_numItems m v → i < v →
      bench_step false (BRun (mkBench m (KTest i) p c d rs u))
        (BRun (mkBench m (KCall i) p (begin_dequeue d) d rs (u || negb (during_setup m))))
  | test_done m i v p c d rs u :
      reads_numItems m v → v ≤ i →
      bench_step false (BRun (mkBench m (KTest i) p c d rs u))
        (BRun (mkBench m KDone p c d rs (u || negb (during_setup m))))
  | dequeue_goes_on m i p c c' d d' rs u :
      dequeue_access c d = Some (Ok (c', d', None)) →
      bench_step false (BRun (mkBench m (KCall i) p c d rs u)) (BRun (mkBench m (KCall i) p c' d' rs u))
  | dequeue_true m i p c c' d d' x rs u :
      dequeue_access c d = Some (Ok (c', d', Some (EvDeq x))) →
      bench_step false (BRun (mkBench m (KCall i) p c d rs u)) (BRun (mkBench m (KTest (i + 1)) p c' d' (rs ++ [x]) u))
  | dequeue_false m i p c c' d d' e rs u :
      dequeue_access c d = Some (Ok (c', d', Some e)) → (∀ x, e ≠ EvDeq x) →
      bench_step false (BRun (mkBench m (KCall i) p c d rs u)) (BRun (mkBench m (KSleep i) p c' d' rs u))
  | dequeue_fault m i p c d rs u :
      dequeue_access c d = Some Undef → bench_step false (BRun (mkBench m (KCall i) p c d rs u)) BFault
  | sleep_ends m i p c d rs u :
      bench_step false (BRun (mkBench m (KSleep i) p c d rs u)) (BRun (mkBench m (KCall i) p (begin_dequeue d) d rs u)).

Definition bench_rel (x x' : bench_state P C D) : Prop := ∃ t, bench_step t x x'.

(** The queue has been created and the consumer's thread started. *)
Definition bench_init (d : D) : bench_state P C D :=
  BRun (mkBench MSetup (KTest 0) idle_producer idle_consumer d [] false).

(** The steps of the main thread that are left. *)
Definition main_left (b : bench P C D) : Z :=
  let round := 10 * numItems + 2 in
  match main_at b with
  | MSetup => Z.of_nat iterations * round + 3
  | MFor todo => Z.of_nat todo * round + 2
  | MLoop todo i => Z.of_nat todo * round + 3 + 10 * (numItems - i)
  | MCall todo i => Z.of_nat todo * round + 3 + 10 * (numItems - i - 1) + enqueue_rank (producer b)
  | MJoin => 1
  | MDone => 0
  end.

(** The steps of the consumer that are left once the main thread has ended its loop. *)
Definition consumer_left (b : bench P C D) : Z :=
  match consumer_at b with
  | KTest i => 20 * (numItems - i) + 19
  | KCall i => 20 * (numItems - i) + dequeue_rank (consumer b) + if current (consumer b) (queue b) then 0 else 10
  | KSleep i => 20 * (numItems - i) + 9
  | KDone => 0
  end.
End code.

(** ** The invariant *)

Section proofs.
Context {P C D : Type} (n : Z) `{ThreadsLaws P C D n} (numItems : Z) (iterations : nat) (dead : Z → Prop).
Hypothesis Hnum : 1 ≤ numItems ≤ n.
Hypothesis Hiter : (1 ≤ iterations)%nat.

Abbreviation step := (bench_step numItems iterations dead).

(** The items of the first iteration that have been enqueued; [None] after it. *)
Definition progress (b : bench P C D) : option Z :=
  match main_at b with
  | MSetup => Some 0
  | MFor todo => if decide (todo = iterations) then Some 0 else None
  | MLoop todo i => if decide (S todo = iterations) then Some i else None
  | MCall todo i =>
      if decide (S todo = iterations) then Some (match carries (producer b) with Some _ => i | None => i + 1 end) else None
  | MJoin | MDone => None
  end.

(** What has entered the queue begins with the items of the first iteration. *)
Definition sent_ok (j : option Z) (sent : list Z) : Prop :=
  match j with
  | Some j => 0 ≤ j ≤ numItems ∧ sent = seqZ 0 j
  | None => ∃ rest, sent = seqZ 0 numItems ++ rest
  end.

Definition main_ok (m : main_pc) (p : P) : Prop :=
  match m with
  | MFor todo => (todo ≤ iterations)%nat ∧ p = idle_producer
  | MLoop todo i => (todo < iterations)%nat ∧ 0 ≤ i ≤ numItems ∧ p = idle_producer
  | MCall todo i =>
      (todo < iterations)%nat ∧ 0 ≤ i < numItems ∧ p ≠ idle_producer ∧ (carries p = Some i ∨ carries p = None)
  | MSetup | MJoin | MDone => p = idle_producer
  end.

Definition consumer_ok (k : consumer_pc) (c : C) (got : Z) : Prop :=
  match k with
  | KTest i | KSleep i => c = idle_consumer ∧ i = got
  | KCall i => c ≠ idle_consumer ∧ i = got
  | KDone => c = idle_consumer
  end.

Record bench_inv (b : bench P C D) : Prop := {
  bi_main : main_ok (main_at b) (producer b);
  bi_consumer : consumer_ok (consumer_at b) (consumer b) (zlen (received b));
  bi_items : ∃ l, holding (producer b) (consumer b) (queue b) l ∧ sent_ok (progress b) (received b ++ l);
  bi_dangling : consumer_at b = KDone → dangling b = true
}.

Lemma idle_carries_not p x : carries p = Some x → p ≠ idle_producer.
Proof. intros Hc ->. by rewrite idle_carries in Hc. Qed.

Lemma begin_not_idle x d : begin_enqueue x d ≠ idle_producer.
Proof. eapply idle_carries_not, enqueue_carries. Qed.

Lemma begin_dequeue_not_idle d : begin_dequeue d ≠ idle_consumer.
Proof. intros Hi%dequeue_rank_zero. pose proof (dequeue_rank_begins d). lia. Qed.

(** The room that [Enqueue] finds in the first iteration. *)
Lemma sent_snoc j l : sent_ok (Some j) l → j < numItems → sent_ok (Some (j + 1)) (l ++ [j]).
Proof. intros [Hj ->] Hlt. split; [lia|]. by rewrite seqZ_app by lia. Qed.

Lemma sent_length j l l' : sent_ok (Some j) (l ++ l') → zlen l' ≤ j.
Proof.
  intros [Hj Hl]. assert (length (l ++ l') = Z.to_nat j) as Hlen by (rewrite Hl; apply length_seqZ).
  rewrite length_app in Hlen. unfold zlen. lia.
Qed.

(** An access of [Enqueue]. *)
Lemma access_sent todo i k p p' c d d' e rs u l :
  bench_inv (mkBench (MCall todo i) k p c d rs u) → holding p c d l →
  sent_ok (progress (mkBench (MCall todo i) k p c d rs u)) (rs ++ l) →
  enqueue_access p d = Some (Ok (p', d', e)) →
  ∃ l', holding p' c d' l' ∧ (carries p' = Some i ∨ carries p' = None) ∧
    sent_ok (if decide (S todo = iterations) then Some (match carries p' with Some _ => i | None => i + 1 end) else None) (rs ++ l') ∧
    (p' = idle_producer → carries p' = None).
Proof.
  intros [(Htodo & Hi & _ & Hcar) _ _ _] Hh Hsent Hs. simpl in Htodo, Hi, Hcar.
  destruct (enqueue_accesses p c d l _ Hh Hs) as (p1 & d1 & e1 & l' & [= <- <- <-] & He & Hh').
  exists l'. split; [done|]. pose proof (access_carries _ _ _ _ _ Hs) as Hev. unfold progress in Hsent. simpl in Hsent.
  assert (p' = idle_producer → carries p' = None) as Hidle by (intros ->; apply idle_carries).
  destruct e as [[x|x|x| |]|]; try done; simpl in He.
  - destruct Hev as [Hx Hn]. rewrite Hn. rewrite Hx in Hcar, Hsent. destruct He as [-> Hroom].
    destruct Hcar as [[= ->]|?]; [|done]. split_and!; [by right| |done]. rewrite app_assoc.
    case_decide; [apply sent_snoc; [done|lia]|]. destruct Hsent as [rest ->]. exists (rest ++ [i]). by rewrite app_assoc.
  - destruct Hev as [Hx Hn]. rewrite Hn. rewrite Hx in Hcar, Hsent. destruct He as [-> Hfull].
    split_and!; [by right| |done]. case_decide; [|done]. apply sent_length in Hsent. lia.
  - destruct Hev as [Hev _]. subst l'. rewrite Hev. split_and!; [done|done|by rewrite <-Hev].
Qed.

Lemma bench_inv_main b x : bench_inv b → step true (BRun b) x → ∃ b', x = BRun b' ∧ bench_inv b'.
Proof.
  intros Hinv Hs. pose proof Hinv as [Hm Hk (l & Hh & Hsent) Hd].
  inversion Hs as [k p c d rs u|todo k p c d rs u|k p c d rs u|todo i k p c d rs u Hi|todo i k p c d rs u Hi
    |todo i k p p' c d d' e rs u Ha Hne|todo i k p p' c d d' e rs u Ha Hid|todo i k p c d rs u Ha|p c d rs u| | | | | | |];
    subst; simpl in *.
  - eexists. split; [done|]. split; simpl; [by split; [lia|]|done| |done]. exists l. split; [done|]. unfold progress. simpl.
    by rewrite decide_True.
  - destruct Hm as [Hm ->]. eexists. split; [done|]. split; simpl; [split_and!; (done || lia)|done| |done].
    exists l. split; [done|]. unfold progress in *. simpl in *. done.
  - destruct Hm as [Hm ->]. eexists. split; [done|]. split; simpl; [done|done| |done].
    exists l. split; [done|]. unfold progress in *. simpl in *. case_decide; [lia|done].
  - destruct Hm as (Hm & Hr & ->). eexists. split; [done|]. split; simpl; [|done| |done].
    { split_and!; [done|lia|lia|apply begin_not_idle|left; apply enqueue_carries]. }
    exists l. split; [by apply enqueue_begins|]. unfold progress in *. simpl in *. by rewrite enqueue_carries.
  - destruct Hm as (Hm & Hr & ->). eexists. split; [done|]. split; simpl; [by split; [lia|]|done| |done].
    exists l. split; [done|]. unfold progress in *. simpl in *. rewrite (decide_False (P := todo = iterations)) by lia.
    case_decide; [|done]. exists []. rewrite app_nil_r. destruct Hsent as [_ ->]. f_equal. lia.
  - destruct (access_sent _ _ _ _ _ _ _ _ _ _ _ _ Hinv Hh Hsent Ha) as (l' & Hh' & Hc' & Hsent' & _).
    destruct Hm as (? & ? & _). eexists. split; [done|]. split; simpl; [done|done|by exists l'|done].
  - destruct (access_sent _ _ _ _ _ _ _ _ _ _ _ _ Hinv Hh Hsent Ha) as (l' & Hh' & Hc' & Hsent' & Hn).
    destruct Hm as (? & ? & _). eexists. split; [done|]. split; simpl; [split_and!; (done || lia)|done| |done].
    exists l'. split; [done|]. unfold progress. simpl. by rewrite (Hn eq_refl) in Hsent'.
  - destruct (enqueue_accesses p c d l _ Hh Ha) as (? & ? & ? & ? & ? & _). done.
  - eexists. split; [done|]. split; simpl; [done|done|by exists l|done].
Qed.

(** [join] follows [DoSetup]: until then the consumer gets nothing. *)
Lemma setup_nothing b : bench_inv b → during_setup (main_at b) = true → received b = [].
Proof.
  intros [_ _ (l & _ & Hsent) _] Hm. unfold progress in Hsent. destruct (main_at b); try done.
  destruct Hsent as [_ Hnil]. by apply app_eq_nil in Hnil as [? _].
Qed.

Lemma zlen_received (rs : list Z) x : zlen (rs ++ [x]) = zlen rs + 1.
Proof. by rewrite zlen_app. Qed.

Lemma bench_inv_consumer b x :
  bench_inv b → step false (BRun b) x →
  ∃ b', x = BRun b' ∧ bench_inv b' ∧ main_at b' = main_at b ∧ producer b' = producer b.
Proof.
  intros Hinv Hs. pose proof (setup_nothing b Hinv) as Hset. destruct Hinv as [Hm Hk (l & Hh & Hsent) Hd].
  inversion Hs as [| | | | | | | | |m i v p c d rs u Hv Hlt|m i v p c d rs u Hv Hle|m i p c c' d d' rs u Ha
    |m i p c c' d d' y rs u Ha|m i p c c' d d' e rs u Ha He|m i p c d rs u Ha|m i p c d rs u]; subst; simpl in *;
    try (destruct (dequeue_accesses _ _ _ _ _ Hh Ha) as (c1 & d1 & e1 & l' & [= <- <- <-] & Heff & Hh');
         pose proof (dequeue_answers _ _ _ _ _ Ha) as Hans).
  - destruct Hk as [-> Hk]. eexists. split_and!; [done| |done|done]. split; simpl; [done| | |done].
    + split; [apply begin_dequeue_not_idle|done].
    + exists l. split; [by apply dequeue_begins|done].
  - destruct Hk as [-> Hk]. eexists. split_and!; [done| |done|done]. split; simpl; [done|done|by exists l|].
    intros _. unfold reads_numItems in Hv. destruct (during_setup m); [|by rewrite orb_true_r].
    rewrite Hset in Hk by done. unfold zlen in Hk. simpl in Hk. lia.
  - eexists. split_and!; [done| |done|done]. split; simpl; [done|naive_solver| |done].
    exists l'. split; [done|]. simpl in Heff. by subst l'.
  - simpl in Heff. subst l. eexists. split_and!; [done| |done|done]. split; simpl; [done| | |done].
    + rewrite zlen_received. destruct Hk as [_ ->]. done.
    + exists l'. split; [done|]. by rewrite <-app_assoc.
  - eexists. split_and!; [done| |done|done]. assert (c' = idle_consumer ∧ l' = l) as [-> ->].
    { destruct e; try done. by destruct (He x). }
    split; simpl; [done|naive_solver|by exists l|done].
  - destruct Hk as [-> Hk]. eexists. split_and!; [done| |done|done]. split; simpl; [done| | |done].
    + split; [apply begin_dequeue_not_idle|done].
    + exists l. split; [by apply dequeue_begins|done].
Qed.

(** [join] waits for the consumer. *)
Definition joined (b : bench P C D) : Prop := main_at b = MDone → consumer_at b = KDone.

Lemma joined_step t b b' : joined b → step t (BRun b) (BRun b') → joined b'.
Proof. unfold joined. intros Hj Hs. inversion Hs; subst; simpl in *; try done; by intros Hm%Hj. Qed.

Definition state_inv (x : bench_state P C D) : Prop :=
  match x with BRun b => bench_inv b ∧ joined b | BFault => False end.

Lemma state_inv_step t x x' : state_inv x → step t x x' → state_inv x'.
Proof.
  destruct x as [b|]; [|done]. intros [Hinv Hj] Hs. destruct t.
  - destruct (bench_inv_main _ _ Hinv Hs) as (b' & -> & ?). split; [done|by eapply joined_step].
  - destruct (bench_inv_consumer _ _ Hinv Hs) as (b' & -> & ? & _). split; [done|by eapply joined_step].
Qed.

Lemma state_inv_rtc d x :
  holding idle_producer idle_consumer d [] → rtc (bench_rel numItems iterations dead) (bench_init d) x → state_inv x.
Proof.
  intros Hd. apply invariant_rtc; [intros x1 x2 H1 [t Hs]; by eapply state_inv_step|].
  split; [|done]. split; simpl; [done|done| |done]. exists []. split; [done|]. split; [lia|done].
Qed.

(** ** If the dead variable keeps its value *)

Hypothesis Hdead : ∀ v, dead v → v = numItems.

Definition in_time (k : consumer_pc) (got : Z) : Prop :=
  match k with KTest i => i ≤ numItems | KCall i | KSleep i => i < numItems | KDone => got = numItems end.

Definition good (b : bench P C D) : Prop := bench_inv b ∧ in_time (consumer_at b) (zlen (received b)).

Lemma reads_same m v : reads_numItems numItems dead m v → v = numItems.
Proof. unfold reads_numItems. destruct (during_setup m); auto. Qed.

Lemma in_time_step t b b' :
  bench_inv b → in_time (consumer_at b) (zlen (received b)) → step t (BRun b) (BRun b') →
  in_time (consumer_at b') (zlen (received b')).
Proof.
  intros Hinv Ht Hs. pose proof (bi_consumer _ Hinv) as Hk.
  inversion Hs as [| | | | | | | | |m i v p c d rs u Hv Hlt|m i v p c d rs u Hv Hle| | | | |]; subst; simpl in *; try done.
  - by apply reads_same in Hv as <-.
  - apply reads_same in Hv as ->. lia.
  - lia.
Qed.

Lemma good_rtc d x :
  holding idle_producer idle_consumer d [] → rtc (bench_rel numItems iterations dead) (bench_init d) x →
  ∃ b, x = BRun b ∧ good b.
Proof.
  intros Hd Hr. assert (state_inv (bench_init d)) as Hi by (by eapply state_inv_rtc).
  apply (invariant_rtc (bench_rel numItems iterations dead) (λ x, state_inv x ∧ ∃ b, x = BRun b ∧ good b)
    (bench_init d)) in Hr as [_ ?]; [done| |].
  - intros x1 x2 (H1 & b & -> & Hb) [t Hs]. pose proof (state_inv_step _ _ _ H1 Hs) as H2. split; [done|].
    destruct x2 as [b'|]; [|done]. exists b'. split; [done|]. split; [apply H2|]. by eapply in_time_step; [apply Hb..|].
  - split; [done|]. eexists. split; [done|]. split; [apply Hi|simpl; lia].
Qed.

(** The items are those of the first iteration, in order. *)
Lemma good_received b : good b → received b = seqZ 0 (zlen (received b)) ∧ zlen (received b) ≤ numItems.
Proof.
  intros [[_ Hk (l & _ & Hsent) _] Ht].
  assert (zlen (received b) ≤ numItems) as Hle by (destruct (consumer_at b); simpl in *; lia). split; [|done].
  assert (∃ rest', seqZ 0 numItems ++ rest' = received b ++ l ∨ seqZ 0 numItems = (received b ++ l) ++ rest') as (rest' & Heq).
  { destruct (progress b) as [j|]; simpl in Hsent.
    - destruct Hsent as [Hj Hl]. exists (seqZ j (numItems - j)). right. rewrite Hl. replace numItems with (j + (numItems - j)) at 1 by lia.
      by rewrite seqZ_app by lia.
    - destruct Hsent as [rest ->]. exists rest. by left. }
  assert (take (length (received b)) (seqZ 0 numItems) = received b) as Htake.
  { assert (length (received b) ≤ length (seqZ 0 numItems))%nat by (rewrite length_seqZ; unfold zlen in Hle; lia).
    destruct Heq as [Heq| ->]; [|rewrite <-app_assoc; apply take_app_length].
    rewrite <-(take_app_le _ rest') by done. by rewrite Heq, take_app_length. }
  rewrite <-Htake at 1. unfold zlen in *. replace numItems with (Z.of_nat (length (received b)) + (numItems - Z.of_nat (length (received b)))) by lia.
  rewrite seqZ_app by lia. apply take_app_length'. rewrite length_seqZ. lia.
Qed.

(** ** Both loops end *)

Lemma main_left_nonneg b : bench_inv b → 0 ≤ main_left numItems iterations b.
Proof.
  intros [Hm _ _ _]. unfold main_left. destruct (main_at b); simpl in Hm; try nia.
  pose proof (proj1 (enqueue_rank_zero (producer b))). nia.
Qed.

Lemma main_left_step b b' :
  bench_inv b → step true (BRun b) (BRun b') → main_left numItems iterations b' < main_left numItems iterations b.
Proof.
  intros [Hm _ _ _] Hs. unfold main_left.
  inversion Hs as [k p c d rs u|todo k p c d rs u|k p c d rs u|todo i k p c d rs u Hi|todo i k p c d rs u Hi
    |todo i k p p' c d d' e rs u Ha Hne|todo i k p p' c d d' e rs u Ha Hid| |p c d rs u| | | | | | |]; subst; simpl in *; try lia.
  - pose proof (enqueue_rank_begins i d). lia.
  - pose proof (enqueue_rank_access _ _ _ _ _ Ha). lia.
  - pose proof (enqueue_rank_access _ _ _ _ _ Ha). pose proof (proj1 (enqueue_rank_zero (P := P) (D := D) idle_producer)). lia.
Qed.

Lemma consumer_keeps_main b b' :
  step false (BRun b) (BRun b') → main_left numItems iterations b' = main_left numItems iterations b.
Proof. intros Hs. by inversion Hs. Qed.

Lemma main_can_step b : bench_inv b → main_at b ≠ MJoin → main_at b ≠ MDone → ∃ b', step true (BRun b) (BRun b').
Proof.
  destruct b as [m k p c d rs u]. intros [Hm _ (l & Hh & _) _] Hj Hd. simpl in *. destruct m as [|[|todo]|todo i|todo i| |]; try done.
  - eexists. apply setup_returns.
  - eexists. apply for_done.
  - eexists. apply for_next.
  - destruct (decide (i < numItems)); eexists; [by apply loop_call|apply loop_exit; lia].
  - destruct Hm as (_ & _ & Hne & _). destruct (enqueue_can_access p d Hne) as [r Hr].
    destruct (enqueue_accesses p c d l _ Hh Hr) as (p' & d' & e & l' & -> & _).
    assert (p' = idle_producer ∨ p' ≠ idle_producer) as [|].
    { pose proof (proj2 (enqueue_rank_zero (P := P) (D := D) p')) as Hz. destruct (decide (enqueue_rank p' = 0)) as [|Hr']; [left|right]; by rewrite <-Hz. }
    + eexists. by eapply call_returns.
    + eexists. by eapply call_access.
Qed.

(** The producer has finished. *)
Definition producer_done (b : bench P C D) : Prop := main_at b = MJoin ∨ main_at b = MDone.

(** An item is there. *)
Lemma done_holds b i l :
  bench_inv b → producer_done b → zlen (received b) = i → i < numItems →
  sent_ok (progress b) (received b ++ l) → l ≠ [].
Proof.
  intros Hinv Hdone Hgot Hi Hsent ->. assert (progress b = None) as Hp by (unfold progress; by destruct Hdone as [->| ->]).
  rewrite Hp in Hsent. destruct Hsent as [rest Heq]. rewrite app_nil_r in Heq.
  assert (zlen (received b) = zlen (seqZ 0 numItems) + zlen rest) as Hl by (by rewrite Heq, zlen_app).
  pose proof (zlen_nonneg rest). unfold zlen in *. rewrite length_seqZ in Hl. lia.
Qed.

Lemma consumer_left_range b : good b → 0 ≤ consumer_left numItems b.
Proof.
  intros [[_ Hk _ _] Ht]. pose proof (proj1 (dequeue_rank_zero (C := C) (D := D) (consumer b))). unfold consumer_left.
  destruct (consumer_at b); simpl in Ht; try lia. destruct (current _ _); lia.
Qed.

Lemma consumer_left_step b b' :
  good b → producer_done b → step false (BRun b) (BRun b') → consumer_left numItems b' < consumer_left numItems b.
Proof.
  intros [Hinv Ht] Hdone Hs. pose proof Hinv as [Hm Hk (l & Hh & Hsent) _].
  assert (producer b = idle_producer) as Hidle by (destruct Hdone as [He|He]; by rewrite He in Hm).
  unfold consumer_left.
  inversion Hs as [| | | | | | | | |m i v p c d rs u Hv Hlt|m i v p c d rs u Hv Hle|m i p c c' d d' rs u Ha
    |m i p c c' d d' y rs u Ha|m i p c c' d d' e rs u Ha He| |m i p c d rs u]; subst; simpl in *; rewrite ?Hidle in Hh.
  - pose proof (dequeue_rank_begins d). apply reads_same in Hv as ->. destruct Hk as [-> Hk].
    rewrite (current_begins d l) by (try done; by eapply (done_holds (mkBench m (KTest i) p _ d rs u))). lia.
  - lia.
  - pose proof (dequeue_rank_access _ _ _ _ _ Ha). destruct Hk as [_ Hk]. destruct (current c d) eqn:Hcur.
    + destruct (current_answers c d l c' d' None Hh) as [[_ ->]|(? & ?)]; try done; [|lia].
      by eapply (done_holds (mkBench m (KCall i) p c d rs u)).
    + destruct (current c' d'); lia.
  - pose proof (dequeue_rank_access _ _ _ _ _ Ha). pose proof (proj1 (dequeue_rank_zero (C := C) (D := D) c')).
    destruct (current c d); lia.
  - pose proof (dequeue_rank_access _ _ _ _ _ Ha). pose proof (proj1 (dequeue_rank_zero (C := C) (D := D) c')).
    destruct Hk as [_ Hk]. destruct (current c d) eqn:Hcur; [|lia].
    destruct (current_answers c d l c' d' (Some e) Hh) as [[? _]|(x & [= ->])]; try done; [|by destruct (He x)].
    by eapply (done_holds (mkBench m (KCall i) p c d rs u)).
  - pose proof (dequeue_rank_begins d). destruct Hk as [-> Hk].
    rewrite (current_begins d l) by (try done; by eapply (done_holds (mkBench m (KSleep i) p _ d rs u))). lia.
Qed.

Lemma consumer_can_step b :
  good b → consumer_at b ≠ KDone → (∃ v, reads_numItems numItems dead (main_at b) v) →
  ∃ b', step false (BRun b) (BRun b').
Proof.
  destruct b as [m k p c d rs u]. intros [[_ Hk (l & Hh & _) _] _] Hd [v Hv]. simpl in *. destruct k as [i|i|i|]; [| | |done].
  - destruct (decide (i < v)); eexists; [by eapply test_next|eapply test_done; [done|lia]].
  - destruct Hk as [Hne _]. destruct (dequeue_can_access c d Hne) as [r Hr].
    destruct (dequeue_accesses p c d l _ Hh Hr) as (c' & d' & e & l' & -> & _). destruct e as [e|].
    + assert ((∃ x, e = EvDeq x) ∨ ∀ x, e ≠ EvDeq x) as [[x ->]|He] by (destruct e; eauto).
      * eexists. by eapply dequeue_true.
      * eexists. by eapply dequeue_false.
    + eexists. by eapply dequeue_goes_on.
  - eexists. apply sleep_ends.
Qed.
End proofs.
End Multi.

(** * The tiled transpose *)

Module Tiled.

Definition rowCount (m : Z) : Z := u32 (Z.shiftl 1 m).
Definition columnCount (n : Z) : Z := u32 (Z.shiftl 1 n).

(** [originalMat[i] = i]. *)
Definition originalMat (m n : Z) : list Z := seqZ 0 (u32 (rowCount m * columnCount n)).

(** [BM_TransposeTiledMultiThreaded]: every iteration transposes into the same buffer, whose
    first contents are those of [new]. *)
Inductive BM_TransposeTiledMultiThreaded (m n tileSize numThreads : Z) : nat → list Z → list Z → Prop :=
  | tiled_no_more res : BM_TransposeTiledMultiThreaded m n tileSize numThreads 0 res res
  | tiled_again iterations res res' res'' :
      tiled_returns (originalMat m n) res (rowCount m) (columnCount n) tileSize numThreads res' →
      BM_TransposeTiledMultiThreaded m n tileSize numThreads iterations res' res'' →
      BM_TransposeTiledMultiThreaded m n tileSize numThreads (S iterations) res res''.

(** [ArgsProduct], and the parameters of the test [TileMultiThreaded]. *)
Definition dimensions : list Z := [10; 12].
Definition tileSizes : list Z := [32; 64; 128].
Definition threadCounts : list Z := [1; 2; 4; 8; 16; 32].

Lemma dimension_facts m : m ∈ dimensions → rowCount m = 2 ^ m ∧ columnCount m = 2 ^ m ∧ 10 ≤ m ≤ 12.
Proof. unfold dimensions. set_unfold. intros [->|[->|[]]]; by repeat split. Qed.

Lemma parameter_facts m n T N :
  m ∈ dimensions → n ∈ dimensions → T ∈ tileSizes → N ∈ threadCounts →
  (T | rowCount m) ∧ (T | columnCount n) ∧ 0 < T ∧ 0 < N < 2 ^ 32 ∧ 0 ≤ rowCount m ∧ 0 ≤ columnCount n ∧
  rowCount m + T ≤ 2 ^ 32 ∧ columnCount n + T ≤ 2 ^ 32 ∧ rowCount m * columnCount n < 2 ^ 32.
Proof.
  intros Hm Hn HT HN. destruct (dimension_facts m Hm) as (-> & _ & _), (dimension_facts n Hn) as (_ & -> & _).
  assert (∀ k, k ∈ dimensions → (T | 2 ^ k)) as Hdiv.
  { intros k. unfold dimensions, tileSizes in *. set_unfold.
    intros [->|[->|[]]]; destruct HT as [->|[->|[->|[]]]]; (apply Z.mod_divide; [done|reflexivity]). }
  split; [by apply Hdiv|]. split; [by apply Hdiv|].
  unfold dimensions, tileSizes, threadCounts in *. set_unfold.
  destruct Hm as [->|[->|[]]], Hn as [->|[->|[]]]; naive_solver lia.
Qed.

Lemma zlen_originalMat m n :
  0 ≤ rowCount m → 0 ≤ columnCount n → rowCount m * columnCount n < 2 ^ 32 →
  zlen (originalMat m n) = rowCount m * columnCount n.
Proof.
  intros HR HC Hs. unfold originalMat, zlen. rewrite length_seqZ, u32_small; nia.
Qed.

(** One call with the parameters of the benchmark or the test. *)
Lemma tiled_call m n T N res res' :
  m ∈ dimensions → n ∈ dimensions → T ∈ tileSizes → N ∈ threadCounts → zlen res = rowCount m * columnCount n →
  tiled_returns (originalMat m n) res (rowCount m) (columnCount n) T N res' ↔
  res' = transpose (rowCount m) (columnCount n) (originalMat m n).
Proof.
  intros Hm Hn HT HN Hres. destruct (parameter_facts m n T N) as (? & ? & ? & ? & ? & ? & ? & ? & ?); try done.
  apply tiled_returns_transpose; try done. by apply zlen_originalMat.
Qed.

(** However often the body runs, it ends with the transpose. *)
Lemma tiled_benchmark m n T N iterations res res' :
  m ∈ dimensions → n ∈ dimensions → T ∈ tileSizes → N ∈ threadCounts → zlen res = rowCount m * columnCount n →
  BM_TransposeTiledMultiThreaded m n T N (S iterations) res res' ↔
  res' = transpose (rowCount m) (columnCount n) (originalMat m n).
Proof.
  intros Hm Hn HT HN. destruct (parameter_facts m n T N) as (_ & _ & _ & _ & ? & ? & _ & _ & _); try done.
  revert res. induction iterations as [|r IH]; intros res Hres.
  - split; [|intros ->; eapply tiled_again; [by apply tiled_call|constructor]].
    inversion 1 as [|? ? res1 ? Hc Hrest]; subst. inversion Hrest; subst. by apply tiled_call in Hc.
  - assert (zlen (transpose (rowCount m) (columnCount n) (originalMat m n)) = rowCount m * columnCount n) as Hl
      by (apply zlen_transpose; nia). split.
    + inversion 1 as [|? ? res1 ? Hc Hrest]; subst. apply tiled_call in Hc as ->; try done. by apply IH in Hrest.
    + intros ->. eapply tiled_again; [by apply tiled_call|]. by apply IH.
Qed.
End Tiled.

(** * Properties *)

(** [CAPACITY], and the item counts the benchmarks are run with. *)
Definition CAPACITY : Z := 1024 * 1024.
Definition item_counts : list Z := [1; 1000; 10000; 1000000].

Lemma item_counts_fit : Forall (λ numItems, 1 ≤ numItems ≤ CAPACITY - 1) item_counts.
Proof. repeat constructor; vm_compute; discriminate. Qed.
Lemma CAPACITY_valid : valid_capacity CAPACITY.
Proof. by exists 20. Qed.

(** What the loops of one thread measure.  Over any queue for [n] items, however often
    the body runs: [BM_Enque] leaves the first [n] items, and once the queue is full its
    calls only fail; [BM_EnqueueDeque] gets back every item; and every [Dequeue] of
    [BM_Deque] finds the queue empty, so that [item] is never assigned, because its
    set-up is [DoSetup], while [DoSetupDeque], after which the first iteration would
    get the items in order, is not used. *)
Theorem single_thread_benchmarks {Q} `{SpscLaws Q} n numItems iterations (q : Q) :
  1 ≤ n → 0 ≤ numItems → spsc_contents n q [] →
  (∃ q', Single.BM_Enque iterations numItems q = Ok q' ∧
     spsc_contents n q' (take (Z.to_nat n) (concat (replicate iterations (seqZ 0 numItems))))) ∧
  (∃ q', Single.BM_EnqueueDeque iterations numItems q = Ok (concat (replicate iterations (Some <$> seqZ 0 numItems)), q') ∧
     spsc_contents n q' []) ∧
  (∃ q', Single.BM_Deque iterations numItems q =
     Ok (concat (replicate iterations (replicate (Z.to_nat numItems) None)), q')) ∧
  (numItems ≤ n → ∃ q1 q2, Single.DoSetupDeque numItems q = Ok q1 ∧
     Single.BM_Deque 1 numItems q1 = Ok (Some <$> seqZ 0 numItems, q2)).
Proof.
  intros Hn Hnum Hq. split_and!.
  - by apply (Single.BM_Enque_spec n iterations numItems q []).
  - apply (Single.for_state_spec n); [|done]. intros q1 Hq1.
    destruct (Single.enqueue_dequeue_spec n (Z.to_nat numItems) 0 q1 Hn Hq1) as (q2 & Hrun & Hq2). exists q2.
    by rewrite Z2Nat.id in Hrun.
  - edestruct (Single.for_state_spec n (Single.dequeue_items (Z.to_nat numItems)) iterations) as (q' & Hrun & _);
      [|exact Hq|by exists q']. intros q1 Hq1. exists q1. by rewrite (Single.dequeue_items_empty n).
  - intros Hle. destruct (Single.enqueue_from_spec n (Z.to_nat numItems) 0 q [] Hq) as (q1 & Hrun & Hq1).
    rewrite Z2Nat.id in Hq1 by done. simpl in Hq1.
    rewrite take_ge in Hq1 by (rewrite length_seqZ; lia). rewrite <-(app_nil_r (seqZ 0 numItems)) in Hq1.
    destruct (Single.dequeue_items_spec n q1 _ _ Hq1) as (q2 & Hrun2 & _). rewrite length_seqZ in Hrun2.
    exists q1, q2. split; [exact Hrun|]. unfold Single.BM_Deque. simpl. rewrite Hrun2. simpl. by rewrite app_nil_r.
Qed.

Lemma single_thread_benchmarks_witness :
  ∃ q', Single.BM_Deque 2 3 (mkRingBuffer 15 (RingBuffer.mkQueueData 0 0 (replicate 16 0))) =
    Ok (concat (replicate 2 (replicate 3 None)), q').
Proof.
  apply (single_thread_benchmarks 15 3 2 (mkRingBuffer 15 (RingBuffer.mkQueueData 0 0 (replicate 16 0)))); [lia|lia|].
  split; [done|]. split; [by exists 4|]. by apply (holds_init 16).
Defined.

(** C38: The benchmark of two threads has no defined execution to its end.  The consumer's
    lambda captures the local [numItems] of [DoSetup] by reference, and the items come
    only when [DoSetup] has returned: whatever the interleaving and whatever is found at
    the place of the variable, the consumer cannot leave its loop, and [join] cannot
    return, without having read it after its lifetime. *)
Theorem benchmark_reads_dead_variable {P C D} n `{ThreadsLaws P C D n} numItems iterations dead d x :
  1 ≤ numItems ≤ n → (1 ≤ iterations)%nat → holding idle_producer idle_consumer d [] →
  rtc (Multi.bench_rel numItems iterations dead) (Multi.bench_init d) x →
  ∃ b, x = Multi.BRun b ∧
    (Multi.consumer_at b = Multi.KDone → Multi.dangling b = true) ∧
    (Multi.main_at b = Multi.MDone → Multi.dangling b = true).
Proof.
  intros Hnum Hiter Hd Hr. pose proof (Multi.state_inv_rtc n numItems iterations dead Hnum Hiter d x Hd Hr) as Hx.
  destruct x as [b|]; [|done]. destruct Hx as [Hinv Hj]. exists b. split; [done|].
  pose proof (Multi.bi_dangling _ _ _ Hinv). auto.
Qed.

(** A queue of four places, one item, one iteration. *)
Section example.
#[local] Existing Instance SeqLock_threads_laws.

Definition demo_queue : SeqLock.QueueData := SeqLock.mkQueueData 0 0 0 (replicate 4 0).
Definition demo_used : SeqLock.QueueData := SeqLock.mkQueueData 1 1 2 (replicate 4 0).

Abbreviation demo_rel := (Multi.bench_rel (H := SeqLock_threads 4) 1 1 (eq 1)).
Abbreviation demo_init := (Multi.bench_init (H := SeqLock_threads 4) demo_queue).

Lemma demo_valid : valid_capacity 4.
Proof. by exists 2. Qed.

Lemma demo_holds : holding (Threads := SeqLock_threads 4) SeqLock.PIdle SeqLock.CIdle demo_queue [].
Proof. exists false. exact (seqlock_rel_init 4 demo_valid). Qed.

Lemma bench_runs :
  rtc demo_rel demo_init
    (Multi.BRun (Multi.mkBench Multi.MDone Multi.KDone SeqLock.PIdle SeqLock.CIdle demo_used [0] true)).
Proof.
  assert (∀ t x x' x'', Multi.bench_step (H := SeqLock_threads 4) 1 1 (eq 1) t x x' → rtc demo_rel x' x'' → rtc demo_rel x x'') as Hl
    by (intros; eapply rtc_l; [by eexists|done]).
  eapply Hl; [apply Multi.setup_returns|]. eapply Hl; [apply Multi.for_next|]. eapply Hl; [by apply Multi.loop_call|].
  do 4 (eapply Hl; [by eapply Multi.call_access|]). eapply Hl; [by eapply Multi.call_returns|].
  eapply Hl; [by apply Multi.loop_exit|]. eapply Hl; [apply Multi.for_done|].
  eapply Hl; [by apply (Multi.test_next _ _ _ _ _ 1)|].
  do 4 (eapply Hl; [by eapply Multi.dequeue_goes_on|]). eapply Hl; [by eapply Multi.dequeue_true|].
  eapply Hl; [by apply (Multi.test_done _ _ _ _ _ 1)|]. eapply Hl; [apply Multi.join_returns|]. apply rtc_refl.
Qed.

Lemma benchmark_reads_dead_variable_witness :
  ∃ b, rtc demo_rel demo_init (Multi.BRun b) ∧ Multi.main_at b = Multi.MDone ∧ Multi.dangling b = true.
Proof.
  eexists. split; [exact bench_runs|]. split; [reflexivity|].
  destruct (benchmark_reads_dead_variable (H := SeqLock_threads 4) 3 (H0 := SeqLock_threads_laws 4 demo_valid) 1 1 (eq 1)
    demo_queue _ ltac:(lia) ltac:(lia) demo_holds bench_runs) as (b & [= <-] & _ & Hd).
  by apply Hd.
Defined.
End example.

(** C37: Both threads of the benchmark end.  If the place of [numItems] still holds its value,
    then, whatever the interleaving, no access leaves the queue and the consumer gets
    the items of the first iteration in order and nothing else; the main thread has at
    most a fixed number of steps and is blocked only in [join]; once it is there or
    beyond, the consumer has at most a fixed number of steps, after which [join]
    returns. *)
Theorem benchmark_ends {P C D} n `{ThreadsLaws P C D n} numItems iterations d x :
  let step := Multi.bench_step numItems iterations (eq numItems) in
  1 ≤ numItems ≤ n → (1 ≤ iterations)%nat → holding idle_producer idle_consumer d [] →
  rtc (Multi.bench_rel numItems iterations (eq numItems)) (Multi.bench_init d) x →
  ∃ b, x = Multi.BRun b ∧
    Multi.received b = seqZ 0 (zlen (Multi.received b)) ∧
    (Multi.consumer_at b = Multi.KDone → Multi.received b = seqZ 0 numItems) ∧
    (∀ x', step true x x' → ∃ b', x' = Multi.BRun b' ∧
       0 ≤ Multi.main_left numItems iterations b' < Multi.main_left numItems iterations b) ∧
    (∀ x', step false x x' → ∃ b', x' = Multi.BRun b' ∧
       Multi.main_left numItems iterations b' = Multi.main_left numItems iterations b ∧
       (Multi.producer_done b → 0 ≤ Multi.consumer_left numItems b' < Multi.consumer_left numItems b)) ∧
    (Multi.producer_done b ∨ ∃ x', step true x x') ∧
    (Multi.consumer_at b = Multi.KDone ∨ ∃ x', step false x x') ∧
    (Multi.main_at b = Multi.MJoin → Multi.consumer_at b = Multi.KDone → ∃ x', step true x x').
Proof.
  intros step Hnum Hiter Hd Hr.
  assert (∀ v, numItems = v → v = numItems) as Hdead by done.
  destruct (Multi.good_rtc n numItems iterations _ Hnum Hiter Hdead d x Hd Hr) as (b & -> & Hb).
  pose proof Hb as [Hinv Ht]. destruct (Multi.good_received n numItems iterations Hnum Hiter b Hb) as [Hrec Hle].
  exists b. split; [done|]. split; [done|].
  assert (∀ b', step false (Multi.BRun b) (Multi.BRun b') → Multi.good numItems iterations b') as Hgood.
  { intros b' Hs. destruct (Multi.bench_inv_consumer n numItems iterations _ Hnum Hiter _ _ Hinv Hs) as (b1 & [= <-] & H1 & _).
    split; [done|]. by apply (Multi.in_time_step n numItems iterations _ Hnum Hiter Hdead false b b'). }
  split_and!.
  - intros Hk. rewrite Hk in Ht. simpl in Ht. by rewrite Ht in Hrec.
  - intros x' Hs. destruct (Multi.bench_inv_main n numItems iterations _ Hnum Hiter _ _ Hinv Hs) as (b' & -> & Hinv').
    exists b'. split; [done|]. split; [by apply (Multi.main_left_nonneg n numItems iterations Hnum Hiter)|].
    by apply (Multi.main_left_step n numItems iterations (eq numItems) Hiter b b').
  - intros x' Hs. destruct (Multi.bench_inv_consumer n numItems iterations _ Hnum Hiter _ _ Hinv Hs) as (b' & -> & Hinv' & _).
    exists b'. split; [done|]. split; [by eapply Multi.consumer_keeps_main|].
    intros Hdone. split; [by apply (Multi.consumer_left_range n numItems iterations Hiter), Hgood|].
    by apply (Multi.consumer_left_step n numItems iterations _ Hnum Hiter Hdead b b').
  - destruct b as [m k p c q rs u]. destruct m; try (by left; left); try (by left; right); right;
      (edestruct (Multi.main_can_step n numItems iterations (eq numItems) Hiter) as (b' & Hs); [exact Hinv|done|done|by eexists]).
  - assert ({Multi.consumer_at b = Multi.KDone} + {Multi.consumer_at b ≠ Multi.KDone}) as [|Hk]
      by (destruct (Multi.consumer_at b); (by left) || by right); [by left|right].
    edestruct (Multi.consumer_can_step n numItems iterations (eq numItems) Hiter) as (b' & Hs); [exact Hb|exact Hk| |by eexists].
    exists numItems. unfold Multi.reads_numItems. by case_match.
  - destruct b as [m k p c q rs u]. simpl. intros -> ->. eexists. apply Multi.join_returns.
Qed.

Lemma benchmark_ends_witness :
  ∃ b, rtc (Multi.bench_rel (H := SeqLock_threads 4) 1 1 (eq 1)) (Multi.bench_init (H := SeqLock_threads 4) demo_queue)
      (Multi.BRun b) ∧ Multi.consumer_at b = Multi.KDone ∧ Multi.received b = seqZ 0 1.
Proof.
  eexists. split; [exact bench_runs|]. split; [reflexivity|].
  destruct (benchmark_ends (H := SeqLock_threads 4) 3 (H0 := SeqLock_threads_laws 4 demo_valid) 1 1
    demo_queue _ ltac:(lia) ltac:(lia) demo_holds bench_runs) as (b & [= <-] & _ & Hd & _).
  by apply Hd.
Defined.
