(* ===== verification/Tests.v ===== *)
(** Tests of [src/tests/] as statements about the models: those of
    [test_mat-transpose.cpp], and those of [test_SpscQueueRingBuffer.cpp] and
    [test_SpscQueueSeqLock.cpp] that run in one process.  A test is [Ok true] when all
    its assertions hold. *)

From S2P Require Import Prelude Transpose TiledTranspose SpscQueue RingBuffer SeqLock Benchmarks.
#[local] Open Scope Z_scope.

(** * [test_mat-transpose.cpp] *)

(** [Naive<R>x<C>]: [dst] is zero at first, and [expected] has [C] rows. *)
Definition NaiveTest (src expected : list Z) (R C : Z) : result bool :=
  dst ← TransposeNaive src (replicate (length src) 0) R C;
  MatricesAreEqual dst expected C R.

(** The matrices of [Naive16x16] and [Naive32x32]. *)
Definition counting (size : Z) : list Z := Z.succ <$> seqZ 0 (size * size).
Definition counting_expected (size : Z) : list Z :=
  seqZ 0 size ≫= λ j, (λ i, i * size + j + 1) <$> seqZ 0 size.

Example Naive2x2 : NaiveTest [1; 2; 3; 4] [1; 3; 2; 4] 2 2 = Ok true.
Proof. by vm_compute. Qed.
Example Naive3x2 : NaiveTest [1; 2; 3; 4; 5; 6] [1; 3; 5; 2; 4; 6] 3 2 = Ok true.
Proof. by vm_compute. Qed.
Example Naive2x3 : NaiveTest [1; 2; 3; 4; 5; 6] [1; 4; 2; 5; 3; 6] 2 3 = Ok true.
Proof. by vm_compute. Qed.
Example Naive4x4 :
  NaiveTest (seqZ 1 16) [1; 5; 9; 13; 2; 6; 10; 14; 3; 7; 11; 15; 4; 8; 12; 16] 4 4 = Ok true.
Proof. by vm_compute. Qed.
Example Naive16x16 : NaiveTest (counting 16) (counting_expected 16) 16 16 = Ok true.
Proof. by vm_compute. Qed.
Example Naive32x32 : NaiveTest (counting 32) (counting_expected 32) 32 32 = Ok true.
Proof. by vm_compute. Qed.
Example Naive1x1 : NaiveTest [42] [42] 1 1 = Ok true.
Proof. by vm_compute. Qed.
Example Naive1x5 : NaiveTest [10; 20; 30; 40; 50] [10; 20; 30; 40; 50] 1 5 = Ok true.
Proof. by vm_compute. Qed.
Example Naive5x1 : NaiveTest [10; 20; 30; 40; 50] [10; 20; 30; 40; 50] 5 1 = Ok true.
Proof. by vm_compute. Qed.

(** [TileMultiThreaded], for one pair of results of the two transposes. *)
Definition TileMultiThreadedTest (m n tileSize numThreads : Z) (transposeRes refTranspose : list Z) (b : result bool) : Prop :=
  ∃ ref res, TransposeNaive (Tiled.originalMat m n) refTranspose (Tiled.rowCount m) (Tiled.columnCount n) = Ok ref ∧
    tiled_returns (Tiled.originalMat m n) transposeRes (Tiled.rowCount m) (Tiled.columnCount n) tileSize numThreads res ∧
    b = MatricesAreEqual res ref (Tiled.columnCount n) (Tiled.rowCount m).

(** * The queues *)

Section queue_tests.
Context {Q : Type} `{SpscLaws Q}.

(** [ASSERT_TRUE(queue.Enqueue(i))], from [i] on. *)
Fixpoint assert_enqueues (count : nat) (i : Z) (q : Q) : result (bool * Q) :=
  match count with
  | O => Ok (true, q)
  | S count' => '(ok, q') ← spsc_enqueue q i; if ok : bool then assert_enqueues count' (i + 1) q' else Ok (false, q')
  end.

(** [ASSERT_TRUE(queue.Dequeue(item)); ASSERT_EQ(item, i)]. *)
Fixpoint assert_dequeues (count : nat) (i : Z) (q : Q) : result (bool * Q) :=
  match count with
  | O => Ok (true, q)
  | S count' =>
      '(item, q') ← spsc_dequeue q;
      if decide (item = Some i) then assert_dequeues count' (i + 1) q' else Ok (false, q')
  end.

Definition assert_full (q : Q) : result (bool * Q) := '(ok, q') ← spsc_enqueue q 0; Ok (negb ok, q').
Definition assert_empty (q : Q) : result (bool * Q) := '(item, q') ← spsc_dequeue q; Ok (bool_decide (item = None), q').

Definition TestQueueFull (realCapacity : Z) (q : Q) : result bool :=
  '(b1, q1) ← assert_enqueues (Z.to_nat realCapacity) 0 q;
  '(b2, _) ← assert_full q1;
  Ok (b1 && b2).
Definition TestQueueEmpty (q : Q) : result bool := '(b, _) ← assert_empty q; Ok b.
Definition SingleProcess (realCapacity : Z) (q : Q) : result bool :=
  '(b1, q1) ← assert_enqueues (Z.to_nat realCapacity) 0 q;
  '(b2, q2) ← assert_full q1;
  '(b3, q3) ← assert_dequeues (Z.to_nat realCapacity) 0 q2;
  '(b4, _) ← assert_empty q3;
  Ok (b1 && b2 && b3 && b4).

Lemma assert_enqueues_pass n count i q l :
  spsc_contents n q l → zlen l + Z.of_nat count ≤ n →
  ∃ q', assert_enqueues count i q = Ok (true, q') ∧ spsc_contents n q' (l ++ seqZ i (Z.of_nat count)).
Proof.
  revert i q l. induction count as [|count IH]; intros i q l Hq Hle; simpl; [exists q; by rewrite app_nil_r|].
  destruct (spsc_enqueue_room _ _ _ i Hq) as (q1 & -> & Hq1); [lia|]. simpl.
  replace (Z.of_nat (S count)) with (1 + Z.of_nat count) by lia. rewrite seqZ_app by lia. change (seqZ i 1) with [i].
  rewrite app_assoc. apply IH; [done|]. rewrite zlen_app. unfold zlen in *. simpl. lia.
Qed.

Lemma assert_dequeues_pass n count i q :
  spsc_contents n q (seqZ i (Z.of_nat count)) →
  ∃ q', assert_dequeues count i q = Ok (true, q') ∧ spsc_contents n q' [].
Proof.
  revert i q. induction count as [|count IH]; intros i q Hq; simpl; [by exists q|].
  replace (Z.of_nat (S count)) with (1 + Z.of_nat count) in Hq by lia. rewrite seqZ_app in Hq by lia.
  change (seqZ i 1) with [i] in Hq. destruct (spsc_dequeue_item _ _ _ _ Hq) as (q1 & -> & Hq1). simpl.
  rewrite decide_True by done. by apply IH.
Qed.

Lemma assert_full_pass n q l : spsc_contents n q l → zlen l = n → assert_full q = Ok (true, q).
Proof. intros Hq Hl. unfold assert_full. by rewrite (spsc_enqueue_full _ _ _ 0 Hq Hl). Qed.
Lemma assert_empty_pass n q : spsc_contents n q [] → assert_empty q = Ok (true, q).
Proof. intros Hq. unfold assert_empty. by rewrite (spsc_dequeue_empty _ _ Hq). Qed.
End queue_tests.

(** * Properties *)

(** The tests of one process pass: on an empty queue for [realCapacity] items, whichever
    of the two it is, every assertion of [SingleProcess], [TestQueueFull] and
    [TestQueueEmpty] holds. *)
Theorem queue_tests_pass {Q} `{SpscLaws Q} realCapacity (q : Q) :
  0 ≤ realCapacity → spsc_contents realCapacity q [] →
  SingleProcess realCapacity q = Ok true ∧ TestQueueFull realCapacity q = Ok true ∧ TestQueueEmpty q = Ok true.
Proof.
  intros Hn Hq.
  destruct (assert_enqueues_pass _ (Z.to_nat realCapacity) 0 q [] Hq) as (q1 & Hrun & Hq1); [unfold zlen; simpl; lia|].
  assert (assert_full q1 = Ok (true, q1)) as Hfull.
  { eapply assert_full_pass; [exact Hq1|]. unfold zlen. simpl. rewrite length_seqZ. lia. }
  destruct (assert_dequeues_pass _ _ _ _ Hq1) as (q2 & Hrun2 & Hq2).
  unfold SingleProcess, TestQueueFull, TestQueueEmpty. rewrite Hrun. simpl. rewrite Hfull. simpl. rewrite Hrun2. simpl.
  by rewrite (assert_empty_pass _ _ Hq2), (assert_empty_pass _ _ Hq).
Qed.

Lemma queue_tests_pass_witness :
  SingleProcess 15 (mkRingBuffer 15 (RingBuffer.mkQueueData 0 0 (replicate 16 0))) = Ok true.
Proof.
  refine (proj1 (queue_tests_pass 15 _ _ _)); [lia|]. split; [done|]. split; [by exists 4|]. by apply (holds_init 16).
Defined.

(** [TileMultiThreaded] passes with each of its 72 combinations of parameters, under every
    schedule of the workers and whatever the new buffers hold. *)
Theorem tile_test_passes m n tileSize numThreads transposeRes refTranspose b :
  m ∈ Tiled.dimensions → n ∈ Tiled.dimensions → tileSize ∈ Tiled.tileSizes → numThreads ∈ Tiled.threadCounts →
  zlen transposeRes = Tiled.rowCount m * Tiled.columnCount n → zlen refTranspose = Tiled.rowCount m * Tiled.columnCount n →
  TileMultiThreadedTest m n tileSize numThreads transposeRes refTranspose b ↔ b = Ok true.
Proof.
  intros Hm Hn HT HN Hres Href.
  destruct (Tiled.parameter_facts m n tileSize numThreads) as (_ & _ & _ & _ & ? & ? & ? & ? & Hs); try done.
  assert (zlen (Tiled.originalMat m n) = Tiled.rowCount m * Tiled.columnCount n) as Hsrc by by apply Tiled.zlen_originalMat.
  assert (TransposeNaive (Tiled.originalMat m n) refTranspose (Tiled.rowCount m) (Tiled.columnCount n) =
    Ok (transpose (Tiled.rowCount m) (Tiled.columnCount n) (Tiled.originalMat m n))) as Hnaive.
  { apply TransposeNaive_spec; try done.
    - split; [done|]. destruct (Tiled.dimension_facts m Hm) as (-> & _ & ?).
      apply (Z.le_lt_trans _ (2 ^ 12)); [apply Z.pow_le_mono_r; lia|done].
    - split; [done|]. destruct (Tiled.dimension_facts n Hn) as (_ & -> & ?).
      apply (Z.le_lt_trans _ (2 ^ 12)); [apply Z.pow_le_mono_r; lia|done]. }
  assert (MatricesAreEqual (transpose (Tiled.rowCount m) (Tiled.columnCount n) (Tiled.originalMat m n))
    (transpose (Tiled.rowCount m) (Tiled.columnCount n) (Tiled.originalMat m n)) (Tiled.columnCount n) (Tiled.rowCount m) = Ok true) as Heq.
  { rewrite MatricesAreEqual_eq; [by rewrite bool_decide_true|nia|rewrite zlen_transpose; nia..]. }
  unfold TileMultiThreadedTest. split.
  - intros (ref & res & Hr & Ht & ->). rewrite Hnaive in Hr. injection Hr as <-. apply Tiled.tiled_call in Ht as ->; done.
  - intros ->. eexists _, _. split; [exact Hnaive|]. split; [by apply Tiled.tiled_call|done].
Qed.
