(* ===== verification/CppMemory.v ===== *)
(** The accesses of the C++ memory model that the program uses: plain accesses,
    atomic loads and stores with [memory_order_relaxed], [_acquire] and
    [_release], [fetch_add] with [_acq_rel], and [compare_exchange_strong].

    The memory is the list of all accesses so far.  Every thread has the set of
    accesses that happen before its next one, or, for loads of atomics, that it
    has observed.  A release store carries this set, and the thread that reads it
    with an acquire load adds it to its own.  A plain access that conflicts with
    one the thread does not know is a data race, which is undefined behaviour.  An
    atomic load may yield any store, however old, that the thread does not know
    to be overwritten.

    A store takes the last place in the modification order of its location.  This
    loses nothing: of the atomics with two writers the futex word is only exchanged,
    and the threads of the server store to their flag in turns, having seen the
    other's store.  Loads do not read from stores that come later in the execution. *)

From stdpp Require Import functions.
From S2P Require Import Prelude.
#[local] Open Scope Z_scope.

Inductive memory_order := Relaxed | Acquire | Release | AcqRel.

#[export] Instance memory_order_eq_dec : EqDecision memory_order.
Proof. solve_decision. Defined.

(** The two threads of a queue. *)
Inductive side := Prod | Cons.

#[export] Instance side_eq_dec : EqDecision side.
Proof. solve_decision. Defined.

Section memory.
Context {T L : Type} `{EqDecision T, EqDecision L}.

(** An access with the number of its place in the list as its identity. *)
Record event := mkEvent {
  ev_loc : L;
  ev_write : bool;
  ev_value : Z;
  ev_view : gset nat     (** what an acquire load of it learns *)
}.

Record memory := mkMemory {
  log : list event;
  knows : T → gset nat
}.

Definition writes (l : L) (ev : event) : bool := ev_write ev && bool_decide (ev_loc ev = l).
Definition written (l : L) (ev : event) : option Z := if writes l ev then Some (ev_value ev) else None.

(** The access happens now. *)
Definition perform (t : T) (ev : event) (m : memory) : memory :=
  mkMemory (log m ++ [ev]) (<[t := {[length (log m)]} ∪ knows m t]> (knows m)).

(** * Plain accesses *)

(** Some access to [l] is not known to [t] and conflicts with a read, or with a
    write. *)
Definition races (t : T) (l : L) (write : bool) (m : memory) : bool :=
  existsb (λ '(n, ev), if bool_decide (ev_loc ev = l) && (write || ev_write ev) then bool_decide (n ∉ knows m t) else false)
    (imap pair (log m)).

Definition last_write (l : L) (m : memory) : option Z :=
  last (omap (written l) (log m)).

Definition plain_read (t : T) (l : L) (m : memory) : result (Z * memory) :=
  if races t l false m then Undef else
  match last_write l m with
  | Some v => Ok (v, perform t (mkEvent l false v ∅) m)
  | None => Undef
  end.

Definition plain_write (t : T) (l : L) (v : Z) (m : memory) : result memory :=
  if races t l true m then Undef else Ok (perform t (mkEvent l true v ∅) m).

(** * Atomic accesses *)

Definition acquires (o : memory_order) : bool := match o with Acquire | AcqRel => true | _ => false end.
Definition releases (o : memory_order) : bool := match o with Release | AcqRel => true | _ => false end.

(** The store number [n], if it is one to [l] and no later one is known. *)
Definition readable (t : T) (l : L) (n : nat) (m : memory) : option event :=
  ev ← log m !! n;
  if writes l ev &&
     forallb (λ '(n', ev'), if bool_decide (n < n')%nat && writes l ev' then bool_decide (n' ∉ knows m t) else true)
       (imap pair (log m))
  then Some ev else None.

Definition observe (t : T) (o : memory_order) (n : nat) (ev : event) (m : memory) : memory :=
  mkMemory (log m) (<[t := {[n]} ∪ knows m t ∪ (if acquires o then ev_view ev else ∅)]> (knows m)).

(** A load that reads store number [n]. *)
Definition atomic_load (t : T) (l : L) (o : memory_order) (n : nat) (m : memory) : option (Z * memory) :=
  ev ← readable t l n m; Some (ev_value ev, observe t o n ev m).

(** The view of a store with earlier view [V0], which is not empty for a
    read-modify-write that continues a release sequence. *)
Definition store_after (t : T) (l : L) (o : memory_order) (v : Z) (V0 : gset nat) (m : memory) : memory :=
  let n := length (log m) in
  perform t (mkEvent l true v ({[n]} ∪ V0 ∪ (if releases o then knows m t else ∅))) m.

Definition atomic_store (t : T) (l : L) (o : memory_order) (v : Z) (m : memory) : memory :=
  store_after t l o v ∅ m.

(** A read-modify-write reads the last store. *)
Definition last_store (l : L) (m : memory) : option nat :=
  last (omap (λ '(n, ev), if writes l ev then Some n else None) (imap pair (log m))).

Definition fetch_add (t : T) (l : L) (o : memory_order) (d : Z) (m : memory) : option (Z * memory) :=
  n ← last_store l m;
  ev ← log m !! n;
  let m1 := observe t o n ev m in
  Some (ev_value ev, store_after t l o (u64 (ev_value ev + d)) (ev_view ev) m1).

(** [compare_exchange_strong] with the default order [memory_order_seq_cst], and
    whether it succeeds.  All accesses to its variable having this order, it finds
    the last store even if it fails. *)
Definition exchange (t : T) (l : L) (expected desired : Z) (m : memory) : option (bool * memory) :=
  n ← last_store l m;
  ev ← log m !! n;
  let m1 := observe t AcqRel n ev m in
  Some (if decide (ev_value ev = expected) then (true, store_after t l AcqRel desired (ev_view ev) m1) else (false, m1)).

(** The initial values, known to every thread. *)
Definition memory_init (vs : list (L * Z)) : memory :=
  mkMemory ((λ '(l, v), mkEvent l true v ∅) <$> vs) (λ _, set_seq 0 (length vs)).

(** * Several accesses

    What a thread accesses in one step of a machine that has the values in its own
    state: without a data race a plain read yields the last write. *)

Inductive mem_access :=
  | Plain (l : L) (write : bool)
  | Load (l : L) (o : memory_order) (v : Z)                (** which yields [v] *)
  | Store (l : L) (o : memory_order) (v : Z)
  | Exchange (l : L) (expected desired : Z) (ok : bool).   (** which succeeds or not *)

Inductive outcome := Done (m : memory) | Race (l : L).

Inductive accesses (t : T) : list mem_access → memory → outcome → Prop :=
  | acc_nil m : accesses t [] m (Done m)
  | acc_plain l w acts m r :
      races t l w m = false → accesses t acts (perform t (mkEvent l w 0 ∅) m) r →
      accesses t (Plain l w :: acts) m r
  | acc_race l w acts m : races t l w m = true → accesses t (Plain l w :: acts) m (Race l)
  | acc_load n l o v acts m m' r :
      atomic_load t l o n m = Some (v, m') → accesses t acts m' r → accesses t (Load l o v :: acts) m r
  | acc_store l o v acts m r :
      accesses t acts (atomic_store t l o v m) r → accesses t (Store l o v :: acts) m r
  | acc_exchange l e d ok acts m m' r :
      exchange t l e d m = Some (ok, m') → accesses t acts m' r → accesses t (Exchange l e d ok :: acts) m r.

(** [play] computes the outcome; the loads read the stores at the positions [idx]
    of the list. *)
Fixpoint play (t : T) (acts : list mem_access) (idx : list nat) (m : memory) : option outcome :=
  match acts with
  | [] => Some (Done m)
  | Plain l w :: acts => if races t l w m then Some (Race l) else play t acts idx (perform t (mkEvent l w 0 ∅) m)
  | Load l o v :: acts =>
      match idx with
      | [] => None
      | n :: idx => '(x, m') ← atomic_load t l o n m; if x =? v then play t acts idx m' else None
      end
  | Store l o v :: acts => play t acts idx (atomic_store t l o v m)
  | Exchange l e d ok :: acts => '(b, m') ← exchange t l e d m; if eqb b ok then play t acts idx m' else None
  end.

Definition after (t : T) (acts : list mem_access) (idx : list nat) (m : memory) : memory :=
  match play t acts idx m with Some (Done m') => m' | _ => m end.
Definition played (t : T) (acts : list mem_access) (idx : list nat) (m : memory) : bool :=
  match play t acts idx m with Some (Done _) => true | _ => false end.

(** * Lemmas *)

Lemma elem_of_imap_pair {A} (l : list A) n x : (n, x) ∈ imap pair l ↔ l !! n = Some x.
Proof.
  rewrite list_elem_of_lookup. split.
  - intros [i Hi]. rewrite list_lookup_imap in Hi. destruct (l !! i) eqn:E; [|done]. by injection Hi as <- <-.
  - intros Hx. exists n. by rewrite list_lookup_imap, Hx.
Qed.

Lemma writes_spec l ev : writes l ev = true ↔ ev_write ev = true ∧ ev_loc ev = l.
Proof. unfold writes. by rewrite andb_true_iff, bool_decide_eq_true. Qed.

Lemma races_false t l w m :
  races t l w m = false ↔
  ∀ n ev, log m !! n = Some ev → ev_loc ev = l → w || ev_write ev = true → n ∈ knows m t.
Proof.
  unfold races. rewrite <-not_true_iff_false, existsb_exists. split.
  - intros Hn n ev Hev Hl Hw. destruct (decide (n ∈ knows m t)) as [|Hk]; [done|]. destruct Hn.
    exists (n, ev). split; [by apply list_elem_of_In, elem_of_imap_pair|].
    simpl. rewrite Hw. by rewrite (bool_decide_true (n ∉ _)), (bool_decide_true (ev_loc ev = l)).
  - intros Hall ([n ev] & Hin%list_elem_of_In%elem_of_imap_pair & [[Hl%bool_decide_eq_true Hw]%andb_true_iff
      Hk%bool_decide_eq_true]%andb_true_iff). by apply Hk, (Hall n ev).
Qed.

Lemma readable_Some t l n m ev :
  readable t l n m = Some ev ↔
  log m !! n = Some ev ∧ writes l ev = true ∧
  ∀ n' ev', (n < n')%nat → log m !! n' = Some ev' → writes l ev' = true → n' ∉ knows m t.
Proof.
  unfold readable. destruct (log m !! n) as [ev0|] eqn:Hn; simpl; [|by split; [|intros (? & _)]].
  destruct (writes l ev0) eqn:Hw; simpl; [|split; [done|intros ([= <-] & Hw' & _); congruence]].
  destruct (forallb _ _) eqn:Hf.
  - rewrite forallb_forall in Hf. split; [|by intros ([= ->] & _)]. intros [= ->]. split_and!; [done|done|].
    intros n' ev' Hlt Hn' Hw' Hk. specialize (Hf (n', ev')). rewrite <-list_elem_of_In, elem_of_imap_pair in Hf.
    specialize (Hf Hn'). simpl in Hf. rewrite Hw', (bool_decide_true (n < n')%nat) in Hf by done.
    by apply bool_decide_eq_true in Hf.
  - split; [done|]. intros ([= ->] & _ & Hall). rewrite <-not_true_iff_false in Hf. destruct Hf.
    apply forallb_forall. intros [n' ev'] Hin%list_elem_of_In%elem_of_imap_pair.
    destruct (bool_decide (n < n')%nat) eqn:H1; [|done]. destruct (writes l ev') eqn:H2; [|done]. simpl.
    apply bool_decide_eq_true in H1. apply bool_decide_eq_true. by eapply Hall.
Qed.

(** The last write to a location. *)
Lemma last_write_Some l m n ev :
  log m !! n = Some ev → writes l ev = true →
  (∀ n' ev', (n < n')%nat → log m !! n' = Some ev' → writes l ev' = false) →
  last_write l m = Some (ev_value ev).
Proof.
  intros Hn Hw Hlater. unfold last_write. rewrite <-(take_drop_middle _ _ _ Hn), omap_app.
  assert (omap (written l) (drop (S n) (log m)) = []) as Hrest.
  { apply elem_of_nil_inv. intros v (ev' & [i Hi]%list_elem_of_lookup & Hsome)%list_elem_of_omap.
    rewrite lookup_drop in Hi. unfold written in Hsome.
    by rewrite (Hlater (S n + i)%nat ev') in Hsome by (done || lia). }
  change (ev :: drop (S n) (log m)) with ([ev] ++ drop (S n) (log m)). rewrite omap_app, Hrest, app_nil_r.
  assert (omap (written l) [ev] = [ev_value ev]) as -> by (simpl; unfold written; by rewrite Hw).
  by rewrite last_snoc.
Qed.

Lemma last_write_elem l m v :
  last_write l m = Some v → ∃ n ev, log m !! n = Some ev ∧ writes l ev = true ∧ v = ev_value ev.
Proof.
  unfold last_write. intros Hv%last_Some_elem_of. apply list_elem_of_omap in Hv as (ev & [n Hn]%list_elem_of_lookup & Hw).
  unfold written in Hw. destruct (writes l ev) eqn:He; [|done]. injection Hw as <-. eauto.
Qed.

Lemma plain_read_Ok t l m v m' :
  plain_read t l m = Ok (v, m') →
  races t l false m = false ∧ last_write l m = Some v ∧ m' = perform t (mkEvent l false v ∅) m.
Proof.
  unfold plain_read. destruct (races t l false m); [done|]. destruct (last_write l m); [|done]. by intros [= <- <-].
Qed.

Lemma plain_write_Ok t l v m m' :
  plain_write t l v m = Ok m' → m' = perform t (mkEvent l true v ∅) m.
Proof. unfold plain_write. by destruct (races t l true m); [|intros [= <-]]. Qed.

(** What the accesses of a thread do to the list and to the other threads. *)
Lemma log_perform t ev m n ev' :
  log (perform t ev m) !! n = Some ev' ↔ log m !! n = Some ev' ∨ n = length (log m) ∧ ev' = ev.
Proof.
  simpl. rewrite lookup_app_Some, list_lookup_singleton_Some. split; [|intros [?|[-> ->]]; [by left|right; split; [lia|split; [lia|done]]]].
  intros [?|(? & ? & ->)]; [by left|right; split; [lia|done]].
Qed.

Lemma knows_perform_ne t t' ev m : t ≠ t' → knows (perform t ev m) t' = knows m t'.
Proof. intros. simpl. by rewrite fn_lookup_insert_ne. Qed.

Lemma last_store_perform t l ev m :
  last_store l (perform t ev m) = if writes l ev then Some (length (log m)) else last_store l m.
Proof.
  unfold last_store. simpl. rewrite imap_app, omap_app. simpl. rewrite Nat.add_0_r.
  destruct (writes l ev); [by rewrite last_snoc|by rewrite app_nil_r].
Qed.

Lemma acc_nil_inv t m r : accesses t [] m r → r = Done m.
Proof. by inversion 1. Qed.
Lemma acc_plain_inv t l w acts m r :
  accesses t (Plain l w :: acts) m r →
  (races t l w m = true ∧ r = Race l) ∨
  (races t l w m = false ∧ accesses t acts (perform t (mkEvent l w 0 ∅) m) r).
Proof. inversion 1; subst; auto. Qed.
Lemma acc_load_inv t l o v acts m r :
  accesses t (Load l o v :: acts) m r →
  ∃ n m', atomic_load t l o n m = Some (v, m') ∧ accesses t acts m' r.
Proof. inversion 1; subst. eauto. Qed.
Lemma acc_store_inv t l o v acts m r :
  accesses t (Store l o v :: acts) m r → accesses t acts (atomic_store t l o v m) r.
Proof. by inversion 1; subst. Qed.
Lemma acc_exchange_inv t l e d ok acts m r :
  accesses t (Exchange l e d ok :: acts) m r → ∃ m', exchange t l e d m = Some (ok, m') ∧ accesses t acts m' r.
Proof. inversion 1; subst. eauto. Qed.

Lemma play_accesses t acts : ∀ idx m r, play t acts idx m = Some r → accesses t acts m r.
Proof.
  induction acts as [|[l w|l o v|l o v|l e d ok] acts IH]; simpl; intros idx m r Hp.
  - injection Hp as <-. constructor.
  - destruct (races t l w m) eqn:Hr; [injection Hp as <-; by apply acc_race|]. by apply acc_plain; eauto.
  - destruct idx as [|n idx]; [done|]. destruct (atomic_load t l o n m) as [[x m']|] eqn:Hl; simpl in Hp; [|done].
    destruct (Z.eqb_spec x v) as [->|]; [|done]. by eapply acc_load; eauto.
  - apply acc_store. eauto.
  - destruct (exchange t l e d m) as [[b m']|] eqn:Hx; simpl in Hp; [|done].
    destruct (eqb b ok) eqn:Hb; [|done]. apply eqb_prop in Hb as ->. eapply acc_exchange; eauto.
Qed.

Lemma played_accesses t acts idx m : played t acts idx m = true → accesses t acts m (Done (after t acts idx m)).
Proof.
  unfold played, after. intros Hp. destruct (play t acts idx m) as [[m'|l]|] eqn:Heq; try done.
  by eapply play_accesses.
Qed.
End memory.

(** * Labels

    Proofs about the memory give every access a label that tells what it is to
    the program, in a list beside that of the accesses. *)

Section labels.
Context {B : Type}.
Implicit Types (ls : list B) (lb : B) (P : B → Prop).

(** All accesses with a label in [P] are in [K]. *)
Definition sees ls (K : gset nat) P : Prop :=
  ∀ n lb, ls !! n = Some lb → P lb → n ∈ K.

Lemma sees_snoc ls lb K P : sees ls K P → (P lb → length ls ∈ K) → sees (ls ++ [lb]) K P.
Proof.
  intros Hs Hlb n lb' Hn HP. apply lookup_app_Some in Hn as [Hn|[Hlen Hn]]; [by eapply Hs|].
  apply list_lookup_singleton_Some in Hn as [Heq <-]. replace n with (length ls) by lia. by apply Hlb.
Qed.

Lemma sees_mono ls (K K' : gset nat) P P' :
  sees ls K P → (∀ lb, P' lb → P lb) → K ⊆ K' → sees ls K' P'.
Proof. intros Hs HP HK n lb Hn Hlb. apply HK. by eapply Hs, HP. Qed.

End labels.

Arguments event L : clear implicits.
Arguments memory T L : clear implicits.
Arguments mem_access L : clear implicits.
Arguments outcome T L : clear implicits.

(** A machine with the states [S] and its memory, until a data race. *)
Inductive weak (S T L : Type) := Alive (s : S) (m : memory T L) | Raced (l : L).
Arguments Alive {S T L} _ _.
Arguments Raced {S T L} _.

Definition continue {S T L} (s : S) (r : outcome T L) : weak S T L :=
  match r with Done m => Alive s m | Race l => Raced l end.
