(* ===== verification/RingAtomics.v ===== *)
(** [SpscQueueRingBuffer] under the C++ memory model: [Enqueue] and [Dequeue]
    with the memory orders of the code, on the memory of [CppMemory], where an
    acquire load may return an old value and a conflicting unordered access to a
    cell is a fault.  [RingBuffer] has the same code on one memory. *)

From stdpp Require Import functions.
From S2P Require Import Prelude SpscQueue RingBuffer CppMemory.
#[local] Open Scope Z_scope.

(** * The code *)

Inductive ring_loc := Head | Tail | Cell (i : Z).

#[export] Instance ring_loc_eq_dec : EqDecision ring_loc.
Proof. solve_decision. Defined.

Abbreviation ring_memory := (memory side ring_loc).

(** [buffer[i]] of a ring with [cap] cells. *)
Definition write_cell (cap i item : Z) (m : ring_memory) : result ring_memory :=
  if decide (0 ≤ i < cap) then plain_write Prod (Cell i) item m else Undef.
Definition read_cell (cap i : Z) (m : ring_memory) : result (Z * ring_memory) :=
  if decide (0 ≤ i < cap) then plain_read Cons (Cell i) m else Undef.

Inductive weak_state :=
  | WRun (p : producer) (c : consumer) (m : ring_memory)
  | WFault.

(** [n] is the store that an atomic load reads. *)
Inductive weak_step (cap : Z) : weak_state → option queue_event → weak_state → Prop :=
  | enqueue_head item c m m' n h :
      atomic_load Prod Head Relaxed n m = Some (h, m') →
      weak_step cap (WRun PIdle c m) None (WRun (PLoaded item h) c m')
  | enqueue_full item h c m m' n t :
      atomic_load Prod Tail Acquire n m = Some (t, m') → next_index (cap - 1) h = t →
      weak_step cap (WRun (PLoaded item h) c m) (Some (EvFull item)) (WRun PIdle c m')
  | enqueue_room item h c m m' n t :
      atomic_load Prod Tail Acquire n m = Some (t, m') → next_index (cap - 1) h ≠ t →
      weak_step cap (WRun (PLoaded item h) c m) None (WRun (PChecked item h) c m')
  | enqueue_write item h c m m' :
      write_cell cap h item m = Ok m' →
      weak_step cap (WRun (PChecked item h) c m) None (WRun (PWritten item (next_index (cap - 1) h)) c m')
  | enqueue_fault item h c m :
      write_cell cap h item m = Undef → weak_step cap (WRun (PChecked item h) c m) None WFault
  | enqueue_publish item nextHead c m :
      weak_step cap (WRun (PWritten item nextHead) c m) (Some (EvEnq item))
        (WRun PIdle c (atomic_store Prod Head Release nextHead m))
  | dequeue_tail p m m' n t :
      atomic_load Cons Tail Relaxed n m = Some (t, m') →
      weak_step cap (WRun p CIdle m) None (WRun p (CLoaded t) m')
  | dequeue_empty p t m m' n h :
      atomic_load Cons Head Acquire n m = Some (h, m') → t = h →
      weak_step cap (WRun p (CLoaded t) m) (Some EvEmpty) (WRun p CIdle m')
  | dequeue_some p t m m' n h :
      atomic_load Cons Head Acquire n m = Some (h, m') → t ≠ h →
      weak_step cap (WRun p (CLoaded t) m) None (WRun p (CChecked t) m')
  | dequeue_read p t m m' item :
      read_cell cap t m = Ok (item, m') →
      weak_step cap (WRun p (CChecked t) m) None (WRun p (CRead t item) m')
  | dequeue_fault p t m :
      read_cell cap t m = Undef → weak_step cap (WRun p (CChecked t) m) None WFault
  | dequeue_take p t item m :
      weak_step cap (WRun p (CRead t item) m) (Some (EvDeq item))
        (WRun p CIdle (atomic_store Cons Tail Release (next_index (cap - 1) t) m)).

(** What the producer's constructor leaves: zeros and the two atomics. *)
Definition weak_init (cap : Z) : weak_state :=
  WRun PIdle CIdle (memory_init ([(Head, 0); (Tail, 0)] ++ ((λ i, (Cell i, 0)) <$> seqZ 0 cap))).

(** * The abstract queue

    A FIFO whose two ends learn of each other with delay: [taken_seen] is the
    number of items that the producer knows to be taken, [items_seen] the number
    that the consumer knows to be there.  Each side decides by what it knows. *)
Record delayed := mkDelayed {
  items : list Z;        (** all items so far *)
  taken : Z;
  taken_seen : Z;
  items_seen : Z
}.

Inductive delayed_step (n : Z) : delayed → option queue_event → delayed → Prop :=
  | learn_taken l d s s' c : s ≤ s' ≤ d → delayed_step n (mkDelayed l d s c) None (mkDelayed l d s' c)
  | learn_items l d s c c' : c ≤ c' ≤ zlen l → delayed_step n (mkDelayed l d s c) None (mkDelayed l d s c')
  | delayed_enq l d s c x : zlen l - s < n → delayed_step n (mkDelayed l d s c) (Some (EvEnq x)) (mkDelayed (l ++ [x]) d s c)
  | delayed_full l d s c x : zlen l - s = n → delayed_step n (mkDelayed l d s c) (Some (EvFull x)) (mkDelayed l d s c)
  | delayed_deq l d s c x :
      d < c → zget l d = Some x → delayed_step n (mkDelayed l d s c) (Some (EvDeq x)) (mkDelayed l (d + 1) s c)
  | delayed_empty l d s c : d = c → delayed_step n (mkDelayed l d s c) (Some EvEmpty) (mkDelayed l d s c).

Definition delayed_init : delayed := mkDelayed [] 0 0 0.

(** Items are delivered once and in order, and never more than [n] are held. *)
Definition delayed_ok (n : Z) (a : delayed) : Prop :=
  0 ≤ taken_seen a ≤ taken a ∧ taken a ≤ items_seen a ≤ zlen (items a) ∧ zlen (items a) - taken_seen a ≤ n.

Lemma delayed_ok_step n a e a' : delayed_ok n a → delayed_step n a e a' → delayed_ok n a'.
Proof.
  unfold delayed_ok. intros Hok Hs. destruct Hs; simpl in *; rewrite ?zlen_app; unfold zlen in *; simpl; lia.
Qed.

Lemma delayed_order n a tr a' :
  delayed_ok n a → exec (delayed_step n) a tr a' →
  delayed_ok n a' ∧ items a' = items a ++ enqueued tr ∧
  take (Z.to_nat (taken a')) (items a') = take (Z.to_nat (taken a)) (items a) ++ dequeued tr.
Proof.
  intros Hok He. revert Hok. induction He as [a|a a1 a2 tr Hs _ IH|a a1 a2 e tr Hs _ IH]; intros Hok.
  - unfold enqueued, dequeued. simpl. by rewrite !app_nil_r.
  - pose proof (delayed_ok_step _ _ _ _ Hok Hs) as Hok1. by inversion Hs; subst; apply IH.
  - pose proof (delayed_ok_step _ _ _ _ Hok Hs) as Hok1. destruct (IH Hok1) as (Hok2 & -> & ->).
    split; [done|]. clear IH Hok2 Hok1. unfold enqueued, dequeued. rewrite !bind_cons.
    unfold delayed_ok in Hok.
    inversion Hs as [| |l d s c x Hroom|l d s c x Hfull|l d s c x Hlt Hget|l d s c Heq]; subst; simpl in *;
      [|done| |done].
    + rewrite <-app_assoc. split; [done|]. f_equal. apply take_app_le. unfold zlen in *. lia.
    + split; [done|]. replace (Z.to_nat (d + 1)) with (S (Z.to_nat d)) by lia.
      rewrite zget_to_nat in Hget by lia. by rewrite (take_S_r _ _ _ Hget), <-app_assoc.
Qed.

(** * The invariant

    Every access so far has a label: what it is to the history of the queue.
    [LWrite i] writes the [i]-th item, [LPublish j] sets [head] when [j] items are
    there, [LRead i] reads the [i]-th item and [LTake j] sets [tail] when [j] items
    are taken.  The initial values of [head] and [tail] are [LPublish 0] and
    [LTake 0], those of the cells [LInit]. *)

Inductive label := LInit (i : Z) | LWrite (i : Z) | LPublish (j : Z) | LRead (i : Z) | LTake (j : Z).

(** Accesses that write to the same location have the same class, and happen in
    the order of their ranks. *)
Inductive label_class := WriteClass | HeadClass | ReadClass | TailClass.
Definition class_of (lb : label) : label_class :=
  match lb with
  | LInit _ | LWrite _ => WriteClass | LPublish _ => HeadClass | LRead _ => ReadClass | LTake _ => TailClass
  end.

(** The accesses that a release store hands over. *)
Definition covers (lb lb' : label) : Prop :=
  match lb, lb' with
  | LPublish j, LWrite i => i < j
  | LTake j, LRead i => i < j
  | _, _ => False
  end.

Section invariant.
Context (cap : Z).

Definition rank_of (lb : label) : Z :=
  match lb with LInit i => i - cap | LWrite i | LPublish i | LRead i | LTake i => i end.

(** What the access with label [lb] is, when the items so far are [l]. *)
Definition label_ev (l : list Z) (lb : label) (ev : event ring_loc) : Prop :=
  match lb with
  | LInit i => ev_loc ev = Cell i ∧ ev_write ev = true
  | LWrite i => ev_loc ev = Cell (i mod cap) ∧ ev_write ev = true ∧ zget l i = Some (ev_value ev)
  | LPublish j => ev_loc ev = Head ∧ ev_write ev = true ∧ ev_value ev = j mod cap
  | LRead i => ev_loc ev = Cell (i mod cap) ∧ ev_write ev = false
  | LTake j => ev_loc ev = Tail ∧ ev_write ev = true ∧ ev_value ev = j mod cap
  end.

Definition log_ok (ls : list label) (m : ring_memory) (l : list Z) : Prop :=
  length ls = length (log m) ∧
  (∀ n lb ev, ls !! n = Some lb → log m !! n = Some ev → label_ev l lb ev ∧ sees ls (ev_view ev) (covers lb)) ∧
  (∀ n n' lb lb', (n < n')%nat → ls !! n = Some lb → ls !! n' = Some lb' → class_of lb = class_of lb' →
     rank_of lb < rank_of lb').

Definition in_range (nw ne nr nd : Z) (lb : label) : Prop :=
  match lb with
  | LInit i => 0 ≤ i < cap
  | LWrite i => 0 ≤ i < nw
  | LPublish j => 0 ≤ j ≤ ne
  | LRead i => 0 ≤ i < nr
  | LTake j => 0 ≤ j ≤ nd
  end.

(** What each side knows at least, when the producer knows of [s] taken items and
    the consumer of [c] published ones. *)
Definition known (t : side) (s c : Z) (lb : label) : Prop :=
  match t, lb with
  | _, LInit _ | Prod, (LWrite _ | LPublish _) | Cons, (LRead _ | LTake _) => True
  | Prod, LRead i => i < s
  | Prod, LTake j => j = s
  | Cons, LWrite i => i < c
  | Cons, LPublish j => j = c
  end.

(** [l] are the items written, [ne] of them are published, [nr] read and [nd]
    taken. *)
Definition mem_rel (m : ring_memory) (l : list Z) (ne nr nd s c : Z) : Prop :=
  (0 ≤ s ≤ nd ∧ nd ≤ nr ≤ c ∧ c ≤ ne ≤ zlen l ∧ zlen l - s ≤ cap - 1) ∧
  ∃ ls, log_ok ls m l ∧ (∀ lb, lb ∈ ls ↔ in_range (zlen l) ne nr nd lb) ∧
    ∀ t, sees ls (knows m t) (known t s c).

(** Two items in the same cell are at least a round apart. *)
Lemma same_cell i j : 0 < cap → i < j → i mod cap = j mod cap → i + cap ≤ j.
Proof.
  intros Hcap Hlt Heq. pose proof (Z.div_mod i cap). pose proof (Z.div_mod j cap).
  assert (i / cap < j / cap) by nia. nia.
Qed.

Lemma log_ok_perform ls m l lb t ev l' :
  log_ok ls m l → (∀ i x, zget l i = Some x → zget l' i = Some x) →
  label_ev l' lb ev → sees ls (ev_view ev) (covers lb) →
  (∀ lb', lb' ∈ ls → class_of lb' = class_of lb → rank_of lb' < rank_of lb) →
  (∀ lb', lb' ∈ ls → ¬ covers lb' lb) →
  log_ok (ls ++ [lb]) (perform t ev m) l'.
Proof.
  intros (Hlen & Hev & Hord) Hl Hnew Hview Hrank Hcov. split_and!.
  - simpl. rewrite !length_app. simpl. lia.
  - intros n lb1 ev1 Hn Hn'. simpl in Hn'. apply lookup_app_Some in Hn as [Hn|[Hge Hn]].
    + rewrite lookup_app_l in Hn' by (rewrite <-Hlen; by eapply lookup_lt_Some).
      destruct (Hev _ _ _ Hn Hn') as [Hlab Hsees]. split.
      * destruct lb1; simpl in *; intuition eauto.
      * apply sees_snoc; [done|]. intros []%Hcov. by eapply list_elem_of_lookup_2.
    + apply list_lookup_singleton_Some in Hn as [Heq <-].
      rewrite lookup_app_r in Hn' by lia.
      replace (n - length (log m))%nat with 0%nat in Hn' by lia. injection Hn' as <-.
      split; [done|]. apply sees_snoc; [done|]. by destruct lb.
  - intros n n' lb1 lb2 Hlt Hn Hn' Hc. apply lookup_app_Some in Hn' as [Hn'|[Hge Hn']].
    + rewrite lookup_app_l in Hn by (apply lookup_lt_Some in Hn'; lia). by eapply Hord.
    + apply list_lookup_singleton_Some in Hn' as [Heq <-]. rewrite lookup_app_l in Hn by lia.
      apply Hrank; [by eapply list_elem_of_lookup_2|done].
Qed.

(** A new access of [t] with label [lb]. *)
Lemma mem_rel_perform m l ne nr nd s c l' ne' nr' nd' t ev lb :
  mem_rel m l ne nr nd s c →
  (0 ≤ s ≤ nd' ∧ nd' ≤ nr' ≤ c ∧ c ≤ ne' ≤ zlen l' ∧ zlen l' - s ≤ cap - 1) →
  (∀ i x, zget l i = Some x → zget l' i = Some x) →
  (∀ lb', in_range (zlen l') ne' nr' nd' lb' ↔ in_range (zlen l) ne nr nd lb' ∨ lb' = lb) →
  label_ev l' lb ev →
  (∀ lb', covers lb lb' → known t s c lb') → (ev_view ev = ∅ ∧ (∀ lb', ¬ covers lb lb') ∨ knows m t ⊆ ev_view ev) →
  (∀ lb', in_range (zlen l) ne nr nd lb' → class_of lb' = class_of lb → rank_of lb' < rank_of lb) →
  (∀ lb', in_range (zlen l) ne nr nd lb' → ¬ covers lb' lb) →
  (∀ t', t' ≠ t → ¬ known t' s c lb) →
  mem_rel (perform t ev m) l' ne' nr' nd' s c.
Proof.
  intros (Hb & ls & Hlog & Hrange & Hknown) Hb' Hl Hrange' Hnew Hcov Hview Hrank Hfresh Hother.
  split; [done|]. exists (ls ++ [lb]). pose proof Hlog as (Hlen & _). split_and!.
  - eapply log_ok_perform; [done..| | |].
    + destruct Hview as [[-> Hno]|Hsub]; [by intros n lb' _ ?%Hno|].
      by eapply sees_mono.
    + intros lb' Hin. apply Hrank. by apply Hrange.
    + intros lb' Hin. apply Hfresh. by apply Hrange.
  - intros lb'. rewrite elem_of_app, list_elem_of_singleton, Hrange. by rewrite Hrange'.
  - intros t'. simpl. apply sees_snoc; rewrite ?Hlen.
    + destruct (decide (t = t')) as [->|Hne].
      * eapply sees_mono; [apply Hknown|done|]. rewrite fn_lookup_insert. set_solver.
      * rewrite fn_lookup_insert_ne by done. apply Hknown.
    + destruct (decide (t = t')) as [->|Hne].
      * rewrite fn_lookup_insert. set_solver.
      * by intros ?%Hother.
Qed.

(** ** Loads *)

Lemma observe_knows t o n ev (m : ring_memory) t' : knows m t' ⊆ knows (observe t o n ev m) t'.
Proof.
  simpl. destruct (decide (t = t')) as [->|]; [rewrite fn_lookup_insert; set_solver|].
  by rewrite fn_lookup_insert_ne.
Qed.

(** A load of [head] or [tail] yields a store at least as new as all that the
    thread knows. *)
Lemma load_store ls m l s c t loc o n v m' :
  log_ok ls m l → sees ls (knows m t) (known t s c) → loc = Head ∨ loc = Tail →
  atomic_load t loc o n m = Some (v, m') →
  ∃ lb ev, ls !! n = Some lb ∧ m' = observe t o n ev m ∧ v = ev_value ev ∧ ev_loc ev = loc ∧
    label_ev l lb ev ∧ sees ls (ev_view ev) (covers lb) ∧
    ∀ lb', lb' ∈ ls → class_of lb' = class_of lb → known t s c lb' → rank_of lb' ≤ rank_of lb.
Proof.
  intros (Hlen & Hev & Hord) Hknown Hloc Hload. unfold atomic_load in Hload.
  destruct (readable t loc n m) as [ev|] eqn:Hr; simpl in Hload; [|done]. injection Hload as <- <-.
  apply readable_Some in Hr as (Hn & [_ Hl]%writes_spec & Hnew).
  destruct (lookup_lt_is_Some_2 ls n) as [lb Hlb]; [rewrite Hlen; by eapply lookup_lt_Some|].
  destruct (Hev _ _ _ Hlb Hn) as [Hlab Hsees]. exists lb, ev. split_and!; [done..|].
  intros lb' [n' Hn']%list_elem_of_lookup Hc Hk.
  destruct (decide (n < n')%nat) as [Hlt|Hge].
  - destruct (lookup_lt_is_Some_2 (log m) n') as [ev' Hev']; [rewrite <-Hlen; by eapply lookup_lt_Some|].
    destruct (Hev _ _ _ Hn' Hev') as [Hlab' _].
    destruct (Hnew n' ev' Hlt Hev'); [|by eapply Hknown].
    apply writes_spec. destruct lb, lb'; simpl in *; intuition congruence.
  - destruct (decide (n = n')) as [<-|]; [by simplify_eq|].
    apply Z.lt_le_incl, (Hord n' n); [lia|done..].
Qed.

(** A store that a thread has read is the only one with its label. *)
Lemma label_unique ls m l n n' lb : log_ok ls m l → ls !! n = Some lb → ls !! n' = Some lb → n = n'.
Proof.
  intros (_ & _ & Hord) Hn Hn'. destruct (decide (n < n')%nat) as [H|]; [specialize (Hord _ _ _ _ H Hn Hn' eq_refl); lia|].
  destruct (decide (n' < n)%nat) as [H|]; [specialize (Hord _ _ _ _ H Hn' Hn eq_refl); lia|]. lia.
Qed.

Lemma load_own_head m l ne nr nd s c o n v m' :
  mem_rel m l ne nr nd s c → atomic_load Prod Head o n m = Some (v, m') →
  v = ne mod cap ∧ mem_rel m' l ne nr nd s c.
Proof.
  intros (Hb & ls & Hlog & Hrange & Hknown) Hload.
  destruct (load_store ls m l s c Prod Head o n v m') as (lb & ev & Hlb & -> & -> & Hl & Hlab & _ & Hnew); auto.
  assert (lb ∈ ls) as Hin by (by eapply list_elem_of_lookup_2). apply Hrange in Hin.
  destruct lb as [| |j| |]; simpl in Hlab, Hin; try (intuition congruence).
  assert (ne ≤ j) by (apply (Hnew (LPublish ne)); [apply Hrange; simpl; lia|done..]).
  replace ne with j at 1 by lia. split; [by intuition|]. split; [done|]. exists ls. split_and!; [done..|].
  intros t. eapply sees_mono; [apply Hknown|done|apply observe_knows].
Qed.

Lemma load_own_tail m l ne nr nd s c o n v m' :
  mem_rel m l ne nr nd s c → atomic_load Cons Tail o n m = Some (v, m') →
  v = nd mod cap ∧ mem_rel m' l ne nr nd s c.
Proof.
  intros (Hb & ls & Hlog & Hrange & Hknown) Hload.
  destruct (load_store ls m l s c Cons Tail o n v m') as (lb & ev & Hlb & -> & -> & Hl & Hlab & _ & Hnew); auto.
  assert (lb ∈ ls) as Hin by (by eapply list_elem_of_lookup_2). apply Hrange in Hin.
  destruct lb as [| | | |j]; simpl in Hlab, Hin; try (intuition congruence).
  assert (nd ≤ j) by (apply (Hnew (LTake nd)); [apply Hrange; simpl; lia|done..]).
  replace nd with j at 1 by lia. split; [by intuition|]. split; [done|]. exists ls. split_and!; [done..|].
  intros t. eapply sees_mono; [apply Hknown|done|apply observe_knows].
Qed.

(** The producer may see an old [tail], but acquires all reads before it. *)
Lemma load_tail m l ne nr nd s c n v m' :
  mem_rel m l ne nr nd s c → atomic_load Prod Tail Acquire n m = Some (v, m') →
  ∃ s', s ≤ s' ≤ nd ∧ v = s' mod cap ∧ mem_rel m' l ne nr nd s' c.
Proof.
  intros (Hb & ls & Hlog & Hrange & Hknown) Hload.
  destruct (load_store ls m l s c Prod Tail Acquire n v m') as (lb & ev & Hlb & -> & -> & Hl & Hlab & Hsees & Hnew); auto.
  assert (lb ∈ ls) as Hin by (by eapply list_elem_of_lookup_2). apply Hrange in Hin.
  destruct lb as [| | | |j]; simpl in Hlab, Hin; try (intuition congruence).
  assert (s ≤ j) by (apply (Hnew (LTake s)); [apply Hrange; simpl; lia|done..]).
  exists j. split; [lia|]. split; [by intuition|]. split; [lia|]. exists ls. split_and!; [done..|].
  intros [].
  - intros n' lb' Hn' Hk. simpl. rewrite fn_lookup_insert.
    destruct lb' as [|i|j'|i|j']; simpl in Hk.
    1-3: apply elem_of_union_l, elem_of_union_r; by eapply Hknown.
    + apply elem_of_union_r. by eapply Hsees.
    + subst j'. rewrite (label_unique _ _ _ _ _ _ Hlog Hn' Hlb). set_solver.
  - eapply sees_mono; [apply (Hknown Cons)|by intros []|apply observe_knows].
Qed.

(** The consumer may see an old [head], but acquires all writes before it. *)
Lemma load_head m l ne nr nd s c n v m' :
  mem_rel m l ne nr nd s c → atomic_load Cons Head Acquire n m = Some (v, m') →
  ∃ c', c ≤ c' ≤ ne ∧ v = c' mod cap ∧ mem_rel m' l ne nr nd s c'.
Proof.
  intros (Hb & ls & Hlog & Hrange & Hknown) Hload.
  destruct (load_store ls m l s c Cons Head Acquire n v m') as (lb & ev & Hlb & -> & -> & Hl & Hlab & Hsees & Hnew); auto.
  assert (lb ∈ ls) as Hin by (by eapply list_elem_of_lookup_2). apply Hrange in Hin.
  destruct lb as [| |j| |]; simpl in Hlab, Hin; try (intuition congruence).
  assert (c ≤ j) by (apply (Hnew (LPublish c)); [apply Hrange; simpl; lia|done..]).
  exists j. split; [lia|]. split; [by intuition|]. split; [lia|]. exists ls. split_and!; [done..|].
  intros [].
  - eapply sees_mono; [apply (Hknown Prod)|by intros []|apply observe_knows].
  - intros n' lb' Hn' Hk. simpl. rewrite fn_lookup_insert.
    destruct lb' as [|i|j'|i|j']; simpl in Hk.
    1,4,5: apply elem_of_union_l, elem_of_union_r; by eapply Hknown.
    + apply elem_of_union_r. by eapply Hsees.
    + subst j'. rewrite (label_unique _ _ _ _ _ _ Hlog Hn' Hlb). set_solver.
Qed.

(** ** Stores and accesses to the cells *)

(** The new access extends one of the ranges by one. *)
Ltac in_range_new :=
  intros []; simpl;
  first
    [ split; [tauto|intros [?|?]; [done|discriminate]]
    | match goal with |- _ ↔ _ ∨ ?f ?i = ?f ?j =>
        destruct (decide (i = j)) as [->|];
        [split; [by right|intros; lia]|split; [intros; left; lia|intros [?|[= ?]]; lia]]
      end ].

Lemma label_of ls m l n ev :
  log_ok ls m l → log m !! n = Some ev → ∃ lb, ls !! n = Some lb ∧ lb ∈ ls ∧ label_ev l lb ev.
Proof.
  intros (Hlen & Hev & _) Hn. destruct (lookup_lt_is_Some_2 ls n) as [lb Hlb].
  - rewrite Hlen. by eapply lookup_lt_Some.
  - exists lb. split_and!; [done|by eapply list_elem_of_lookup_2|]. by apply (Hev _ _ _ Hlb Hn).
Qed.

Lemma write_next m l ne nr nd s c x :
  mem_rel m l ne nr nd s c → zlen l = ne → ne - s < cap - 1 →
  ∃ m', write_cell cap (ne mod cap) x m = Ok m' ∧ mem_rel m' (l ++ [x]) ne nr nd s c.
Proof.
  intros Hrel <- Hroom. pose proof Hrel as (Hb & ls & Hlog & Hrange & Hknown).
  assert (0 < cap) as Hcap by lia. pose proof (Z.mod_pos_bound (zlen l) cap Hcap).
  unfold write_cell. rewrite decide_True by done. unfold plain_write.
  rewrite (proj2 (races_false _ _ _ _)).
  2: { intros n ev Hn Hl _. destruct (label_of _ _ _ _ _ Hlog Hn) as (lb & Hlb & Hin & Hlab).
    eapply Hknown; [done|]. apply Hrange in Hin. destruct lb as [|i|j|i|j]; simpl in *; try (intuition congruence).
    destruct (decide (i < s)) as [|Hge]; [done|].
    assert (i + cap ≤ zlen l); [|lia]. apply same_cell; [done|lia|]. destruct Hlab. congruence. }
  eexists. split; [done|]. eapply (mem_rel_perform _ _ _ _ _ _ _ _ _ _ _ _ _ (LWrite (zlen l)) Hrel);
    rewrite ?zlen_app; change (zlen [x]) with 1.
  - lia.
  - intros i y Hy. apply zget_Some_range in Hy as ?. rewrite zget_app_l; [done|lia].
  - in_range_new.
  - simpl. split_and!; [done..|]. rewrite zget_app_r by lia. by rewrite Z.sub_diag.
  - by intros [].
  - left. split; [done|]. intros []; simpl; tauto.
  - intros [] Hin Hc; simpl in *; try done; lia.
  - intros [] Hin Hc; simpl in *; try done; lia.
  - intros [] Hne; simpl; [done|lia].
Qed.

Lemma publish_next m l ne nr nd s c :
  mem_rel m l ne nr nd s c → zlen l = ne + 1 →
  mem_rel (atomic_store Prod Head Release ((ne + 1) mod cap) m) l (ne + 1) nr nd s c.
Proof.
  intros Hrel Hlen. pose proof Hrel as (Hb & _).
  eapply (mem_rel_perform _ _ _ _ _ _ _ _ _ _ _ _ _ (LPublish (ne + 1)) Hrel).
  - lia.
  - done.
  - in_range_new.
  - done.
  - by intros [].
  - right. simpl. set_solver.
  - intros [] Hin Hc; simpl in *; try done; lia.
  - intros [] Hin Hc; simpl in *; done.
  - intros [] Hne; simpl; [done|lia].
Qed.

Lemma read_next m l ne nr nd s c :
  mem_rel m l ne nr nd s c → nr = nd → nd < c →
  ∃ x m', zget l nd = Some x ∧ read_cell cap (nd mod cap) m = Ok (x, m') ∧ mem_rel m' l ne (nd + 1) nd s c.
Proof.
  intros Hrel -> Hlt. pose proof Hrel as (Hb & ls & Hlog & Hrange & Hknown).
  assert (0 < cap) as Hcap by lia. pose proof (Z.mod_pos_bound nd cap Hcap).
  unfold read_cell. rewrite decide_True by done. unfold plain_read.
  rewrite (proj2 (races_false _ _ _ _)).
  2: { intros n ev Hn Hl Hw. destruct (label_of _ _ _ _ _ Hlog Hn) as (lb & Hlb & Hin & Hlab).
    eapply Hknown; [done|]. apply Hrange in Hin. destruct lb as [|i|j|i|j]; simpl in *; try (intuition congruence).
    destruct (decide (i < c)) as [|Hge]; [done|].
    assert (nd + cap ≤ i); [|lia]. apply same_cell; [done|lia|]. destruct Hlab. congruence. }
  assert (LWrite nd ∈ ls) as [n Hlb]%list_elem_of_lookup by (apply Hrange; simpl; lia).
  pose proof Hlog as (Hlen & Hev & Hord).
  destruct (lookup_lt_is_Some_2 (log m) n) as [ev Hn]; [rewrite <-Hlen; by eapply lookup_lt_Some|].
  destruct (Hev _ _ _ Hlb Hn) as [(Hl & Hw & Hval) _].
  rewrite (last_write_Some (Cell (nd mod cap)) m n ev Hn); [|by apply writes_spec|].
  - eexists _, _. split_and!; [done..|].
    eapply (mem_rel_perform _ _ _ _ _ _ _ _ _ _ _ _ _ (LRead nd) Hrel).
    + lia.
    + done.
    + in_range_new.
    + done.
    + by intros [].
    + left. split; [done|]. intros []; simpl; tauto.
    + intros [] Hin Hc; simpl in *; try done; lia.
    + intros [] Hin Hc; simpl in *; try done; lia.
    + intros [] Hne; simpl; [lia|done].
  - intros n' ev' Hlt' Hn'. apply not_true_iff_false. intros [Hw' Hl']%writes_spec.
    destruct (label_of _ _ _ _ _ Hlog Hn') as (lb' & Hlb' & Hin' & Hlab'). apply Hrange in Hin'.
    destruct lb' as [i|i|j|i|j]; simpl in Hlab', Hin'; try (intuition congruence).
    + specialize (Hord _ _ _ _ Hlt' Hlb Hlb' eq_refl). simpl in Hord. lia.
    + specialize (Hord _ _ _ _ Hlt' Hlb Hlb' eq_refl). simpl in Hord.
      assert (nd + cap ≤ i); [|lia]. apply same_cell; [done|lia|]. destruct Hlab'. congruence.
Qed.

Lemma take_next m l ne nr nd s c :
  mem_rel m l ne nr nd s c → nr = nd + 1 →
  mem_rel (atomic_store Cons Tail Release ((nd + 1) mod cap) m) l ne nr (nd + 1) s c.
Proof.
  intros Hrel Hlen. pose proof Hrel as (Hb & _).
  eapply (mem_rel_perform _ _ _ _ _ _ _ _ _ _ _ _ _ (LTake (nd + 1)) Hrel).
  - lia.
  - done.
  - in_range_new.
  - done.
  - by intros [].
  - right. simpl. set_solver.
  - intros [] Hin Hc; simpl in *; try done; lia.
  - intros [] Hin Hc; simpl in *; done.
  - intros [] Hne; simpl; [lia|done].
Qed.
End invariant.

(** * The ring buffer implements the queue with delay *)

Section refinement.
Context (cap : Z).
Hypothesis Hcap : valid_capacity cap.

(** An item that is written but not published, and a cell that is read but not
    given back. *)
Definition pending (p : producer) : list Z := match p with PWritten item _ => [item] | _ => [] end.
Definition reading (c : consumer) : Z := match c with CRead _ _ => 1 | _ => 0 end.

Definition producer_knows (p : producer) (a : delayed) : Prop :=
  match p with
  | PIdle => True
  | PLoaded _ h => h = zlen (items a) mod cap
  | PChecked _ h => h = zlen (items a) mod cap ∧ zlen (items a) - taken_seen a < cap - 1
  | PWritten _ n => n = (zlen (items a) + 1) mod cap ∧ zlen (items a) - taken_seen a < cap - 1
  end.

Definition consumer_knows (c : consumer) (a : delayed) : Prop :=
  match c with
  | CIdle => True
  | CLoaded t => t = taken a mod cap
  | CChecked t => t = taken a mod cap ∧ taken a < items_seen a
  | CRead t item => t = taken a mod cap ∧ taken a < items_seen a ∧ zget (items a) (taken a) = Some item
  end.

Definition weak_rel (s : weak_state) (a : delayed) : Prop :=
  match s with
  | WRun p c m =>
      mem_rel cap m (items a ++ pending p) (zlen (items a)) (taken a + reading c) (taken a) (taken_seen a)
        (items_seen a) ∧ producer_knows p a ∧ consumer_knows c a
  | WFault => False
  end.

(** Indices that the code compares are equal just if the counts are. *)
Lemma same_index i j : i ≤ j < i + cap → (i mod cap = j mod cap ↔ i = j).
Proof.
  intros H. split; [|by intros ->]. intros Heq. destruct (decide (i = j)) as [|]; [done|].
  pose proof (same_cell cap i j). lia.
Qed.

Lemma next_of_index i : 0 ≤ i → next_index (cap - 1) (i mod cap) = (i + 1) mod cap.
Proof.
  intros Hi. pose proof (valid_capacity_bounds _ Hcap). rewrite next_index_mod; [|done|].
  - by rewrite Z.add_mod_idemp_l by lia.
  - apply Z.mod_pos_bound. lia.
Qed.

Lemma full_iff i s : 0 ≤ s ≤ i → i - s ≤ cap - 1 → next_index (cap - 1) (i mod cap) = s mod cap ↔ i - s = cap - 1.
Proof.
  intros Hs Hi. pose proof (valid_capacity_bounds _ Hcap). rewrite next_of_index by lia.
  destruct (decide (i - s = cap - 1)) as [He|Hne].
  - split; [done|]. intros _. replace (i + 1) with (s + 1 * cap) by lia. apply Z_mod_plus_full.
  - split; [|done]. intros Heq. pose proof (proj1 (same_index s (i + 1) ltac:(lia)) (eq_sym Heq)). lia.
Qed.

Abbreviation delayed_run := (exec (delayed_step (cap - 1))).

Lemma tail_sim c m item h n v m' l d s k :
  weak_rel (WRun (PLoaded item h) c m) (mkDelayed l d s k) → atomic_load Prod Tail Acquire n m = Some (v, m') →
  ∃ s', s ≤ s' ≤ d ∧ h = zlen l mod cap ∧
    (next_index (cap - 1) h = v ↔ zlen l - s' = cap - 1) ∧ zlen l - s' ≤ cap - 1 ∧
    weak_rel (WRun PIdle c m') (mkDelayed l d s' k).
Proof.
  intros (Hm & Hp & Hc) Hload. simpl in *. destruct (load_tail _ _ _ _ _ _ _ _ _ _ _ Hm Hload) as (s' & Hs & -> & Hm').
  pose proof Hm' as (Hb & _). rewrite app_nil_r in Hb. exists s'. subst h. split_and!; [lia..| |lia|done|done|by destruct c].
  apply full_iff; lia.
Qed.

Lemma head_sim p m t n v m' l d s k :
  weak_rel (WRun p (CLoaded t) m) (mkDelayed l d s k) → atomic_load Cons Head Acquire n m = Some (v, m') →
  ∃ k', k ≤ k' ≤ zlen l ∧ t = d mod cap ∧ (t = v ↔ d = k') ∧ d ≤ k' ∧
    weak_rel (WRun p CIdle m') (mkDelayed l d s k').
Proof.
  intros (Hm & Hp & Hc) Hload. simpl in *. destruct (load_head _ _ _ _ _ _ _ _ _ _ _ Hm Hload) as (k' & Hk & -> & Hm').
  pose proof Hm' as (Hb & _). exists k'. subst t. split_and!; [lia..| |lia|done|by destruct p|done].
  apply same_index. rewrite zlen_app in Hb. pose proof (zlen_nonneg (pending p)). lia.
Qed.

Lemma producer_knows_take p l d d' s k k' : producer_knows p (mkDelayed l d s k) → producer_knows p (mkDelayed l d' s k').
Proof. by destruct p. Qed.

Lemma consumer_knows_app c l x d s k :
  consumer_knows c (mkDelayed l d s k) → consumer_knows c (mkDelayed (l ++ [x]) d s k).
Proof.
  destruct c; simpl; [done..|]. intros (-> & ? & Hget). split_and!; [done..|].
  rewrite zget_app_l; [done|]. apply zget_Some_range in Hget. lia.
Qed.

Lemma weak_simulation x e x' a :
  weak_rel x a → weak_step cap x e x' → ∃ a', delayed_run a (option_list e) a' ∧ weak_rel x' a'.
Proof.
  intros Hrel Hstep. destruct a as [l d s k].
  destruct Hstep as [item c m m' n h Hl|item h c m m' n t Hl Heq|item h c m m' n t Hl Hne|item h c m m' Hw
    |item h c m Hw|item nh c m|p m m' n t Hl|p t m m' n h Hl Heq|p t m m' n h Hl Hne|p t m m' item Hr|p t m Hr|p t item m].
  - destruct Hrel as (Hm & Hp & Hc). simpl in Hm, Hp, Hc. rewrite app_nil_r in Hm.
    destruct (load_own_head _ _ _ _ _ _ _ _ _ _ _ _ Hm Hl) as [-> Hm'].
    eexists. split; [constructor|]. simpl. by rewrite app_nil_r.
  - destruct (tail_sim _ _ _ _ _ _ _ _ _ _ _ Hrel Hl) as (s' & Hs & -> & Hiff & _ & Hrel').
    eexists. split; [|exact Hrel']. eapply exec_tau; [by apply learn_taken|]. apply exec_single, delayed_full. tauto.
  - destruct (tail_sim _ _ _ _ _ _ _ _ _ _ _ Hrel Hl) as (s' & Hs & -> & Hiff & Hle & (Hm & _ & Hc)).
    eexists. split; [eapply exec_tau; [by apply (learn_taken _ _ _ _ s')|constructor]|].
    split_and!; [done| |done]. simpl. split; [done|]. assert (zlen l - s' ≠ cap - 1) by tauto. lia.
  - destruct Hrel as (Hm & [-> Hroom] & Hc). simpl in Hm, Hroom. simpl items in Hw. rewrite app_nil_r in Hm.
    destruct (write_next _ _ _ _ _ _ _ _ item Hm eq_refl Hroom) as (m1 & Hm1 & Hrel').
    rewrite Hm1 in Hw. injection Hw as <-. eexists. split; [constructor|]. split_and!; [done| |done].
    simpl. split; [|done]. apply next_of_index, zlen_nonneg.
  - destruct Hrel as (Hm & [-> Hroom] & Hc). simpl in Hm, Hroom. simpl items in Hw. rewrite app_nil_r in Hm.
    destruct (write_next _ _ _ _ _ _ _ _ item Hm eq_refl Hroom) as (m1 & Hm1 & _). congruence.
  - destruct Hrel as (Hm & [-> Hroom] & Hc). simpl in Hm, Hroom.
    eexists. split; [apply exec_single; constructor; lia|]. split_and!; [|done|by apply consumer_knows_app].
    simpl. rewrite app_nil_r. apply publish_next in Hm; [|by rewrite zlen_app]. by rewrite zlen_app.
  - destruct Hrel as (Hm & Hp & Hc). simpl in Hm, Hp, Hc.
    destruct (load_own_tail _ _ _ _ _ _ _ _ _ _ _ _ Hm Hl) as [-> Hm'].
    eexists. split; [constructor|]. by split_and!.
  - destruct (head_sim _ _ _ _ _ _ _ _ _ _ Hrel Hl) as (k' & Hk & -> & Hiff & _ & Hrel').
    eexists. split; [|exact Hrel']. eapply exec_tau; [by apply learn_items|]. apply exec_single, delayed_empty. tauto.
  - destruct (head_sim _ _ _ _ _ _ _ _ _ _ Hrel Hl) as (k' & Hk & -> & Hiff & Hle & (Hm & Hp & _)).
    eexists. split; [eapply exec_tau; [by apply (learn_items _ _ _ _ _ k')|constructor]|].
    split_and!; [done|done|]. simpl. split; [done|]. assert (d ≠ k') by tauto. lia.
  - destruct Hrel as (Hm & Hp & [-> Hlt]). simpl in Hm, Hlt. simpl taken in Hr. rewrite Z.add_0_r in Hm.
    destruct (read_next _ _ _ _ _ _ _ _ Hm eq_refl Hlt) as (y & m1 & Hget & Hm1 & Hrel').
    rewrite Hm1 in Hr. injection Hr as <- <-. eexists. split; [constructor|]. split_and!; [done|done|]. simpl.
    split_and!; [done..|]. rewrite zget_app_l in Hget; [done|]. destruct Hm as (? & _). lia.
  - destruct Hrel as (Hm & Hp & [-> Hlt]). simpl in Hm, Hlt. simpl taken in Hr. rewrite Z.add_0_r in Hm.
    destruct (read_next _ _ _ _ _ _ _ _ Hm eq_refl Hlt) as (y & m1 & _ & Hm1 & _). congruence.
  - destruct Hrel as (Hm & Hp & (-> & Hlt & Hget)). simpl in Hm, Hlt, Hget. pose proof Hm as (Hb & _).
    eexists. split; [apply exec_single; by constructor|]. split_and!; [|by eapply producer_knows_take|done]. simpl.
    rewrite next_of_index by lia. rewrite Z.add_0_r. by apply take_next.
Qed.

Definition init_labels : list label := [LPublish 0; LTake 0] ++ (LInit <$> seqZ 0 cap).

Lemma init_labels_lookup n lb :
  init_labels !! n = Some lb →
  n = 0%nat ∧ lb = LPublish 0 ∨ n = 1%nat ∧ lb = LTake 0 ∨
  (2 ≤ n)%nat ∧ Z.of_nat n - 2 < cap ∧ lb = LInit (Z.of_nat n - 2).
Proof.
  destruct n as [|[|n]]; simpl; [intros [= <-]; auto..|].
  rewrite list_lookup_fmap, fmap_Some. intros (i & [-> Hi]%lookup_seqZ & ->). right. right.
  split_and!; [lia..|f_equal; lia].
Qed.

Lemma init_log_lookup n lb ev :
  init_labels !! n = Some lb →
  log (memory_init (T := side) ([(Head, 0); (Tail, 0)] ++ ((λ i, (Cell i, 0)) <$> seqZ 0 cap))) !! n = Some ev →
  label_ev cap [] lb ev ∧ ev_view ev = ∅.
Proof.
  intros Hlb Hev. apply init_labels_lookup in Hlb as [[-> ->]|[[-> ->]|(Hn & Hlt & ->)]]; simpl in Hev.
  - by injection Hev as <-.
  - by injection Hev as <-.
  - destruct n as [|[|n]]; [lia..|]. simpl in Hev. rewrite !list_lookup_fmap, !fmap_Some in Hev.
    destruct Hev as ([l v] & (j & [Hj Hlt']%lookup_seqZ & [= -> ->])%fmap_Some & ->). simpl.
    split; [|done]. split; [|done]. f_equal. lia.
Qed.

Lemma weak_rel_init : weak_rel (weak_init cap) delayed_init.
Proof.
  pose proof (valid_capacity_bounds _ Hcap) as Hb. unfold weak_rel, weak_init, delayed_init. simpl items. simpl taken.
  simpl taken_seen. simpl items_seen. split; [|done]. split; [unfold zlen; simpl; lia|].
  exists init_labels. split_and!; [split_and!| |].
  - unfold init_labels, memory_init. simpl. by rewrite !length_fmap.
  - intros n lb ev Hlb Hev. destruct (init_log_lookup _ _ _ Hlb Hev) as [Hlab ->]. split; [done|].
    intros n' lb' Hn' Hc. exfalso.
    apply init_labels_lookup in Hlb as [[_ ->]|[[_ ->]|(_ & _ & ->)]];
      apply init_labels_lookup in Hn' as [[_ ->]|[[_ ->]|(_ & _ & ->)]]; done.
  - intros n n' lb lb' Hlt [[-> ->]|[[-> ->]|(? & ? & ->)]]%init_labels_lookup
      [[-> ->]|[[-> ->]|(? & ? & ->)]]%init_labels_lookup Hc; simpl in *; first [done|lia].
  - intros lb. unfold init_labels. rewrite elem_of_app, list_elem_of_fmap. simpl.
    rewrite !elem_of_cons, elem_of_nil. setoid_rewrite elem_of_seqZ. split.
    + intros [[->|[->|[]]]|(i & -> & Hi)]; simpl; unfold zlen; simpl; lia.
    + destruct lb as [i|i|j|i|j]; simpl; unfold zlen; simpl; intros Hin; [right; exists i; split; [done|lia]|lia| |lia|];
        left; [left|right; left]; f_equal; lia.
  - intros t n lb Hn _. unfold memory_init. cbn [knows]. rewrite elem_of_set_seq. apply lookup_lt_Some in Hn.
    unfold init_labels in Hn. rewrite !length_app, !length_fmap in *. simpl in *. lia.
Qed.
End refinement.

(** * Properties *)

(** C21: The ring buffer's orderings are strong enough.  Under the C++ memory
    model, where an acquire load of [head] or [tail] may return any old value that
    the side does not know to be overwritten, no execution of a producer and a
    consumer has a data race on a cell or leaves the buffer.  The outcomes are those
    of a FIFO whose ends learn of each other with delay: every item is delivered
    once and in order, at most [capacity - 1] items are held, [Enqueue] fails only
    when the producer knows of no free cell, and [Dequeue] only when the consumer
    knows of no item. *)
Theorem ring_buffer_weak_memory cap tr x :
  valid_capacity cap → exec (weak_step cap) (weak_init cap) tr x →
  x ≠ WFault ∧ ∃ a, exec (delayed_step (cap - 1)) delayed_init tr a ∧
    enqueued tr = dequeued tr ++ drop (Z.to_nat (taken a)) (items a) ∧
    0 ≤ zlen (items a) - taken a ≤ cap - 1.
Proof.
  intros Hcap Hexec. pose proof (valid_capacity_bounds _ Hcap).
  destruct (simulation_exec _ _ (weak_rel cap) (λ c e c' a, weak_simulation cap Hcap c e c' a)
    _ _ _ _ (weak_rel_init cap Hcap) Hexec) as (a & Hrun & Hrel).
  split; [by destruct x|]. exists a. split; [done|].
  destruct (delayed_order (cap - 1) delayed_init tr a) as (Hok & Hitems & Htake); [|done|].
  { unfold delayed_ok, delayed_init, zlen. simpl. lia. }
  simpl in Hitems, Htake. rewrite <-Htake, <-Hitems, take_drop.
  split; [done|]. unfold delayed_ok in Hok. lia.
Qed.

(** With four cells, a [Dequeue] after an [Enqueue] reads the old [head], which
    is store number 0, and finds nothing; the next one reads store number 7. *)
Lemma ring_buffer_weak_memory_witness :
  ∃ x, exec (weak_step 4) (weak_init 4) [EvEnq 7; EvEmpty; EvDeq 7] x ∧ x ≠ WFault ∧
  ∃ a, exec (delayed_step 3) delayed_init [EvEnq 7; EvEmpty; EvDeq 7] a ∧
    enqueued [EvEnq 7; EvEmpty; EvDeq 7] =
      dequeued [EvEnq 7; EvEmpty; EvDeq 7] ++ drop (Z.to_nat (taken a)) (items a) ∧
    0 ≤ zlen (items a) - taken a ≤ 3.
Proof.
  assert (∃ x, exec (weak_step 4) (weak_init 4) [EvEnq 7; EvEmpty; EvDeq 7] x) as [x Hx].
  { eexists. unfold weak_init.
    eapply exec_tau; [eapply (enqueue_head _ 7) with (n := 0%nat); reflexivity|].
    eapply exec_tau; [eapply enqueue_room with (n := 1%nat); [reflexivity|discriminate]|].
    eapply exec_tau; [eapply enqueue_write; reflexivity|].
    eapply exec_event; [apply enqueue_publish|].
    eapply exec_tau; [eapply dequeue_tail with (n := 1%nat); reflexivity|].
    eapply exec_event; [eapply dequeue_empty with (n := 0%nat); reflexivity|].
    eapply exec_tau; [eapply dequeue_tail with (n := 1%nat); reflexivity|].
    eapply exec_tau; [eapply dequeue_some with (n := 7%nat); [reflexivity|discriminate]|].
    eapply exec_tau; [eapply dequeue_read; reflexivity|].
    eapply exec_event; [apply dequeue_take|apply exec_nil]. }
  exists x. split; [exact Hx|].
  apply (ring_buffer_weak_memory 4 _ x); [exists 2; lia|exact Hx].
Defined.
