(* ===== verification/SeqLockAtomics.v ===== *)
(** [SpscQueueSeqLock] under the C++ memory model: [Enqueue] and [Dequeue] with
    the accesses of the code on the memory of [CppMemory].  [head], [tail] and the
    cells are plain members, [seq] is the only atomic.  [SeqLock] has the same code
    with accesses that are all atomic. *)

From stdpp Require Import functions.
From S2P Require Import Prelude SpscQueue SeqLock CppMemory.
#[local] Open Scope Z_scope.

(** * The code *)

Inductive seq_loc := Head | Tail | Seq | Cell (i : Z).

#[export] Instance seq_loc_eq_dec : EqDecision seq_loc.
Proof. solve_decision. Defined.

Abbreviation seq_memory := (memory side seq_loc).

(** [Enqueue] up to and including the load of [head]. *)
Definition enqueue_call (item : Z) (m : seq_memory) : result (producer * seq_memory) :=
  '(h, m1) ← plain_read Prod Head m; Ok (PLoaded item h, m1).

(** The next access inside a call of [Enqueue]. *)
Definition enqueue_access (cap : Z) (p : producer) (m : seq_memory) :
    option (result (producer * seq_memory * option queue_event)) :=
  match p with
  | PIdle => None
  | PLoaded item h =>
      Some ('(t, m1) ← plain_read Prod Tail m;
            Ok (if decide (next_index (cap - 1) h = t) then (PIdle, m1, Some (EvFull item))
                else (PChecked item h, m1, None)))
  | PChecked item h => '(_, m1) ← fetch_add Prod Seq AcqRel 1 m; Some (Ok (PLocked item h, m1, None))
  | PLocked item h =>
      Some (m1 ← (if decide (0 ≤ h < cap) then plain_write Prod (Cell h) item m else Undef);
            Ok (PWritten item (next_index (cap - 1) h), m1, None))
  | PWritten item nextHead =>
      Some (m1 ← plain_write Prod Head nextHead m; Ok (PPublished, m1, Some (EvEnq item)))
  | PPublished => '(_, m1) ← fetch_add Prod Seq AcqRel 1 m; Some (Ok (PIdle, m1, None))
  end.

Definition dequeue_call (m : seq_memory) : result (consumer * seq_memory) :=
  '(h, m1) ← plain_read Cons Head m; Ok (CHead h, m1).

(** [n] is the store that an atomic load reads. *)
Definition dequeue_access (cap : Z) (n : nat) (c : consumer) (m : seq_memory) :
    option (result (consumer * seq_memory * option queue_event)) :=
  match c with
  | CIdle => None
  | CHead h =>
      Some ('(t, m1) ← plain_read Cons Tail m;
            Ok (if decide (t = h) then (CIdle, m1, Some EvEmpty) else (CLoaded t, m1, None)))
  | CLoaded t =>
      '(s, m1) ← atomic_load Cons Seq Acquire n m;
      Some (Ok (if decide (s mod 2 ≠ 0) then (CIdle, m1, Some EvBusy) else (CSeq t s, m1, None)))
  | CSeq t seqStart =>
      Some ('(item, m1) ← (if decide (0 ≤ t < cap) then plain_read Cons (Cell t) m else Undef);
            Ok (CRead t seqStart item, m1, None))
  | CRead t seqStart item =>
      '(seqEnd, m1) ← atomic_load Cons Seq Acquire n m;
      Some (Ok (if decide (seqStart = seqEnd) then (CValid t item, m1, None) else (CIdle, m1, Some EvBusy)))
  | CValid t item =>
      Some (m1 ← plain_write Cons Tail (next_index (cap - 1) t) m; Ok (CIdle, m1, Some (EvDeq item)))
  end.

Inductive unsync_state :=
  | URun (p : producer) (c : consumer) (m : seq_memory)
  | URace.

Inductive unsync_step (cap : Z) : unsync_state → option queue_event → unsync_state → Prop :=
  | unsync_enqueue item p' c m m' :
      enqueue_call item m = Ok (p', m') → unsync_step cap (URun PIdle c m) None (URun p' c m')
  | unsync_dequeue p c' m m' :
      dequeue_call m = Ok (c', m') → unsync_step cap (URun p CIdle m) None (URun p c' m')
  | unsync_producer p p' c m m' e :
      enqueue_access cap p m = Some (Ok (p', m', e)) → unsync_step cap (URun p c m) e (URun p' c m')
  | unsync_consumer n p c c' m m' e :
      dequeue_access cap n c m = Some (Ok (c', m', e)) → unsync_step cap (URun p c m) e (URun p c' m')
  | unsync_enqueue_race item c m :
      enqueue_call item m = Undef → unsync_step cap (URun PIdle c m) None URace
  | unsync_dequeue_race p m :
      dequeue_call m = Undef → unsync_step cap (URun p CIdle m) None URace
  | unsync_producer_race p c m :
      enqueue_access cap p m = Some Undef → unsync_step cap (URun p c m) None URace
  | unsync_consumer_race n p c m :
      dequeue_access cap n c m = Some Undef → unsync_step cap (URun p c m) None URace.

(** Zeroed memory, with both sides attached. *)
Definition unsync_memory (cap : Z) : seq_memory :=
  memory_init ([(Head, 0); (Tail, 0); (Seq, 0)] ++ ((λ i, (Cell i, 0)) <$> seqZ 0 cap)).
Definition unsync_init (cap : Z) : unsync_state := URun PIdle CIdle (unsync_memory cap).

(** * The consumer never synchronises *)

(** Of the writes in the list the consumer knows the first [N], and these are
    zeros; the producer never writes [tail]. *)
Record unseen (N : nat) (m : seq_memory) : Prop := {
  unseen_len : (N ≤ length (log m))%nat;
  unseen_past : ∀ n, n ∈ knows m Cons → (n < length (log m))%nat;
  unseen_write : ∀ n ev, log m !! n = Some ev → ev_write ev = true → (N ≤ n)%nat → n ∉ knows m Cons;
  unseen_zero : ∀ n ev, log m !! n = Some ev → (n < N)%nat → ev_value ev = 0;
  unseen_tail : ∀ n ev, log m !! n = Some ev → writes Tail ev = true → ev_value ev = 0
}.

(** [head] has been moved. *)
Definition moved (N : nat) (m : seq_memory) : Prop :=
  ∃ n ev, log m !! n = Some ev ∧ writes Head ev = true ∧ (N ≤ n)%nat.

Section unseen.
Context (N : nat).

Lemma unseen_perform_prod ev m : unseen N m → writes Tail ev = false → unseen N (perform Prod ev m).
Proof.
  intros [Hlen Hpast Hwr Hz Ht] Hev. split.
  - simpl. rewrite length_app. lia.
  - intros n. rewrite knows_perform_ne by done. simpl. rewrite length_app. intros ?%Hpast. lia.
  - intros n ev' [Hn|[-> ->]]%log_perform Hw Hge; rewrite knows_perform_ne by done; [by eapply Hwr|].
    intros ?%Hpast. lia.
  - intros n ev' [Hn|[-> ->]]%log_perform Hlt; [by eapply Hz|lia].
  - intros n ev' [Hn|[-> ->]]%log_perform Hw; [by eapply Ht|congruence].
Qed.

Lemma unseen_perform_read l v V m : unseen N m → unseen N (perform Cons (mkEvent l false v V) m).
Proof.
  intros [Hlen Hpast Hwr Hz Ht]. split.
  - simpl. rewrite length_app. lia.
  - intros n. simpl. rewrite fn_lookup_insert, length_app, elem_of_union, elem_of_singleton.
    intros [->|?%Hpast]; simpl; lia.
  - intros n ev' [Hn|[-> ->]]%log_perform Hw Hge; [|done]. simpl. rewrite fn_lookup_insert.
    rewrite elem_of_union, elem_of_singleton. intros [->|Hk]; [|by eapply Hwr].
    apply lookup_lt_Some in Hn. lia.
  - intros n ev' [Hn|[-> ->]]%log_perform Hlt; [by eapply Hz|lia].
  - intros n ev' [Hn|[-> ->]]%log_perform Hw; [by eapply Ht|done].
Qed.

(** Learning changes nothing for the other thread. *)
Lemma unseen_observe o n ev m : unseen N m → unseen N (observe Prod o n ev m).
Proof.
  intros [Hlen Hpast Hwr Hz Ht]. split; simpl; try done; intros n'; rewrite fn_lookup_insert_ne by done; eauto.
Qed.

Lemma moved_perform t ev m : moved N m → moved N (perform t ev m).
Proof. intros (n & ev' & Hn & Hw & Hge). exists n, ev'. split_and!; [by apply log_perform; left|done|done]. Qed.

(** ** The accesses *)

(** Writes after the first [N] to a location race with the consumer's reads. *)
Lemma unseen_race m l n ev :
  unseen N m → log m !! n = Some ev → writes l ev = true → (N ≤ n)%nat → races Cons l false m = true.
Proof.
  intros Hu Hn [Hw Hl]%writes_spec Hge. apply not_false_iff_true. intros Hr.
  rewrite races_false in Hr. by eapply (unseen_write _ _ Hu n ev), Hr.
Qed.

Lemma unseen_read_head m v m' : unseen N m → plain_read Cons Head m = Ok (v, m') → v = 0.
Proof.
  intros Hu (Hr & (n & ev & Hn & Hw & ->)%last_write_elem & _)%plain_read_Ok.
  destruct (decide (n < N)%nat) as [Hlt|Hge]; [by eapply unseen_zero|].
  rewrite (unseen_race m Head n ev) in Hr by (done || lia). done.
Qed.

Lemma unseen_read_tail m v m' : unseen N m → plain_read Cons Tail m = Ok (v, m') → v = 0.
Proof. intros Hu (_ & (n & ev & Hn & Hw & ->)%last_write_elem & _)%plain_read_Ok. by eapply unseen_tail. Qed.

Lemma unseen_fetch_add o d m v m' :
  unseen N m → fetch_add Prod Seq o d m = Some (v, m') → unseen N m' ∧ (moved N m → moved N m').
Proof.
  unfold fetch_add. intros Hu. destruct (last_store Seq m) as [n|]; simpl; [|done].
  destruct (log m !! n) as [ev|]; simpl; [|done]. intros [= <- <-]. split.
  - apply unseen_perform_prod; [by apply unseen_observe|done].
  - intros Hm. by apply moved_perform.
Qed.
End unseen.

(** * Steps *)

Definition unsync_inv (N : nat) (x : unsync_state) : Prop :=
  match x with URun p c m => (c = CIdle ∨ c = CHead 0) ∧ unseen N m | URace => True end.
Definition head_moved (N : nat) (x : unsync_state) : Prop :=
  match x with URun _ _ m => moved N m | URace => True end.

Lemma unsync_producer_inv N cap p m p' m' e :
  unseen N m → enqueue_access cap p m = Some (Ok (p', m', e)) →
  unseen N m' ∧ (moved N m → moved N m') ∧
  match e with Some (EvDeq _) => False | Some (EvEnq _) => moved N m' | _ => True end.
Proof.
  intros Hu Hs. destruct p as [|item h|item h|item h|item nh|]; simpl in Hs; [done|..].
  - injection Hs as Hs. apply result_bind_Ok in Hs as ([t m1] & (_ & _ & ->)%plain_read_Ok & [= Hs]).
    case_decide; injection Hs as <- <- <-; split_and!; try done; first [by apply unseen_perform_prod|by apply moved_perform].
  - destruct (fetch_add _ _ _ _ _) as [[v m1]|] eqn:Hf; simpl in Hs; [|done]. injection Hs as <- <- <-.
    by destruct (unseen_fetch_add _ _ _ _ _ _ Hu Hf).
  - injection Hs as Hs. apply result_bind_Ok in Hs as (m1 & Hw & [= <- <- <-]). case_decide; [|done].
    apply plain_write_Ok in Hw as ->. split_and!; [by apply unseen_perform_prod|by apply moved_perform|done].
  - injection Hs as Hs. apply result_bind_Ok in Hs as (m1 & ->%plain_write_Ok & [= <- <- <-]).
    split_and!; [by apply unseen_perform_prod|by apply moved_perform|].
    eexists _, _. split_and!; [by apply log_perform; right|by apply writes_spec|apply (unseen_len _ _ Hu)].
  - destruct (fetch_add _ _ _ _ _) as [[v m1]|] eqn:Hf; simpl in Hs; [|done]. injection Hs as <- <- <-.
    by destruct (unseen_fetch_add _ _ _ _ _ _ Hu Hf).
Qed.

Lemma unsync_step_inv N cap x e x' :
  unsync_inv N x → unsync_step cap x e x' →
  unsync_inv N x' ∧ (head_moved N x → head_moved N x') ∧
  match e with Some (EvDeq _) => False | Some (EvEnq _) => head_moved N x' | _ => True end.
Proof.
  intros Hx Hs. destruct Hs as [item p' c m m' Hs|p c' m m' Hs|p p' c m m' e Hs|n p c c' m m' e Hs| | | |]; try done;
    destruct Hx as [Hc Hu].
  - apply result_bind_Ok in Hs as ([h m1] & (_ & _ & ->)%plain_read_Ok & [= <- <-]).
    split_and!; [split; [done|by apply unseen_perform_prod]|by apply moved_perform|done].
  - apply result_bind_Ok in Hs as ([h m1] & Hr & [= <- <-]). pose proof (unseen_read_head _ _ _ _ Hu Hr) as ->.
    apply plain_read_Ok in Hr as (_ & _ & ->).
    split_and!; [split; [by right|by apply unseen_perform_read]|by apply moved_perform|done].
  - destruct (unsync_producer_inv _ _ _ _ _ _ _ Hu Hs) as (? & ? & ?). by split_and!.
  - destruct Hc as [->| ->]; simpl in Hs; [done|]. injection Hs as Hs.
    apply result_bind_Ok in Hs as ([t m1] & Hr & [= Hs]). pose proof (unseen_read_tail _ _ _ _ Hu Hr) as ->.
    apply plain_read_Ok in Hr as (_ & _ & ->). simpl in Hs. injection Hs as <- <- <-.
    split_and!; [split; [by left|by apply unseen_perform_read]|by apply moved_perform|done].
Qed.

Lemma unsync_exec_inv N cap x tr x' :
  unsync_inv N x → exec (unsync_step cap) x tr x' →
  unsync_inv N x' ∧ dequeued tr = [] ∧ (head_moved N x ∨ enqueued tr ≠ [] → head_moved N x').
Proof.
  intros Hx He. induction He as [x|x x1 x2 tr Hs _ IH|x x1 x2 e tr Hs _ IH].
  - split_and!; [done..|]. by intros [|[]].
  - destruct (unsync_step_inv _ _ _ _ _ Hx Hs) as (Hx1 & Hm & _). destruct (IH Hx1) as (? & ? & Hm').
    split_and!; [done..|]. intros [?%Hm|?]; apply Hm'; auto.
  - destruct (unsync_step_inv _ _ _ _ _ Hx Hs) as (Hx1 & Hm & He). destruct (IH Hx1) as (? & Hd & Hm').
    split; [done|]. unfold dequeued, enqueued in *. rewrite !bind_cons, Hd.
    destruct e; simpl in *; split; try done; intros [?%Hm|?]; apply Hm'; auto.
Qed.

Lemma unsync_memory_zero cap n ev : log (unsync_memory cap) !! n = Some ev → ev_value ev = 0.
Proof.
  unfold unsync_memory, memory_init. cbn [log]. intros Hn.
  apply list_lookup_fmap_Some in Hn as ([l v] & -> & Hn). simpl.
  apply list_elem_of_lookup_2, elem_of_app in Hn as [Hn|Hn].
  - by repeat (apply elem_of_cons in Hn as [[= -> ->]|Hn]); [..|apply elem_of_nil in Hn].
  - by apply list_elem_of_fmap in Hn as (i & [= -> ->] & _).
Qed.

Lemma unsync_inv_init cap : unsync_inv (length (log (unsync_memory cap))) (unsync_init cap).
Proof.
  split; [by left|]. split; [done|..].
  - intros n. unfold unsync_memory, memory_init. cbn [knows log]. rewrite elem_of_set_seq, length_fmap. lia.
  - intros n ev ?%lookup_lt_Some. lia.
  - intros n ev Hn _. by eapply unsync_memory_zero.
  - intros n ev Hn _. by eapply unsync_memory_zero.
Qed.

(** * Properties *)

(** C33: The sequence lock does not synchronise its two sides.  [Dequeue] compares
    the plain members [head] and [tail] before it touches [seq].  Under the C++
    memory model no execution without a data race delivers an item, and once an item
    has been enqueued the next [Dequeue] has a data race, which is undefined
    behaviour, unless something other than the queue orders the two calls. *)
Theorem seqlock_races cap tr x :
  exec (unsync_step cap) (unsync_init cap) tr x → x ≠ URace →
  dequeued tr = [] ∧
  ∀ p m, x = URun p CIdle m → enqueued tr ≠ [] → dequeue_call m = Undef ∧ unsync_step cap x None URace.
Proof.
  intros Hexec Hx. destruct (unsync_exec_inv _ _ _ _ _ (unsync_inv_init cap) Hexec) as (Hinv & Hd & Hm).
  split; [done|]. intros p m -> Hne. destruct Hm as (n & ev & Hn & Hw & Hge); [by right|].
  assert (dequeue_call m = Undef) as Hrace.
  { unfold dequeue_call, plain_read. destruct Hinv as [_ Hu]. by rewrite (unseen_race _ m Head n ev Hu Hn Hw Hge). }
  split; [done|by constructor].
Qed.

(** With four cells: after one complete [Enqueue] the first access of [Dequeue]
    is a data race. *)
Lemma seqlock_races_witness :
  ∃ m, exec (unsync_step 4) (unsync_init 4) [EvEnq 7] (URun PIdle CIdle m) ∧
    dequeued [EvEnq 7] = [] ∧ dequeue_call m = Undef ∧ unsync_step 4 (URun PIdle CIdle m) None URace.
Proof.
  assert (∃ m, exec (unsync_step 4) (unsync_init 4) [EvEnq 7] (URun PIdle CIdle m)) as [m Hm].
  { eexists. unfold unsync_init.
    eapply exec_tau; [eapply (unsync_enqueue _ 7); reflexivity|].
    do 3 (eapply exec_tau; [eapply unsync_producer; reflexivity|]).
    eapply exec_event; [eapply unsync_producer; reflexivity|].
    eapply exec_tau; [eapply unsync_producer; reflexivity|apply exec_nil]. }
  exists m. split; [exact Hm|]. destruct (seqlock_races 4 _ _ Hm) as [Hd Hr]; [discriminate|].
  split; [exact Hd|]. apply (Hr PIdle m); [reflexivity|discriminate].
Defined.
