(* ===== verification/QueueCtor.v ===== *)
(** The constructors of both queues ([SpscQueueRingBuffer] and
    [SpscQueueSeqLock]): argument checks, the size and layout of the shared
    object, and the state in which producer and consumer find it.  The queue data
    are read back from the bytes of the shared object, which connects the queue
    models to the memory of [SharedMemory]. *)

From S2P Require Import Prelude ShmNames PosixShm SharedMemory Bytes SpscQueue RingBuffer SeqLock.
#[local] Open Scope Z_scope.

(** * The code *)

Inductive Role := Producer | Consumer.

#[export] Instance Role_eq_dec : EqDecision Role.
Proof. solve_decision. Defined.

(** Offsets in [QueueData]: every member is aligned to 64 bytes, so that
    [sizeof(QueueData)] is 128 for the ring buffer ([head], [tail]) and 192 for
    the sequence lock ([head], [tail], [seq]); [buffer] starts right after. *)
Definition head_offset : nat := 0.
Definition tail_offset : nat := 64.
Definition seq_offset : nat := 128.
Definition ring_header : Z := 128.
Definition seqlock_header : Z := 192.

(** [CalculateBufferSize] of the two classes, from [sizeof(QueueData)] and the
    result of [GetCacheLineSize]. *)
Definition CalculateBufferSize (sizeofQueueData capacity cacheLine : Z) : Z :=
  let cacheLineSize := if decide (cacheLine = 0) then 64 else cacheLine in
  u64 (u64 (u64 (sizeofQueueData + u64 (capacity * 4)) / cacheLineSize + 1) * cacheLineSize).

Definition SpscQueueRingBuffer_CalculateBufferSize := CalculateBufferSize ring_header.
Definition SpscQueueSeqLock_CalculateBufferSize := CalculateBufferSize seqlock_header.

(** The members of a queue object. *)
Record queue_handle := mkQueueHandle {
  m_OwnerPid : Z;
  m_Role : Role;
  m_Capacity : Z;
  handle_mask : Z;
  mp_SharedMemory : SharedMemory
}.

Section code.
Context `{PosixShm}.

(** The two constructors differ in the functions that compute the object's size
    and make its name.  [lock_free] is [atomic<size_t>::is_always_lock_free]
    and [cacheLine] what [MemoryUtils::GetCacheLineSize] returned. *)
Definition queue_ctor (CalculateBufferSize : Z → Z → Z) (CreateShmObjectName : Z → string → string)
    (lock_free : bool) (cacheLine ownerPid : Z) (role : Role) (capacity : Z) (nameSuffix : string) :
    kernelM queue_handle :=
  if decide (lock_free = false) then
    λ k, (k, Throw (RuntimeError "Atomic size_t is not always lock-free. Cannot create queue."))
  else if decide (capacity < 2) then
    λ k, (k, Throw (InvalidArgument "Capacity must be at least 2"))
  else if decide (Z.land capacity (u64 (capacity - 1)) ≠ 0) then
    λ k, (k, Throw (InvalidArgument "Capacity must be a power of 2"))
  else
    let bufferOwnership := if decide (role = Producer) then Owner else Borrower in
    let bufferInitMode := if decide (role = Producer) then Zero else NoInit in
    let bufferShmObjectName := CreateShmObjectName ownerPid nameSuffix in
    let bufferSizeInBytes := CalculateBufferSize capacity cacheLine in
    sm ← SharedMemory_ctor bufferSizeInBytes bufferShmObjectName bufferOwnership bufferInitMode;
    _ ← (if decide (role = Producer) then
           _ ← poke_at (GetRawPointer sm) (Z.of_nat head_offset) (le_bytes 8 0);
           poke_at (GetRawPointer sm) (Z.of_nat tail_offset) (le_bytes 8 0)
         else mret ());
    mret (mkQueueHandle ownerPid role capacity (u64 (capacity - 1)) sm).

Definition SpscQueueRingBuffer_ctor :=
  queue_ctor SpscQueueRingBuffer_CalculateBufferSize SpscQueueRingBuffer_CreateShmObjectName.
Definition SpscQueueSeqLock_ctor :=
  queue_ctor SpscQueueSeqLock_CalculateBufferSize SpscQueueSeqLock_CreateShmObjectName.
End code.

(** * The queue in the bytes of the shared object *)

(** The [capacity] 32-bit cells from [header] on. *)
Definition cells_at (header : Z) (capacity : Z) (bs : list Z) : list Z :=
  (λ i, le_at 4 (Z.to_nat (header + 4 * i)) bs) <$> seqZ 0 capacity.

Definition ring_view (h : queue_handle) (bs : list Z) : RingBuffer :=
  mkRingBuffer (handle_mask h)
    (RingBuffer.mkQueueData (le_at 8 head_offset bs) (le_at 8 tail_offset bs)
       (cells_at ring_header (m_Capacity h) bs)).

Definition seqlock_view (h : queue_handle) (bs : list Z) : SeqLockQueue :=
  mkSeqLockQueue (handle_mask h)
    (SeqLock.mkQueueData (le_at 8 head_offset bs) (le_at 8 tail_offset bs) (le_at 8 seq_offset bs)
       (cells_at seqlock_header (m_Capacity h) bs)).

(** * Sizes and zero bytes *)

Lemma CalculateBufferSize_covers header cap cls :
  0 ≤ header ≤ 192 → 0 ≤ cap ≤ 2 ^ 60 → 0 ≤ cls ≤ 2 ^ 20 →
  header + 4 * cap < CalculateBufferSize header cap cls ≤ header + 4 * cap + 2 ^ 20.
Proof.
  intros Hh Hc Hl. unfold CalculateBufferSize.
  set (c := if decide (cls = 0) then 64 else cls).
  assert (0 < c ≤ 2 ^ 20) as Hcl by (unfold c; case_decide; lia). clearbody c.
  rewrite (u64_small (cap * 4)), (u64_small (header + cap * 4)) by lia.
  pose proof (Z.div_mod (header + cap * 4) c ltac:(lia)) as Hd.
  pose proof (Z.mod_pos_bound (header + cap * 4) c ltac:(lia)) as Hm.
  revert Hd Hm. generalize ((header + cap * 4) / c) ((header + cap * 4) mod c). intros q r Hd Hm.
  assert (0 ≤ q) by nia. assert (q ≤ header + cap * 4) by nia.
  rewrite (u64_small (q + 1)) by lia. rewrite u64_small; nia.
Qed.

Lemma cells_at_zeros header cap n : cells_at header cap (replicate n 0) = replicate (Z.to_nat cap) 0.
Proof.
  unfold cells_at. apply list_eq. intros i. rewrite list_lookup_fmap.
  destruct (decide (Z.of_nat i < cap)).
  - rewrite lookup_seqZ_lt, lookup_replicate_2 by lia. simpl. by rewrite le_at_zeros.
  - rewrite lookup_seqZ_ge by lia. symmetry. apply lookup_ge_None_2. rewrite length_replicate. lia.
Qed.

(** * What the constructors establish *)

Lemma capacity_checks cap :
  0 ≤ cap < 2 ^ 64 → 2 ≤ cap → Z.land cap (u64 (cap - 1)) = 0 → valid_capacity cap.
Proof.
  intros Hr H2 Hl. rewrite u64_small in Hl by lia.
  apply (land_pred_pow2 cap ltac:(lia)) in Hl as (k & Hk & ->). exists k. split; [|done].
  assert (k ≠ 0) by (intros ->; lia).
  assert (k < 64) by (apply (Z.pow_lt_mono_r_iff 2); lia). lia.
Qed.

Section proofs.
Context `{PosixShmSpec}.
Context (header : Z) (name : Z → string → string).
Hypothesis Hheader : 128 ≤ header ≤ 192.
Context (cls pid : Z) (cap : Z) (suffix : string).
Hypothesis Hcls : 0 ≤ cls ≤ 2 ^ 20.
Hypothesis Hcap : 0 ≤ cap ≤ 2 ^ 60.

Definition queue_handle_ok (role : Role) (h : queue_handle) : Prop :=
  m_Capacity h = cap ∧ handle_mask h = cap - 1 ∧ m_Role h = role ∧ valid_capacity cap.

(** The checks, and the shared object the constructor goes on with. *)
Lemma queue_ctor_inv lf role k k' h :
  queue_ctor (CalculateBufferSize header) name lf cls pid role cap suffix k = (k', Ok h) →
  queue_handle_ok role h ∧
  ∃ k1 sm, SharedMemory_ctor (CalculateBufferSize header cap cls) (name pid suffix)
      (if decide (role = Producer) then Owner else Borrower)
      (if decide (role = Producer) then Zero else NoInit) k = (k1, Ok sm) ∧
    mp_SharedMemory h = sm ∧
    (if decide (role = Producer) then
       _ ← poke_at (GetRawPointer sm) (Z.of_nat head_offset) (le_bytes 8 0);
       poke_at (GetRawPointer sm) (Z.of_nat tail_offset) (le_bytes 8 0)
     else mret () : kernelM ()) k1 = (k', Ok ()).
Proof.
  unfold queue_ctor. intros Hrun. case_decide; [done|]. case_decide; [done|]. case_decide; [done|].
  apply stM_bind_cases in Hrun as [(k1 & sm & Hsm & Hrun)|[(? & _ & ?)|[[_ ?]|[_ ?]]]]; try done.
  apply stM_bind_cases in Hrun as [(k2 & [] & Hpoke & Hrun)|[(? & _ & ?)|[[_ ?]|[_ ?]]]]; try done.
  injection Hrun as <- <-. split; [|by eauto].
  assert (valid_capacity cap) by (apply capacity_checks; lia).
  split_and!; [done| |done|done]. simpl. apply u64_small. lia.
Qed.

Lemma queue_size_ok : valid_capacity cap → header + 4 * cap < CalculateBufferSize header cap cls.
Proof.
  intros Hv. pose proof (valid_capacity_bounds _ Hv).
  destruct (CalculateBufferSize_covers header cap cls); lia.
Qed.

Lemma poke_at_no_throw p off bs k k' e : poke_at p off bs k ≠ (k', Throw e).
Proof.
  unfold poke_at, poke. destruct (mappings k !! p) as [[x len]|]; [|done].
  destruct (objects k !! x); [|done]. by case_decide.
Qed.

(** A producer leaves a zero-filled object under the queue's name. *)
Lemma producer_ctor lf k k' h :
  queue_ctor (CalculateBufferSize header) name lf cls pid Producer cap suffix k = (k', Ok h) →
  queue_handle_ok Producer h ∧
  ∃ x, names k' !! name pid suffix = Some x ∧
    mappings k' !! GetRawPointer (mp_SharedMemory h) = Some (x, CalculateBufferSize header cap cls) ∧
    objects k' !! x = Some (replicate (Z.to_nat (CalculateBufferSize header cap cls)) 0).
Proof.
  intros (Hok & k1 & sm & Hsm & Heq & Hpoke)%queue_ctor_inv. split; [done|]. rewrite Heq. clear Heq.
  pose proof (queue_size_ok ltac:(apply Hok)) as Hsize.
  apply SharedMemory_ctor_contract in Hsm.
  inversion Hsm as [k2 fd x p Hsz Hname Hobj Hp ? Hn Ho Hf Hm| | | | |]; subst.
  assert (mappings k1 !! p = Some (x, CalculateBufferSize header cap cls)) as Hmap
    by (rewrite Hm; apply lookup_insert_eq).
  assert (objects k1 !! x = Some (replicate (Z.to_nat (CalculateBufferSize header cap cls)) 0)) as Hobj1
    by (rewrite Ho; apply lookup_insert_eq).
  rewrite decide_True, !(le_bytes_0 8) in Hpoke by done.
  unfold GetRawPointer, mbind, stM_bind in Hpoke. cbn [m_RawPointer] in Hpoke.
  destruct (poke_zeros k1 p x _ head_offset 8 Hmap Hobj1) as (k3 & E3 & Hn3 & Ho3 & Hf3 & Hm3);
    [lia|unfold head_offset; lia|].
  rewrite E3 in Hpoke. rewrite <-Hm3 in Hmap. rewrite <-Ho3 in Hobj1.
  destruct (poke_zeros k3 p x _ tail_offset 8 Hmap Hobj1) as (k4 & E4 & Hn4 & Ho4 & Hf4 & Hm4);
    [lia|unfold tail_offset; lia|].
  rewrite E4 in Hpoke. injection Hpoke as <-. exists x. simpl. rewrite Hn4, Hn3, Ho4, Hm4, Hn.
  split_and!; [apply lookup_insert_eq|done..].
Qed.

(** A consumer that comes after the producer maps the producer's object. *)
Lemma consumer_after_producer lf k k1 k2 hp hc :
  queue_ctor (CalculateBufferSize header) name lf cls pid Producer cap suffix k = (k1, Ok hp) →
  queue_ctor (CalculateBufferSize header) name lf cls pid Consumer cap suffix k1 = (k2, Ok hc) →
  queue_handle_ok Consumer hc ∧
  ∃ x n, mappings k2 !! GetRawPointer (mp_SharedMemory hp) = Some (x, Z.of_nat n) ∧
    mappings k2 !! GetRawPointer (mp_SharedMemory hc) = Some (x, Z.of_nat n) ∧
    objects k2 !! x = Some (replicate n 0) ∧ header + 4 * cap ≤ Z.of_nat n.
Proof.
  intros (Hokp & x & Hx & Hmap & Hobj)%producer_ctor (Hokc & k3 & sm & Hsm & Heq & Hnop)%queue_ctor_inv.
  split; [done|]. rewrite Heq. clear Heq. injection Hnop as <-.
  pose proof (queue_size_ok ltac:(apply Hokp)) as Hsize. set (size := CalculateBufferSize _ _ _) in *.
  exists x, (Z.to_nat size). rewrite Z2Nat.id by lia. apply SharedMemory_ctor_contract in Hsm.
  inversion Hsm as [| |k4 fd y p Hsz Hname Hp ? Hn Ho Hf Hm|k4 fd y p Hsz Hname| |]; subst; [|congruence].
  assert (y = x) as -> by congruence. simpl. rewrite Ho, Hm, lookup_insert_eq.
  split_and!; [|done|done|lia].
  rewrite lookup_insert_ne; [done|]. intros ->. by rewrite Hp in Hmap.
Qed.
End proofs.

(** * Properties *)

(** The queue constructors accept exactly the capacities the ring arithmetic
    needs: a capacity that is not a power of two at least 2 is refused with
    [invalid_argument] before anything is created, and no other capacity is. *)
Theorem queue_ctor_validates `{PosixShmSpec} header name cls pid role cap suffix k :
  0 ≤ cap < 2 ^ 64 →
  ¬ valid_capacity cap ↔
  ∃ k' what, queue_ctor (CalculateBufferSize header) name true cls pid role cap suffix k = (k', Throw (InvalidArgument what)) ∧
             k' = k.
Proof.
  intros Hcap. unfold queue_ctor. rewrite decide_False by done. case_decide as H2.
  { split; [by eauto|]. intros _ Hv%valid_capacity_bounds. lia. }
  case_decide as Hl.
  { split; [by eauto|]. intros _ (j & Hj & ->). rewrite u64_small in Hl by lia.
    destruct Hl. apply land_pred_pow2; [lia|]. exists j. split; [lia|done]. }
  assert (valid_capacity cap) as Hv by (apply capacity_checks; done || lia).
  split; [done|]. intros (k' & what & Hrun & _). exfalso.
  apply stM_bind_cases in Hrun as [(k1 & sm & _ & Hrun)|[(e0 & Hsm & [= <-])|[[_ ?]|[_ ?]]]]; try done.
  - apply stM_bind_cases in Hrun as [(k2 & [] & _ & Hrun)|[(e1 & Hpoke & [= <-])|[[_ ?]|[_ ?]]]];
      try done. revert Hpoke. destruct (decide (role = Producer)); [|done]. intros Hpoke.
    apply stM_bind_cases in Hpoke as [(k3 & [] & _ & Hp)|[(e2 & Hp & _)|[[_ ?]|[_ ?]]]]; try done;
      by apply poke_at_no_throw in Hp.
  - apply SharedMemory_ctor_contract in Hsm. inversion Hsm.
Qed.

Lemma queue_ctor_validates_witness :
  ∃ k' what, SpscQueueSeqLock_ctor true 64 5 Producer 12 "_req" boot = (k', Throw (InvalidArgument what)) ∧
    k' = boot.
Proof.
  apply (queue_ctor_validates seqlock_header); [lia|]. intros (j & Hj & Heq).
  assert (j < 4) by (apply (Z.pow_lt_mono_r_iff 2); lia).
  assert (j = 1 ∨ j = 2 ∨ j = 3) as [->|[->| ->]] by lia; discriminate.
Defined.

(** The producer's constructor, then the consumer's, in the order in which
    the demo runs them, leave both attached to the same memory, and the bytes of
    that memory are an empty queue of [capacity - 1] places with a sequence
    counter at rest, all of whose cells lie inside the shared object. *)
Theorem queue_ctor_ready `{PosixShmSpec} lf cls pid cap suffix k k1 k2 hp hc :
  0 ≤ cap ≤ 2 ^ 60 → 0 ≤ cls ≤ 2 ^ 20 →
  SpscQueueSeqLock_ctor lf cls pid Producer cap suffix k = (k1, Ok hp) →
  SpscQueueSeqLock_ctor lf cls pid Consumer cap suffix k1 = (k2, Ok hc) →
  ∃ x bs, mappings k2 !! GetRawPointer (mp_SharedMemory hp) = Some (x, zlen bs) ∧
    mappings k2 !! GetRawPointer (mp_SharedMemory hc) = Some (x, zlen bs) ∧
    objects k2 !! x = Some bs ∧ seqlock_header + 4 * cap ≤ zlen bs ∧
    seqlock_contents (cap - 1) (seqlock_view hp bs) [] ∧
    seqlock_view hp bs = seqlock_view hc bs.
Proof.
  intros Hcap Hcls Hp Hc.
  assert (128 ≤ seqlock_header ≤ 192) as Hh by (unfold seqlock_header; lia).
  pose proof (producer_ctor _ SpscQueueSeqLock_CreateShmObjectName Hh _ _ _ _ Hcls Hcap _ _ _ _ Hp) as [Hokp _].
  destruct (consumer_after_producer _ SpscQueueSeqLock_CreateShmObjectName Hh _ _ _ _ Hcls Hcap _ _ _ _ _ _ Hp Hc)
    as (Hokc & x & n & Hmp & Hmc & Hobj & Hlen).
  exists x, (replicate n 0). rewrite zlen_replicate. unfold seqlock_view, seqlock_contents.
  destruct Hokp as (-> & -> & _ & Hv), Hokc as (-> & -> & _ & _).
  split_and!; [done..| | | |done]; simpl.
  - by replace (cap - 1 + 1) with cap by lia.
  - by rewrite le_at_zeros.
  - rewrite !le_at_zeros, cells_at_zeros. replace (cap - 1 + 1) with cap by lia.
    apply holds_init. pose proof (valid_capacity_bounds _ Hv). lia.
Qed.

Lemma queue_ctor_ready_witness :
  ∃ k2 hp hc x bs, mappings k2 !! GetRawPointer (mp_SharedMemory hp) = Some (x, zlen bs) ∧
    mappings k2 !! GetRawPointer (mp_SharedMemory hc) = Some (x, zlen bs) ∧
    objects k2 !! x = Some bs ∧ seqlock_header + 4 * REQ_QUEUE_CAPACITY ≤ zlen bs ∧
    seqlock_contents (REQ_QUEUE_CAPACITY - 1) (seqlock_view hp bs) [] ∧
    seqlock_view hp bs = seqlock_view hc bs.
Proof.
  eexists _, _, _. eapply (queue_ctor_ready true 64 77 REQ_QUEUE_CAPACITY "_req" boot);
    [by vm_compute|by vm_compute|vm_compute; reflexivity|vm_compute; reflexivity].
Defined.
