(* ===== verification/Futex.v ===== *)
(** [src/lib/futex/FutexSignaller.cpp]: the signalling word shared by a client and
    the server, and the two operations on it, [Wait] and [Wake], as step machines
    over an abstract futex system call.

    Any number of threads wait and any number wake; each step is one atomic
    operation on the word or one system call. *)

From S2P Require Import Prelude.
#[local] Open Scope Z_scope.

(** * The futex system call *)

(** The outcome of [FUTEX_WAIT]: the thread sleeps, or the word no longer has
    the expected value. *)
Inductive wait_result := Blocked | Again.

(** [syscall(SYS_futex, ...)] on one word is not part of the repository.  [K] is
    the kernel's state for the word, [sleeping] the threads asleep on it. *)
Class FutexSyscall (K : Type) := {
  sleeping : K → nat → Prop;
  (** [FUTEX_WAIT] by a thread, with expected value 0, when the word is [w]. *)
  futex_wait : K → nat → Z → K → wait_result → Prop;
  (** [FUTEX_WAKE] of at most [INT_MAX] threads. *)
  futex_wake : K → K → Prop;
  (** A sleeping thread returns for another reason: a signal or spuriously. *)
  futex_interrupt : K → nat → K → Prop
}.

(** futex(2): the comparison and the start of the sleep are one atomic step;
    [FUTEX_WAKE] wakes the threads asleep on the word. *)
Class FutexSpec (K : Type) `{FutexSyscall K} : Prop := {
  wait_blocked k t w k' :
    futex_wait k t w k' Blocked →
    w = 0 ∧ sleeping k' t ∧ ∀ t', t' ≠ t → sleeping k' t' ↔ sleeping k t';
  wait_again k t w k' :
    futex_wait k t w k' Again → w ≠ 0 ∧ ∀ t', sleeping k' t' ↔ sleeping k t';
  wait_total k t w : ∃ k' r, futex_wait k t w k' r;
  wake_all k k' : futex_wake k k' → ∀ t, ¬ sleeping k' t;
  wake_total k : ∃ k', futex_wake k k';
  interrupt_one k t k' :
    futex_interrupt k t k' → ¬ sleeping k' t ∧ ∀ t', t' ≠ t → sleeping k' t' ↔ sleeping k t'
}.

(** A concrete kernel: the set of sleeping threads. *)
#[export] Instance set_futex : FutexSyscall (gset nat) := {|
  sleeping := λ k t, t ∈ k;
  futex_wait := λ k t w k' r,
    (w = 0 ∧ k' = {[t]} ∪ k ∧ r = Blocked) ∨ (w ≠ 0 ∧ k' = k ∧ r = Again);
  futex_wake := λ _ k', k' = ∅;
  futex_interrupt := λ k t k', k' = k ∖ {[t]}
|}.

#[export] Instance set_futex_spec : FutexSpec (gset nat).
Proof.
  split; simpl.
  - intros k t w k' [(-> & -> & _)|(_ & _ & [=])]. set_solver.
  - intros k t w k' [(_ & _ & [=])|(? & -> & _)]. set_solver.
  - intros k t w. destruct (decide (w = 0)); [exists ({[t]} ∪ k), Blocked|exists k, Again]; auto.
  - set_solver.
  - intros k. by exists ∅.
  - set_solver.
Qed.

(** * The code *)

(** [compare_exchange_strong(expected, desired)]: the new word and the answer. *)
Definition compare_exchange (w expected desired : Z) : Z * bool :=
  if decide (w = expected) then (desired, true) else (w, false).

Definition IsWaiting (w : Z) : bool := bool_decide (w = 0).

(** A waiter outside [Wait]; about to try the exchange; about to call
    [FUTEX_WAIT]; inside the call. *)
Inductive waiter := WIdle | WTry | WCall | WSleep.

(** A waker outside [Wake]; about to try the exchange; about to call
    [FUTEX_WAKE]. *)
Inductive waker := KIdle | KTry | KCall.

#[export] Instance waiter_eq_dec : EqDecision waiter.
Proof. solve_decision. Defined.
#[export] Instance waker_eq_dec : EqDecision waker.
Proof. solve_decision. Defined.

Inductive futex_event :=
  | EvSet (t : nat)     (** [Wake] of thread [t] set the word *)
  | EvNoop (t : nat)    (** [Wake] of thread [t] found it set *)
  | EvTaken (t : nat).  (** [Wait] of thread [t] returned *)

Section machine.
Context {K : Type} `{FutexSyscall K}.

Record futex_state := mkFutex {
  word : Z;
  kern : K;
  waiters : list waiter;
  wakers : list waker
}.

Inductive futex_step : futex_state → option futex_event → futex_state → Prop :=
  (** [Wait]: the loop around the exchange and [FUTEX_WAIT]. *)
  | wait_call w k ws ks (t : nat) :
      ws !! t = Some WIdle →
      futex_step (mkFutex w k ws ks) None (mkFutex w k (<[t := WTry]> ws) ks)
  | wait_take w w' k ws ks (t : nat) :
      ws !! t = Some WTry → compare_exchange w 1 0 = (w', true) →
      futex_step (mkFutex w k ws ks) (Some (EvTaken t)) (mkFutex w' k (<[t := WIdle]> ws) ks)
  | wait_retry w w' k ws ks (t : nat) :
      ws !! t = Some WTry → compare_exchange w 1 0 = (w', false) →
      futex_step (mkFutex w k ws ks) None (mkFutex w' k (<[t := WCall]> ws) ks)
  | wait_sleep w k k' ws ks (t : nat) :
      ws !! t = Some WCall → futex_wait k t w k' Blocked →
      futex_step (mkFutex w k ws ks) None (mkFutex w k' (<[t := WSleep]> ws) ks)
  | wait_eagain w k k' ws ks (t : nat) :
      ws !! t = Some WCall → futex_wait k t w k' Again →
      futex_step (mkFutex w k ws ks) None (mkFutex w k' (<[t := WTry]> ws) ks)
  | wait_woken w k ws ks (t : nat) :
      ws !! t = Some WSleep → ¬ sleeping k t →
      futex_step (mkFutex w k ws ks) None (mkFutex w k (<[t := WTry]> ws) ks)
  | wait_spurious w k k' ws ks (t : nat) :
      ws !! t = Some WSleep → futex_interrupt k t k' →
      futex_step (mkFutex w k ws ks) None (mkFutex w k' (<[t := WTry]> ws) ks)
  (** [Wake]: the exchange, and [FUTEX_WAKE] if it succeeded. *)
  | wake_call w k ws ks (t : nat) :
      ks !! t = Some KIdle →
      futex_step (mkFutex w k ws ks) None (mkFutex w k ws (<[t := KTry]> ks))
  | wake_set w w' k ws ks (t : nat) :
      ks !! t = Some KTry → compare_exchange w 0 1 = (w', true) →
      futex_step (mkFutex w k ws ks) (Some (EvSet t)) (mkFutex w' k ws (<[t := KCall]> ks))
  | wake_noop w w' k ws ks (t : nat) :
      ks !! t = Some KTry → compare_exchange w 0 1 = (w', false) →
      futex_step (mkFutex w k ws ks) (Some (EvNoop t)) (mkFutex w' k ws (<[t := KIdle]> ks))
  | wake_syscall w k k' ws ks (t : nat) :
      ks !! t = Some KCall → futex_wake k k' →
      futex_step (mkFutex w k ws ks) None (mkFutex w k' ws (<[t := KIdle]> ks)).

(** The word after the waiter's constructor, with nobody asleep. *)
Definition futex_init (nwaiters nwakers : nat) (s : futex_state) : Prop :=
  word s = 0 ∧ (∀ t, ¬ sleeping (kern s) t) ∧
  waiters s = replicate nwaiters WIdle ∧ wakers s = replicate nwakers KIdle.
End machine.
Arguments futex_state K : clear implicits.

(** * The abstract specification: a binary semaphore *)

Inductive sem_step : bool → option futex_event → bool → Prop :=
  | sem_set t : sem_step false (Some (EvSet t)) true
  | sem_noop t : sem_step true (Some (EvNoop t)) true
  | sem_taken t : sem_step true (Some (EvTaken t)) false.

Definition count_set (tr : list futex_event) : nat :=
  sum_list_with (λ e, match e with EvSet _ => 1%nat | _ => 0%nat end) tr.
Definition count_taken (tr : list futex_event) : nat :=
  sum_list_with (λ e, match e with EvTaken _ => 1%nat | _ => 0%nat end) tr.

(** Each signal is taken once; the word is the difference. *)
Lemma sem_count b tr b' :
  exec sem_step b tr b' → (count_set tr + Nat.b2n b = count_taken tr + Nat.b2n b')%nat.
Proof.
  unfold count_set, count_taken.
  induction 1 as [b|b b1 b2 tr H _ _|b b1 b2 e tr H _ IH]; [simpl; lia|inversion H|].
  inversion H; subst; simpl in *; lia.
Qed.

(** * Invariants *)

Section invariants.
Context {K : Type} `{FutexSpec K}.

(** The word is 0 or 1; only threads inside [FUTEX_WAIT] sleep; and if the word is
    set while a thread sleeps, some waker is about to call [FUTEX_WAKE]. *)
Definition futex_inv (s : futex_state K) : Prop :=
  (word s = 0 ∨ word s = 1) ∧
  (∀ t, sleeping (kern s) t → waiters s !! t = Some WSleep) ∧
  (word s = 1 → (∃ t, sleeping (kern s) t) → ∃ t, wakers s !! t = Some KCall).

Lemma compare_exchange_true w e d w' : compare_exchange w e d = (w', true) → w = e ∧ w' = d.
Proof. unfold compare_exchange. case_decide; naive_solver. Qed.
Lemma compare_exchange_false w e d w' : compare_exchange w e d = (w', false) → w ≠ e ∧ w' = w.
Proof. unfold compare_exchange. case_decide; naive_solver. Qed.

(** Moving a thread that is not asleep keeps the sleepers where they are. *)
Lemma sleepers_kept (ws : list waiter) (S : nat → Prop) (t : nat) (x y : waiter) :
  ws !! t = Some x → ¬ S t → (∀ t', S t' → ws !! t' = Some WSleep) →
  ∀ t', S t' → <[t := y]> ws !! t' = Some WSleep.
Proof.
  intros Ht Hn Hs t' Ht'. rewrite list_lookup_insert_ne; [by apply Hs|]. intros ->. done.
Qed.

Lemma not_sleeping_state (s : futex_state K) t x :
  futex_inv s → waiters s !! t = Some x → x ≠ WSleep → ¬ sleeping (kern s) t.
Proof. intros (_ & Hs & _) Ht Hx Hsl%Hs. congruence. Qed.

Lemma waker_kept (ks : list waker) (t : nat) x y :
  ks !! t = Some x → x ≠ KCall → (∃ t', ks !! t' = Some KCall) → ∃ t', <[t := y]> ks !! t' = Some KCall.
Proof.
  intros Ht Hx [t' Ht']. exists t'. rewrite list_lookup_insert_ne; [done|]. intros ->. congruence.
Qed.

Lemma futex_inv_step s e s' : futex_inv s → futex_step s e s' → futex_inv s'.
Proof.
  intros Hinv Hstep. pose proof (not_sleeping_state s) as Hns. pose proof Hinv as (Hw & Hsl & Hset).
  destruct Hstep as [w k ws ks t Ht|w w' k ws ks t Ht Hc|w w' k ws ks t Ht Hc|w k k' ws ks t Ht Hf
    |w k k' ws ks t Ht Hf|w k ws ks t Ht Hf|w k k' ws ks t Ht Hf|w k ws ks t Ht|w w' k ws ks t Ht Hc
    |w w' k ws ks t Ht Hc|w k k' ws ks t Ht Hf]; simpl in *.
  - split_and!; [done| |done]. eapply sleepers_kept; eauto.
  - apply compare_exchange_true in Hc as [-> ->]. split_and!; [auto| |done].
    eapply sleepers_kept; eauto.
  - apply compare_exchange_false in Hc as [? ->]. split_and!; [done| |done].
    eapply sleepers_kept; eauto.
  - apply wait_blocked in Hf as (-> & Ht' & Hoth). split_and!; [done| |done]. simpl.
    intros t' Hs. destruct (decide (t' = t)) as [->|Hne].
    + apply list_lookup_insert_eq. by eapply lookup_lt_Some.
    + rewrite list_lookup_insert_ne by done. apply Hsl. by apply Hoth.
  - apply wait_again in Hf as (Hw1 & Hoth). split_and!; [done| |].
    + simpl. apply (sleepers_kept _ _ t WCall); [done| |].
      * rewrite Hoth. by eapply Hns.
      * intros t'. rewrite Hoth. apply Hsl.
    + simpl. setoid_rewrite Hoth. done.
  - split_and!; [done| |done]. eapply sleepers_kept; eauto.
  - apply interrupt_one in Hf as (Hnt & Hoth). split_and!; [done| |].
    + simpl. intros t' Ht'. assert (t' ≠ t) by (intros ->; done).
      rewrite list_lookup_insert_ne by done. apply Hsl. by apply Hoth.
    + simpl. intros Hw1 [t' Ht']. apply Hset; [done|]. exists t'.
      apply Hoth; [|done]. intros ->. done.
  - split_and!; [done|done|]. simpl. intros Hw1 Hs. eapply waker_kept; eauto.
  - apply compare_exchange_true in Hc as [-> ->]. split_and!; [auto|done|]. simpl.
    intros _ _. exists t. apply list_lookup_insert_eq. by eapply lookup_lt_Some.
  - apply compare_exchange_false in Hc as [? ->]. split_and!; [done|done|]. simpl.
    intros Hw1 Hs. eapply waker_kept; eauto.
  - pose proof (wake_all _ _ Hf) as Hnone. split_and!; [done| |]; simpl.
    + intros t' []%Hnone.
    + intros _ [t' []%Hnone].
Qed.

Lemma futex_inv_init n m s : futex_init n m s → futex_inv s.
Proof.
  intros (Hw & Hk & _ & _). split_and!; [by left| |].
  - intros t []%Hk.
  - intros _ [t []%Hk].
Qed.

Lemma futex_inv_exec n m s0 tr s : futex_init n m s0 → exec futex_step s0 tr s → futex_inv s.
Proof.
  intros Hi. apply exec_invariant; [|by eapply futex_inv_init]. intros; by eapply futex_inv_step.
Qed.

(** Every step on the word is a step of the semaphore. *)
Lemma futex_sem_step s e s' :
  futex_inv s → futex_step s e s' →
  exec sem_step (bool_decide (word s = 1)) (option_list e) (bool_decide (word s' = 1)).
Proof.
  intros (Hw & _ & _) Hstep. destruct Hstep; simpl in *; try apply exec_nil;
    try (apply compare_exchange_true in H2 as [-> ->]);
    try (apply compare_exchange_false in H2 as [? ->]).
  all: try apply exec_nil; try (apply exec_single; constructor).
  destruct Hw as [->| ->]; [done|]. apply exec_single, sem_noop.
Qed.

Lemma futex_sem_exec s tr s' :
  futex_inv s → exec futex_step s tr s' →
  exec sem_step (bool_decide (word s = 1)) tr (bool_decide (word s' = 1)).
Proof.
  intros Hs Hexec.
  destruct (simulation_exec futex_step sem_step (λ s b, futex_inv s ∧ b = bool_decide (word s = 1)))
    with (c := s) (tr := tr) (c' := s') (a := bool_decide (word s = 1)) as (b & Hb & _ & ->); try done.
  intros c l c' a [Hc ->] Hst. eexists. split; [by eapply futex_sem_step|].
  split; [by eapply futex_inv_step|done].
Qed.

Lemma futex_quiet s t :
  futex_inv s → word s = 1 → (∀ u, wakers s !! u ≠ Some KCall) → ¬ sleeping (kern s) t.
Proof.
  intros (_ & _ & Hinv) Hw Hk Hs. destruct (Hinv Hw) as [t' Ht']; [by exists t|]. by apply (Hk t').
Qed.

(** A step of thread [t] inside [Wait] that does not return. *)
Definition wait_own_step (t : nat) (s s' : futex_state K) : Prop :=
  futex_step s None s' ∧ wakers s' = wakers s ∧
  (∀ t', t' ≠ t → waiters s' !! t' = waiters s !! t') ∧
  waiters s !! t ≠ Some WIdle.

Lemma list_insert_changes {A} (l : list A) i x y : l !! i = Some x → x ≠ y → <[i:=y]> l ≠ l.
Proof.
  intros Hi Hne Heq. pose proof (list_lookup_insert_eq l i y (lookup_lt_Some _ _ _ Hi)) as Hl.
  rewrite Heq in Hl. congruence.
Qed.

(** With a signal pending, such a step ends in front of the exchange. *)
Lemma wait_own_step_try t s s' :
  word s = 1 → wait_own_step t s s' →
  waiters s !! t ≠ Some WTry ∧ word s' = 1 ∧ waiters s' !! t = Some WTry.
Proof.
  intros Hw (Hs & Hks & Hws & Hidle).
  assert (∀ (ws : list waiter) u x y, ws !! u = Some x → x ≠ y →
    (∀ t', t' ≠ t → <[u:=y]> ws !! t' = ws !! t') → u = t) as Hself.
  { intros ws u x y Hu Hxy Hoth. destruct (decide (u = t)) as [|Hne]; [done|].
    specialize (Hoth u Hne). rewrite list_lookup_insert_eq in Hoth by (by eapply lookup_lt_Some).
    congruence. }
  assert (∀ (ws : list waiter) u x y, ws !! u = Some x → <[u:=y]> ws !! u = Some y) as Hset.
  { intros. apply list_lookup_insert_eq. by eapply lookup_lt_Some. }
  inversion Hs; subst; simpl in *; subst;
    try (exfalso; eapply (λ a b, list_insert_changes _ _ _ _ a b Hks); [eassumption|done]);
    match goal with
    | Hl : @lookup _ _ (list waiter) _ ?u _ = Some _ |- _ => assert (u = t) as -> by (eapply (λ a b, Hself _ _ _ _ a b Hws); [eassumption|done])
    end; [done| | | | |].
  - exfalso. match goal with Hc : compare_exchange _ _ _ = _ |- _ =>
      apply compare_exchange_false in Hc as [? _] end. done.
  - exfalso. match goal with Hf : futex_wait _ _ _ _ _ |- _ =>
      apply wait_blocked in Hf as [? _] end. done.
  - split_and!; [congruence|done|by eapply Hset].
  - split_and!; [congruence|done|by eapply Hset].
  - split_and!; [congruence|done|by eapply Hset].
Qed.

Lemma wait_own_steps_bound t j s s' :
  word s = 1 → nsteps (wait_own_step t) j s s' → (j ≤ 1)%nat.
Proof.
  intros Hw Hn. inversion Hn as [|? ? s1 ? H1 H2]; subst; [lia|].
  apply wait_own_step_try in H1 as (_ & Hw1 & Ht1); [|done].
  inversion H2 as [|? ? s2 ? H3 H4]; subst; [lia|].
  by apply wait_own_step_try in H3 as (? & _); [|done].
Qed.

(** With a signal pending and nobody asleep, a thread inside [Wait] can return. *)
Lemma wait_can_return s t w :
  word s = 1 → (∀ u, ¬ sleeping (kern s) u) → waiters s !! t = Some w → w ≠ WIdle →
  ∃ s', exec futex_step s [EvTaken t] s'.
Proof.
  destruct s as [wd k ws ks]. simpl. intros -> Hns Ht Hne.
  assert (∀ k, exec futex_step (mkFutex 1 k (<[t:=WTry]> ws) ks) [EvTaken t]
    (mkFutex 0 k (<[t:=WIdle]> (<[t:=WTry]> ws)) ks)) as Htry.
  { intros k'. apply exec_single. apply (wait_take 1 0); [|done].
    apply list_lookup_insert_eq. by eapply lookup_lt_Some. }
  destruct w; [done| | |].
  - eexists. rewrite <-(list_insert_id ws t WTry) at 1 by done. apply Htry.
  - destruct (wait_total k t 1) as (k' & [] & Hf).
    + by apply wait_blocked in Hf as [? _].
    + eexists. eapply exec_tau; [by apply (wait_eagain 1 k k')|apply Htry].
  - eexists. eapply exec_tau; [apply wait_woken; [exact Ht|apply Hns]|apply Htry].
Qed.
End invariants.

(** * Properties *)

(** C12: [Wait] and [Wake] implement a binary semaphore under every interleaving of
    any number of waiters and wakers, and whatever spurious wake-ups the kernel
    produces: a [Wait] returns only by consuming a signal, each signal is
    consumed by exactly one [Wait], and the word is 1 exactly when one is
    pending. *)
Theorem futex_refines_semaphore `{FutexSpec K} n m s0 tr s :
  futex_init n m s0 → exec futex_step s0 tr s →
  exec sem_step false tr (bool_decide (word s = 1)) ∧
  Z.of_nat (count_set tr) = Z.of_nat (count_taken tr) + word s.
Proof.
  intros Hinit Hexec. assert (futex_inv s) as (Hw & _) by eauto using futex_inv_exec.
  assert (exec sem_step false tr (bool_decide (word s = 1))) as Hsem.
  { replace false with (bool_decide (word s0 = 1)) by (by destruct Hinit as (-> & _)).
    eapply futex_sem_exec; eauto using futex_inv_init. }
  split; [done|]. apply sem_count in Hsem. simpl in Hsem.
  destruct Hw as [Hw|Hw]; rewrite Hw in *; simpl in Hsem; lia.
Qed.

(** One waiter that sleeps before the signal and is woken by it. *)
Lemma sleep_then_wake :
  exec futex_step (mkFutex 0 (∅ : gset nat) [WIdle] [KIdle]) [EvSet 0; EvTaken 0]
    (mkFutex 0 ∅ [WIdle] [KIdle]).
Proof.
  eapply exec_tau; [eapply (wait_call _ _ _ _ 0); reflexivity|].
  eapply exec_tau; [eapply (wait_retry _ _ _ _ _ 0); reflexivity|].
  eapply exec_tau; [eapply (wait_sleep _ _ _ _ _ 0); [reflexivity|left; eauto]|].
  eapply exec_tau; [eapply (wake_call _ _ _ _ 0); reflexivity|].
  eapply exec_event; [eapply (wake_set _ _ _ _ _ 0); reflexivity|].
  eapply exec_tau; [eapply (wake_syscall _ _ _ _ _ 0); reflexivity|].
  eapply exec_tau; [eapply (wait_woken _ _ _ _ 0); [reflexivity|set_solver]|].
  eapply exec_event; [eapply (wait_take _ _ _ _ _ 0); reflexivity|]. apply exec_nil.
Qed.

Lemma futex_refines_semaphore_witness :
  exec sem_step false [EvSet 0; EvTaken 0] false ∧
  Z.of_nat (count_set [EvSet 0; EvTaken 0]) = Z.of_nat (count_taken [EvSet 0; EvTaken 0]) + 0.
Proof.
  apply (futex_refines_semaphore 1 1 (mkFutex 0 (∅ : gset nat) [WIdle] [KIdle]) _
    (mkFutex 0 ∅ [WIdle] [KIdle])); [|apply sleep_then_wake].
  split_and!; [reflexivity|simpl; set_solver|reflexivity|reflexivity].
Defined.

(** C22: No wake-up is lost.  In every reachable state in which a signal is
    pending and no waker is between its exchange and its [FUTEX_WAKE], no thread
    is asleep on the word. *)
Theorem futex_no_lost_wakeup `{FutexSpec K} n m s0 tr s :
  futex_init n m s0 → exec futex_step s0 tr s →
  word s = 1 → (∀ t, wakers s !! t ≠ Some KCall) → ∀ t, ¬ sleeping (kern s) t.
Proof.
  intros Hinit Hexec Hw Hk t. apply futex_quiet; eauto using futex_inv_exec.
Qed.

Lemma futex_no_lost_wakeup_witness :
  ¬ sleeping (∅ : gset nat) 0%nat.
Proof.
  apply (futex_no_lost_wakeup 0 1 (mkFutex 0 (∅ : gset nat) [] [KIdle]) [EvSet 0]
    (mkFutex 1 ∅ [] [KIdle])); [split_and!; [reflexivity|simpl; set_solver|reflexivity|reflexivity]| |reflexivity|].
  - eapply exec_tau; [eapply (wake_call _ _ _ _ 0); reflexivity|].
    eapply exec_event; [eapply (wake_set _ _ _ _ _ 0); reflexivity|].
    eapply exec_tau; [eapply (wake_syscall _ _ _ _ _ 0); reflexivity|]. apply exec_nil.
  - intros [|[|t]]; simpl; discriminate.
Defined.

(** A pending signal ends the wait.  In every reachable state with a pending
    signal and no waker about to call [FUTEX_WAKE], a thread inside [Wait] can
    return, wherever it is, and it takes at most one step of its own that does not
    return while no other thread interferes. *)
Theorem futex_wait_returns `{FutexSpec K} n m s0 tr s t w :
  futex_init n m s0 → exec futex_step s0 tr s →
  word s = 1 → (∀ u, wakers s !! u ≠ Some KCall) →
  waiters s !! t = Some w → w ≠ WIdle →
  (∃ s', exec futex_step s [EvTaken t] s') ∧
  (∀ j s', nsteps (wait_own_step t) j s s' → (j ≤ 1)%nat).
Proof.
  intros Hinit Hexec Hw Hk Ht Hne. split.
  - eapply wait_can_return; [done| |done|done].
    intros u. apply futex_quiet; eauto using futex_inv_exec.
  - intros j s'. by apply wait_own_steps_bound.
Qed.

Lemma futex_wait_returns_witness :
  (∃ s', exec futex_step (mkFutex 1 (∅ : gset nat) [WCall] [KIdle]) [EvTaken 0] s') ∧
  (∀ j s', nsteps (wait_own_step 0) j (mkFutex 1 (∅ : gset nat) [WCall] [KIdle]) s' → (j ≤ 1)%nat).
Proof.
  apply (futex_wait_returns 1 1 (mkFutex 0 (∅ : gset nat) [WIdle] [KIdle]) [EvSet 0] _ 0 WCall);
    [split_and!; [reflexivity|simpl; set_solver|reflexivity|reflexivity]| |reflexivity| |reflexivity|done].
  - eapply exec_tau; [eapply (wait_call _ _ _ _ 0); reflexivity|].
    eapply exec_tau; [eapply (wait_retry _ _ _ _ _ 0); reflexivity|].
    eapply exec_tau; [eapply (wake_call _ _ _ _ 0); reflexivity|].
    eapply exec_event; [eapply (wake_set _ _ _ _ _ 0); reflexivity|].
    eapply exec_tau; [eapply (wake_syscall _ _ _ _ _ 0); reflexivity|]. apply exec_nil.
  - intros [|[|u]]; simpl; discriminate.
Defined.
