(* ===== verification/Messages.v ===== *)
(** [src/transposer_demo/common/ClientServerMessage.h]: the messages of the client
    and the server, their twenty bytes on the socket, and their textual form. *)

From Stdlib Require Import Ascii.
From S2P Require Import Prelude ShmNames Bytes.
#[local] Open Scope Z_scope.

(** * The code *)

(** [MessageType] is an enumeration over [uint32_t]: any 32-bit value can arrive
    in a message, these three have names. *)
Definition Subscribe : Z := 0.
Definition Unsubscribe : Z := 1.
Definition SubscribeResponse : Z := 2.

Record ClientServerMessage := mkMessage {
  type : Z;
  senderId : Z;
  param1 : Z;
  param2 : Z;
  param3 : Z
}.

#[export] Instance ClientServerMessage_eq_dec : EqDecision ClientServerMessage.
Proof. solve_decision. Defined.

(** The [Generate] functions overwrite members of an existing message; the
    [Process] functions answer [false] or fill in their output parameters. *)
Definition GenerateSubscribeMessage (message : ClientServerMessage) (clientId m n k : Z) :
    ClientServerMessage :=
  mkMessage Subscribe clientId m n k.

Definition ProcessSubscribeMessage (message : ClientServerMessage) : option (Z * Z * Z * Z) :=
  if decide (type message ≠ Subscribe) then None
  else Some (senderId message, param1 message, param2 message, param3 message).

Definition GenerateUnsubscribeMessage (message : ClientServerMessage) (clientId : Z) :
    ClientServerMessage :=
  mkMessage Unsubscribe clientId (param1 message) (param2 message) (param3 message).

Definition ProcessUnsubscribeMessage (message : ClientServerMessage) : option Z :=
  if decide (type message ≠ Unsubscribe) then None else Some (senderId message).

Definition GenerateSubscribeResponseMessage (message : ClientServerMessage)
    (serverId serverSideClientId serverCapacity serverClientCount : Z) : ClientServerMessage :=
  mkMessage SubscribeResponse serverId serverSideClientId serverCapacity serverClientCount.

Definition ProcessSubscribeResponseMessage (message : ClientServerMessage) :
    option (Z * Z * Z * Z) :=
  if decide (type message ≠ SubscribeResponse) then None
  else Some (senderId message, param1 message, param2 message, param3 message).

(** The case of [SubscribeResponse] falls through to the default. *)
Definition TypeToString (type : Z) : string :=
  if decide (type = Subscribe) then "Subscribe"
  else if decide (type = Unsubscribe) then "Unsubscribe"
  else "UNKNOWN".

Definition ToString (message : ClientServerMessage) : string :=
  if decide (type message = Subscribe) then
    "Subscribe: { clientPid: " +:+ dec (senderId message) +:+ ", m: " +:+ dec (param1 message)
    +:+ ", n: " +:+ dec (param2 message) +:+ ", k: " +:+ dec (param3 message) +:+ " }"
  else if decide (type message = Unsubscribe) then
    "Unsubscribe: { clientPid: " +:+ dec (senderId message) +:+ " }"
  else if decide (type message = SubscribeResponse) then
    "SubscribeResponse: { serverPid: " +:+ dec (senderId message)
    +:+ ", serverSideClientId: " +:+ dec (param1 message)
    +:+ ", serverCapacity: " +:+ dec (param2 message)
    +:+ ", serverClientCount: " +:+ dec (param3 message) +:+ " }"
  else "UNKNOWN".

(** The packed layout: five little-endian words without padding.  [send] passes
    these bytes of a message, and the receiver's [reinterpret_cast] reads a
    message from a buffer of as many bytes. *)
Definition sizeof_message : nat := 20.

Definition message_bytes (message : ClientServerMessage) : list Z :=
  le_bytes 4 (type message) ++ le_bytes 4 (senderId message) ++ le_bytes 4 (param1 message) ++
  le_bytes 4 (param2 message) ++ le_bytes 4 (param3 message).

Definition message_of_bytes (buffer : list Z) : ClientServerMessage :=
  mkMessage (le_at 4 0 buffer) (le_at 4 4 buffer) (le_at 4 8 buffer)
            (le_at 4 12 buffer) (le_at 4 16 buffer).

(** * Lemmas *)

Definition is_message (message : ClientServerMessage) : Prop :=
  is_u32 (type message) ∧ is_u32 (senderId message) ∧ is_u32 (param1 message) ∧
  is_u32 (param2 message) ∧ is_u32 (param3 message).

Lemma length_message_bytes message : length (message_bytes message) = sizeof_message.
Proof. unfold message_bytes. by rewrite !length_app, !length_le_bytes. Qed.

(** Skip the words before, keep the word itself. *)
Lemma le_at_skip n off k x bs : le_at n (k + off) (le_bytes k x ++ bs) = le_at n off bs.
Proof.
  unfold le_at. rewrite drop_app_ge by (rewrite length_le_bytes; lia).
  rewrite length_le_bytes. by replace (k + off - k)%nat with off by lia.
Qed.

Lemma le_at_head n x bs : 0 ≤ x < 256 ^ Z.of_nat n → le_at n 0 (le_bytes n x ++ bs) = x.
Proof.
  intros. unfold le_at. rewrite drop_0, take_app_le, take_ge by (rewrite length_le_bytes; lia).
  by apply le_value_small.
Qed.

Lemma message_of_message_bytes message :
  is_message message → message_of_bytes (message_bytes message) = message.
Proof.
  destruct message as [t s p q r]. unfold is_message, is_u32. simpl. intros (Ht & Hs & Hp & Hq & Hr).
  unfold message_of_bytes, message_bytes. simpl type. simpl senderId. simpl param1.
  simpl param2. simpl param3. rewrite <-(app_nil_r (le_bytes 4 r)).
  f_equal; repeat first [rewrite (le_at_head 4) by lia; reflexivity|apply (le_at_skip 4 _ 4)|
    rewrite (le_at_skip 4 0 4)|rewrite (le_at_skip 4 4 4)|rewrite (le_at_skip 4 8 4)|rewrite (le_at_skip 4 12 4)].
Qed.

(** Split a buffer into its words. *)
Lemma le_at_bytes n off bs :
  Forall is_byte bs → (off + n ≤ length bs)%nat → le_bytes n (le_at n off bs) = take n (drop off bs).
Proof.
  intros Hb Hl. pose proof (le_bytes_value (take n (drop off bs))) as Hv.
  rewrite length_take, length_drop, Nat.min_l in Hv by lia. apply Hv.
  by apply Forall_take, Forall_drop.
Qed.

Lemma take_drop_next {A} (bs : list A) o o' :
  (o' = o + 4)%nat → take 4 (drop o bs) ++ drop o' bs = drop o bs.
Proof. intros ->. rewrite <-drop_drop. apply take_drop. Qed.

Lemma message_bytes_of_bytes bs :
  Forall is_byte bs → length bs = sizeof_message → message_bytes (message_of_bytes bs) = bs.
Proof.
  unfold sizeof_message. intros Hb Hl. unfold message_bytes, message_of_bytes. simpl type.
  simpl senderId. simpl param1. simpl param2. simpl param3.
  rewrite !le_at_bytes by (done || lia).
  rewrite (take_ge (drop 16 bs)) by (rewrite length_drop; lia).
  rewrite (take_drop_next bs 12 16), (take_drop_next bs 8 12), (take_drop_next bs 4 8) by lia.
  by apply (take_drop_next bs 0 4).
Qed.

(** A decimal number ends where a character that is no digit follows. *)
Lemma digits_sep_inj c s1 s2 r1 r2 :
  is_digit c = false → all_digits s1 = true → all_digits s2 = true →
  s1 +:+ String c r1 = s2 +:+ String c r2 → s1 = s2 ∧ r1 = r2.
Proof.
  intros Hc. revert s2. induction s1 as [|c1 s1 IH]; intros [|c2 s2]; simpl; intros H1 H2 Heq.
  - by injection Heq.
  - injection Heq as -> _. by rewrite Hc in H2.
  - injection Heq as -> _. by rewrite Hc in H1.
  - apply andb_true_iff in H1 as [_ H1], H2 as [_ H2]. injection Heq as -> Heq.
    destruct (IH _ H1 H2 Heq) as [-> ->]. done.
Qed.

Lemma field_inj c p x y r1 r2 :
  is_digit c = false → 0 ≤ x → 0 ≤ y →
  p +:+ dec x +:+ String c r1 = p +:+ dec y +:+ String c r2 → x = y ∧ r1 = r2.
Proof.
  intros Hc Hx Hy H%app_inj_l. apply digits_sep_inj in H as [?%dec_inj ?]; auto using dec_digits.
Qed.

(** * Properties *)

(** C27: The message protocol round-trips.  A message built by a [Generate]
    function, sent as its twenty bytes and read back by the receiver, is accepted
    by the matching [Process] function with exactly the values it was built from,
    is refused by the other two, and any twenty received bytes are the encoding
    of the message read from them. *)
Theorem message_roundtrip old clientId a b c :
  is_message old → is_u32 clientId → is_u32 a → is_u32 b → is_u32 c →
  (let msg := message_of_bytes (message_bytes (GenerateSubscribeMessage old clientId a b c)) in
   ProcessSubscribeMessage msg = Some (clientId, a, b, c) ∧
   ProcessUnsubscribeMessage msg = None ∧ ProcessSubscribeResponseMessage msg = None) ∧
  (let msg := message_of_bytes (message_bytes (GenerateUnsubscribeMessage old clientId)) in
   ProcessUnsubscribeMessage msg = Some clientId ∧
   ProcessSubscribeMessage msg = None ∧ ProcessSubscribeResponseMessage msg = None) ∧
  (let msg := message_of_bytes (message_bytes (GenerateSubscribeResponseMessage old clientId a b c)) in
   ProcessSubscribeResponseMessage msg = Some (clientId, a, b, c) ∧
   ProcessSubscribeMessage msg = None ∧ ProcessUnsubscribeMessage msg = None) ∧
  (∀ bs, Forall is_byte bs → length bs = sizeof_message → message_bytes (message_of_bytes bs) = bs).
Proof.
  intros (Ht & Hs & Hp & Hq & Hr) Hc Ha Hb Hd.
  split_and!; [..|exact message_bytes_of_bytes];
    cbv zeta; rewrite message_of_message_bytes; done.
Qed.

Lemma message_roundtrip_witness :
  ProcessSubscribeMessage (message_of_bytes (message_bytes
    (GenerateSubscribeMessage (mkMessage 0 0 0 0 0) 4242 6 7 8))) = Some (4242, 6, 7, 8).
Proof.
  assert (is_message (mkMessage 0 0 0 0 0)) as Hm by done.
  destruct (message_roundtrip (mkMessage 0 0 0 0 0) 4242 6 7 8 Hm) as [(H & _) _]; done.
Defined.

(** [ToString] is unambiguous: two messages of known types that are printed
    alike have the same type and sender and, unless they are unsubscriptions,
    whose parameters mean nothing, the same parameters. *)
Theorem ToString_unambiguous m1 m2 :
  is_message m1 → is_message m2 → type m1 ≤ SubscribeResponse → type m2 ≤ SubscribeResponse →
  ToString m1 = ToString m2 →
  type m1 = type m2 ∧ senderId m1 = senderId m2 ∧
  (type m1 ≠ Unsubscribe → m1 = m2).
Proof.
  destruct m1 as [t1 s1 p1 q1 r1], m2 as [t2 s2 p2 q2 r2]. unfold is_message, is_u32, ToString,
    Subscribe, Unsubscribe, SubscribeResponse. simpl.
  intros (Ht1 & ? & ? & ? & ?) (Ht2 & ? & ? & ? & ?) Hu1 Hu2 Heq.
  assert (t1 = 0 ∨ t1 = 1 ∨ t1 = 2) as Hc1 by lia. assert (t2 = 0 ∨ t2 = 1 ∨ t2 = 2) as Hc2 by lia.
  destruct Hc1 as [->|[->| ->]], Hc2 as [->|[->| ->]]; simpl in Heq; try discriminate Heq.
  - apply (field_inj ","%char "Subscribe: { clientPid: ") in Heq as [-> Heq]; [|done || lia..].
    apply (field_inj ","%char " m: ") in Heq as [-> Heq]; [|done || lia..].
    apply (field_inj ","%char " n: ") in Heq as [-> Heq]; [|done || lia..].
    apply (field_inj " "%char " k: ") in Heq as [-> _]; [|done || lia..]. done.
  - apply (field_inj " "%char "Unsubscribe: { clientPid: ") in Heq as [-> _]; [|done || lia..]. done.
  - apply (field_inj ","%char "SubscribeResponse: { serverPid: ") in Heq as [-> Heq]; [|done || lia..].
    apply (field_inj ","%char " serverSideClientId: ") in Heq as [-> Heq]; [|done || lia..].
    apply (field_inj ","%char " serverCapacity: ") in Heq as [-> Heq]; [|done || lia..].
    apply (field_inj " "%char " serverClientCount: ") in Heq as [-> _]; [|done || lia..]. done.
Qed.

Lemma ToString_unambiguous_witness :
  type (mkMessage 1 7 0 0 0) = type (mkMessage 1 7 1 2 3) ∧
  senderId (mkMessage 1 7 0 0 0) = senderId (mkMessage 1 7 1 2 3) ∧
  (type (mkMessage 1 7 0 0 0) ≠ Unsubscribe → mkMessage 1 7 0 0 0 = mkMessage 1 7 1 2 3).
Proof. apply ToString_unambiguous; [done|done|done|done|vm_compute; reflexivity]. Defined.
