(* ===== verification/SharedMatrixBuffer.v ===== *)
(** [src/lib/matrix-buf/SharedMatrixBuffer.cpp]: a matrix of 64-bit cells in a
    shared-memory object, its dimensions, its initialisation and the cells as the
    other process reads them. *)

From S2P Require Import Prelude ShmNames PosixShm SharedMemory Bytes.
#[local] Open Scope Z_scope.

(** * The code *)

Inductive Endpoint := Server | Client.
Inductive BufferInitMode := Random | Zero | NoInit.

#[export] Instance Endpoint_eq_dec : EqDecision Endpoint.
Proof. solve_decision. Defined.
#[export] Instance MatrixInitMode_eq_dec : EqDecision BufferInitMode.
Proof. solve_decision. Defined.

Record SharedMatrixBuffer := mkSharedMatrixBuffer {
  m_OwnerPid : Z;
  m_Endpoint : Endpoint;
  m_NumRows : Z;
  m_NumColumns : Z;
  m_BufferIndex : Z;
  mp_SharedMemory : option SharedMemory
}.

(** [uint32_t m_NumRows(1UL << m)]: a shift by 64 or more is undefined, and the
    64-bit result is narrowed. *)
Definition dimension (m : Z) : result Z :=
  if decide (m < 64) then Ok (u32 (u64 (Z.shiftl 1 m))) else Undef.

(** [m_NumRows * m_NumColumns * sizeof(uint64_t)]: the first product has 32 bits. *)
Definition bufferSize (numRows numColumns : Z) : Z := u64 (u32 (numRows * numColumns) * 8).

Definition GetRawPointer (b : SharedMatrixBuffer) : Z :=
  match mp_SharedMemory b with None => nullptr | Some sm => SharedMemory.GetRawPointer sm end.
Definition RowCount (b : SharedMatrixBuffer) : Z := m_NumRows b.
Definition ColumnCount (b : SharedMatrixBuffer) : Z := m_NumColumns b.
Definition GetName (b : SharedMatrixBuffer) : string :=
  match mp_SharedMemory b with None => "" | Some sm => SharedMemory.GetName sm end.
Definition GetElementCount (b : SharedMatrixBuffer) : Z := u32 (m_NumRows b * m_NumColumns b).
Definition GetBufferSizeInBytes (b : SharedMatrixBuffer) : Z :=
  match mp_SharedMemory b with None => 0 | Some sm => SharedMemory.GetBufferSizeInBytes sm end.

Section code.
Context `{PosixShm}.

(** [dist(gen)]: the numbers the standard generator yields, in order. *)
Variable random : Z → Z.

(** The loop of [FillWithRandom], with [n] turns left at index [i]. *)
Fixpoint fill_from (region : Z) (n : nat) (i : Z) : kernelM () :=
  match n with
  | O => mret ()
  | S n' => _ ← poke_at region (8 * i) (le_bytes 8 (random i)); fill_from region n' (i + 1)
  end.

Definition FillWithRandom (b : SharedMatrixBuffer) : kernelM () :=
  fill_from (GetRawPointer b) (Z.to_nat (GetElementCount b)) 0.

Definition lift {A} (r : result A) : kernelM A := λ k, (k, r).

Definition SharedMatrixBuffer_ctor (ownerPid : Z) (endpoint : Endpoint) (m n k : Z)
    (initMode : BufferInitMode) (nameSuffix : string) : kernelM SharedMatrixBuffer :=
  numRows ← lift (dimension m);
  numColumns ← lift (dimension n);
  let ownership := if decide (endpoint = Client) then Owner else Borrower in
  let bufferInitMode := if decide (initMode = Zero) then SharedMemory.Zero else SharedMemory.NoInit in
  let shmObjectName := SharedMatrixBuffer_CreateShmObjectName ownerPid k nameSuffix in
  let bufferSizeInBytes := bufferSize numRows numColumns in
  sm ← SharedMemory_ctor bufferSizeInBytes shmObjectName ownership bufferInitMode;
  let b := mkSharedMatrixBuffer ownerPid endpoint numRows numColumns k (Some sm) in
  _ ← (if decide (initMode = Random) then FillWithRandom b else mret ());
  mret b.
End code.

(** The matrix in the bytes of the shared object: 64-bit cells, little-endian. *)
Definition cells (bs : list Z) : list Z :=
  (λ i, le_at 8 (8 * i) bs) <$> seq 0 (length bs / 8).

(** * Cells and bytes *)

Definition cell_bytes (ws : list Z) : list Z := ws ≫= le_bytes 8.

Lemma length_cell_bytes ws : length (cell_bytes ws) = (8 * length ws)%nat.
Proof.
  unfold cell_bytes. induction ws as [|w ws IH]; [done|].
  rewrite bind_cons, length_app, length_le_bytes, IH. simpl. lia.
Qed.

Lemma cell_bytes_app ws1 ws2 : cell_bytes (ws1 ++ ws2) = cell_bytes ws1 ++ cell_bytes ws2.
Proof. apply bind_app. Qed.

Lemma cell_bytes_cons w ws : cell_bytes (w :: ws) = le_bytes 8 w ++ cell_bytes ws.
Proof. apply bind_cons. Qed.

Lemma cell_bytes_zeros n : cell_bytes (replicate n 0) = replicate (8 * n) 0.
Proof.
  induction n as [|n IH]; [done|]. unfold cell_bytes in *. rewrite replicate_S, bind_cons, IH.
  rewrite le_bytes_0, <-replicate_add. f_equal. lia.
Qed.

Lemma le_at_app_r n off l1 l2 :
  le_at n (length l1 + off) (l1 ++ l2) = le_at n off l2.
Proof.
  unfold le_at. rewrite drop_app_ge by lia. by replace (length l1 + off - length l1)%nat with off by lia.
Qed.

(** The cells of an encoded matrix are the matrix. *)
Lemma cells_cell_bytes ws : Forall is_u64 ws → cells (cell_bytes ws) = ws.
Proof.
  intros Hws. unfold cells. rewrite length_cell_bytes, Nat.mul_comm, Nat.div_mul by done.
  apply list_eq. intros i. rewrite list_lookup_fmap.
  destruct (decide (i < length ws)%nat) as [Hi|Hi].
  2:{ rewrite !lookup_ge_None_2; [done|lia|rewrite length_seq; lia]. }
  destruct (lookup_lt_is_Some_2 ws i Hi) as [w Hw]. rewrite lookup_seq_lt, Hw by done. cbn [fmap option_fmap option_map]. f_equal. rewrite Nat.add_0_l.
  rewrite <-(take_drop_middle ws i w Hw), cell_bytes_app.
  assert (8 * i = length (cell_bytes (take i ws)) + 0)%nat as ->
    by (rewrite length_cell_bytes, length_take; lia).
  rewrite le_at_app_r. unfold cell_bytes. rewrite bind_cons. unfold le_at.
  rewrite drop_0, take_app_le, take_ge by (rewrite length_le_bytes; lia).
  apply le_value_small. eapply Forall_lookup_1 in Hws; [|exact Hw]. apply Hws.
Qed.

(** Overwriting the bytes of one cell. *)
Lemma splice_cell ws i v :
  (i < length ws)%nat → splice (8 * i) (le_bytes 8 v) (cell_bytes ws) = cell_bytes (<[i := v]> ws).
Proof.
  intros Hi. destruct (lookup_lt_is_Some_2 ws i Hi) as [w Hw].
  assert (length (cell_bytes (take i ws)) = (8 * i)%nat) as Hl
    by (rewrite length_cell_bytes, length_take; lia).
  rewrite insert_take_drop by done. rewrite <-(take_drop_middle ws i w Hw) at 1.
  rewrite !cell_bytes_app, !cell_bytes_cons. unfold splice. rewrite length_le_bytes, <-Hl, take_app_length.
  f_equal. f_equal. rewrite <-drop_drop, drop_app_length.
  rewrite <-(length_le_bytes 8 w) at 1. apply drop_app_length.
Qed.

(** * The random fill *)

Section fill.
Context (random : Z → Z).

(** [n] turns from index [i] overwrite [n] cells, stay inside the object and
    touch nothing else. *)
Lemma fill_from_spec p x len n : ∀ i ws k,
  mappings k !! p = Some (x, len) → objects k !! x = Some (cell_bytes ws) →
  0 ≤ i → i + Z.of_nat n ≤ zlen ws → 8 * zlen ws ≤ len →
  ∃ k', fill_from random p n i k = (k', Ok ()) ∧ names k' = names k ∧ fds k' = fds k ∧
    mappings k' = mappings k ∧
    objects k' = <[x := cell_bytes (take (Z.to_nat i) ws ++ (random <$> seqZ i (Z.of_nat n)) ++
                                    drop (Z.to_nat i + n) ws)]> (objects k).
Proof.
  induction n as [|n IH]; intros i ws k Hp Hx Hi Hn Hlen.
  - exists k. split_and!; try done. rewrite Nat.add_0_r. simpl. rewrite take_drop. symmetry. by apply insert_id.
  - cbn [fill_from]. unfold mbind, stM_bind, poke_at, poke. rewrite Hp, Hx.
    assert (zlen (cell_bytes ws) = 8 * zlen ws) as Hl by (unfold zlen; rewrite length_cell_bytes; lia).
    assert (zlen (le_bytes 8 (random i)) = 8) as Hl8 by (unfold zlen; by rewrite length_le_bytes).
    rewrite decide_True by lia.
    replace (Z.to_nat (8 * i)) with (8 * Z.to_nat i)%nat by lia.
    rewrite splice_cell by (unfold zlen in *; lia).
    destruct (IH (i + 1) (<[Z.to_nat i := random i]> ws)
      (mkKernel (names k) (<[x := cell_bytes (<[Z.to_nat i := random i]> ws)]> (objects k)) (fds k)
         (mappings k) (errno k) (world k))) as (k' & Hrun & Hns & Hfs & Hms & Hos);
      [done|apply lookup_insert_eq|lia|unfold zlen in *; rewrite length_insert; lia
      |unfold zlen in *; rewrite length_insert; lia|].
    exists k'. split_and!; try done. rewrite Hos. cbn [objects]. rewrite insert_insert_eq. do 2 f_equal.
    replace (Z.to_nat (i + 1)) with (S (Z.to_nat i)) by lia.
    assert (<[Z.to_nat i := random i]> ws !! Z.to_nat i = Some (random i)) as Hw
      by (apply list_lookup_insert_eq; unfold zlen in *; lia).
    rewrite (take_S_r _ _ _ Hw), take_insert_ge by lia. rewrite <-app_assoc. f_equal.
    rewrite drop_insert_lt by lia.
    replace (S (Z.to_nat i) + n)%nat with (Z.to_nat i + S n)%nat by lia.
    rewrite (seqZ_cons i (Z.of_nat (S n))) by lia. rewrite fmap_cons. simpl. f_equal. f_equal.
    + do 2 f_equal; lia.
Qed.

(** Filling a whole matrix. *)
Lemma FillWithRandom_spec b sm x n k :
  mp_SharedMemory b = Some sm → mappings k !! m_RawPointer sm = Some (x, 8 * Z.of_nat n) →
  objects k !! x = Some (cell_bytes (replicate n 0)) → GetElementCount b = Z.of_nat n →
  ∃ k', FillWithRandom random b k = (k', Ok ()) ∧ names k' = names k ∧ fds k' = fds k ∧
    mappings k' = mappings k ∧
    objects k' = <[x := cell_bytes (random <$> seqZ 0 (Z.of_nat n))]> (objects k).
Proof.
  intros Hsm Hp Hx Hc. unfold FillWithRandom, GetRawPointer, SharedMemory.GetRawPointer.
  rewrite Hsm, Hc, Nat2Z.id.
  destruct (fill_from_spec _ _ _ n 0 _ _ Hp Hx) as (k' & Hrun & Hns & Hfs & Hms & Hos);
    [lia|rewrite zlen_replicate; lia..|].
  exists k'. split_and!; try done. rewrite Hos. simpl.
  by rewrite drop_replicate, Nat.sub_diag, app_nil_r.
Qed.
End fill.

(** * Dimensions *)

Lemma dimension_small m : 0 ≤ m < 32 → dimension m = Ok (2 ^ m).
Proof.
  intros Hm. unfold dimension. rewrite decide_True by lia. rewrite Z.shiftl_1_l.
  assert (2 ^ m < 2 ^ 32) by (apply Z.pow_lt_mono_r; lia).
  by rewrite u64_small, u32_small by lia.
Qed.

Lemma dimension_large m : 32 ≤ m < 64 → dimension m = Ok 0.
Proof.
  intros Hm. unfold dimension. rewrite decide_True by lia. rewrite Z.shiftl_1_l.
  assert (2 ^ m < 2 ^ 64) by (apply Z.pow_lt_mono_r; lia).
  rewrite u64_small by lia. unfold u32. replace m with ((m - 32) + 32) by lia.
  rewrite Z.pow_add_r, Z.mod_mul by lia. done.
Qed.

(** The size in bytes is exact when the matrix has fewer than [2^32] cells, and
    zero otherwise. *)
Lemma bufferSize_cases m n r c :
  0 ≤ m < 64 → 0 ≤ n < 64 → dimension m = Ok r → dimension n = Ok c →
  (m + n < 32 ∧ r = 2 ^ m ∧ c = 2 ^ n ∧ u32 (r * c) = 2 ^ (m + n) ∧ bufferSize r c = 8 * 2 ^ (m + n)) ∨
  (32 ≤ m + n ∧ bufferSize r c = 0).
Proof.
  intros Hm Hn Hr Hc. unfold bufferSize.
  destruct (decide (32 ≤ m)); [rewrite dimension_large in Hr by lia; injection Hr as <-; right;
    split; [lia|by rewrite Z.mul_0_l]|].
  destruct (decide (32 ≤ n)); [rewrite dimension_large in Hc by lia; injection Hc as <-; right;
    split; [lia|by rewrite Z.mul_0_r]|].
  rewrite dimension_small in Hr, Hc by lia. injection Hr as <-. injection Hc as <-.
  rewrite <-Z.pow_add_r by lia. destruct (decide (m + n < 32)) as [Hlt|Hge].
  - left. assert (2 ^ (m + n) < 2 ^ 32) by (apply Z.pow_lt_mono_r; lia).
    rewrite u32_small by lia. rewrite u64_small by lia. split_and!; done || lia.
  - right. split; [lia|]. unfold u32. replace (m + n) with ((m + n - 32) + 32) by lia.
    rewrite Z.pow_add_r, Z.mod_mul by lia. done.
Qed.

(** * The constructor *)

(** The cells an owner leaves behind. *)
Definition initial_cells (random : Z → Z) (initMode : BufferInitMode) (count : Z) : list Z :=
  if decide (initMode = Random) then random <$> seqZ 0 count else replicate (Z.to_nat count) 0.

Lemma Forall_initial_cells random initMode count :
  (∀ i, is_u64 (random i)) → Forall is_u64 (initial_cells random initMode count).
Proof.
  intros Hr. unfold initial_cells. case_decide.
  - apply Forall_fmap, Forall_true. intros i. apply Hr.
  - by apply Forall_replicate.
Qed.

Section ctor.
Context `{PosixShmSpec} (random : Z → Z).
Context (pid m n idx : Z) (suffix : string).
Hypothesis Hm : 0 ≤ m < 64.
Hypothesis Hn : 0 ≤ n < 64.

Definition buffer_ok (endpoint : Endpoint) (k' : kernel) (b : SharedMatrixBuffer) : Prop :=
  m_Endpoint b = endpoint ∧ m + n < 32 ∧
  RowCount b = 2 ^ m ∧ ColumnCount b = 2 ^ n ∧ GetElementCount b = 2 ^ (m + n) ∧
  GetBufferSizeInBytes b = 8 * 2 ^ (m + n) ∧
  GetName b = SharedMatrixBuffer_CreateShmObjectName pid idx suffix ∧
  ∃ x, names k' !! GetName b = Some x ∧
       mappings k' !! GetRawPointer b = Some (x, 8 * 2 ^ (m + n)).

(** The steps of a construction. *)
Lemma ctor_steps endpoint mode k k' r :
  SharedMatrixBuffer_ctor random pid endpoint m n idx mode suffix k = (k', r) →
  (∃ what, r = Throw (RuntimeError what)) ∨
  ∃ k1 sm, m + n < 32 ∧
    let b := mkSharedMatrixBuffer pid endpoint (2 ^ m) (2 ^ n) idx (Some sm) in
    SharedMemory_ctor (8 * 2 ^ (m + n)) (SharedMatrixBuffer_CreateShmObjectName pid idx suffix)
      (if decide (endpoint = Client) then Owner else Borrower)
      (if decide (mode = Zero) then SharedMemory.Zero else SharedMemory.NoInit) k = (k1, Ok sm) ∧
    (_ ← (if decide (mode = Random) then FillWithRandom random b else mret ());
     mret b) k1 = (k', r).
Proof.
  unfold SharedMatrixBuffer_ctor. intros Hrun.
  assert (∀ m, 0 ≤ m < 64 → ∃ d, dimension m = Ok d) as Hdim.
  { intros m0 Hm0. destruct (decide (m0 < 32)).
    - eexists. apply dimension_small. lia.
    - eexists. apply dimension_large. lia. }
  destruct (Hdim m Hm) as [rows Hr], (Hdim n Hn) as [cols Hc].
  unfold mbind at 1, stM_bind at 1, lift in Hrun. rewrite Hr in Hrun.
  unfold mbind at 1, stM_bind at 1 in Hrun. rewrite Hc in Hrun. cbv zeta in Hrun.
  destruct (bufferSize_cases m n rows cols Hm Hn Hr Hc) as [(Hlt & -> & -> & Hcount & Hsize)|(Hge & Hsize)].
  - rewrite Hsize in Hrun. apply stM_bind_cases in Hrun as [(k1 & sm & Hsm & Hrun)|[(e & Hsm & ->)|[[Hsm ?]|[Hsm ?]]]].
    + right. exists k1, sm. done.
    + apply SharedMemory_ctor_contract in Hsm. left. inversion Hsm; subst; eauto.
    + apply SharedMemory_ctor_contract in Hsm. inversion Hsm.
    + apply SharedMemory_ctor_contract in Hsm. inversion Hsm.
  - rewrite Hsize in Hrun. left.
    apply stM_bind_cases in Hrun as [(k1 & sm & Hsm & Hrun)|[(e & Hsm & ->)|[[Hsm ?]|[Hsm ?]]]];
      apply SharedMemory_ctor_contract in Hsm; inversion Hsm; subst; eauto; lia.
Qed.

Lemma mret_unit_bind {A} (a : A) (k : kernel) : (_ ← (mret () : kernelM ()); (mret a : kernelM A)) k = (k, Ok a).
Proof. done. Qed.

(** An owner's construction. *)
Lemma ctor_client mode k k' r :
  SharedMatrixBuffer_ctor random pid Client m n idx mode suffix k = (k', r) →
  (∃ what, r = Throw (RuntimeError what)) ∨
  ∃ b x, r = Ok b ∧ buffer_ok Client k' b ∧ names k' !! GetName b = Some x ∧
    mappings k' !! GetRawPointer b = Some (x, 8 * 2 ^ (m + n)) ∧
    objects k' !! x = Some (cell_bytes (initial_cells random mode (2 ^ (m + n)))).
Proof.
  intros [?|(k1 & sm & Hlt & Hsm & Hrun)]%ctor_steps; [by left|]. right.
  rewrite decide_True in Hsm by done.
  apply SharedMemory_ctor_contract in Hsm.
  inversion Hsm as [k2 fd x p Hsz Hname Hobj Hp ? Hns Hos Hfs Hms| | | | |]; subst.
  set (b := mkSharedMatrixBuffer _ _ _ _ _ _) in *.
  assert (0 < 2 ^ (m + n) < 2 ^ 32) as Hpow by (split; [|apply Z.pow_lt_mono_r]; lia).
  assert (GetElementCount b = 2 ^ (m + n)) as Hcount.
  { unfold GetElementCount. simpl. rewrite <-Z.pow_add_r by lia. apply u32_small. lia. }
  assert (names k1 !! GetName b = Some x) as Hname1 by (simpl; rewrite Hns; apply lookup_insert_eq).
  assert (mappings k1 !! GetRawPointer b = Some (x, 8 * 2 ^ (m + n))) as Hmap1
    by (simpl; rewrite Hms; apply lookup_insert_eq).
  assert (objects k1 !! x = Some (cell_bytes (replicate (Z.to_nat (2 ^ (m + n))) 0))) as Hobj1.
  { rewrite Hos, lookup_insert_eq, cell_bytes_zeros. do 2 f_equal. lia. }
  assert (∃ k2, k2 = k' ∧ r = Ok b ∧ names k2 = names k1 ∧ mappings k2 = mappings k1 ∧
    objects k2 !! x = Some (cell_bytes (initial_cells random mode (2 ^ (m + n)))))
    as (k2 & <- & -> & Hn2 & Hm2 & Ho2).
  { unfold initial_cells. case_decide as Hmode.
    - destruct (FillWithRandom_spec random b _ x (Z.to_nat (2 ^ (m + n))) k1 eq_refl)
        as (k2 & Hfill & Hn2 & Hf2 & Hm2 & Ho2);
        [by rewrite Z2Nat.id by lia|done|rewrite Z2Nat.id; [done|lia]|].
      unfold mbind, stM_bind in Hrun. rewrite Hfill in Hrun. injection Hrun as <- <-.
      exists k2. split_and!; try done. rewrite Ho2, lookup_insert_eq. by rewrite Z2Nat.id by lia.
    - rewrite mret_unit_bind in Hrun. injection Hrun as <- <-. eauto 10. }
  exists b, x. rewrite Hn2, Hm2. split_and!; try done.
  unfold buffer_ok. rewrite Hn2, Hm2. split_and!; try done. by exists x.
Qed.

(** A borrower's construction maps the object that has the name, or makes one. *)
Lemma ctor_server mode k k' r :
  mode ≠ Random →
  SharedMatrixBuffer_ctor random pid Server m n idx mode suffix k = (k', r) →
  (∃ what, r = Throw (RuntimeError what)) ∨
  ∃ b, r = Ok b ∧ buffer_ok Server k' b ∧
    (∀ x, names k !! GetName b = Some x →
       names k' = names k ∧ objects k' = objects k ∧
       mappings k !! GetRawPointer b = None ∧
       mappings k' = <[GetRawPointer b := (x, 8 * 2 ^ (m + n))]> (mappings k)).
Proof.
  intros Hmode [?|(k1 & sm & Hlt & Hsm & Hrun)]%ctor_steps; [by left|]. right.
  rewrite decide_False in Hsm by done.
  rewrite (decide_False (P := mode = Random)), mret_unit_bind in Hrun by done. injection Hrun as <- <-.
  eexists. split; [done|]. apply SharedMemory_ctor_contract in Hsm.
  assert (0 < 2 ^ (m + n) < 2 ^ 32) as Hpow by (split; [|apply Z.pow_lt_mono_r]; lia).
  inversion Hsm as [| |k2 fd x p Hsz Hname Hp ? Hns Hos Hfs Hms|k2 fd x p Hsz Hname Hobj Hp ? Hns Hos Hfs Hms| |]; subst.
  all: unfold GetName, SharedMemory.GetName, GetRawPointer, SharedMemory.GetRawPointer; simpl.
  all: split; [|intros y Hy; rewrite Hname in Hy; first [discriminate Hy|injection Hy as <-]; done].
  all: unfold buffer_ok, GetElementCount; simpl; rewrite <-Z.pow_add_r, u32_small by lia.
  all: split_and!; try done; exists x; rewrite Hns, Hms, ?lookup_insert_eq; done.
Qed.
End ctor.

(** * Properties *)

(** C25: A matrix buffer is never smaller than its dimensions say.  Whatever the
    exponents below 64, constructing an owner's buffer, or a borrower's without
    random filling, either throws a [runtime_error] or yields a buffer of
    [2^m] by [2^n] cells whose counters are exact and whose mapping has exactly
    [8 * 2^(m+n)] bytes; the 32-bit wrap-around of the size is never silent,
    since a matrix of [2^32] cells or more always throws. *)
Theorem SharedMatrixBuffer_ctor_exact `{PosixShmSpec} random pid endpoint m n idx mode suffix k k' r :
  0 ≤ m < 64 → 0 ≤ n < 64 → (mode = Random → endpoint = Client) →
  SharedMatrixBuffer_ctor random pid endpoint m n idx mode suffix k = (k', r) →
  (∃ what, r = Throw (RuntimeError what)) ∨
  (∃ b, r = Ok b ∧ buffer_ok pid m n idx suffix endpoint k' b).
Proof.
  intros Hm Hn Hmode Hrun. destruct endpoint.
  - assert (mode ≠ Random) by (intros ->; by discriminate Hmode).
    apply ctor_server in Hrun as [?|(b & ? & ? & _)]; eauto.
  - apply ctor_client in Hrun as [?|(b & x & ? & ? & _)]; eauto.
Qed.

Lemma SharedMatrixBuffer_ctor_exact_witness :
  (∃ what, (SharedMatrixBuffer_ctor (λ i, i) 9 Client 20 20 0 Random "" boot).2 =
     Throw (RuntimeError what)) ∨
  (∃ b, (SharedMatrixBuffer_ctor (λ i, i) 9 Client 20 20 0 Random "" boot).2 = Ok b ∧
     buffer_ok 9 20 20 0 "" Client (SharedMatrixBuffer_ctor (λ i, i) 9 Client 20 20 0 Random "" boot).1 b).
Proof.
  apply (SharedMatrixBuffer_ctor_exact (λ i, i) 9 Client 20 20 0 Random "" boot);
    [done|done|done|apply surjective_pairing].
Defined.

(** The server reads the matrix the client made.  When the client's
    construction and then the server's, with the same process id, dimensions,
    index and suffix, both succeed, the two buffers agree on their dimensions and
    are different addresses of one object, whose [2^(m+n)] cells are the random
    numbers in order of generation, or zeros if none were asked for. *)
Theorem matrix_shared `{PosixShmSpec} random pid m n idx suffix mode1 mode2 k k1 k2 client server :
  0 ≤ m < 64 → 0 ≤ n < 64 → mode2 ≠ Random → (∀ i, is_u64 (random i)) →
  SharedMatrixBuffer_ctor random pid Client m n idx mode1 suffix k = (k1, Ok client) →
  SharedMatrixBuffer_ctor random pid Server m n idx mode2 suffix k1 = (k2, Ok server) →
  RowCount client = RowCount server ∧ ColumnCount client = ColumnCount server ∧
  GetRawPointer client ≠ GetRawPointer server ∧
  ∃ x bs, mappings k2 !! GetRawPointer client = Some (x, zlen bs) ∧
    mappings k2 !! GetRawPointer server = Some (x, zlen bs) ∧ objects k2 !! x = Some bs ∧
    cells bs = initial_cells random mode1 (RowCount server * ColumnCount server).
Proof.
  intros Hm Hn Hmode Hr [[? [=]]|(b1 & x & [= <-] & (_ & Hlt & Hr1 & Hc1 & _ & _ & Hn1 & _) & Hname & Hmap & Hobj)]%ctor_client
    [[? [=]]|(b2 & [= <-] & (_ & _ & Hr2 & Hc2 & _ & _ & Hn2 & _) & Hsame)]%ctor_server; [|done..].
  rewrite Hn1, <-Hn2 in Hname. destruct (Hsame x Hname) as (Hns & Hos & Hfree & Hms).
  rewrite Hr1, Hr2, Hc1, Hc2, <-Z.pow_add_r by lia.
  assert (GetRawPointer client ≠ GetRawPointer server) as Hne by (intros Heq; congruence).
  assert (0 < 2 ^ (m + n)) by lia.
  assert (zlen (cell_bytes (initial_cells random mode1 (2 ^ (m + n)))) = 8 * 2 ^ (m + n)) as Hlen.
  { unfold zlen, initial_cells. rewrite length_cell_bytes.
    case_decide; rewrite ?length_fmap, ?length_seqZ, ?length_replicate; lia. }
  split_and!; try done. exists x, (cell_bytes (initial_cells random mode1 (2 ^ (m + n)))).
  rewrite Hlen, Hms, lookup_insert_eq, lookup_insert_ne, Hos by done. split_and!; try done.
  by apply cells_cell_bytes, Forall_initial_cells.
Qed.

Lemma matrix_shared_witness :
  ∃ k2 client server, RowCount client = RowCount server ∧ ColumnCount client = ColumnCount server ∧
  GetRawPointer client ≠ GetRawPointer server ∧
  ∃ x bs, mappings k2 !! GetRawPointer client = Some (x, zlen bs) ∧
    mappings k2 !! GetRawPointer server = Some (x, zlen bs) ∧ objects k2 !! x = Some bs ∧
    cells bs = initial_cells (λ i, u64 (7 * i)) Random (RowCount server * ColumnCount server).
Proof.
  eexists _, _, _. eapply (matrix_shared (λ i, u64 (7 * i)) 9 1 2 0 "" Random NoInit boot);
    [done|done|done|intros i; apply u64_range|vm_compute; reflexivity|vm_compute; reflexivity].
Defined.
