(* ===== verification/FutexSignaller.v ===== *)
(** The constructor of [FutexSignaller] ([src/lib/futex/FutexSignaller.cpp]): the
    shared object that holds the futex word, and the state in which waiter and
    waker find it.  The operations on the word are in [Futex]. *)

From S2P Require Import Prelude ShmNames PosixShm SharedMemory Bytes.
#[local] Open Scope Z_scope.

(** * The code *)

Inductive Role := Waker | Waiter.

#[export] Instance Role_eq_dec : EqDecision Role.
Proof. solve_decision. Defined.

(** [m_RawPointer] is the address of the word. *)
Record FutexSignaller := mkFutexSignaller {
  m_OwnerPid : Z;
  m_Role : Role;
  m_RawPointer : Z;
  mp_SharedMemory : SharedMemory
}.

Section code.
Context `{PosixShm}.

(** [cacheLine] is what [MemoryUtils::GetCacheLineSize] returned. *)
Definition FutexSignaller_ctor (cacheLine ownerPid : Z) (role : Role) (nameSuffix : string) :
    kernelM FutexSignaller :=
  let ownership := if decide (role = Waiter) then Owner else Borrower in
  let bufferInitMode := if decide (role = Waiter) then Zero else NoInit in
  let shmObjectName := FutexSignaller_CreateShmObjectName ownerPid nameSuffix in
  let bufferSizeInBytes := if decide (cacheLine = 0) then 64 else cacheLine in
  sm ← SharedMemory_ctor bufferSizeInBytes shmObjectName ownership bufferInitMode;
  let ptr := GetRawPointer sm in
  _ ← (if decide (role = Waiter) then poke_at ptr 0 (le_bytes 4 0) else mret ());
  mret (mkFutexSignaller ownerPid role ptr sm).
End code.

(** The futex word in the bytes of the shared object. *)
Definition word_view (bs : list Z) : Z := le_at 4 0 bs.

(** * What the constructor establishes *)

Section proofs.
Context `{PosixShmSpec}.
Context (cls pid : Z) (suffix : string).
Hypothesis Hcls : cls = 0 ∨ 4 ≤ cls.

Definition word_size : Z := if decide (cls = 0) then 64 else cls.

Lemma word_size_ge : 4 ≤ word_size.
Proof. unfold word_size. case_decide; lia. Qed.

Lemma signaller_ctor_inv role k k' h :
  FutexSignaller_ctor cls pid role suffix k = (k', Ok h) →
  m_Role h = role ∧ m_RawPointer h = GetRawPointer (mp_SharedMemory h) ∧
  ∃ k1, SharedMemory_ctor word_size (FutexSignaller_CreateShmObjectName pid suffix)
      (if decide (role = Waiter) then Owner else Borrower)
      (if decide (role = Waiter) then Zero else NoInit) k = (k1, Ok (mp_SharedMemory h)) ∧
    (if decide (role = Waiter) then poke_at (m_RawPointer h) 0 (le_bytes 4 0)
     else mret () : kernelM ()) k1 = (k', Ok ()).
Proof.
  unfold FutexSignaller_ctor. cbv zeta. intros Hrun.
  apply stM_bind_cases in Hrun as [(k1 & sm & Hsm & Hrun)|[(? & _ & ?)|[[_ ?]|[_ ?]]]]; try done.
  apply stM_bind_cases in Hrun as [(k2 & [] & Hpoke & Hrun)|[(? & _ & ?)|[[_ ?]|[_ ?]]]]; try done.
  injection Hrun as <- <-. split_and!; [done|done|]. by exists k1.
Qed.

(** A waiter leaves a zero-filled object under the futex's name. *)
Lemma waiter_ctor k k' h :
  FutexSignaller_ctor cls pid Waiter suffix k = (k', Ok h) →
  ∃ x, names k' !! FutexSignaller_CreateShmObjectName pid suffix = Some x ∧
    mappings k' !! m_RawPointer h = Some (x, word_size) ∧
    objects k' !! x = Some (replicate (Z.to_nat word_size) 0).
Proof.
  intros (_ & -> & k1 & Hsm & Hpoke)%signaller_ctor_inv. pose proof word_size_ge as Hsize.
  rewrite decide_True in Hsm by done. rewrite decide_True in Hpoke by done.
  apply SharedMemory_ctor_contract in Hsm. revert Hsm Hpoke.
  generalize (mp_SharedMemory h). intros sm Hsm Hpoke.
  inversion Hsm as [k2 fd x p Hsz Hname Hobj Hp ? Hn Ho Hf Hm| | | | |]; subst.
  unfold GetRawPointer in *. cbn [SharedMemory.m_RawPointer] in *.
  assert (mappings k1 !! p = Some (x, word_size)) as Hmap by (rewrite Hm; apply lookup_insert_eq).
  assert (objects k1 !! x = Some (replicate (Z.to_nat word_size) 0)) as Hobj1
    by (rewrite Ho; apply lookup_insert_eq).
  destruct (poke_zeros k1 p x _ 0 4 Hmap Hobj1) as (k3 & E3 & Hn3 & Ho3 & Hf3 & Hm3); [lia|lia|].
  rewrite (le_bytes_0 4) in Hpoke. change (Z.of_nat 0) with 0 in E3. rewrite E3 in Hpoke.
  injection Hpoke as <-. exists x. rewrite Hn3, Hn, Hm3, Ho3. split_and!; [apply lookup_insert_eq|done..].
Qed.
End proofs.

(** * Properties *)

(** The client's waiter and then the server's waker are attached to one futex
    word, at different addresses of the same object, and the word is zero: the
    state in which the machine of [Futex] starts. *)
Theorem futex_ready `{PosixShmSpec} cls pid suffix k k1 k2 hw hk :
  cls = 0 ∨ 4 ≤ cls →
  FutexSignaller_ctor cls pid Waiter suffix k = (k1, Ok hw) →
  FutexSignaller_ctor cls pid Waker suffix k1 = (k2, Ok hk) →
  m_RawPointer hw ≠ m_RawPointer hk ∧
  ∃ x bs, mappings k2 !! m_RawPointer hw = Some (x, zlen bs) ∧
    mappings k2 !! m_RawPointer hk = Some (x, zlen bs) ∧ objects k2 !! x = Some bs ∧
    4 ≤ zlen bs ∧ word_view bs = 0.
Proof.
  intros Hcls (x & Hx & Hmap & Hobj)%waiter_ctor (_ & -> & k3 & Hsm & Hnop)%signaller_ctor_inv; [|done].
  pose proof (word_size_ge _ Hcls) as Hsize. injection Hnop as <-.
  apply SharedMemory_ctor_contract in Hsm. revert Hsm. generalize (mp_SharedMemory hk). intros sm Hsm.
  inversion Hsm as [| |k4 fd y p Hsz Hname Hp ? Hn Ho Hf Hm|k4 fd y p Hsz Hname| |]; subst; [|congruence].
  assert (y = x) as -> by congruence. unfold GetRawPointer. simpl.
  assert (m_RawPointer hw ≠ p) as Hne by (intros Hq; congruence).
  split; [done|]. exists x, (replicate (Z.to_nat (word_size cls)) 0).
  rewrite zlen_replicate, Z2Nat.id, Hm, Ho, lookup_insert_eq, lookup_insert_ne by (done || lia).
  split_and!; [done|done|done|done|]. apply le_at_zeros.
Qed.

Lemma futex_ready_witness :
  ∃ k2 hw hk, m_RawPointer hw ≠ m_RawPointer hk ∧
  ∃ x bs, mappings k2 !! m_RawPointer hw = Some (x, zlen bs) ∧
    mappings k2 !! m_RawPointer hk = Some (x, zlen bs) ∧ objects k2 !! x = Some bs ∧
    4 ≤ zlen bs ∧ word_view bs = 0.
Proof.
  eexists _, _, _. eapply (futex_ready 0 77 "" boot);
    [by left|vm_compute; reflexivity|vm_compute; reflexivity].
Defined.
