(* ===== verification/Ownership.v ===== *)
(** What the shared objects of client and server own: the effect of every
    constructor of a shared object on the system, in one form for owners and one
    for borrowers, on success and on failure, and the effect of their
    destructors.  [Release] and [Workspace] build on it. *)

From S2P Require Import Prelude ShmNames PosixShm SharedMemory Bytes SpscQueue QueueCtor SharedMatrixBuffer FutexSignaller.
#[local] Open Scope Z_scope.

Abbreviation ptr := SharedMemory.GetRawPointer.
Abbreviation shm_name := SharedMemory.GetName.

(** * Effects *)

(** An owner's object: a fresh object with contents [bs] under a new name, mapped
    at a fresh address. *)
Record created (k k' : kernel) (sm : SharedMemory) (x : Z) (bs : list Z) : Prop := {
  cr_owner : m_Ownership sm = Owner;
  cr_ptr : 0 < ptr sm;
  cr_name : names k !! shm_name sm = None;
  cr_object : objects k !! x = None;
  cr_address : mappings k !! ptr sm = None;
  cr_names : names k' = <[shm_name sm := x]> (names k);
  cr_objects : objects k' = <[x := bs]> (objects k);
  cr_mappings : mappings k' = <[ptr sm := (x, zlen bs)]> (mappings k);
  cr_fds : fds k' = fds k
}.

(** A failed owner. *)
Record spared (k k' : kernel) : Prop := {
  sp_names : names k' = names k;
  sp_mappings : mappings k' = mappings k;
  sp_fds : fds k' = fds k;
  sp_objects : objects k ⊆ objects k'
}.

(** A borrower's mapping of [size] bytes; nothing else changes when the name
    existed. *)
Record borrowed (k k' : kernel) (sm : SharedMemory) (size : Z) : Prop := {
  bo_borrower : m_Ownership sm = Borrower;
  bo_ptr : 0 < ptr sm;
  bo_address : mappings k !! ptr sm = None;
  bo_fds : fds k' = fds k;
  bo_mapped : ∃ x, mappings k' = <[ptr sm := (x, size)]> (mappings k) ∧
    ∀ y, names k !! shm_name sm = Some y → y = x ∧ names k' = names k ∧ objects k' = objects k
}.

(** How an owner's or a borrower's constructor ends. *)
Definition owner_ends {A} (mem : A → option SharedMemory) (name : string) (bs : list Z) (k k' : kernel)
    (r : result A) : Prop :=
  (∃ a sm x, r = Ok a ∧ mem a = Some sm ∧ shm_name sm = name ∧ created k k' sm x bs) ∨
  (∃ e, r = Throw e ∧ spared k k').

Definition borrower_ends {A} (mem : A → option SharedMemory) (name : string) (size : Z) (k k' : kernel)
    (r : result A) : Prop :=
  (∃ a sm, r = Ok a ∧ mem a = Some sm ∧ shm_name sm = name ∧ borrowed k k' sm size) ∨
  (∃ e, r = Throw e ∧ mappings k' = mappings k ∧ fds k' = fds k).

Lemma created_unchanged k k1 k2 sm x bs : created k k1 sm x bs → unchanged k1 k2 → created k k2 sm x bs.
Proof. intros [] (? & ? & ? & ?). split; congruence. Qed.

Section constructors.
Context `{PosixShmSpec}.

Lemma shm_owner_ends size name mode k k' r :
  SharedMemory_ctor size name Owner mode k = (k', r) →
  owner_ends Some name (replicate (Z.to_nat size) 0) k k' r.
Proof.
  intros Hrun%SharedMemory_ctor_contract. inversion Hrun; subst; [left|right].
  - eexists _, _, x. split_and!; [done..|]. split; simpl; try done. rewrite zlen_replicate, Z2Nat.id by lia. done.
  - eexists. split; [done|]. by split.
Qed.

Lemma shm_borrower_ends size name mode k k' r :
  SharedMemory_ctor size name Borrower mode k = (k', r) → borrower_ends Some name size k k' r.
Proof.
  intros Hrun%SharedMemory_ctor_contract. inversion Hrun; subst.
  - left. eexists _, _. split_and!; [done..|]. split; simpl; try done. exists x. split; [done|].
    intros y Hy. split_and!; congruence.
  - left. eexists _, _. split_and!; [done..|]. split; simpl; try done. exists x. split; [done|].
    intros y Hy. congruence.
  - right. eexists. split; [done|]. unfold unchanged in *. naive_solver.
  - right. by eexists.
Qed.

(** Writing zeros into a new object of zeros. *)
Lemma created_poke k k1 k2 sm x n off m r :
  created k k1 sm x (replicate n 0) → (0 < n)%nat → (off + m ≤ n)%nat →
  poke_at (ptr sm) (Z.of_nat off) (replicate m 0) k1 = (k2, r) →
  r = Ok () ∧ created k k2 sm x (replicate n 0).
Proof.
  intros Hc Hn Hoff Hrun. destruct (poke_zeros k1 (ptr sm) x (Z.of_nat n) off m) as (k3 & Hk & Hun).
  - rewrite (cr_mappings _ _ _ _ _ Hc), lookup_insert_eq, zlen_replicate. done.
  - rewrite (cr_objects _ _ _ _ _ Hc), lookup_insert_eq, Nat2Z.id. done.
  - lia.
  - lia.
  - rewrite Hk in Hrun. injection Hrun as <- <-. split; [done|]. by eapply created_unchanged.
Qed.

Lemma waiter_ends cls pid suffix k k' r :
  cls = 0 ∨ 4 ≤ cls → FutexSignaller_ctor cls pid Waiter suffix k = (k', r) →
  owner_ends (λ h, Some (FutexSignaller.mp_SharedMemory h)) (FutexSignaller_CreateShmObjectName pid suffix)
    (replicate (Z.to_nat (word_size cls)) 0) k k' r ∧
  ∀ h, r = Ok h → FutexSignaller.m_RawPointer h = ptr (FutexSignaller.mp_SharedMemory h).
Proof.
  intros Hcls Hrun. pose proof (word_size_ge cls Hcls) as Hsize. unfold FutexSignaller_ctor in Hrun.
  repeat rewrite (decide_True (P := Waiter = Waiter)) in Hrun by done. fold (word_size cls) in Hrun. cbv zeta in Hrun.
  apply stM_bind_cases in Hrun as [(k1 & sm & Hsm & Hrun)|[(e & Hsm & ->)|[[Hsm ->]|[Hsm ->]]]];
    apply shm_owner_ends in Hsm as [(a & sm' & x & Hr & [= <-] & Hname & Hc)|(e' & Hr & Hsp)]; try done.
  2:{ split; [right; by exists e|done]. }
  injection Hr as <-. rewrite (le_bytes_0 4) in Hrun. unfold mbind, stM_bind in Hrun.
  rewrite decide_True in Hrun by done.
  destruct (poke_at _ _ _ k1) as [k2 r2] eqn:Hpoke.
  apply (created_poke _ _ _ _ _ _ 0 4 _ Hc) in Hpoke as [-> Hc2]; [|lia..]. injection Hrun as <- <-.
  split; [left; by eexists _, sm, x|]. by intros h [= <-].
Qed.

Lemma waker_ends cls pid suffix k k' r :
  FutexSignaller_ctor cls pid Waker suffix k = (k', r) →
  borrower_ends (λ h, Some (FutexSignaller.mp_SharedMemory h)) (FutexSignaller_CreateShmObjectName pid suffix)
    (word_size cls) k k' r ∧
  ∀ h, r = Ok h → FutexSignaller.m_RawPointer h = ptr (FutexSignaller.mp_SharedMemory h).
Proof.
  intros Hrun. unfold FutexSignaller_ctor in Hrun. fold (word_size cls) in Hrun. cbv zeta in Hrun.
  apply stM_bind_cases in Hrun as [(k1 & sm & Hsm & Hrun)|[(e & Hsm & ->)|[[Hsm ->]|[Hsm ->]]]];
    apply shm_borrower_ends in Hsm as [(a & sm' & Hr & [= <-] & Hname & Hb)|(e' & Hr & Hm & Hf)]; try done.
  2:{ split; [right; by exists e|done]. }
  injection Hr as <-. injection Hrun as <- <-. split; [left; by eexists _, sm|]. by intros h [= <-].
Qed.

Section queue.
Context (header : Z) (name : Z → string → string).
Hypothesis Hheader : 128 ≤ header ≤ 192.
Context (cls : Z) (cap : Z).
Hypothesis Hcls : 0 ≤ cls ≤ 2 ^ 20.
Hypothesis Hcap : 2 ≤ cap ≤ 2 ^ 60.

Abbreviation queue_size := (CalculateBufferSize header cap cls).

(** Both roles: the arguments are refused, or the shared object decides. *)
Lemma producer_ends lf pid suffix k k' r :
  queue_ctor (CalculateBufferSize header) name lf cls pid Producer cap suffix k = (k', r) →
  owner_ends (λ h, Some (QueueCtor.mp_SharedMemory h)) (name pid suffix)
    (replicate (Z.to_nat queue_size) 0) k k' r ∧
  (∀ h, r = Ok h → m_Capacity h = cap ∧ handle_mask h = cap - 1 ∧ valid_capacity cap).
Proof.
  unfold queue_ctor. intros Hrun.
  assert (∀ e, spared k k ∧ (Throw e : result queue_handle) = Throw e) as Hsp by (by split).
  case_decide; [injection Hrun as <- <-; split; [right; by eexists|done]|].
  case_decide; [injection Hrun as <- <-; split; [right; by eexists|done]|].
  case_decide; [injection Hrun as <- <-; split; [right; by eexists|done]|].
  assert (valid_capacity cap) as Hv by (apply capacity_checks; lia || (apply dec_stable; done)).
  destruct (CalculateBufferSize_covers header cap cls) as [Hsz _]; [lia..|].
  rewrite !(decide_True (P := Producer = Producer)) in Hrun by done. cbv zeta in Hrun.
  apply stM_bind_cases in Hrun as [(k1 & sm & Hsm & Hrun)|[(e & Hsm & ->)|[[Hsm ->]|[Hsm ->]]]];
    apply shm_owner_ends in Hsm as [(a & sm' & x & Hr & [= <-] & Hname & Hc)|(e' & Hr & Hsp')]; try done.
  2:{ split; [right; by exists e|done]. }
  injection Hr as <-. rewrite decide_True, !(le_bytes_0 8) in Hrun by done. unfold mbind, stM_bind in Hrun.
  destruct (poke_at (ptr sm) (Z.of_nat head_offset) _ k1) as [k2 r2] eqn:Hpoke.
  apply (created_poke _ _ _ _ _ _ head_offset 8 _ Hc) in Hpoke as [-> Hc2]; [|unfold head_offset; lia..].
  destruct (poke_at (ptr sm) (Z.of_nat tail_offset) _ k2) as [k3 r3] eqn:Hpoke2.
  apply (created_poke _ _ _ _ _ _ tail_offset 8 _ Hc2) in Hpoke2 as [-> Hc3]; [|unfold tail_offset; lia..].
  injection Hrun as <- <-. split; [left; by eexists _, sm, x|]. intros h [= <-]. simpl.
  rewrite u64_small by lia. done.
Qed.

Lemma consumer_ends lf pid suffix k k' r :
  queue_ctor (CalculateBufferSize header) name lf cls pid Consumer cap suffix k = (k', r) →
  borrower_ends (λ h, Some (QueueCtor.mp_SharedMemory h)) (name pid suffix) queue_size k k' r ∧
  (∀ h, r = Ok h → m_Capacity h = cap ∧ handle_mask h = cap - 1).
Proof.
  unfold queue_ctor. intros Hrun.
  case_decide; [injection Hrun as <- <-; split; [right; by eexists|done]|].
  case_decide; [injection Hrun as <- <-; split; [right; by eexists|done]|].
  case_decide; [injection Hrun as <- <-; split; [right; by eexists|done]|]. cbv zeta in Hrun.
  apply stM_bind_cases in Hrun as [(k1 & sm & Hsm & Hrun)|[(e & Hsm & ->)|[[Hsm ->]|[Hsm ->]]]];
    apply shm_borrower_ends in Hsm as [(a & sm' & Hr & [= <-] & Hname & Hb)|(e' & Hr & Hm & Hf)]; try done.
  2:{ split; [right; by exists e|done]. }
  injection Hr as <-. injection Hrun as <- <-. split; [left; by eexists _, sm|]. intros h [= <-]. simpl.
  rewrite u64_small by lia. done.
Qed.
End queue.

Section matrix.
Context (random : Z → Z) (pid m n idx : Z) (suffix : string).
Hypothesis Hm : 0 ≤ m < 64.
Hypothesis Hn : 0 ≤ n < 64.

Abbreviation matrix_name := (SharedMatrixBuffer_CreateShmObjectName pid idx suffix).

(** The dimensions and the size when a construction succeeds. *)
Definition matrix_dims (r : result SharedMatrixBuffer) : Prop :=
  ∀ b, r = Ok b → m + n < 32 ∧ RowCount b = 2 ^ m ∧ ColumnCount b = 2 ^ n.

(** As [ctor_steps], with the effect of a failure. *)
Lemma matrix_ctor_cases endpoint mode k k' r :
  SharedMatrixBuffer_ctor random pid endpoint m n idx mode suffix k = (k', r) →
  ∃ k1 r1 size, SharedMemory_ctor size matrix_name
      (if decide (endpoint = Client) then Owner else Borrower)
      (if decide (mode = Zero) then SharedMemory.Zero else SharedMemory.NoInit) k = (k1, r1) ∧
    ((∃ e, r1 = Throw e ∧ k' = k1 ∧ r = Throw e) ∨
     (∃ sm, r1 = Ok sm ∧ m + n < 32 ∧ size = 8 * 2 ^ (m + n) ∧
        let b := mkSharedMatrixBuffer pid endpoint (2 ^ m) (2 ^ n) idx (Some sm) in
        (_ ← (if decide (mode = Random) then FillWithRandom random b else mret ());
         mret b) k1 = (k', r))).
Proof.
  intros Hrun. unfold SharedMatrixBuffer_ctor in Hrun.
  assert (∀ m, 0 ≤ m < 64 → ∃ d, dimension m = Ok d) as Hdim.
  { intros m0 Hm0. destruct (decide (m0 < 32)).
    - eexists. apply dimension_small. lia.
    - eexists. apply dimension_large. lia. }
  destruct (Hdim m Hm) as [rows Hr], (Hdim n Hn) as [cols Hc].
  unfold mbind at 1, stM_bind at 1, lift in Hrun. rewrite Hr in Hrun.
  unfold mbind at 1, stM_bind at 1 in Hrun. rewrite Hc in Hrun. cbv zeta in Hrun.
  apply stM_bind_cases in Hrun as [(k1 & sm & Hsm & Hrun)|[(e & Hsm & ->)|[[Hsm ->]|[Hsm ->]]]].
  - exists k1, (Ok sm), (bufferSize rows cols). split; [done|]. right. exists sm. split; [done|].
    destruct (bufferSize_cases m n rows cols Hm Hn Hr Hc) as [(Hlt & -> & -> & _ & Hsize)|(_ & Hsize)]; [done|].
    rewrite Hsize in Hsm. apply SharedMemory_ctor_contract in Hsm. inversion Hsm; lia.
  - exists k', (Throw e), (bufferSize rows cols). split; [done|]. left. eauto.
  - apply SharedMemory_ctor_contract in Hsm. inversion Hsm.
  - apply SharedMemory_ctor_contract in Hsm. inversion Hsm.
Qed.

Lemma matrix_client_ends mode k k' r :
  SharedMatrixBuffer_ctor random pid Client m n idx mode suffix k = (k', r) →
  owner_ends SharedMatrixBuffer.mp_SharedMemory matrix_name
    (cell_bytes (initial_cells random mode (2 ^ (m + n)))) k k' r ∧ matrix_dims r.
Proof.
  intros (k1 & r1 & size & Hsm & Hcase)%matrix_ctor_cases. rewrite decide_True in Hsm by done.
  apply shm_owner_ends in Hsm as [(a & sm' & x & -> & [= <-] & Hname & Hc)|(e' & -> & Hsp)];
    destruct Hcase as [(e & He & -> & ->)|(sm & Hsm & Hlt & -> & Hrun)]; try done.
  2:{ split; [right; by exists e|by intros b]. }
  injection Hsm as <-. set (b := mkSharedMatrixBuffer _ _ _ _ _ _) in *.
  assert (0 < 2 ^ (m + n) < 2 ^ 32) as Hpow by (split; [|apply Z.pow_lt_mono_r]; lia).
  assert (replicate (Z.to_nat (8 * 2 ^ (m + n))) 0 = cell_bytes (replicate (Z.to_nat (2 ^ (m + n))) 0)) as Hz
    by (rewrite cell_bytes_zeros; f_equal; lia).
  rewrite Hz in Hc.
  assert (matrix_dims (Ok b)) as Hdims by (intros b' [= <-]; done).
  unfold initial_cells. case_decide as Hmode.
  - assert (GetElementCount b = Z.of_nat (Z.to_nat (2 ^ (m + n)))) as Hcount.
    { unfold GetElementCount. simpl. rewrite <-Z.pow_add_r, u32_small by lia. lia. }
    assert (zlen (cell_bytes (replicate (Z.to_nat (2 ^ (m + n))) 0)) = 8 * Z.of_nat (Z.to_nat (2 ^ (m + n)))) as Hl
      by (unfold zlen; rewrite length_cell_bytes, length_replicate; lia).
    destruct (FillWithRandom_spec random b a x (Z.to_nat (2 ^ (m + n))) k1 eq_refl)
      as (k2 & Hfill & Hn2 & Hf2 & Hm2 & Ho2); [| |done|].
    { unfold ptr in *. rewrite (cr_mappings _ _ _ _ _ Hc). by rewrite Hl, lookup_insert_eq. }
    { rewrite (cr_objects _ _ _ _ _ Hc). apply lookup_insert_eq. }
    unfold mbind, stM_bind in Hrun. rewrite Hfill in Hrun. injection Hrun as <- <-.
    split; [|done]. left. exists b, a, x. split_and!; [done..|]. destruct Hc. split; try congruence.
    + rewrite Ho2, cr_objects0, insert_insert_eq, Z2Nat.id by lia. done.
    + rewrite Hm2, cr_mappings0, Hl. unfold zlen. rewrite length_cell_bytes, length_fmap, length_seqZ. do 2 f_equal. lia.
  - unfold mbind, stM_bind, mret, stM_ret in Hrun. injection Hrun as <- <-. split; [|done]. left. by exists b, a, x.
Qed.

Lemma matrix_server_ends k k' r :
  SharedMatrixBuffer_ctor random pid Server m n idx NoInit suffix k = (k', r) →
  borrower_ends SharedMatrixBuffer.mp_SharedMemory matrix_name (8 * 2 ^ (m + n)) k k' r ∧ matrix_dims r.
Proof.
  intros (k1 & r1 & size & Hsm & Hcase)%matrix_ctor_cases. rewrite !decide_False in Hsm by done.
  apply shm_borrower_ends in Hsm as [(a & sm' & -> & [= <-] & Hname & Hb)|(e' & -> & Hmf)];
    destruct Hcase as [(e & He & -> & ->)|(sm & Hsm & Hlt & -> & Hrun)]; try done.
  2:{ split; [right; by exists e|by intros b]. }
  injection Hsm as <-. unfold mbind, stM_bind, mret, stM_ret in Hrun. simpl in Hrun. injection Hrun as <- <-.
  split; [left; by eexists _, a|]. by intros b [= <-].
Qed.
End matrix.
End constructors.

(** * Destruction *)

(** [~SharedMemory] of several objects, in order. *)
Definition destroy_all `{PosixShm} (k : kernel) (sms : list SharedMemory) : kernel :=
  foldl (λ k sm, (SharedMemory_dtor k sm).1) k sms.

Section destruction.
Context `{PosixShmSpec}.

Definition owner_names (sms : list SharedMemory) : list string :=
  shm_name <$> filter (λ sm, m_Ownership sm = Owner) sms.

Lemma dtor_effect k sm :
  0 < ptr sm →
  let k' := (SharedMemory_dtor k sm).1 in
  fds k' = fds k ∧ objects k' = objects k ∧ mappings k' = delete (ptr sm) (mappings k) ∧
  names k' = if decide (m_Ownership sm = Owner) then delete (shm_name sm) (names k) else names k.
Proof.
  intros Hp. unfold SharedMemory_dtor, ptr in *. simpl.
  rewrite (decide_True (P := SharedMemory.m_RawPointer sm ≠ MAP_FAILED ∧ SharedMemory.m_RawPointer sm ≠ nullptr))
    by (unfold MAP_FAILED, nullptr; lia).
  destruct (munmap_spec k (SharedMemory.m_RawPointer sm) (m_SizeInBytes sm)) as (Hn & Ho & Hf & Hm).
  case_decide; [|done]. destruct (shm_unlink_spec (munmap k (SharedMemory.m_RawPointer sm) (m_SizeInBytes sm)) (m_ShmObjectName sm))
    as (Hn2 & Ho2 & Hf2 & Hm2). rewrite Hn2, Ho2, Hf2, Hm2, Hn, Ho, Hf, Hm. done.
Qed.

Lemma destroy_all_effect sms : ∀ k,
  (∀ sm, sm ∈ sms → 0 < ptr sm) →
  let k' := destroy_all k sms in
  fds k' = fds k ∧ objects k' = objects k ∧
  (∀ p, mappings k' !! p = if decide (p ∈ ptr <$> sms) then None else mappings k !! p) ∧
  (∀ n, names k' !! n = if decide (n ∈ owner_names sms) then None else names k !! n).
Proof.
  induction sms as [|sm sms IH]; intros k Hpos; [done|].
  destruct (dtor_effect k sm) as (Hf & Ho & Hm & Hn); [by apply Hpos; left|].
  revert Hf Ho Hm Hn. change (destroy_all k (sm :: sms)) with (destroy_all (SharedMemory_dtor k sm).1 sms).
  generalize (SharedMemory_dtor k sm).1. intros k1 Hf Ho Hm Hn.
  destruct (IH k1) as (Hf2 & Ho2 & Hm2 & Hn2); [intros sm' ?; apply Hpos; by right|].
  cbv zeta. split_and!; [congruence|congruence| |].
  - intros p. rewrite Hm2, Hm, fmap_cons. destruct (decide (p = ptr sm)) as [->|Hne].
    + rewrite (decide_True (P := ptr sm ∈ ptr sm :: _)) by (by left). rewrite lookup_delete_eq. by destruct (decide (ptr sm ∈ _)).
    + rewrite lookup_delete_ne by done. apply decide_ext. rewrite elem_of_cons. naive_solver.
  - intros n. rewrite Hn2, Hn. unfold owner_names. rewrite filter_cons. case_decide as Hown; [|done].
    rewrite fmap_cons. destruct (decide (n = shm_name sm)) as [->|Hne].
    + rewrite (decide_True (P := shm_name sm ∈ shm_name sm :: _)) by (by left). rewrite lookup_delete_eq. by destruct (decide (shm_name sm ∈ _)).
    + rewrite lookup_delete_ne by done. apply decide_ext. rewrite elem_of_cons. naive_solver.
Qed.
End destruction.

(** * What is held

    Since [K0], exactly the objects [sms] were mapped; for owners, exactly their
    names were made. *)
Record held (K0 K : kernel) (sms : list SharedMemory) : Prop := {
  h_fds : fds K = fds K0;
  h_own : ∀ sm, sm ∈ sms → 0 < ptr sm ∧ mappings K0 !! ptr sm = None ∧ is_Some (mappings K !! ptr sm);
  h_rest : ∀ p, p ∉ ptr <$> sms → mappings K !! p = mappings K0 !! p
}.

(** Every name has an object of its own. *)
Definition names_wf (K : kernel) : Prop :=
  (∀ n x, names K !! n = Some x → is_Some (objects K !! x)) ∧
  (∀ n1 n2 x, names K !! n1 = Some x → names K !! n2 = Some x → n1 = n2).

Record owns (K0 K : kernel) (sms : list SharedMemory) : Prop := {
  o_held : held K0 K sms;
  o_names : ∀ sm, sm ∈ sms → m_Ownership sm = Owner ∧ names K0 !! shm_name sm = None;
  o_rest : ∀ n, n ∉ shm_name <$> sms → names K !! n = names K0 !! n;
  o_wf : names_wf K0 → names_wf K
}.

Lemma held_nil K : held K K [].
Proof. split; [done|by intros ? ?%elem_of_nil|done]. Qed.
Lemma owns_nil K : owns K K [].
Proof. split; [apply held_nil|by intros ? ?%elem_of_nil|done|done]. Qed.

Lemma held_same K0 K K' sms :
  mappings K' = mappings K → fds K' = fds K → held K0 K sms → held K0 K' sms.
Proof. intros Hm Hf []. split; [congruence|by rewrite Hm..]. Qed.

Lemma held_insert K0 K K' sms sms' sm x :
  held K0 K sms → 0 < ptr sm → mappings K !! ptr sm = None → fds K' = fds K →
  mappings K' = <[ptr sm := x]> (mappings K) → sms' ≡ₚ sm :: sms → held K0 K' sms'.
Proof.
  intros [Hf Hown Hrest] Hp Hfree Hf' Hm Hperm. split; [congruence|..].
  - intros sm' Hin. rewrite Hperm, elem_of_cons in Hin. rewrite Hm.
    destruct Hin as [->|Hin].
    + split_and!; [done| |rewrite lookup_insert_eq; by eexists].
      destruct (decide (ptr sm ∈ ptr <$> sms)) as [(sm1 & -> & Hin)%list_elem_of_fmap|Hn].
      * apply Hown, Hin.
      * by rewrite <-Hrest.
    + destruct (Hown _ Hin) as (? & ? & Hs). split_and!; [done|done|].
      destruct (decide (ptr sm' = ptr sm)) as [->|]; [rewrite lookup_insert_eq; by eexists|].
      by rewrite lookup_insert_ne by done.
  - intros p Hnp. rewrite Hperm, fmap_cons, elem_of_cons in Hnp. rewrite Hm, lookup_insert_ne by naive_solver.
    apply Hrest. naive_solver.
Qed.

Lemma held_borrowed K0 K K' sms sms' sm size :
  held K0 K sms → borrowed K K' sm size → sms' ≡ₚ sm :: sms → held K0 K' sms'.
Proof. intros Hh [_ Hp Ha Hf (x & Hm & _)] Hperm. by eapply held_insert. Qed.

Lemma names_wf_created K K' sm x bs : created K K' sm x bs → names_wf K → names_wf K'.
Proof.
  intros [_ _ Hname Hobj _ Hns Hos _ _] [Hex Hinj]. unfold names_wf. rewrite Hns, Hos. split.
  - intros n y [[<- <-]|[Hne Hy]]%lookup_insert_Some; [rewrite lookup_insert_eq; by eexists|].
    destruct (Hex n y Hy) as [c Hc]. rewrite lookup_insert_ne by congruence. by eexists.
  - intros n1 n2 y [[<- <-]|[Hne1 H1]]%lookup_insert_Some [[<- Hy]|[Hne2 H2]]%lookup_insert_Some.
    + done.
    + destruct (Hex n2 x H2). congruence.
    + subst y. destruct (Hex n1 x H1). congruence.
    + by eapply Hinj.
Qed.

Lemma names_wf_spared K K' : spared K K' → names_wf K → names_wf K'.
Proof.
  intros [Hns _ _ Hos] [Hex Hinj]. split; rewrite Hns; [|done]. intros n x Hx.
  destruct (Hex n x Hx) as [c Hc]. exists c. by eapply lookup_weaken.
Qed.

Lemma owns_created K0 K K' sms sms' sm x bs :
  owns K0 K sms → created K K' sm x bs → sms' ≡ₚ sm :: sms → owns K0 K' sms'.
Proof.
  intros [Hh Hn Hr Hwf] Hc Hperm. pose proof Hc as [Ho Hp Hname _ Ha Hns _ Hm Hf]. split.
  - by eapply held_insert.
  - intros sm' Hin. rewrite Hperm, elem_of_cons in Hin. destruct Hin as [->|Hin]; [|by apply Hn].
    split; [done|]. destruct (decide (shm_name sm ∈ shm_name <$> sms)) as [(sm1 & -> & Hin)%list_elem_of_fmap|Hni].
    + apply Hn, Hin.
    + by rewrite <-Hr.
  - intros n Hni. rewrite Hperm, fmap_cons, elem_of_cons in Hni. rewrite Hns, lookup_insert_ne by naive_solver.
    apply Hr. naive_solver.
  - intros H0. eapply names_wf_created; [done|auto].
Qed.

Lemma owns_spared K0 K K' sms : owns K0 K sms → spared K K' → owns K0 K' sms.
Proof.
  intros [Hh Hn Hr Hwf] Hsp. pose proof Hsp as [Hns Hm Hf _].
  split; [by eapply held_same|done|by rewrite Hns|]. intros H0. eapply names_wf_spared; [done|auto].
Qed.

(** Destroying what is held gives the mappings back, whatever else was mapped in
    the meantime; destroying what is owned gives the names back too. *)
Lemma destroy_held `{PosixShmSpec} K0 K K2 sms (others : gmap Z (Z * Z)) :
  held K0 K sms → mappings K2 = mappings K ∪ others → others ##ₘ mappings K →
  mappings (destroy_all K2 sms) = mappings K0 ∪ others ∧ fds (destroy_all K2 sms) = fds K2.
Proof.
  intros [Hf Hown Hrest] HK2 Hdisj.
  destruct (destroy_all_effect sms K2) as (Hf2 & _ & Hm2 & _); [intros; by apply Hown|].
  split; [|done]. apply map_eq. intros p. rewrite Hm2, HK2. case_decide as Hin.
  - apply list_elem_of_fmap in Hin as (sm & -> & Hin). destruct (Hown _ Hin) as (_ & Hfree & [y Hy]).
    symmetry. apply lookup_union_None. split; [done|]. destruct (others !! ptr sm) eqn:Ho; [|done].
    exfalso. by eapply map_disjoint_spec.
  - destruct (others !! p) eqn:Ho.
    + assert (mappings K !! p = None) by (by eapply map_disjoint_Some_l).
      rewrite !lookup_union_r; [done| |done]. by rewrite <-Hrest.
    + rewrite !lookup_union, Ho, Hrest by done. done.
Qed.

Lemma destroy_owned `{PosixShmSpec} K0 K sms :
  owns K0 K sms →
  let K' := destroy_all K sms in
  mappings K' = mappings K0 ∧ fds K' = fds K0 ∧ names K' = names K0.
Proof.
  intros [Hh Hn Hr _]. destruct (destroy_held K0 K K sms ∅ Hh) as [Hm Hf];
    [by rewrite (right_id_L ∅ (∪))|apply map_disjoint_empty_l|].
  rewrite (right_id_L ∅ (∪)) in Hm. split_and!; [done|rewrite Hf; apply Hh|].
  destruct (destroy_all_effect sms K) as (_ & _ & _ & Hnames); [intros sm Hin; by apply (h_own _ _ _ Hh)|].
  apply map_eq. intros n. rewrite Hnames.
  assert (owner_names sms = shm_name <$> sms) as ->.
  { unfold owner_names. f_equal. apply filter_all. intros sm Hin. by apply Hn. }
  case_decide as Hin; [|by apply Hr]. apply list_elem_of_fmap in Hin as (sm & -> & Hin).
  symmetry. by apply Hn.
Qed.

(** * Contents *)

(** The object behind a name and a mapping, with all its bytes. *)
Definition region (K : kernel) (sm : SharedMemory) (bs : list Z) : Prop :=
  ∃ x, names K !! shm_name sm = Some x ∧ objects K !! x = Some bs ∧ mappings K !! ptr sm = Some (x, zlen bs).

Lemma region_new K K' sm x bs : created K K' sm x bs → region K' sm bs.
Proof.
  intros [_ _ _ _ _ Hn Ho Hm _]. exists x. rewrite Hn, Ho, Hm, !lookup_insert_eq. done.
Qed.

Lemma region_created K K' sm sm' x bs bs' : created K K' sm' x bs' → region K sm bs → region K' sm bs.
Proof.
  intros [_ _ Hnn Hon Han Hn Ho Hm _] (y & Hy & Hyo & Hym). exists y.
  rewrite Hn, Ho, Hm, !lookup_insert_ne by congruence. done.
Qed.

Lemma region_same K K' sm bs :
  names K' = names K → objects K' = objects K → mappings K ⊆ mappings K' → region K sm bs → region K' sm bs.
Proof.
  intros Hn Ho Hm (x & Hx & Hxo & Hxm). exists x. rewrite Hn, Ho. split_and!; [done|done|].
  by eapply lookup_weaken.
Qed.

(** A borrower of a name that exists. *)
Lemma borrowed_region K K' sm sm0 size bs :
  borrowed K K' sm size → region K sm0 bs → shm_name sm = shm_name sm0 → size = zlen bs →
  names K' = names K ∧ objects K' = objects K ∧ mappings K ⊆ mappings K' ∧ region K' sm bs.
Proof.
  intros [_ _ Ha _ (x & Hm & Hex)] (y & Hy & Hyo & _) Hname ->. rewrite <-Hname in Hy.
  destruct (Hex y Hy) as (<- & Hn & Ho). split_and!; [done|done|rewrite Hm; by apply insert_subseteq|].
  exists y. rewrite Hn, Ho, Hm, lookup_insert_eq. done.
Qed.

(** Two mappings of one name reach the same object. *)
Lemma regions_shared K sm1 sm2 bs1 bs2 :
  region K sm1 bs1 → region K sm2 bs2 → shm_name sm1 = shm_name sm2 →
  bs1 = bs2 ∧ ∃ x, objects K !! x = Some bs1 ∧
    mappings K !! ptr sm1 = Some (x, zlen bs1) ∧ mappings K !! ptr sm2 = Some (x, zlen bs1).
Proof.
  intros (x & Hx & Hxo & Hxm) (y & Hy & Hyo & Hym) Hname. rewrite Hname, Hy in Hx. injection Hx as ->.
  rewrite Hxo in Hyo. injection Hyo as ->. split; [done|]. by exists x.
Qed.

(** A list of [count] matrices, the [j]th of which has the bytes [contents j]. *)
Record matrices_held (K : kernel) (pid rows columns : Z) (suffix : string) (contents : Z → list Z)
    (count : Z) (bs : list SharedMatrixBuffer) : Prop := {
  mh_count : zlen bs = count;
  mh_each : ∀ j b, zget bs j = Some b →
    RowCount b = rows ∧ ColumnCount b = columns ∧
    ∃ sm, SharedMatrixBuffer.mp_SharedMemory b = Some sm ∧
      shm_name sm = SharedMatrixBuffer_CreateShmObjectName pid j suffix ∧ region K sm (contents j)
}.

Lemma matrices_held_nil K pid rows columns suffix contents : matrices_held K pid rows columns suffix contents 0 [].
Proof. split; [done|]. intros j b Hj%zget_Some_range. unfold zlen in Hj. simpl in Hj. lia. Qed.

Lemma matrices_held_mono K K' pid rows columns suffix contents count bs :
  (∀ sm c, region K sm c → region K' sm c) →
  matrices_held K pid rows columns suffix contents count bs →
  matrices_held K' pid rows columns suffix contents count bs.
Proof. intros Hr [Hc He]. split; [done|]. naive_solver. Qed.

Lemma matrices_held_snoc K pid rows columns suffix contents count bs b sm :
  matrices_held K pid rows columns suffix contents count bs →
  RowCount b = rows → ColumnCount b = columns → SharedMatrixBuffer.mp_SharedMemory b = Some sm →
  shm_name sm = SharedMatrixBuffer_CreateShmObjectName pid count suffix → region K sm (contents count) →
  matrices_held K pid rows columns suffix contents (count + 1) (bs ++ [b]).
Proof.
  intros [Hc He] Hrows Hcols Hmem Hname Hr. split; [rewrite zlen_app, Hc; done|]. intros j b' Hget.
  destruct (decide (j < zlen bs)) as [Hlt|Hge].
  - rewrite zget_app_l in Hget by done. by apply He.
  - rewrite zget_app_r in Hget by lia. pose proof (zget_Some_range _ _ _ Hget) as Hj.
    change (zlen [b]) with 1 in Hj. assert (j = count) as -> by lia.
    rewrite Hc, Z.sub_diag in Hget. injection Hget as <-. split_and!; [done|done|by exists sm].
Qed.
