(* ===== verification/ClientStats.v ===== *)
(** [src/lib/stats/ClientStats.h]: the request counter and timer that client and
    server keep. *)

From S2P Require Import Prelude.
#[local] Open Scope Z_scope.

(** Time points are nanoseconds since the clock's epoch; the elapsed time, despite
    its name, is in nanoseconds too. *)
Record ClientStats := mkClientStats {
  startTime : Z;
  endTime : Z;
  m_TotalElapsedTimeUs : Z;
  m_TotalRequests : Z
}.

(** The members' initial values. *)
Definition ClientStats_init : ClientStats := mkClientStats 0 0 0 0.

(** [now] is the result of [Clock::now()]. *)
Definition StartTimer (now : Z) (s : ClientStats) : ClientStats :=
  mkClientStats now (endTime s) (m_TotalElapsedTimeUs s) (m_TotalRequests s).

(** The signed difference is converted to [uint64_t] by the addition. *)
Definition StopTimer (now : Z) (s : ClientStats) : ClientStats :=
  mkClientStats (startTime s) now
    (u64 (m_TotalElapsedTimeUs s + u64 (now - startTime s))) (u64 (m_TotalRequests s + 1)).

Definition GetTotalRequests (s : ClientStats) : Z := m_TotalRequests s.

Definition GetAverageElapsedTimeUs (s : ClientStats) : Z :=
  if decide (m_TotalRequests s = 0) then 0
  else m_TotalElapsedTimeUs s / m_TotalRequests s.

(** * What the counters add up to *)

(** The requests of a run, each timed from one time point to another. *)
Definition time_requests (reqs : list (Z * Z)) (s : ClientStats) : ClientStats :=
  foldl (λ s '(start, stop), StopTimer stop (StartTimer start s)) s reqs.

Definition elapsed (reqs : list (Z * Z)) : Z := foldr (λ '(start, stop) acc, stop - start + acc) 0 reqs.

(** The totals are exact up to wrap-around, whatever the clock does. *)
Lemma time_requests_totals reqs s :
  is_u64 (m_TotalElapsedTimeUs s) → is_u64 (m_TotalRequests s) →
  m_TotalElapsedTimeUs (time_requests reqs s) = u64 (m_TotalElapsedTimeUs s + elapsed reqs) ∧
  m_TotalRequests (time_requests reqs s) = u64 (m_TotalRequests s + zlen reqs).
Proof.
  unfold time_requests. revert s. induction reqs as [|[a b] reqs IH]; intros s He Hr; simpl.
  - change (zlen []) with 0. rewrite !Z.add_0_r. split; symmetry; by apply u64_small.
  - destruct (IH (StopTimer b (StartTimer a s))) as [-> ->]; [apply u64_range..|]. simpl.
    rewrite !u64_add_l. unfold u64. split.
    + rewrite <-Z.add_assoc, (Z.add_comm ((b - a) mod _)), Z.add_assoc, Zplus_mod_idemp_r.
      f_equal. lia.
    + f_equal. unfold zlen. simpl. lia.
Qed.

(** * Properties *)

(** The statistics are the mean.  After any number of timed requests on fresh
    counters, none of negative duration and with a total below [2^64] nanoseconds,
    the request count is exact and the average is the total duration divided by
    the count, rounded down, and zero when there were none. *)
Theorem stats_average reqs :
  Forall (λ '(start, stop), start ≤ stop) reqs → elapsed reqs < 2 ^ 64 → zlen reqs < 2 ^ 64 →
  let s := time_requests reqs ClientStats_init in
  GetTotalRequests s = zlen reqs ∧
  GetAverageElapsedTimeUs s = if decide (reqs = []) then 0 else elapsed reqs / zlen reqs.
Proof.
  intros Hmono Hsum Hlen s.
  assert (0 ≤ elapsed reqs) as Hpos.
  { clear Hsum Hlen s. induction Hmono as [|[a b] l Hab _ IH]; simpl; lia. }
  pose proof (zlen_nonneg reqs).
  destruct (time_requests_totals reqs ClientStats_init) as [He Hr]; [done..|].
  fold s in He, Hr. simpl in He, Hr. rewrite u64_small in He, Hr by lia.
  unfold GetTotalRequests, GetAverageElapsedTimeUs. rewrite He, Hr. split; [lia|].
  destruct reqs as [|r reqs]; [done|].
  rewrite (decide_False (P := r :: reqs = [])) by done.
  rewrite decide_False; [done|]. unfold zlen. simpl. lia.
Qed.

Lemma stats_average_witness :
  let s := time_requests [(10, 14); (20, 27)] ClientStats_init in
  GetTotalRequests s = 2 ∧ GetAverageElapsedTimeUs s = 5.
Proof.
  apply (stats_average [(10, 14); (20, 27)]); [|reflexivity|reflexivity].
  repeat constructor; discriminate.
Defined.
