(* ===== verification/ClientBank.v ===== *)
(** The client bank of [transposer_demo/transpose_server]: [ClientContext.h], the
    bit set of valid slots, and the parts of [AddClient] and [RemoveClient] that
    search and fill the bank.  The server's threads are in [Server]. *)

From S2P Require Import Prelude ShmNames PosixShm SharedMemory Bytes QueueCtor SharedMatrixBuffer FutexSignaller ClientStats.
#[local] Open Scope Z_scope.

(** * Bits *)

(** [1ULL << position]; every caller passes a position below [MAX_CLIENTS]. *)
Definition setBit (number position : Z) (value : bool) : Z :=
  if value then Z.lor number (u64 (Z.shiftl 1 position))
  else Z.land number (u64 (Z.lnot (Z.shiftl 1 position))).

Definition getBit (number position : Z) : bool :=
  bool_decide (Z.land number (u64 (Z.shiftl 1 position)) ≠ 0).

Lemma testbit_pow2 p q : 0 ≤ p < 64 → 0 ≤ q → Z.testbit (u64 (Z.shiftl 1 p)) q = bool_decide (p = q).
Proof.
  intros Hp Hq. rewrite Z.shiftl_1_l, u64_small.
  2:{ split; [lia|]. apply Z.pow_lt_mono_r; lia. }
  rewrite Z.pow2_bits_eqb by lia. case_bool_decide; [by apply Z.eqb_eq|by apply Z.eqb_neq].
Qed.

Lemma testbit_not_pow2 p q :
  0 ≤ p < 64 → 0 ≤ q < 64 → Z.testbit (u64 (Z.lnot (Z.shiftl 1 p))) q = bool_decide (p ≠ q).
Proof.
  intros Hp Hq. unfold u64. rewrite Z.mod_pow2_bits_low by lia.
  rewrite Z.lnot_spec, Z.shiftl_1_l, Z.pow2_bits_eqb by lia.
  case_bool_decide; [|subst; by rewrite Z.eqb_refl]. by rewrite (proj2 (Z.eqb_neq _ _)).
Qed.

Lemma getBit_testbit n p : 0 ≤ n → 0 ≤ p < 64 → getBit n p = Z.testbit n p.
Proof.
  intros Hn Hp. unfold getBit. destruct (Z.testbit n p) eqn:E.
  - apply bool_decide_eq_true. intros Hz. assert (Z.testbit (Z.land n (u64 (Z.shiftl 1 p))) p = true) as Ht.
    { rewrite Z.land_spec, E, testbit_pow2 by lia. simpl. by apply bool_decide_eq_true. }
    by rewrite Hz, Z.bits_0 in Ht.
  - apply bool_decide_eq_false. intros Hz. apply Hz, Z.bits_inj_0. intros q.
    destruct (decide (0 ≤ q)); [|by apply Z.testbit_neg_r; lia].
    rewrite Z.land_spec, testbit_pow2 by lia. case_bool_decide as Hq; [|by rewrite andb_false_r].
    subst. by rewrite E.
Qed.

Lemma setBit_nonneg n p v : 0 ≤ n → 0 ≤ setBit n p v.
Proof.
  intros Hn. unfold setBit. destruct v.
  - apply Z.lor_nonneg. split; [done|]. apply u64_range.
  - apply Z.land_nonneg. by left.
Qed.

(** The law of the bit set. *)
Lemma getBit_setBit n p q v :
  0 ≤ n → 0 ≤ p < 64 → 0 ≤ q < 64 → getBit (setBit n p v) q = if decide (p = q) then v else getBit n q.
Proof.
  intros Hn Hp Hq. rewrite !getBit_testbit by (done || by apply setBit_nonneg).
  unfold setBit. destruct v.
  - rewrite Z.lor_spec, testbit_pow2 by lia. case_decide as Hpq.
    + rewrite bool_decide_true by done. apply orb_true_r.
    + rewrite bool_decide_false by done. apply orb_false_r.
  - rewrite Z.land_spec, testbit_not_pow2 by lia. case_decide as Hpq.
    + rewrite bool_decide_false by tauto. apply andb_false_r.
    + rewrite bool_decide_true by done. apply andb_true_r.
Qed.

Lemma getBit_0 p : getBit 0 p = false.
Proof. unfold getBit. by rewrite Z.land_0_l. Qed.

(** * Contexts *)

Record BufferDimensions := mkBufferDimensions {
  dim_m : Z;
  dim_n : Z;
  dim_k : Z;
  numRows : Z;
  numColumns : Z
}.

Record ClientContext := mkClientContext {
  subscribed : bool;
  id : Z;
  matrixSize : BufferDimensions;
  stats : ClientStats;
  ipcContext : Z;
  matrixBuffers : list SharedMatrixBuffer;
  matrixBuffersTr : list SharedMatrixBuffer;
  pRequestQueue : option queue_handle;
  pTransposeReadyFutex : option FutexSignaller
}.

(** [ClientContext()]: zeros and empty pointers. *)
Definition ClientContext_init : ClientContext :=
  mkClientContext false 0 (mkBufferDimensions 0 0 0 0 0) ClientStats_init 0 [] [] None None.

Definition ClientBank : Type := list ClientContext.

(** The loops over the slots: the first index, from [i] on, whose element
    satisfies [p]. *)
Fixpoint find_from {A} (p : Z → A → bool) (i : Z) (l : list A) : option Z :=
  match l with
  | [] => None
  | x :: l' => if p i x then Some i else find_from p (i + 1) l'
  end.

(** The index that [ClientExists] stores in [bankIndex], if it answers true. *)
Definition ClientExists (bank : ClientBank) (clientId : Z) : option Z :=
  find_from (λ _ ctx, subscribed ctx && bool_decide (id ctx = clientId)) 0 bank.

(** [AddClient]'s search; [None] leaves [indexToAdd] uninitialised. *)
Definition index_to_add (validClientsBitSet : Z) : option Z :=
  find_from (λ _ i, negb (getBit validClientsBitSet i)) 0 (seqZ 0 MAX_CLIENTS).

(** [RemoveClient]'s search, with its default 0. *)
Definition index_to_remove (bank : ClientBank) (clientId : Z) : Z :=
  default 0 (find_from (λ _ ctx, bool_decide (id ctx = clientId)) 0 bank).

(** [1 << m] on [int]. *)
Definition shift_dimension (m : Z) : result Z :=
  if decide (m < 32) then Ok (u32 (Z.shiftl 1 m)) else Undef.

(** The assignments that precede the construction of the client's objects. *)
Definition begin_context (clientId m n k : Z) (context : Z) : result ClientContext :=
  rows ← shift_dimension m;
  columns ← shift_dimension n;
  mret (mkClientContext false clientId (mkBufferDimensions m n k rows columns) ClientStats_init
          context [] [] None None).

(** * Construction of the client's objects

    The body of the [try] block works on the new slot; an exception leaves what
    it has done so far. *)

Abbreviation slotM := (stM (kernel * ClientContext)).


Definition put_futex (h : FutexSignaller) (c : ClientContext) : ClientContext :=
  mkClientContext (subscribed c) (id c) (matrixSize c) (stats c) (ipcContext c) (matrixBuffers c)
    (matrixBuffersTr c) (pRequestQueue c) (Some h).
Definition put_queue (h : queue_handle) (c : ClientContext) : ClientContext :=
  mkClientContext (subscribed c) (id c) (matrixSize c) (stats c) (ipcContext c) (matrixBuffers c)
    (matrixBuffersTr c) (Some h) (pTransposeReadyFutex c).
Definition push_buffer (b : SharedMatrixBuffer) (c : ClientContext) : ClientContext :=
  mkClientContext (subscribed c) (id c) (matrixSize c) (stats c) (ipcContext c)
    (matrixBuffers c ++ [b]) (matrixBuffersTr c) (pRequestQueue c) (pTransposeReadyFutex c).
Definition push_buffer_tr (b : SharedMatrixBuffer) (c : ClientContext) : ClientContext :=
  mkClientContext (subscribed c) (id c) (matrixSize c) (stats c) (ipcContext c)
    (matrixBuffers c) (matrixBuffersTr c ++ [b]) (pRequestQueue c) (pTransposeReadyFutex c).
Definition set_subscribed (v : bool) (c : ClientContext) : ClientContext :=
  mkClientContext v (id c) (matrixSize c) (stats c) (ipcContext c) (matrixBuffers c)
    (matrixBuffersTr c) (pRequestQueue c) (pTransposeReadyFutex c).

Section code.
Context `{PosixShm}.

(** [lock_free] and [cacheLine] as in [QueueCtor]; [reserve_ok] says whether the
    allocator grants a [reserve] of so many elements. *)
Context (lock_free : bool) (cacheLine : Z) (reserve_ok : Z → bool).

Definition reserve {C} (n : Z) : stM (kernel * C) () := λ s,
  (s, if reserve_ok n then Ok () else Throw BadAlloc).

Definition server_buffer (clientId m n bufferIndex : Z) (suffix : string) : slotM SharedMatrixBuffer :=
  in_kernel (SharedMatrixBuffer_ctor (λ i, i) clientId Server m n bufferIndex SharedMatrixBuffer.NoInit suffix).

(** The loop over the buffers, with [count] turns left. *)
Fixpoint attach_from (clientId m n : Z) (count : nat) (bufferIndex : Z) : slotM () :=
  match count with
  | O => mret ()
  | S count' =>
      b ← server_buffer clientId m n bufferIndex MATRIX_BUF_NAME_SUFFIX;
      _ ← modify (push_buffer b);
      bt ← server_buffer clientId m n bufferIndex TR_MATRIX_BUF_NAME_SUFFIX;
      _ ← modify (push_buffer_tr bt);
      attach_from clientId m n count' (bufferIndex + 1)
  end.

Definition setup_context (clientId m n k : Z) : slotM () :=
  _ ← reserve k;
  _ ← reserve k;
  futex ← in_kernel (FutexSignaller_ctor cacheLine clientId Waker "");
  _ ← modify (put_futex futex);
  queue ← in_kernel (SpscQueueSeqLock_ctor lock_free cacheLine clientId QueueCtor.Consumer
                       REQ_QUEUE_CAPACITY REQ_QUEUE_NAME_SUFFIX);
  _ ← modify (put_queue queue);
  _ ← attach_from clientId m n (Z.to_nat k) 0;
  modify (set_subscribed true).
End code.

(** * The searches *)

Lemma find_from_Some {A} (p : Z → A → bool) i bank j :
  find_from p i bank = Some j →
  i ≤ j ∧ ∃ ctx, zget bank (j - i) = Some ctx ∧ p j ctx = true ∧
    ∀ j' ctx', i ≤ j' < j → zget bank (j' - i) = Some ctx' → p j' ctx' = false.
Proof.
  revert i. induction bank as [|c bank IH]; intros i; simpl; [done|].
  assert (∀ j, i + 1 ≤ j → zget (c :: bank) (j - i) = zget bank (j - (i + 1))) as Hcons.
  { intros j0 Hj0. change (c :: bank) with ([c] ++ bank).
    rewrite zget_app_r by (unfold zlen; simpl; lia). f_equal. unfold zlen. simpl. lia. }
  destruct (p i c) eqn:Hp.
  - intros [= <-]. split; [lia|]. exists c. rewrite Z.sub_diag. split_and!; [done|done|lia].
  - intros (Hij & ctx & Hget & Hpj & Hbefore)%IH. split; [lia|]. exists ctx.
    rewrite Hcons by lia. split_and!; [done|done|]. intros j' ctx' Hj' Hget'.
    destruct (decide (j' = i)) as [->|Hne].
    + rewrite Z.sub_diag in Hget'. injection Hget' as <-. done.
    + rewrite Hcons in Hget' by lia. eapply Hbefore; [lia|done].
Qed.

Lemma find_from_None {A} (p : Z → A → bool) i bank j ctx :
  find_from p i bank = None → zget bank (j - i) = Some ctx → p j ctx = false.
Proof.
  revert i. induction bank as [|c bank IH]; intros i; simpl; [by intros _ ?%zget_Some_range; unfold zlen in *; simpl in *; lia|].
  destruct (p i c) eqn:Hp; [done|]. intros Hnone Hget.
  destruct (decide (j = i)) as [->|Hne].
  - rewrite Z.sub_diag in Hget. injection Hget as <-. done.
  - pose proof (zget_Some_range _ _ _ Hget). apply (IH (i + 1)); [done|]. rewrite <-Hget.
    change (c :: bank) with ([c] ++ bank). rewrite zget_app_r by (unfold zlen; simpl; lia).
    f_equal. unfold zlen. simpl. lia.
Qed.

(** The same from index 0. *)
Lemma find_Some {A} (p : Z → A → bool) bank j :
  find_from p 0 bank = Some j →
  ∃ ctx, zget bank j = Some ctx ∧ p j ctx = true ∧
    ∀ j' ctx', j' < j → zget bank j' = Some ctx' → p j' ctx' = false.
Proof.
  intros (H0 & ctx & Hget & Hp & Hb)%find_from_Some. rewrite Z.sub_0_r in Hget. exists ctx.
  split_and!; [done|done|]. intros j' ctx' Hj Hget'. pose proof (zget_Some_range _ _ _ Hget').
  apply Hb; [lia|]. by rewrite Z.sub_0_r.
Qed.

Lemma find_None {A} (p : Z → A → bool) bank j ctx : find_from p 0 bank = None → zget bank j = Some ctx → p j ctx = false.
Proof. intros Hn Hget. apply (find_from_None p 0 bank); [done|]. by rewrite Z.sub_0_r. Qed.

(** [ClientExists] finds a subscribed slot of the client if there is one. *)
Lemma ClientExists_Some bank c j :
  ClientExists bank c = Some j → ∃ ctx, zget bank j = Some ctx ∧ subscribed ctx = true ∧ id ctx = c.
Proof.
  intros (ctx & Hget & Hp & _)%find_Some. exists ctx. apply andb_true_iff in Hp as [? ?%bool_decide_eq_true].
  done.
Qed.
Lemma ClientExists_None bank c j ctx :
  ClientExists bank c = None → zget bank j = Some ctx → subscribed ctx = true → id ctx ≠ c.
Proof.
  intros Hn Hget Hs Hid. pose proof (find_None _ _ _ _ Hn Hget) as Hp. simpl in Hp.
  by rewrite Hs, Hid, bool_decide_true in Hp.
Qed.

(** The first free slot. *)
Lemma index_to_add_Some v j :
  index_to_add v = Some j →
  0 ≤ j < MAX_CLIENTS ∧ getBit v j = false ∧ (∀ j', 0 ≤ j' < j → getBit v j' = true).
Proof.
  intros (i & Hget & Hp%negb_true_iff & Hb)%find_Some. pose proof (zget_Some_range _ _ _ Hget) as Hr.
  rewrite zlen_seqZ in Hr by done. rewrite zget_seqZ in Hget by done. injection Hget as <-.
  split_and!; [lia..|done|]. intros j' Hj'. apply negb_false_iff.
  apply (Hb j' j'); [lia|]. apply zget_seqZ. lia.
Qed.
Lemma index_to_add_None v j : index_to_add v = None → 0 ≤ j < MAX_CLIENTS → getBit v j = true.
Proof.
  intros Hn Hj. apply negb_false_iff. apply (find_None _ _ j j Hn). by apply zget_seqZ.
Qed.

(** Earlier slots carry other ids than a subscribed one; then the removal of a
    client that exists finds the same slot, although it does not look at
    [subscribed]. *)
Definition ids_before (bank : ClientBank) : Prop :=
  ∀ i j ci cj, 0 ≤ j < i → zget bank i = Some ci → zget bank j = Some cj →
    subscribed ci = true → id cj ≠ id ci.

Lemma index_to_remove_exists bank c i :
  ids_before bank → ClientExists bank c = Some i → index_to_remove bank c = i.
Proof.
  intros Hids (ci & Hi & Hs & Hid)%ClientExists_Some. unfold index_to_remove.
  destruct (find_from _ 0 bank) as [j|] eqn:Hf; simpl.
  - apply find_Some in Hf as (cj & Hj & Hc%bool_decide_eq_true & Hb).
    pose proof (zget_Some_range _ _ _ Hj). pose proof (zget_Some_range _ _ _ Hi).
    destruct (Z.lt_trichotomy i j) as [Hlt|[->|Hgt]]; [|done|].
    + specialize (Hb i ci Hlt Hi). by apply bool_decide_eq_false in Hb.
    + exfalso. by apply (Hids i j ci cj); [lia|..|congruence].
  - pose proof (find_None _ _ _ _ Hf Hi) as Hc. by apply bool_decide_eq_false in Hc.
Qed.

(** * The construction of a context

    Triples for the [try] block that speak of the context only. *)

Definition triple {A} (P : ClientContext → Prop) (m : slotM A) (Q : A → ClientContext → Prop)
    (E : ClientContext → Prop) : Prop :=
  hoare (λ s, P s.2) m (λ a s, Q a s.2) (λ s, E s.2).

Section triples.
Context {A B : Type} (E : ClientContext → Prop).

Lemma triple_bind (m : slotM A) (f : A → slotM B) P R Q :
  triple P m R E → (∀ a, triple (R a) (f a) Q E) → triple P (m ≫= f) Q E.
Proof. apply hoare_bind. Qed.

Lemma triple_in_kernel (m : kernelM A) (R : A → Prop) P (Q : A → ClientContext → Prop) :
  (∀ k, match m k with (_, Ok a) => R a | (_, Throw _) => True | _ => False end) →
  (∀ c, P c → E c) → (∀ a c, P c → R a → Q a c) → triple P (in_kernel m) Q E.
Proof.
  intros Hm HE HQ [k c] Hc. unfold in_kernel. specialize (Hm k).
  destruct (m k) as [k' [a|e| |]]; auto.
Qed.
End triples.

Lemma triple_modify E f P Q : (∀ c, P c → Q (f c)) → triple P (modify f) (λ _, Q) E.
Proof. intros H [k c] Hc. simpl. auto. Qed.

Lemma triple_ret E P (Q : ClientContext → Prop) : (∀ c, P c → Q c) → triple P (mret ()) (λ _, Q) E.
Proof. intros H [k c] Hc. simpl. auto. Qed.

(** What the dispatcher relies on in a subscribed slot. *)
Definition buffers_ready (c : ClientContext) (count : Z) (suffix : string) (bs : list SharedMatrixBuffer) : Prop :=
  zlen bs = count ∧
  ∀ i b, zget bs i = Some b →
    RowCount b = numRows (matrixSize c) ∧ ColumnCount b = numColumns (matrixSize c) ∧
    SharedMatrixBuffer.GetName b = SharedMatrixBuffer_CreateShmObjectName (id c) i suffix ∧
    SharedMatrixBuffer.GetBufferSizeInBytes b = 8 * (numRows (matrixSize c) * numColumns (matrixSize c)).

Definition ready (c : ClientContext) : Prop :=
  subscribed c = true ∧ is_Some (pRequestQueue c) ∧ is_Some (pTransposeReadyFutex c) ∧
  buffers_ready c (dim_k (matrixSize c)) MATRIX_BUF_NAME_SUFFIX (matrixBuffers c) ∧
  buffers_ready c (dim_k (matrixSize c)) TR_MATRIX_BUF_NAME_SUFFIX (matrixBuffersTr c).

Lemma buffers_ready_snoc c count suffix bs b :
  buffers_ready c count suffix bs →
  RowCount b = numRows (matrixSize c) ∧ ColumnCount b = numColumns (matrixSize c) ∧
  SharedMatrixBuffer.GetName b = SharedMatrixBuffer_CreateShmObjectName (id c) count suffix ∧
  SharedMatrixBuffer.GetBufferSizeInBytes b = 8 * (numRows (matrixSize c) * numColumns (matrixSize c)) →
  buffers_ready c (count + 1) suffix (bs ++ [b]).
Proof.
  intros [Hl Hbs] Hb. split; [rewrite zlen_app, Hl; done|]. intros i b' Hget.
  pose proof (zget_Some_range _ _ _ Hget) as Hi. rewrite zlen_app in Hi.
  change (zlen [b]) with 1 in Hi. destruct (decide (i < zlen bs)).
  - rewrite zget_app_l in Hget by done. by apply Hbs.
  - assert (i = zlen bs) as -> by lia. rewrite zget_app_r, Z.sub_diag in Hget by lia.
    injection Hget as <-. by rewrite Hl.
Qed.

Section setup.
Context `{PosixShmSpec} (lock_free : bool) (cacheLine : Z) (reserve_ok : Z → bool).
Context (clientId m n k : Z) (context : Z).
Hypothesis Hm : 0 ≤ m < 32.
Hypothesis Hn : 0 ≤ n < 32.
Hypothesis Hk : 0 ≤ k.

Definition in_setup (c : ClientContext) : Prop :=
  subscribed c = false ∧ id c = clientId ∧ ipcContext c = context ∧
  matrixSize c = mkBufferDimensions m n k (2 ^ m) (2 ^ n).

(** [i] buffers of each kind are attached. *)
Definition attached (i : Z) (c : ClientContext) : Prop :=
  in_setup c ∧ is_Some (pRequestQueue c) ∧ is_Some (pTransposeReadyFutex c) ∧
  buffers_ready c i MATRIX_BUF_NAME_SUFFIX (matrixBuffers c) ∧
  buffers_ready c i TR_MATRIX_BUF_NAME_SUFFIX (matrixBuffersTr c).

Definition server_buffer_ok (i : Z) (suffix : string) (b : SharedMatrixBuffer) : Prop :=
  RowCount b = 2 ^ m ∧ ColumnCount b = 2 ^ n ∧
  SharedMatrixBuffer.GetName b = SharedMatrixBuffer_CreateShmObjectName clientId i suffix ∧
  SharedMatrixBuffer.GetBufferSizeInBytes b = 8 * (2 ^ m * 2 ^ n).

Lemma server_buffer_triple P i suffix :
  (∀ c, P c → in_setup c) →
  triple P (server_buffer clientId m n i suffix) (λ b c, P c ∧ server_buffer_ok i suffix b) in_setup.
Proof.
  intros HP. eapply (triple_in_kernel _ _ (server_buffer_ok i suffix)); [|done|done].
  intros K. destruct (SharedMatrixBuffer_ctor _ _ _ _ _ _ _ _ K) as [K' r] eqn:Hrun.
  apply ctor_server in Hrun as [[what ->]|(b & -> & (_ & _ & Hr & Hc & _ & Hs & Hna & _) & _)];
    [done| |lia|lia|done].
  unfold server_buffer_ok. by rewrite <-Z.pow_add_r by lia.
Qed.

Lemma attach_from_triple count i :
  triple (attached i) (attach_from clientId m n count i)
    (λ _, attached (i + Z.of_nat count)) in_setup.
Proof.
  revert i. induction count as [|count IH]; intros i; cbn [attach_from].
  { rewrite Z.add_0_r. by apply triple_ret. }
  eapply triple_bind; [apply server_buffer_triple; by intros c [? _]|]. intros b. cbn beta.
  eapply (triple_bind _ _ _ _ (λ _ c, in_setup c ∧ is_Some (pRequestQueue c) ∧
    is_Some (pTransposeReadyFutex c) ∧
    buffers_ready c (i + 1) MATRIX_BUF_NAME_SUFFIX (matrixBuffers c) ∧
    buffers_ready c i TR_MATRIX_BUF_NAME_SUFFIX (matrixBuffersTr c))).
  { apply triple_modify. intros c [((Hs & Hid & Hctx & Hms) & Hq & Hf & Hb & Ht) Hbuf].
    split_and!; try done. apply (buffers_ready_snoc c); [done|]. rewrite Hms, Hid. apply Hbuf. }
  intros []. eapply triple_bind; [apply server_buffer_triple; by intros c [? _]|]. intros bt. cbn beta.
  eapply (triple_bind _ _ _ _ (λ _, attached (i + 1))).
  { apply triple_modify. intros c [((Hs & Hid & Hctx & Hms) & Hq & Hf & Hb & Ht) Hbuf].
    split_and!; try done. apply (buffers_ready_snoc c); [done|]. rewrite Hms, Hid. apply Hbuf. }
  intros []. replace (i + Z.of_nat (S count)) with (i + 1 + Z.of_nat count) by lia. apply IH.
Qed.

Lemma reserve_triple P z : (∀ c, P c → in_setup c) → triple P (reserve reserve_ok z) (λ _, P) in_setup.
Proof. intros HP [K c] Hc. unfold reserve. destruct (reserve_ok z); auto. Qed.

Lemma waker_ctor_total suffix K :
  match FutexSignaller_ctor cacheLine clientId Waker suffix K with
  | (_, Ok _) | (_, Throw _) => True
  | _ => False
  end.
Proof.
  unfold FutexSignaller_ctor. cbv zeta. unfold mbind, stM_bind.
  destruct (SharedMemory_ctor _ _ _ _ K) as [K1 r] eqn:Hrun. apply SharedMemory_ctor_contract in Hrun.
  by inversion Hrun.
Qed.

Lemma consumer_ctor_total suffix K :
  match SpscQueueSeqLock_ctor lock_free cacheLine clientId QueueCtor.Consumer REQ_QUEUE_CAPACITY suffix K with
  | (_, Ok _) | (_, Throw _) => True
  | _ => False
  end.
Proof.
  unfold SpscQueueSeqLock_ctor, queue_ctor. repeat (case_decide; [done|]). cbv zeta.
  unfold mbind, stM_bind. destruct (SharedMemory_ctor _ _ _ _ K) as [K1 r] eqn:Hrun.
  apply SharedMemory_ctor_contract in Hrun. by inversion Hrun.
Qed.

(** The set-up, from what the loop that attaches the buffers does. *)
Lemma setup_context_by (Q0 Q : ClientContext → Prop) :
  triple (attached 0) (attach_from clientId m n (Z.to_nat k) 0) (λ _, Q0) in_setup →
  (∀ c, Q0 c → Q (set_subscribed true c)) →
  triple (λ c, in_setup c ∧ matrixBuffers c = [] ∧ matrixBuffersTr c = [])
    (setup_context lock_free cacheLine reserve_ok clientId m n k) (λ _, Q) in_setup.
Proof.
  intros Hloop HQ.
  unfold setup_context. set (P := λ c, in_setup c ∧ matrixBuffers c = [] ∧ matrixBuffersTr c = []).
  assert (∀ c, P c → in_setup c) as HP by (by intros c [? _]).
  eapply triple_bind; [by apply reserve_triple|]. intros []. eapply triple_bind; [by apply reserve_triple|].
  intros []. eapply (triple_bind _ _ _ _ (λ _, P)).
  { eapply (triple_in_kernel _ _ (λ _, True)); [apply waker_ctor_total|done|done]. }
  intros futex. eapply (triple_bind _ _ _ _ (λ _ c, P c ∧ is_Some (pTransposeReadyFutex c))).
  { apply triple_modify. intros c Hc. split; [done|by eexists]. }
  intros []. eapply (triple_bind _ _ _ _ (λ _ c, P c ∧ is_Some (pTransposeReadyFutex c))).
  { eapply (triple_in_kernel _ _ (λ _, True)); [apply consumer_ctor_total|by intros c [? _]; apply HP|done]. }
  intros queue. eapply (triple_bind _ _ _ _ (λ _, attached 0)).
  { apply triple_modify. intros c [(Hin & Hb & Ht) Hf]. split_and!; try done; simpl;
      unfold buffers_ready; simpl; rewrite ?Hb, ?Ht; (split; [done|]); intros i b Hget; apply zget_Some_range in Hget;
      unfold zlen in *; simpl in *; lia. }
  intros []. eapply triple_bind; [apply Hloop|]. intros []. by apply triple_modify.
Qed.

Lemma setup_context_triple :
  triple (λ c, in_setup c ∧ matrixBuffers c = [] ∧ matrixBuffersTr c = [])
    (setup_context lock_free cacheLine reserve_ok clientId m n k)
    (λ _ c, id c = clientId ∧ ready c ∧ ipcContext c = context ∧
            matrixSize c = mkBufferDimensions m n k (2 ^ m) (2 ^ n))
    in_setup.
Proof.
  eapply setup_context_by; [apply attach_from_triple|]. rewrite Z.add_0_l, Z2Nat.id by done.
  intros c ((Hs & Hid & Hctx & Hms) & Hq & Hf & Hb & Ht). split_and!; try done. unfold ready. simpl.
  rewrite Hms. by split_and!.
Qed.

(** With a matrix of [2^32] cells or more it cannot succeed. *)
Lemma setup_context_too_large :
  32 ≤ m + n → 1 ≤ k →
  triple (λ c, in_setup c ∧ matrixBuffers c = [] ∧ matrixBuffersTr c = [])
    (setup_context lock_free cacheLine reserve_ok clientId m n k) (λ _ _, False) in_setup.
Proof.
  intros Hmn Hk1. eapply (setup_context_by (λ _, False)); [|done].
  destruct (Z.to_nat k) as [|count] eqn:Hcount; [lia|]. cbn [attach_from].
  eapply (triple_bind _ _ _ _ (λ _ _, False)); [|intros b [K c] []].
  eapply (triple_in_kernel _ _ (λ _, False)); [|by intros c [? _]|done].
  intros K. destruct (SharedMatrixBuffer_ctor _ _ _ _ _ _ _ _ K) as [K' r] eqn:Hrun.
  apply ctor_server in Hrun as [[what ->]|(b & -> & (_ & Hlt & _) & _)]; [done|lia|lia|lia|done].
Qed.
End setup.

(** The context that precedes the [try] block. *)
Lemma begin_context_setup clientId m n k context c0 :
  0 ≤ m → 0 ≤ n → begin_context clientId m n k context = Ok c0 →
  m < 32 ∧ n < 32 ∧ in_setup clientId m n k context c0 ∧ matrixBuffers c0 = [] ∧ matrixBuffersTr c0 = [].
Proof.
  intros Hm Hn Hbegin. unfold begin_context in Hbegin.
  apply result_bind_Ok in Hbegin as (rows & Hrows & Hbegin).
  apply result_bind_Ok in Hbegin as (cols & Hcols & [= <-]). unfold shift_dimension in Hrows, Hcols.
  destruct (decide (m < 32)); [|discriminate Hrows]. injection Hrows as <-.
  destruct (decide (n < 32)); [|discriminate Hcols]. injection Hcols as <-.
  assert (2 ^ m < 2 ^ 32) by (apply Z.pow_lt_mono_r; lia).
  assert (2 ^ n < 2 ^ 32) by (apply Z.pow_lt_mono_r; lia).
  rewrite !Z.shiftl_1_l, !u32_small by lia. done.
Qed.

(** The [try] block as the server runs it, from that context. *)
Lemma setup_context_post `{PosixShmSpec} lf cls ok clientId m n k context c0 K K' c r :
  0 ≤ m → 0 ≤ n → 0 ≤ k → begin_context clientId m n k context = Ok c0 →
  setup_context lf cls ok clientId m n k (K, c0) = ((K', c), r) →
  (r = Ok () ∧ id c = clientId ∧ ready c ∧ ipcContext c = context ∧
     matrixSize c = mkBufferDimensions m n k (2 ^ m) (2 ^ n)) ∨
  (∃ e, r = Throw e ∧ in_setup clientId m n k context c).
Proof.
  intros Hm Hn Hk Hbegin Hrun.
  destruct (begin_context_setup _ _ _ _ _ _ Hm Hn Hbegin) as (Hm32 & Hn32 & Hc0 & Hb & Ht).
  pose proof (setup_context_triple lf cls ok clientId m n k context (conj Hm Hm32) (conj Hn Hn32) Hk) as Htriple.
  specialize (Htriple (K, c0) (conj Hc0 (conj Hb Ht))) as Hc. rewrite Hrun in Hc.
  destruct r as [[]|e| |]; try done; [by left|right; by exists e].
Qed.

(** Whatever the kernel, it then throws. *)
Lemma setup_context_throws `{PosixShmSpec} lf cls ok clientId m n k context c0 K :
  0 ≤ m → 0 ≤ n → 32 ≤ m + n → 1 ≤ k → begin_context clientId m n k context = Ok c0 →
  ∃ K' c e, setup_context lf cls ok clientId m n k (K, c0) = ((K', c), Throw e).
Proof.
  intros Hm Hn Hmn Hk Hbegin.
  destruct (begin_context_setup _ _ _ _ _ _ Hm Hn Hbegin) as (Hm32 & Hn32 & Hc0 & Hb & Ht).
  pose proof (setup_context_too_large lf cls ok clientId m n k context (conj Hm Hm32) (conj Hn Hn32) Hmn Hk) as Htriple.
  specialize (Htriple (K, c0) (conj Hc0 (conj Hb Ht))).
  destruct (setup_context lf cls ok clientId m n k (K, c0)) as [[K' c] [[]|e| |]]; try done. by exists K', c, e.
Qed.

Lemma setup_context_cases `{PosixShmSpec} lf cls ok clientId m n k context c0 K K' c r :
  0 ≤ m → 0 ≤ n → 0 ≤ k → begin_context clientId m n k context = Ok c0 →
  setup_context lf cls ok clientId m n k (K, c0) = ((K', c), r) →
  id c = clientId ∧ ((r = Ok () ∧ ready c) ∨ (∃ e, r = Throw e ∧ subscribed c = false)).
Proof.
  intros Hm Hn Hk Hbegin Hrun.
  destruct (setup_context_post _ _ _ _ _ _ _ _ _ _ _ _ _ Hm Hn Hk Hbegin Hrun)
    as [(-> & ? & ? & _)|(e & -> & ? & ? & _)]; eauto.
Qed.

(** * Properties *)

(** C29: Setting up a client either completes or is undone as far as anyone else
    can see.  For dimensions the shift accepts, the [try] block of [AddClient]
    ends on every system: it returns with a slot in which the dispatcher finds a
    queue, a futex and [k] pairs of buffers, each of the declared dimensions and
    size and mapped under the name the client uses, or it throws and leaves the
    slot unsubscribed. *)
Theorem setup_context_total `{PosixShmSpec} lf cls ok clientId m n k context c0 K :
  0 ≤ m → 0 ≤ n → 0 ≤ k → begin_context clientId m n k context = Ok c0 →
  ∃ K' c r, setup_context lf cls ok clientId m n k (K, c0) = ((K', c), r) ∧ id c = clientId ∧
    ((r = Ok () ∧ ready c) ∨ (∃ e, r = Throw e ∧ subscribed c = false)).
Proof.
  intros Hm Hn Hk Hbegin. destruct (setup_context lf cls ok clientId m n k (K, c0)) as [[K' c] r] eqn:Hrun.
  exists K', c, r. split; [done|]. exact (setup_context_cases _ _ _ _ _ _ _ _ _ _ _ _ _ Hm Hn Hk Hbegin Hrun).
Qed.

Lemma setup_context_total_witness :
  ∃ K' c r, setup_context true 64 (λ _, true) 4242 2 3 2
      (boot, mkClientContext false 4242 (mkBufferDimensions 2 3 2 4 8) ClientStats_init 5 [] [] None None)
      = ((K', c), r) ∧ id c = 4242 ∧
    ((r = Ok () ∧ ready c) ∨ (∃ e, r = Throw e ∧ subscribed c = false)).
Proof. apply (setup_context_total true 64 (λ _, true) 4242 2 3 2 5); [lia|lia|lia|vm_compute; reflexivity]. Defined.
