(* ===== verification/Release.v ===== *)
(** The reset of a slot of the client bank: [clientBank[indexToAdd] =
    ClientContext()] in [AddClient] destroys what the previous occupant of the
    slot, or an attempt that failed, has left there. *)

From S2P Require Import Prelude ShmNames PosixShm SharedMemory QueueCtor SharedMatrixBuffer FutexSignaller ClientStats ClientBank Ownership.
#[local] Open Scope Z_scope.

(** * The code *)

(** The shared objects of a context in the order in which the assignment of
    [ClientContext()] destroys them, member by member. *)
Definition shm_of_context (c : ClientContext) : list SharedMemory :=
  omap SharedMatrixBuffer.mp_SharedMemory (matrixBuffers c) ++
  omap SharedMatrixBuffer.mp_SharedMemory (matrixBuffersTr c) ++
  option_list (QueueCtor.mp_SharedMemory <$> pRequestQueue c) ++
  option_list (FutexSignaller.mp_SharedMemory <$> pTransposeReadyFutex c).

Definition reset_context `{PosixShm} (c : ClientContext) (k : kernel) : kernel * ClientContext :=
  (destroy_all k (shm_of_context c), ClientContext_init).

(** * What a set-up holds *)

Section setup.
Context `{PosixShmSpec} (lock_free : bool) (cacheLine : Z) (reserve_ok : Z → bool).
Context (clientId m n : Z) (K0 : kernel).
Hypothesis Hm : 0 ≤ m < 64.
Hypothesis Hn : 0 ≤ n < 64.

Definition context_held (s : kernel * ClientContext) : Prop := held K0 s.1 (shm_of_context s.2).

(** A borrower's constructor, with the object put into the context; [R] is what
    else is known of the context afterwards. *)
Lemma attach_hoare {A B} (ctor : kernelM A) (mem : A → option SharedMemory) name size
    (put : A → ClientContext → ClientContext) (rest : slotM B) (P R : ClientContext → Prop) Q :
  (∀ k k' r, ctor k = (k', r) → borrower_ends mem name size k k' r) →
  (∀ a sm c, mem a = Some sm → P c → shm_of_context (put a c) ≡ₚ sm :: shm_of_context c ∧ R (put a c)) →
  hoare (λ s, context_held s ∧ R s.2) rest Q context_held →
  hoare (λ s, context_held s ∧ P s.2) (a ← in_kernel ctor; _ ← modify (put a); rest) Q context_held.
Proof.
  intros Hctor Hput Hrest [k c] [Hs HP]. simpl in HP. unfold mbind, stM_bind, in_kernel, modify.
  destruct (ctor k) as [k' r] eqn:Hrun. apply Hctor in Hrun as [(a & sm & -> & Hmem & _ & Hb)|(e & -> & Hm' & Hf)].
  - destruct (Hput a sm c Hmem HP) as [Hperm HR]. simpl.
    apply (Hrest (k', put a c)). split; [|done]. by eapply held_borrowed.
  - simpl. by eapply held_same.
Qed.

Lemma shm_push_buffer b sm c :
  SharedMatrixBuffer.mp_SharedMemory b = Some sm →
  shm_of_context (push_buffer b c) ≡ₚ sm :: shm_of_context c.
Proof.
  intros Hb. unfold shm_of_context. simpl. rewrite omap_app. simpl. rewrite Hb, <-!app_assoc. simpl.
  symmetry. apply Permutation_middle.
Qed.
Lemma shm_push_buffer_tr b sm c :
  SharedMatrixBuffer.mp_SharedMemory b = Some sm →
  shm_of_context (push_buffer_tr b c) ≡ₚ sm :: shm_of_context c.
Proof.
  intros Hb. unfold shm_of_context. simpl. rewrite omap_app. simpl. rewrite Hb, <-!app_assoc. simpl.
  rewrite !(app_assoc (omap _ _)). symmetry. apply Permutation_middle.
Qed.
Lemma shm_put_queue h c :
  pRequestQueue c = None → shm_of_context (put_queue h c) ≡ₚ QueueCtor.mp_SharedMemory h :: shm_of_context c.
Proof.
  intros Hq. unfold shm_of_context. simpl. rewrite Hq. simpl. rewrite !(app_assoc (omap _ _)).
  symmetry. apply Permutation_middle.
Qed.
Lemma shm_put_futex h c :
  pTransposeReadyFutex c = None →
  shm_of_context (put_futex h c) ≡ₚ FutexSignaller.mp_SharedMemory h :: shm_of_context c.
Proof.
  intros Hf. unfold shm_of_context. simpl. rewrite Hf. simpl. rewrite !app_nil_r, !app_assoc.
  symmetry. apply Permutation_cons_append.
Qed.

Lemma attach_from_hoare count i :
  hoare (λ s, context_held s ∧ True) (attach_from clientId m n count i) (λ _, context_held) context_held.
Proof.
  revert i. induction count as [|count IH]; intros i; cbn [attach_from].
  { apply hoare_ret. by intros s [? _]. }
  unfold server_buffer. eapply (attach_hoare _ _ _ _ _ _ (λ _, True) (λ _, True)).
  { intros k k' r Hrun. eapply (proj1 (matrix_server_ends _ _ _ _ _ _ Hm Hn _ _ _ Hrun)). }
  { intros b sm c Hb _. split; [by apply shm_push_buffer|exact I]. }
  eapply (attach_hoare _ _ _ _ _ _ (λ _, True) (λ _, True)); [|intros b sm c Hb _; split; [by apply shm_push_buffer_tr|exact I]|apply IH].
  intros k k' r Hrun. eapply (proj1 (matrix_server_ends _ _ _ _ _ _ Hm Hn _ _ _ Hrun)).
Qed.

Lemma reserve_hoare P z :
  hoare (λ s, context_held s ∧ P s.2) (reserve reserve_ok z) (λ _ s, context_held s ∧ P s.2) context_held.
Proof. intros s [Hs HP]. unfold reserve. by destruct (reserve_ok z). Qed.

Lemma setup_context_hoare k :
  hoare (λ s, context_held s ∧ (pRequestQueue s.2 = None ∧ pTransposeReadyFutex s.2 = None))
    (setup_context lock_free cacheLine reserve_ok clientId m n k) (λ _, context_held) context_held.
Proof.
  unfold setup_context. set (P c := pRequestQueue c = None ∧ pTransposeReadyFutex c = None).
  eapply hoare_bind; [apply (reserve_hoare P)|]. intros []. eapply hoare_bind; [apply (reserve_hoare P)|].
  intros []. eapply (attach_hoare _ _ _ _ _ _ P (λ c, pRequestQueue c = None)).
  { intros K K' r Hrun. eapply (proj1 (waker_ends _ _ _ _ _ _ Hrun)). }
  { intros h sm c [= <-] [Hq Hf]. split; [by apply shm_put_futex|done]. }
  eapply (attach_hoare _ _ _ _ _ _ (λ c, pRequestQueue c = None) (λ _, True)).
  { intros K K' r Hrun. unfold SpscQueueSeqLock_ctor in Hrun. apply consumer_ends in Hrun as [Hends _]; [exact Hends|by vm_compute]. }
  { intros h sm c [= <-] Hq. split; [by apply shm_put_queue|exact I]. }
  eapply hoare_bind; [apply attach_from_hoare|]. intros []. by intros [K c] Hs.
Qed.
End setup.

(** * Properties *)

(** C30: Resetting a slot gives back all that its set-up took.  Whether the set-up
    of a client completed or failed half-way, and whatever else was mapped in the
    meantime, the reset of the slot leaves exactly the other mappings: the
    server's address space and descriptors do not grow with the clients it has
    served. *)
Theorem reset_releases `{PosixShmSpec} lf cls ok clientId m n k context c0 K K' c r K2 others :
  0 ≤ m → 0 ≤ n → begin_context clientId m n k context = Ok c0 →
  setup_context lf cls ok clientId m n k (K, c0) = ((K', c), r) →
  mappings K2 = mappings K' ∪ others → others ##ₘ mappings K' →
  let '(K3, c') := reset_context c K2 in
  mappings K3 = mappings K ∪ others ∧ fds K' = fds K ∧ fds K3 = fds K2 ∧ shm_of_context c' = [].
Proof.
  intros Hm Hn Hbegin Hrun HK2 Hdisj. unfold begin_context in Hbegin.
  apply result_bind_Ok in Hbegin as (rows & Hrows & Hbegin).
  apply result_bind_Ok in Hbegin as (cols & Hcols & [= <-]).
  assert (m < 32 ∧ n < 32) as [Hm32 Hn32].
  { unfold shift_dimension in Hrows, Hcols. destruct (decide (m < 32)), (decide (n < 32)); done. }
  assert (held K K' (shm_of_context c)) as Hheld.
  { pose proof (setup_context_hoare lf cls ok clientId m n K ltac:(lia) ltac:(lia) k) as Ht.
    eapply (hoare_run _ _ _ _ _ _ _ Ht) in Hrun as [(? & _ & Hh)|(? & _ & Hh)]; [exact Hh|exact Hh|].
    split; [apply held_nil|done]. }
  simpl. destruct (destroy_held K K' K2 _ others Hheld HK2 Hdisj) as [-> ->].
  split_and!; [done|apply Hheld|done|done].
Qed.

Lemma reset_releases_witness :
  let c0 := mkClientContext false 4242 (mkBufferDimensions 2 3 2 4 8) ClientStats_init 5 [] [] None None in
  let '((K', c), r) := setup_context true 64 (λ _, true) 4242 2 3 2 (boot, c0) in
  let '(K3, c') := reset_context c K' in
  mappings K3 = mappings boot ∪ ∅ ∧ fds K' = fds boot ∧ fds K3 = fds K' ∧ shm_of_context c' = [].
Proof.
  cbv zeta. destruct (setup_context _ _ _ _ _ _ _ _) as [[K' c] r] eqn:Hrun.
  refine (reset_releases true 64 (λ _, true) 4242 2 3 2 5 _ boot K' c r K' ∅ _ _ _ Hrun _ _);
    [lia|lia|vm_compute; reflexivity|by rewrite (right_id_L ∅ (∪))|apply map_disjoint_empty_l].
Defined.
