(* ===== verification/Server.v ===== *)
(** The threads of the server ([transposer_demo/transpose_server]): the
    communication thread, which runs [MessageHandler] with [AddClient] and
    [RemoveClient], and the [WorkloadDispatcher] thread.  They share the client
    bank, the bit set of valid slots and the flag [clientBankUpdateAvailable],
    and synchronise only through that flag.

    The machine interleaves their accesses to the shared variables, of which
    [HandshakeAtomics] has the memory orders.  The read of a true flag in a waiting
    loop changes nothing and is not a step. *)

From S2P Require Import Prelude ShmNames PosixShm SharedMemory ClientStats ClientBank Messages.
#[local] Open Scope Z_scope.

(** * The code *)

(** Where the communication thread is; [i] is the slot it works on. *)
Inductive msg_pc :=
  | MIdle                          (** between messages *)
  | MSetup (i clientId m n k : Z)  (** [AddClient], in the [try] block *)
  | MAddSpin (i : Z)               (** waiting for the flag to be clear *)
  | MAddSet (i : Z)                (** before [setBit] *)
  | MAddStore (i : Z)              (** before the flag is set *)
  | MRespond (i : Z)               (** before the response is sent *)
  | MRmSpin (i : Z)                (** [RemoveClient], waiting for the flag to be clear *)
  | MRmSet (i : Z)                 (** before [setBit] *)
  | MRmStore (i : Z)               (** before the flag is set *)
  | MRmWait (i : Z)                (** waiting for the dispatcher to take the update *)
  | MRmFinish (i : Z)              (** before [subscribed] is cleared *)
  | MUndef.                        (** after undefined behaviour *)

(** Where the dispatcher is. *)
Inductive disp_pc :=
  | DTop               (** at the test of [running] *)
  | DLoad              (** at the test of the flag *)
  | DCopy              (** before the copy of the bit set *)
  | DClear             (** before the flag is cleared *)
  | DScan (i : Z)      (** at the head of the loop over the slots *)
  | DServe (i : Z)     (** working on slot [i] *)
  | DExit.

Record server_state := mkServer {
  clientBank : ClientBank;
  validClientsBitSet : Z;
  clientBankUpdateAvailable : bool;
  running : bool;
  serverPid : Z;
  msg : msg_pc;
  disp : disp_pc;
  localValidClientsBitSet : Z
}.

Inductive server_event :=
  | EvAdded (clientId : Z)
  | EvFailed (clientId : Z)
  | EvAlready (clientId : Z)
  | EvUnknown (clientId : Z)
  | EvRemoved (clientId : Z)
  | EvIgnored
  | EvOverflow (clientId : Z)    (** no free slot: [indexToAdd] is uninitialised *)
  | EvBadShift (clientId : Z)    (** a dimension of 2^32 or more *)
  | EvServe (clientId : Z)       (** the dispatcher turns to a client *)
  | EvSent (socket : Z) (message : ClientServerMessage).

#[local] Arguments setBit : simpl never.

Definition set_stats (st : ClientStats) (c : ClientContext) : ClientContext :=
  mkClientContext (subscribed c) (id c) (matrixSize c) st (ipcContext c) (matrixBuffers c)
    (matrixBuffersTr c) (pRequestQueue c) (pTransposeReadyFutex c).

(** The response to a subscription. *)
Definition subscribe_response (serverPid clientId bankSize : Z) : ClientServerMessage :=
  GenerateSubscribeResponseMessage (mkMessage 0 0 0 0 0) serverPid clientId MAX_CLIENTS bankSize.

Section machine.
Context `{PosixShm} (lock_free : bool) (cacheLine : Z) (reserve_ok : Z → bool).

(** The communication thread: on arrival of a message from a socket, and while
    it handles the message. *)
Inductive msg_step : option (Z * ClientServerMessage) → server_state → option server_event → server_state → Prop :=
  | subscribe_already b v u r p d l message socket c m n k j :
      ProcessSubscribeMessage message = Some (c, m, n, k) → ClientExists b c = Some j →
      msg_step (Some (socket, message)) (mkServer b v u r p MIdle d l) (Some (EvAlready c)) (mkServer b v u r p MIdle d l)
  | subscribe_begin b v u r p d l message socket c m n k i ctx :
      ProcessSubscribeMessage message = Some (c, m, n, k) → is_message message →
      ClientExists b c = None →
      index_to_add v = Some i → begin_context c m n k socket = Ok ctx →
      msg_step (Some (socket, message)) (mkServer b v u r p MIdle d l) None
               (mkServer (zset b i ctx) v u r p (MSetup i c m n k) d l)
  | subscribe_overflow b v u r p d l message socket c m n k :
      ProcessSubscribeMessage message = Some (c, m, n, k) → ClientExists b c = None →
      index_to_add v = None →
      msg_step (Some (socket, message)) (mkServer b v u r p MIdle d l) (Some (EvOverflow c)) (mkServer b v u r p MUndef d l)
  | subscribe_bad_shift b v u r p d l message socket c m n k i :
      ProcessSubscribeMessage message = Some (c, m, n, k) → ClientExists b c = None →
      index_to_add v = Some i → begin_context c m n k socket = Undef →
      msg_step (Some (socket, message)) (mkServer b v u r p MIdle d l) (Some (EvBadShift c)) (mkServer b v u r p MUndef d l)
  | setup_done b v u r p d l i c m n k ctx0 K K' ctx :
      zget b i = Some ctx0 →
      setup_context lock_free cacheLine reserve_ok c m n k (K, ctx0) = ((K', ctx), Ok ()) →
      msg_step None (mkServer b v u r p (MSetup i c m n k) d l) None
               (mkServer (zset b i ctx) v u r p (MAddSpin i) d l)
  | setup_failed b v u r p d l i c m n k ctx0 K K' ctx e :
      zget b i = Some ctx0 →
      setup_context lock_free cacheLine reserve_ok c m n k (K, ctx0) = ((K', ctx), Throw e) →
      msg_step None (mkServer b v u r p (MSetup i c m n k) d l) (Some (EvFailed c))
               (mkServer (zset b i ctx) v u r p MIdle d l)
  | add_spin b v r p d l i :
      msg_step None (mkServer b v false r p (MAddSpin i) d l) None (mkServer b v false r p (MAddSet i) d l)
  | add_set b v u r p d l i ctx :
      zget b i = Some ctx →
      msg_step None (mkServer b v u r p (MAddSet i) d l) (Some (EvAdded (id ctx)))
               (mkServer b (setBit v i true) u r p (MAddStore i) d l)
  | add_store b v u r p d l i :
      msg_step None (mkServer b v u r p (MAddStore i) d l) None (mkServer b v true r p (MRespond i) d l)
  | respond b v u r p d l i ctx :
      zget b i = Some ctx →
      msg_step None (mkServer b v u r p (MRespond i) d l)
               (Some (EvSent (ipcContext ctx) (subscribe_response p (id ctx) (zlen b))))
               (mkServer b v u r p MIdle d l)
  | unsubscribe_unknown b v u r p d l message socket c :
      ProcessUnsubscribeMessage message = Some c → ClientExists b c = None →
      msg_step (Some (socket, message)) (mkServer b v u r p MIdle d l) (Some (EvUnknown c)) (mkServer b v u r p MIdle d l)
  | unsubscribe b v u r p d l message socket c j :
      ProcessUnsubscribeMessage message = Some c → ClientExists b c = Some j →
      msg_step (Some (socket, message)) (mkServer b v u r p MIdle d l) None
               (mkServer b v u r p (MRmSpin (index_to_remove b c)) d l)
  | remove_spin b v r p d l i :
      msg_step None (mkServer b v false r p (MRmSpin i) d l) None (mkServer b v false r p (MRmSet i) d l)
  | remove_set b v u r p d l i :
      msg_step None (mkServer b v u r p (MRmSet i) d l) None
               (mkServer b (setBit v i false) u r p (MRmStore i) d l)
  | remove_store b v u r p d l i :
      msg_step None (mkServer b v u r p (MRmStore i) d l) None (mkServer b v true r p (MRmWait i) d l)
  | remove_wait b v r p d l i :
      msg_step None (mkServer b v false r p (MRmWait i) d l) None (mkServer b v false r p (MRmFinish i) d l)
  | remove_finish b v u r p d l i ctx :
      zget b i = Some ctx →
      msg_step None (mkServer b v u r p (MRmFinish i) d l) (Some (EvRemoved (id ctx)))
               (mkServer (zset b i (set_subscribed false ctx)) v u r p MIdle d l)
  | message_ignored b v u r p d l message socket :
      ProcessSubscribeMessage message = None → ProcessUnsubscribeMessage message = None →
      msg_step (Some (socket, message)) (mkServer b v u r p MIdle d l) (Some EvIgnored) (mkServer b v u r p MIdle d l).

(** The dispatcher.  What it does with a slot's queue and buffers is the subject
    of [System]; on the bank it only writes the slot's statistics. *)
Inductive disp_step : server_state → option server_event → server_state → Prop :=
  | top_running b v u p m l :
      disp_step (mkServer b v u true p m DTop l) None (mkServer b v u true p m DLoad l)
  | top_stopped b v u p m l :
      disp_step (mkServer b v u false p m DTop l) None (mkServer b v u false p m DExit l)
  | load_update b v r p m l :
      disp_step (mkServer b v true r p m DLoad l) None (mkServer b v true r p m DCopy l)
  | load_none b v r p m l :
      disp_step (mkServer b v false r p m DLoad l) None (mkServer b v false r p m (DScan 0) l)
  | copy b v u r p m l :
      disp_step (mkServer b v u r p m DCopy l) None (mkServer b v u r p m DClear v)
  | clear b v u r p m l :
      disp_step (mkServer b v u r p m DClear l) None (mkServer b v false r p m (DScan 0) l)
  | scan_skip b v u r p m l i :
      i < MAX_CLIENTS → getBit l i = false →
      disp_step (mkServer b v u r p m (DScan i) l) None (mkServer b v u r p m (DScan (i + 1)) l)
  | scan_serve b v u r p m l i ctx :
      i < MAX_CLIENTS → getBit l i = true → zget b i = Some ctx →
      disp_step (mkServer b v u r p m (DScan i) l) (Some (EvServe (id ctx)))
                (mkServer b v u r p m (DServe i) l)
  | scan_end b v u r p m l i :
      MAX_CLIENTS ≤ i →
      disp_step (mkServer b v u r p m (DScan i) l) None (mkServer b v u r p m DTop l)
  | serve_empty b v u r p m l i :
      disp_step (mkServer b v u r p m (DServe i) l) None (mkServer b v u r p m (DScan (i + 1)) l)
  | serve_request b v u r p m l i ctx start stop :
      zget b i = Some ctx →
      disp_step (mkServer b v u r p m (DServe i) l) None
        (mkServer (zset b i (set_stats (StopTimer stop (StartTimer start (stats ctx))) ctx))
           v u r p m (DScan (i + 1)) l).

(** The main thread, when Enter is pressed, clears [running]. *)
Inductive server_step : server_state → option server_event → server_state → Prop :=
  | by_msg inp s e s' : msg_step inp s e s' → server_step s e s'
  | by_disp s e s' : disp_step s e s' → server_step s e s'
  | by_main b v u r p m d l :
      server_step (mkServer b v u r p m d l) None (mkServer b v u false p m d l).
End machine.

(** The state in which [main] starts the threads. *)
Definition server_init (pid : Z) : server_state :=
  mkServer (replicate (Z.to_nat MAX_CLIENTS) ClientContext_init) 0 false true pid MIdle DTop 0.

(** * The handshake

    The invariant of the flag: how the dispatcher's copy of the bit set relates
    to the bit set itself. *)

(** The slot the communication thread works on, with the value of its bit. *)
Definition msg_slot (m : msg_pc) : option (Z * bool) :=
  match m with
  | MIdle | MUndef => None
  | MSetup i _ _ _ _ | MAddSpin i | MAddSet i | MRmStore i | MRmWait i | MRmFinish i => Some (i, false)
  | MAddStore i | MRespond i | MRmSpin i | MRmSet i => Some (i, true)
  end.

(** The states in which it relies on the flag being clear. *)
Definition flag_clear (m : msg_pc) : bool :=
  match m with
  | MAddSet _ | MAddStore _ | MRmSet _ | MRmStore _ | MRmFinish _ => true
  | _ => false
  end.

(** The slot whose bit is cleared but perhaps not yet in the dispatcher's copy. *)
Definition retiring (m : msg_pc) : option Z :=
  match m with MRmStore i | MRmWait i => Some i | _ => None end.

Record handshake (v l : Z) (u : bool) (m : msg_pc) (d : disp_pc) : Prop := {
  hs_nonneg : 0 ≤ v ∧ 0 ≤ l;
  hs_slot : ∀ i b, msg_slot m = Some (i, b) → 0 ≤ i < MAX_CLIENTS ∧ getBit v i = b;
  hs_local : ∀ j, 0 ≤ j < MAX_CLIENTS → getBit l j = true → getBit v j = true ∨ retiring m = Some j;
  hs_flag : u = true → flag_clear m = false;
  hs_taken : u = false → ∀ i, m = MRmWait i → getBit l i = false;
  hs_copy : d = DCopy ∨ d = DClear → u = true;
  hs_clear : d = DClear → l = v;
  hs_disp : match d with
            | DScan i => 0 ≤ i ≤ MAX_CLIENTS
            | DServe i => 0 ≤ i < MAX_CLIENTS ∧ getBit l i = true
            | _ => True
            end
}.

Definition handshake_of (s : server_state) : Prop :=
  handshake (validClientsBitSet s) (localValidClientsBitSet s) (clientBankUpdateAvailable s) (msg s) (disp s).

Lemma disp_handshake s e s' : disp_step s e s' → handshake_of s → handshake_of s'.
Proof.
  unfold handshake_of. intros Hs [[Hv Hl] Hslot Hloc Hflag Htaken Hcopy Hclear Hdisp].
  destruct Hs; simpl in *; split; try done; try (by intros [|]); try (split; done || lia);
    try lia; eauto.
  - intros _ i ->. by apply (Hslot i false).
  - intros _ i ->. rewrite (Hclear eq_refl). by apply (Hslot i false).
Qed.

Lemma set_other_bits v i b j :
  0 ≤ v → 0 ≤ i < MAX_CLIENTS → 0 ≤ j < MAX_CLIENTS → i ≠ j → getBit (setBit v i b) j = getBit v j.
Proof. unfold MAX_CLIENTS. intros. rewrite getBit_setBit by lia. by rewrite decide_False. Qed.
Lemma set_own_bit v i b : 0 ≤ v → 0 ≤ i < MAX_CLIENTS → getBit (setBit v i b) i = b.
Proof. unfold MAX_CLIENTS. intros. rewrite getBit_setBit by lia. by rewrite decide_True. Qed.

(** * The bank *)

(** The slot that is subscribed although its bit is clear. *)
Definition extra (m : msg_pc) : option Z :=
  match m with
  | MAddSpin i | MAddSet i | MRmStore i | MRmWait i | MRmFinish i => Some i
  | _ => None
  end.

Definition setup_pending (b : ClientBank) (v i c m n k : Z) : Prop :=
  0 ≤ m ∧ 0 ≤ n ∧ 0 ≤ k ∧ (∃ ctx socket, zget b i = Some ctx ∧ begin_context c m n k socket = Ok ctx) ∧
  (∀ j ctx, zget b j = Some ctx → subscribed ctx = true → id ctx ≠ c) ∧
  (∀ j, 0 ≤ j < i → getBit v j = true).

Record bank_inv (b : ClientBank) (v : Z) (mp : msg_pc) : Prop := {
  bk_len : zlen b = MAX_CLIENTS;
  bk_ids : ids_before b;
  bk_ready : ∀ i c, zget b i = Some c → subscribed c = true → ready c;
  bk_bits : ∀ i c, zget b i = Some c → subscribed c = getBit v i || bool_decide (extra mp = Some i);
  bk_setup : ∀ i c m n k, mp = MSetup i c m n k → setup_pending b v i c m n k
}.

(** Replacing a slot by one with an id no other subscribed slot has. *)
Lemma ids_before_zset b i x :
  ids_before b → (∀ j c, j ≠ i → zget b j = Some c → subscribed c = true → id c ≠ id x) →
  (subscribed x = true → ∀ j c, 0 ≤ j < i → zget b j = Some c → id c ≠ id x) → ids_before (zset b i x).
Proof.
  intros Hids Hsub Hnew i1 j1 c1 c2 Hj Hi1 Hj1 Hs Heq.
  apply zget_zset_Some in Hi1 as [[-> ->]|[Hne1 Hi1]], Hj1 as [[-> ->]|[Hne2 Hj1]].
  - lia.
  - by apply (Hnew Hs j1 c2).
  - by apply (Hsub i1 c1).
  - by apply (Hids i1 j1 c1 c2).
Qed.

(** Replacing a slot by one with the same id, subscribed only if the old one was. *)
Lemma ids_before_same b i x c0 :
  ids_before b → zget b i = Some c0 → id x = id c0 → (subscribed x = true → subscribed c0 = true) →
  ids_before (zset b i x).
Proof.
  intros Hids Hi Hid Hsub i1 j1 c1 c2 Hj Hi1 Hj1 Hs.
  apply zget_zset_Some in Hi1 as [[-> ->]|[Hne1 Hi1]], Hj1 as [[-> ->]|[Hne2 Hj1]]; rewrite ?Hid.
  - lia.
  - apply (Hids i j1); auto.
  - by apply (Hids i1 i).
  - by apply (Hids i1 j1).
Qed.

(** Of two subscribed slots, the ids differ. *)
Lemma ids_distinct b i j ci cj :
  ids_before b → zget b i = Some ci → zget b j = Some cj →
  subscribed ci = true → subscribed cj = true → id ci = id cj → i = j.
Proof.
  intros Hids Hi Hj Hsi Hsj Heq. pose proof (zget_Some_range _ _ _ Hi). pose proof (zget_Some_range _ _ _ Hj).
  destruct (Z.lt_trichotomy i j) as [Hlt|[->|Hgt]]; [|done|].
  - exfalso. by apply (Hids j i cj ci); [lia|..].
  - exfalso. by apply (Hids i j ci cj); [lia|..].
Qed.

Lemma ready_set_stats st c : ready c → ready (set_stats st c).
Proof. done. Qed.

(** The slot the dispatcher works on has its bit, or is about to lose its client. *)
Lemma serving_slot s i :
  handshake_of s → disp s = DServe i →
  0 ≤ i < MAX_CLIENTS ∧ (getBit (validClientsBitSet s) i = true ∨ retiring (msg s) = Some i).
Proof.
  intros Hh Hd. pose proof (hs_disp _ _ _ _ _ Hh) as Hr. rewrite Hd in Hr. destruct Hr as [Hr Hl].
  split; [done|]. by apply (hs_local _ _ _ _ _ Hh).
Qed.

Lemma serving_not_filling s i :
  handshake_of s → disp s = DServe i → msg_slot (msg s) = Some (i, false) → retiring (msg s) = Some i.
Proof.
  intros Hh Hd Hm. destruct (serving_slot s i Hh Hd) as [_ [Hbit|]]; [|done].
  destruct (hs_slot _ _ _ _ _ Hh i false Hm) as [_ Hbit']. congruence.
Qed.

Lemma bit_subscribed b v m i c :
  bank_inv b v m → zget b i = Some c → getBit v i = true ∨ retiring m = Some i → subscribed c = true.
Proof.
  intros Hb Hget Hor. rewrite (bk_bits _ _ _ Hb i c Hget). destruct Hor as [->|Hr]; [done|].
  apply orb_true_iff. right. apply bool_decide_eq_true. by destruct m.
Qed.

Lemma disp_bank s e s' :
  disp_step s e s' → handshake_of s → bank_inv (clientBank s) (validClientsBitSet s) (msg s) →
  bank_inv (clientBank s') (validClientsBitSet s') (msg s').
Proof.
  intros Hs Hh Hb. destruct Hs; simpl in *; try done.
  pose proof (serving_slot _ i Hh eq_refl) as [Hi Hor]. simpl in Hor.
  pose proof (bit_subscribed _ _ _ _ _ Hb H Hor) as Hsub.
  destruct Hb as [Hlen Hids Hready Hbits Hsetup]. split.
  - by rewrite zlen_zset.
  - by apply (ids_before_same _ _ _ ctx).
  - intros j c [[-> ->]|[_ Hj]]%zget_zset_Some Hc; [|by eapply Hready].
    apply ready_set_stats. by eapply Hready.
  - intros j c [[-> ->]|[_ Hj]]%zget_zset_Some; [|by apply Hbits]. simpl. by apply Hbits.
  - intros j c mm n k ->. specialize (Hsetup j c mm n k eq_refl).
    destruct Hsetup as (? & ? & ? & (ctx0 & socket & Hj & Hbegin) & Hne & Hbefore).
    assert (j ≠ i).
    { intros ->. destruct (hs_slot _ _ _ _ _ Hh i false eq_refl) as [_ Hbit]. simpl in Hbit.
      destruct Hor as [Hor|Hor]; [congruence|done]. }
    split_and!; try done.
    + exists ctx0, socket. by rewrite zget_zset_ne.
    + intros j' c' [[-> ->]|[_ Hj']]%zget_zset_Some; [|by eapply Hne]. intros _. by apply (Hne i ctx).
Qed.

Lemma begin_context_id c m n k socket ctx :
  begin_context c m n k socket = Ok ctx → id ctx = c ∧ subscribed ctx = false.
Proof.
  unfold begin_context. intros Hb. apply result_bind_Ok in Hb as (? & _ & Hb).
  by apply result_bind_Ok in Hb as (? & _ & [= <-]).
Qed.

(** A new context in slot [i]: subscribed or not, it has an id of its own. *)
Lemma bank_inv_new b v i c x mp mp' :
  bank_inv b v mp → getBit v i = false → (extra mp = None) → id x = c →
  (∀ j ctx, zget b j = Some ctx → subscribed ctx = true → id ctx ≠ c) →
  (∀ j, 0 ≤ j < i → getBit v j = true) → (subscribed x = true → ready x) →
  extra mp' = (if subscribed x then Some i else None) →
  (∀ i' c m n k, mp' = MSetup i' c m n k → setup_pending (zset b i x) v i' c m n k) →
  bank_inv (zset b i x) v mp'.
Proof.
  intros [Hlen Hids Hready Hbits Hsetup] Hbit Hextra Hid Hne Hbefore Hx Hextra' Hpending. split.
  - by rewrite zlen_zset.
  - apply ids_before_zset; [done|..]; rewrite Hid.
    + intros j ctx _. apply Hne.
    + intros _ j ctx Hj Hget. apply (Hne j ctx Hget). rewrite (Hbits j ctx Hget).
      by rewrite Hbefore.
  - intros j ctx [[-> ->]|[_ Hj]]%zget_zset_Some; [done|by apply (Hready j)].
  - intros j ctx [[-> ->]|[Hji Hj]]%zget_zset_Some; rewrite Hextra'.
    + rewrite Hbit. destruct (subscribed x); [by rewrite bool_decide_true|by rewrite bool_decide_false].
    + rewrite (Hbits j ctx Hj), Hextra. f_equal. destruct (subscribed x); [|done].
      by rewrite !bool_decide_false by congruence.
  - done.
Qed.

Section msg_invariant.
Context `{PosixShmSpec} (lf : bool) (cls : Z) (ok : Z → bool).

Lemma msg_bank inp s e s' :
  msg_step lf cls ok inp s e s' → handshake_of s → bank_inv (clientBank s) (validClientsBitSet s) (msg s) →
  bank_inv (clientBank s') (validClientsBitSet s') (msg s').
Proof.
  intros Hs Hh Hb.
  destruct Hs as [|b v u r p d l message socket c m n k i ctx Hp Hmsg Hex Hidx Hbegin| | |b v u r p d l i c m n k ctx0 K K' ctx Hget Hrun
    |b v u r p d l i c m n k ctx0 K K' ctx e Hget Hrun| |b v u r p d l i ctx Hget| | | | | |b v u r p d l i| | |b v u r p d l i ctx Hget|];
    cbn [clientBank validClientsBitSet msg] in *; try done;
    try (destruct Hb as [Hlen Hids Hready Hbits Hsetup]; split; done).
  - apply index_to_add_Some in Hidx as (Hrange & Hbit & Hbefore).
    destruct (proj2 (zget_is_Some b i)) as [ctx0 Hget]; [by rewrite (bk_len _ _ _ Hb)|].
    destruct (begin_context_id _ _ _ _ _ _ Hbegin) as [Hid Hsub].
    assert (∀ j ctx, zget b j = Some ctx → subscribed ctx = true → id ctx ≠ c) as Hne
      by (intros j cj; by apply ClientExists_None).
    eapply (bank_inv_new _ _ _ c _ MIdle); try done; [by rewrite Hsub|by rewrite Hsub|].
    intros ? ? ? ? ? [= <- <- <- <- <-]. unfold ProcessSubscribeMessage in Hp. case_decide; [done|].
    injection Hp as <- <- <- <-. destruct Hmsg as (_ & _ & [? _] & [? _] & [? _]).
    pose proof (zget_Some_range _ _ _ Hget). split_and!; try done.
    + exists ctx, socket. by rewrite zget_zset_eq.
    + intros j cj [[-> ->]|[_ Hj]]%zget_zset_Some; [congruence|by apply (Hne j)].
  - destruct (bk_setup _ _ _ Hb _ _ _ _ _ eq_refl) as (? & ? & ? & (ctx1 & socket & Hget1 & Hbegin) & Hne & Hbefore).
    destruct (hs_slot _ _ _ _ _ Hh i false eq_refl) as [_ Hbit]. assert (ctx1 = ctx0) as -> by congruence.
    destruct (setup_context_cases _ _ _ _ _ _ _ _ _ _ _ _ _ H1 H2 H3 Hbegin Hrun) as [Hid [[_ Hx]|(? & [=] & _)]].
    destruct Hx as [Hsub ?]. by eapply (bank_inv_new _ _ _ c _ (MSetup i c m n k)); try done; rewrite Hsub.
  - destruct (bk_setup _ _ _ Hb _ _ _ _ _ eq_refl) as (? & ? & ? & (ctx1 & socket & Hget1 & Hbegin) & Hne & Hbefore).
    destruct (hs_slot _ _ _ _ _ Hh i false eq_refl) as [_ Hbit]. assert (ctx1 = ctx0) as -> by congruence.
    destruct (setup_context_cases _ _ _ _ _ _ _ _ _ _ _ _ _ H1 H2 H3 Hbegin Hrun) as [Hid [[[=] _]|(? & _ & Hsub)]].
    by eapply (bank_inv_new _ _ _ c _ (MSetup i c m n k)); try done; rewrite Hsub.
  - destruct (hs_slot _ _ _ _ _ Hh i false eq_refl) as [Hi Hbit]. pose proof (proj1 (hs_nonneg _ _ _ _ _ Hh)).
    destruct Hb as [Hlen Hids Hready Hbits Hsetup]. split; try done.
    intros j c Hj. rewrite (Hbits j c Hj). simpl. pose proof (zget_Some_range _ _ _ Hj) as Hjr. simpl in *.
    destruct (decide (i = j)) as [->|Hne].
    + rewrite set_own_bit, bool_decide_true by (done || lia). by rewrite orb_true_r.
    + rewrite set_other_bits by (done || lia). by rewrite bool_decide_false by congruence.
  - destruct (hs_slot _ _ _ _ _ Hh i true eq_refl) as [Hi Hbit]. pose proof (proj1 (hs_nonneg _ _ _ _ _ Hh)).
    destruct Hb as [Hlen Hids Hready Hbits Hsetup]. split; try done.
    intros j c Hj. rewrite (Hbits j c Hj). simpl. pose proof (zget_Some_range _ _ _ Hj) as Hjr. simpl in *.
    destruct (decide (i = j)) as [->|Hne].
    + by rewrite set_own_bit, bool_decide_true, Hbit by (done || lia).
    + rewrite set_other_bits by (done || lia). by rewrite (bool_decide_false (Some i = Some j)) by congruence.
  - destruct (hs_slot _ _ _ _ _ Hh i false eq_refl) as [Hi Hbit].
    destruct Hb as [Hlen Hids Hready Hbits Hsetup]. split; try done.
    + by rewrite zlen_zset.
    + by apply (ids_before_same _ _ _ ctx).
    + intros j c [[-> ->]|[_ Hj]]%zget_zset_Some; [done|by apply (Hready j)].
    + intros j c [[-> ->]|[Hne Hj]]%zget_zset_Some; simpl in *; [by rewrite Hbit|].
      rewrite (Hbits j c Hj). simpl. by rewrite bool_decide_false by congruence.
Qed.

Lemma msg_handshake inp s e s' :
  msg_step lf cls ok inp s e s' → bank_inv (clientBank s) (validClientsBitSet s) (msg s) →
  handshake_of s → handshake_of s'.
Proof.
  unfold handshake_of. intros Hs Hb [[Hv Hl] Hslot Hloc Hflag Htaken Hcopy Hclear Hdisp].
  pose proof (setBit_nonneg _ (default 0 (fst <$> msg_slot (msg s))) true Hv) as Hv1.
  pose proof (setBit_nonneg _ (default 0 (fst <$> msg_slot (msg s))) false Hv) as Hv2.
  destruct Hs as [|b v u r p d l message socket c m n k i ctx Hp Hmsg Hex Hidx Hbegin| | |
    | | |b v u r p d l i ctx Hget| | | |b v u r p d l message socket c j Hp Hex| |b v u r p d l i| |b v r p d l i| |];
    simpl in *; try (split; done).
  - apply index_to_add_Some in Hidx as (Hr & Hbit & _).
    split; try done. by intros ? ? [= <- <-].
  - destruct (Hslot i false eq_refl) as [Hi Hbit].
    assert (u = false) as -> by (destruct u; [by specialize (Hflag eq_refl)|done]).
    split; try done.
    + intros ? ? [= <- <-]. split; [done|]. by apply set_own_bit.
    + intros j Hj Hlj. left. destruct (decide (i = j)) as [->|Hne]; [by apply set_own_bit|].
      rewrite set_other_bits by done. by destruct (Hloc j Hj Hlj).
    + intros ->. exfalso. specialize (Hcopy (or_intror eq_refl)). done.
  - destruct (ClientExists_Some _ _ _ Hex) as (cj & Hget & Hsub & _).
    rewrite (index_to_remove_exists _ _ _ (bk_ids _ _ _ Hb) Hex).
    pose proof (zget_Some_range _ _ _ Hget) as Hr. rewrite (bk_len _ _ _ Hb) in Hr.
    rewrite (bk_bits _ _ _ Hb _ _ Hget) in Hsub. simpl in Hsub. rewrite orb_false_r in Hsub.
    split; try done. by intros ? ? [= <- <-].
  - destruct (Hslot i true eq_refl) as [Hi Hbit].
    assert (u = false) as -> by (destruct u; [by specialize (Hflag eq_refl)|done]).
    split; try done.
    + intros ? ? [= <- <-]. split; [done|]. by apply set_own_bit.
    + intros j Hj Hlj. destruct (decide (i = j)) as [->|Hne]; [by right|]. left.
      rewrite set_other_bits by done. by destruct (Hloc j Hj Hlj).
    + intros ->. exfalso. specialize (Hcopy (or_intror eq_refl)). done.
  - split; try done. intros j Hj Hlj. destruct (Hloc j Hj Hlj) as [|[= <-]]; [by left|].
    exfalso. by rewrite (Htaken eq_refl i eq_refl) in Hlj.
Qed.

(** Both invariants hold in every reachable state. *)
Definition server_inv (s : server_state) : Prop :=
  handshake_of s ∧ bank_inv (clientBank s) (validClientsBitSet s) (msg s).

Lemma server_inv_step s e s' : server_inv s → server_step lf cls ok s e s' → server_inv s'.
Proof.
  intros [Hh Hb] Hs. destruct Hs as [inp s e s' Hs|s e s' Hs|b v u r p m d l].
  - split; [by eapply msg_handshake|by eapply msg_bank].
  - split; [by eapply disp_handshake|by eapply disp_bank].
  - split; [|done]. destruct Hh as [? ? ? ? ? ? ? ?]. by split.
Qed.

Lemma server_inv_init pid : server_inv (server_init pid).
Proof.
  unfold server_inv, handshake_of, server_init.
  cbn [clientBank validClientsBitSet clientBankUpdateAvailable msg disp localValidClientsBitSet].
  split; split; try done.
  - by intros [?|?].
  - intros i j ci cj _ Hi%zget_replicate_inv _ Hs. by subst ci.
  - intros i c ->%zget_replicate_inv. done.
  - intros i c ->%zget_replicate_inv. by rewrite getBit_0.
Qed.

Lemma server_inv_exec pid tr s : exec (server_step lf cls ok) (server_init pid) tr s → server_inv s.
Proof. apply exec_invariant; [intros; by eapply server_inv_step|apply server_inv_init]. Qed.
End msg_invariant.

(** * The abstract specification: a registry of clients

    The state is the set of registered clients.  A client is registered by its
    subscription and until its unsubscription; the dispatcher works for
    registered clients only, and a response is sent to a registered client. *)

Inductive registry_step (pid : Z) : gset Z → option server_event → gset Z → Prop :=
  | reg_added S c : c ∉ S → registry_step pid S (Some (EvAdded c)) ({[c]} ∪ S)
  | reg_failed S c : c ∉ S → registry_step pid S (Some (EvFailed c)) S
  | reg_already S c : c ∈ S → registry_step pid S (Some (EvAlready c)) S
  | reg_unknown S c : c ∉ S → registry_step pid S (Some (EvUnknown c)) S
  | reg_removed S c : c ∈ S → registry_step pid S (Some (EvRemoved c)) (S ∖ {[c]})
  | reg_ignored S : registry_step pid S (Some EvIgnored) S
  | reg_overflow S c :
      c ∉ S → Z.of_nat (size S) = MAX_CLIENTS → registry_step pid S (Some (EvOverflow c)) S
  | reg_bad_shift S c : c ∉ S → registry_step pid S (Some (EvBadShift c)) S
  | reg_serve S c : c ∈ S → registry_step pid S (Some (EvServe c)) S
  | reg_sent S c socket :
      c ∈ S → registry_step pid S (Some (EvSent socket (subscribe_response pid c MAX_CLIENTS))) S.

(** A slot's client is announced once its bit has been set. *)
Definition announced (m : msg_pc) (i : Z) : Prop := m ≠ MAddSpin i ∧ m ≠ MAddSet i.

Definition live (b : ClientBank) (m : msg_pc) (c : Z) : Prop :=
  ∃ i ctx, zget b i = Some ctx ∧ subscribed ctx = true ∧ id ctx = c ∧ announced m i.

Definition registered (s : server_state) (S : gset Z) : Prop :=
  ∀ c, c ∈ S ↔ live (clientBank s) (msg s) c.

(** [live] when one slot or the thread's position changes. *)
Lemma live_split b m i ctx c :
  zget b i = Some ctx →
  live b m c ↔ (subscribed ctx = true ∧ id ctx = c ∧ announced m i) ∨
    ∃ j ctx', j ≠ i ∧ zget b j = Some ctx' ∧ subscribed ctx' = true ∧ id ctx' = c ∧ announced m j.
Proof.
  intros Hi. split.
  - intros (j & ctx' & Hj & Hr). destruct (decide (j = i)) as [->|Hne]; [left|right].
    + assert (ctx' = ctx) as -> by congruence. done.
    + by exists j, ctx'.
  - intros [Hr|(j & ctx' & _ & Hj & Hr)]; [by exists i, ctx|by exists j, ctx'].
Qed.

Lemma live_zset b m m' i ctx x c :
  zget b i = Some ctx → (∀ j, j ≠ i → announced m j ↔ announced m' j) →
  live (zset b i x) m' c ↔ (subscribed x = true ∧ id x = c ∧ announced m' i) ∨
    ∃ j ctx', j ≠ i ∧ zget b j = Some ctx' ∧ subscribed ctx' = true ∧ id ctx' = c ∧ announced m j.
Proof.
  intros Hi Ha. rewrite (live_split _ _ i x) by (apply zget_zset_eq; by eapply zget_Some_range).
  apply or_iff_compat_l. split; intros (j & ctx' & Hne & Hj & Hs & Hid & Hann); exists j, ctx';
    rewrite ?zget_zset_ne in * by done; split_and!; try done; by apply Ha.
Qed.

(** The changes that concern no live client. *)
Lemma live_zset_dead b m m' i ctx x c :
  zget b i = Some ctx → (∀ j, j ≠ i → announced m j ↔ announced m' j) →
  subscribed ctx = false → subscribed x = false ∨ ¬ announced m' i →
  live (zset b i x) m' c ↔ live b m c.
Proof.
  intros Hi Ha Hs Hx. rewrite (live_zset _ m) by done. rewrite (live_split b m i ctx) by done.
  apply or_iff_compat_r. split; [|by rewrite Hs; intros []]. intros (Hs' & _ & Hann).
  destruct Hx; congruence.
Qed.

Lemma live_same b m m' c : (∀ j, announced m j ↔ announced m' j) → live b m c ↔ live b m' c.
Proof.
  intros Ha. split; intros (j & ctx & Hj & Hs & Hid & Hann); exists j, ctx; split_and!; try done; by apply Ha.
Qed.

Lemma announced_slot b v u m d l i ctx :
  handshake v l u m d → bank_inv b v m → zget b i = Some ctx → getBit v i = true ∨ retiring m = Some i →
  subscribed ctx = true ∧ announced m i.
Proof.
  intros Hh Hb Hget Hor. split; [by eapply bit_subscribed|].
  split; intros ->; destruct (hs_slot _ _ _ _ _ Hh i false eq_refl) as [_ Hbit];
    (destruct Hor as [Hor|Hor]; [congruence|done]).
Qed.

(** A full bank holds [MAX_CLIENTS] different clients. *)
Lemma full_registry b v (S : gset Z) :
  bank_inv b v MIdle → index_to_add v = None → (∀ c, c ∈ S ↔ live b MIdle c) →
  Z.of_nat (size S) = MAX_CLIENTS.
Proof.
  intros Hb Hfull HS.
  assert (∀ i ctx, zget b i = Some ctx → subscribed ctx = true) as Hsub.
  { intros i ctx Hi. apply (bit_subscribed _ _ _ _ _ Hb Hi). left.
    apply (index_to_add_None v); [done|]. rewrite <-(bk_len _ _ _ Hb). by eapply zget_Some_range. }
  assert (S = list_to_set (id <$> b)) as ->.
  { apply set_eq. intros c. rewrite HS, elem_of_list_to_set, list_elem_of_fmap. split.
    - intros (i & ctx & Hi & _ & <- & _). exists ctx. split; [done|].
      rewrite zget_to_nat in Hi by (by eapply zget_Some_range). by eapply list_elem_of_lookup_2.
    - intros (ctx & -> & [i Hi]%list_elem_of_lookup_1). exists (Z.of_nat i), ctx.
      rewrite zget_of_nat. split_and!; try done. apply (Hsub (Z.of_nat i)). by rewrite zget_of_nat. }
  rewrite size_list_to_set, length_fmap; [apply Hb|].
  apply NoDup_alt. intros i j c Hi Hj. apply list_lookup_fmap_Some in Hi as (ci & Hci & Hi).
  apply list_lookup_fmap_Some in Hj as (cj & Hcj & Hj). rewrite <-zget_of_nat in Hi, Hj.
  enough (Z.of_nat i = Z.of_nat j) by lia.
  apply (ids_distinct b _ _ ci cj); [apply Hb|done|done|by eapply Hsub|by eapply Hsub|congruence].
Qed.

Section refinement.
Context `{PosixShmSpec} (lf : bool) (cls : Z) (ok : Z → bool) (pid : Z).

Definition server_rel (s : server_state) (S : gset Z) : Prop :=
  server_inv s ∧ serverPid s = pid ∧ registered s S.

Lemma registered_exists b m v (S : gset Z) c j :
  bank_inv b v m → m = MIdle → (∀ c, c ∈ S ↔ live b m c) → ClientExists b c = Some j → c ∈ S.
Proof. intros _ -> HS (ctx & Hget & Hsub & Hid)%ClientExists_Some. apply HS. by exists j, ctx. Qed.

Lemma registered_absent b m (S : gset Z) c :
  (∀ c, c ∈ S ↔ live b m c) → (∀ j ctx, zget b j = Some ctx → subscribed ctx = true → id ctx ≠ c) → c ∉ S.
Proof. intros HS Hne (j & ctx & Hget & Hsub & Hid & _)%HS. by apply (Hne j ctx). Qed.

Lemma disp_sim s e s' S :
  server_rel s S → disp_step s e s' → exec (registry_step pid) S (option_list e) S ∧ registered s' S.
Proof.
  intros [[Hh Hb] [_ HS]] Hs. unfold registered in *.
  destruct Hs as [| | | | | | |b v u r p m l i ctx Hi Hbit Hget| | |b v u r p m l i ctx start stop Hget];
    simpl in *; try (split; [constructor|exact HS]).
  - pose proof (hs_disp _ _ _ _ _ Hh) as Hr. simpl in Hr.
    pose proof (hs_local _ _ _ _ _ Hh i ltac:(simpl; lia) Hbit) as Hor.
    destruct (announced_slot _ _ _ _ _ _ _ _ Hh Hb Hget Hor) as [Hsub Hann].
    split; [|exact HS]. apply exec_single, reg_serve, HS. by exists i, ctx.
  - split; [constructor|]. intros c. rewrite HS.
    destruct (serving_slot _ i Hh eq_refl) as [_ Hor].
    destruct (announced_slot _ _ _ _ _ _ _ _ Hh Hb Hget Hor) as [Hsub Hann]. simpl in *.
    by rewrite (live_zset b m m i ctx), (live_split b m i ctx) by done.
Qed.

(** The bit of a new client is set, and a client's slot is released. *)
Lemma live_added b v i ctx :
  bank_inv b v (MAddSet i) → zget b i = Some ctx →
  ¬ live b (MAddSet i) (id ctx) ∧ ∀ c, live b (MAddStore i) c ↔ c = id ctx ∨ live b (MAddSet i) c.
Proof.
  intros Hb Hget. assert (subscribed ctx = true) as Hsub.
  { rewrite (bk_bits _ _ _ Hb _ _ Hget). simpl. by rewrite bool_decide_true, orb_true_r. }
  split.
  - intros (j & cj & Hj & Hsj & Hid & _ & Ha).
    assert (j = i) as -> by (by apply (ids_distinct b j i cj ctx); [apply Hb|..]). done.
  - intros c. rewrite !(live_split b _ i ctx) by done. split.
    + intros [(_ & <- & _)|(j & cj & Hne & Hj & ? & ? & _)]; [by left|right; right].
      exists j, cj. unfold announced. split_and!; try done; congruence.
    + intros [->|[(_ & _ & [_ []])|(j & cj & Hne & Hj & ? & ? & _)]]; [by left|done|right].
      by exists j, cj.
Qed.

Lemma live_removed b v i ctx :
  bank_inv b v (MRmFinish i) → zget b i = Some ctx →
  live b (MRmFinish i) (id ctx) ∧
  ∀ c, live (zset b i (set_subscribed false ctx)) MIdle c ↔ live b (MRmFinish i) c ∧ c ≠ id ctx.
Proof.
  intros Hb Hget. assert (subscribed ctx = true) as Hsub.
  { rewrite (bk_bits _ _ _ Hb _ _ Hget). simpl. by rewrite bool_decide_true, orb_true_r. }
  split; [by exists i, ctx|]. intros c.
  rewrite (live_zset b (MRmFinish i) MIdle i ctx), (live_split b (MRmFinish i) i ctx) by done. split.
  - intros [(? & _)|(j & cj & Hne & Hj & Hsj & Hid & Ha)]; [done|]. split; [right; by exists j, cj|].
    intros ->. destruct Hne. by apply (ids_distinct b j i cj ctx); [apply Hb|..].
  - intros [[(_ & -> & _)|?] Hc]; [done|by right].
Qed.

Lemma msg_sim inp s e s' S :
  server_rel s S → msg_step lf cls ok inp s e s' →
  ∃ S', exec (registry_step pid) S (option_list e) S' ∧ registered s' S'.
Proof.
  intros ([Hh Hb] & Hpid & HS) Hs. unfold registered in *.
  destruct Hs as [b v u r p d l message socket c m n k j Hp Hex|b v u r p d l message socket c m n k i ctx Hp Hmsg Hex Hidx Hbegin
    |b v u r p d l message socket c m n k Hp Hex Hidx|b v u r p d l message socket c m n k i Hp Hex Hidx Hbegin
    |b v u r p d l i c m n k ctx0 K K' ctx Hget Hrun|b v u r p d l i c m n k ctx0 K K' ctx e Hget Hrun
    |b v r p d l i|b v u r p d l i ctx Hget|b v u r p d l i|b v u r p d l i ctx Hget|b v u r p d l message socket c Hp Hex
    |b v u r p d l message socket c j Hp Hex|b v r p d l i|b v u r p d l i|b v u r p d l i|b v r p d l i
    |b v u r p d l i ctx Hget|b v u r p d l message socket Hp1 Hp2]; simpl in *; subst.
  all: try (exists S; split; [constructor|]; intros c'; rewrite HS; by apply live_same).
  - exists S. split; [|done]. apply exec_single, reg_already. by eapply registered_exists.
  - apply index_to_add_Some in Hidx as (Hrange & Hbit & _).
    destruct (proj2 (zget_is_Some b i)) as [ctx0 Hget]; [by rewrite (bk_len _ _ _ Hb)|].
    destruct (begin_context_id _ _ _ _ _ _ Hbegin) as [_ Hsub]. exists S. split; [constructor|].
    intros c'. rewrite HS. symmetry. apply (live_zset_dead _ _ _ _ ctx0); [done|done| |by left].
    rewrite (bk_bits _ _ _ Hb _ _ Hget). by rewrite Hbit.
  - exists S. split; [|intros c'; rewrite HS; by apply live_same]. apply exec_single, reg_overflow; [|by eapply full_registry].
    eapply registered_absent; [done|]. intros j ctx. by apply ClientExists_None.
  - exists S. split; [|intros c'; rewrite HS; by apply live_same]. apply exec_single, reg_bad_shift.
    eapply registered_absent; [done|]. intros j ctx. by apply ClientExists_None.
  - destruct (hs_slot _ _ _ _ _ Hh i false eq_refl) as [_ Hbit]. simpl in Hbit. exists S. split; [constructor|].
    intros c'. rewrite HS. symmetry. apply (live_zset_dead _ _ _ _ ctx0); [done| | |right; by intros []].
    + intros j Hne. split; intros _; split; congruence.
    + rewrite (bk_bits _ _ _ Hb _ _ Hget). by rewrite Hbit.
  - destruct (hs_slot _ _ _ _ _ Hh i false eq_refl) as [_ Hbit]. simpl in Hbit.
    destruct (bk_setup _ _ _ Hb _ _ _ _ _ eq_refl) as (? & ? & ? & (ctx1 & socket & Hget1 & Hbegin) & Hne & _).
    assert (ctx1 = ctx0) as -> by congruence.
    destruct (setup_context_cases _ _ _ _ _ _ _ _ _ _ _ _ _ H1 H2 H3 Hbegin Hrun) as [Hid [[[=] _]|(? & _ & Hsub)]].
    exists S. split; [apply exec_single, reg_failed; by eapply registered_absent|].
    intros c'. rewrite HS. symmetry. apply (live_zset_dead _ _ _ _ ctx0); [done|done| |by left].
    rewrite (bk_bits _ _ _ Hb _ _ Hget). by rewrite Hbit.
  - exists S. split; [constructor|]. intros c'. rewrite HS. apply live_same. intros j.
    split; intros [H1 H2]; split; congruence.
  - destruct (live_added b v i ctx Hb Hget) as [Hnew Hlive]. exists ({[id ctx]} ∪ S). split.
    + apply exec_single, reg_added. by rewrite HS.
    + intros c'. rewrite elem_of_union, elem_of_singleton, HS, Hlive. done.
  - destruct (hs_slot _ _ _ _ _ Hh i true eq_refl) as [Hi Hbit]. simpl in Hbit. rewrite (bk_len _ _ _ Hb).
    exists S. split; [|intros c'; rewrite HS; by apply live_same]. apply exec_single, reg_sent, HS. exists i, ctx.
    split_and!; try done. by apply (bit_subscribed _ _ _ _ _ Hb Hget); left.
  - exists S. split; [|done]. apply exec_single, reg_unknown.
    eapply registered_absent; [done|]. intros j ctx. by apply ClientExists_None.
  - destruct (live_removed b v i ctx Hb Hget) as [Hold Hlive]. exists (S ∖ {[id ctx]}). split.
    + by apply exec_single, reg_removed, HS.
    + intros c'. rewrite elem_of_difference, elem_of_singleton, HS, Hlive. done.
  - exists S. split; [|done]. apply exec_single, reg_ignored.
Qed.

Lemma server_sim s e s' S :
  server_rel s S → server_step lf cls ok s e s' →
  ∃ S', exec (registry_step pid) S (option_list e) S' ∧ server_rel s' S'.
Proof.
  intros Hrel Hs. pose proof (server_inv_step _ _ _ _ _ _ (proj1 Hrel) Hs) as Hinv.
  assert (serverPid s' = serverPid s) as Hp by (destruct Hs as [? ? ? ? Hs|? ? ? Hs|]; [destruct Hs..|]; done).
  destruct Hs as [inp s e s' Hs|s e s' Hs|b v u r p m d l].
  - destruct (msg_sim _ _ _ _ _ Hrel Hs) as (S' & Hexec & HS). exists S'. split; [done|].
    split_and!; [done| |done]. rewrite Hp. apply Hrel.
  - destruct (disp_sim _ _ _ _ Hrel Hs) as (Hexec & HS). exists S. split; [done|].
    split_and!; [done| |done]. rewrite Hp. apply Hrel.
  - exists S. split; [constructor|]. split; [done|]. apply Hrel.
Qed.
End refinement.

(** * Progress of the handshake *)

(** The dispatcher's steps left until it clears a flag that is set. *)
Definition disp_measure (s : server_state) : nat :=
  if negb (clientBankUpdateAvailable s) then 0 else
  match disp s with
  | DClear => 1
  | DCopy => 2
  | DLoad => 3
  | DTop => 4
  | DServe i => Z.to_nat (2 * (MAX_CLIENTS - i) + 4)
  | DScan i => Z.to_nat (2 * (MAX_CLIENTS - i) + 5)
  | DExit => 0
  end.

(** The dispatcher alone, while the update waits. *)
Definition disp_waiting (s s' : server_state) : Prop :=
  clientBankUpdateAvailable s = true ∧ ∃ e, disp_step s e s'.

Definition working (s : server_state) : Prop :=
  running s = true ∧ disp s ≠ DExit ∧ zlen (clientBank s) = MAX_CLIENTS ∧
  match disp s with DScan i => 0 ≤ i ≤ MAX_CLIENTS | DServe i => 0 ≤ i < MAX_CLIENTS | _ => True end.

Lemma disp_waiting_decreases s s' :
  working s → disp_waiting s s' → working s' ∧ (disp_measure s' < disp_measure s)%nat.
Proof.
  unfold working, disp_measure, MAX_CLIENTS. intros (Hr & Hx & Hlen & Hi) [Hu [e Hs]].
  destruct Hs; cbn [disp running clientBank clientBankUpdateAvailable] in *;
    subst; cbn [negb]; rewrite ?zlen_zset; try done; split_and!; try done; unfold MAX_CLIENTS in *; lia.
Qed.

Lemma disp_can_step s : working s → clientBankUpdateAvailable s = true → ∃ s', disp_waiting s s'.
Proof.
  destruct s as [b v u r p m d l]. unfold working, disp_waiting. simpl. intros (-> & Hx & Hlen & Hi) ->.
  destruct d as [| | | |i|i|]; try done.
  - eexists. split; [done|]. eexists. constructor.
  - eexists. split; [done|]. eexists. constructor.
  - eexists. split; [done|]. eexists. constructor.
  - eexists. split; [done|]. eexists. constructor.
  - destruct (decide (i < MAX_CLIENTS)).
    + destruct (getBit l i) eqn:Hbit.
      * destruct (proj2 (zget_is_Some b i)) as [ctx Hget]; [lia|].
        eexists. split; [done|]. eexists. by eapply scan_serve.
      * eexists. split; [done|]. eexists. by apply scan_skip.
    + eexists. split; [done|]. eexists. apply scan_end. lia.
  - eexists. split; [done|]. eexists. constructor.
Qed.

Lemma dispatcher_takes_update s :
  working s → ∃ s', rtc disp_waiting s s' ∧ clientBankUpdateAvailable s' = false.
Proof.
  intros Hw. apply (measure_reaches disp_waiting disp_measure working _ s disp_waiting_decreases); [|done].
  intros s0 Hw0. destruct (clientBankUpdateAvailable s0) eqn:Hu; [right|by left].
  by apply disp_can_step.
Qed.

Lemma server_inv_working s : server_inv s → running s = true → disp s ≠ DExit → working s.
Proof.
  intros [Hh Hb] Hr Hd. split_and!; [done|done|apply Hb|].
  pose proof (hs_disp _ _ _ _ _ Hh) as Hi. destruct (disp s); try done. by destruct Hi.
Qed.

(** One client subscribes, is answered, and is served. *)
Lemma one_client_served :
  ∃ s, exec (server_step true 64 (λ _, true)) (server_init 1)
    [EvAdded 7; EvSent 5 (subscribe_response 1 7 64); EvServe 7] s ∧ disp s = DServe 0.
Proof.
  eexists. split.
  - eapply exec_tau.
    { eapply by_msg. eapply (subscribe_begin _ _ _ _ _ _ _ _ _ _ (mkMessage 0 7 1 1 1) 5);
        [reflexivity|done|vm_compute; reflexivity|vm_compute; reflexivity|vm_compute; reflexivity]. }
    eapply exec_tau.
    { eapply by_msg. eapply (setup_done _ _ _ _ _ _ _ _ _ _ _ _ _ _ _ _ boot);
        [vm_compute; reflexivity|vm_compute; reflexivity]. }
    eapply exec_tau; [eapply by_msg, add_spin|].
    eapply exec_event_eq; [eapply by_msg; eapply add_set; vm_compute; reflexivity|reflexivity|].
    eapply exec_tau; [eapply by_msg, add_store|].
    eapply exec_event_eq; [eapply by_msg; eapply respond; vm_compute; reflexivity|reflexivity|].
    eapply exec_tau; [apply by_disp, top_running|].
    eapply exec_tau; [apply by_disp, load_update|].
    eapply exec_tau; [apply by_disp, copy|].
    eapply exec_tau; [apply by_disp, clear|].
    eapply exec_event_eq; [apply by_disp; eapply scan_serve; vm_compute; reflexivity|reflexivity|].
    apply exec_nil.
  - reflexivity.
Qed.

(** Its update is pending before the dispatcher has begun. *)
Lemma one_update :
  ∃ s, exec (server_step true 64 (λ _, true)) (server_init 1) [EvAdded 7] s ∧
    clientBankUpdateAvailable s = true ∧ running s = true ∧ disp s ≠ DExit.
Proof.
  eexists. split.
  - eapply exec_tau.
    { eapply by_msg. eapply (subscribe_begin _ _ _ _ _ _ _ _ _ _ (mkMessage 0 7 1 1 1) 5);
        [reflexivity|done|vm_compute; reflexivity|vm_compute; reflexivity|vm_compute; reflexivity]. }
    eapply exec_tau.
    { eapply by_msg. eapply (setup_done _ _ _ _ _ _ _ _ _ _ _ _ _ _ _ _ boot);
        [vm_compute; reflexivity|vm_compute; reflexivity]. }
    eapply exec_tau; [eapply by_msg, add_spin|].
    eapply exec_event_eq; [eapply by_msg; eapply add_set; vm_compute; reflexivity|reflexivity|].
    eapply exec_tau; [eapply by_msg, add_store|]. apply exec_nil.
  - by split_and!.
Qed.

(** The communication thread writes no slot the dispatcher works on. *)
Lemma msg_keeps_served `{PosixShmSpec} lf cls ok inp s e s' i :
  server_inv s → disp s = DServe i → msg_step lf cls ok inp s e s' →
  disp s' = DServe i ∧ zget (clientBank s') i = zget (clientBank s) i.
Proof.
  intros Hinv Hd Hs.
  assert (server_inv s') as [Hh' _] by (eapply (server_inv_step lf cls ok); [exact Hinv|by eapply by_msg]).
  assert (disp s' = DServe i) as Hd' by (by destruct Hs). split; [exact Hd'|].
  pose proof (serving_not_filling _ _ (proj1 Hinv) Hd) as Hfill.
  pose proof (serving_not_filling _ _ Hh' Hd') as Hfill'. clear Hinv Hh' Hd'.
  destruct Hs; simpl in *; try done; rewrite zget_zset_ne; try done; intros ->; first [by specialize (Hfill eq_refl)|by specialize (Hfill' eq_refl)].
Qed.

(** * Properties *)

(** C6: The server implements the registry of clients.  Under every interleaving
    of the communication thread, the dispatcher and the main thread, what the
    server does is a run of the registry: a client is added only if it was not
    registered and removed only if it was, although [RemoveClient] searches by id
    alone; a response goes to a registered client; and the dispatcher turns only
    to registered clients, never to one whose removal is complete.  The single
    way out is a subscription when all 64 slots are taken, which is undefined. *)
Theorem server_refines_registry `{PosixShmSpec} lf cls ok pid tr s :
  exec (server_step lf cls ok) (server_init pid) tr s →
  ∃ S, exec (registry_step pid) ∅ tr S ∧ registered s S.
Proof.
  intros Hexec.
  destruct (simulation_exec (server_step lf cls ok) (registry_step pid) (server_rel pid)
    (λ c l c' a, server_sim lf cls ok pid c l c' a) (server_init pid) tr s ∅) as (S & HS & _ & _ & Hreg); [|done|by exists S].
  split_and!; [apply server_inv_init|done|].
  intros c. split; [set_solver|]. by intros (i & ctx & ->%zget_replicate_inv & ? & _).
Qed.

Lemma server_refines_registry_witness :
  ∃ S, exec (registry_step 1) ∅ [EvAdded 7; EvSent 5 (subscribe_response 1 7 64); EvServe 7] S.
Proof.
  destruct one_client_served as (s & Hexec & _).
  destruct (server_refines_registry true 64 (λ _, true) 1 _ s Hexec) as (S & HS & _). by exists S.
Defined.

(** C16: The bank is well formed.  In every reachable state it has its 64 slots, a
    subscribed slot is complete, with its queue, its futex and all its buffers, no
    client occupies two slots, and the searches of the message handler find the
    slot of a subscribed client.  A slot is subscribed exactly when its bit is
    set, except for the one slot that the communication thread is adding or
    removing. *)
Theorem bank_well_formed `{PosixShmSpec} lf cls ok pid tr s :
  exec (server_step lf cls ok) (server_init pid) tr s →
  zlen (clientBank s) = MAX_CLIENTS ∧
  (∀ i ctx, zget (clientBank s) i = Some ctx →
     (extra (msg s) ≠ Some i → subscribed ctx = getBit (validClientsBitSet s) i) ∧
     (subscribed ctx = true → ready ctx ∧ ClientExists (clientBank s) (id ctx) = Some i ∧
        index_to_remove (clientBank s) (id ctx) = i)) ∧
  (∀ i j ci cj, zget (clientBank s) i = Some ci → zget (clientBank s) j = Some cj →
     subscribed ci = true → subscribed cj = true → id ci = id cj → i = j).
Proof.
  intros [_ [Hlen Hids Hready Hbits _]]%server_inv_exec.
  split_and!; [done| |by intros i j ci cj; apply ids_distinct]. intros i ctx Hget. split.
  - intros Hne. rewrite (Hbits i ctx Hget), bool_decide_false by done. by rewrite orb_false_r.
  - intros Hsub. split; [by eapply Hready|].
    assert (ClientExists (clientBank s) (id ctx) = Some i) as Hex; [|split; [done|by apply index_to_remove_exists]].
    destruct (ClientExists (clientBank s) (id ctx)) as [j|] eqn:Hex.
    + destruct (ClientExists_Some _ _ _ Hex) as (cj & Hj & Hsj & Hid). f_equal.
      by apply (ids_distinct (clientBank s) j i cj ctx).
    + by destruct (ClientExists_None _ _ _ _ Hex Hget Hsub).
Qed.

Lemma bank_well_formed_witness :
  ∃ s, disp s = DServe 0 ∧ zlen (clientBank s) = MAX_CLIENTS.
Proof.
  destruct one_client_served as (s & Hexec & Hd). exists s. split; [done|].
  apply (bank_well_formed true 64 (λ _, true) 1 _ s Hexec).
Defined.

(** C13: The flag keeps the threads apart.  Whenever the dispatcher works on a
    slot, the slot has a queue, a futex and all its buffers, and no step that the
    communication thread can take then writes the slot: it is not filling,
    resetting or releasing it, and does not choose it for a new client.  Whenever
    the dispatcher is about to read the shared bit set, no step of the
    communication thread writes the bit set.  These are statements about writes:
    the communication thread may search the bank, and when it handles an
    unsubscription it reads the slot's statistics for its message, which are what
    the dispatcher writes. *)
Theorem dispatcher_exclusive `{PosixShmSpec} lf cls ok pid tr s :
  exec (server_step lf cls ok) (server_init pid) tr s →
  (∀ i, disp s = DServe i →
     ∃ ctx, zget (clientBank s) i = Some ctx ∧ ready ctx ∧
     (∀ c m n k, msg s ≠ MSetup i c m n k) ∧ msg s ≠ MAddSpin i ∧ msg s ≠ MRmFinish i ∧
     (∀ inp e s', msg_step lf cls ok inp s e s' → disp s' = DServe i ∧ zget (clientBank s') i = Some ctx)) ∧
  (disp s = DCopy →
     (∀ i, msg s ≠ MAddSet i ∧ msg s ≠ MRmSet i) ∧
     (∀ inp e s', msg_step lf cls ok inp s e s' →
        disp s' = DCopy ∧ validClientsBitSet s' = validClientsBitSet s)).
Proof.
  intros Hinv%server_inv_exec. pose proof Hinv as [Hh Hb]. split.
  - intros i Hd. destruct (serving_slot _ _ Hh Hd) as [Hi Hor].
    destruct (proj2 (zget_is_Some (clientBank s) i)) as [ctx Hget]; [by rewrite (bk_len _ _ _ Hb)|].
    exists ctx. split; [done|]. split; [by apply (bk_ready _ _ _ Hb i); [|eapply bit_subscribed]|].
    split_and!; [intros c m n k Hm|intros Hm|intros Hm|];
      [by apply (serving_not_filling s i) in Hh; rewrite Hm in *..|].
    intros inp e s' Hs. rewrite <-Hget. by eapply msg_keeps_served.
  - intros Hd. pose proof (hs_flag _ _ _ _ _ Hh (hs_copy _ _ _ _ _ Hh (or_introl Hd))) as Hf.
    split; [intros i; split; intros Hm; by rewrite Hm in Hf|].
    intros inp e s' Hs. destruct Hs; simpl in *; done.
Qed.

Lemma dispatcher_exclusive_witness :
  ∃ s, disp s = DServe 0 ∧
    ∃ ctx, zget (clientBank s) 0 = Some ctx ∧ ready ctx ∧
    (∀ c m n k, msg s ≠ MSetup 0 c m n k) ∧ msg s ≠ MAddSpin 0 ∧ msg s ≠ MRmFinish 0 ∧
    (∀ inp e s', msg_step true 64 (λ _, true) inp s e s' → disp s' = DServe 0 ∧ zget (clientBank s') 0 = Some ctx).
Proof.
  destruct one_client_served as (s & Hexec & Hd). exists s. split; [done|].
  by apply (dispatcher_exclusive true 64 (λ _, true) 1 _ s Hexec).
Defined.

(** C15: The waits of [AddClient] and [RemoveClient] end.  In every reachable state
    in which the server has not been told to stop and the dispatcher has not left its
    loop, the dispatcher alone takes a pending update: until it has, it has a next
    step, and it makes at most 133.  The communication thread does not interfere:
    none of its steps clears the flag, moves the dispatcher or stops the server.  Only
    [main] can, by stopping the server meanwhile. *)
Theorem handshake_progress `{PosixShmSpec} lf cls ok pid tr s :
  exec (server_step lf cls ok) (server_init pid) tr s → running s = true → disp s ≠ DExit →
  (∃ s', rtc disp_waiting s s' ∧ clientBankUpdateAvailable s' = false) ∧
  (∀ s', rtc disp_waiting s s' → clientBankUpdateAvailable s' = false ∨ ∃ s'', disp_waiting s' s'') ∧
  (∀ n s', nsteps disp_waiting n s s' → (n ≤ 133)%nat) ∧
  (∀ inp e s', msg_step lf cls ok inp s e s' → clientBankUpdateAvailable s = true →
     clientBankUpdateAvailable s' = true ∧ disp s' = disp s ∧ running s' = true).
Proof.
  intros Hexec Hr Hd. assert (working s) as Hw by (eapply server_inv_working; [by eapply server_inv_exec|done..]).
  split; [by apply dispatcher_takes_update|]. split_and!.
  - intros s' Hs'. assert (working s') as Hw'
      by (eapply (invariant_rtc disp_waiting working); [|exact Hw|exact Hs']; intros; by eapply disp_waiting_decreases).
    destruct (clientBankUpdateAvailable s') eqn:Hu; [right; by apply disp_can_step|by left].
  - intros n s' Hn. apply (measure_nsteps disp_waiting disp_measure working) in Hn; [|exact disp_waiting_decreases|done].
    enough (disp_measure s ≤ 133)%nat by lia. destruct Hw as (_ & _ & _ & Hi). unfold disp_measure, MAX_CLIENTS in *.
    destruct (negb _); [lia|]. destruct (disp s); lia.
  - intros inp e s' Hs Hu. destruct Hs; simpl in *; done.
Qed.

(** The update with which the first client's bit is announced. *)
Lemma handshake_progress_witness :
  ∃ s, clientBankUpdateAvailable s = true ∧
    (∃ s', rtc disp_waiting s s' ∧ clientBankUpdateAvailable s' = false) ∧
    ∀ n s', nsteps disp_waiting n s s' → (n ≤ 133)%nat.
Proof.
  destruct one_update as (s & Hexec & Hu & Hr & Hd). exists s. split; [exact Hu|].
  split; apply (handshake_progress true 64 (λ _, true) 1 _ s Hexec Hr Hd).
Defined.
