(* ===== verification/HandshakeAtomics.v ===== *)
(** The handshake of the server's threads under the C++ memory model: the steps
    of [Server] with the accesses that they make to the memory of [CppMemory], the
    flag with acquire and release, the bit set and the slots plainly.

    The values of the plain accesses are those of [Server]'s state: without a data
    race a plain read yields the last write.  The flag is read from the memory, so
    that either thread may see an old value. *)

From stdpp Require Import functions.
From S2P Require Import Prelude ShmNames PosixShm CppMemory ClientStats ClientBank Messages Server.
#[local] Open Scope Z_scope.

(** * The code *)

Inductive server_thread := Comm | Disp.

(** [Slot i] are the members of a slot except for [stats]. *)
Inductive server_loc := Flag | Bits | Slot (i : Z) | Stats (i : Z).

#[export] Instance server_thread_eq_dec : EqDecision server_thread.
Proof. solve_decision. Defined.
#[export] Instance server_loc_eq_dec : EqDecision server_loc.
Proof. solve_decision. Defined.

Abbreviation server_memory := (memory server_thread server_loc).

Abbreviation LoadFlag v := (Load Flag Acquire (Z.b2z v)).
Abbreviation StoreFlag v := (Store Flag Release (Z.b2z v)).

(** The searches of the bank, which look at every slot at most. *)
Definition search : list (mem_access server_loc) := (λ i, Plain (Slot i) false) <$> seqZ 0 MAX_CLIENTS.

(** The accesses of the communication thread between two positions.  [logged]
    tells whether the handler of an unsubscription logs the slot's statistics,
    which it does. *)
Definition msg_accesses (logged : bool) (from to : msg_pc) : list (mem_access server_loc) :=
  match from, to with
  | MIdle, MSetup i _ _ _ _ => search ++ [Plain Bits false; Plain (Slot i) true; Plain (Stats i) true]
  | MIdle, MRmSpin i => search ++ if logged then [Plain (Stats i) false] else []
  | MIdle, MUndef => search ++ [Plain Bits false]
  | MIdle, _ => search
  | MSetup i _ _ _ _, _ => [Plain (Slot i) true]
  | MAddSpin _, _ | MRmSpin _, _ | MRmWait _, _ => [LoadFlag false]
  | MAddSet _, _ | MRmSet _, _ => [Plain Bits false; Plain Bits true]
  | MAddStore _, _ | MRmStore _, _ => [StoreFlag true]
  | MRespond i, _ => [Plain (Slot i) false]
  | MRmFinish i, _ => [Plain (Slot i) true]
  | _, _ => []
  end.

(** Those of the dispatcher, which touches the statistics if there is a request. *)
Definition disp_accesses (request : bool) (from to : disp_pc) : list (mem_access server_loc) :=
  match from, to with
  | DLoad, DCopy => [LoadFlag true]
  | DLoad, _ => [LoadFlag false]
  | DCopy, _ => [Plain Bits false]
  | DClear, _ => [StoreFlag false]
  | DScan _, DServe i => [Plain (Slot i) false]
  | DServe i, _ =>
      Plain (Slot i) false :: if request then [Plain (Stats i) false; Plain (Stats i) true] else []
  | _, _ => []
  end.

Abbreviation weak_server := (weak server_state server_thread server_loc).

Section machine.
Context `{PosixShm} (lock_free : bool) (cacheLine : Z) (reserve_ok : Z → bool) (logged : bool).

(** In [stale_flag] an update is pending that the dispatcher does not see yet. *)
Inductive weak_server_step : weak_server → weak_server → Prop :=
  | weak_msg inp s e s' m r :
      msg_step lock_free cacheLine reserve_ok inp s e s' →
      accesses Comm (msg_accesses logged (msg s) (msg s')) m r →
      weak_server_step (Alive s m) (continue s' r)
  | weak_disp request s e s' m r :
      disp_step s e s' → (request = true ↔ clientBank s' ≠ clientBank s) →
      accesses Disp (disp_accesses request (disp s) (disp s')) m r →
      weak_server_step (Alive s m) (continue s' r)
  | stale_flag b v rn p mp l m r :
      accesses Disp (disp_accesses false DLoad (DScan 0)) m r →
      weak_server_step (Alive (mkServer b v true rn p mp DLoad l) m)
        (continue (mkServer b v true rn p mp (DScan 0) l) r)
  | weak_enter b v u rn p mp d l m :
      weak_server_step (Alive (mkServer b v u rn p mp d l) m) (Alive (mkServer b v u false p mp d l) m).
End machine.

(** Zeros, known to both threads when [main] starts them. *)
Definition server_locs : list server_loc := Bits :: (Slot <$> seqZ 0 MAX_CLIENTS) ++ (Stats <$> seqZ 0 MAX_CLIENTS).
Definition server_memory_init : server_memory := memory_init ((λ l, (l, 0)) <$> Flag :: server_locs).
Definition weak_server_init (pid : Z) : weak_server := Alive (server_init pid) server_memory_init.

(** * The memory

    The stores to the flag alternate: the communication thread makes the odd ones,
    the dispatcher the even ones, of which number 0 is the initial value.  The
    label of a plain access has the number of its thread's next store, the first
    that hands it over. *)

Inductive label :=
  | LInit (l : server_loc)
  | LFlag (k : Z)
  | LAcc (t : server_thread) (l : server_loc) (w : bool) (e : Z).

Definition owner (k : Z) : server_thread := if Z.odd k then Comm else Disp.
Definition next (t : server_thread) (K : Z) : Z := if decide (owner K = t) then K + 2 else K + 1.

Lemma owner_succ k : owner (k + 1) ≠ owner k.
Proof. unfold owner. rewrite Z.odd_add. by destruct (Z.odd k). Qed.
Lemma owner_next t K : owner (next t K) = t.
Proof.
  unfold next. case_decide as Ho.
  - rewrite <-Ho. unfold owner. replace (K + 2) with (K + 1 + 1) by lia. rewrite !Z.odd_add. by destruct (Z.odd K).
  - pose proof (owner_succ K). destruct (owner (K + 1)), (owner K), t; done.
Qed.
Lemma next_range t K : K < next t K ≤ K + 2.
Proof. unfold next. case_decide; lia. Qed.
Lemma next_mono t K : next t K ≤ next t (K + 1).
Proof.
  unfold next. pose proof (owner_succ K). repeat case_decide; lia || congruence.
Qed.

(** What the store with label [lb] hands over. *)
Definition covers (lb lb' : label) : Prop :=
  match lb, lb' with LFlag k, LAcc t _ _ e => t = owner k ∧ e ≤ k | _, _ => False end.

Definition label_ev (lb : label) (ev : event server_loc) : Prop :=
  match lb with
  | LInit l => ev_loc ev = l ∧ l ≠ Flag
  | LFlag k => ev_loc ev = Flag ∧ ev_write ev = true ∧ ev_value ev = Z.b2z (Z.odd k)
  | LAcc _ l w _ => ev_loc ev = l ∧ ev_write ev = w ∧ l ≠ Flag
  end.

(** What thread [t] knows, if it has seen store number [k]. *)
Definition known (t : server_thread) (k : Z) (lb : label) : Prop :=
  match lb with LInit _ => True | LFlag j => j = k | LAcc t' _ _ e => t' = t ∨ e ≤ k end.

(** [K] is the number of the last store, [ks t] that of the last one that [t] has
    seen. *)
Record mem_ok (ls : list label) (K : Z) (ks : server_thread → Z) (m : server_memory) : Prop := {
  mo_len : length ls = length (log m);
  mo_ev : ∀ n lb ev, ls !! n = Some lb → log m !! n = Some ev → label_ev lb ev ∧ sees ls (ev_view ev) (covers lb);
  mo_flags : ∀ n n' k k', (n < n')%nat → ls !! n = Some (LFlag k) → ls !! n' = Some (LFlag k') → k < k';
  mo_range : ∀ k, LFlag k ∈ ls ↔ 0 ≤ k ≤ K;
  mo_acc : ∀ t l w e, LAcc t l w e ∈ ls → e ≤ next t K ∧ owner e = t;
  mo_known : ∀ t, sees ls (knows m t) (known t (ks t));
  mo_seen : ∀ t, 0 ≤ ks t ∧ K - 1 ≤ ks t ≤ K;
  mo_own : ks (owner K) = K
}.

Lemma mem_label ls K ks m n ev :
  mem_ok ls K ks m → log m !! n = Some ev → ∃ lb, ls !! n = Some lb ∧ lb ∈ ls ∧ label_ev lb ev.
Proof.
  intros Hm Hn. destruct (lookup_lt_is_Some_2 ls n) as [lb Hlb].
  - rewrite (mo_len _ _ _ _ Hm). by eapply lookup_lt_Some.
  - exists lb. split_and!; [done|by eapply list_elem_of_lookup_2|]. by apply (mo_ev _ _ _ _ Hm _ _ _ Hlb Hn).
Qed.

(** Plain accesses do not race if the thread knows all conflicting ones. *)
Definition conflicts (l : server_loc) (w : bool) (lb : label) : Prop :=
  match lb with LAcc _ l' w' _ => l' = l ∧ w || w' = true | _ => False end.

Lemma no_race ls K ks m t l w :
  mem_ok ls K ks m → l ≠ Flag → (∀ lb, lb ∈ ls → conflicts l w lb → known t (ks t) lb) → races t l w m = false.
Proof.
  intros Hm Hl Hc. apply races_false. intros n ev Hn Hloc Hw.
  destruct (mem_label _ _ _ _ _ _ Hm Hn) as (lb & Hlb & Hin & Hlab). eapply (mo_known _ _ _ _ Hm); [done|].
  destruct lb as [l'|k|t' l' w' e]; [done| |].
  - destruct Hlab as [Hf _]. congruence.
  - destruct Hlab as (<- & <- & _). apply (Hc _ Hin). done.
Qed.

Lemma mem_ok_plain ls K ks m t l w :
  mem_ok ls K ks m → l ≠ Flag → mem_ok (ls ++ [LAcc t l w (next t K)]) K ks (perform t (mkEvent l w 0 ∅) m).
Proof.
  intros [Hlen Hev Hfl Hr Hacc Hkn Hseen Hown] Hl. pose proof (next_range t K) as Hnext. split; try done.
  - simpl. rewrite !length_app. simpl. lia.
  - intros n lb ev Hn Hn'. apply log_perform in Hn' as [Hn'|[-> ->]].
    + rewrite lookup_app_l in Hn by (rewrite Hlen; by eapply lookup_lt_Some).
      destruct (Hev _ _ _ Hn Hn') as [Hlab Hs]. split; [done|]. apply sees_snoc; [done|].
      destruct lb as [|k|]; simpl; try tauto. intros [_ ?]. apply list_elem_of_lookup_2, Hr in Hn. lia.
    + rewrite <-Hlen, lookup_app_r, Nat.sub_diag in Hn by lia. injection Hn as <-. split; [done|].
      intros n' lb' _ Hc. done.
  - intros n n' k k' Hlt Hn Hn'. apply lookup_app_Some in Hn' as [Hn'|[_ Hn']].
    + rewrite lookup_app_l in Hn by (apply lookup_lt_Some in Hn'; lia). by eapply Hfl.
    + by apply list_lookup_singleton_Some in Hn' as [_ [=]].
  - intros k. rewrite elem_of_app, list_elem_of_singleton, Hr. split; [by intros [|]|by left].
  - intros t' l' w' e. rewrite elem_of_app, list_elem_of_singleton. intros [Hin|[= -> -> -> ->]]; [by eapply Hacc|].
    split; [lia|apply owner_next].
  - intros t'. apply sees_snoc; simpl; rewrite ?Hlen.
    + destruct (decide (t = t')) as [->|Hne].
      * eapply sees_mono; [apply Hkn|done|]. rewrite fn_lookup_insert. set_solver.
      * rewrite fn_lookup_insert_ne by done. apply Hkn.
    + specialize (Hseen t'). intros [->|?]; [rewrite fn_lookup_insert; set_solver|lia].
Qed.

(** A load of the flag yields a store that is not older than the last one seen. *)
Lemma mem_ok_load ls K ks m m' t n v :
  mem_ok ls K ks m → atomic_load t Flag Acquire n m = Some (Z.b2z v, m') →
  ∃ k, ks t ≤ k ≤ K ∧ Z.odd k = v ∧ mem_ok ls K (<[t := k]> ks) m'.
Proof.
  intros Hm Hload. unfold atomic_load in Hload.
  destruct (readable t Flag n m) as [ev|] eqn:Hr; simpl in Hload; [|done]. injection Hload as Hv <-.
  apply readable_Some in Hr as (Hn & [_ Hl]%writes_spec & Hnew).
  destruct (mem_label _ _ _ _ _ _ Hm Hn) as (lb & Hlb & Hin & Hlab).
  destruct lb as [l|k|t' l w e]; simpl in Hlab; [destruct Hlab; congruence| |destruct Hlab as (? & _ & ?); congruence].
  destruct Hlab as (_ & _ & Hval). pose proof (proj1 (mo_range _ _ _ _ Hm k) Hin) as Hk.
  pose proof Hm as [Hlen Hev Hfl Hrange Hacc Hkn Hseen Hown].
  assert (ks t ≤ k) as Hge.
  { assert (LFlag (ks t) ∈ ls) as [n' Hn']%list_elem_of_lookup by (apply Hrange; specialize (Hseen t); lia).
    destruct (decide (n < n')%nat) as [Hlt|].
    - destruct (lookup_lt_is_Some_2 (log m) n') as [ev' Hev']; [rewrite <-Hlen; by eapply lookup_lt_Some|].
      destruct (Hnew n' ev' Hlt Hev'); [|by eapply Hkn].
      apply writes_spec. by destruct (Hev _ _ _ Hn' Hev') as [(? & ? & _) _].
    - destruct (decide (n = n')) as [->|]; [rewrite Hn' in Hlb; injection Hlb; lia|].
      apply Z.lt_le_incl, (Hfl n' n); [lia|done..]. }
  exists k. split; [lia|]. split.
  { rewrite Hval in Hv. by destruct (Z.odd k), v. }
  split; try done.
  - intros t'. simpl. destruct (decide (t = t')) as [<-|Hne]; [|rewrite !fn_lookup_insert_ne by done; apply Hkn].
    rewrite !fn_lookup_insert. intros n' lb' Hn' Hc. destruct lb' as [l|j|t' l w e]; simpl in Hc.
    + apply elem_of_union_l, elem_of_union_r. by eapply Hkn.
    + subst j. assert (n' = n) as ->; [|set_solver].
      destruct (decide (n < n')%nat) as [Hlt|]; [specialize (Hfl _ _ _ _ Hlt Hlb Hn'); lia|].
      destruct (decide (n' < n)%nat) as [Hlt|]; [specialize (Hfl _ _ _ _ Hlt Hn' Hlb); lia|]. lia.
    + destruct (decide (t' = t ∨ e ≤ ks t)) as [Hold|Hnot].
      { apply elem_of_union_l, elem_of_union_r. by eapply Hkn. }
      apply elem_of_union_r. destruct (Hev _ _ _ Hlb Hn) as [_ Hview]. eapply Hview; [exact Hn'|]. simpl.
      destruct Hc as [->|He]; [tauto|]. split; [|done].
      apply list_elem_of_lookup_2, Hacc in Hn' as [_ Hoe]. specialize (Hseen t).
      assert (e = k) as <- by lia. done.
  - intros t'. destruct (decide (t = t')) as [<-|Hne]; [|rewrite fn_lookup_insert_ne by done; apply Hseen].
    rewrite fn_lookup_insert. specialize (Hseen t). lia.
  - destruct (decide (t = owner K)) as [->|Hne]; [|by rewrite fn_lookup_insert_ne].
    rewrite fn_lookup_insert. lia.
Qed.

(** A store by the thread whose turn it is. *)
Lemma mem_ok_store ls K ks m t :
  mem_ok ls K ks m → t = owner (K + 1) → ks t = K →
  mem_ok (ls ++ [LFlag (K + 1)]) (K + 1) (<[t := K + 1]> ks)
    (atomic_store t Flag Release (Z.b2z (Z.odd (K + 1))) m).
Proof.
  intros [Hlen Hev Hfl Hr Hacc Hkn Hseen Hown] Ht Hk. pose proof (owner_succ K) as Hsucc.
  unfold atomic_store, store_after. split.
  - simpl. rewrite !length_app. simpl. lia.
  - intros n lb ev Hn Hn'. apply log_perform in Hn' as [Hn'|[-> ->]].
    + rewrite lookup_app_l in Hn by (rewrite Hlen; by eapply lookup_lt_Some).
      destruct (Hev _ _ _ Hn Hn') as [Hlab Hs]. split; [done|]. apply sees_snoc; [done|]. by destruct lb.
    + rewrite <-Hlen, lookup_app_r, Nat.sub_diag in Hn by lia. injection Hn as <-. split; [done|]. simpl.
      apply sees_snoc; [|done]. eapply sees_mono; [apply (Hkn t)| |set_solver].
      intros []; simpl; try done. intros [-> _]. by left.
  - intros n n' k k' Hlt Hn Hn'. apply lookup_app_Some in Hn' as [Hn'|[_ Hn']].
    + rewrite lookup_app_l in Hn by (apply lookup_lt_Some in Hn'; lia). by eapply Hfl.
    + apply list_lookup_singleton_Some in Hn' as [Heq [= <-]]. rewrite lookup_app_l in Hn by lia.
      apply list_elem_of_lookup_2, Hr in Hn. lia.
  - intros k. rewrite elem_of_app, list_elem_of_singleton, Hr. pose proof (Hseen t). split.
    + intros [?|[= ->]]; lia.
    + intros ?. destruct (decide (k = K + 1)) as [->|]; [by right|left; lia].
  - intros t' l' w' e. rewrite elem_of_app, list_elem_of_singleton. intros [Hin|?]; [|done].
    destruct (Hacc _ _ _ _ Hin). pose proof (next_mono t' K). split; [lia|done].
  - intros t'. apply sees_snoc; simpl; rewrite ?Hlen.
    + destruct (decide (t = t')) as [<-|Hne].
      * rewrite !fn_lookup_insert. intros n lb Hn Hc. apply elem_of_union_r. eapply Hkn; [exact Hn|].
        apply list_elem_of_lookup_2 in Hn. destruct lb as [l|j|t' l w e]; simpl in *; [done| |].
        -- apply Hr in Hn. lia.
        -- destruct Hc as [?|?]; [by left|]. destruct (decide (t' = t)) as [|Hne]; [by left|]. right.
           destruct (Hacc _ _ _ _ Hn) as [_ Ho]. assert (e ≠ K + 1) by (intros ->; congruence). lia.
      * rewrite !fn_lookup_insert_ne by done. apply Hkn.
    + intros Heq. destruct (decide (t = t')) as [<-|Hne]; [rewrite fn_lookup_insert; set_solver|].
      rewrite fn_lookup_insert_ne in Heq by done. specialize (Hseen t'). lia.
  - intros t'. destruct (decide (t = t')) as [<-|Hne].
    + rewrite fn_lookup_insert. specialize (Hseen t). lia.
    + rewrite fn_lookup_insert_ne by done. pose proof (Hseen t').
      assert (t' = owner K) as -> by (destruct t, t', (owner K), (owner (K + 1)); congruence). lia.
  - rewrite <-Ht. by rewrite fn_lookup_insert.
Qed.

(** * What the labels say about the server's state *)

(** The first store of [t] that is not before the last store of all. *)
Definition round (t : server_thread) (K : Z) : Z := if decide (owner K = t) then K else K + 1.

Lemma round_mono t K : round t K ≤ round t (K + 1).
Proof. unfold round. repeat case_decide; lia. Qed.
Lemma next_round t K : owner K ≠ t → next t K = round t K.
Proof. intros Ho. unfold next, round. by rewrite !decide_False. Qed.
Lemma round_own t K : owner K = t → round t K = K.
Proof. intros Ho. unfold round. by rewrite decide_True. Qed.

Section facts.
Context (logged : bool).

Section fits.
Context (K : Z) (ks : server_thread → Z) (v l : Z) (mp : msg_pc).

(** The dispatcher's accesses to a slot that it does not serve any more, and to
    one that the communication thread may fill. *)
Definition free_ok (i e : Z) : Prop :=
  (getBit l i = false → e ≤ round Disp K) ∧ (getBit v i = false → retiring mp ≠ Some i → e ≤ ks Comm).

(** The communication thread's accesses to a slot that the dispatcher serves, and
    to one that is valid. *)
Definition valid_ok (i e : Z) : Prop :=
  (getBit l i = true → e ≤ ks Disp) ∧ (getBit v i = true → e ≤ round Comm K).

Definition fits (lb : label) : Prop :=
  match lb with
  | LAcc Comm Bits w e => w = true → e ≤ round Comm K
  | LAcc Disp Bits w e => w = false ∧ e ≤ round Disp K
  | LAcc Comm (Slot i) w e => 0 ≤ i < MAX_CLIENTS ∧ (w = true → valid_ok i e)
  | LAcc Disp (Slot i) w e => 0 ≤ i < MAX_CLIENTS ∧ w = false ∧ free_ok i e
  | LAcc Comm (Stats i) w e => 0 ≤ i < MAX_CLIENTS ∧ (logged = false → w = true ∧ valid_ok i e)
  | LAcc Disp (Stats i) w e => 0 ≤ i < MAX_CLIENTS ∧ (logged = false → free_ok i e)
  | _ => True
  end.
End fits.

(** [fits] follows the state if its two parts do. *)
Lemma fits_change K ks v l mp K' ks' v' l' mp' lb :
  (∀ t, round t K ≤ round t K') →
  (∀ i w e, (lb = LAcc Disp (Slot i) w e ∨ lb = LAcc Disp (Stats i) w e) → 0 ≤ i < MAX_CLIENTS →
     free_ok K ks v l mp i e → free_ok K' ks' v' l' mp' i e) →
  (∀ i w e, (lb = LAcc Comm (Slot i) w e ∨ lb = LAcc Comm (Stats i) w e) → 0 ≤ i < MAX_CLIENTS →
     valid_ok K ks v l i e → valid_ok K' ks' v' l' i e) →
  fits K ks v l mp lb → fits K' ks' v' l' mp' lb.
Proof.
  intros Hr Hf Hv. pose proof (Hr Comm). pose proof (Hr Disp). destruct lb as [|k|[] [| |i|i] w e]; simpl; try done.
  - intros He Hw. specialize (He Hw). lia.
  - intros [? He]. split; [done|]. intros Hw. eapply Hv; eauto.
  - intros [? He]. split; [done|]. intros Hw. destruct (He Hw). split; [done|]. eapply Hv; eauto.
  - intros [? ?]. split; [done|lia].
  - intros (? & ? & ?). split; [done|]. split; [done|]. eapply Hf; eauto.
  - intros [? He]. split; [done|]. intros Hl. eapply Hf; eauto.
Qed.

Definition weak_inv (x : weak_server) : Prop :=
  match x with
  | Alive s m =>
      server_inv s ∧ ∃ ls K ks, mem_ok ls K ks m ∧ clientBankUpdateAvailable s = Z.odd K ∧
        (flag_clear (msg s) = true → ks Comm = K) ∧ (disp s = DCopy ∨ disp s = DClear → ks Disp = K) ∧
        ∀ lb, lb ∈ ls → fits K ks (validClientsBitSet s) (localValidClientsBitSet s) (msg s) lb
  | Raced l => ∃ i, l = Stats i ∧ logged = true
  end.

(** One plain access. *)
Lemma access_plain (P : label → Prop) ls K ks m t l w acts r :
  mem_ok ls K ks m → (∀ lb, lb ∈ ls → P lb) → l ≠ Flag → P (LAcc t l w (next t K)) →
  (∃ i, l = Stats i ∧ logged = true) ∨ (∀ lb, P lb → conflicts l w lb → known t (ks t) lb) →
  accesses t (Plain l w :: acts) m r →
  (r = Race l ∧ ∃ i, l = Stats i ∧ logged = true) ∨
  ∃ ls' m', mem_ok ls' K ks m' ∧ (∀ lb, lb ∈ ls' → P lb) ∧ accesses t acts m' r.
Proof.
  intros Hm HP Hl Hnew Hc [[Hrace ->]|[Hrace Hrest]]%acc_plain_inv; cycle 1.
  - right. eexists (ls ++ [LAcc t l w (next t K)]), _. split; [by apply mem_ok_plain|]. split; [|done].
    intros lb. rewrite elem_of_app, list_elem_of_singleton. intros [?| ->]; auto.
  - destruct Hc as [?|Hc]; [by left|]. exfalso.
    rewrite (no_race ls K ks) in Hrace; [done|done|done|]. auto.
Qed.

(** ** No races *)

Section races.
Context (K : Z) (ks : server_thread → Z) (v l : Z) (mp : msg_pc).
Implicit Type lb : label.

Abbreviation fit := (fits K ks v l mp).

Lemma comm_bits lb w : fit lb → conflicts Bits w lb → (w = true → owner K = Disp ∧ ks Comm = K) → known Comm (ks Comm) lb.
Proof.
  destruct lb as [|k|[] l' w' e]; try (simpl; tauto). intros Hfits [-> Hw] Hturn. simpl in Hfits. destruct Hfits as [-> He].
  rewrite orb_false_r in Hw. destruct (Hturn Hw) as [Ho ->]. rewrite round_own in He by done. by right.
Qed.
Lemma disp_bits lb : fit lb → conflicts Bits false lb → owner K = Comm → ks Disp = K → known Disp (ks Disp) lb.
Proof.
  destruct lb as [|k|[] l' w' e]; try (simpl; tauto). intros Hfits [-> Hw] Ho ->. simpl in Hfits.
  rewrite round_own in Hfits by done. right. auto.
Qed.
Lemma comm_slot lb i w :
  fit lb → conflicts (Slot i) w lb → (w = true → getBit v i = false ∧ retiring mp ≠ Some i) → known Comm (ks Comm) lb.
Proof.
  destruct lb as [|k|[] l' w' e]; try (simpl; tauto). intros Hfits [-> Hw] Hfree. simpl in Hfits.
  destruct Hfits as (_ & -> & _ & He). rewrite orb_false_r in Hw. destruct (Hfree Hw). right. auto.
Qed.
Lemma comm_stats lb i :
  logged = false → fit lb → conflicts (Stats i) true lb → getBit v i = false → retiring mp ≠ Some i → known Comm (ks Comm) lb.
Proof.
  intros Hlog. destruct lb as [|k|[] l' w' e]; try (simpl; tauto). intros Hfits [-> _] ? ?. simpl in Hfits.
  destruct Hfits as (_ & He). right. by apply He.
Qed.
Lemma disp_slot lb i : fit lb → conflicts (Slot i) false lb → getBit l i = true → known Disp (ks Disp) lb.
Proof.
  destruct lb as [|k|[] l' w' e]; try (simpl; tauto). intros Hfits [-> Hw] ?. simpl in Hfits.
  destruct Hfits as (_ & He). right. by apply He.
Qed.
Lemma disp_stats lb i w :
  logged = false → fit lb → conflicts (Stats i) w lb → getBit l i = true → known Disp (ks Disp) lb.
Proof.
  intros Hlog. destruct lb as [|k|[] l' w' e]; try (simpl; tauto). intros Hfits [-> _] ?. simpl in Hfits.
  destruct Hfits as (_ & He). right. by apply He.
Qed.
End races.

(** ** The steps *)

Lemma even_owner K : Z.odd K = false → owner K = Disp.
Proof. unfold owner. by intros ->. Qed.
Lemma odd_owner K : Z.odd K = true → owner K = Comm.
Proof. unfold owner. by intros ->. Qed.

Lemma not_served v l u mp d i :
  handshake v l u mp d → 0 ≤ i < MAX_CLIENTS → getBit v i = false → retiring mp ≠ Some i → getBit l i = false.
Proof.
  intros Hh Hi Hv Hr. apply not_true_iff_false. intros Hl. destruct (hs_local _ _ _ _ _ Hh i Hi Hl); congruence.
Qed.

Lemma fits_pc K ks v l mp mp' lb : retiring mp' = retiring mp → fits K ks v l mp lb → fits K ks v l mp' lb.
Proof. intros Hr. apply fits_change; [done| |done]. intros i w e _ _ [? ?]. split; [done|by rewrite Hr]. Qed.

(** The threads see more, and the number of stores grows. *)
Lemma fits_seen K ks v l mp K' ks' lb :
  K' = K ∨ K' = K + 1 → (∀ t, ks t ≤ ks' t) → fits K ks v l mp lb → fits K' ks' v l mp lb.
Proof.
  intros HK Hks. assert (∀ t, round t K ≤ round t K') as Hr by (intros t; pose proof (round_mono t K); destruct HK as [-> | ->]; lia).
  pose proof (Hks Comm). pose proof (Hks Disp). pose proof (Hr Comm). pose proof (Hr Disp).
  apply fits_change; [done|..]; intros i w e _ _ [He1 He2]; (split; [intros Hb; specialize (He1 Hb)|intros Hb]); try lia.
  - intros Hx. specialize (He2 Hb Hx). lia.
  - specialize (He2 Hb). lia.
Qed.

Lemma insert_mono (ks : server_thread → Z) t k t' : ks t ≤ k → ks t' ≤ <[t := k]> ks t'.
Proof.
  intros. destruct (decide (t = t')) as [<-|]; [by rewrite fn_lookup_insert|by rewrite fn_lookup_insert_ne].
Qed.

(** The communication thread sees the flag clear only when it is. *)
Lemma comm_sees_clear ls K ks m m' n :
  mem_ok ls K ks m → atomic_load Comm Flag Acquire n m = Some (0, m') →
  Z.odd K = false ∧ mem_ok ls K (<[Comm := K]> ks) m'.
Proof.
  intros Hm Hload. destruct (mem_ok_load ls K ks m m' Comm n false Hm Hload) as (k & Hk & Hodd & Hm').
  pose proof (mo_seen _ _ _ _ Hm Comm) as Hs. pose proof (mo_own _ _ _ _ Hm) as Ho.
  assert (k = K) as ->; [|done]. unfold owner in Ho. destruct (Z.odd K) eqn:HK; [lia|].
  destruct (decide (k = K)) as [|Hne]; [done|]. assert (K = k + 1) as -> by lia. rewrite Z.odd_add, Hodd in HK. done.
Qed.

Lemma disp_sees_set ls K ks m m' n :
  mem_ok ls K ks m → atomic_load Disp Flag Acquire n m = Some (1, m') →
  Z.odd K = true ∧ mem_ok ls K (<[Disp := K]> ks) m'.
Proof.
  intros Hm Hload. destruct (mem_ok_load ls K ks m m' Disp n true Hm Hload) as (k & Hk & Hodd & Hm').
  pose proof (mo_seen _ _ _ _ Hm Disp) as Hs. pose proof (mo_own _ _ _ _ Hm) as Ho.
  assert (k = K) as ->; [|done]. unfold owner in Ho. destruct (Z.odd K) eqn:HK; [|assert (k = K) by lia; congruence].
  destruct (decide (k = K)) as [|Hne]; [done|]. assert (K = k + 1) as -> by lia. rewrite Z.odd_add, Hodd in HK. done.
Qed.

(** What remains to show after the accesses of a step. *)
Lemma weak_inv_done s ls K ks m :
  server_inv s → mem_ok ls K ks m → clientBankUpdateAvailable s = Z.odd K →
  (flag_clear (msg s) = true → ks Comm = K) → (disp s = DCopy ∨ disp s = DClear → ks Disp = K) →
  (∀ lb, lb ∈ ls → fits K ks (validClientsBitSet s) (localValidClientsBitSet s) (msg s) lb) → weak_inv (Alive s m).
Proof. intros. split; [done|]. exists ls, K, ks. done. Qed.

(** The accesses of the communication thread. *)
Section comm.
Context (ls : list label) (K : Z) (ks : server_thread → Z) (v l : Z) (mp : msg_pc) (m : server_memory).
Hypothesis Hm : mem_ok ls K ks m.
Hypothesis HP : ∀ lb, lb ∈ ls → fits K ks v l mp lb.

(** The accesses [acts] are left, after some that raced with nothing. *)
Definition goes_on (t : server_thread) (acts : list (mem_access server_loc)) (r : outcome server_thread server_loc) : Prop :=
  ∃ ls' m', mem_ok ls' K ks m' ∧ (∀ lb, lb ∈ ls' → fits K ks v l mp lb) ∧ accesses t acts m' r.

Lemma comm_writes_slot i acts r :
  0 ≤ i < MAX_CLIENTS → getBit v i = false → getBit l i = false → retiring mp ≠ Some i →
  accesses Comm (Plain (Slot i) true :: acts) m r → goes_on Comm acts r.
Proof.
  intros Hi Hv Hl Hr Ha. eapply access_plain in Ha as [(_ & ? & [=] & _)|?]; [done|done|done|done| |right].
  - simpl. split; [done|]. intros _. split; congruence.
  - intros lb Hlb Hc. by eapply comm_slot.
Qed.

Lemma comm_writes_stats i acts r :
  0 ≤ i < MAX_CLIENTS → getBit v i = false → getBit l i = false → retiring mp ≠ Some i →
  accesses Comm (Plain (Stats i) true :: acts) m r →
  (r = Race (Stats i) ∧ logged = true) ∨ goes_on Comm acts r.
Proof.
  intros Hi Hv Hl Hr Ha. eapply access_plain in Ha as [(-> & _ & _ & ?)|?]; [by left|by right|done|done|done| |].
  - simpl. split; [done|]. intros _. split; [done|]. split; congruence.
  - destruct logged eqn:Hlog; [left; by exists i|right]. intros lb Hlb Hc. by eapply comm_stats.
Qed.

Lemma comm_reads_slot i acts r :
  0 ≤ i < MAX_CLIENTS → accesses Comm (Plain (Slot i) false :: acts) m r → goes_on Comm acts r.
Proof.
  intros Hi Ha. eapply access_plain in Ha as [(_ & ? & [=] & _)|?]; [done|done|done|done| |right].
  - done.
  - intros lb Hlb Hc. by eapply comm_slot.
Qed.

Lemma comm_accesses_bits w acts r :
  (w = true → Z.odd K = false ∧ ks Comm = K) → accesses Comm (Plain Bits w :: acts) m r → goes_on Comm acts r.
Proof.
  intros Hw Ha. assert (w = true → owner K = Disp ∧ ks Comm = K) as Hw' by (intros [? ?]%Hw; by rewrite even_owner).
  eapply access_plain in Ha as [(_ & ? & [=] & _)|?]; [done|done|done|done| |right].
  - simpl. intros [Ho _]%Hw'. rewrite next_round; [done|]. by rewrite Ho.
  - intros lb Hlb Hc. by eapply comm_bits.
Qed.
End comm.

Lemma comm_searches ls K ks v l mp m acts r :
  mem_ok ls K ks m → (∀ lb, lb ∈ ls → fits K ks v l mp lb) →
  accesses Comm (search ++ acts) m r → goes_on K ks v l mp Comm acts r.
Proof.
  unfold search. assert (∀ i, i ∈ seqZ 0 MAX_CLIENTS → 0 ≤ i < MAX_CLIENTS) as Hi by (intros i ?%elem_of_seqZ; lia).
  revert ls m Hi. induction (seqZ 0 MAX_CLIENTS) as [|i js IH]; intros ls m Hi Hm HP Ha; [by exists ls, m|].
  eapply (comm_reads_slot ls K ks v l mp) in Ha as (ls1 & m1 & Hm1 & HP1 & Ha); [|done..|by apply Hi, list_elem_of_here].
  eapply IH; [|done..]. intros j Hj. by apply Hi, list_elem_of_further.
Qed.

Lemma comm_searched ls K ks v l mp m r :
  mem_ok ls K ks m → (∀ lb, lb ∈ ls → fits K ks v l mp lb) →
  accesses Comm search m r → goes_on K ks v l mp Comm [] r.
Proof. intros Hm HP Ha. eapply comm_searches; [done..|]. by rewrite app_nil_r. Qed.

(** After the accesses of a step that moves only the communication thread. *)
Lemma msg_done ls K ks b' v u' r p mp mp' d l m :
  server_inv (mkServer b' v u' r p mp' d l) → mem_ok ls K ks m → u' = Z.odd K →
  (flag_clear mp' = true → ks Comm = K) → (d = DCopy ∨ d = DClear → ks Disp = K) →
  (∀ lb, lb ∈ ls → fits K ks v l mp lb) → retiring mp' = retiring mp →
  weak_inv (continue (mkServer b' v u' r p mp' d l) (Done m)).
Proof.
  intros Hinv Hm Hu Hf Hd HP Hr. apply (weak_inv_done _ ls K ks); try done. intros lb Hlb. by eapply fits_pc, HP.
Qed.

(** It cannot add a client. *)
Lemma msg_undefined b v u r p d l m o :
  weak_inv (Alive (mkServer b v u r p MIdle d l) m) → server_inv (mkServer b v u r p MUndef d l) →
  accesses Comm (search ++ [Plain Bits false]) m o → weak_inv (continue (mkServer b v u r p MUndef d l) o).
Proof.
  intros (_ & ls & K & ks & Hm & Hu & Hf & Hd & HP) Hinv Ha. simpl in *.
  apply (comm_searches ls K ks v l MIdle) in Ha as (ls0 & m0 & Hm0 & HP0 & Ha); [|done..].
  apply (comm_accesses_bits ls0 K ks v l MIdle) in Ha as (ls1 & m1 & Hm1 & HP1 & ->%acc_nil_inv); [|done..].
  by eapply msg_done.
Qed.

(** The communication thread finds the flag clear. *)
Lemma msg_clear b v r p mp mp' d l m o :
  weak_inv (Alive (mkServer b v false r p mp d l) m) → server_inv (mkServer b v false r p mp' d l) →
  accesses Comm [LoadFlag false] m o →
  retiring mp' = retiring mp ∨ (∃ i, retiring mp = Some i ∧ retiring mp' = None ∧ getBit l i = false) →
  weak_inv (continue (mkServer b v false r p mp' d l) o).
Proof.
  intros (_ & ls & K & ks & Hm & Hu & _ & Hd & HP) Hinv (n & m1 & Hload & Ho)%acc_load_inv Hret.
  apply acc_nil_inv in Ho as ->. destruct (comm_sees_clear _ _ _ _ _ _ Hm Hload) as [Hodd Hm'].
  pose proof (mo_seen _ _ _ _ Hm Comm) as Hs. simpl in Hd, HP.
  assert (∀ lb, lb ∈ ls → fits K (<[Comm := K]> ks) v l mp lb) as HP'.
  { intros lb Hlb. eapply fits_seen; [by left| |by apply HP]. intros t. apply insert_mono. lia. }
  apply (weak_inv_done _ ls K (<[Comm := K]> ks)); cbn [validClientsBitSet localValidClientsBitSet msg disp clientBankUpdateAvailable];
    try done; try (intros Hx; rewrite fn_lookup_insert_ne by done; auto; done).
  intros lb Hlb. destruct Hret as [Hr|(i & Hr & Hr' & Hl)]; [by eapply fits_pc, HP'|].
  eapply fits_change; [done| |done|by apply HP']. intros j w e _ _ [H1 H2]. split; [done|]. intros Hb _.
  rewrite fn_lookup_insert in *. destruct (decide (j = i)) as [->|Hne].
  - specialize (H1 Hl). rewrite round_own in H1; [done|by apply even_owner].
  - apply H2; [done|]. rewrite Hr. congruence.
Qed.

(** It writes the bit of slot [i]. *)
Lemma msg_set b v u r p mp mp' d l m o i x :
  weak_inv (Alive (mkServer b v u r p mp d l) m) → server_inv (mkServer b (setBit v i x) u r p mp' d l) →
  accesses Comm [Plain Bits false; Plain Bits true] m o →
  flag_clear mp = true → flag_clear mp' = true → 0 ≤ i < MAX_CLIENTS → retiring mp = None →
  retiring mp' = (if x then None else Some i) →
  weak_inv (continue (mkServer b (setBit v i x) u r p mp' d l) o).
Proof.
  intros ([Hh _] & ls & K & ks & Hm & Hu & Hf & Hd & HP) Hinv Ha Hc Hc' Hi Hr Hr'. simpl in *.
  pose proof (proj1 (hs_nonneg _ _ _ _ _ Hh)) as Hv. simpl in Hv. pose proof (hs_flag _ _ _ _ _ Hh) as Hflag. simpl in Hflag.
  specialize (Hf Hc). assert (Z.odd K = false) as Hodd by (rewrite <-Hu; destruct u; [rewrite Hflag in Hc|]; done).
  apply (comm_accesses_bits ls K ks v l mp) in Ha as (ls1 & m1 & Hm1 & HP1 & Ha); [|done..].
  apply (comm_accesses_bits ls1 K ks v l mp) in Ha as (ls2 & m2 & Hm2 & HP2 & Ho%acc_nil_inv); [|done..]. subst o.
  apply (weak_inv_done _ ls2 K ks); try done. cbn [validClientsBitSet localValidClientsBitSet msg].
  intros lb Hlb. specialize (HP2 lb Hlb). revert HP2. apply fits_change; [done|..].
  - intros j w e _ Hj [H1 H2]. split; [done|]. intros Hb Hx. apply H2; [|congruence].
    destruct (decide (i = j)) as [->|Hne]; [|by rewrite set_other_bits in Hb].
    rewrite set_own_bit in Hb by done. subst x. by rewrite Hr' in Hx.
  - intros j w e Hlab Hj [H1 H2]. split; [done|]. intros Hb.
    destruct (decide (i = j)) as [->|Hne]; [|apply H2; by rewrite set_other_bits in Hb].
    assert (e ≤ next Comm K) by (destruct Hlab as [-> | ->]; by apply (mo_acc _ _ _ _ Hm2) in Hlb as [? _]).
    rewrite <-next_round; [done|]. by rewrite even_owner.
Qed.

(** It sets the flag. *)
Lemma msg_store b v u r p mp mp' d l m o :
  weak_inv (Alive (mkServer b v u r p mp d l) m) → server_inv (mkServer b v true r p mp' d l) →
  accesses Comm [StoreFlag true] m o → flag_clear mp = true → flag_clear mp' = false → retiring mp' = retiring mp →
  weak_inv (continue (mkServer b v true r p mp' d l) o).
Proof.
  intros ([Hh _] & ls & K & ks & Hm & Hu & Hf & Hd & HP) Hinv Ha%acc_store_inv%acc_nil_inv Hc Hc' Hr. simpl in *. subst o.
  pose proof (hs_flag _ _ _ _ _ Hh) as Hflag. simpl in Hflag. pose proof (hs_copy _ _ _ _ _ Hh) as Hcopy. simpl in Hcopy.
  assert (u = false) as -> by (destruct u; [rewrite Hflag in Hc|]; done).
  assert (Z.odd (K + 1) = true) as Hodd by (rewrite Z.odd_add, <-Hu; done).
  assert (mem_ok (ls ++ [LFlag (K + 1)]) (K + 1) (<[Comm := K + 1]> ks) (atomic_store Comm Flag Release (Z.b2z (Z.odd (K + 1))) m)) as Hm'.
  { apply mem_ok_store; [done|symmetry; by apply odd_owner|by apply Hf]. }
  rewrite Hodd in Hm'. simpl continue.
  apply (weak_inv_done _ (ls ++ [LFlag (K + 1)]) (K + 1) (<[Comm := K + 1]> ks)); cbn [validClientsBitSet localValidClientsBitSet msg disp clientBankUpdateAvailable];
    try done; try (by intros ?%Hcopy); try (by intros ?; congruence).
  intros lb. rewrite elem_of_app, list_elem_of_singleton. intros [Hlb| ->]; [|done].
  eapply fits_pc; [done|]. eapply fits_seen; [by right| |by apply HP]. intros t. apply insert_mono. specialize (Hf Hc). lia.
Qed.

(** The accesses of the dispatcher. *)
Section disp.
Context (ls : list label) (K : Z) (ks : server_thread → Z) (v l : Z) (mp : msg_pc) (m : server_memory).
Hypothesis Hm : mem_ok ls K ks m.
Hypothesis HP : ∀ lb, lb ∈ ls → fits K ks v l mp lb.

Lemma disp_reads_slot i acts r :
  0 ≤ i < MAX_CLIENTS → getBit l i = true → getBit v i = true ∨ retiring mp = Some i →
  accesses Disp (Plain (Slot i) false :: acts) m r → goes_on K ks v l mp Disp acts r.
Proof.
  intros Hi Hl Hv Ha. eapply access_plain in Ha as [(_ & ? & [=] & _)|?]; [done|done|done|done| |right].
  - simpl. split; [done|]. split; [done|]. split; [congruence|]. intros ? ?. destruct Hv; congruence.
  - intros lb Hlb Hc. by eapply disp_slot.
Qed.

Lemma disp_uses_stats i w acts r :
  0 ≤ i < MAX_CLIENTS → getBit l i = true → getBit v i = true ∨ retiring mp = Some i →
  accesses Disp (Plain (Stats i) w :: acts) m r →
  (r = Race (Stats i) ∧ logged = true) ∨ goes_on K ks v l mp Disp acts r.
Proof.
  intros Hi Hl Hv Ha. eapply access_plain in Ha as [(-> & _ & _ & ?)|?]; [by left|by right|done|done|done| |].
  - simpl. split; [done|]. intros _. split; [congruence|]. intros ? ?. destruct Hv; congruence.
  - destruct logged eqn:Hlog; [left; by exists i|right]. intros lb Hlb Hc. by eapply disp_stats.
Qed.

Lemma disp_reads_bits acts r :
  Z.odd K = true → ks Disp = K → accesses Disp (Plain Bits false :: acts) m r → goes_on K ks v l mp Disp acts r.
Proof.
  intros Hodd Hk Ha. eapply access_plain in Ha as [(_ & ? & [=] & _)|?]; [done|done|done|done| |right].
  - simpl. split; [done|]. rewrite next_round; [done|]. by rewrite odd_owner.
  - intros lb Hlb Hc. eapply disp_bits; [done|done|by apply odd_owner|done].
Qed.
End disp.

(** The dispatcher finds no update, or does not see it yet. *)
Lemma disp_stale b v u r p mp l m o :
  weak_inv (Alive (mkServer b v u r p mp DLoad l) m) → server_inv (mkServer b v u r p mp (DScan 0) l) →
  accesses Disp [LoadFlag false] m o → weak_inv (continue (mkServer b v u r p mp (DScan 0) l) o).
Proof.
  intros (_ & ls & K & ks & Hm & Hu & Hf & _ & HP) Hinv (n & m1 & Hload & Ho)%acc_load_inv.
  apply acc_nil_inv in Ho as ->. destruct (mem_ok_load ls K ks m m1 Disp n false Hm Hload) as (k & Hk & _ & Hm').
  apply (weak_inv_done _ ls K (<[Disp := k]> ks)); cbn [validClientsBitSet localValidClientsBitSet msg disp clientBankUpdateAvailable];
    try done; [by intros [|]|].
  intros lb Hlb. eapply fits_seen; [by left| |by apply HP]. intros t. apply insert_mono. lia.
Qed.

(** It copies the bit set. *)
Lemma disp_copy b v u r p mp l m o :
  weak_inv (Alive (mkServer b v u r p mp DCopy l) m) → server_inv (mkServer b v u r p mp DClear v) →
  accesses Disp [Plain Bits false] m o → weak_inv (continue (mkServer b v u r p mp DClear v) o).
Proof.
  intros ([Hh _] & ls & K & ks & Hm & Hu & Hf & Hd & HP) Hinv Ha. simpl in *.
  pose proof (hs_copy _ _ _ _ _ Hh (or_introl eq_refl)) as Hut. simpl in Hut.
  assert (Z.odd K = true) as Hodd by congruence. specialize (Hd (or_introl eq_refl)).
  eapply disp_reads_bits in Ha as (ls1 & m1 & Hm1 & HP1 & ->%acc_nil_inv); [|done..].
  apply (weak_inv_done _ ls1 K ks); try done. cbn [validClientsBitSet localValidClientsBitSet msg].
  intros lb Hlb. specialize (HP1 lb Hlb). revert HP1. apply fits_change; [done|..].
  - intros i w e Hlab _ [_ H2]. split; [|done]. intros _.
    assert (e ≤ next Disp K) by (destruct Hlab as [-> | ->]; by apply (mo_acc _ _ _ _ Hm1) in Hlb as [? _]).
    rewrite <-next_round; [done|]. by rewrite odd_owner.
  - intros i w e _ _ [_ H2]. split; [|done]. intros Hb. specialize (H2 Hb). rewrite round_own in H2; [lia|by apply odd_owner].
Qed.

(** It clears the flag. *)
Lemma disp_clear b v u r p mp l m o :
  weak_inv (Alive (mkServer b v u r p mp DClear l) m) → server_inv (mkServer b v false r p mp (DScan 0) l) →
  accesses Disp [StoreFlag false] m o → weak_inv (continue (mkServer b v false r p mp (DScan 0) l) o).
Proof.
  intros ([Hh _] & ls & K & ks & Hm & Hu & Hf & Hd & HP) Hinv Ha%acc_store_inv%acc_nil_inv. simpl in *. subst o.
  pose proof (hs_copy _ _ _ _ _ Hh (or_intror eq_refl)) as Hut. simpl in Hut.
  pose proof (hs_flag _ _ _ _ _ Hh Hut) as Hflag. simpl in Hflag. specialize (Hd (or_intror eq_refl)).
  assert (Z.odd (K + 1) = false) as Hodd by (rewrite Z.odd_add, <-Hu, Hut; done).
  assert (mem_ok (ls ++ [LFlag (K + 1)]) (K + 1) (<[Disp := K + 1]> ks) (atomic_store Disp Flag Release (Z.b2z (Z.odd (K + 1))) m)) as Hm'.
  { apply mem_ok_store; [done|symmetry; by apply even_owner|done]. }
  rewrite Hodd in Hm'. simpl continue.
  apply (weak_inv_done _ (ls ++ [LFlag (K + 1)]) (K + 1) (<[Disp := K + 1]> ks)); cbn [validClientsBitSet localValidClientsBitSet msg disp clientBankUpdateAvailable];
    try done; try (by intros [|]); try (by intros ?; congruence).
  intros lb. rewrite elem_of_app, list_elem_of_singleton. intros [Hlb| ->]; [|done].
  eapply fits_seen; [by right| |by apply HP]. intros t. apply insert_mono. lia.
Qed.

(** It works on a slot. *)
Lemma disp_serves request b b' v u r p mp l m o i :
  weak_inv (Alive (mkServer b v u r p mp (DServe i) l) m) → server_inv (mkServer b' v u r p mp (DScan (i + 1)) l) →
  accesses Disp (Plain (Slot i) false :: if request : bool then [Plain (Stats i) false; Plain (Stats i) true] else []) m o →
  weak_inv (continue (mkServer b' v u r p mp (DScan (i + 1)) l) o).
Proof.
  intros ([Hh _] & ls & K & ks & Hm & Hu & Hf & Hd & HP) Hinv Ha. simpl in *.
  pose proof (serving_slot _ i Hh eq_refl) as [Hi Hor]. pose proof (hs_disp _ _ _ _ _ Hh) as [_ Hl]. simpl in Hor, Hl.
  eapply disp_reads_slot in Ha as (ls1 & m1 & Hm1 & HP1 & Ha); [|done..].
  assert ((o = Race (Stats i) ∧ logged = true) ∨ goes_on K ks v l mp Disp [] o) as [[-> ?]|(ls2 & m2 & Hm2 & HP2 & ->%acc_nil_inv)].
  { destruct request; [|right; by exists ls1, m1].
    eapply disp_uses_stats in Ha as [?|(ls2 & m2 & Hm2 & HP2 & Ha)]; [by left| |done..].
    by eapply disp_uses_stats in Ha. }
  - by exists i.
  - apply (weak_inv_done _ ls2 K ks); try done. by intros [|].
Qed.

Section steps.
Context `{PosixShmSpec} (lf : bool) (cls : Z) (ok : Z → bool).

Lemma msg_weak_step inp s e s' m o :
  weak_inv (Alive s m) → msg_step lf cls ok inp s e s' →
  accesses Comm (msg_accesses logged (msg s) (msg s')) m o → weak_inv (continue s' o).
Proof.
  intros Hw Hs Ha. pose proof Hw as ([Hh Hb] & ls & K & ks & Hm & Hu & Hf & Hd & HP).
  assert (server_inv s') as Hinv' by (eapply (server_inv_step lf cls ok); [by split|by eapply by_msg]).
  pose proof (hs_slot _ _ _ _ _ Hh) as Hslot. pose proof (hs_slot _ _ _ _ _ (proj1 Hinv')) as Hslot'.
  destruct Hs as [|b v u r p0 d l message fd c mm n k i0 ctx0 Hproc Hmsg Hex Hidx Hbegin| | |b v u r p0 d l i0 c mm n k ctx0 K' K'' ctx1 Hget Hrun
    |b v u r p0 d l i0 c mm n k ctx0 K' K'' ctx1 e Hget Hrun|b v r p0 d l i0|b v u r p0 d l i0 ctx0 Hget|b v u r p0 d l i0
    |b v u r p0 d l i0 ctx0 Hget| |b v u r p0 d l message fd c j Hproc Hex
    |b v r p0 d l i0|b v u r p0 d l i0|b v u r p0 d l i0|b v r p0 d l i0|b v u r p0 d l i0 ctx0 Hget|];
    cbn [msg msg_accesses clientBank validClientsBitSet clientBankUpdateAvailable disp localValidClientsBitSet] in *;
    try (apply acc_nil_inv in Ha as ->; by eapply msg_done);
    try (apply (comm_searched ls K ks v l MIdle) in Ha as (ls1 & m1 & Hm1 & HP1 & ->%acc_nil_inv); [|done..]; by eapply msg_done).
  - apply index_to_add_Some in Hidx as (Hi & Hbit & _). pose proof (not_served _ _ _ _ _ i0 Hh Hi Hbit ltac:(done)) as Hl.
    apply (comm_searches ls K ks v l MIdle) in Ha as (ls0 & m0 & Hm0 & HP0 & Ha); [|done..].
    apply (comm_accesses_bits ls0 K ks v l MIdle) in Ha as (ls1 & m1 & Hm1 & HP1 & Ha); [|done..].
    apply (comm_writes_slot ls1 K ks v l MIdle) in Ha as (ls2 & m2 & Hm2 & HP2 & Ha); [|done..].
    apply (comm_writes_stats ls2 K ks v l MIdle) in Ha as [[-> ?]|(ls3 & m3 & Hm3 & HP3 & ->%acc_nil_inv)]; [by exists i0| |done..].
    by eapply msg_done.
  - by eapply msg_undefined.
  - by eapply msg_undefined.
  - destruct (Hslot i0 false eq_refl) as [Hi Hbit]. pose proof (not_served _ _ _ _ _ i0 Hh Hi Hbit ltac:(done)) as Hl.
    eapply comm_writes_slot in Ha as (ls2 & m2 & Hm2 & HP2 & ->%acc_nil_inv); [|done..]. by eapply msg_done.
  - destruct (Hslot i0 false eq_refl) as [Hi Hbit]. pose proof (not_served _ _ _ _ _ i0 Hh Hi Hbit ltac:(done)) as Hl.
    eapply comm_writes_slot in Ha as (ls2 & m2 & Hm2 & HP2 & ->%acc_nil_inv); [|done..]. by eapply msg_done.
  - eapply msg_clear; [exact Hw|done|done|by left].
  - destruct (Hslot i0 false eq_refl) as [Hi _]. by eapply msg_set.
  - by eapply msg_store.
  - destruct (Hslot i0 true eq_refl) as [Hi _].
    eapply comm_reads_slot in Ha as (ls2 & m2 & Hm2 & HP2 & ->%acc_nil_inv); [|done..]. by eapply msg_done.
  - set (i0 := index_to_remove b c) in *. destruct (Hslot' i0 true eq_refl) as [Hi _].
    apply (comm_searches ls K ks v l MIdle) in Ha as (ls2 & m2 & Hm2 & HP2 & Ha); [|done..].
    destruct logged eqn:Hlog; [|apply acc_nil_inv in Ha as ->; by eapply msg_done].
    eapply access_plain in Ha as [(-> & _)|(ls3 & m3 & Hm3 & HP3 & ->%acc_nil_inv)]; [by exists i0| |done|done|done| |].
    + by eapply msg_done.
    + simpl. split; [done|]. rewrite Hlog. done.
    + left. by exists i0.
  - eapply msg_clear; [exact Hw|done|done|by left].
  - destruct (Hslot i0 true eq_refl) as [Hi _]. by eapply msg_set.
  - by eapply msg_store.
  - eapply msg_clear; [exact Hw|done|done|]. right. exists i0. split_and!; [done|done|]. by apply (hs_taken _ _ _ _ _ Hh).
  - destruct (Hslot i0 false eq_refl) as [Hi Hbit]. pose proof (not_served _ _ _ _ _ i0 Hh Hi Hbit ltac:(done)) as Hl.
    eapply comm_writes_slot in Ha as (ls2 & m2 & Hm2 & HP2 & ->%acc_nil_inv); [|done..]. by eapply msg_done.
Qed.

Lemma disp_weak_step request s e s' m o :
  weak_inv (Alive s m) → disp_step s e s' → accesses Disp (disp_accesses request (disp s) (disp s')) m o →
  weak_inv (continue s' o).
Proof.
  intros Hw Hs Ha. pose proof Hw as ([Hh Hb] & ls & K & ks & Hm & Hu & Hf & Hd & HP).
  assert (server_inv s') as Hinv' by (eapply (server_inv_step lf cls ok); [by split|by eapply by_disp]).
  destruct Hs as [b v u p mp l|b v u p mp l|b v r p mp l|b v r p mp l|b v u r p mp l|b v u r p mp l
    |b v u r p mp l j Hj Hl|b v u r p mp l j ctx Hj Hl Hget|b v u r p mp l j Hj|b v u r p mp l j|b v u r p mp l j ctx st sp Hget];
    cbn [disp disp_accesses] in Ha;
    try (apply acc_nil_inv in Ha as ->; apply (weak_inv_done _ ls K ks); try done; by intros [|]).
  - apply acc_load_inv in Ha as (n & m1 & Hload & Ho). apply acc_nil_inv in Ho as ->.
    destruct (disp_sees_set _ _ _ _ _ _ Hm Hload) as [_ Hm']. pose proof (mo_seen _ _ _ _ Hm Disp).
    apply (weak_inv_done _ ls K (<[Disp := K]> ks)); cbn [validClientsBitSet localValidClientsBitSet msg disp clientBankUpdateAvailable];
      try done.
    intros lb Hlb. eapply fits_seen; [by left| |by apply HP]. intros t. apply insert_mono. lia.
  - by eapply disp_stale.
  - by eapply disp_copy.
  - by eapply disp_clear.
  - pose proof (hs_disp _ _ _ _ _ (proj1 Hinv')) as [Hi _]. simpl in Hi.
    destruct (serving_slot _ j (proj1 Hinv') eq_refl) as [_ Hor].
    eapply disp_reads_slot in Ha as (ls1 & m1 & Hm1 & HP1 & ->%acc_nil_inv); [|done..].
    apply (weak_inv_done _ ls1 K ks); try done. by intros [|].
  - by eapply disp_serves.
  - by eapply disp_serves.
Qed.

Lemma weak_inv_step x x' : weak_inv x → weak_server_step lf cls ok logged x x' → weak_inv x'.
Proof.
  intros Hw Hs. destruct Hs as [inp s e s' m r Hs Ha|request s e s' m r Hs _ Ha|b v r p mp l m o Ha|b v u r p mp d l m].
  - by eapply msg_weak_step.
  - by eapply disp_weak_step.
  - eapply disp_stale; [done| |done]. destruct Hw as ([Hh Hb] & _). split; [|done].
    destruct Hh as [? ? ? ? ? ? ? ?]. split; simpl in *; try done.
  - destruct Hw as (Hinv & ls & K & ks & Hm & Hu & Hf & Hd & HP).
    apply (weak_inv_done _ ls K ks); try done.
Qed.
End steps.

Lemma server_locs_not_flag l : l ∈ server_locs → l ≠ Flag.
Proof.
  unfold server_locs. rewrite elem_of_cons, elem_of_app, !list_elem_of_fmap.
  by intros [->|[(i & -> & _)|(i & -> & _)]].
Qed.

Lemma mem_ok_init : mem_ok (LFlag 0 :: (LInit <$> server_locs)) 0 (λ _, 0) server_memory_init.
Proof.
  assert (∀ n lb, (LFlag 0 :: (LInit <$> server_locs)) !! n = Some lb →
    n = 0%nat ∧ lb = LFlag 0 ∨ (0 < n)%nat ∧ ∃ l, server_locs !! pred n = Some l ∧ lb = LInit l) as Hls.
  { intros [|n] lb Hlb; [injection Hlb as <-; by left|]. change ((LInit <$> server_locs) !! n = Some lb) in Hlb.
    apply list_lookup_fmap_Some in Hlb as (l & -> & Hl). right. split; [lia|by exists l]. }
  assert (length (LFlag 0 :: (LInit <$> server_locs)) = S (length server_locs)) as Hlen.
  { cbn [length]. by rewrite length_fmap. }
  split; try done.
  - intros n lb ev Hlb Hev.
    assert (∀ P, (∀ l, P (LInit l) → False) → (P (LFlag 0) → False) → sees (LFlag 0 :: (LInit <$> server_locs)) ∅ P) as Hno.
    { intros P H1 H2 n' lb' [[-> ->]|(_ & l & _ & ->)]%Hls HP; exfalso; eauto. }
    destruct (Hls _ _ Hlb) as [[-> ->]|(Hn & l & Hl & ->)].
    + injection Hev as <-. split; [done|]. apply Hno; done.
    + destruct n as [|n]; [lia|].
      change (((λ '(l, v), mkEvent l true v ∅) <$> ((λ l, (l, 0)) <$> server_locs)) !! n = Some ev) in Hev.
      change (server_locs !! n = Some l) in Hl. rewrite !list_lookup_fmap, Hl in Hev. injection Hev as <-. split.
      * split; [done|]. by eapply server_locs_not_flag, list_elem_of_lookup_2.
      * apply Hno; done.
  - intros n n' k k' Hlt [[-> _]|(_ & l & _ & [=])]%Hls [[-> _]|(_ & l' & _ & [=])]%Hls. lia.
  - intros k. rewrite elem_of_cons. split.
    + intros [[= ->]|(l & [=] & _)%list_elem_of_fmap]. lia.
    + intros ?. left. f_equal. lia.
  - intros t l w e [|(l' & [=] & _)%list_elem_of_fmap]%elem_of_cons. done.
  - intros t n lb Hn _. unfold server_memory_init, memory_init. cbn [knows]. rewrite elem_of_set_seq.
    apply lookup_lt_Some in Hn. rewrite Hlen in Hn. rewrite length_fmap. cbn [length]. lia.
Qed.

Lemma weak_inv_init pid : weak_inv (weak_server_init pid).
Proof.
  apply (weak_inv_done _ (LFlag 0 :: (LInit <$> server_locs)) 0 (λ _, 0)); try done.
  - apply server_inv_init.
  - apply mem_ok_init.
  - intros lb [->|(l & -> & _)%list_elem_of_fmap]%elem_of_cons; done.
Qed.
End facts.

(** * Properties *)

(** C14: The flag synchronises the server's threads, except for the statistics.
    Under the C++ memory model, with loads of the flag that may return old values,
    no execution has a data race on the bit set or on a member of a slot that the
    dispatcher uses, whatever subscriptions and unsubscriptions arrive.  The
    communication thread sees the flag clear only when the dispatcher has taken the
    last update, and the dispatcher sees it set only when one is pending.  The one
    data race is on a slot's statistics, which the handler of an unsubscription
    logs before it waits for the dispatcher; without that line there is none. *)
Theorem handshake_race_free `{PosixShmSpec} lf cls ok logged pid x :
  rtc (weak_server_step lf cls ok logged) (weak_server_init pid) x →
  (∀ l, x = Raced l → logged = true ∧ ∃ i, l = Stats i) ∧
  (∀ s m n m', x = Alive s m →
     (atomic_load Comm Flag Acquire n m = Some (0, m') → clientBankUpdateAvailable s = false) ∧
     (atomic_load Disp Flag Acquire n m = Some (1, m') → clientBankUpdateAvailable s = true)).
Proof.
  intros Hr. assert (weak_inv logged x) as Hx.
  { eapply (invariant_rtc _ (weak_inv logged)); [|apply weak_inv_init|exact Hr]. intros. by eapply weak_inv_step. }
  split.
  - intros l ->. destruct Hx as (i & -> & ?). split; [done|by exists i].
  - intros s m n m' ->. destruct Hx as (_ & ls & K & ks & Hm & -> & _). split; intros Hload.
    + by destruct (comm_sees_clear _ _ _ _ _ _ Hm Hload).
    + by destruct (disp_sees_set _ _ _ _ _ _ Hm Hload).
Qed.

(** A client subscribes, is served once, and unsubscribes. *)
Abbreviation demo_weak := (weak_server_step true 64 (λ _, true) true).

Lemma msg_plays idx s e s' inp m acts :
  msg_step true 64 (λ _, true) inp s e s' → msg_accesses true (msg s) (msg s') = acts →
  played Comm acts idx m = true → demo_weak (Alive s m) (Alive s' (after Comm acts idx m)).
Proof.
  intros Hs Ha Hp%played_accesses. subst acts. apply (weak_msg true 64 (λ _, true) true inp s e s' m _ Hs Hp).
Qed.

Lemma disp_plays request idx s e s' m acts :
  disp_step s e s' → (request = true ↔ clientBank s' ≠ clientBank s) →
  disp_accesses request (disp s) (disp s') = acts →
  played Disp acts idx m = true → demo_weak (Alive s m) (Alive s' (after Disp acts idx m)).
Proof.
  intros Hs Hr Ha Hp%played_accesses. subst acts.
  apply (weak_disp true 64 (λ _, true) true request s e s' m _ Hs Hr Hp).
Qed.

(** It is served, and its unsubscription arrives.  The logging of the statistics
    races with the dispatcher's timers. *)
Lemma stats_race : rtc demo_weak (weak_server_init 1) (Raced (Stats 0)).
Proof.
  unfold weak_server_init.
  eapply rtc_l; [eapply (msg_plays []); [eapply (subscribe_begin _ _ _ _ _ _ _ _ _ _ (mkMessage 0 7 1 1 1) 12);
    [reflexivity|done|vm_compute; reflexivity..]|reflexivity|by vm_compute]|].
  eapply rtc_l; [eapply (msg_plays []); [eapply (setup_done _ _ _ _ _ _ _ _ _ _ _ _ _ _ _ _ boot); vm_compute; reflexivity
    |reflexivity|by vm_compute]|].
  eapply rtc_l; [eapply (msg_plays [0%nat]); [apply add_spin|reflexivity|by vm_compute]|].
  eapply rtc_l; [eapply (msg_plays []); [eapply add_set; vm_compute; reflexivity|reflexivity|by vm_compute]|].
  eapply rtc_l; [eapply (msg_plays []); [apply add_store|reflexivity|by vm_compute]|].
  eapply rtc_l; [eapply (msg_plays []); [eapply respond; vm_compute; reflexivity|reflexivity|by vm_compute]|].
  eapply rtc_l; [eapply (disp_plays false []); [apply top_running|done|reflexivity|by vm_compute]|].
  eapply rtc_l; [eapply (disp_plays false [200%nat]); [apply load_update|done|reflexivity|by vm_compute]|].
  eapply rtc_l; [eapply (disp_plays false []); [apply copy|done|reflexivity|by vm_compute]|].
  eapply rtc_l; [eapply (disp_plays false []); [apply clear|done|reflexivity|by vm_compute]|].
  eapply rtc_l; [eapply (disp_plays false []); [by eapply scan_serve|done|reflexivity|by vm_compute]|].
  eapply rtc_l; [eapply (disp_plays true []);
    [by eapply (serve_request _ _ _ _ _ _ _ _ _ 3 5)|split; [|done]; intros _; by vm_compute|reflexivity|by vm_compute]|].
  apply rtc_once.
  eapply (weak_msg true 64 (λ _, true) true (Some (12, mkMessage 1 7 0 0 0)) _ _ _ _ (Race (Stats 0))).
  - eapply unsubscribe; vm_compute; reflexivity.
  - apply (play_accesses _ _ []). vm_compute. reflexivity.
Qed.

Lemma handshake_race_free_witness :
  rtc demo_weak (weak_server_init 1) (Raced (Stats 0)) ∧ true = true ∧ ∃ i, Stats 0 = Stats i.
Proof. split; [exact stats_race|]. apply (handshake_race_free _ _ _ _ _ _ stats_race). reflexivity. Defined.
