(* ===== verification/Protocol.v ===== *)
(** The whole protocol between the server and its clients: the client's [main]
    ([transpose_client.cpp]) from its subscription to its unsubscription, its
    message handler, and the server's threads, connected by sockets that deliver
    messages in order.  Any number of clients, each with its own connection. *)

From S2P Require Import Prelude ShmNames PosixShm ClientStats ClientBank Messages Server.
#[local] Open Scope Z_scope.

(** * The client's side *)

(** Where [main] is. *)
Inductive main_pc :=
  | PSubscribe   (** before the subscription is sent *)
  | PWait        (** in the loop that waits for the response *)
  | PSession     (** in the request loops, the subject of [System] *)
  | PLeft        (** after the unsubscription has been sent *)
  | PDead.       (** the process has ended, for whatever reason *)

(** A client with the messages under way on its connection: [sent] has not been
    read by the server, [arriving] not by the client's thread. *)
Record client_state := mkClient {
  main_at : main_pc;
  subscribeResponseReceived : bool;
  sent : list ClientServerMessage;
  arriving : list ClientServerMessage
}.

Definition client_start : client_state := mkClient PSubscribe false [] [].

(** [MessageHandler]: any message counts as the response. *)
Definition MessageHandler (message : ClientServerMessage) (c : client_state) : client_state :=
  mkClient (main_at c) true (sent c) (arriving c).

Section code.
Context `{PosixShm} (lock_free : bool) (cacheLine : Z) (reserve_ok : Z → bool).

(** Each client's parameters, and the descriptor of its connection at the server. *)
Context (dims : Z → Z * Z * Z) (socket : Z → Z).

(** The threads of client [clientPid].  [message] is the local variable of [main],
    which is not initialised. *)
Inductive client_step (clientPid : Z) : client_state → client_state → Prop :=
  | send_subscribe r out inb message m n k :
      dims clientPid = (m, n, k) →
      client_step clientPid (mkClient PSubscribe r out inb)
        (mkClient PWait r (out ++ [GenerateSubscribeMessage message clientPid m n k]) inb)
  | response_seen out inb :
      client_step clientPid (mkClient PWait true out inb) (mkClient PSession true out inb)
  | send_unsubscribe r out inb message :
      client_step clientPid (mkClient PSession r out inb)
        (mkClient PLeft r (out ++ [GenerateUnsubscribeMessage message clientPid]) inb)
  | message_arrives pc r out inb message :
      pc ≠ PDead →
      client_step clientPid (mkClient pc r out (message :: inb)) (MessageHandler message (mkClient pc r out inb))
  | process_ends pc r out inb :
      client_step clientPid (mkClient pc r out inb) (mkClient PDead r out []).

(** * The connections *)

Record protocol := mkProtocol { server : server_state; clients : gmap Z client_state }.

Definition read_sent (c : client_state) : client_state :=
  mkClient (main_at c) (subscribeResponseReceived c) (tail (sent c)) (arriving c).
Definition receive (message : ClientServerMessage) (c : client_state) : client_state :=
  mkClient (main_at c) (subscribeResponseReceived c) (sent c) (arriving c ++ [message]).

(** The server closes a connection after a hang-up; what it has not read is lost. *)
Definition hang_up (c : client_state) : client_state :=
  mkClient (main_at c) (subscribeResponseReceived c) [] (arriving c).

(** A message for a process that has ended.  [send] raises SIGPIPE, which ends
    the server. *)
Definition broken_pipe (e : option server_event) (cs : gmap Z client_state) : Prop :=
  ∃ p c message, e = Some (EvSent (socket p) message) ∧ cs !! p = Some c ∧ main_at c = PDead.

(** The effect of the server's [Send] on the connections. *)
Definition deliver (e : option server_event) (cs : gmap Z client_state) : gmap Z client_state :=
  match e with
  | Some (EvSent fd message) => map_imap (λ p c, Some (if decide (socket p = fd) then receive message c else c)) cs
  | _ => cs
  end.

(** The steps: a client's threads; the arrival of a client's next message at the
    server, which sends nothing yet; the communication thread while it handles a
    message; a hang-up, which it notices between messages; the dispatcher; and
    Enter.  An execution ends where the server is killed. *)
Inductive protocol_step : protocol → protocol → Prop :=
  | by_client s cs p c c' :
      cs !! p = Some c → client_step p c c' →
      protocol_step (mkProtocol s cs) (mkProtocol s (<[p := c']> cs))
  | by_arrival s s' cs p c message e :
      cs !! p = Some c → head (sent c) = Some message →
      msg_step lock_free cacheLine reserve_ok (Some (socket p, message)) s e s' →
      protocol_step (mkProtocol s cs) (mkProtocol s' (<[p := read_sent c]> cs))
  | by_handler s s' cs e :
      msg_step lock_free cacheLine reserve_ok None s e s' → ¬ broken_pipe e cs →
      protocol_step (mkProtocol s cs) (mkProtocol s' (deliver e cs))
  | by_hang_up s cs p c :
      cs !! p = Some c → main_at c = PDead → msg s = MIdle →
      protocol_step (mkProtocol s cs) (mkProtocol s (<[p := hang_up c]> cs))
  | by_dispatcher s s' cs e :
      disp_step s e s' → protocol_step (mkProtocol s cs) (mkProtocol s' cs)
  | by_enter b v u r p m d l cs :
      protocol_step (mkProtocol (mkServer b v u r p m d l) cs) (mkProtocol (mkServer b v u false p m d l) cs).

(** A step of the communication thread that sends nothing. *)
Lemma by_quiet s e s' cs :
  (∀ fd message, e ≠ Some (EvSent fd message)) → msg_step lock_free cacheLine reserve_ok None s e s' →
  protocol_step (mkProtocol s cs) (mkProtocol s' cs).
Proof.
  intros Hq Hs. replace cs with (deliver e cs) at 2.
  - eapply by_handler; [done|]. intros (p & c & message & He & _). by eapply Hq.
  - destruct e as [[]|]; try done. by destruct (Hq socket0 message).
Qed.

(** The next step of the communication thread ends the server. *)
Definition server_killed (P : protocol) : Prop :=
  ∃ e s', msg_step lock_free cacheLine reserve_ok None (server P) e s' ∧ broken_pipe e (clients P).
End code.

Tactic Notation "quietly" uconstr(H) := eapply by_quiet; [|eapply H]; [discriminate|..].

(** The server and a set of clients, before anyone has subscribed. *)
Definition protocol_init (pid : Z) (ps : gset Z) : protocol :=
  mkProtocol (server_init pid) (gset_to_gmap client_start ps).

(** * Where a client stands at the server *)

Section invariant.
Context `{PosixShmSpec} (lock_free : bool) (cacheLine : Z) (reserve_ok : Z → bool).
Context (dims : Z → Z * Z * Z) (socket : Z → Z).

Inductive status := Absent | Adding | Present | Removing.

(** The slot set up for client [p]. *)
Definition context_of (p : Z) (ctx : ClientContext) : Prop :=
  subscribed ctx = true ∧ id ctx = p ∧ ipcContext ctx = socket p ∧
  let '(m, n, k) := dims p in matrixSize ctx = mkBufferDimensions m n k (2 ^ m) (2 ^ n).

(** The slot the communication thread works on. *)
Definition busy (m : msg_pc) : option Z := fst <$> msg_slot m.

Definition has_status (s : server_state) (p : Z) (st : status) : Prop :=
  match st with
  | Absent =>
      (∀ i ctx, zget (clientBank s) i = Some ctx → subscribed ctx = true → id ctx ≠ p) ∧
      (∀ i m n k, msg s ≠ MSetup i p m n k)
  | Adding =>
      match msg s with
      | MSetup i c m n k =>
          c = p ∧ dims p = (m, n, k) ∧ ∃ ctx, zget (clientBank s) i = Some ctx ∧ ipcContext ctx = socket p
      | MAddSpin i | MAddSet i | MAddStore i | MRespond i =>
          ∃ ctx, zget (clientBank s) i = Some ctx ∧ context_of p ctx
      | _ => False
      end
  | Present => ∃ i ctx, zget (clientBank s) i = Some ctx ∧ context_of p ctx ∧ busy (msg s) ≠ Some i
  | Removing =>
      match msg s with
      | MRmSpin i | MRmSet i | MRmStore i | MRmWait i | MRmFinish i =>
          ∃ ctx, zget (clientBank s) i = Some ctx ∧ subscribed ctx = true ∧ id ctx = p
      | _ => False
      end
  end.

(** A subscription in progress is that of a client. *)
Definition adding_ok (s : server_state) : Prop :=
  match msg s with
  | MSetup _ _ _ _ _ | MAddSpin _ | MAddSet _ | MAddStore _ | MRespond _ => ∃ p, has_status s p Adding
  | _ => True
  end.

(** The statuses exclude each other. *)
Lemma present_not_busy s p i ctx :
  server_inv s → has_status s p Present → zget (clientBank s) i = Some ctx → subscribed ctx = true →
  busy (msg s) = Some i → id ctx ≠ p.
Proof.
  intros [_ Hb] (j & cj & Hj & (Hsj & Hid & _) & Hne) Hi Hs Hbusy Heq.
  assert (j = i) as -> by (apply (ids_distinct (clientBank s) j i cj ctx); [apply Hb|done..|congruence]). done.
Qed.

(** A step that changes neither the bank nor the slot that is worked on. *)
Lemma status_present_same s s' p :
  clientBank s' = clientBank s → busy (msg s') = busy (msg s) → has_status s p Present → has_status s' p Present.
Proof. intros Hb Hm (i & ctx & ? & ? & ?). exists i, ctx. rewrite Hb, Hm. done. Qed.
Lemma status_absent_same s s' p :
  clientBank s' = clientBank s → (∀ i m n k, msg s' ≠ MSetup i p m n k) →
  has_status s p Absent → has_status s' p Absent.
Proof. intros Hb Hm [? _]. split; [by rewrite Hb|done]. Qed.

(** A step that replaces the slot that is worked on. *)
Lemma present_zset b v u r p0 m m' d l i x p :
  busy m = Some i → busy m' = Some i ∨ busy m' = None →
  has_status (mkServer b v u r p0 m d l) p Present → has_status (mkServer (zset b i x) v u r p0 m' d l) p Present.
Proof.
  intros Hm Hm' (j & ctx & Hj & Hc & Hne). simpl in *. exists j, ctx. simpl.
  rewrite zget_zset_ne by congruence. split_and!; [done|done|]. destruct Hm' as [-> | ->]; congruence.
Qed.
Lemma absent_zset b v u r p0 m m' d l i x p :
  (subscribed x = true → id x ≠ p) → (∀ i m n k, m' ≠ MSetup i p m n k) →
  has_status (mkServer b v u r p0 m d l) p Absent → has_status (mkServer (zset b i x) v u r p0 m' d l) p Absent.
Proof.
  intros Hx Hm' [Hb _]. simpl in *. split; [|done]. simpl.
  intros j ctx [[-> ->]|[_ Hj]]%zget_zset_Some; [done|by eapply Hb].
Qed.

(** Nothing is sent to client [p]. *)
Definition silent (e : option server_event) (p : Z) : Prop := ∀ fd message, e = Some (EvSent fd message) → fd ≠ socket p.

Context `{!Inj (=) (=) socket}.

Lemma setup_of_client s i c m n k ctx :
  server_inv s → msg s = MSetup i c m n k → zget (clientBank s) i = Some ctx →
  0 ≤ m ∧ 0 ≤ n ∧ 0 ≤ k ∧ begin_context c m n k (ipcContext ctx) = Ok ctx ∧
  (∀ j cj, zget (clientBank s) j = Some cj → subscribed cj = true → id cj ≠ c).
Proof.
  intros [_ Hb] Hm Hi. destruct (bk_setup _ _ _ Hb _ _ _ _ _ Hm) as (Hm0 & Hn & Hk & (cx & fd & Hx & Hbegin) & Hne & _).
  assert (cx = ctx) as -> by congruence. split_and!; try done.
  destruct (begin_context_setup _ _ _ _ _ _ Hm0 Hn Hbegin) as (_ & _ & (_ & _ & -> & _) & _). done.
Qed.

(** The communication thread handles a message. *)
Ltac handler_cases Hs :=
  let Hinp := fresh in
  match type of Hs with msg_step _ _ _ ?inp _ _ _ => remember inp as input eqn:Hinp in Hs end;
  destruct Hs as [| | | |b v u r p0 d l i c m n k ctx0 K K' ctx Hget Hrun|b v u r p0 d l i c m n k ctx0 K K' ctx e Hget Hrun
    |b v r p0 d l i|b v u r p0 d l i ctx Hget|b v u r p0 d l i|b v u r p0 d l i ctx Hget| |
    |b v r p0 d l i|b v u r p0 d l i|b v u r p0 d l i|b v r p0 d l i|b v u r p0 d l i ctx Hget|];
  try discriminate Hinp; clear Hinp.

Lemma handler_absent s e s' p :
  server_inv s → adding_ok s → msg_step lock_free cacheLine reserve_ok None s e s' →
  has_status s p Absent → has_status s' p Absent ∧ silent e p.
Proof.
  intros Hinv Hadd Hs Hst. handler_cases Hs;
    try (split; [by eapply status_absent_same, Hst|by intros ? ?]).
  - destruct (setup_of_client _ i c m n k ctx0 Hinv eq_refl Hget) as (Hm & Hn & Hk & Hbegin & _).
    destruct (setup_context_post _ _ _ _ _ _ _ _ _ _ _ _ _ Hm Hn Hk Hbegin Hrun) as [(_ & Hid & _)|(? & ? & _)]; [|done].
    split; [|by intros ? ?]. apply (absent_zset _ _ _ _ _ (MSetup i c m n k)); [|done|done].
    intros _ Hp. destruct Hst as [_ Hst]. by apply (Hst i m n k); rewrite <-Hp, Hid.
  - destruct (setup_of_client _ i c m n k ctx0 Hinv eq_refl Hget) as (Hm & Hn & Hk & Hbegin & _).
    destruct (setup_context_post _ _ _ _ _ _ _ _ _ _ _ _ _ Hm Hn Hk Hbegin Hrun) as [(? & _)|(? & _ & Hsub & _)]; [done|].
    split; [|by intros ? ?]. apply (absent_zset _ _ _ _ _ (MSetup i c m n k)); [by rewrite Hsub|done|done].
  - destruct Hadd as (q & ctx' & Hi & (Hsq & Hidq & Hcq & _)). simpl in Hi. assert (ctx' = ctx) as -> by congruence.
    split; [by eapply status_absent_same, Hst|]. intros fd message [= <- _].
    intros Heq. rewrite Hcq in Heq. apply (inj socket) in Heq as ->. by destruct (proj1 Hst i ctx).
  - split; [|by intros ? ?]. by apply (absent_zset _ _ _ _ _ (MRmFinish i)).
Qed.

Lemma handler_present s e s' p :
  server_inv s → adding_ok s → msg_step lock_free cacheLine reserve_ok None s e s' →
  has_status s p Present → has_status s' p Present ∧ silent e p.
Proof.
  intros Hinv Hadd Hs Hst. handler_cases Hs;
    try (split; [by eapply status_present_same, Hst|by intros ? ?]).
  - split; [|by intros ? ?]. apply (present_zset _ _ _ _ _ (MSetup i c m n k)); [done|by left|done].
  - split; [|by intros ? ?]. apply (present_zset _ _ _ _ _ (MSetup i c m n k)); [done|by right|done].
  - destruct Hadd as (q & ctx' & Hi & (Hsq & Hidq & Hcq & _)). simpl in Hi. assert (ctx' = ctx) as -> by congruence.
    split.
    + destruct Hst as (j & cj & ? & ? & _). by exists j, cj.
    + intros fd message [= <- _]. intros Heq. rewrite Hcq in Heq. apply (inj socket) in Heq as ->.
      by apply (present_not_busy _ p i ctx Hinv Hst).
  - split; [|by intros ? ?]. apply (present_zset _ _ _ _ _ (MRmFinish i)); [done|by right|done].
Qed.

Lemma handler_removing s e s' p :
  server_inv s → msg_step lock_free cacheLine reserve_ok None s e s' →
  has_status s p Removing → (has_status s' p Removing ∨ has_status s' p Absent) ∧ silent e p.
Proof.
  intros Hinv Hs Hst. handler_cases Hs; try done; try (split; [by left|by intros ? ?]).
  destruct Hst as (ctx' & Hi & Hsub & Hid). simpl in Hi. assert (ctx' = ctx) as -> by congruence.
  split; [right|by intros ? ?]. split; [|done]. simpl.
  intros j cj [[-> ->]|[Hne Hj]]%zget_zset_Some Hs; [done|]. intros Hidj. apply Hne.
  apply (ids_distinct b j i cj ctx); [apply Hinv|done..|congruence].
Qed.

Lemma setup_done_context s i c m n k ctx0 K K' ctx p :
  server_inv s → msg s = MSetup i c m n k → zget (clientBank s) i = Some ctx0 →
  setup_context lock_free cacheLine reserve_ok c m n k (K, ctx0) = ((K', ctx), Ok ()) →
  has_status s p Adding → context_of p ctx.
Proof.
  intros Hinv Hmsg Hget Hrun Hst. simpl in Hst. rewrite Hmsg in Hst. destruct Hst as (-> & Hd & ctx' & Hi & Hsock).
  assert (ctx' = ctx0) as -> by congruence.
  destruct (setup_of_client _ i p m n k ctx0 Hinv Hmsg Hget) as (Hm & Hn & Hk & Hbegin & _).
  destruct (setup_context_post _ _ _ _ _ _ _ _ _ _ _ _ _ Hm Hn Hk Hbegin Hrun)
    as [(_ & Hid & Hr & Hc & Hms)|(? & ? & _)]; [|done].
  unfold context_of. rewrite Hd, Hc. split_and!; try done. apply Hr.
Qed.

Lemma handler_adding s e s' p :
  server_inv s → msg_step lock_free cacheLine reserve_ok None s e s' →
  has_status s p Adding →
  ((has_status s' p Adding ∨ has_status s' p Absent) ∧ silent e p) ∨
  (has_status s' p Present ∧ ∃ message, e = Some (EvSent (socket p) message)).
Proof.
  intros Hinv Hs Hst. handler_cases Hs; try done; try (left; split; [by left|by intros ? ?]).
  - left. split; [left|by intros ? ?]. exists ctx. simpl. pose proof (zget_Some_range _ _ _ Hget).
    rewrite zget_zset_eq by done. split; [done|]. by eapply setup_done_context.
  - destruct Hst as (-> & _). destruct (setup_of_client _ i p m n k ctx0 Hinv eq_refl Hget) as (Hm & Hn & Hk & Hbegin & Hne).
    destruct (setup_context_post _ _ _ _ _ _ _ _ _ _ _ _ _ Hm Hn Hk Hbegin Hrun) as [(? & _)|(? & _ & Hsub & _)]; [done|].
    left. split; [right|by intros ? ?]. split; [|done]. simpl.
    intros j cj [[-> ->]|[_ Hj]]%zget_zset_Some Hs; [congruence|by apply (Hne j)].
  - destruct Hst as (ctx' & Hi & Hc). simpl in Hi. assert (ctx' = ctx) as -> by congruence.
    right. split; [by exists i, ctx|]. destruct Hc as (_ & _ & -> & _). by eexists.
Qed.

Lemma handler_adding_ok s e s' :
  server_inv s → adding_ok s → msg_step lock_free cacheLine reserve_ok None s e s' → adding_ok s'.
Proof.
  intros Hinv Hadd Hs. handler_cases Hs; try done; destruct Hadd as [p Hp]; exists p; try done.
  exists ctx. simpl. pose proof (zget_Some_range _ _ _ Hget). rewrite zget_zset_eq by done.
  split; [done|]. by eapply setup_done_context.
Qed.

(** A message arrives. *)
Ltac arrival_cases Hs :=
  let Hinp := fresh in
  match type of Hs with msg_step _ _ _ ?inp _ _ _ => remember inp as input eqn:Hinp in Hs end;
  destruct Hs as [b v u r p0 d l msg0 fd0 c m0 n0 k0 j Hp Hex|b v u r p0 d l msg0 fd0 c m0 n0 k0 i ctx Hp Hmsg Hex Hidx Hbegin
    |b v u r p0 d l msg0 fd0 c m0 n0 k0 Hp Hex Hidx|b v u r p0 d l msg0 fd0 c m0 n0 k0 i Hp Hex Hidx Hbegin
    | | | | | | |b v u r p0 d l msg0 fd0 c Hp Hex|b v u r p0 d l msg0 fd0 c j Hp Hex| | | | | |b v u r p0 d l msg0 fd0 Hp1 Hp2];
  try discriminate Hinp; injection Hinp; clear Hinp; intros; subst fd0 msg0.

Lemma sender_of_subscribe message c m n k : ProcessSubscribeMessage message = Some (c, m, n, k) → senderId message = c.
Proof. unfold ProcessSubscribeMessage. case_decide; [done|]. by intros [= -> _ _ _]. Qed.
Lemma sender_of_unsubscribe message c : ProcessUnsubscribeMessage message = Some c → senderId message = c.
Proof. unfold ProcessUnsubscribeMessage. case_decide; [done|]. by intros [= ->]. Qed.

(** It does not concern the other clients. *)
Lemma arrival_other fd message s e s' p st :
  server_inv s → msg_step lock_free cacheLine reserve_ok (Some (fd, message)) s e s' →
  senderId message ≠ p → has_status s p st → has_status s' p st.
Proof.
  intros Hinv Hs Hne Hst. arrival_cases Hs; try done; destruct st; try done.
  all: try (eapply status_absent_same, Hst; [reflexivity|done]).
  all: try (eapply status_present_same, Hst; [reflexivity|reflexivity]).
  - apply sender_of_subscribe in Hp. destruct (begin_context_id _ _ _ _ _ _ Hbegin) as [Hid Hsub].
    apply (absent_zset _ _ _ _ _ MIdle); [by rewrite Hsub| |done]. intros i' m' n' k' [= _ Hc _ _ _]. congruence.
  - destruct Hst as (j & cj & Hj & Hc & _). simpl in Hj. exists j, cj. simpl.
    apply index_to_add_Some in Hidx as (_ & Hbit & _). destruct Hinv as [_ Hb]. simpl in Hb.
    pose proof (bk_bits _ _ _ Hb _ _ Hj) as Hbits. rewrite orb_false_r in Hbits. destruct Hc as [Hsub Hc].
    assert (i ≠ j) by congruence. rewrite zget_zset_ne by done. split_and!; [done|done|]. unfold busy. simpl. congruence.
  - destruct Hst as (j' & cj & Hj & Hc & _). simpl in Hj. exists j', cj. simpl. split_and!; [done|done|].
    destruct Hinv as [_ Hb]. simpl in Hb. rewrite (index_to_remove_exists _ _ _ (bk_ids _ _ _ Hb) Hex).
    apply ClientExists_Some in Hex as (cj' & Hj' & _ & Hid). apply sender_of_unsubscribe in Hp.
    intros [= ->]. destruct Hc as (_ & Hid' & _). congruence.
Qed.

(** A client's subscription and its unsubscription. *)
Lemma arrival_subscribe s e s' p old m n k :
  server_inv s → dims p = (m, n, k) →
  msg_step lock_free cacheLine reserve_ok (Some (socket p, GenerateSubscribeMessage old p m n k)) s e s' →
  has_status s p Absent → has_status s' p Adding ∨ has_status s' p Absent ∧ msg s' = MUndef.
Proof.
  intros Hinv Hd Hs Hst. arrival_cases Hs; try done; try (injection Hp as <- <- <- <-).
  - apply ClientExists_Some in Hex as (ctx & Hj & Hsub & Hid). by destruct (proj1 Hst j ctx).
  - left. destruct Hinv as [_ Hb]. apply index_to_add_Some in Hidx as (Hr & _ & _).
    destruct Hmsg as (_ & _ & [Hm _] & [Hn _] & _). simpl in Hm, Hn.
    destruct (begin_context_setup _ _ _ _ _ _ Hm Hn Hbegin) as (_ & _ & (_ & _ & Hsock & _) & _).
    split_and!; [done|done|]. exists ctx. simpl. rewrite zget_zset_eq; [done|]. simpl in Hb. by rewrite (bk_len _ _ _ Hb).
  - right. split; [|done]. by eapply status_absent_same, Hst.
  - right. split; [|done]. by eapply status_absent_same, Hst.
Qed.

Lemma arrival_unsubscribe s e s' p fd old :
  server_inv s →
  msg_step lock_free cacheLine reserve_ok (Some (fd, GenerateUnsubscribeMessage old p)) s e s' →
  has_status s p Present → has_status s' p Removing.
Proof.
  intros Hinv Hs Hst. arrival_cases Hs; try done; injection Hp as <-.
  - destruct Hst as (j & cj & Hj & (Hsub & Hid & _) & _). by destruct (ClientExists_None _ _ _ _ Hex Hj Hsub).
  - destruct Hinv as [_ Hb]. simpl in *. rewrite (index_to_remove_exists _ _ _ (bk_ids _ _ _ Hb) Hex).
    apply ClientExists_Some in Hex as (ctx & ? & ? & ?). by exists ctx.
Qed.

Lemma arrival_adding_ok fd message s e s' :
  msg_step lock_free cacheLine reserve_ok (Some (fd, message)) s e s' →
  ProcessSubscribeMessage message = None → adding_ok s'.
Proof. intros Hs Hnone. arrival_cases Hs; try done; congruence. Qed.

Lemma adding_status_ok s p : has_status s p Adding → adding_ok s.
Proof. intros Hst. unfold adding_ok. simpl in Hst. destruct (msg s) eqn:Hm; try done; exists p; simpl; by rewrite Hm. Qed.

(** The dispatcher leaves the clients' slots alone, except for the statistics. *)
Definition same_client (c c' : ClientContext) : Prop :=
  subscribed c' = subscribed c ∧ id c' = id c ∧ ipcContext c' = ipcContext c ∧ matrixSize c' = matrixSize c.

Lemma disp_bank_same s e s' :
  disp_step s e s' → msg s' = msg s ∧
  (∀ i c, zget (clientBank s) i = Some c → ∃ c', zget (clientBank s') i = Some c' ∧ same_client c c') ∧
  (∀ i c', zget (clientBank s') i = Some c' → ∃ c, zget (clientBank s) i = Some c ∧ same_client c c').
Proof.
  intros Hs. destruct Hs as [| | | | | | | | | |b v u r p m l i ctx start stop Hget];
    try (split_and!; [done|intros j c Hj; by exists c|intros j c Hj; by exists c]).
  split_and!; [done| |]; simpl; intros j c Hj.
  - pose proof (zget_Some_range _ _ _ Hget). destruct (decide (j = i)) as [->|Hne].
    + rewrite zget_zset_eq by done. assert (c = ctx) as -> by congruence. by eexists.
    + rewrite zget_zset_ne by done. by exists c.
  - apply zget_zset_Some in Hj as [[-> ->]|[_ Hj]]; [by exists ctx|by exists c].
Qed.

Lemma context_of_same p c c' : same_client c c' → context_of p c → context_of p c'.
Proof. unfold same_client, context_of. intros (-> & -> & -> & ->). done. Qed.

Lemma disp_status s e s' p st : disp_step s e s' → has_status s p st → has_status s' p st.
Proof.
  intros (Hm & Hfw & Hbw)%disp_bank_same Hst. destruct st; simpl in *; rewrite Hm in *.
  - destruct Hst as [Hne ?]. split; [|done]. intros i c' Hi Hs. destruct (Hbw i c' Hi) as (c & Hc & Hsub & Hid & _).
    rewrite Hid. apply (Hne i c); congruence.
  - assert (∀ i, (∃ ctx, zget (clientBank s) i = Some ctx ∧ context_of p ctx) →
      ∃ ctx, zget (clientBank s') i = Some ctx ∧ context_of p ctx) as Hslot.
    { intros i (c & Hc & Hp). destruct (Hfw i c Hc) as (c' & ? & ?). exists c'. eauto using context_of_same. }
    destruct (msg s); try done; auto.
    destruct Hst as (? & ? & c & Hc & Hp). destruct (Hfw i c Hc) as (c' & ? & _ & _ & Hsock & _).
    split_and!; [done..|]. exists c'. by rewrite Hsock.
  - destruct Hst as (i & c & Hc & Hp & Hb). destruct (Hfw i c Hc) as (c' & ? & ?).
    exists i, c'. eauto using context_of_same.
  - assert (∀ i, (∃ ctx, zget (clientBank s) i = Some ctx ∧ subscribed ctx = true ∧ id ctx = p) →
      ∃ ctx, zget (clientBank s') i = Some ctx ∧ subscribed ctx = true ∧ id ctx = p) as Hslot.
    { intros i (c & Hc & Hs & Hp). destruct (Hfw i c Hc) as (c' & ? & ? & ? & _). exists c'. split_and!; congruence. }
    destruct (msg s); try done; auto.
Qed.

(** * The invariant of the protocol *)

(** The client's state and messages against its standing at the server. *)
Definition client_inv (s : server_state) (p : Z) (c : client_state) : Prop :=
  match main_at c with
  | PSubscribe => c = client_start ∧ has_status s p Absent
  | PWait =>
      (∃ old m n k, dims p = (m, n, k) ∧ has_status s p Absent ∧
         c = mkClient PWait false [GenerateSubscribeMessage old p m n k] []) ∨
      (c = mkClient PWait false [] [] ∧ (has_status s p Adding ∨ has_status s p Absent)) ∨
      (has_status s p Present ∧ sent c = [] ∧
         ((subscribeResponseReceived c = false ∧ ∃ message, arriving c = [message]) ∨
          (subscribeResponseReceived c = true ∧ arriving c = [])))
  | PSession => has_status s p Present ∧ c = mkClient PSession true [] []
  | PLeft =>
      (∃ old, has_status s p Present ∧ c = mkClient PLeft true [GenerateUnsubscribeMessage old p] []) ∨
      ((has_status s p Removing ∨ has_status s p Absent) ∧ c = mkClient PLeft true [] [])
  | PDead =>
      (∃ old m n k, dims p = (m, n, k) ∧ has_status s p Absent ∧ sent c = [GenerateSubscribeMessage old p m n k]) ∨
      (∃ old, has_status s p Present ∧ sent c = [GenerateUnsubscribeMessage old p]) ∨
      (sent c = [] ∧ ∃ st, has_status s p st)
  end.

Definition protocol_inv (P : protocol) : Prop :=
  server_inv (server P) ∧ adding_ok (server P) ∧ ∀ p c, clients P !! p = Some c → client_inv (server P) p c.

(** A step at the server that keeps the client's status. *)
Lemma client_inv_same s s' p c :
  (∀ st, has_status s p st → has_status s' p st) → client_inv s p c → client_inv s' p c.
Proof.
  intros Hst. unfold client_inv. destruct (main_at c).
  - intros [? ?]. auto.
  - intros [(old & m & n & k & ? & ? & ?)|[[? [?|?]]|(? & ?)]]; [left; exists old, m, n, k|..]; auto 6.
  - intros [? ?]. auto.
  - intros [(old & ? & ?)|[[?|?] ?]]; [left; exists old|..]; auto.
  - intros [(old & m & n & k & ? & ? & ?)|[(old & ? & ?)|[? [st ?]]]];
      [left; exists old, m, n, k|right; left; exists old|right; right]; eauto.
Qed.

(** However a client's process ends, the server does not notice. *)
Lemma client_inv_ends s p pc r out inb :
  client_inv s p (mkClient pc r out inb) → client_inv s p (mkClient PDead r out []).
Proof.
  unfold client_inv. cbn [main_at sent subscribeResponseReceived arriving]. destruct pc.
  - intros [[= -> -> ->] ?]. right; right. split; [done|by exists Absent].
  - intros [(old & m & n & k & ? & ? & [= -> -> ->])|[[[= -> -> ->] [?|?]]|(? & -> & _)]]; [left; by exists old, m, n, k|..];
      right; right; (split; [done|]); [by exists Adding|by exists Absent|by exists Present].
  - intros [? [= -> -> ->]]. right; right. split; [done|by exists Present].
  - intros [(old & ? & [= -> -> ->])|[[?|?] [= -> -> ->]]]; [right; left; by exists old|..];
      right; right; (split; [done|]); [by exists Removing|by exists Absent].
  - done.
Qed.

Lemma client_inv_step s p c c' : client_inv s p c → client_step dims p c c' → client_inv s p c'.
Proof.
  intros Hc Hs. destruct Hs as [r out inb message m n k Hd|out inb|r out inb message|pc r out inb message Hpc|pc r out inb];
    [| | | |by eapply client_inv_ends];
    unfold client_inv in *; simpl in *.
  - destruct Hc as [[= -> -> ->] Hst]. left. by exists message, m, n, k.
  - destruct Hc as [(? & ? & ? & ? & _ & _ & [=])|[([=] & _)|(Hst & -> & [[[=] _]|[_ ->]])]]. done.
  - destruct Hc as [Hst [= -> -> ->]]. left. by exists message.
  - unfold MessageHandler. simpl. destruct pc; simpl.
    + by destruct Hc as [[=] _].
    + destruct Hc as [(? & ? & ? & ? & _ & _ & [=])|[([=] & _)|(Hst & -> & [[_ (? & [= -> ->])]|[_ [=]]])]].
      right; right. auto.
    + by destruct Hc as [_ [=]].
    + by destruct Hc as [(? & _ & [=])|[_ [=]]].
    + done.
Qed.

(** The step of a thread of the server that handles a message. *)
Lemma client_inv_handler s e s' p c :
  server_inv s → adding_ok s → msg_step lock_free cacheLine reserve_ok None s e s' → client_inv s p c →
  client_inv s' p (match e with
    | Some (EvSent fd message) => if decide (socket p = fd) then receive message c else c
    | _ => c
    end).
Proof.
  intros Hinv Hadd Hs Hc. set (c' := match e with Some _ => _ | None => c end).
  assert (silent e p → c' = c) as Hsilent.
  { intros Hsil. unfold c'. destruct e as [[]|]; try done. rewrite decide_False; [done|].
    intros <-. by apply (Hsil (socket p) message). }
  pose proof (handler_absent s e s' p Hinv Hadd Hs) as Habs.
  pose proof (handler_present s e s' p Hinv Hadd Hs) as Hpre.
  pose proof (handler_removing s e s' p Hinv Hs) as Hrem.
  pose proof (handler_adding s e s' p Hinv Hs) as Hadding.
  unfold client_inv in Hc. destruct (main_at c) eqn:Hpc.
  - destruct Hc as [-> [Hst Hsil]%Habs]. by rewrite (Hsilent Hsil).
  - destruct Hc as [(old & m & n & k & Hd & [Hst Hsil]%Habs & ->)|[[-> Hc]|([Hst Hsil]%Hpre & Hc)]].
    + rewrite (Hsilent Hsil). left. by exists old, m, n, k.
    + destruct Hc as [[[Hst Hsil]|[Hst (message & ->)]]%Hadding|[Hst Hsil]%Habs].
      * rewrite (Hsilent Hsil). right; left. auto.
      * unfold c'. rewrite decide_True by done. right; right. split_and!; [done..|]. left. simpl. eauto.
      * rewrite (Hsilent Hsil). right; left. auto.
    + rewrite (Hsilent Hsil). unfold client_inv. rewrite Hpc. right; right. done.
  - destruct Hc as [[Hst Hsil]%Hpre ->]. by rewrite (Hsilent Hsil).
  - destruct Hc as [(old & [Hst Hsil]%Hpre & ->)|[[[Hst Hsil]%Hrem|[Hst Hsil]%Habs] ->]]; rewrite (Hsilent Hsil).
    + left. by exists old.
    + right. done.
    + right. auto.
  - assert (sent c' = sent c ∧ main_at c' = PDead) as [Hsent Hpc'].
    { unfold c'. destruct e as [[]|]; auto. case_decide; auto. }
    unfold client_inv. rewrite Hpc', Hsent.
    destruct Hc as [(old & m & n & k & Hd & [Hst _]%Habs & ->)|[(old & [Hst _]%Hpre & ->)|[-> [[] Hst]]]].
    + left. by exists old, m, n, k.
    + right; left. by exists old.
    + right; right. apply Habs in Hst as [? _]. split; [done|by exists Absent].
    + right; right. apply Hadding in Hst as [[[?|?] _]|[? _]]; (split; [done|]);
        [by exists Adding|by exists Absent|by exists Present].
    + right; right. apply Hpre in Hst as [? _]. split; [done|by exists Present].
    + right; right. apply Hrem in Hst as [[?|?] _]; (split; [done|]); [by exists Removing|by exists Absent].
Qed.

(** What a client sends carries its own id. *)
Lemma sent_sender s p c message : client_inv s p c → head (sent c) = Some message → senderId message = p.
Proof.
  unfold client_inv. intros Hc Hh. destruct (main_at c).
  - destruct Hc as [-> _]. done.
  - destruct Hc as [(? & ? & ? & ? & _ & _ & ->)|[[-> _]|(_ & Hs & _)]]; [by injection Hh as <-|done|by rewrite Hs in Hh].
  - destruct Hc as [_ ->]. done.
  - destruct Hc as [(? & _ & ->)|[_ ->]]; [by injection Hh as <-|done].
  - destruct Hc as [(? & ? & ? & ? & _ & _ & Hs)|[(? & _ & Hs)|[Hs _]]]; rewrite Hs in Hh;
      [by injection Hh as <-|by injection Hh as <-|done].
Qed.

Lemma client_inv_arrival s e s' p c message :
  server_inv s → msg_step lock_free cacheLine reserve_ok (Some (socket p, message)) s e s' →
  client_inv s p c → head (sent c) = Some message → client_inv s' p (read_sent c) ∧ adding_ok s'.
Proof.
  intros Hinv Hs Hc Hh. unfold client_inv in Hc. destruct (main_at c) eqn:Hpc.
  - destruct Hc as [-> _]. done.
  - destruct Hc as [(old & m & n & k & Hd & Hst & ->)|[[-> _]|(_ & Hsent & _)]]; [|done|by rewrite Hsent in Hh].
    injection Hh as <-. destruct (arrival_subscribe s e s' p old m n k Hinv Hd Hs Hst) as [Ha|[Ha Hu]].
    + split; [|by eapply adding_status_ok]. right; left. auto.
    + split; [|unfold adding_ok; by rewrite Hu]. right; left. auto.
  - destruct Hc as [_ ->]. done.
  - destruct Hc as [(old & Hst & ->)|[_ ->]]; [|done]. injection Hh as <-.
    split; [|by eapply arrival_adding_ok]. right. split; [|done]. left. by eapply arrival_unsubscribe.
  - unfold client_inv, read_sent. cbn [main_at sent]. rewrite Hpc.
    destruct Hc as [(old & m & n & k & Hd & Hst & Hsent)|[(old & Hst & Hsent)|[Hsent _]]]; rewrite Hsent in *; [..|done];
      injection Hh as <-.
    + destruct (arrival_subscribe s e s' p old m n k Hinv Hd Hs Hst) as [Ha|[Ha Hu]].
      * split; [|by eapply adding_status_ok]. right; right. split; [done|by exists Adding].
      * split; [|unfold adding_ok; by rewrite Hu]. right; right. split; [done|by exists Absent].
    + split; [|by eapply arrival_adding_ok]. right; right. split; [done|]. exists Removing. by eapply arrival_unsubscribe.
Qed.

Lemma client_inv_hang_up s p c : client_inv s p c → main_at c = PDead → client_inv s p (hang_up c).
Proof.
  unfold client_inv, hang_up. cbn [main_at sent]. intros Hc Hpc. rewrite Hpc in *. right; right. split; [done|].
  destruct Hc as [(_ & _ & _ & _ & _ & ? & _)|[(_ & ? & _)|[_ ?]]]; [by exists Absent|by exists Present|done].
Qed.

Lemma protocol_inv_step P P' :
  protocol_inv P → protocol_step lock_free cacheLine reserve_ok dims socket P P' → protocol_inv P'.
Proof.
  intros (Hinv & Hadd & Hcs) Hs.
  destruct Hs as [s cs p c c' Hp Hs|s s' cs p c message e Hp Hh Hs|s s' cs e Hs Hpipe|s cs p c Hp Hpc Hm|s s' cs e Hs
    |b v u r p m d l cs]; simpl in *.
  - split_and!; [done|done|]. cbn [clients server]. intros q cq [[<- <-]|[_ Hq]]%lookup_insert_Some; [|by apply Hcs].
    eapply client_inv_step; [by apply Hcs|done].
  - assert (server_inv s') as Hinv' by (eapply (server_inv_step lock_free cacheLine reserve_ok); [exact Hinv|by eapply by_msg]).
    destruct (client_inv_arrival s e s' p c message Hinv Hs (Hcs p c Hp) Hh) as [Hc Ha].
    split_and!; [done|done|]. cbn [clients server]. intros q cq [[<- <-]|[Hne Hq]]%lookup_insert_Some; [done|].
    apply (client_inv_same s); [|by apply Hcs]. intros st. eapply arrival_other; [done|done|].
    by rewrite (sent_sender s p c message (Hcs p c Hp) Hh).
  - split_and!; [eapply (server_inv_step lock_free cacheLine reserve_ok); [exact Hinv|by eapply by_msg]|by eapply handler_adding_ok|].
    cbn [clients server]. intros q cq Hq. assert (∃ c, cs !! q = Some c ∧ cq = match e with
      | Some (EvSent fd message) => if decide (socket q = fd) then receive message c else c | _ => c end)
      as (c & Hc & ->).
    { unfold deliver in Hq. destruct e as [[]|]; eauto. rewrite map_lookup_imap in Hq.
      destruct (cs !! q) as [c|]; [|done]. injection Hq as <-. by exists c. }
    eapply client_inv_handler; [done..|]. by apply Hcs.
  - split_and!; [done|done|]. cbn [clients server]. intros q cq [[<- <-]|[_ Hq]]%lookup_insert_Some; [|by apply Hcs].
    by apply client_inv_hang_up; [apply Hcs|].
  - split_and!; [eapply (server_inv_step lock_free cacheLine reserve_ok); [exact Hinv|by eapply by_disp]| |].
    + cbn [server]. unfold adding_ok in *. rewrite (proj1 (disp_bank_same _ _ _ Hs)).
      destruct (msg s); try done; destruct Hadd as [p Hp]; exists p; by eapply disp_status.
    + cbn [clients server]. intros q cq Hq. apply (client_inv_same s); [|by apply Hcs]. intros st. by eapply disp_status.
  - split_and!; [eapply (server_inv_step lock_free cacheLine reserve_ok); [exact Hinv|apply by_main]| |].
    + unfold adding_ok in *. simpl in *. destruct m; try done; destruct Hadd as [q Hq]; by exists q.
    + cbn [clients server]. intros q cq Hq. apply (client_inv_same (mkServer b v u r p m d l)); [|by apply Hcs]. by intros [].
Qed.

Lemma protocol_inv_init pid ps : protocol_inv (protocol_init pid ps).
Proof.
  split_and!; [apply server_inv_init|done|]. intros p c [_ <-]%lookup_gset_to_gmap_Some.
  split; [done|]. split; [|done]. by intros i ctx ->%zget_replicate_inv.
Qed.

Lemma protocol_inv_reachable pid ps P :
  rtc (protocol_step lock_free cacheLine reserve_ok dims socket) (protocol_init pid ps) P → protocol_inv P.
Proof.
  intros Hr. eapply (invariant_rtc _ protocol_inv); [|apply protocol_inv_init|exact Hr].
  intros P1 P2 H1 Hs. by eapply protocol_inv_step.
Qed.

(** * Progress *)

Abbreviation step := (protocol_step lock_free cacheLine reserve_ok dims socket).

(** A client whose subscription the server has read and not answered. *)
Definition waiting : client_state := mkClient PWait false [] [].

(** The threads can go on until it has left its waiting loop, ... *)
Definition answered (p : Z) (P : protocol) : Prop := ∃ c, clients P !! p = Some c ∧ main_at c = PSession.
Definition can_answer (p : Z) (P : protocol) : Prop := ∃ P', rtc step P P' ∧ answered p P'.

(** ... or until the server has given it up. *)
Definition refused (p : Z) (P : protocol) : Prop := clients P !! p = Some waiting ∧ has_status (server P) p Absent.
Definition can_refuse (p : Z) (P : protocol) : Prop := ∃ P', rtc step P P' ∧ refused p P'.

(** The communication thread is setting its slot up. *)
Definition in_set_up (p : Z) (m : msg_pc) : Prop := ∃ i m0 n k, m = MSetup i p m0 n k.

(** The objects of the client can be opened, or opening them can fail: the
    system calls decide. *)
Definition set_up_ends (p : Z) (s : server_state) (ok : bool) : Prop :=
  ∃ i m n k ctx K K' ctx' r, msg s = MSetup i p m n k ∧ zget (clientBank s) i = Some ctx ∧
    setup_context lock_free cacheLine reserve_ok p m n k (K, ctx) = ((K', ctx'), r) ∧
    if ok then r = Ok () else ∃ e, r = Throw e.

Lemma can_answer_step p P P' : step P P' → can_answer p P' → can_answer p P.
Proof. intros Hs (P2 & ? & ?). exists P2. split; [by eapply rtc_l|done]. Qed.

Lemma waiting_answered_respond s cs p i :
  cs !! p = Some waiting → has_status s p Adding → msg s = MRespond i → can_answer p (mkProtocol s cs).
Proof.
  destruct s as [b v u r p0 m d l]. simpl. intros Hp Hst ->. destruct Hst as (ctx & Hi & _ & _ & Hsock & _).
  eapply can_answer_step.
  { eapply by_handler; [by apply respond|]. intros (q & c & message & [= Hfd _] & Hq & Hpc). rewrite Hsock in Hfd.
    apply (inj socket) in Hfd as <-. assert (c = waiting) as -> by congruence. done. }
  rewrite Hsock. set (response := subscribe_response _ _ _).
  set (cs1 := deliver socket _ cs).
  assert (cs1 !! p = Some (receive response waiting)) as H1.
  { unfold cs1, deliver. rewrite map_lookup_imap, Hp. simpl. by rewrite decide_True. }
  eapply can_answer_step; [eapply by_client; [exact H1|by apply message_arrives]|].
  eapply can_answer_step; [eapply by_client; [apply lookup_insert_eq|apply response_seen]|].
  eexists. split; [reflexivity|]. unfold answered. simpl. rewrite lookup_insert_eq. by eexists.
Qed.

Lemma waiting_answered_set s cs p i :
  cs !! p = Some waiting → has_status s p Adding → msg s = MAddSet i → can_answer p (mkProtocol s cs).
Proof.
  destruct s as [b v u r p0 m d l]. simpl. intros Hp Hst ->. destruct Hst as (ctx & Hi & Hc).
  eapply can_answer_step; [by quietly add_set|].
  eapply can_answer_step; [quietly add_store|].
  eapply waiting_answered_respond; [exact Hp| |reflexivity]. by exists ctx.
Qed.

Lemma waiting_answered_spin s cs p i :
  working s → cs !! p = Some waiting → has_status s p Adding → msg s = MAddSpin i →
  can_answer p (mkProtocol s cs).
Proof.
  intros Hw Hp Hst Hm. destruct (dispatcher_takes_update s Hw) as (s' & Hr & Hu).
  assert (rtc step (mkProtocol s cs) (mkProtocol s' cs) ∧ has_status s' p Adding ∧ msg s' = MAddSpin i)
    as (Hr' & Hst' & Hm').
  { clear Hw Hu. induction Hr as [|s s1 s2 [_ [e Hs]] _ IH]; [done|].
    destruct IH as (? & ? & ?); [by eapply disp_status|by rewrite (proj1 (disp_bank_same _ _ _ Hs))|].
    split_and!; [|done|done]. eapply rtc_l; [by eapply by_dispatcher|done]. }
  assert (can_answer p (mkProtocol s' cs)) as (P & ? & ?); [|exists P; split; [by etrans|done]].
  destruct s' as [b v u r p0 m d l]. simpl in *. subst.
  eapply can_answer_step; [quietly add_spin|]. by eapply waiting_answered_set.
Qed.

(** Once the slot is set up, the answer is on its way. *)
Lemma waiting_answered s cs p :
  working s → cs !! p = Some waiting → has_status s p Adding → ¬ in_set_up p (msg s) →
  can_answer p (mkProtocol s cs).
Proof.
  intros Hw Hp Hst Hset. destruct (msg s) as [|i c m n k|i|i|i|i|i|i|i|i|i|] eqn:Hm;
    try (simpl in Hst; rewrite Hm in Hst; done).
  - simpl in Hst. rewrite Hm in Hst. destruct Hst as (-> & _). destruct Hset. by exists i, m, n, k.
  - by eapply waiting_answered_spin.
  - by eapply waiting_answered_set.
  - destruct s as [b v u r p0 m' d l]. simpl in *. subst. destruct Hst as (ctx & Hi & Hc).
    eapply can_answer_step; [quietly add_store|].
    eapply waiting_answered_respond; [exact Hp| |reflexivity]. by exists ctx.
  - by eapply waiting_answered_respond.
Qed.

(** The end of a set-up. *)
Lemma set_up_answered s cs p :
  server_inv s → working s → cs !! p = Some waiting → has_status s p Adding → set_up_ends p s true →
  can_answer p (mkProtocol s cs).
Proof.
  intros Hinv Hw Hp Hst (i & m & n & k & ctx & K & K' & ctx' & r & Hm & Hi & Hrun & ->).
  pose proof (setup_done_context _ _ _ _ _ _ _ _ _ _ _ Hinv Hm Hi Hrun Hst) as Hctx.
  destruct s as [b v u r0 p0 m' d l]. simpl in *. subst.
  pose proof (setup_done lock_free cacheLine reserve_ok b v u r0 p0 d l i p m n k ctx K K' ctx' Hi Hrun) as Hs.
  eapply can_answer_step; [by quietly Hs|]. eapply waiting_answered_spin; [..|reflexivity]; [|exact Hp|].
  - unfold working in *. simpl in *. by rewrite zlen_zset.
  - exists ctx'. simpl. pose proof (zget_Some_range _ _ _ Hi). by rewrite zget_zset_eq.
Qed.

Lemma set_up_refused s cs p :
  server_inv s → cs !! p = Some waiting → set_up_ends p s false → can_refuse p (mkProtocol s cs).
Proof.
  intros Hinv Hp (i & m & n & k & ctx & K & K' & ctx' & r & Hm & Hi & Hrun & e & ->).
  assert (∃ q, msg s = MSetup i q m n k ∧ q = p) as (q & Hq & Heq) by eauto.
  destruct s as [b v u r0 p0 m' d l]. simpl in *. subst.
  pose proof (setup_failed lock_free cacheLine reserve_ok b v u r0 p0 d l i p m n k ctx K K' ctx' e Hi Hrun) as Hs.
  eexists. split; [apply rtc_once; by quietly Hs|]. split; [done|].
  split; [|done]. cbn [server clientBank]. intros j cj Hj Hsub Hid.
  destruct (setup_of_client _ i p m n k ctx Hinv eq_refl Hi) as (Hm0 & Hn0 & Hk0 & Hbegin & Hne).
  apply zget_zset_Some in Hj as [[-> ->]|[_ Hj]]; [|by apply (Hne j cj)].
  destruct (setup_context_post _ _ _ _ _ _ _ _ _ _ _ _ _ Hm0 Hn0 Hk0 Hbegin Hrun) as [[? _]|(? & _ & Hin)]; [done|].
  unfold in_setup in Hin. destruct Hin as [Hfalse _]. congruence.
Qed.

(** A set-up always ends. *)
Lemma set_up_some_end s p :
  server_inv s → has_status s p Adding → in_set_up p (msg s) → ∃ ok, set_up_ends p s ok.
Proof.
  intros Hinv Hst (i & m & n & k & Hm). simpl in Hst. rewrite Hm in Hst. destruct Hst as (_ & _ & ctx & Hi & _).
  destruct (setup_of_client _ i p m n k ctx Hinv Hm Hi) as (Hm0 & Hn0 & Hk0 & Hbegin & _).
  destruct (setup_context lock_free cacheLine reserve_ok p m n k (boot, ctx)) as [[K' ctx'] r] eqn:Hrun.
  destruct (setup_context_post _ _ _ _ _ _ _ _ _ _ _ _ _ Hm0 Hn0 Hk0 Hbegin Hrun) as [[-> _]|(e & -> & _)];
    [exists true|exists false]; exists i, m, n, k, ctx, boot, K', ctx'; eauto 10.
Qed.

(** With buffers that have too many cells it fails. *)
Definition too_large (p : Z) : Prop := let '(m, n, k) := dims p in 32 ≤ m + n ∧ 1 ≤ k.

Lemma too_large_fails s p K i m n k ctx K' ctx' r :
  server_inv s → has_status s p Adding → too_large p → msg s = MSetup i p m n k → zget (clientBank s) i = Some ctx →
  setup_context lock_free cacheLine reserve_ok p m n k (K, ctx) = ((K', ctx'), r) → r ≠ Ok ().
Proof.
  intros Hinv Hst Hbig Hm Hi Hrun ->. simpl in Hst. rewrite Hm in Hst. destruct Hst as (_ & Hd & _).
  unfold too_large in Hbig. rewrite Hd in Hbig.
  destruct (setup_of_client _ i p m n k ctx Hinv Hm Hi) as (Hm0 & Hn0 & _ & Hbegin & _).
  destruct (setup_context_throws lock_free cacheLine reserve_ok p m n k (ipcContext ctx) ctx K Hm0 Hn0
    (proj1 Hbig) (proj2 Hbig) Hbegin) as (K2 & c2 & e & Hrun2). congruence.
Qed.

(** The process of client [p] has ended. *)
Definition ended (p : Z) (P : protocol) : Prop := ∃ c, clients P !! p = Some c ∧ main_at c = PDead.

Lemma ended_step p P P' : step P P' → ended p P → ended p P'.
Proof.
  intros Hs (c & Hp & Hpc). unfold ended.
  destruct Hs as [s cs q c1 c' Hq Hs|s s' cs q c1 message e Hq Hh Hs|s s' cs e Hs Hpipe|s cs q c1 Hq Hpc1 Hm|s s' cs e Hs
    |b v u r p0 m d l cs]; simpl in *; eauto.
  - destruct (decide (q = p)) as [->|Hne]; [|rewrite lookup_insert_ne by done; eauto].
    assert (c1 = c) as -> by congruence. rewrite lookup_insert_eq. eexists. split; [done|].
    destruct Hs; simpl in *; subst; done.
  - destruct (decide (q = p)) as [->|Hne]; [|rewrite lookup_insert_ne by done; eauto].
    assert (c1 = c) as -> by congruence. rewrite lookup_insert_eq. by eexists.
  - destruct e as [[]|]; simpl; eauto. rewrite map_lookup_imap, Hp. simpl. eexists. split; [done|]. by case_decide.
  - destruct (decide (q = p)) as [->|Hne]; [|rewrite lookup_insert_ne by done; eauto].
    assert (c1 = c) as -> by congruence. rewrite lookup_insert_eq. by eexists.
Qed.

(** A client that was refused is never answered. *)
Lemma refused_step p P P' :
  protocol_inv P → clients P !! p = Some waiting → has_status (server P) p Absent → step P P' →
  ended p P' ∨ clients P' !! p = Some waiting ∧ has_status (server P') p Absent.
Proof.
  intros (Hinv & Hadd & Hcs) Hp Hst Hs.
  destruct Hs as [s cs q c c' Hq Hs|s s' cs q c message e Hq Hh Hs|s s' cs e Hs Hpipe|s cs q c Hq Hpc Hm|s s' cs e Hs
    |b v u r p0 m d l cs]; simpl in *; [| |right..].
  - destruct (decide (q = p)) as [->|Hne]; [|right; by rewrite lookup_insert_ne].
    assert (c = waiting) as -> by congruence. inversion Hs; subst. left. eexists. split; [apply lookup_insert_eq|done].
  - assert (q ≠ p) as Hne by (intros ->; assert (c = waiting) as -> by congruence; done).
    right. split; [by rewrite lookup_insert_ne|]. eapply (arrival_other _ _ _ _ _ p Absent Hinv Hs); [|done].
    by rewrite (sent_sender s q c message (Hcs q c Hq) Hh).
  - destruct (handler_absent s e s' p Hinv Hadd Hs Hst) as [Hst' Hsil]. split; [|done].
    unfold deliver. destruct e as [[]|]; try done. rewrite map_lookup_imap, Hp. simpl.
    rewrite decide_False; [done|]. intros <-. by apply (Hsil (socket p) message).
  - split; [|done]. rewrite lookup_insert_ne; [done|]. intros ->. assert (c = waiting) as -> by congruence. done.
  - split; [done|]. by apply (disp_status s e s' p Absent).
  - done.
Qed.

(** A client whose buffers are too large never has a slot, ... *)
Definition no_slot (p : Z) (s : server_state) : Prop :=
  ∀ i ctx, zget (clientBank s) i = Some ctx → subscribed ctx = true → id ctx ≠ p.

Lemma no_slot_zset p i x b v u r p0 m d l m' v' :
  (subscribed x = true → id x ≠ p) → no_slot p (mkServer b v u r p0 m d l) →
  no_slot p (mkServer (zset b i x) v' u r p0 m' d l).
Proof. intros Hx Hno j cj Hj. apply zget_zset_Some in Hj as [[_ ->]|[_ Hj]]; [done|by apply (Hno j)]. Qed.

Lemma no_slot_msg s inp e s' p :
  server_inv s → adding_ok s → too_large p → msg_step lock_free cacheLine reserve_ok inp s e s' →
  no_slot p s → no_slot p s'.
Proof.
  intros Hinv Hadd Hbig Hs Hno. destruct Hs; try exact Hno; (eapply no_slot_zset; [|exact Hno]).
  - match goal with H : begin_context _ _ _ _ _ = Ok _ |- _ => rename H into Hb end. unfold begin_context in Hb.
    apply result_bind_Ok in Hb as (? & _ & Hb). apply result_bind_Ok in Hb as (? & _ & [= <-]). done.
  - intros _ Hid. destruct Hadd as [q Hq]. assert (c = q ∧ dims q = (m, n, k)) as [-> _] by (split; apply Hq).
    destruct (setup_of_client _ i q m n k ctx0 Hinv eq_refl) as (Hm0 & Hn0 & Hk0 & Hbegin & _); [done|].
    edestruct setup_context_cases as [Hq' _]; [exact Hm0|exact Hn0|exact Hk0|exact Hbegin|eassumption|].
    assert (q = p) as -> by congruence. by eapply (too_large_fails _ p).
  - destruct (setup_of_client _ i c m n k ctx0 Hinv eq_refl) as (Hm0 & Hn0 & Hk0 & Hbegin & _); [done|].
    assert (subscribed ctx = false) as ->; [|done].
    edestruct setup_context_cases as [_ [[? _]|(? & _ & ?)]]; [exact Hm0|exact Hn0|exact Hk0|exact Hbegin|eassumption|done|done].
  - done.
Qed.

Lemma no_slot_step P P' p :
  protocol_inv P → too_large p → step P P' → no_slot p (server P) → no_slot p (server P').
Proof.
  intros (Hinv & Hadd & _) Hbig Hs Hno.
  destruct Hs as [| | | |s s' cs e Hs|]; cbn [server] in *; try exact Hno; try by eapply no_slot_msg.
  intros i ctx Hi Hsub. destruct (disp_bank_same _ _ _ Hs) as (_ & _ & Hbw).
  destruct (Hbw i ctx Hi) as (c & Hc & Hsame & Hid & _). rewrite Hid. apply (Hno i c Hc). congruence.
Qed.

(** ... and waits, while the server sets it up and after. *)
Lemma too_large_step p P P' :
  protocol_inv P → too_large p → clients P !! p = Some waiting →
  has_status (server P) p Adding → in_set_up p (msg (server P)) → step P P' →
  ended p P' ∨ clients P' !! p = Some waiting ∧
    (has_status (server P') p Absent ∨ has_status (server P') p Adding ∧ in_set_up p (msg (server P'))).
Proof.
  intros (Hinv & Hadd & Hcs) Hbig Hp Hst Hset Hs.
  destruct Hs as [s cs q c c' Hq Hs|s s' cs q c message e Hq Hh Hs|s s' cs e Hs Hpipe|s cs q c Hq Hpc Hm|s s' cs e Hs
    |b v u r p0 m d l cs]; cbn [server clients] in *.
  - destruct (decide (q = p)) as [->|Hne]; [|right; rewrite lookup_insert_ne by done; auto].
    assert (c = waiting) as -> by congruence. inversion Hs; subst. left. eexists. split; [apply lookup_insert_eq|done].
  - destruct Hset as (i & m & n & k & Hm). inversion Hs; subst; discriminate Hm.
  - right. destruct Hset as (i & m & n & k & Hm).
    pose proof (handler_adding _ _ _ p Hinv Hs Hst) as Hcase.
    inversion Hs; subst; try discriminate Hm; injection Hm as -> -> -> -> ->.
    + by edestruct (too_large_fails _ p K i m n k ctx0 K' ctx (Ok ()) Hinv Hst Hbig).
    + split; [done|]. left. destruct Hcase as [[[[]|?] _]|[_ (? & [=])]]; done.
  - destruct Hset as (i & m & n & k & Hm'). congruence.
  - right. split; [done|]. right. split; [by eapply disp_status|]. by rewrite (proj1 (disp_bank_same _ _ _ Hs)).
  - right. auto.
Qed.

Lemma refused_waits p P P' :
  protocol_inv P → clients P !! p = Some waiting → has_status (server P) p Absent → rtc step P P' →
  ended p P' ∨ clients P' !! p = Some waiting.
Proof.
  intros Hinv Hp Hst Hr. induction Hr as [P|P P1 P2 Hs Hr' IH]; [by right|].
  destruct (refused_step p P P1 Hinv Hp Hst Hs) as [Hend|[Hp1 Hst1]]; [|by apply IH; [eapply protocol_inv_step|..]].
  left. eapply (invariant_rtc step (ended p)); [|exact Hend|exact Hr']. intros P3 P4 H3 H4. by eapply ended_step.
Qed.

Lemma too_large_waits p P P' :
  protocol_inv P → no_slot p (server P) → too_large p → clients P !! p = Some waiting →
  has_status (server P) p Adding ∨ has_status (server P) p Absent → rtc step P P' →
  ended p P' ∨ clients P' !! p = Some waiting.
Proof.
  intros Hinv Hno Hbig Hp Hst Hr.
  set (I := λ P, protocol_inv P ∧ (ended p P ∨ clients P !! p = Some waiting ∧
    (has_status (server P) p Absent ∨ has_status (server P) p Adding ∧ in_set_up p (msg (server P))))).
  assert (I P') as [_ [?|[? _]]]; [|by left|by right].
  eapply (invariant_rtc step I); [|split; [exact Hinv|right; split; [exact Hp|]]|exact Hr].
  - intros P1 P2 [H1 H2] Hs. split; [by eapply protocol_inv_step|].
    destruct H2 as [?|[Hp1 [?|[? ?]]]]; [left; by eapply ended_step| |by eapply too_large_step].
    edestruct refused_step as [?|[? ?]]; eauto.
  - destruct Hst as [Hst|?]; [right|by left]. split; [done|]. unfold in_set_up.
    simpl in Hst. destruct (msg (server P)) as [|i c m n k|i|i|i|i|i|i|i|i|i|]; try done.
    1: destruct Hst as (-> & _); by exists i, m, n, k.
    all: destruct Hst as (ctx & Hi & Hsub & Hid & _); by destruct (Hno i ctx).
Qed.

Lemma no_slot_reachable pid ps P p :
  too_large p → rtc step (protocol_init pid ps) P → no_slot p (server P).
Proof.
  intros Hbig Hr. assert (protocol_inv P ∧ no_slot p (server P)) as [_ ?]; [|done].
  eapply (invariant_rtc step (λ P, protocol_inv P ∧ no_slot p (server P))); [| |exact Hr].
  - intros P1 P2 [H1 H2] Hs. split; [by eapply protocol_inv_step|by eapply no_slot_step].
  - split; [apply protocol_inv_init|]. by intros i ctx ->%zget_replicate_inv.
Qed.

(** A client whose process has ended without the server reading an
    unsubscription. *)
Definition abandoned (p : Z) (P : protocol) : Prop :=
  ∃ c, clients P !! p = Some c ∧ main_at c = PDead ∧ sent c = [] ∧ has_status (server P) p Present.

Lemma abandoned_step p P P' : protocol_inv P → step P P' → abandoned p P → abandoned p P'.
Proof.
  intros (Hinv & Hadd & Hcs) Hs (c & Hp & Hpc & Hsent & Hst). unfold abandoned.
  destruct Hs as [s cs q c1 c' Hq Hs|s s' cs q c1 message e Hq Hh Hs|s s' cs e Hs Hpipe|s cs q c1 Hq Hpc1 Hm|s s' cs e Hs
    |b v u r p0 m d l cs]; cbn [clients server] in *; eauto.
  - destruct (decide (q = p)) as [->|Hne]; [|rewrite lookup_insert_ne by done; eauto].
    assert (c1 = c) as -> by congruence. rewrite lookup_insert_eq. eexists. split; [done|].
    destruct Hs; simpl in *; subst; done.
  - assert (q ≠ p) as Hne by (intros ->; assert (c1 = c) as -> by congruence; by rewrite Hsent in Hh).
    rewrite lookup_insert_ne by done. exists c. split_and!; try done.
    eapply (arrival_other _ _ _ _ _ p Present Hinv Hs); [|done].
    by rewrite (sent_sender s q c1 message (Hcs q c1 Hq) Hh).
  - destruct (handler_present s e s' p Hinv Hadd Hs Hst) as [Hst' _].
    destruct e as [[]|]; simpl; eauto. rewrite map_lookup_imap, Hp. simpl. eexists. split; [done|]. by case_decide.
  - destruct (decide (q = p)) as [->|Hne]; [|rewrite lookup_insert_ne by done; eauto].
    assert (c1 = c) as -> by congruence. rewrite lookup_insert_eq. by eexists.
  - exists c. split_and!; try done. by eapply disp_status.
Qed.

(** The slot of a client that is present. *)
Lemma present_slot s p :
  server_inv s → has_status s p Present →
  ∃ i ctx, zget (clientBank s) i = Some ctx ∧ ready ctx ∧ context_of p ctx ∧
    getBit (validClientsBitSet s) i = true ∧ busy (msg s) ≠ Some i.
Proof.
  intros [_ Hbank] (i & ctx & Hi & Hc & Hb). exists i, ctx. split_and!; try done; destruct Hc as [Hsub _].
  - by eapply bk_ready.
  - rewrite (bk_bits _ _ _ Hbank _ _ Hi), bool_decide_false in Hsub; [by rewrite orb_false_r in Hsub|].
    intros He. apply Hb. by destruct (msg s).
Qed.

(** Client [p] has a subscribed slot whose bit is set. *)
Definition keeps_slot (p : Z) (P : protocol) : Prop :=
  ∃ i ctx, zget (clientBank (server P)) i = Some ctx ∧ context_of p ctx ∧ subscribed ctx = true ∧
    getBit (validClientsBitSet (server P)) i = true.

Lemma abandoned_keeps p P P' : protocol_inv P → abandoned p P → rtc step P P' → keeps_slot p P'.
Proof.
  intros Hinv Hab Hr.
  assert (protocol_inv P' ∧ abandoned p P') as [[Hinv' _] (c' & _ & _ & _ & Hst)].
  { eapply (invariant_rtc step (λ P, protocol_inv P ∧ abandoned p P)); [|by split|exact Hr].
    intros P1 P2 [H1 H2] Hs. split; [by eapply protocol_inv_step|by eapply abandoned_step]. }
  destruct (present_slot _ _ Hinv' Hst) as (i & ctx & Hi & Hrd & Hctx & Hbit & _). exists i, ctx.
  split_and!; [done..| |done]. apply Hrd.
Qed.
End invariant.

(** * Examples *)

(** Client 7 subscribes with 2 by 2 matrices, on the connection 12. *)
Abbreviation demo_step ok := (protocol_step true 64 ok (λ _, (1, 1, 1)) (Z.add 5)).

#[local] Instance add_inj a : Inj (=) (=) (Z.add a).
Proof. intros x y. lia. Qed.

(** The server reads its subscription. *)
Definition demo_context : ClientContext :=
  mkClientContext false 7 (mkBufferDimensions 1 1 1 2 2) ClientStats_init 12 [] [] None None.
Definition demo_bank : ClientBank := zset (replicate (Z.to_nat MAX_CLIENTS) ClientContext_init) 0 demo_context.
Definition subscribing : protocol :=
  mkProtocol (mkServer demo_bank 0 false true 1 (MSetup 0 7 1 1 1) DTop 0) {[7 := waiting]}.

Lemma one_subscription ok : rtc (demo_step ok) (protocol_init 1 {[7]}) subscribing.
Proof.
  eapply rtc_l.
  { apply (by_client _ _ _ _ _ _ _ 7 client_start); [reflexivity|].
    by apply (send_subscribe _ 7 false [] [] (mkMessage 0 0 0 0 0) 1 1 1). }
  eapply rtc_l.
  { eapply (by_arrival _ _ _ _ _ _ _ _ 7); [apply lookup_insert_eq|reflexivity|].
    eapply (subscribe_begin _ _ _ _ _ _ _ _ _ _ (mkMessage 0 7 1 1 1) 12);
      [reflexivity|done|vm_compute; reflexivity|vm_compute; reflexivity|vm_compute; reflexivity]. }
  match goal with |- rtc _ ?x ?y => assert (x = y) as -> by (vm_compute; reflexivity) end. reflexivity.
Qed.

Lemma subscribing_status : has_status (λ _, (1, 1, 1)) (Z.add 5) (server subscribing) 7 Adding.
Proof. split; [done|]. split; [done|]. by exists demo_context. Qed.

Lemma subscribing_ends : set_up_ends true 64 (λ _, true) 7 (server subscribing) true.
Proof.
  exists 0, 1, 1, 1, demo_context, boot. eexists _, _, _. split; [reflexivity|].
  split; [reflexivity|]. split; [vm_compute; reflexivity|reflexivity].
Qed.

(** It is set up and answered. *)
Lemma one_session : ∃ P c, rtc (demo_step (λ _, true)) (protocol_init 1 {[7]}) P ∧ clients P !! 7 = Some c ∧ main_at c = PSession.
Proof.
  assert (∃ P c, rtc (demo_step (λ _, true)) subscribing P ∧ clients P !! 7 = Some c ∧ main_at c = PSession)
    as (P & c & Hr & Hc); [|exists P, c; split; [etrans; [apply one_subscription|exact Hr]|exact Hc]].
  eexists _, _. split.
  - eapply rtc_l; [quietly (setup_done _ _ _ _ _ _ _ _ _ _ _ _ _ _ _ _ boot); vm_compute; reflexivity|].
    eapply rtc_l; [quietly add_spin|].
    eapply rtc_l; [quietly add_set; vm_compute; reflexivity|].
    eapply rtc_l; [quietly add_store|].
    eapply rtc_l.
    { eapply by_handler; [apply respond; vm_compute; reflexivity|].
      intros (q & c & message & _ & [<- <-]%lookup_singleton_Some & [=]). }
    eapply rtc_l; [apply (by_client _ _ _ _ _ _ _ 7 (receive (subscribe_response 1 7 64) waiting));
      [vm_compute; reflexivity|by apply message_arrives]|].
    eapply rtc_l; [apply (by_client _ _ _ _ _ _ _ 7 (mkClient PWait true [] []));
      [vm_compute; reflexivity|apply response_seen]|]. reflexivity.
  - split; [apply lookup_insert_eq|reflexivity].
Qed.

(** It is refused when the server has no memory for it. *)
Lemma one_refusal : ∃ P, rtc (demo_step (λ _, false)) (protocol_init 1 {[7]}) P ∧ clients P !! 7 = Some waiting ∧
  has_status (λ _, (1, 1, 1)) (Z.add 5) (server P) 7 Absent.
Proof.
  assert (∃ P, rtc (demo_step (λ _, false)) subscribing P ∧ clients P !! 7 = Some waiting ∧
    has_status (λ _, (1, 1, 1)) (Z.add 5) (server P) 7 Absent) as (P & Hr & Hc & Hst);
    [|exists P; split_and!; [etrans; [apply one_subscription|exact Hr]|exact Hc|exact Hst]].
  eexists. split.
  - eapply rtc_l; [quietly (setup_failed _ _ _ _ _ _ _ _ _ _ _ _ _ _ _ _ boot); vm_compute; reflexivity|].
    reflexivity.
  - split; [vm_compute; reflexivity|]. split; [|done]. cbn [server clientBank].
    intros i ctx Hi. apply zget_zset_Some in Hi as [[_ ->]|[_ Hi]]; [done|].
    apply zget_zset_Some in Hi as [[_ ->]|[_ ->%zget_replicate_inv]]; done.
Qed.

(** * Properties *)

(** C7: A client works only while the server works for it.  With any number of
    clients and under every interleaving of their threads with the server's, from
    the moment a client leaves its waiting loop until it sends its unsubscription,
    the server's bank has a complete slot for it, with its connection and the
    dimensions it asked for, the slot's bit is set, and the communication thread
    is not working on that slot. *)
Theorem session_has_slot `{PosixShmSpec} lf cls ok dims socket `{!Inj (=) (=) socket} pid ps P p c :
  rtc (protocol_step lf cls ok dims socket) (protocol_init pid ps) P →
  clients P !! p = Some c → main_at c = PSession →
  ∃ i ctx, zget (clientBank (server P)) i = Some ctx ∧ ready ctx ∧ context_of dims socket p ctx ∧
    getBit (validClientsBitSet (server P)) i = true ∧ busy (msg (server P)) ≠ Some i.
Proof.
  intros Hr Hp Hpc. assert (protocol_inv dims socket P) as (Hinv & _ & Hcs) by (by eapply protocol_inv_reachable).
  specialize (Hcs p c Hp). unfold client_inv in Hcs. rewrite Hpc in Hcs.
  apply present_slot; [done|apply Hcs].
Qed.

Lemma session_has_slot_witness :
  ∃ P i ctx, zget (clientBank (server P)) i = Some ctx ∧ ready ctx ∧
    context_of (λ _, (1, 1, 1)) (Z.add 5) 7 ctx ∧
    getBit (validClientsBitSet (server P)) i = true ∧ busy (msg (server P)) ≠ Some i.
Proof.
  destruct one_session as (P & c & Hr & Hc & Hpc). exists P.
  exact (session_has_slot true 64 (λ _, true) (λ _, (1, 1, 1)) (Z.add 5) 1 {[7]} P 7 c Hr Hc Hpc).
Defined.

(** C11: A subscription is answered, or the client waits forever.  Once the server
    has read a client's subscription and not answered it, the client is either
    being added or has been refused.  Suppose that it is being added, that the
    server has not been told to stop and that the dispatcher has not left its loop.
    If its slot has been set up, the threads can go on until the client leaves its
    waiting loop.  If the slot is being set up, then the set-up can end, and they
    can go on so where it can succeed, and to a refusal where it can throw.  A
    client that has been refused, and one whose buffers have [2^32] cells or more,
    waits in every execution that follows, unless its process is ended: the server
    sends no negative answer and the client's loop has no other way out.  (The set-up
    of [transpose_client.cpp] itself throws for buffers of that size, before it
    subscribes; another client's would not.) *)
Theorem subscription_decided `{PosixShmSpec} lf cls ok dims socket `{!Inj (=) (=) socket} pid ps P p :
  rtc (protocol_step lf cls ok dims socket) (protocol_init pid ps) P →
  clients P !! p = Some waiting →
  (has_status dims socket (server P) p Adding ∨ has_status dims socket (server P) p Absent) ∧
  (has_status dims socket (server P) p Adding → running (server P) = true → disp (server P) ≠ DExit →
     (¬ in_set_up p (msg (server P)) → can_answer lf cls ok dims socket p P) ∧
     (in_set_up p (msg (server P)) → ∃ r, set_up_ends lf cls ok p (server P) r) ∧
     (set_up_ends lf cls ok p (server P) true → can_answer lf cls ok dims socket p P) ∧
     (set_up_ends lf cls ok p (server P) false → can_refuse lf cls ok dims socket p P)) ∧
  (has_status dims socket (server P) p Absent ∨ too_large dims p →
     ∀ P', rtc (protocol_step lf cls ok dims socket) P P' → ended p P' ∨ clients P' !! p = Some waiting).
Proof.
  intros Hr Hp. assert (protocol_inv dims socket P) as Hinv by (by eapply protocol_inv_reachable).
  assert (has_status dims socket (server P) p Adding ∨ has_status dims socket (server P) p Absent) as Hst.
  { destruct Hinv as (_ & _ & Hcs).
    destruct (Hcs p waiting Hp) as [(? & ? & ? & ? & _ & _ & [=])|[[_ ?]|(_ & _ & [[_ [? [=]]]|[[=] _]])]]. done. }
  split_and!; [exact Hst| |].
  - destruct P as [s cs], Hinv as (Hs & _). cbn [server] in *. intros Hadd Hrun Hd.
    assert (working s) as Hw by (by apply server_inv_working).
    split_and!; [by apply waiting_answered|by eapply set_up_some_end|by apply set_up_answered|].
    by apply set_up_refused.
  - intros [Habs|Hbig] P' Hr'; [by eapply refused_waits; [apply _|..]|].
    eapply too_large_waits; [apply _|exact Hinv| |done..]. eapply no_slot_reachable; [apply _|done|exact Hr].
Qed.

(** Client 7 can be answered by a server with memory, and is refused by one
    without. *)
Lemma subscription_decided_witness :
  can_answer true 64 (λ _, true) (λ _, (1, 1, 1)) (Z.add 5) 7 subscribing ∧
  ∃ P, rtc (demo_step (λ _, false)) (protocol_init 1 {[7]}) P ∧
    ∀ P', rtc (demo_step (λ _, false)) P P' → ended 7 P' ∨ clients P' !! 7 = Some waiting.
Proof.
  split.
  - apply (subscription_decided true 64 (λ _, true) (λ _, (1, 1, 1)) (Z.add 5) 1 {[7]} subscribing 7);
      [apply one_subscription|reflexivity|apply subscribing_status|reflexivity|discriminate|apply subscribing_ends].
  - destruct one_refusal as (P & Hr & Hc & Hst). exists P. split; [exact Hr|].
    apply (subscription_decided true 64 (λ _, false) (λ _, (1, 1, 1)) (Z.add 5) 1 {[7]} P 7 Hr Hc). by left.
Defined.

(** C34: The server does not survive its clients' deaths well.  When a client's
    process ends and the server has no unsubscription of it to read, then in every
    execution that follows its slot stays subscribed and its bit set.  Even if it has
    sent one, as at its regular end, the server can handle the hang-up before it,
    and then the same is true.  When it ends while it is being added, the response
    that the communication thread sends next raises SIGPIPE, which ends the server. *)
Theorem dead_client_harms `{PosixShmSpec} lf cls ok dims socket `{!Inj (=) (=) socket} pid ps P p c :
  rtc (protocol_step lf cls ok dims socket) (protocol_init pid ps) P →
  clients P !! p = Some c → main_at c = PDead →
  (has_status dims socket (server P) p Present → sent c = [] →
     ∀ P', rtc (protocol_step lf cls ok dims socket) P P' → keeps_slot dims socket p P') ∧
  (has_status dims socket (server P) p Present → msg (server P) = MIdle →
     ∃ P1, protocol_step lf cls ok dims socket P P1 ∧
       ∀ P', rtc (protocol_step lf cls ok dims socket) P1 P' → keeps_slot dims socket p P') ∧
  (∀ i, has_status dims socket (server P) p Adding → msg (server P) = MRespond i →
     server_killed lf cls ok socket P).
Proof.
  intros Hr Hp Hpc. assert (protocol_inv dims socket P) as Hinv by (by eapply protocol_inv_reachable). split_and!.
  - intros Hst Hsent P' Hr'. eapply abandoned_keeps; [apply _|exact Hinv| |exact Hr']. by exists c.
  - intros Hst Hm. destruct P as [s cs]. simpl in *.
    assert (protocol_step lf cls ok dims socket (mkProtocol s cs) (mkProtocol s (<[p := hang_up c]> cs))) as Hs
      by (by apply by_hang_up).
    eexists. split; [exact Hs|]. intros P' Hr'. eapply abandoned_keeps; [apply _|by eapply protocol_inv_step| |exact Hr'].
    exists (hang_up c). split; [apply lookup_insert_eq|done].
  - intros i Hst Hm. destruct P as [[b v u r p0 m d l] cs]. simpl in *. subst m.
    destruct Hst as (ctx & Hi & _ & _ & Hsock & _). eexists _, _. split; [by apply respond|].
    rewrite Hsock. exists p, c. by eexists.
Qed.

(** Client 7 is killed in its session. *)
Lemma dead_client_harms_witness :
  ∃ P, rtc (demo_step (λ _, true)) (protocol_init 1 {[7]}) P ∧
    ∀ P', rtc (demo_step (λ _, true)) P P' → keeps_slot (λ _, (1, 1, 1)) (Z.add 5) 7 P'.
Proof.
  destruct one_session as ([s cs] & [pc r out inb] & Hr & Hc & Hpc). simpl in Hc, Hpc. subst pc.
  assert (protocol_inv (λ _, (1, 1, 1)) (Z.add 5) (mkProtocol s cs)) as (_ & _ & Hcs)
    by (eapply protocol_inv_reachable, Hr; apply _).
  destruct (Hcs 7 _ Hc) as [Hst [= -> -> ->]].
  assert (rtc (demo_step (λ _, true)) (protocol_init 1 {[7]}) (mkProtocol s (<[7 := mkClient PDead true [] []]> cs)))
    as Hr' by (eapply rtc_r; [exact Hr|eapply by_client; [exact Hc|apply process_ends]]).
  exists (mkProtocol s (<[7 := mkClient PDead true [] []]> cs)). split; [exact Hr'|].
  apply (dead_client_harms true 64 (λ _, true) (λ _, (1, 1, 1)) (Z.add 5) 1 {[7]} _ 7 (mkClient PDead true [] []) Hr');
    [apply lookup_insert_eq|reflexivity|exact Hst|reflexivity].
Defined.
