(* ===== verification/System.v ===== *)
(** One client's session, end to end: the request loop and the final check of
    [transpose_client.cpp], and what [WorkloadDispatcher] does for that client,
    over the abstract queue and the abstract futex.

    The queue is any implementation of the interface [Spsc], so that one
    operation is one step; [RingBuffer] and [SeqLock] show that concurrent
    operations behave like that, apart from refused calls of [Dequeue], and
    [SessionQueue] has their accesses as steps.  The
    futex is the binary semaphore that [Futex] refines.  A poll of the dispatcher
    that finds no request, or is refused, changes nothing and is not a step. *)

From S2P Require Import Prelude Transpose TiledTranspose SpscQueue RingBuffer SeqLock.
#[local] Open Scope Z_scope.

(** * The code *)

(** Where the client is in its two loops. *)
Inductive client_pc :=
  | COuter (repetition : Z)              (** at the test of the outer loop *)
  | CInner (repetition bufferIndex : Z)  (** at the test of the inner loop *)
  | CWait (repetition bufferIndex : Z)   (** in [Wait] *)
  | CCheck.                              (** after the loops *)

(** What the dispatcher is doing for the client. *)
Inductive worker_pc :=
  | SPoll                     (** about to call [Dequeue] *)
  | STranspose (bufferIndex : Z)
  | SWake.

#[export] Instance worker_pc_eq_dec : EqDecision worker_pc.
Proof. solve_decision. Defined.

Record session (Q : Type) := mkSession {
  queue : Q;
  signalled : bool;
  results : list (list Z);
  client : client_pc;
  server : worker_pc
}.
Arguments mkSession {Q} _ _ _ _ _.
Arguments queue {Q} _.
Arguments signalled {Q} _.
Arguments results {Q} _.
Arguments client {Q} _.
Arguments server {Q} _.

Section code.
Context {Q : Type} `{Spsc Q}.

(** The client's parameters and matrices, and the server's tile size and number
    of worker threads. *)
Context (k requestRepetitions rowCount columnCount tileSize numWorkerThreads : Z).
Context (matrices : list (list Z)).

Inductive session_step : session Q → session Q → Prop :=
  (** The client: the loops, with [Enqueue]'s answer ignored, and [Wait]. *)
  | outer_enter q w tr s rep :
      rep < requestRepetitions →
      session_step (mkSession q w tr (COuter rep) s) (mkSession q w tr (CInner rep 0) s)
  | outer_exit q w tr s rep :
      requestRepetitions ≤ rep →
      session_step (mkSession q w tr (COuter rep) s) (mkSession q w tr CCheck s)
  | inner_enqueue q q' ok w tr s rep b :
      b < k → spsc_enqueue q b = Ok (ok, q') →
      session_step (mkSession q w tr (CInner rep b) s) (mkSession q' w tr (CWait rep b) s)
  | inner_exit q w tr s rep b :
      k ≤ b →
      session_step (mkSession q w tr (CInner rep b) s) (mkSession q w tr (COuter (u32 (rep + 1))) s)
  | wait_returns q tr s rep b :
      session_step (mkSession q true tr (CWait rep b) s) (mkSession q false tr (CInner rep (b + 1)) s)
  (** The dispatcher: [Dequeue], the transposition of the buffer with the index it
      yields, and [Wake]. *)
  | poll_request q q' w tr c b :
      spsc_dequeue q = Ok (Some b, q') →
      session_step (mkSession q w tr c SPoll) (mkSession q' w tr c (STranspose b))
  | do_transpose q w tr c b src dst out :
      zget matrices b = Some src → zget tr b = Some dst →
      tiled_returns src dst rowCount columnCount tileSize numWorkerThreads out →
      session_step (mkSession q w tr c (STranspose b)) (mkSession q w (zset tr b out) c SWake)
  | do_wake q w tr c :
      session_step (mkSession q w tr c SWake) (mkSession q true tr c SPoll).

(** The final check: the reference transpose of every buffer against the
    server's; the answer is [errorFound]. *)
Fixpoint check_from (count : nat) (bufferIndex : Z) (references trs : list (list Z)) (errorFound : bool) :
    result bool :=
  match count with
  | O => Ok errorFound
  | S count' =>
      match zget matrices bufferIndex, zget references bufferIndex, zget trs bufferIndex with
      | Some src, Some ref, Some tr =>
          ref' ← TransposeNaive src ref rowCount columnCount;
          same ← MatricesAreEqual tr ref' rowCount columnCount;
          check_from count' (bufferIndex + 1) (zset references bufferIndex ref') trs
            (if same : bool then errorFound else true)
      | _, _, _ => Undef
      end
  end.

Definition check_results (references trs : list (list Z)) : result bool :=
  check_from (Z.to_nat k) 0 references trs false.

(** The exit code of the client. *)
Definition exit_code (references trs : list (list Z)) : result Z :=
  errorFound ← check_results references trs;
  Ok (if errorFound : bool then 1 else 0).

(** The state after the subscription: an empty queue, no signal. *)
Definition session_init (n : Z) (s : session Q) : Prop :=
  spsc_contents n (queue s) [] ∧ signalled s = false ∧ client s = COuter 0 ∧ server s = SPoll.
End code.

(** * The invariant of the session *)

Section session.
Context {Q : Type} `{SpscLaws Q}.
Context (k reps R C T N : Z) (matrices : list (list Z)) (n : Z).

(** The buffers have the declared size, and the tiles fit. *)
Record session_ok : Prop := {
  ok_k : 0 ≤ k < 2 ^ 31;
  ok_reps : 0 ≤ reps < 2 ^ 32;
  ok_room : 1 ≤ n;
  ok_R : 0 ≤ R;
  ok_C : 0 ≤ C;
  ok_T : 0 < T;
  ok_TR : (T | R);
  ok_TC : (T | C);
  ok_RT : R + T ≤ 2 ^ 32;
  ok_CT : C + T ≤ 2 ^ 32;
  ok_size : R * C < 2 ^ 32;
  ok_N : 0 < N < 2 ^ 32;
  ok_count : zlen matrices = k;
  ok_matrix : ∀ b src, zget matrices b = Some src → zlen src = R * C
}.

(** Buffer [b] holds the transpose of its matrix. *)
Definition transposed (tr : list (list Z)) (b : Z) : Prop :=
  ∃ src, zget matrices b = Some src ∧ zget tr b = Some (transpose R C src).

(** What client and dispatcher are doing, with the queue's contents. *)
Definition phase (w : bool) (tr : list (list Z)) (l : list Z) (c : client_pc) (s : worker_pc) : Prop :=
  match c with
  | CWait _ b =>
      (w = false ∧ l = [b] ∧ s = SPoll) ∨ (w = false ∧ l = [] ∧ s = STranspose b) ∨
      (w = false ∧ l = [] ∧ s = SWake ∧ transposed tr b) ∨
      (w = true ∧ l = [] ∧ s = SPoll ∧ transposed tr b)
  | _ => w = false ∧ l = [] ∧ s = SPoll
  end.

Definition pc_range (c : client_pc) : Prop :=
  match c with
  | COuter rep => 0 ≤ rep ≤ reps
  | CInner rep b => 0 ≤ rep < reps ∧ 0 ≤ b ≤ k
  | CWait rep b => 0 ≤ rep < reps ∧ 0 ≤ b < k
  | CCheck => True
  end.

(** The buffers the client has got back so far. *)
Definition got (c : client_pc) (b : Z) : Prop :=
  match c with
  | COuter rep => 0 < rep
  | CInner rep b' | CWait rep b' => 0 < rep ∨ b < b'
  | CCheck => 0 < reps
  end.

Record session_inv (s : session Q) : Prop := {
  si_tr : zlen (results s) = k;
  si_dst : ∀ b dst, zget (results s) b = Some dst → zlen dst = R * C;
  si_range : pc_range (client s);
  si_phase : ∃ l, spsc_contents n (queue s) l ∧ phase (signalled s) (results s) l (client s) (server s);
  si_got : ∀ b, 0 ≤ b < k → got (client s) b → transposed (results s) b
}.

Lemma transposed_zset tr b b' src :
  zget matrices b = Some src → 0 ≤ b < zlen tr → transposed tr b' ∨ b' = b →
  transposed (zset tr b (transpose R C src)) b'.
Proof.
  intros Hsrc Hb Hor. destruct (decide (b' = b)) as [->|Hne].
  - exists src. split; [done|]. by apply zget_zset_eq.
  - destruct Hor as [(src' & Hs & Ht)|]; [|done]. exists src'. by rewrite zget_zset_ne.
Qed.

(** Outside [Wait] nothing is under way. *)
Lemma phase_idle w tr l c s : (∀ rep b, c ≠ CWait rep b) → phase w tr l c s → w = false ∧ l = [] ∧ s = SPoll.
Proof. intros Hc. destruct c; simpl; try done. by destruct (Hc repetition bufferIndex). Qed.

Lemma session_inv_step s s' :
  session_ok → session_inv s →
  session_step k reps R C T N matrices s s' → session_inv s'.
Proof.
  intros Hok [Htr Hdst Hrange (l & Hq & Hph) Hgot] Hs. pose proof (ok_k Hok). pose proof (ok_reps Hok).
  destruct Hs as [q w tr s rep Hlt|q w tr s rep Hge|q q' ok w tr s rep b Hb Henq|q w tr s rep b Hb
    |q tr s rep b|q q' w tr c b Hdeq|q w tr c b src dst out Hsrc Hd Hret|q w tr c]; simpl in *.
  - split; simpl; [done|done|lia|by exists l|]. intros b Hb Hor. apply Hgot; lia.
  - split; simpl; [done|done|done|by exists l|]. intros b Hb Hor. apply Hgot; lia.
  - destruct Hph as (-> & -> & ->).
    destruct (spsc_enqueue_room n q [] b Hq) as (q1 & Hrun & Hq1); [pose proof (ok_room Hok); unfold zlen; simpl; lia|].
    rewrite Hrun in Henq. injection Henq as _ <-.
    split; simpl; [done|done|lia|exists [b]; auto|done].
  - split; simpl; [done|done| |by exists l|]; rewrite u32_small by lia; [lia|].
    intros j Hj _. apply Hgot; lia.
  - destruct Hph as [(? & _)|[(? & _)|[(? & _)|(_ & -> & -> & Hdone)]]]; try done.
    split; simpl; [done|done|lia|exists []; auto|].
    intros j Hj Hor. destruct (decide (j = b)) as [->|]; [done|]. apply Hgot; lia.
  - assert (∀ l', spsc_contents n q l' → l' = [] → False) as Hempty.
    { intros l' Hl ->. by rewrite (spsc_dequeue_empty n q Hl) in Hdeq. }
    destruct c as [rep|rep b'|rep b'|]; try (destruct Hph as (_ & Hl & _); by destruct (Hempty l Hq Hl)).
    destruct Hph as [(-> & -> & _)|[(_ & Hl & _)|[(_ & Hl & _)|(_ & Hl & _)]]];
      try (by destruct (Hempty l Hq Hl)).
    destruct (spsc_dequeue_item n q b' [] Hq) as (q1 & Hrun & Hq1). rewrite Hrun in Hdeq.
    injection Hdeq as <- <-. split; simpl; [done|done|done|exists []; split; [done|naive_solver]|done].
  - destruct c as [rep|rep b'|rep b'|]; try by destruct Hph as (_ & _ & ?).
    destruct Hph as [(_ & _ & ?)|[(-> & -> & [= <-])|[(_ & _ & ? & _)|(_ & _ & ? & _)]]]; try done.
    pose proof (zget_Some_range _ _ _ Hd) as Hbr.
    apply tiled_returns_transpose in Hret as ->; try apply Hok; [|by eapply ok_matrix|by eapply Hdst].
    assert (∀ j, transposed tr j ∨ j = b → transposed (zset tr b (transpose R C src)) j) as Hkeep
      by (intros j; by apply transposed_zset).
    split; simpl; [by rewrite zlen_zset| |done| |].
    + intros j d [[-> ->]|[_ Hj]]%zget_zset_Some; [|by eapply Hdst].
      apply zlen_transpose. pose proof (ok_R Hok). pose proof (ok_C Hok). nia.
    + exists []. split; [done|]. right; right; left. split_and!; try done. apply Hkeep. by right.
    + intros j Hj Hg. apply Hkeep. left. by apply Hgot.
  - destruct c as [rep|rep b'|rep b'|]; try by destruct Hph as (_ & _ & ?).
    destruct Hph as [(_ & _ & ?)|[(_ & _ & ?)|[(-> & -> & _ & Hdone)|(_ & _ & ? & _)]]]; try done.
    split; simpl; [done|done|done|exists []; split; [done|naive_solver]|done].
Qed.

(** The dispatcher can go on unless it polls an empty queue. *)
Lemma server_progress s :
  session_ok → session_inv s →
  (server s = SPoll ∧ ∃ q, spsc_dequeue (queue s) = Ok (None, q)) ∨
  ∃ s', session_step k reps R C T N matrices s s' ∧ client s' = client s.
Proof.
  intros Hok [Htr Hdst Hrange (l & Hq & Hph) _]. destruct s as [q w tr c s]. simpl in *.
  assert (s = SPoll ∧ l = [] ∨ ∃ b, 0 ≤ b < k ∧ (s = SPoll ∧ l = [b] ∨ s = STranspose b) ∨ s = SWake) as Hcases.
  { destruct c as [rep|rep b|rep b|]; try (left; by destruct Hph as (_ & -> & ->)).
    destruct Hph as [(_ & -> & ->)|[(_ & _ & ->)|[(_ & _ & -> & _)|(_ & -> & -> & _)]]]; [right; exists b; left|right; exists b; left| |by left].
    - split; [apply Hrange|by left].
    - split; [apply Hrange|by right].
    - right. exists b. by right. }
  destruct Hcases as [[-> ->]|(b & [[Hb [[-> ->]| ->]]| ->])].
  - left. split; [done|]. exists q. by apply (spsc_dequeue_empty n).
  - right. destruct (spsc_dequeue_item n q b [] Hq) as (q1 & Hrun & _). eexists. by split; [eapply poll_request|].
  - right. destruct (proj2 (zget_is_Some matrices b)) as [src Hsrc]; [by rewrite (ok_count Hok)|].
    destruct (proj2 (zget_is_Some tr b)) as [dst Hd]; [by rewrite Htr|].
    exists (mkSession q w (zset tr b (transpose R C src)) c SWake). split; [|done].
    eapply (do_transpose _ _ _ _ _ _ _ _ _ _ _ _ _ _ (transpose R C src)); [done|done|].
    by apply tiled_returns_transpose; try apply Hok; [eapply ok_matrix|eapply Hdst|].
  - right. eexists. split; [apply do_wake|done].
Qed.

(** A session that has not reached the check can go on. *)
Lemma session_progress s :
  session_ok → session_inv s → client s = CCheck ∨ ∃ s', session_step k reps R C T N matrices s s'.
Proof.
  intros Hok Hinv. destruct (server_progress s Hok Hinv) as [[Hs (q' & Hd)]|(s' & Hs & _)]; [|right; by exists s'].
  destruct Hinv as [Htr Hdst Hrange (l & Hq & Hph) _]. destruct s as [q w tr c s]. simpl in *. subst s.
  destruct c as [rep|rep b|rep b|]; [right|right|right|by left].
  - destruct (decide (rep < reps)); eexists; [by apply outer_enter|]. apply outer_exit. lia.
  - destruct Hph as (-> & -> & _). destruct (decide (b < k)) as [Hb|Hb].
    + destruct (spsc_enqueue_room n q [] b Hq) as (q1 & Hrun & _);
        [pose proof (ok_room Hok); unfold zlen; simpl; lia|]. eexists. by eapply inner_enqueue.
    + eexists. apply inner_exit. lia.
  - destruct Hph as [(_ & -> & _)|[(_ & _ & ?)|[(_ & _ & ? & _)|(-> & _)]]]; [|done|done|eexists; apply wait_returns].
    destruct (spsc_dequeue_item n q b [] Hq) as (q1 & Hrun & _). congruence.
Qed.

(** * Termination *)

(** The steps that are left: six at most for a request, two for a repetition. *)
Definition session_measure (s : session Q) : nat :=
  Z.to_nat match client s with
  | COuter rep => (reps - rep) * (6 * k + 2) + 1
  | CInner rep b => (reps - rep - 1) * (6 * k + 2) + 6 * (k - b) + 2
  | CWait rep b => (reps - rep - 1) * (6 * k + 2) + 6 * (k - b) + 1 -
      match server s with
      | SPoll => if signalled s then 3 else 0
      | STranspose _ => 1
      | SWake => 2
      end
  | CCheck => 0
  end.

Lemma repetitions_left rep : 0 ≤ k → rep < reps → 0 ≤ (reps - rep - 1) * (6 * k + 2).
Proof. nia. Qed.

Lemma session_measure_step s s' :
  session_ok → session_inv s → session_step k reps R C T N matrices s s' →
  (session_measure s' < session_measure s)%nat.
Proof.
  intros Hok [Htr Hdst Hrange (l & Hq & Hph) Hgot] Hs. pose proof (ok_k Hok). pose proof (ok_reps Hok).
  destruct Hs as [q w tr s rep Hlt|q w tr s rep Hge|q q' ok w tr s rep b Hb Henq|q w tr s rep b Hb
    |q tr s rep b|q q' w tr c b Hdeq|q w tr c b src dst out Hsrc Hd Hret|q w tr c];
    unfold session_measure; simpl in *.
  - pose proof (repetitions_left rep). lia.
  - assert (rep = reps) as -> by lia. lia.
  - pose proof (repetitions_left rep). destruct Hph as (-> & _ & ->). lia.
  - pose proof (repetitions_left rep). rewrite u32_small by lia.
    replace (reps - (rep + 1)) with (reps - rep - 1) by lia. lia.
  - pose proof (repetitions_left rep). destruct s; lia.
  - destruct c as [rep|rep b'|rep b'|]; simpl in *.
    1,2,4: destruct Hph as (_ & -> & _); by rewrite (spsc_dequeue_empty n q Hq) in Hdeq.
    pose proof (repetitions_left rep). destruct w; [|lia].
    destruct Hph as [(? & _)|[(? & _)|[(? & _)|(_ & -> & _)]]]; try done.
    by rewrite (spsc_dequeue_empty n q Hq) in Hdeq.
  - destruct c as [rep|rep b'|rep b'|]; simpl in *; try by destruct Hph as (_ & _ & ?).
    pose proof (repetitions_left rep). lia.
  - destruct c as [rep|rep b'|rep b'|]; simpl in *; try by destruct Hph as (_ & _ & ?).
    pose proof (repetitions_left rep). lia.
Qed.

(** * The final check *)

(** [errorFound] tells whether some buffer is not the transpose. *)
Lemma check_from_spec count i refs trs err :
  session_ok → zlen refs = k → zlen trs = k →
  (∀ b ref, zget refs b = Some ref → zlen ref = R * C) →
  (∀ b tr, zget trs b = Some tr → zlen tr = R * C) →
  0 ≤ i → i + Z.of_nat count = k →
  ∃ err', check_from R C matrices count i refs trs err = Ok err' ∧
    (err' = false ↔ err = false ∧ ∀ b, i ≤ b < k → transposed trs b).
Proof.
  intros Hok Hlr Hlt Href Htr. revert i refs Hlr Href err.
  induction count as [|count IH]; intros i refs Hlr Href err Hi Hk; cbn [check_from].
  { exists err. split; [done|]. split; [|by intros []]. intros ->. split; [done|]. lia. }
  destruct (proj2 (zget_is_Some matrices i)) as [src Hsrc]; [rewrite (ok_count Hok); lia|].
  destruct (proj2 (zget_is_Some refs i)) as [ref Hri]; [lia|].
  destruct (proj2 (zget_is_Some trs i)) as [tr Hti]; [lia|]. rewrite Hsrc, Hri, Hti.
  pose proof (ok_matrix Hok _ _ Hsrc) as Hsl. pose proof (zlen_nonneg src).
  pose proof (ok_R Hok). pose proof (ok_C Hok). pose proof (ok_T Hok). pose proof (ok_RT Hok).
  pose proof (ok_CT Hok). pose proof (ok_size Hok).
  rewrite TransposeNaive_spec by (eauto || lia). cbn [mbind result_bind].
  assert (zlen (transpose R C src) = R * C) as Htl by (apply zlen_transpose; lia).
  rewrite MatricesAreEqual_eq by (eauto || lia). cbn [mbind result_bind].
  destruct (IH (i + 1) (zset refs i (transpose R C src))) with
    (err := if bool_decide (tr = transpose R C src) then err else true) as (err' & Hrun & Herr);
    [by rewrite zlen_zset| |lia|lia|].
  { intros b r [[-> ->]|[_ Hb]]%zget_zset_Some; [done|by eapply Href]. }
  exists err'. split; [done|]. rewrite Herr. case_bool_decide as Heq.
  - apply and_iff_compat_l. split; [|auto with lia]. intros Hall b Hb.
    destruct (decide (b = i)) as [->|]; [|apply Hall; lia]. exists src. by rewrite Hti, Heq.
  - split; [by intros []|]. intros [_ Hall]. destruct (Hall i) as (src' & Hs' & Ht'); [lia|].
    rewrite Hs' in Hsrc. injection Hsrc as ->. congruence.
Qed.
End session.

(** * Properties *)

Section reachable.
Context {Q : Type} `{SpscLaws Q}.
Context (k reps R C T N : Z) (matrices : list (list Z)) (n : Z).

(** The buffers the session starts with. *)
Definition buffers_ok (bufs : list (list Z)) : Prop :=
  zlen bufs = k ∧ ∀ b buf, zget bufs b = Some buf → zlen buf = R * C.

Lemma session_inv_init s :
  session_ok k reps R C T N matrices n → session_init n s → buffers_ok (results s) →
  session_inv k reps R C matrices n s.
Proof.
  intros Hok (Hq & Hw & Hc & Hs) [Hl Hb]. destruct s as [q w tr c s]. simpl in *. subst.
  split; simpl; [done|done| |by exists []|lia]. pose proof (ok_reps _ _ _ _ _ _ _ _ Hok). lia.
Qed.

Lemma session_inv_reachable s s' :
  session_ok k reps R C T N matrices n → session_init n s → buffers_ok (results s) →
  rtc (session_step k reps R C T N matrices) s s' → session_inv k reps R C matrices n s'.
Proof.
  intros Hok Hi Hb. apply invariant_rtc; [|by apply session_inv_init].
  intros. by eapply session_inv_step.
Qed.
End reachable.

(** An empty queue of 16 places, as the demo makes it. *)
Definition demo_queue : SeqLockQueue :=
  mkSeqLockQueue 15 (SeqLock.mkQueueData 0 0 0 (replicate 16 0)).

Lemma demo_queue_empty : spsc_contents 15 demo_queue [].
Proof.
  split; [done|]. split; [by exists 4|]. split; [done|]. by apply (holds_init 16).
Qed.

(** A session of one 2 by 2 matrix. *)
Definition demo_session : session SeqLockQueue :=
  mkSession demo_queue false [[0; 0; 0; 0]] (COuter 0) SPoll.

Lemma demo_session_ok : session_ok 1 1 2 2 2 1 [[1; 2; 3; 4]] 15.
Proof.
  split; try done; try (by exists 1). intros b src Hb.
  pose proof (zget_Some_range _ _ _ Hb) as Hr. change (zlen [[1; 2; 3; 4]]) with 1 in Hr.
  assert (b = 0) as -> by lia. by injection Hb as <-.
Qed.

Lemma demo_buffers_ok : buffers_ok 1 2 2 [[0; 0; 0; 0]].
Proof.
  split; [done|]. intros b src Hb. pose proof (zget_Some_range _ _ _ Hb) as Hr.
  change (zlen [[0; 0; 0; 0]]) with 1 in Hr. assert (b = 0) as -> by lia. by injection Hb as <-.
Qed.

(** C5: A client's session succeeds.  With any correct queue of at least one
    place, tiles that divide the matrices and at least one worker, client and
    dispatcher together never get stuck and always finish, whatever their interleaving, and if at
    least one repetition was asked for, the client's final check then finds no
    error. *)
Theorem session_succeeds {Q} `{SpscLaws Q} k reps R C T N matrices n s references :
  session_ok k reps R C T N matrices n → session_init n s →
  buffers_ok k R C (results s) → buffers_ok k R C references →
  (∀ s', rtc (session_step k reps R C T N matrices) s s' →
     client s' = CCheck ∨ ∃ s'', session_step k reps R C T N matrices s' s'') ∧
  (∃ bound, ∀ j s', nsteps (session_step k reps R C T N matrices) j s s' → (j ≤ bound)%nat) ∧
  (∀ s', rtc (session_step k reps R C T N matrices) s s' → client s' = CCheck → 0 < reps →
     check_results k R C matrices references (results s') = Ok false).
Proof.
  intros Hok Hi Hb [Hrl Href]. split_and!.
  - intros s' Hr. eapply session_progress; [done|]. by eapply session_inv_reachable.
  - exists (session_measure k reps s). intros j s'.
    apply (measure_nsteps _ (session_measure k reps) (session_inv k reps R C matrices n));
      [|by eapply session_inv_init].
    intros s1 s2 H1 H2. split; [by eapply session_inv_step|by eapply session_measure_step].
  - intros s' Hr Hc Hpos. assert (session_inv k reps R C matrices n s') as [Htr Hdst _ _ Hgot]
      by (by eapply session_inv_reachable). pose proof (ok_k _ _ _ _ _ _ _ _ Hok).
    destruct (check_from_spec k reps R C T N matrices n (Z.to_nat k) 0 references (results s') false)
      as (err & Hrun & Herr); try done; [lia|].
    unfold check_results. rewrite Hrun. f_equal. apply Herr. split; [done|]. intros b Hbk.
    apply Hgot; [done|]. by rewrite Hc.
Qed.

Lemma session_succeeds_witness :
  ∃ bound, ∀ j s', nsteps (session_step 1 1 2 2 2 1 [[1; 2; 3; 4]]) j demo_session s' → (j ≤ bound)%nat.
Proof.
  apply (session_succeeds 1 1 2 2 2 1 [[1; 2; 3; 4]] 15 demo_session [[0; 0; 0; 0]]).
  - exact demo_session_ok.
  - split; [exact demo_queue_empty|split_and!; reflexivity].
  - exact demo_buffers_ok.
  - exact demo_buffers_ok.
Defined.

(** C17: A return of [Wait] means the work is done.  In every state a session can
    reach, [Enqueue] accepts the client's request, so that ignoring its answer
    loses nothing, and when [Wait] returns, the buffer the client asked for holds
    the transpose of its matrix and no request or signal is left over.  The tile size
    divides both dimensions, and there is at least one worker. *)
Theorem wait_means_done {Q} `{SpscLaws Q} k reps R C T N matrices n s s' s'' :
  session_ok k reps R C T N matrices n → session_init n s → buffers_ok k R C (results s) →
  rtc (session_step k reps R C T N matrices) s s' → session_step k reps R C T N matrices s' s'' →
  (∀ rep b, client s' = CInner rep b → client s'' = CWait rep b →
     spsc_enqueue (queue s') b = Ok (true, queue s'')) ∧
  (∀ rep b, client s' = CWait rep b → client s'' = CInner rep (b + 1) →
     transposed R C matrices (results s'') b ∧ spsc_contents n (queue s'') [] ∧ signalled s'' = false).
Proof.
  intros Hok Hi Hb Hr Hs. assert (session_inv k reps R C matrices n s') as [_ _ _ (l & Hq & Hph) _]
    by (by eapply session_inv_reachable).
  split; intros rep b Hc Hc'; destruct Hs; simpl in *; try congruence; simplify_eq.
  - destruct Hph as (_ & -> & _).
    destruct (spsc_enqueue_room n q [] b Hq) as (q1 & Hrun & _);
      [pose proof (ok_room _ _ _ _ _ _ _ _ Hok); unfold zlen; simpl; lia|]. congruence.
  - destruct Hph as [(? & _)|[(? & _)|[(? & _)|(_ & -> & _ & Hd)]]]; try done.
Qed.

(** The session after the dispatcher's [Wake], and after the client's [Wait]. *)
Definition demo_after (w : bool) (c : client_pc) : session SeqLockQueue :=
  mkSession (mkSeqLockQueue 15 (SeqLock.mkQueueData 1 1 2 (replicate 16 0))) w [[1; 3; 2; 4]] c SPoll.

Lemma demo_run : rtc (session_step 1 1 2 2 2 1 [[1; 2; 3; 4]]) demo_session (demo_after true (CWait 0 0)).
Proof.
  eapply rtc_l; [by apply outer_enter|]. eapply rtc_l; [by eapply inner_enqueue|].
  eapply rtc_l; [by eapply poll_request|].
  eapply rtc_l; [eapply (do_transpose _ _ _ _ _ _ _ _ _ _ _ 0 [1; 2; 3; 4] [0; 0; 0; 0] [1; 3; 2; 4]); [done|done|]|].
  { apply tiled_returns_transpose; try done; by exists 1. }
  eapply rtc_l; [apply do_wake|]. apply rtc_refl.
Qed.

Lemma wait_means_done_witness :
  transposed 2 2 [[1; 2; 3; 4]] [[1; 3; 2; 4]] 0 ∧
  spsc_contents 15 (queue (demo_after false (CInner 0 1))) [] ∧ false = false.
Proof.
  assert (session_init 15 demo_session) as Hinit
    by (split; [exact demo_queue_empty|split_and!; reflexivity]).
  exact (proj2 (wait_means_done 1 1 2 2 2 1 [[1; 2; 3; 4]] 15 demo_session (demo_after true (CWait 0 0))
    (demo_after false (CInner 0 1)) demo_session_ok Hinit demo_buffers_ok demo_run
    (wait_returns _ _ _ _ _ _ _ _ _ _ _ _)) 0 0 eq_refl eq_refl).
Defined.

(** The client's final check is exact: on buffers of the declared size it
    terminates without touching memory outside them, and it reports an error
    precisely when some buffer is not the transpose of its matrix. *)
Theorem final_check_exact k reps R C T N matrices n references trs :
  session_ok k reps R C T N matrices n → buffers_ok k R C references → buffers_ok k R C trs →
  ∃ errorFound, check_results k R C matrices references trs = Ok errorFound ∧
    (errorFound = false ↔ ∀ b, 0 ≤ b < k → transposed R C matrices trs b).
Proof.
  intros Hok [Hrl Href] [Htl Htr]. pose proof (ok_k _ _ _ _ _ _ _ _ Hok).
  destruct (check_from_spec k reps R C T N matrices n (Z.to_nat k) 0 references trs false)
    as (err & Hrun & Herr); try done; [lia|].
  exists err. split; [done|]. rewrite Herr. naive_solver.
Qed.

Lemma final_check_exact_witness :
  ∃ errorFound, check_results 1 2 2 [[1; 2; 3; 4]] [[0; 0; 0; 0]] [[0; 0; 0; 0]] = Ok errorFound ∧
    (errorFound = false ↔ ∀ b, 0 ≤ b < 1 → transposed 2 2 [[1; 2; 3; 4]] [[0; 0; 0; 0]] b).
Proof. exact (final_check_exact _ _ _ _ _ _ _ _ _ _ demo_session_ok demo_buffers_ok demo_buffers_ok). Defined.
