(* ===== verification/SessionAtomics.v ===== *)
(** One client's session under the C++ memory model, cell by cell: the values come
    from the memory of [CppMemory], in which the word of [FutexSignaller] is accessed
    by the exchanges of [Wait] and [Wake] and the matrices plainly, by the client, by
    the dispatcher and by the worker threads that it starts and joins.

    The queue is an ideal one that hands the indices over and orders nothing else;
    what the accesses of the program's own queue do under the memory model is the
    subject of [SeqLockAtomics]. *)

From stdpp Require Import functions.
From S2P Require Import Prelude CppMemory Transpose TiledTranspose SpscQueue SeqLock System.
#[local] Open Scope Z_scope.

(** * The code *)

(** The threads, and the shared locations: the cells of the matrices and of the
    results, buffer by buffer. *)
Inductive process := ClientMain | Dispatcher | Worker (t : nat).
Inductive session_loc := Word | Original (b i : Z) | Transposed (b i : Z).

#[export] Instance process_eq_dec : EqDecision process.
Proof. solve_decision. Defined.
#[export] Instance session_loc_eq_dec : EqDecision session_loc.
Proof. solve_decision. Defined.

Abbreviation session_memory := (memory process session_loc).

(** The client is in its loops, or in its final check, with the cells it has still
    to read and the values it has read. *)
Inductive main_pc := Loops (c : client_pc) | Checks (todo : list session_loc) (found : list Z).

(** The dispatcher polls, is about to start the workers for a buffer, waits for
    them, or is about to call [Wake]. *)
Inductive call_pc := Polls | Starts (b : Z) | Works (b : Z) (ws : list worker) | Wakes.

(** The starts and the joins of the workers: a new thread knows what its creator
    knows, and who joins a thread learns what that knows. *)
Definition start_workers (n : nat) (m : session_memory) : session_memory :=
  mkMemory (log m) (λ t,
    match t with
    | Worker i => if decide (i < n)%nat then knows m Dispatcher else knows m t
    | _ => knows m t
    end).
Definition join_workers (n : nat) (m : session_memory) : session_memory :=
  mkMemory (log m)
    (<[Dispatcher := knows m Dispatcher ∪ ⋃ ((λ i, knows m (Worker i)) <$> List.seq 0 n)]> (knows m)).

Section machine.
Context {Q : Type} `{Spsc Q}.
Context (k requestRepetitions rowCount columnCount tileSize numWorkerThreads : Z).

Record memory_session := mkWeak { w_queue : Q; w_client : main_pc; w_server : call_pc }.

(** An execution, until an access has undefined behaviour: a data race, or an
    access outside a buffer. *)
Inductive memory_state := Runs (s : memory_session) (m : session_memory) | Broken.

(** The cells that the final check reads.  The references are not shared. *)
Definition check_cells : list session_loc :=
  b ← seqZ 0 k; (Original b <$> seqZ 0 (rowCount * columnCount)) ++ (Transposed b <$> seqZ 0 (rowCount * columnCount)).

(** An access of worker [t] of the call for buffer [b]. *)
Definition in_buffer (i : Z) : Prop := 0 ≤ i < rowCount * columnCount.
#[export] Instance in_buffer_dec i : Decision (in_buffer i) := ltac:(unfold in_buffer; apply _).

Definition worker_access (b : Z) (t : nat) (w : worker) (m : session_memory) :
    option (result (worker * session_memory)) :=
  match prog w with
  | [] => None
  | ALoad i :: rest =>
      Some ('(v, m') ← (if decide (in_buffer i) then plain_read (Worker t) (Original b i) m else Undef);
            Ok (mkWorker rest v, m'))
  | AStore i :: rest =>
      Some (m' ← (if decide (in_buffer i) then plain_write (Worker t) (Transposed b i) (reg w) m else Undef);
            Ok (mkWorker rest (reg w), m'))
  end.

(** The loops of the client with one exchange of [Wait] a step, [FUTEX_WAIT] being
    none, since it can return at any time; the final check, which stops at no
    difference; the dispatcher with its workers, which exist at once and are joined
    when all have ended. *)
Inductive memory_step : memory_state → memory_state → Prop :=
  | weak_outer_enter q sv m rep :
      rep < requestRepetitions →
      memory_step (Runs (mkWeak q (Loops (COuter rep)) sv) m) (Runs (mkWeak q (Loops (CInner rep 0)) sv) m)
  | weak_outer_exit q sv m rep :
      requestRepetitions ≤ rep →
      memory_step (Runs (mkWeak q (Loops (COuter rep)) sv) m) (Runs (mkWeak q (Checks check_cells []) sv) m)
  | weak_enqueue q q' ok sv m rep b :
      b < k → spsc_enqueue q b = Ok (ok, q') →
      memory_step (Runs (mkWeak q (Loops (CInner rep b)) sv) m) (Runs (mkWeak q' (Loops (CWait rep b)) sv) m)
  | weak_inner_exit q sv m rep b :
      k ≤ b →
      memory_step (Runs (mkWeak q (Loops (CInner rep b)) sv) m) (Runs (mkWeak q (Loops (COuter (u32 (rep + 1)))) sv) m)
  | weak_wait q sv m m' rep b ok :
      exchange ClientMain Word 1 0 m = Some (ok, m') →
      memory_step (Runs (mkWeak q (Loops (CWait rep b)) sv) m)
        (Runs (mkWeak q (Loops (if ok : bool then CInner rep (b + 1) else CWait rep b)) sv) m')
  | weak_check q sv m m' l todo found v :
      plain_read ClientMain l m = Ok (v, m') →
      memory_step (Runs (mkWeak q (Checks (l :: todo) found) sv) m) (Runs (mkWeak q (Checks todo (found ++ [v])) sv) m')
  | weak_check_race q sv m l todo found :
      plain_read ClientMain l m = Undef →
      memory_step (Runs (mkWeak q (Checks (l :: todo) found) sv) m) Broken
  | weak_dequeue q q' c m b :
      spsc_dequeue q = Ok (Some b, q') →
      memory_step (Runs (mkWeak q c Polls) m) (Runs (mkWeak q' c (Starts b)) m)
  | weak_start q c m b ws :
      tiled_start rowCount columnCount tileSize numWorkerThreads [] = Ok (Running ws []) →
      memory_step (Runs (mkWeak q c (Starts b)) m) (Runs (mkWeak q c (Works b ws)) (start_workers (length ws) m))
  | weak_start_fault q c m b :
      tiled_start rowCount columnCount tileSize numWorkerThreads [] = Undef →
      memory_step (Runs (mkWeak q c (Starts b)) m) Broken
  | weak_work q c m m' b ws (t : nat) w w' :
      ws !! t = Some w → worker_access b t w m = Some (Ok (w', m')) →
      memory_step (Runs (mkWeak q c (Works b ws)) m) (Runs (mkWeak q c (Works b (<[t := w']> ws))) m')
  | weak_work_race q c m b ws (t : nat) w :
      ws !! t = Some w → worker_access b t w m = Some Undef →
      memory_step (Runs (mkWeak q c (Works b ws)) m) Broken
  | weak_join q c m b ws :
      Forall (λ w, prog w = []) ws →
      memory_step (Runs (mkWeak q c (Works b ws)) m) (Runs (mkWeak q c Wakes) (join_workers (length ws) m))
  | weak_wake q c m m' ok :
      exchange Dispatcher Word 0 1 m = Some (ok, m') →
      memory_step (Runs (mkWeak q c Wakes) m) (Runs (mkWeak q c Polls) m').

(** The values of the shared locations, from lists of matrices and results. *)
Definition cell (ms : list (list Z)) (b i : Z) : Z := default 0 (cs ← zget ms b; zget cs i).
Definition loc_value (matrices trs : list (list Z)) (l : session_loc) : Z :=
  match l with Word => 0 | Original b i => cell matrices b i | Transposed b i => cell trs b i end.

(** What the client has created, known to the dispatcher once the client has been
    subscribed. *)
Definition memory_session_init (matrices : list (list Z)) (s : session Q) : memory_state :=
  Runs (mkWeak (queue s) (Loops (COuter 0)) Polls)
    (memory_init ((λ l, (l, loc_value matrices (results s) l)) <$> check_cells ++ [Word])).
End machine.

Arguments mkWeak {Q} _ _ _.
Arguments w_queue {Q} _.
Arguments w_client {Q} _.
Arguments w_server {Q} _.
Arguments Runs {Q} _ _.
Arguments Broken {Q}.

(** * The memory *)

(** The value a plain read yields, after another access. *)
Lemma last_write_perform {T L} `{EqDecision T, EqDecision L} (t : T) (l : L) ev m :
  last_write l (perform t ev m) = if writes l ev then Some (ev_value ev) else last_write l m.
Proof.
  unfold last_write. simpl. rewrite omap_app. simpl. unfold written at 2.
  destruct (writes l ev); [by rewrite last_snoc|by rewrite app_nil_r].
Qed.

Lemma last_write_init {T L} `{EqDecision T, EqDecision L} (f : L → Z) ls l :
  l ∈ ls → last_write l (memory_init (T := T) ((λ l, (l, f l)) <$> ls)) = Some (f l).
Proof.
  intros Hl. destruct (last_write l (memory_init (T := T) ((λ l, (l, f l)) <$> ls))) as [v|] eqn:Hv.
  - apply last_write_elem in Hv as (n & ev & Hn & [_ Hev]%writes_spec & ->). unfold memory_init in Hn. simpl in Hn.
    rewrite !list_lookup_fmap in Hn. destruct (ls !! n) as [l'|]; [|done]. injection Hn as <-. simpl in *. by subst.
  - unfold last_write in Hv. apply last_None in Hv.
    assert (f l ∈ omap (written l) (log (memory_init (T := T) ((λ l, (l, f l)) <$> ls)))) as Hin; [|by rewrite Hv in Hin; apply elem_of_nil in Hin].
    apply list_elem_of_omap. exists (mkEvent l true (f l) ∅). split.
    + unfold memory_init. simpl. apply list_elem_of_fmap. exists (l, f l). split; [done|]. apply list_elem_of_fmap. by exists l.
    + unfold written, writes. simpl. by rewrite bool_decide_true.
Qed.

(** [K] has all writes to the matrices. *)
Definition has_writes (m : session_memory) (K : gset nat) : Prop :=
  ∀ n ev, log m !! n = Some ev → ev_loc ev ≠ Word → ev_write ev = true → n ∈ K.

(** The thread knows all accesses to the matrices. *)
Definition knows_all (m : session_memory) (t : process) : Prop :=
  ∀ n ev, log m !! n = Some ev → ev_loc ev ≠ Word → n ∈ knows m t.

(** [m'] has the accesses to the matrices that [m] has, and the threads know what
    they knew. *)
Definition extends (m m' : session_memory) : Prop :=
  (∀ n ev, log m' !! n = Some ev → ev_loc ev ≠ Word → log m !! n = Some ev) ∧
  (∀ t, knows m t ⊆ knows m' t) ∧ (∀ l, l ≠ Word → last_write l m' = last_write l m).

(** The last store to the word has value [v], and hands over all writes if [v] is 1. *)
Definition word_is (v : Z) (m : session_memory) : Prop :=
  ∃ n ev, last_store Word m = Some n ∧ log m !! n = Some ev ∧ ev_value ev = v ∧ (v = 1 → has_writes m (ev_view ev)).

Lemma has_writes_extends m m' K K' : extends m m' → K ⊆ K' → has_writes m K → has_writes m' K'.
Proof. intros [Hlog _] HK Hw n ev Hn Hl He. eapply HK, Hw; [by apply Hlog|done..]. Qed.

Lemma knows_all_extends m m' t : extends m m' → knows_all m t → knows_all m' t.
Proof. intros (Hlog & Hk & _) Ha n ev Hn Hl. eapply Hk, Ha; [by apply Hlog|done]. Qed.

Lemma knows_all_writes m t : knows_all m t → has_writes m (knows m t).
Proof. intros Ha n ev Hn Hl _. by eapply Ha. Qed.

Lemma knows_observe (t t' : process) n ev (m : session_memory) : knows m t' ⊆ knows (observe t AcqRel n ev m) t'.
Proof.
  simpl. destruct (decide (t = t')) as [<-|]; [rewrite fn_lookup_insert; set_solver|by rewrite fn_lookup_insert_ne].
Qed.
Lemma knows_perform (t t' : process) ev (m : session_memory) : knows m t' ⊆ knows (perform t ev m) t'.
Proof.
  simpl. destruct (decide (t = t')) as [<-|]; [rewrite fn_lookup_insert; set_solver|by rewrite fn_lookup_insert_ne].
Qed.
Lemma knows_own (t : process) ev (m : session_memory) : length (log m) ∈ knows (perform t ev m) t.
Proof. simpl. rewrite fn_lookup_insert. set_solver. Qed.

Lemma writes_other (l : session_loc) ev : ev_loc ev ≠ l → writes l ev = false.
Proof. intros Hl. unfold writes. rewrite bool_decide_false by done. apply andb_false_r. Qed.

(** The exchanges of the word. *)
Lemma exchange_effect t v e d ok m m' :
  word_is v m → exchange t Word e d m = Some (ok, m') →
  ok = bool_decide (v = e) ∧ extends m m' ∧ (v = 1 → has_writes m' (knows m' t)) ∧
  (if ok then d = 0 ∨ has_writes m (knows m t) → word_is d m' else word_is v m').
Proof.
  intros (n & ev & Hlast & Hn & Hv & Hview) Hx. unfold exchange in Hx. rewrite Hlast in Hx. simpl in Hx. rewrite Hn in Hx.
  simpl in Hx. rewrite Hv in Hx. set (m1 := observe t AcqRel n ev m) in *.
  assert (ev_view ev ⊆ knows m1 t) as Hseen by (simpl; rewrite fn_lookup_insert; set_solver).
  assert (extends m m1) as Hm1 by (split; [done|]; split; [intros t'; apply knows_observe|done]).
  case_decide as Hve; injection Hx as <- <-.
  - rewrite bool_decide_true by done. split; [done|].
    assert (extends m (store_after t Word AcqRel d (ev_view ev) m1)) as Hext.
    { split_and!.
      - intros n' ev' [?|[_ ->]]%log_perform; done.
      - intros t'. etrans; [apply Hm1|apply knows_perform].
      - intros l Hl. unfold store_after. rewrite last_write_perform, writes_other by (simpl; congruence). done. }
    split; [done|]. split.
    + intros Hv1. eapply has_writes_extends; [exact Hext| |exact (Hview Hv1)]. etrans; [exact Hseen|apply knows_perform].
    + intros Hd. eexists _, _. split; [unfold store_after; rewrite last_store_perform; reflexivity|].
      split; [apply log_perform; by right|]. split; [done|]. intros ->. destruct Hd as [?|Hw]; [done|].
      eapply has_writes_extends; [exact Hext| |exact Hw]. simpl. etrans; [apply (knows_observe t t n ev)|]. set_solver.
  - rewrite bool_decide_false by done. split; [done|]. split; [done|]. split.
    + intros Hv1. by eapply has_writes_extends; [exact Hm1|exact Hseen|exact (Hview Hv1)].
    + by exists n, ev.
Qed.

Lemma exchange_total (t : process) v e d m :
  word_is v m → ∃ m', exchange t Word e d m = Some (bool_decide (v = e), m').
Proof.
  intros (n & ev & Hlast & Hn & Hv & _). unfold exchange. rewrite Hlast. simpl. rewrite Hn. simpl. rewrite Hv.
  case_decide as Hve; [rewrite bool_decide_true by done|rewrite bool_decide_false by done]; by eexists.
Qed.

(** A plain access to a matrix. *)
Lemma word_plain t l w v x m :
  l ≠ Word → v ≠ 1 ∨ w = false → word_is v m → word_is v (perform t (mkEvent l w x ∅) m).
Proof.
  intros Hl Hw (n & ev & Hlast & Hn & Hv & Hview). exists n, ev.
  rewrite last_store_perform. unfold writes. rewrite (bool_decide_false (ev_loc _ = Word)), andb_false_r by done.
  split_and!; [done|apply log_perform; by left|done|]. intros Hv1 n' ev' [Hn'|[-> ->]]%log_perform Hl' Hw'; [by eapply (Hview Hv1)|].
  simpl in Hw'. destruct Hw; congruence.
Qed.

(** A read by a thread that knows all writes. *)
Lemma read_known t l m v :
  l ≠ Word → has_writes m (knows m t) → last_write l m = Some v →
  plain_read t l m = Ok (v, perform t (mkEvent l false v ∅) m).
Proof.
  intros Hl Hw Hv. unfold plain_read. rewrite (proj2 (races_false t l false m)), Hv; [done|].
  intros n ev Hn <- He. by eapply Hw.
Qed.

Lemma last_write_read t l l' v (m : session_memory) :
  last_write l' (perform t (mkEvent l false v ∅) m) = last_write l' m.
Proof. by rewrite last_write_perform. Qed.

Lemma has_writes_read t l v m t' :
  has_writes m (knows m t') → has_writes (perform t (mkEvent l false v ∅) m) (knows (perform t (mkEvent l false v ∅) m) t').
Proof.
  intros Hw n ev [Hn|[-> ->]]%log_perform Hl He; [|done]. by eapply knows_perform, Hw.
Qed.

(** The threads of a call. *)
Lemma knows_started n m t :
  knows (start_workers n m) t = match t with Worker i => if decide (i < n)%nat then knows m Dispatcher else knows m t | _ => knows m t end.
Proof. done. Qed.

Lemma knows_joined n m : 
  (∀ t, t ≠ Dispatcher → knows (join_workers n m) t = knows m t) ∧
  (∀ x, x ∈ knows (join_workers n m) Dispatcher ↔ x ∈ knows m Dispatcher ∨ ∃ i, (i < n)%nat ∧ x ∈ knows m (Worker i)).
Proof.
  split; [intros t Ht; simpl; by rewrite fn_lookup_insert_ne|]. intros x. simpl. rewrite fn_lookup_insert, elem_of_union, elem_of_union_list.
  split; (intros [?|Hx]; [by left|right]).
  - destruct Hx as (K & (i & -> & [_ Hi]%elem_of_seq)%list_elem_of_fmap & Hx). exists i. split; [lia|done].
  - destruct Hx as (i & Hi & Hx). exists (knows m (Worker i)). split; [|done]. apply list_elem_of_fmap.
    exists i. split; [done|]. apply elem_of_seq. lia.
Qed.

(** * A call of the transposition *)

Section facts.
Context {Q : Type} `{SpscLaws Q}.
Context (k reps R C T N : Z) (matrices : list (list Z)) (n : Z).
Hypothesis Hok : session_ok k reps R C T N matrices n.

Abbreviation in_cells := (in_buffer R C).
Abbreviation sstep := (session_step k reps R C T N matrices).
Abbreviation inv := (session_inv k reps R C matrices n).
Abbreviation wstep := (memory_step k reps R C T N).

Definition originals (m : session_memory) : Prop :=
  ∀ b i, 0 ≤ b < k → in_cells i → last_write (Original b i) m = Some (cell matrices b i).

(** What is known of an access to a matrix: it is older than the call, or it was made
    by a worker, which knows it, to a cell of its own. *)
Definition call_access (b : Z) (ws0 : list worker) (m : session_memory) (x : nat) (ev : event session_loc) : Prop :=
  (x ∈ knows m Dispatcher ∧ ∀ t, (t < length ws0)%nat → x ∈ knows m (Worker t)) ∨
  (∃ t w0, ws0 !! t = Some w0 ∧ x ∈ knows m (Worker t) ∧
     ((∃ i, ev_loc ev = Original b i) ∧ ev_write ev = false ∨ ∃ d, ev_loc ev = Transposed b d ∧ AStore d ∈ prog w0)).

(** The workers [ws] of the call that started with [ws0], and [dst0] in the buffer,
    are where an execution of [TiledTranspose] gets with [dst]. *)
Record working (b : Z) (ws : list worker) (m : session_memory) (src dst0 : list Z) (ws0 : list worker)
    (dst : list Z) : Prop := {
  wk_src : zget matrices b = Some src;
  wk_start : tiled_start R C T N dst0 = Ok (Running ws0 dst0);
  wk_run : rtc (tiled_step src) (Running ws0 dst0) (Running ws dst);
  wk_dst0 : zlen dst0 = R * C;
  wk_cells : ∀ i, in_cells i → last_write (Transposed b i) m = zget dst i;
  wk_length : length ws = length ws0;
  wk_progs : ∀ t w w0, ws !! t = Some w → ws0 !! t = Some w0 → ∀ a, a ∈ prog w → a ∈ prog w0;
  wk_log : ∀ x ev, log m !! x = Some ev → ev_loc ev ≠ Word → call_access b ws0 m x ev
}.

Lemma tiled_start_any dst dst' ws :
  tiled_start R C T N dst = Ok (Running ws dst) → tiled_start R C T N dst' = Ok (Running ws dst').
Proof.
  unfold tiled_start. intros Hs. apply result_bind_Ok in Hs as (bs & -> & Hs).
  apply result_bind_Ok in Hs as (ws' & Hws & [= <-]). simpl. by rewrite Hws.
Qed.

Lemma started dst :
  ∃ ws, tiled_start R C T N dst = Ok (Running ws dst) ∧ workers_spec R C T N N ws.
Proof. destruct Hok. by apply tiled_start_eq. Qed.

(** Every access of an execution is in order. *)
Lemma working_inv b ws m src dst0 ws0 dst :
  working b ws m src dst0 ws0 dst → zlen src = R * C ∧ tiled_inv R C src (Running ws dst).
Proof.
  intros [Hsrc Hstart Hrun Hd0 _ _ _ _]. assert (zlen src = R * C) as Hl by (by eapply ok_matrix). split; [done|].
  destruct (started dst0) as (ws' & Hs' & Hspec). rewrite Hstart in Hs'. injection Hs' as <-. destruct Hok.
  eapply (invariant_rtc _ (tiled_inv R C src)); [intros x y; by apply tiled_inv_step| |exact Hrun].
  apply (tiled_inv_start R C T N); try done. lia.
Qed.

Lemma own_cells ws0 dst0 (t1 t2 : nat) w1 w2 d :
  tiled_start R C T N dst0 = Ok (Running ws0 dst0) → ws0 !! t1 = Some w1 → ws0 !! t2 = Some w2 →
  AStore d ∈ prog w1 → AStore d ∈ prog w2 → t1 = t2.
Proof.
  intros Hstart H1 H2 Hd1 Hd2. destruct Hok. apply Nat2Z.inj.
  rewrite <-zget_of_nat in H1, H2.
  by eapply (tiled_race_free R C T N dst0 ws0); [..|exact H1|exact H2|exact Hd1|exact Hd2].
Qed.

Lemma cell_eq ms b cs i v : zget ms b = Some cs → zget cs i = Some v → cell ms b i = v.
Proof. intros Hb Hi. unfold cell. rewrite Hb. simpl. by rewrite Hi. Qed.

(** A worker that goes on keeps the rest in order. *)
Lemma call_access_perform b ws0 m t l w v x ev :
  call_access b ws0 m x ev → call_access b ws0 (perform (Worker t) (mkEvent l w v ∅) m) x ev.
Proof.
  intros [[Hd Hw]|(t' & w0 & Ht & Hx & Hev)]; [left|right].
  - split; [by apply knows_perform|]. intros t' Ht'. by apply knows_perform, Hw.
  - exists t', w0. split; [done|]. split; [by apply knows_perform|done].
Qed.

Lemma working_access b ws m src dst0 ws0 dst (t : nat) w r :
  working b ws m src dst0 ws0 dst → originals m → word_is 0 m → 0 ≤ b < k →
  ws !! t = Some w → worker_access R C b t w m = Some r →
  ∃ w' l wr v dst', r = Ok (w', perform (Worker t) (mkEvent l wr v ∅) m) ∧
    (wr = false ∨ ∃ i, l = Transposed b i) ∧ l ≠ Word ∧
    working b (<[t := w']> ws) (perform (Worker t) (mkEvent l wr v ∅) m) src dst0 ws0 dst'.
Proof.
  intros Hwork Horig Hword Hb Hw Hacc. destruct (working_inv _ _ _ _ _ _ _ Hwork) as (Hlsrc & Hdl & Hwok & _).
  destruct Hwork as [Hsrc Hstart Hrun Hd0 Hcells Hlen Hprogs Hlog].
  pose proof (lookup_lt_Some _ _ _ Hw) as Ht. rewrite Hlen in Ht.
  destruct (lookup_lt_is_Some_2 ws0 t Ht) as [w0 Hw0]. pose proof (Hprogs t w w0 Hw Hw0) as Hsub.
  assert (worker_ok R C src w) as Hwo by (by eapply Forall_lookup_1).
  assert (∀ w', (∀ a, a ∈ prog w' → a ∈ prog w) →
    ∀ t' w1 w1', <[t := w']> ws !! t' = Some w1 → ws0 !! t' = Some w1' → ∀ a, a ∈ prog w1 → a ∈ prog w1') as Hprogs'.
  { intros w' Hsub' t' w1 w1' H1 H2 a Ha. apply list_lookup_insert_Some in H1 as [(<- & <- & _)|[_ H1]]; [|by eapply Hprogs].
    assert (w1' = w0) as -> by congruence. by apply Hsub, Hsub'. }
  unfold worker_access in Hacc. destruct (prog w) as [|[i|i] rest] eqn:Hp; [done| |]; injection Hacc as <-.
  - assert (∃ v, zget src i = Some v ∧ worker_step src w dst = Some (Ok (mkWorker rest v, dst))) as (v & Hv & Hstep).
    { assert (∃ r, worker_step src w dst = Some r) as [r Hs] by (unfold worker_step; rewrite Hp; by eexists).
      destruct (worker_step_ok R C src Hok.(ok_size _ _ _ _ _ _ _ _) Hlsrc w dst r Hwo Hdl Hs) as (w' & d' & -> & _).
      unfold worker_step in Hs. rewrite Hp in Hs. injection Hs as Hs. apply result_bind_Ok in Hs as (v & Hv & [= <- <-]).
      exists v. split; [by apply load_Ok|]. unfold worker_step. rewrite Hp, Hv. done. }
    pose proof (zget_Some_range _ _ _ Hv) as Hi. rewrite Hlsrc in Hi. rewrite decide_True by done.
    assert (plain_read (Worker t) (Original b i) m = Ok (v, perform (Worker t) (mkEvent (Original b i) false v ∅) m)) as ->.
    { unfold plain_read. rewrite (proj2 (races_false _ _ _ _)).
      - rewrite Horig by done. by rewrite (cell_eq _ _ _ _ _ Hsrc Hv).
      - intros x ev Hx He Hwr. destruct (Hlog x ev Hx) as [[_ Hk]|(t' & w0' & _ & _ & [[_ Hr]|(d & Hd & _)])];
          [by rewrite He|by apply Hk|by rewrite Hr in Hwr|congruence]. }
    simpl. exists (mkWorker rest v), (Original b i), false, v, dst. split; [done|]. split; [by left|]. split; [done|].
    split; try done.
    + eapply rtc_r; [exact Hrun|]. by eapply tiled_step_ok.
    + intros j Hj. rewrite last_write_read. by apply Hcells.
    + by rewrite length_insert.
    + apply Hprogs'. simpl. intros a Ha. rewrite ?Hp. by right.
    + intros x ev [Hx|[-> ->]]%log_perform Hl; [by apply call_access_perform, Hlog|]. right. exists t, w0.
      split; [done|]. split; [apply knows_own|]. left. by split; [exists i|].
  - assert (in_cells i ∧ worker_step src w dst = Some (Ok (mkWorker rest (reg w), zset dst i (reg w)))) as (Hi & Hstep).
    { assert (∃ r, worker_step src w dst = Some r) as [r Hs] by (unfold worker_step; rewrite Hp; by eexists).
      destruct (worker_step_ok R C src Hok.(ok_size _ _ _ _ _ _ _ _) Hlsrc w dst r Hwo Hdl Hs) as (w' & d' & -> & _).
      unfold worker_step in Hs. rewrite Hp in Hs. injection Hs as Hs. apply result_bind_Ok in Hs as (v & Hv & [= <- <-]).
      pose proof Hv as [Hi ->]%store_Ok. rewrite Hdl in Hi. split; [done|]. unfold worker_step. rewrite Hp, Hv. done. }
    rewrite decide_True by done.
    assert (plain_write (Worker t) (Transposed b i) (reg w) m = Ok (perform (Worker t) (mkEvent (Transposed b i) true (reg w) ∅) m)) as ->.
    { unfold plain_write. rewrite (proj2 (races_false _ _ _ _)); [done|].
      intros x ev Hx He Hwr. destruct (Hlog x ev Hx) as [[_ Hk]|(t' & w0' & Hw0' & Hk & [[[j Hj] _]|(d & Hd & Hin)])];
        [by rewrite He|by apply Hk|congruence|].
      assert (t' = t) as <-; [|done]. rewrite He in Hd. injection Hd as ->.
      eapply own_cells; [exact Hstart|exact Hw0'|exact Hw0|exact Hin|]. apply Hsub. by left. }
    simpl. exists (mkWorker rest (reg w)), (Transposed b i), true, (reg w), (zset dst i (reg w)).
    split; [done|]. split; [right; by exists i|]. split; [done|]. split; try done.
    + eapply rtc_r; [exact Hrun|]. by eapply tiled_step_ok.
    + intros j Hj. rewrite last_write_perform. unfold writes. simpl. case_bool_decide as He.
      * injection He as ->. rewrite zget_zset_eq by (by rewrite Hdl). done.
      * rewrite zget_zset_ne by congruence. by apply Hcells.
    + by rewrite length_insert.
    + apply Hprogs'. simpl. intros a Ha. rewrite ?Hp. by right.
    + intros x ev [Hx|[-> ->]]%log_perform Hl; [by apply call_access_perform, Hlog|]. right. exists t, w0.
      split; [done|]. split; [apply knows_own|]. right. exists i. split; [done|]. apply Hsub. by left.
Qed.

(** * The invariant *)

Definition client_rel (c : main_pc) (s : session Q) : Prop :=
  match c with
  | Loops c => client s = c ∧ c ≠ CCheck
  | Checks todo found =>
      client s = CCheck ∧ ∃ pre, check_cells k R C = pre ++ todo ∧ found = loc_value matrices (results s) <$> pre
  end.

Definition server_rel (sv : call_pc) (m : session_memory) (s : session Q) : Prop :=
  match sv with
  | Polls => server s = SPoll ∧ (client s ≠ CCheck → knows_all m Dispatcher)
  | Starts b => server s = STranspose b ∧ knows_all m Dispatcher
  | Works b ws =>
      server s = STranspose b ∧
      ∃ src dst0 ws0 dst, zget (results s) b = Some dst0 ∧ working b ws m src dst0 ws0 dst
  | Wakes => server s = SWake ∧ knows_all m Dispatcher
  end.

(** The results are in memory, but for a buffer that is being written. *)
Definition results_rel (sv : call_pc) (m : session_memory) (s : session Q) : Prop :=
  ∀ b i, 0 ≤ b < k → in_cells i → (∀ ws, sv ≠ Works b ws) →
    last_write (Transposed b i) m = Some (cell (results s) b i).

(** The state and the memory stand for the session [s] of [System]. *)
Record weak_inv (w : memory_session) (m : session_memory) (s : session Q) : Prop := {
  wi_queue : queue s = w_queue w;
  wi_client : client_rel (w_client w) s;
  wi_server : server_rel (w_server w) m s;
  wi_word : word_is (Z.b2z (signalled s)) m;
  wi_originals : originals m;
  wi_results : results_rel (w_server w) m s;
  wi_knows : (∀ rep b, client s ≠ CWait rep b) → has_writes m (knows m ClientMain)
}.

(** The dispatcher works for a client that waits. *)
Lemma working_waits s : inv s → server s ≠ SPoll → signalled s = false ∧ ∃ rep b, client s = CWait rep b ∧ 0 ≤ b < k.
Proof.
  intros Hinv Hs. destruct (si_phase _ _ _ _ _ _ _ Hinv) as (l & _ & Hph).
  pose proof (si_range _ _ _ _ _ _ _ Hinv) as Hr.
  destruct (client s) as [rep|rep b|rep b|] eqn:Hc; simpl in Hph; try (by destruct Hph as (_ & _ & ?)).
  split; [naive_solver|]. exists rep, b. split; [done|apply Hr].
Qed.

Lemma transposing s b :
  inv s → server s = STranspose b → 0 ≤ b < k ∧ ∃ dst0, zget (results s) b = Some dst0.
Proof.
  intros Hinv Hs. destruct (si_phase _ _ _ _ _ _ _ Hinv) as (l & _ & Hph).
  pose proof (si_range _ _ _ _ _ _ _ Hinv) as Hr. rewrite Hs in Hph.
  destruct (client s) as [rep|rep b'|rep b'|] eqn:Hc; simpl in Hph; try (by destruct Hph as (_ & _ & ?)).
  assert (b' = b) as -> by naive_solver. destruct Hr as [_ Hr]. split; [done|].
  apply zget_is_Some. by rewrite (si_tr _ _ _ _ _ _ _ Hinv).
Qed.

Lemma server_rel_client sv m s s' :
  server s' = server s → results s' = results s → (client s' ≠ CCheck → client s ≠ CCheck) →
  server_rel sv m s → server_rel sv m s'.
Proof. unfold server_rel. intros -> -> Hc. destruct sv; naive_solver. Qed.

Lemma server_rel_extends sv m m' s : extends m m' → server_rel sv m s → server_rel sv m' s.
Proof.
  intros Hext. pose proof (knows_all_extends _ _ Dispatcher Hext) as Hk. destruct sv as [|b|b ws|]; simpl; [naive_solver..| |naive_solver].
  intros (Hs & src & dst0 & ws0 & dst & Hd & Hwork). split; [done|]. exists src, dst0, ws0, dst. split; [done|].
  destruct Hext as (Hlog & Hkn & Hlast), Hwork as [? ? ? ? Hcells ? ? Hlg]. split; try done.
  - intros i Hi. rewrite Hlast by done. by apply Hcells.
  - intros x ev Hx Hl. destruct (Hlg x ev) as [[Hd' Hw]|(t & w0 & Ht & Hx' & Hev)]; [by apply Hlog|done|left|right].
    + split; [by apply Hkn|]. intros t Ht. by apply Hkn, Hw.
    + exists t, w0. split; [done|]. split; [by apply Hkn|done].
Qed.

Lemma results_rel_extends sv m m' s : extends m m' → results_rel sv m s → results_rel sv m' s.
Proof. intros (_ & _ & Hlast) Hr b i Hb Hi Hsv. rewrite Hlast by done. by apply Hr. Qed.
Lemma originals_extends m m' : extends m m' → originals m → originals m'.
Proof. intros (_ & _ & Hlast) Hr b i Hb Hi. rewrite Hlast by done. by apply Hr. Qed.

Lemma elem_of_check_cells l :
  l ∈ check_cells k R C → ∃ b i, 0 ≤ b < k ∧ in_cells i ∧ (l = Original b i ∨ l = Transposed b i).
Proof.
  unfold check_cells. rewrite list_elem_of_bind. intros (b & Hl & Hb%elem_of_seqZ). exists b.
  apply elem_of_app in Hl as [(i & -> & Hi%elem_of_seqZ)%list_elem_of_fmap|(i & -> & Hi%elem_of_seqZ)%list_elem_of_fmap];
    exists i; (split; [lia|]); (split; [split; lia|]); auto.
Qed.

(** The final check reads what the session has. *)
Lemma check_reads w m s l todo found :
  inv s → weak_inv w m s → w_client w = Checks (l :: todo) found →
  let v := loc_value matrices (results s) l in
  let m' := perform ClientMain (mkEvent l false v ∅) m in
  plain_read ClientMain l m = Ok (v, m') ∧
  weak_inv (mkWeak (w_queue w) (Checks todo (found ++ [v])) (w_server w)) m' s.
Proof.
  intros Hinv [Hq Hc Hsv Hword Horig Hres Hk] Hw v m'. rewrite Hw in Hc. destruct Hc as (Hc & pre & Hpre & ->).
  specialize (Hk ltac:(by rewrite Hc)).
  destruct (elem_of_check_cells l) as (b & i & Hb & Hi & Hl); [rewrite Hpre; apply elem_of_app; right; by left|].
  assert (l ≠ Word) as Hlw by (by destruct Hl as [->| ->]).
  assert (server s = SPoll) as Hpoll.
  { destruct (decide (server s = SPoll)) as [|Hne]; [done|]. destruct (working_waits s Hinv Hne) as (_ & rep & b' & Hcw & _).
    congruence. }
  assert (w_server w = Polls) as Hpolls by (destruct (w_server w); simpl in Hsv; naive_solver congruence).
  assert (last_write l m = Some v) as Hv.
  { destruct Hl as [->| ->]; [by apply Horig|]. apply Hres; [done|done|]. by rewrite Hpolls. }
  split; [by apply read_known|]. split; simpl; try done.
  - split; [done|]. exists (pre ++ [l]). split; [by rewrite <-app_assoc|]. by rewrite fmap_app.
  - rewrite Hpolls. split; [done|]. congruence.
  - apply word_plain; auto.
  - intros b' i' Hb' Hi'. unfold m'. rewrite last_write_read. by apply Horig.
  - intros b' i' Hb' Hi' Hne. unfold m'. rewrite last_write_read. by apply Hres.
  - intros _. by apply has_writes_read.
Qed.

(** A step that leaves memory alone, or the matrices. *)
Lemma weak_inv_client w m s c' s' :
  weak_inv w m s → client_rel c' s' → queue s' = queue s → signalled s' = signalled s → results s' = results s →
  server s' = server s → (∀ rep b, client s ≠ CWait rep b) → (client s' ≠ CCheck → client s ≠ CCheck) →
  weak_inv (mkWeak (w_queue w) c' (w_server w)) m s'.
Proof.
  intros [Hq Hc Hsv Hword Horig Hres Hk] Hc' Hqs Hw Hr Hs Hwait Hcheck. split; simpl; try done.
  - by rewrite Hqs.
  - by eapply server_rel_client.
  - by rewrite Hw.
  - unfold results_rel. by rewrite Hr.
  - intros _. by apply Hk.
Qed.

Lemma enqueue_weak_step q q' ok sv m rep b s :
  weak_inv (mkWeak q (Loops (CInner rep b)) sv) m s → b < k → spsc_enqueue q b = Ok (ok, q') →
  ∃ s', sstep s s' ∧ weak_inv (mkWeak q' (Loops (CWait rep b)) sv) m s'.
Proof.
  intros [Hq [Hc _] Hsv Hword Horig Hres Hk] Hb Henq. destruct s as [q0 w tr c sp]. simpl in *. subst.
  eexists. split; [by eapply inner_enqueue|]. split; try done.
  - eapply (server_rel_client _ _ (mkSession q w tr (CInner rep b) sp)); [done..|exact Hsv].
  - intros Hn. by destruct (Hn rep b).
Qed.

Lemma wait_weak_step q sv m m' rep b ok s :
  inv s → weak_inv (mkWeak q (Loops (CWait rep b)) sv) m s → exchange ClientMain Word 1 0 m = Some (ok, m') →
  ∃ s', rtc sstep s s' ∧ weak_inv (mkWeak q (Loops (if ok then CInner rep (b + 1) else CWait rep b)) sv) m' s'.
Proof.
  intros Hinv [Hq [Hc _] Hsv Hword Horig Hres Hk] Hx.
  pose proof (exchange_effect _ _ _ _ _ _ _ Hword Hx) as (-> & Hext & Hknow & Hword').
  destruct s as [q0 w tr c sp]. simpl in *. subst. destruct w; simpl in *.
  - eexists. split; [apply rtc_once, wait_returns|]. split; simpl; try done.
    + eapply server_rel_extends; [exact Hext|].
      eapply (server_rel_client _ _ (mkSession q true tr (CWait rep b) sp)); [done..|exact Hsv].
    + apply Hword'. by left.
    + by eapply originals_extends.
    + eapply results_rel_extends; [exact Hext|exact Hres].
    + intros _. by apply Hknow.
  - eexists. split; [reflexivity|]. split; simpl; try done.
    + by eapply server_rel_extends.
    + by eapply originals_extends.
    + by eapply results_rel_extends.
    + intros Hn. by destruct (Hn rep b).
Qed.

Lemma dequeue_weak_step q q' c m b s :
  inv s → weak_inv (mkWeak q c Polls) m s → spsc_dequeue q = Ok (Some b, q') →
  ∃ s', sstep s s' ∧ weak_inv (mkWeak q' c (Starts b)) m s'.
Proof.
  intros Hinv [Hq Hc [Hs Hd] Hword Horig Hres Hk] Hdeq. destruct s as [q0 w tr cl sp]. simpl in *. subst.
  assert (sstep (mkSession q w tr cl SPoll) (mkSession q' w tr cl (STranspose b))) as Hstep by by eapply poll_request.
  exists (mkSession q' w tr cl (STranspose b)). split; [exact Hstep|].
  pose proof (session_inv_step _ _ _ _ _ _ _ _ _ _ Hok Hinv Hstep) as Hinv'.
  destruct (working_waits _ Hinv') as (_ & rep & b' & Hcw & _); [done|]. simpl in Hcw. subst cl.
  split; simpl; try done.
  - split; [done|]. by apply Hd.
  - intros b0 i Hb0 Hi _. by apply Hres.
Qed.

Lemma start_weak_step q c m b ws s :
  inv s → weak_inv (mkWeak q c (Starts b)) m s → tiled_start R C T N [] = Ok (Running ws []) →
  weak_inv (mkWeak q c (Works b ws)) (start_workers (length ws) m) s.
Proof.
  intros Hinv [Hq Hc [Hs Hd] Hword Horig Hres Hk] Hstart.
  destruct (transposing s b Hinv Hs) as (Hb & dst0 & Hdst0).
  destruct (proj2 (zget_is_Some matrices b)) as [src Hsrc]; [by rewrite (ok_count _ _ _ _ _ _ _ _ Hok)|].
  assert (zlen dst0 = R * C) as Hl by (by eapply si_dst).
  split; simpl; try done.
  - split; [done|]. exists src, dst0, ws, dst0. split; [done|]. split; try done.
    + by eapply tiled_start_any.
    + intros i Hi.
      destruct (proj2 (zget_is_Some dst0 i)) as [v Hv]; [by rewrite Hl|]. rewrite Hv.
      transitivity (last_write (Transposed b i) m); [done|]. rewrite (Hres b i Hb Hi) by done.
      by rewrite (cell_eq _ _ _ _ _ Hdst0 Hv).
    + intros t w w0 H1 H2. assert (w0 = w) as -> by congruence. done.
    + intros x ev Hx Hw. left. split; [by eapply Hd|]. intros t Ht. simpl. rewrite decide_True by done. by eapply Hd.
  - intros b0 i Hb0 Hi Hne. by apply Hres.
Qed.

Lemma worker_weak_step q c m b ws (t : nat) w r s :
  inv s → weak_inv (mkWeak q c (Works b ws)) m s → ws !! t = Some w → worker_access R C b t w m = Some r →
  ∃ w' m', r = Ok (w', m') ∧ weak_inv (mkWeak q c (Works b (<[t := w']> ws))) m' s.
Proof.
  intros Hinv [Hq Hc (Hs & src & dst0 & ws0 & dst & Hd0 & Hwork) Hword Horig Hres Hk] Hw Hacc. simpl in *.
  destruct (working_waits s Hinv) as (Hsig & rep & b' & Hcw & _); [by rewrite Hs|].
  destruct (transposing s b Hinv Hs) as (Hb & _). rewrite Hsig in *. simpl in Hword.
  destruct (working_access b ws m src dst0 ws0 dst t w r Hwork Horig Hword Hb Hw Hacc)
    as (w' & l & wr & v & dst' & -> & Hl & Hlw & Hwork').
  exists w', (perform (Worker t) (mkEvent l wr v ∅) m). split; [done|]. split; simpl; try done.
  - split; [done|]. by exists src, dst0, ws0, dst'.
  - rewrite Hsig. apply word_plain; auto.
  - intros b0 i Hb0 Hi. rewrite last_write_perform.
    destruct Hl as [->|(j & ->)]; [by apply Horig|]. rewrite writes_other by done. by apply Horig.
  - intros b0 i Hb0 Hi Hne. assert (b0 ≠ b) as Hbb by (intros ->; by eapply Hne).
    rewrite last_write_perform.
    destruct Hl as [->|(j & ->)]; [|rewrite writes_other by (simpl; congruence)];
      (apply Hres; [done|done|]; intros ws' [= -> _]; done).
  - intros Hn. by destruct (Hn rep b').
Qed.

Lemma join_weak_step q c m b ws s :
  inv s → weak_inv (mkWeak q c (Works b ws)) m s → Forall (λ w, prog w = []) ws →
  ∃ s', sstep s s' ∧ weak_inv (mkWeak q c Wakes) (join_workers (length ws) m) s'.
Proof.
  intros Hinv [Hq Hc (Hs & src & dst0 & ws0 & dst & Hd0 & Hwork) Hword Horig Hres Hk] Hdone. simpl in *.
  destruct (working_inv _ _ _ _ _ _ _ Hwork) as (Hlsrc & Hdl & _).
  destruct (working_waits s Hinv) as (Hsig & rep & b' & Hcw & _); [by rewrite Hs|].
  destruct Hwork as [Hsrc Hstart Hrun _ Hcells Hlen _ Hlog].
  destruct (knows_joined (length ws) m) as [Hsame Hjoin].
  destruct s as [q0 w tr cl sp]. simpl in *. subst. pose proof (zget_Some_range _ _ _ Hd0) as Hrange.
  exists (mkSession q false (zset tr b dst) (CWait rep b') SWake). split.
  { eapply do_transpose; [exact Hsrc|exact Hd0|]. by exists (Running ws0 dst0), ws. }
  split; simpl; try done.
  - by destruct c as [c|todo found]; simpl in *; [|naive_solver].
  - split; [done|]. intros x ev Hx Hl. apply Hjoin.
    destruct (Hlog x ev Hx Hl) as [[Hd _]|(t & w0 & Ht & Hk' & _)]; [by left|right].
    exists t. split; [|done]. rewrite Hlen. by eapply lookup_lt_Some.
  - intros b0 i Hb0 Hi _. destruct (decide (b0 = b)) as [->|Hne].
    + transitivity (last_write (Transposed b i) m); [done|]. rewrite Hcells by done.
      destruct (proj2 (zget_is_Some dst i)) as [v Hv]; [by rewrite Hdl|]. rewrite Hv. f_equal. symmetry.
      eapply cell_eq; [by apply zget_zset_eq|done].
    + transitivity (last_write (Transposed b0 i) m); [done|]. rewrite Hres by (done || intros ws' [= -> _]; done).
      cbn [results]. unfold cell. by rewrite zget_zset_ne.
Qed.

Lemma wake_weak_step q c m m' ok s :
  inv s → weak_inv (mkWeak q c Wakes) m s → exchange Dispatcher Word 0 1 m = Some (ok, m') →
  ∃ s', sstep s s' ∧ weak_inv (mkWeak q c Polls) m' s'.
Proof.
  intros Hinv [Hq Hc [Hs Hd] Hword Horig Hres Hk] Hx. simpl in *.
  destruct (working_waits s Hinv) as (Hsig & rep & b' & Hcw & _); [by rewrite Hs|]. rewrite Hsig in *. simpl in Hword.
  pose proof (exchange_effect _ _ _ _ _ _ _ Hword Hx) as (-> & Hext & _ & Hword').
  destruct s as [q0 w tr cl sp]. simpl in *. subst.
  exists (mkSession q true tr (CWait rep b') SPoll). split; [apply do_wake|]. split; simpl; try done.
  - split; [done|]. intros _. by eapply knows_all_extends.
  - apply Hword'. right. by apply knows_all_writes.
  - by eapply originals_extends.
  - intros b0 i Hb0 Hi _. destruct Hext as (_ & _ & ->); [|done]. by apply Hres.
  - intros Hn. by destruct (Hn rep b').
Qed.

(** Every step of the memory's machine is one of the session, or none. *)
Lemma weak_step_simulated w m s x :
  inv s → weak_inv w m s → wstep (Runs w m) x →
  ∃ w' m' s', x = Runs w' m' ∧ rtc sstep s s' ∧ weak_inv w' m' s'.
Proof.
  intros Hinv Hw Hs.
  inversion Hs as [q sv m1 rep Hlt|q sv m1 rep Hge|q q' ok sv m1 rep b Hb Henq|q sv m1 rep b Hb|q sv m1 m2 rep b ok Hx
    |q sv m1 m2 l todo found v Hr|q sv m1 l todo found Hr|q q' c m1 b Hdeq|q c m1 b ws Hst|q c m1 b Hst
    |q c m1 m2 b ws t wk wk' Ht Hacc|q c m1 b ws t wk Ht Hacc|q c m1 b ws Hdone|q c m1 m2 ok Hx]; subst.
  - destruct (wi_client _ _ _ Hw) as [Hc _]. destruct s as [q0 sg tr cl sp]. simpl in Hc. subst cl.
    eexists _, _, (mkSession q0 sg tr (CInner rep 0) sp). split; [done|]. split; [by apply rtc_once, outer_enter|].
    by apply (weak_inv_client _ _ _ (Loops (CInner rep 0)) (mkSession q0 sg tr (CInner rep 0) sp) Hw).
  - destruct (wi_client _ _ _ Hw) as [Hc _]. destruct s as [q0 sg tr cl sp]. simpl in Hc. subst cl.
    eexists _, _, (mkSession q0 sg tr CCheck sp). split; [done|]. split; [by apply rtc_once, outer_exit|].
    apply (weak_inv_client _ _ _ (Checks (check_cells k R C) []) (mkSession q0 sg tr CCheck sp) Hw); try done.
    split; [done|]. by exists [].
  - destruct (enqueue_weak_step _ _ _ _ _ _ _ _ Hw Hb Henq) as (s' & ? & ?).
    eexists _, _, s'. split; [done|]. split; [by apply rtc_once|done].
  - destruct (wi_client _ _ _ Hw) as [Hc _]. destruct s as [q0 sg tr cl sp]. simpl in Hc. subst cl.
    eexists _, _, (mkSession q0 sg tr (COuter (u32 (rep + 1))) sp). split; [done|]. split; [by apply rtc_once; eapply inner_exit|].
    by apply (weak_inv_client _ _ _ (Loops (COuter (u32 (rep + 1)))) (mkSession q0 sg tr (COuter (u32 (rep + 1))) sp) Hw).
  - destruct (wait_weak_step _ _ _ _ _ _ _ _ Hinv Hw Hx) as (s' & ? & ?). by eexists _, _, s'.
  - destruct (check_reads _ _ _ _ _ _ Hinv Hw eq_refl) as [Hr' Hw']. rewrite Hr in Hr'. injection Hr' as -> ->.
    eexists _, _, s. by split.
  - destruct (check_reads _ _ _ _ _ _ Hinv Hw eq_refl) as [Hr' _]. congruence.
  - destruct (dequeue_weak_step _ _ _ _ _ _ Hinv Hw Hdeq) as (s' & ? & ?).
    eexists _, _, s'. split; [done|]. split; [by apply rtc_once|done].
  - eexists _, _, s. split; [done|]. split; [done|]. by apply start_weak_step.
  - destruct (started []) as (ws & Hst' & _). congruence.
  - destruct (worker_weak_step _ _ _ _ _ _ _ _ _ Hinv Hw Ht Hacc) as (w' & m' & [= <- <-] & Hw'). by eexists _, _, s.
  - by destruct (worker_weak_step _ _ _ _ _ _ _ _ _ Hinv Hw Ht Hacc) as (w' & m' & [=] & _).
  - destruct (join_weak_step _ _ _ _ _ _ Hinv Hw Hdone) as (s' & ? & ?).
    eexists _, _, s'. split; [done|]. split; [by apply rtc_once|done].
  - destruct (wake_weak_step _ _ _ _ _ _ Hinv Hw Hx) as (s' & ? & ?).
    eexists _, _, s'. split; [done|]. split; [by apply rtc_once|done].
Qed.
(** ** The start *)

Lemma memory_inv_init s :
  session_init n s → buffers_ok k R C (results s) →
  ∃ m, memory_session_init k R C matrices s = Runs (mkWeak (queue s) (Loops (COuter 0)) Polls) m ∧
    weak_inv (mkWeak (queue s) (Loops (COuter 0)) Polls) m s.
Proof.
  intros (_ & Hsig & Hc & Hs) Hb. eexists. split; [reflexivity|].
  set (ls := check_cells k R C ++ [Word]). set (f := loc_value matrices (results s)).
  set (m := memory_init ((λ l, (l, f l)) <$> ls)).
  assert (∀ t x ev, log m !! x = Some ev → x ∈ knows m t) as Hall.
  { intros t x ev Hx%lookup_lt_Some. unfold m, memory_init in *. cbn [log knows] in *. rewrite length_fmap in Hx.
    rewrite elem_of_set_seq. lia. }
  assert (∀ b i, 0 ≤ b < k → in_cells i → Original b i ∈ ls ∧ Transposed b i ∈ ls) as Hin.
  { intros b i Hbk Hi. unfold ls, check_cells. rewrite !elem_of_app, !list_elem_of_bind.
    split; left; exists b; rewrite elem_of_app, !list_elem_of_fmap, elem_of_seqZ; (split; [|lia]); [left|right];
      exists i; rewrite elem_of_seqZ; unfold in_buffer in Hi; (split; [done|lia]). }
  split; simpl; try done.
  - split; [done|]. intros _ x ev Hx _. by apply (Hall Dispatcher x ev).
  - rewrite Hsig. unfold word_is, m, ls, memory_init. rewrite !fmap_app. cbn [fmap list_fmap].
    set (evs := _ <$> (_ <$> check_cells k R C)). exists (length evs), (mkEvent Word true 0 ∅).
    split_and!; [|by apply list_lookup_middle|done|done].
    exact (last_store_perform ClientMain Word (mkEvent Word true 0 ∅) (mkMemory evs (λ _, ∅))).
  - intros b i Hbk Hi. by apply (last_write_init f), Hin.
  - intros b i Hbk Hi _. by apply (last_write_init f), Hin.
  - intros _ x ev Hx _ _. by apply (Hall ClientMain x ev).
Qed.

(** ** The executions *)

Lemma weak_reachable s0 x :
  session_init n s0 → buffers_ok k R C (results s0) → rtc wstep (memory_session_init k R C matrices s0) x →
  ∃ w m s, x = Runs w m ∧ rtc sstep s0 s ∧ inv s ∧ weak_inv w m s.
Proof.
  intros Hi Hb. apply (invariant_rtc _ (λ x, ∃ w m s, x = Runs w m ∧ rtc sstep s0 s ∧ inv s ∧ weak_inv w m s)).
  - intros y z (w & m & s & -> & Hr & Hinv & Hw) Hs.
    destruct (weak_step_simulated _ _ _ _ Hinv Hw Hs) as (w' & m' & s' & -> & Hr' & Hw').
    exists w', m', s'. split; [done|]. split; [by etrans|]. split; [|done].
    eapply (invariant_rtc _ inv); [|exact Hinv|exact Hr']. intros s1 s2 H1 H2. by eapply session_inv_step.
  - destruct (memory_inv_init s0 Hi Hb) as (m & -> & Hw). exists (mkWeak (queue s0) (Loops (COuter 0)) Polls), m, s0.
    split; [done|]. split; [done|]. split; [by eapply session_inv_init|done].
Qed.

Lemma cells_of_list (cs : list Z) len :
  zlen cs = len → (λ i, default 0 (zget cs i)) <$> seqZ 0 len = cs.
Proof.
  intros Hl. apply list_eq. intros i. rewrite list_lookup_fmap. destruct (decide (i < length cs)%nat) as [Hi|Hi].
  - rewrite (proj2 (lookup_seqZ 0 len i (Z.of_nat i))); [|unfold zlen in Hl; lia]. simpl. rewrite zget_of_nat.
    by destruct (lookup_lt_is_Some_2 cs i Hi) as [v ->].
  - rewrite (lookup_ge_None_2 cs) by lia. rewrite (lookup_ge_None_2 (seqZ 0 len)); [done|].
    rewrite length_seqZ. unfold zlen in Hl. lia.
Qed.

(** The values that the final check is to read: each matrix and its transpose. *)
Definition good_cells : list Z :=
  b ← seqZ 0 k; let src := default [] (zget matrices b) in src ++ transpose R C src.

Lemma check_values trs :
  (∀ b, 0 ≤ b < k → transposed R C matrices trs b) → loc_value matrices trs <$> check_cells k R C = good_cells.
Proof.
  intros Htr. unfold check_cells, good_cells.
  assert (∀ bs, (∀ b, b ∈ bs → 0 ≤ b < k) →
    loc_value matrices trs <$> (bs ≫= λ b, (Original b <$> seqZ 0 (R * C)) ++ (Transposed b <$> seqZ 0 (R * C))) =
    bs ≫= λ b, let src := default [] (zget matrices b) in src ++ transpose R C src) as Hall;
    [|apply Hall; intros b Hb%elem_of_seqZ; lia].
  induction bs as [|b bs IH]; intros Hbs; [done|]. rewrite !bind_cons, fmap_app, IH by (intros; apply Hbs; by right).
  f_equal. destruct (Htr b) as (src & Hsrc & Ht); [apply Hbs; by left|]. rewrite Hsrc. simpl.
  assert (zlen src = R * C) as Hl by (by eapply ok_matrix).
  rewrite fmap_app, <-!list_fmap_compose. f_equal.
  - etrans; [|by apply (cells_of_list src (R * C))]. apply list_fmap_ext. intros ? i _. simpl. unfold cell. by rewrite Hsrc.
  - etrans; [|apply (cells_of_list (transpose R C src) (R * C)); destruct Hok; apply zlen_transpose; nia].
    apply list_fmap_ext. intros ? i _. simpl. unfold cell. by rewrite Ht.
Qed.

Lemma final_values w m s found :
  inv s → weak_inv w m s → w_client w = Checks [] found → 0 < reps → found = good_cells.
Proof.
  intros Hinv Hw Hc Hreps. pose proof (wi_client _ _ _ Hw) as Hrel. rewrite Hc in Hrel.
  destruct Hrel as (Hcl & pre & Hpre & ->). rewrite app_nil_r in Hpre. rewrite <-Hpre. apply check_values.
  intros b Hb. apply (si_got _ _ _ _ _ _ _ Hinv); [done|]. by rewrite Hcl.
Qed.

(** ** Progress *)

Lemma worker_access_moves b t w m w' m' : worker_access R C b t w m = Some (Ok (w', m')) → w' ≠ w.
Proof.
  unfold worker_access. intros Ha ->. destruct (prog w) as [|[i|i] rest] eqn:Hp; [done| |]; injection Ha as Ha;
    (apply result_bind_Ok in Ha as (x & _ & Ha)); [destruct x|]; injection Ha as Ha _;
    apply (f_equal prog), (f_equal length) in Ha; rewrite Hp in Ha; simpl in Ha; lia.
Qed.

(** A step other than an exchange of [Wait] that fails. *)
Definition advances (w : memory_session) (m : session_memory) : Prop :=
  ∃ w' m', wstep (Runs w m) (Runs w' m') ∧ w' ≠ w.

Lemma works_advance q c m b ws s :
  inv s → weak_inv (mkWeak q c (Works b ws)) m s → advances (mkWeak q c (Works b ws)) m.
Proof.
  intros Hinv Hw. destruct (decide (Forall (λ w, prog w = []) ws)) as [Hall|Hn].
  - eexists _, _. split; [by apply weak_join|done].
  - apply not_Forall_Exists, Exists_exists in Hn as (wk & [t Ht]%list_elem_of_lookup & Hp); [|apply _].
    assert (∃ r, worker_access R C b t wk m = Some r) as [r Hacc]
      by (unfold worker_access; destruct (prog wk) as [|[]] eqn:Hwk; [by destruct Hp|by eexists..]).
    destruct (worker_weak_step _ _ _ _ _ _ _ _ _ Hinv Hw Ht Hacc) as (wk' & m' & -> & _).
    eexists _, _. split; [by eapply weak_work|]. intros [= Heq].
    apply (worker_access_moves _ _ _ _ _ _ Hacc). pose proof (lookup_lt_Some _ _ _ Ht) as Hlt.
    apply (f_equal (.!! t)) in Heq. rewrite list_lookup_insert_eq in Heq by done. congruence.
Qed.

Lemma dispatcher_advances w m s :
  inv s → weak_inv w m s → server s ≠ SPoll → advances w m.
Proof.
  destruct w as [q c sv]. intros Hinv Hw Hs. pose proof (wi_server _ _ _ Hw) as Hsv.
  destruct sv as [|b|b ws|]; simpl in Hsv; [naive_solver| | |].
  - destruct (started []) as (ws & Hst & _). eexists _, _. split; [by apply weak_start|done].
  - by eapply works_advance.
  - destruct Hsv as [Hsw _]. destruct (working_waits s Hinv Hs) as (Hsig & _).
    pose proof (wi_word _ _ _ Hw) as Hword. rewrite Hsig in Hword.
    destruct (exchange_total Dispatcher _ 0 1 m Hword) as [m' Hx]. eexists _, _. split; [by eapply weak_wake|done].
Qed.

Lemma weak_progress w m s :
  inv s → weak_inv w m s → (∃ found, w_client w = Checks [] found) ∨ advances w m.
Proof.
  intros Hinv Hw. destruct (decide (server s = SPoll)) as [Hs|Hs]; [|right; by eapply dispatcher_advances].
  destruct w as [q c sv]. pose proof Hw as [Hq Hc Hsv Hword _ _ _]. simpl in *.
  destruct (si_phase _ _ _ _ _ _ _ Hinv) as (l & Hl & Hph). rewrite Hs in Hph.
  destruct c as [c|[|cl todo] found]; [right|left; by exists found|right].
  2:{ destruct (check_reads _ _ _ _ _ _ Hinv Hw eq_refl) as [Hr _]. eexists _, _. split; [by eapply weak_check|].
      intros [= Heq _]. apply (f_equal length) in Heq. simpl in Heq. lia. }
  destruct Hc as [Hc Hne]. rewrite Hc in Hph. destruct c as [rep|rep b|rep b|]; [| | |done].
  - destruct (decide (rep < reps)); eexists _, _; (split; [|shelve]); [by apply weak_outer_enter|apply weak_outer_exit; lia].
    Unshelve. all: done.
  - destruct Hph as (_ & -> & _). destruct (decide (b < k)) as [Hb|Hb].
    + destruct (spsc_enqueue_room n (queue s) [] b Hl) as (q1 & Hrun & _);
        [pose proof (ok_room _ _ _ _ _ _ _ _ Hok); unfold zlen; simpl; lia|]. rewrite Hq in Hrun.
      eexists _, _. split; [by eapply weak_enqueue|done].
    + eexists _, _. split; [apply weak_inner_exit; lia|done].
  - simpl in Hph. destruct Hph as [(_ & -> & _)|[(_ & _ & ?)|[(_ & _ & ? & _)|(Hsig & _)]]]; try done.
    + assert (sv = Polls) as -> by (destruct sv; simpl in Hsv; naive_solver congruence).
      destruct (spsc_dequeue_item n (queue s) b [] Hl) as (q1 & Hrun & _). rewrite Hq in Hrun.
      eexists _, _. split; [by eapply weak_dequeue|done].
    + rewrite Hsig in Hword. destruct (exchange_total ClientMain _ 1 0 m Hword) as [m' Hx].
      eexists _, _. split; [by eapply weak_wait|done].
Qed.
End facts.

(** * Properties *)

(** C19: A session works under the C++ memory model, apart from its queue.  All
    values are read from that memory, cell by cell; the workers are threads of their
    own; the queue is an ideal one that hands over the indices and orders nothing
    else, because the accesses of the program's own queue race, as [SeqLockAtomics]
    shows.  When the tile size divides both dimensions and there is at least one
    worker, no execution has a data race on a matrix or leaves a buffer: the exchanges
    of [Wake] and [Wait] and the starts and the joins of the workers order all plain
    accesses.  Every execution is one of the sequentially consistent session, whose
    matrices and results are what the memory holds.  Until the client has read all
    cells there is a step other than a failing exchange of [Wait], and after at least
    one repetition the values it has read are, matrix by matrix, those of the matrix
    and of its transpose. *)
Theorem session_weak_memory {Q} `{SpscLaws Q} k reps R C T N matrices n s0 x :
  session_ok k reps R C T N matrices n → session_init n s0 → buffers_ok k R C (results s0) →
  rtc (memory_step k reps R C T N) (memory_session_init k R C matrices s0) x →
  ∃ w m, x = Runs w m ∧
    (∃ s, rtc (session_step k reps R C T N matrices) s0 s ∧ queue s = w_queue w ∧
       (∀ c, w_client w = Loops c → client s = c) ∧
       ∀ b i, 0 ≤ b < k → in_buffer R C i →
         last_write (Original b i) m = Some (cell matrices b i) ∧
         ((∀ ws, w_server w ≠ Works b ws) → last_write (Transposed b i) m = Some (cell (results s) b i))) ∧
    (∀ found, w_client w = Checks [] found → 0 < reps → found = good_cells k R C matrices) ∧
    ((∃ found, w_client w = Checks [] found) ∨ advances k reps R C T N w m).
Proof.
  intros Hok Hi Hb Hr.
  destruct (weak_reachable k reps R C T N matrices n Hok s0 x Hi Hb Hr) as (w & m & s & -> & Hrs & Hinv & Hw).
  exists w, m. split; [done|]. split_and!.
  - exists s. split; [done|]. split; [apply Hw|]. split.
    + intros c Hc. pose proof (wi_client _ _ _ _ _ _ _ _ _ Hw) as Hrel. rewrite Hc in Hrel. apply Hrel.
    + intros b i Hbk Hin. split; [by apply (wi_originals _ _ _ _ _ _ _ _ _ Hw)|]. intros Hne.
      by apply (wi_results _ _ _ _ _ _ _ _ _ Hw).
  - intros found Hc Hreps. by eapply (final_values k reps R C T N matrices n Hok w m s).
  - by eapply weak_progress.
Qed.

(** ** An execution *)

(** The next step of the dispatcher, with its first worker, or of the client. *)
Section schedule.
Context {Q : Type} `{Spsc Q} (k reps R C T N : Z).

Definition dispatcher_next (q : Q) (c : main_pc) (sv : call_pc) (m : session_memory) : option memory_state :=
  match sv with
  | Polls =>
      match spsc_dequeue q with Ok (Some b, q') => Some (Runs (mkWeak q' c (Starts b)) m) | _ => None end
  | Starts b =>
      match tiled_start R C T N [] with
      | Ok (Running ws []) => Some (Runs (mkWeak q c (Works b ws)) (start_workers (length ws) m))
      | _ => None
      end
  | Works b ws =>
      if decide (Forall (λ w, prog w = []) ws) then Some (Runs (mkWeak q c Wakes) (join_workers (length ws) m)) else
      w ← ws !! 0%nat;
      match worker_access R C b 0 w m with
      | Some (Ok (w', m')) => Some (Runs (mkWeak q c (Works b (<[0%nat := w']> ws))) m')
      | _ => None
      end
  | Wakes => '(_, m') ← exchange Dispatcher Word 0 1 m; Some (Runs (mkWeak q c Polls) m')
  end.

Definition client_next (q : Q) (c : main_pc) (sv : call_pc) (m : session_memory) : option memory_state :=
  match c with
  | Loops (COuter rep) =>
      Some (if decide (rep < reps) then Runs (mkWeak q (Loops (CInner rep 0)) sv) m
            else Runs (mkWeak q (Checks (check_cells k R C) []) sv) m)
  | Loops (CInner rep b) =>
      if decide (b < k) then
        match spsc_enqueue q b with Ok (_, q') => Some (Runs (mkWeak q' (Loops (CWait rep b)) sv) m) | _ => None end
      else Some (Runs (mkWeak q (Loops (COuter (u32 (rep + 1)))) sv) m)
  | Loops (CWait rep b) =>
      '(ok, m') ← exchange ClientMain Word 1 0 m;
      Some (Runs (mkWeak q (Loops (if ok : bool then CInner rep (b + 1) else CWait rep b)) sv) m')
  | Loops CCheck | Checks [] _ => None
  | Checks (l :: todo) found =>
      match plain_read ClientMain l m with
      | Ok (v, m') => Some (Runs (mkWeak q (Checks todo (found ++ [v])) sv) m')
      | _ => None
      end
  end.

Lemma dispatcher_next_step q c sv m x :
  dispatcher_next q c sv m = Some x → memory_step k reps R C T N (Runs (mkWeak q c sv) m) x.
Proof.
  unfold dispatcher_next. intros Hx. destruct sv as [|b|b ws|].
  - destruct (spsc_dequeue q) as [[[b|] q']| | |] eqn:Hd; try done. injection Hx as <-. by apply weak_dequeue.
  - destruct (tiled_start R C T N []) as [[ws [|]|]| | |] eqn:Hs; try done. injection Hx as <-. by apply weak_start.
  - case_decide; [injection Hx as <-; by apply weak_join|]. destruct (ws !! 0%nat) as [w|] eqn:Hw; [|done]. simpl in Hx.
    destruct (worker_access R C b 0 w m) as [[[w' m']| | |]|] eqn:Ha; try done. injection Hx as <-. by eapply weak_work.
  - destruct (exchange Dispatcher Word 0 1 m) as [[ok m']|] eqn:He; [|done]. injection Hx as <-. by eapply weak_wake.
Qed.

Lemma client_next_step q c sv m x :
  client_next q c sv m = Some x → memory_step k reps R C T N (Runs (mkWeak q c sv) m) x.
Proof.
  unfold client_next. intros Hx. destruct c as [[rep|rep b|rep b|]|[|l todo] found]; try done.
  - injection Hx as <-. case_decide; [by apply weak_outer_enter|apply weak_outer_exit; lia].
  - case_decide; [|injection Hx as <-; apply weak_inner_exit; lia].
    destruct (spsc_enqueue q b) as [[ok q']| | |] eqn:He; try done. injection Hx as <-. by eapply weak_enqueue.
  - destruct (exchange ClientMain Word 1 0 m) as [[ok m']|] eqn:He; [|done]. injection Hx as <-. by apply weak_wait.
  - destruct (plain_read ClientMain l m) as [[v m']| | |] eqn:Hr; try done. injection Hx as <-. by apply weak_check.
Qed.

Fixpoint schedule (fuel : nat) (x : memory_state) : memory_state :=
  match fuel, x with
  | S fuel', Runs (mkWeak q c sv) m =>
      match dispatcher_next q c sv m with
      | Some y => schedule fuel' y
      | None => match client_next q c sv m with Some y => schedule fuel' y | None => x end
      end
  | _, _ => x
  end.

Lemma schedule_steps fuel x : rtc (memory_step k reps R C T N) x (schedule fuel x).
Proof.
  revert x. induction fuel as [|fuel IH]; intros [[q c sv] m|]; simpl; try done.
  destruct (dispatcher_next q c sv m) as [y|] eqn:Hd; [eapply rtc_l; [by eapply dispatcher_next_step|apply IH]|].
  destruct (client_next q c sv m) as [y|] eqn:Hc; [|done]. eapply rtc_l; [by eapply client_next_step|apply IH].
Qed.
End schedule.

(** One matrix of 2 by 2 cells, with one worker. *)
Definition demo_end : memory_state :=
  schedule 1 1 2 2 2 1 40 (memory_session_init 1 2 2 [[1; 2; 3; 4]] demo_session).

Lemma session_weak_memory_witness :
  ∃ w m found, demo_end = Runs w m ∧ w_client w = Checks [] found ∧ found = [1; 2; 3; 4; 1; 3; 2; 4] ∧
    found = good_cells 1 2 2 [[1; 2; 3; 4]].
Proof.
  destruct (session_weak_memory 1 1 2 2 2 1 [[1; 2; 3; 4]] 15 demo_session demo_end demo_session_ok)
    as (w & m & Hx & _ & Hfound & _).
  - split; [exact demo_queue_empty|split_and!; reflexivity].
  - exact demo_buffers_ok.
  - apply schedule_steps.
  - assert (match demo_end with Runs w _ => w_client w = Checks [] [1; 2; 3; 4; 1; 3; 2; 4] | Broken => False end) as Hend
      by (vm_compute; reflexivity).
    rewrite Hx in Hend. exists w, m, [1; 2; 3; 4; 1; 3; 2; 4]. split; [exact Hx|]. split; [exact Hend|].
    split; [reflexivity|]. apply Hfound; [exact Hend|lia].
Defined.
