(* ===== verification/SessionQueue.v ===== *)
(** A client's session with the accesses of the queue as steps of their own: the
    loops of [System], in which client and dispatcher are inside [Enqueue] and
    [Dequeue] of [SeqLock] at the same time.  [System] has one step per operation;
    here it is shown that this loses nothing.  The futex is the semaphore of
    [System]. *)

From S2P Require Import Prelude TiledTranspose SpscQueue SeqLock System.
#[local] Open Scope Z_scope.

(** * The code *)

Record fine_session := mkFine {
  shared : QueueData;
  enqueuing : producer;
  dequeuing : consumer;
  word : bool;
  transposes : list (list Z);
  client_at : client_pc;
  dispatcher_at : worker_pc
}.

Inductive fine_state := FRun (s : fine_session) | FFault.

(** [Enqueue] has returned, and [Dequeue], with these results. *)
Definition client_after (p : producer) (repetition bufferIndex : Z) : client_pc :=
  match p with PIdle => CWait repetition bufferIndex | _ => CInner repetition bufferIndex end.
Definition dispatcher_after (e : option queue_event) : worker_pc :=
  match e with Some (EvDeq bufferIndex) => STranspose bufferIndex | _ => SPoll end.

Section code.
Context (mask k requestRepetitions rowCount columnCount tileSize numWorkerThreads : Z).
Context (matrices : list (list Z)).

Inductive fine_step : fine_state → fine_state → Prop :=
  (** The client. *)
  | fine_outer_enter q p c w tr s rep :
      rep < requestRepetitions →
      fine_step (FRun (mkFine q p c w tr (COuter rep) s)) (FRun (mkFine q p c w tr (CInner rep 0) s))
  | fine_outer_exit q p c w tr s rep :
      requestRepetitions ≤ rep →
      fine_step (FRun (mkFine q p c w tr (COuter rep) s)) (FRun (mkFine q p c w tr CCheck s))
  | fine_enqueue_call q c w tr s rep b :
      b < k →
      fine_step (FRun (mkFine q PIdle c w tr (CInner rep b) s)) (FRun (mkFine q (PLoaded b (head q)) c w tr (CInner rep b) s))
  | fine_enqueue_access q q' p p' c w tr s rep b e :
      producer_step mask p q = Some (Ok (p', q', e)) →
      fine_step (FRun (mkFine q p c w tr (CInner rep b) s)) (FRun (mkFine q' p' c w tr (client_after p' rep b) s))
  | fine_enqueue_fault q p c w tr s rep b :
      producer_step mask p q = Some Undef → fine_step (FRun (mkFine q p c w tr (CInner rep b) s)) FFault
  | fine_inner_exit q c w tr s rep b :
      k ≤ b →
      fine_step (FRun (mkFine q PIdle c w tr (CInner rep b) s)) (FRun (mkFine q PIdle c w tr (COuter (u32 (rep + 1))) s))
  | fine_wait_returns q p c tr s rep b :
      fine_step (FRun (mkFine q p c true tr (CWait rep b) s)) (FRun (mkFine q p c false tr (CInner rep (b + 1)) s))
  (** The dispatcher. *)
  | fine_dequeue_call q p w tr c :
      fine_step (FRun (mkFine q p CIdle w tr c SPoll)) (FRun (mkFine q p (CHead (head q)) w tr c SPoll))
  | fine_dequeue_access q q' p d d' w tr c e :
      consumer_step mask d q = Some (Ok (d', q', e)) →
      fine_step (FRun (mkFine q p d w tr c SPoll)) (FRun (mkFine q' p d' w tr c (dispatcher_after e)))
  | fine_dequeue_fault q p d w tr c :
      consumer_step mask d q = Some Undef → fine_step (FRun (mkFine q p d w tr c SPoll)) FFault
  | fine_transpose q p d w tr c b src dst out :
      zget matrices b = Some src → zget tr b = Some dst →
      tiled_returns src dst rowCount columnCount tileSize numWorkerThreads out →
      fine_step (FRun (mkFine q p d w tr c (STranspose b))) (FRun (mkFine q p d w (zset tr b out) c SWake))
  | fine_wake q p d w tr c :
      fine_step (FRun (mkFine q p d w tr c SWake)) (FRun (mkFine q p d true tr c SPoll)).
End code.

(** The state after the subscription, with a queue of [cap] places. *)
Definition fine_init (cap : Z) (trs : list (list Z)) : fine_session :=
  mkFine (mkQueueData 0 0 0 (replicate (Z.to_nat cap) 0)) PIdle CIdle false trs (COuter 0) SPoll.

(** * The session of [System] simulates it *)

Section simulation.
Context {Q : Type} `{SpscLaws Q}.
Context (k reps R C T N : Z) (matrices : list (list Z)) (cap : Z).
Hypothesis Hcap : valid_capacity cap.

Abbreviation fstep := (fine_step (cap - 1) k reps R C T N matrices).
Abbreviation step := (session_step k reps R C T N matrices).

#[local] Arguments seqlock_rel : simpl never.

(** In [System] the request is made when the item becomes visible. *)
Definition committed (p : producer) (c : client_pc) : client_pc :=
  match p, c with PPublished, CInner rep b => CWait rep b | _, _ => c end.

(** Only the inner loop calls [Enqueue]. *)
Definition calls (p : producer) (c : client_pc) : Prop :=
  match p with
  | PIdle => True
  | PLoaded b _ | PChecked b _ | PLocked b _ | PWritten b _ => b < k ∧ ∃ rep, c = CInner rep b
  | PPublished => ∃ rep b, c = CInner rep b
  end.

(** The accesses left of a call of [Enqueue]. *)
Definition stage (p : producer) (c : client_pc) : nat :=
  match p with
  | PIdle => match c with CInner _ _ => 6 | _ => 0 end
  | PLoaded _ _ => 5
  | PChecked _ _ => 4
  | PLocked _ _ => 3
  | PWritten _ _ => 2
  | PPublished => 1
  end.

Record fine_rel (s : fine_session) (a : session Q) : Prop := {
  fr_queue : ∃ l o, seqlock_rel cap (SRun (enqueuing s) (dequeuing s) (shared s)) (l, o) ∧
    spsc_contents (cap - 1) (queue a) l;
  fr_word : signalled a = word s;
  fr_results : results a = transposes s;
  fr_server : System.server a = dispatcher_at s;
  fr_client : client a = committed (enqueuing s) (client_at s);
  fr_calls : calls (enqueuing s) (client_at s);
  fr_dequeuing : dequeuing s ≠ CIdle → dispatcher_at s = SPoll
}.

Lemma calls_idle p c : calls p c → (∀ rep b, c ≠ CInner rep b) → p = PIdle.
Proof. intros Hp Hc. destruct p; simpl in Hp; naive_solver. Qed.

Lemma producer_simulated q q' p p' d w tr s rep b e a :
  fine_rel (mkFine q p d w tr (CInner rep b) s) a → producer_step (cap - 1) p q = Some (Ok (p', q', e)) →
  ∃ a', fine_rel (mkFine q' p' d w tr (client_after p' rep b) s) a' ∧
    (step a a' ∨ a' = a ∧ (stage p' (client_after p' rep b) < stage p (CInner rep b))%nat).
Proof.
  intros [(l & o & Hrel & Hq) Hw Htr Hs Hc Hcalls Hd] Hp. simpl in *.
  destruct (seq_producer_step_sim cap Hcap _ _ _ _ _ Hrel Hp) as (p1 & q1 & e1 & [l' o'] & [= <- <- <-] & He & Hrel').
  apply seen_effect in He. destruct a as [aq aw atr ac as']. simpl in *. subst aw atr as' ac.
  destruct p as [|x h|x h|x h|x n|]; simpl in Hp, Hcalls; try done.
  - destruct Hcalls as [Hx [rep' [= -> ->]]]. case_decide; injection Hp as <- <- <-; simpl in *.
    + destruct He as [-> Hfull]. exists (mkSession aq w tr (CWait rep' x) s). split; [by split; eauto|].
      left. eapply inner_enqueue; [done|]. by eapply spsc_enqueue_full.
    + subst l'. eexists. split; [|right; split; [reflexivity|simpl; lia]]. split; simpl; eauto.
  - destruct Hcalls as [Hx [rep' [= -> ->]]]. injection Hp as <- <- <-. simpl in *. subst l'.
    eexists. split; [|right; split; [reflexivity|simpl; lia]]. split; simpl; eauto.
  - destruct Hcalls as [Hx [rep' [= -> ->]]]. destruct (store (buffer q) h x); simpl in Hp; try done.
    injection Hp as <- <- <-. simpl in *. subst l'. eexists. split; [|right; split; [reflexivity|simpl; lia]]. split; simpl; eauto.
  - destruct Hcalls as [Hx [rep' [= -> ->]]]. injection Hp as <- <- <-. simpl in *. destruct He as [-> Hroom].
    destruct (spsc_enqueue_room _ _ _ x Hq Hroom) as (aq' & Henq & Hq').
    exists (mkSession aq' w tr (CWait rep' x) s). split; [split; simpl; eauto|]. left. by eapply inner_enqueue.
  - injection Hp as <- <- <-. simpl in *. subst l'. eexists. split; [|right; split; [reflexivity|simpl; lia]]. split; simpl; eauto.
Qed.

Lemma consumer_simulated q q' p d d' w tr c e a :
  fine_rel (mkFine q p d w tr c SPoll) a → consumer_step (cap - 1) d q = Some (Ok (d', q', e)) →
  ∃ a', fine_rel (mkFine q' p d' w tr c (dispatcher_after e)) a' ∧ (step a a' ∨ a' = a).
Proof.
  intros [(l & o & Hrel & Hq) Hw Htr Hs Hc Hcalls Hd] Hstep. simpl in *.
  destruct (seq_consumer_step_sim cap Hcap _ _ _ _ _ Hrel Hstep) as (d1 & q1 & e1 & [l' o'] & [= <- <- <-] & He & Hrel').
  apply seen_effect in He. destruct a as [aq aw atr ac as']. simpl in *. subst aw atr as' ac.
  destruct e as [[x|x|x| |]|]; simpl in *; try subst l';
    try (eexists; split; [|by right]; split; simpl; by eauto).
  - exfalso. destruct d; simpl in Hstep; try done; repeat case_decide; try destruct (load _ _); simpl in *; simplify_eq.
  - exfalso. destruct d; simpl in Hstep; try done; repeat case_decide; try destruct (load _ _); simpl in *; simplify_eq.
  - subst l. destruct (spsc_dequeue_item _ _ _ _ Hq) as (aq' & Hdeq & Hq').
    exists (mkSession aq' w tr (committed p c) (STranspose x)). split; [|left; by eapply poll_request].
    split; simpl; eauto. intros Hne. destruct d; simpl in Hstep; repeat case_decide; try destruct (load _ _); simpl in *; by simplify_eq.
Qed.

Lemma call_keeps s s' : seqlock_step (cap - 1) s None s' → ∀ l o, seqlock_rel cap s (l, o) → ∃ o', seqlock_rel cap s' (l, o').
Proof.
  intros Hs l o Hl. destruct (seqlock_simulation cap Hcap _ _ _ _ Hl Hs) as ([l' o'] & He & Hl').
  apply seen_quiet in He. simpl in He. subst l'. by exists o'.
Qed.

(** The other steps change no item; the calls and the queue's positions follow. *)
Lemma same_items s s' a a' :
  (∀ l o, seqlock_rel cap (SRun (enqueuing s) (dequeuing s) (shared s)) (l, o) →
     ∃ o', seqlock_rel cap (SRun (enqueuing s') (dequeuing s') (shared s')) (l, o')) →
  queue a' = queue a → signalled a' = word s' → results a' = transposes s' → System.server a' = dispatcher_at s' →
  client a' = committed (enqueuing s') (client_at s') → calls (enqueuing s') (client_at s') →
  (dequeuing s' ≠ CIdle → dispatcher_at s' = SPoll) → fine_rel s a → fine_rel s' a'.
Proof.
  intros Hrel Hqa ? ? ? ? ? ? [(l & o & Hl & Hq) _ _ _ _ _ _]. split; try done.
  destruct (Hrel l o Hl) as [o' Hl']. exists l, o'. by rewrite Hqa.
Qed.

Lemma fine_simulated s x a :
  fine_rel s a → fstep (FRun s) x →
  ∃ s' a', x = FRun s' ∧ fine_rel s' a' ∧
    (step a a' ∨ a' = a ∧
      ((stage (enqueuing s') (client_at s') < stage (enqueuing s) (client_at s))%nat ∨
       client_at s' = client_at s ∧ enqueuing s' = enqueuing s)).
Proof.
  intros Hrel Hs. pose proof Hrel as [(l & o & Hl & Hq) Hw Htr Hsv Hc Hcalls Hd].
  destruct a as [aq aw atr ac as']. simpl in Hw, Htr, Hsv, Hc, Hq. subst aw atr as' ac.
  inversion Hs as
    [q p c w tr sp rep Hrep|q p c w tr sp rep Hrep|q c w tr sp rep b Hb|q q' p p' c w tr sp rep b e Hp|q p c w tr sp rep b Hp
    |q c w tr sp rep b Hb|q p c tr sp rep b|q p w tr c|q q' p d d' w tr c e Hd'|q p d w tr c Hd'
    |q p d w tr c b src dst out Hsrc Hdst Hret|q p d w tr c]; subst; simpl in Hl, Hq, Hrel, Hcalls, Hd;
    try (apply calls_idle in Hcalls as ->; [|done]).
  - eexists _, _. split; [done|]. split; [|left; by apply outer_enter]. eapply same_items, Hrel; simpl; eauto.
  - eexists _, _. split; [done|]. split; [|left; by apply outer_exit]. eapply same_items, Hrel; simpl; eauto.
  - eexists _, _. split; [done|]. split; [|right; split; [reflexivity|left; simpl; lia]]. eapply same_items, Hrel; simpl; eauto.
    apply call_keeps, enqueue_call.
  - destruct (producer_simulated _ _ _ _ _ _ _ _ _ _ _ _ Hrel Hp) as (a' & ? & ?). eexists _, a'. naive_solver.
  - exfalso. destruct (seq_producer_step_sim cap Hcap _ _ _ _ _ Hl Hp) as (? & ? & ? & ? & ? & _). done.
  - eexists _, _. split; [done|]. split; [|left; by apply inner_exit]. eapply same_items, Hrel; simpl; eauto.
  - eexists _, _. split; [done|]. split; [|left; by apply wait_returns]. eapply same_items, Hrel; simpl; eauto.
  - eexists _, _. split; [done|]. split; [|right; split; [reflexivity|by right]]. eapply same_items, Hrel; simpl; eauto.
    apply call_keeps, dequeue_call.
  - destruct (consumer_simulated _ _ _ _ _ _ _ _ _ _ Hrel Hd') as (a' & ? & ?). eexists _, a'. naive_solver.
  - exfalso. destruct (seq_consumer_step_sim cap Hcap _ _ _ _ _ Hl Hd') as (? & ? & ? & ? & ? & _). done.
  - eexists _, _. split; [done|]. split; [|left; by eapply do_transpose]. eapply same_items, Hrel; simpl; eauto.
    by intros ?%Hd.
  - eexists _, _. split; [done|]. split; [|left; by apply do_wake]. eapply same_items, Hrel; simpl; eauto.
Qed.
(** * Both together *)

Context (n : Z).
Hypothesis Hn : n = cap - 1.
Hypothesis Hok : session_ok k reps R C T N matrices n.

Definition fine_inv (x : fine_state) : Prop :=
  match x with
  | FRun s => ∃ a, fine_rel s a ∧ session_inv k reps R C matrices n a
  | FFault => False
  end.

Lemma fine_inv_step x x' : fine_inv x → fstep x x' → fine_inv x'.
Proof.
  destruct x as [s|]; [|done]. intros (a & Hrel & Hinv) Hs.
  destruct (fine_simulated _ _ _ Hrel Hs) as (s' & a' & -> & Hrel' & [Hstep|[-> _]]); [|by exists a].
  exists a'. split; [done|]. by eapply session_inv_step.
Qed.

Lemma fine_inv_init a trs :
  session_init n a → results a = trs → buffers_ok k R C trs → fine_inv (FRun (fine_init cap trs)).
Proof.
  intros Hi <- Hb. exists a. split; [|by eapply session_inv_init]. destruct Hi as (Hq & Hw & Hc & Hs).
  split; try done. exists [], false. split; [by apply seqlock_rel_init|by rewrite <-Hn].
Qed.

Lemma producer_idle p : p = PIdle ∨ p ≠ PIdle.
Proof. destruct p; (by left) || by right. Qed.
Lemma consumer_idle d : d = CIdle ∨ d ≠ CIdle.
Proof. destruct d; (by left) || by right. Qed.

(** ** The client can go on *)

Definition waiting (s : fine_session) : Prop := (∃ rep b, client_at s = CWait rep b) ∧ word s = false.

Lemma client_goes_on s :
  fine_inv (FRun s) → client_at s ≠ CCheck → ¬ waiting s →
  ∃ s', fstep (FRun s) (FRun s') ∧ (client_at s' ≠ client_at s ∨ enqueuing s' ≠ enqueuing s).
Proof.
  intros (a & [(l & o & Hl & _) _ _ _ _ Hcalls _] & _) Hc Hw. destruct s as [q p d w tr c s]. simpl in *.
  destruct c as [rep|rep b|rep b|]; [| | |done].
  - destruct (decide (rep < reps)); eexists.
    + split; [by apply fine_outer_enter|left; discriminate].
    + split; [apply fine_outer_exit; lia|left; discriminate].
  - destruct (producer_idle p) as [->|Hp].
    + destruct (decide (b < k)); eexists.
      * split; [by apply fine_enqueue_call|right; discriminate].
      * split; [apply fine_inner_exit; lia|left; discriminate].
    + assert (∃ r, producer_step (cap - 1) p q = Some r) as [r Hr].
      { destruct p; simpl; try done; repeat case_decide; by eexists. }
      destruct (seq_producer_step_sim cap Hcap _ _ _ _ _ Hl Hr) as (p' & q' & e & _ & -> & _).
      eexists. split; [by eapply fine_enqueue_access|]. simpl. right. intros ->.
      destruct p; simpl in Hr; repeat case_decide; try destruct (store _ _ _); simpl in *; simplify_eq.
  - destruct w; [|destruct Hw; by split; [eauto|]].
    eexists. split; [by apply fine_wait_returns|left; discriminate].
Qed.

(** ** The dispatcher answers *)

(** The steps that are left until the client is woken, at most ten. *)
Definition wait_measure (s : fine_session) : nat :=
  match dispatcher_at s with
  | SPoll =>
      match dequeuing s with
      | CIdle => 8
      | CHead h => if decide (tail (shared s) = h) then 9 else 7
      | CLoaded _ => 6
      | CSeq _ seqStart => if decide (seqStart = seq (shared s)) then 5 else 10
      | CRead _ seqStart _ => if decide (seqStart = seq (shared s)) then 4 else 9
      | CValid _ _ => 3
      end
  | STranspose _ => 2
  | SWake => 1
  end.

Lemma wait_measure_range s : (1 ≤ wait_measure s ≤ 10)%nat.
Proof. unfold wait_measure. destruct (dispatcher_at s), (dequeuing s); repeat case_decide; lia. Qed.

(** While the client waits, [Enqueue] has returned, and its item is in the queue until
    the dispatcher takes it. *)
Lemma waiting_queue s :
  fine_inv (FRun s) → waiting s →
  enqueuing s = PIdle ∧ seq (shared s) mod 2 = 0 ∧
  (dispatcher_at s = SPoll → tail (shared s) ≠ head (shared s)).
Proof.
  intros (a & [(l & o & (Hh & _ & _ & Hpar) & Hq) Hwd Htr Hs Hc Hcalls _] & Hinv) ((rep & b & Hcl) & Hw).
  assert (enqueuing s = PIdle) as Hp by (eapply calls_idle; [exact Hcalls|by rewrite Hcl]).
  rewrite Hp in *. split; [done|]. split; [done|]. intros Hd.
  rewrite (holds_empty_iff _ _ _ _ _ Hh). simpl. intros ->.
  destruct (si_phase _ _ _ _ _ _ _ Hinv) as (l' & Hq' & Hph). rewrite Hc, Hcl, Hwd, Hw, Hs, Hd in Hph. simpl in Hph.
  destruct Hph as [(_ & -> & _)|[(_ & _ & ?)|[(_ & _ & ? & _)|(? & _)]]]; try done. rewrite <-Hn in Hq.
  destruct (spsc_dequeue_item _ _ _ _ Hq') as (q' & Hdeq & _). rewrite (spsc_dequeue_empty n _ Hq) in Hdeq. done.
Qed.

Lemma wait_decreases s s' :
  fine_inv (FRun s) → waiting s → fstep (FRun s) (FRun s') → waiting s' → (wait_measure s' < wait_measure s)%nat.
Proof.
  intros Hinv Hw Hs [_ Hw']. destruct (waiting_queue s Hinv Hw) as (_ & Hseq & Hne). destruct Hw as ((rep & b & Hc) & Hw).
  unfold wait_measure.
  inversion Hs as [| | |? ? ? ? ? ? ? ? ? ? ? ?| | | |q p w tr c|q q' p d d' w tr c e Hd| |q p d w tr c b' src dst out Hsrc Hdst Hret|q p d w tr c];
    subst; simpl in *; try done.
  - rewrite decide_False by (by apply Hne). lia.
  - destruct d as [|h|t|t n0|t n0 x|t x]; simpl in Hd; [done|..]; repeat case_decide;
      try destruct (load _ _); simpl in *; simplify_eq; simpl; repeat case_decide; try done; lia.
  - lia.
Qed.

Lemma dispatcher_goes_on s :
  fine_inv (FRun s) → ∃ s', fstep (FRun s) (FRun s') ∧ client_at s' = client_at s ∧ enqueuing s' = enqueuing s.
Proof.
  intros Hinv. pose proof Hinv as (a & [(l & o & Hl & _) Hwd Htr Hs Hc Hcalls Hd] & Ha).
  destruct s as [q p d w tr c s]. simpl in *. destruct s as [|b|].
  - destruct (consumer_idle d) as [->|Hne]; [eexists; split; [apply fine_dequeue_call|done]|].
    assert (∃ r, consumer_step (cap - 1) d q = Some r) as [r Hr].
    { destruct d; simpl; try done; repeat case_decide; by eexists. }
    destruct (seq_consumer_step_sim cap Hcap _ _ _ _ _ Hl Hr) as (d' & q' & e & _ & -> & _).
    eexists. split; [by eapply fine_dequeue_access|done].
  - destruct (server_progress _ _ _ _ _ _ _ _ a Hok Ha) as [[? _]|(a' & Hstep & Hcl)]; [congruence|].
    destruct Hstep; simpl in *; subst; try discriminate; try (by destruct Hcl).
    injection Hs as ->. eexists. split; [by eapply fine_transpose|done].
  - eexists. split; [apply fine_wake|done].
Qed.

(** Nothing faults. *)
Lemma fine_no_fault s : fine_inv (FRun s) → ¬ fstep (FRun s) FFault.
Proof. intros Hs Hf. exact (fine_inv_step _ _ Hs Hf). Qed.

(** ** The client's steps are bounded *)

Definition client_measure (s : fine_session) : nat :=
  7 * session_measure k reps (mkSession () (word s) (transposes s) (committed (enqueuing s) (client_at s)) (dispatcher_at s)) +
  stage (enqueuing s) (client_at s).

Lemma measure_rel s a :
  fine_rel s a → (client_measure s = 7 * session_measure k reps a + stage (enqueuing s) (client_at s))%nat.
Proof. intros [_ Hw _ Hs Hc _ _]. unfold client_measure, session_measure. simpl. by rewrite Hw, Hs, Hc. Qed.

Lemma stage_bound p c : (stage p c ≤ 6)%nat.
Proof. destruct p, c; simpl; lia. Qed.

Lemma measure_step s s' :
  fine_inv (FRun s) → fstep (FRun s) (FRun s') →
  (client_measure s' < client_measure s)%nat ∨
  client_measure s' = client_measure s ∧ client_at s' = client_at s ∧ enqueuing s' = enqueuing s.
Proof.
  intros (a & Hrel & Hinv) Hs. destruct (fine_simulated _ _ _ Hrel Hs) as (s1 & a' & [= <-] & Hrel' & Hor).
  rewrite (measure_rel _ _ Hrel), (measure_rel _ _ Hrel').
  destruct Hor as [Hstep|[-> [Hlt|[-> ->]]]]; [left|left; lia|by right].
  pose proof (session_measure_step _ _ _ _ _ _ _ _ _ _ Hok Hinv Hstep).
  pose proof (stage_bound (enqueuing s') (client_at s')). lia.
Qed.

Lemma fine_reachable a trs x :
  session_init n a → results a = trs → buffers_ok k R C trs →
  rtc fstep (FRun (fine_init cap trs)) x → fine_inv x.
Proof.
  intros Hi Ha Hb. apply invariant_rtc; [intros; by eapply fine_inv_step|by eapply fine_inv_init].
Qed.

End simulation.

(** A session of [System] to compare with. *)
Definition start (cap : Z) (trs : list (list Z)) : session SeqLockQueue :=
  mkSession (mkSeqLockQueue (cap - 1) (mkQueueData 0 0 0 (replicate (Z.to_nat cap) 0))) false trs (COuter 0) SPoll.

Lemma start_init cap trs : valid_capacity cap → session_init (cap - 1) (start cap trs).
Proof.
  intros Hcap. pose proof (valid_capacity_bounds _ Hcap). split; [|done].
  split; [done|]. rewrite Z.sub_add. split_and!; [done|done|]. apply holds_init. lia.
Qed.

(** * Examples *)

(** The session of [System]'s example.  The dispatcher calls [Dequeue] while the client
    writes, and is refused; then it takes the request. *)
Abbreviation demo_fine := (fine_step 15 1 1 2 2 2 1 [[1; 2; 3; 4]]).

Definition demo_requests : fine_session :=
  mkFine (mkQueueData 1 0 2 (replicate 16 0)) PIdle CIdle false [[0; 0; 0; 0]] (CWait 0 0) SPoll.
Definition demo_ends : fine_session :=
  mkFine (mkQueueData 1 1 2 (replicate 16 0)) PIdle CIdle false [[1; 3; 2; 4]] CCheck SPoll.

Lemma fine_run_requests : rtc (λ s s', demo_fine (FRun s) (FRun s')) (fine_init 16 [[0; 0; 0; 0]]) demo_requests.
Proof.
  eapply rtc_l; [by apply fine_outer_enter|]. eapply rtc_l; [by apply fine_enqueue_call|].
  do 4 (eapply rtc_l; [by eapply fine_enqueue_access|]).
  eapply rtc_l; [apply fine_dequeue_call|]. do 2 (eapply rtc_l; [by eapply fine_dequeue_access|]).
  eapply rtc_l; [by eapply fine_enqueue_access|]. apply rtc_refl.
Qed.

Lemma fine_run_ends : rtc (λ s s', demo_fine (FRun s) (FRun s')) demo_requests demo_ends.
Proof.
  eapply rtc_l; [apply fine_dequeue_call|]. do 5 (eapply rtc_l; [by eapply fine_dequeue_access|]).
  eapply rtc_l; [eapply (fine_transpose _ _ _ _ _ _ _ _ _ _ _ _ _ _ 0 [1; 2; 3; 4] [0; 0; 0; 0] [1; 3; 2; 4]); [done|done|]|].
  { apply tiled_returns_transpose; try done; by exists 1. }
  eapply rtc_l; [apply fine_wake|]. eapply rtc_l; [apply fine_wait_returns|].
  eapply rtc_l; [by apply fine_inner_exit|]. apply rtc_once. by apply fine_outer_exit.
Qed.

Lemma fine_run_all : rtc demo_fine (FRun (fine_init 16 [[0; 0; 0; 0]])) (FRun demo_ends).
Proof.
  assert (∀ s s', rtc (λ s s', demo_fine (FRun s) (FRun s')) s s' → rtc demo_fine (FRun s) (FRun s')) as Hlift
    by (intros s s'; apply (rtc_congruence FRun); done).
  etrans; apply Hlift; [exact fine_run_requests|exact fine_run_ends].
Qed.

(** * Properties *)

(** A session succeeds whatever the interleaving of the queue's accesses.  When
    client and dispatcher are inside [Enqueue] and [Dequeue] at the same time, no
    access leaves the queue, and if at least one repetition was asked for, the
    client's final check finds no error. *)
Theorem fine_session_succeeds cap k reps R C T N matrices trs references x :
  valid_capacity cap → session_ok k reps R C T N matrices (cap - 1) →
  buffers_ok k R C trs → buffers_ok k R C references →
  rtc (fine_step (cap - 1) k reps R C T N matrices) (FRun (fine_init cap trs)) x →
  ∃ s, x = FRun s ∧
    (client_at s = CCheck → 0 < reps → check_results k R C matrices references (transposes s) = Ok false).
Proof.
  intros Hcap Hok Hb [Hrl Href] Hr.
  assert (fine_inv k reps R C matrices cap (cap - 1) x) as Hx 
    by (by apply (fine_reachable k reps R C T N matrices cap Hcap (cap - 1) eq_refl Hok (start cap trs) trs x (start_init cap trs Hcap))).
  destruct x as [s|]; [|done]. exists s. split; [done|]. intros Hc Hpos.
  destruct Hx as (a & [_ _ Htr _ Hcl _ _] & [Hlen Hdst _ _ Hgot]). pose proof (ok_k _ _ _ _ _ _ _ _ Hok).
  destruct (check_from_spec k reps R C T N matrices (cap - 1) (Z.to_nat k) 0 references (results a) false)
    as (err & Hrun & Herr); try done; [lia|].
  unfold check_results. rewrite <-Htr, Hrun. f_equal. apply Herr. split; [done|]. intros b Hbk.
  apply Hgot; [done|]. rewrite Hcl, Hc. by destruct (enqueuing s).
Qed.

Lemma fine_session_succeeds_witness :
  ∃ s, FRun demo_ends = FRun s ∧
    (client_at s = CCheck → 0 < 1 → check_results 1 2 2 [[1; 2; 3; 4]] [[0; 0; 0; 0]] (transposes s) = Ok false).
Proof.
  apply (fine_session_succeeds 16 1 1 2 2 2 1 [[1; 2; 3; 4]] [[0; 0; 0; 0]] [[0; 0; 0; 0]] (FRun demo_ends)).
  - by exists 4.
  - exact demo_session_ok.
  - exact demo_buffers_ok.
  - exact demo_buffers_ok.
  - exact fine_run_all.
Defined.

(** C18: A session ends although its queue can refuse.  The client has at most a fixed
    number of steps; outside [Wait] it can always take the next one; and while it
    waits, the dispatcher can go on and signals after at most ten of its steps, calls
    of [Dequeue] that a write overlapped included.  The tile size divides both
    dimensions, and there is at least one worker. *)
Theorem fine_session_ends cap k reps R C T N matrices trs s :
  valid_capacity cap → session_ok k reps R C T N matrices (cap - 1) → buffers_ok k R C trs →
  let step s s' := fine_step (cap - 1) k reps R C T N matrices (FRun s) (FRun s') in
  rtc step (fine_init cap trs) s →
  (∀ s', step s s' → (client_measure k reps s' < client_measure k reps s)%nat ∨
     client_measure k reps s' = client_measure k reps s ∧ client_at s' = client_at s ∧ enqueuing s' = enqueuing s) ∧
  (client_at s ≠ CCheck → ¬ waiting s →
     ∃ s', step s s' ∧ (client_at s' ≠ client_at s ∨ enqueuing s' ≠ enqueuing s)) ∧
  (waiting s → (∃ s', step s s') ∧
     ∀ j s', nsteps (λ s s', step s s' ∧ waiting s ∧ waiting s') j s s' → (j < 10)%nat).
Proof.
  intros Hcap Hok Hb step Hr.
  assert (∀ s s', fine_inv k reps R C matrices cap (cap - 1) (FRun s) → step s s' →
    fine_inv k reps R C matrices cap (cap - 1) (FRun s')) as Hstep by (intros ? ?; by eapply fine_inv_step).
  assert (fine_inv k reps R C matrices cap (cap - 1) (FRun s)) as Hs.
  { apply (invariant_rtc step (λ s, fine_inv k reps R C matrices cap (cap - 1) (FRun s)) (fine_init cap trs)); [exact Hstep| |exact Hr].
    by apply (fine_inv_init k reps R C T N matrices cap Hcap (cap - 1) eq_refl Hok (start cap trs) trs (start_init cap trs Hcap)). }
  split_and!.
  - intros s' Hs'. by eapply measure_step.
  - intros. by eapply client_goes_on.
  - intros Hw. split.
    { destruct (dispatcher_goes_on k reps R C T N matrices cap Hcap (cap - 1) eq_refl Hok s Hs) as (s' & Hs' & _). by exists s'. } intros j s' Hj.
    pose proof (wait_measure_range s).
    assert (j ≤ wait_measure s - 1)%nat; [|lia].
    eapply (measure_nsteps _ (λ s, wait_measure s - 1)%nat (λ s, fine_inv k reps R C matrices cap (cap - 1) (FRun s))); [|exact Hs|exact Hj].
    intros s1 s2 H1 (H12 & Hw1 & Hw2). split; [by eapply Hstep|].
    pose proof (wait_measure_range s2).
    assert (wait_measure s2 < wait_measure s1)%nat; [by eapply wait_decreases|lia].
Qed.

Lemma fine_session_ends_witness :
  waiting demo_requests ∧
  ∀ j s', nsteps (λ s s', demo_fine (FRun s) (FRun s') ∧ waiting s ∧ waiting s') j demo_requests s' → (j < 10)%nat.
Proof.
  assert (waiting demo_requests) as Hw by (split; [by exists 0, 0|done]). split; [exact Hw|].
  apply (fine_session_ends 16 1 1 2 2 2 1 [[1; 2; 3; 4]] [[0; 0; 0; 0]] demo_requests).
  - by exists 4.
  - exact demo_session_ok.
  - exact demo_buffers_ok.
  - exact fine_run_requests.
  - exact Hw.
Defined.
