(* ===== verification/Service.v ===== *)
(** The whole service: the server with all its clients, from their subscriptions
    to their unsubscriptions, with the requests of every session in between.
    [Protocol] has the connections and the bank; here the loops of the clients run
    while they are in their sessions, and the dispatcher, which is one thread, turns
    to the sessions slot by slot.  A session is a [session_machine] that obeys the
    [session_laws]: [ServiceSessions] puts the sessions of [System] there, with one
    step for an operation of the queue, and [ServiceQueue] those of [SessionQueue],
    with one step for an access. *)

From S2P Require Import Prelude TiledTranspose ShmNames PosixShm SpscQueue ClientStats ClientBank Messages Server Protocol.
#[local] Open Scope Z_scope.

(** * The code *)

(** What a step of the dispatcher means for the slot it is in. *)
Inductive slot_outcome :=
  | InSlot        (** it stays there *)
  | SlotServed    (** it leaves after [Wake] *)
  | SlotEmpty.    (** it leaves, [Dequeue] having answered [false] *)

(** The session of a client, as the service sees it.  [System] has it with one step
    for an operation of the queue, [SessionQueue] with one for an access. *)
Record session_machine (X : Type) := mkMachine {
  client_move : Z → X → X → Prop;                       (** the loops of client [p] *)
  dispatcher_move : Z → X → X → slot_outcome → Prop;    (** the dispatcher, for client [p] *)
  at_check : X → Prop;                                  (** the client has left its loops *)
  in_wait : X → Prop;                                   (** it is in [Wait], not signalled *)
  has_signal : X → Prop
}.
Arguments client_move {X} _ _ _ _.
Arguments dispatcher_move {X} _ _ _ _ _.
Arguments at_check {X} _ _.
Arguments in_wait {X} _ _.
Arguments has_signal {X} _ _.

Record service (X : Type) := mkService { proto : protocol; sessions : gmap Z X }.
Arguments mkService {X} _ _.
Arguments proto {X} _.
Arguments sessions {X} _.

Section code.
Context `{PosixShm} (lock_free : bool) (cacheLine : Z) (reserve_ok : Z → bool).
Context (dims : Z → Z * Z * Z) (socket : Z → Z).
Context {X : Type} (M : session_machine X).

(** A client that unsubscribes has left its loops. *)
Definition loops_done (P P' : protocol) (ss : gmap Z X) : Prop :=
  ∀ p c c', clients P !! p = Some c → main_at c = PSession → clients P' !! p = Some c' → main_at c' = PLeft →
    ∃ sn, ss !! p = Some sn ∧ at_check M sn.

(** The statement [if (Dequeue(...))] for the slot [i] has been left. *)
Definition next_slot (i : Z) (s : server_state) : server_state :=
  mkServer (clientBank s) (validClientsBitSet s) (clientBankUpdateAvailable s) (running s) (serverPid s) (msg s)
    (DScan (i + 1)) (localValidClientsBitSet s).
Definition record_stats (i start stop : Z) (ctx : ClientContext) (s : server_state) : server_state :=
  mkServer (zset (clientBank s) i (set_stats (StopTimer stop (StartTimer start (stats ctx))) ctx))
    (validClientsBitSet s) (clientBankUpdateAvailable s) (running s) (serverPid s) (msg s) (disp s)
    (localValidClientsBitSet s).

(** The flag tells the steps of the dispatcher. *)
Inductive service_step : bool → service X → service X → Prop :=
  | protocol_moves P P' ss :
      protocol_step lock_free cacheLine reserve_ok dims socket P P' →
      disp (Protocol.server P') = disp (Protocol.server P) → loops_done P P' ss →
      service_step false (mkService P ss) (mkService P' ss)
  | client_moves P ss p c sn sn' :
      clients P !! p = Some c → main_at c = PSession → ss !! p = Some sn → client_move M p sn sn' →
      service_step false (mkService P ss) (mkService P (<[p := sn']> ss))
  | dispatcher_loops s s' e cs ss :
      (∀ i, disp s ≠ DServe i) → disp_step s e s' →
      service_step true (mkService (mkProtocol s cs) ss) (mkService (mkProtocol s' cs) ss)
  | serve_works s cs ss i ctx sn sn' :
      disp s = DServe i → zget (clientBank s) i = Some ctx → ss !! id ctx = Some sn →
      dispatcher_move M (id ctx) sn sn' InSlot →
      service_step true (mkService (mkProtocol s cs) ss) (mkService (mkProtocol s cs) (<[id ctx := sn']> ss))
  | serve_wakes s cs ss i ctx sn sn' start stop :
      disp s = DServe i → zget (clientBank s) i = Some ctx → ss !! id ctx = Some sn →
      dispatcher_move M (id ctx) sn sn' SlotServed →
      service_step true (mkService (mkProtocol s cs) ss)
        (mkService (mkProtocol (next_slot i (record_stats i start stop ctx s)) cs) (<[id ctx := sn']> ss))
  | serve_nothing s cs ss i ctx sn sn' :
      disp s = DServe i → zget (clientBank s) i = Some ctx → ss !! id ctx = Some sn →
      dispatcher_move M (id ctx) sn sn' SlotEmpty →
      service_step true (mkService (mkProtocol s cs) ss)
        (mkService (mkProtocol (next_slot i s) cs) (<[id ctx := sn']> ss)).

Definition service_rel (S S' : service X) : Prop := ∃ d, service_step d S S'.

(** The server with the clients [ps], whose sessions start in [start]. *)
Definition service_init (start : Z → X → Prop) (pid : Z) (ps : gset Z) (S : service X) : Prop :=
  proto S = protocol_init pid ps ∧ dom (sessions S) = ps ∧ ∀ p sn, sessions S !! p = Some sn → start p sn.
End code.

(** What the service relies on.  [session_good] is an invariant, [serve_cost] bounds
    the steps that are left in a slot, and [will_serve] tells whether a request that is
    waited for is taken, as it is unless the [Dequeue] under way began before it was
    made. *)
Record session_laws {X} (M : session_machine X) (ps : gset Z) (session_good : Z → X → Prop)
    (serve_cost : X → Z) (max_cost : Z) (will_serve : X → bool) : Prop := {
  client_move_good p x x' : p ∈ ps → session_good p x → client_move M p x x' → session_good p x';
  dispatcher_move_good p x x' o : p ∈ ps → session_good p x → dispatcher_move M p x x' o → session_good p x';
  dispatcher_keeps_check p x x' o : dispatcher_move M p x x' o → at_check M x → at_check M x';
  serve_cost_range x : 1 ≤ serve_cost x ≤ max_cost;
  client_move_cost p x x' : client_move M p x x' → serve_cost x' = serve_cost x;
  in_slot_cost p x x' : dispatcher_move M p x x' InSlot → serve_cost x' < serve_cost x;
  wait_blocks p x x' : in_wait M x → ¬ client_move M p x x';
  wait_not_check x : in_wait M x → ¬ at_check M x;
  wait_stays p x x' o : in_wait M x → dispatcher_move M p x x' o → in_wait M x' ∨ has_signal M x';
  served_signals p x x' : dispatcher_move M p x x' SlotServed → ¬ in_wait M x';
  empty_refused p x x' :
    p ∈ ps → session_good p x → in_wait M x → dispatcher_move M p x x' SlotEmpty →
    will_serve x = false ∧ will_serve x' = true;
  will_stays p x x' :
    p ∈ ps → session_good p x → in_wait M x → dispatcher_move M p x x' InSlot → will_serve x = true → will_serve x' = true;
  dispatcher_can_move p x : p ∈ ps → session_good p x → ∃ x' o, dispatcher_move M p x x' o
}.

(** * The invariant *)

(** Every bit is in the dispatcher's copy, or the dispatcher will be told. *)
Definition published_bits (s : server_state) : Prop :=
  ∀ j, 0 ≤ j < MAX_CLIENTS → getBit (validClientsBitSet s) j = true →
    getBit (localValidClientsBitSet s) j = true ∨ clientBankUpdateAvailable s = true ∨ msg s = MAddStore j.

Definition exit_stopped (s : server_state) : Prop := disp s = DExit → running s = false.

Lemma disp_step_moves s e s' : disp_step s e s' → disp s' ≠ disp s.
Proof. intros Hs. destruct Hs; simpl; try done; intros [= He]; lia. Qed.

Lemma disp_published s e s' :
  disp_step s e s' → handshake_of s → published_bits s → exit_stopped s →
  published_bits s' ∧ exit_stopped s'.
Proof.
  unfold published_bits, exit_stopped. intros Hs Hh Hp Hx. destruct Hs; simpl in *; split; try done.
  - by left.
  - intros j Hj Hb. left. pose proof (hs_clear _ _ _ _ _ Hh eq_refl : _ = v) as Hl. simpl in Hl. by rewrite Hl.
Qed.

Section server_facts.
Context `{PosixShmSpec} (lf : bool) (cls : Z) (ok : Z → bool).
Context (dims : Z → Z * Z * Z) (socket : Z → Z).

Lemma msg_published inp s e s' :
  msg_step lf cls ok inp s e s' → server_inv s → published_bits s → exit_stopped s →
  published_bits s' ∧ exit_stopped s'.
Proof.
  unfold published_bits, exit_stopped. intros Hs [Hh _] Hp Hx.
  pose proof (hs_slot _ _ _ _ _ Hh) as Hslot. pose proof (proj1 (hs_nonneg _ _ _ _ _ Hh)) as Hv.
  destruct Hs as [|b v u r p0 d l message fd c m n k i0 ctx0 Hproc Hmsg Hex Hidx Hbegin| | |b v u r p0 d l i0 c m n k ctx0 K K' ctx1 Hget Hrun
    |b v u r p0 d l i0 c m n k ctx0 K K' ctx1 e Hget Hrun|b v r p0 d l i0|b v u r p0 d l i0 ctx0 Hget|b v u r p0 d l i0
    | | | |b v r p0 d l i0|b v u r p0 d l i0|b v u r p0 d l i0|b v r p0 d l i0|b v u r p0 d l i0 ctx0 Hget|];
    cbn [disp running validClientsBitSet localValidClientsBitSet clientBankUpdateAvailable msg] in *;
    (split; [|done]); intros j1 Hj Hb; try (by auto);
    try (by destruct (Hp j1 Hj Hb) as [?|[?|?]]; auto).
  - destruct (Hslot i0 false eq_refl) as [Hi _]. destruct (decide (i0 = j1)) as [->|Hne]; [by auto|].
    rewrite set_other_bits in Hb by done. by destruct (Hp j1 Hj Hb) as [?|[?|?]]; auto.
  - destruct (Hslot i0 true eq_refl) as [Hi _].
    destruct (decide (i0 = j1)) as [->|Hne]; [by rewrite set_own_bit in Hb|].
    rewrite set_other_bits in Hb by done. by destruct (Hp j1 Hj Hb) as [?|[?|?]]; auto.
Qed.

(** Slot [i] is the complete slot of client [p]. *)
Definition present_at (s : server_state) (p i : Z) : Prop :=
  ∃ ctx, zget (clientBank s) i = Some ctx ∧ context_of dims socket p ctx ∧ busy (msg s) ≠ Some i.

Lemma present_at_bit s p i :
  server_inv s → present_at s p i → 0 ≤ i < MAX_CLIENTS ∧ getBit (validClientsBitSet s) i = true.
Proof.
  intros [_ Hb] (ctx & Hi & (Hsub & _) & Hbusy). split; [rewrite <-(bk_len _ _ _ Hb); by eapply zget_Some_range|].
  rewrite (bk_bits _ _ _ Hb _ _ Hi), bool_decide_false in Hsub; [by rewrite orb_false_r in Hsub|].
  intros He. apply Hbusy. by destruct (msg s).
Qed.

(** A client that stays present stays in its slot. *)
Lemma present_at_msg inp s e s' p i :
  server_inv s → msg_step lf cls ok inp s e s' → present_at s p i → has_status dims socket s' p Present →
  present_at s' p i.
Proof.
  intros Hinv Hs Hat (i' & ctx' & Hi' & Hc' & Hbusy').
  pose proof (present_at_bit s p i Hinv Hat) as [_ Hbit].
  assert (server_inv s') as [_ Hbank'] by (eapply (server_inv_step lf cls ok); [exact Hinv|by eapply by_msg]).
  destruct Hat as (ctx & Hi & Hc & Hbusy).
  assert (∃ c1, zget (clientBank s') i = Some c1 ∧ context_of dims socket p c1) as (c1 & H1 & Hc1).
  { destruct Hs as [|b v u r p0 d l message fd c m n k i0 ctx0 Hproc Hmsg Hex Hidx Hbegin| | |b v u r p0 d l i0 c m n k ctx0 K K' ctx1 Hget Hrun
    |b v u r p0 d l i0 c m n k ctx0 K K' ctx1 e Hget Hrun|b v r p0 d l i0|b v u r p0 d l i0 ctx0 Hget|b v u r p0 d l i0
    | | | |b v r p0 d l i0|b v u r p0 d l i0|b v u r p0 d l i0|b v r p0 d l i0|b v u r p0 d l i0 ctx0 Hget|];
      cbn [clientBank msg validClientsBitSet] in *; try (by exists ctx); exists ctx; rewrite zget_zset_ne; try done; intros ->;
      try (by apply Hbusy).
    apply index_to_add_Some in Hidx as (_ & ? & _). congruence. }
  destruct Hc1 as (Hsub1 & Hid1 & Hrest1), Hc' as (Hsub' & Hid' & _).
  assert (i' = i) as -> by (eapply (ids_distinct (clientBank s')); [apply Hbank'|done..|congruence]).
  by exists c1.
Qed.

Lemma present_at_disp s e s' p i : disp_step s e s' → present_at s p i → present_at s' p i.
Proof.
  intros (Hm & Hfw & _)%disp_bank_same (ctx & Hi & Hc & Hb). destruct (Hfw i ctx Hi) as (ctx' & Hi' & Hsame).
  exists ctx'. rewrite Hm. split_and!; [done|by eapply context_of_same|done].
Qed.

(** The slot the dispatcher works on keeps its client. *)
Lemma served_id_kept inp s e s' j ctx :
  server_inv s → msg_step lf cls ok inp s e s' → disp s = DServe j → zget (clientBank s) j = Some ctx →
  ∃ ctx', zget (clientBank s') j = Some ctx' ∧ id ctx' = id ctx.
Proof.
  intros [Hh Hb] Hs Hd Hj. destruct (serving_slot _ _ Hh Hd) as [Hr Hor].
  pose proof (λ i, serving_not_filling s i Hh) as Hnf.
  destruct Hs as [|b v u r p0 d l message fd c m n k i0 ctx0 Hproc Hmsg Hex Hidx Hbegin| | |b v u r p0 d l i0 c m n k ctx0 K K' ctx1 Hget Hrun
    |b v u r p0 d l i0 c m n k ctx0 K K' ctx1 e Hget Hrun|b v r p0 d l i0|b v u r p0 d l i0 ctx0 Hget|b v u r p0 d l i0
    | | | |b v r p0 d l i0|b v u r p0 d l i0|b v u r p0 d l i0|b v r p0 d l i0|b v u r p0 d l i0 ctx0 Hget|];
    cbn [clientBank msg validClientsBitSet disp] in *; subst; try (by exists ctx);
    exists ctx; rewrite zget_zset_ne; try done; intros ->; try (by specialize (Hnf j eq_refl eq_refl)).
  destruct Hor as [?|?]; [|done]. apply index_to_add_Some in Hidx as (_ & ? & _). congruence.
Qed.
End server_facts.

(** ** Who is in the bank *)

Section clients.
Context `{PosixShmSpec} (lf : bool) (cls : Z) (ok : Z → bool).
Context (dims : Z → Z * Z * Z) (socket : Z → Z) (ps : gset Z).

(** All subscribed slots are those of clients. *)
Definition known_clients (s : server_state) : Prop :=
  (∀ i ctx, zget (clientBank s) i = Some ctx → subscribed ctx = true → id ctx ∈ ps) ∧
  (∀ i c m n k, msg s = MSetup i c m n k → c ∈ ps).

Lemma msg_known inp s e s' :
  server_inv s → msg_step lf cls ok inp s e s' → (∀ fd message, inp = Some (fd, message) → senderId message ∈ ps) →
  known_clients s → known_clients s'.
Proof.
  intros Hinv Hs Hinp [Hb Hm].
  destruct Hs as [|b v u r p0 d l message fd c m n k i0 ctx0 Hproc Hmsg Hex Hidx Hbegin| | |b v u r p0 d l i0 c m n k ctx0 K K' ctx1 Hget Hrun
    |b v u r p0 d l i0 c m n k ctx0 K K' ctx1 e Hget Hrun|b v r p0 d l i0|b v u r p0 d l i0 ctx0 Hget|b v u r p0 d l i0
    | | | |b v r p0 d l i0|b v u r p0 d l i0|b v u r p0 d l i0|b v r p0 d l i0|b v u r p0 d l i0 ctx0 Hget|];
    unfold known_clients; cbn [clientBank msg] in *; try (by split).
  - split.
    + intros j ctx [[-> ->]|[_ Hj]]%zget_zset_Some Hsub; [|by eapply Hb].
      destruct (begin_context_id _ _ _ _ _ _ Hbegin) as [_ ?]. congruence.
    + intros ? ? ? ? ? [= _ <- _ _ _]. rewrite <-(sender_of_subscribe _ _ _ _ _ Hproc). by eapply Hinp.
  - destruct (setup_of_client _ i0 c m n k ctx0 Hinv eq_refl Hget) as (Hm0 & Hn0 & Hk0 & Hbegin & _).
    destruct (setup_context_post _ _ _ _ _ _ _ _ _ _ _ _ _ Hm0 Hn0 Hk0 Hbegin Hrun) as [(_ & Hid & _)|(? & ? & _)]; [|done].
    split; [|done]. intros j ctx [[-> ->]|[_ Hj]]%zget_zset_Some Hsub; [|by eapply Hb].
    rewrite Hid. by eapply Hm.
  - destruct (setup_of_client _ i0 c m n k ctx0 Hinv eq_refl Hget) as (Hm0 & Hn0 & Hk0 & Hbegin & _).
    destruct (setup_context_post _ _ _ _ _ _ _ _ _ _ _ _ _ Hm0 Hn0 Hk0 Hbegin Hrun) as [(? & _)|(? & _ & Hsub' & _)]; [done|].
    split; [|done]. intros j ctx [[-> ->]|[_ Hj]]%zget_zset_Some Hsub; [congruence|by eapply Hb].
  - split; [|done]. by intros j ctx [[-> ->]|[_ Hj]]%zget_zset_Some Hsub; [|by eapply Hb].
Qed.

Lemma disp_known s e s' : disp_step s e s' → known_clients s → known_clients s'.
Proof.
  intros (Hm & _ & Hbw)%disp_bank_same [Hb Hc]. split.
  - intros i ctx' Hi Hsub. destruct (Hbw i ctx' Hi) as (ctx & ? & Hsub' & -> & _). eapply Hb; [done|congruence].
  - rewrite Hm. exact Hc.
Qed.

(** The connections of the clients. *)
Lemma protocol_step_dom P P' :
  protocol_step lf cls ok dims socket P P' → dom (clients P') = dom (clients P).
Proof.
  intros Hs. destruct Hs as [s cs p c c' Hp _|s s' cs p c message e Hp _ _|s s' cs e _ _|s cs p c Hp _ _| |]; cbn [clients]; try done.
  - apply dom_insert_lookup_L. by eexists.
  - apply dom_insert_lookup_L. by eexists.
  - apply leibniz_equiv. intros q. rewrite !elem_of_dom. destruct e as [[]|]; simpl; try done.
    rewrite map_lookup_imap. destruct (cs !! q); simpl; [|done]. by split; eexists.
  - apply dom_insert_lookup_L. by eexists.
Qed.

Lemma protocol_step_left P P' p c' :
  protocol_step lf cls ok dims socket P P' → clients P' !! p = Some c' → main_at c' = PLeft →
  ∃ c, clients P !! p = Some c ∧ (main_at c = PLeft ∨ main_at c = PSession).
Proof.
  intros Hs Hp' Hpc.
  destruct Hs as [s cs q c c1 Hq Hs|s s' cs q c message e Hq _ _|s s' cs e _ _|s cs q c Hq Hd _| |]; cbn [clients] in *; eauto.
  - apply lookup_insert_Some in Hp' as [[-> ->]|[_ Hp']]; [|eauto]. exists c. split; [done|].
    destruct Hs; simpl in *; auto; done.
  - apply lookup_insert_Some in Hp' as [[-> <-]|[_ Hp']]; [|eauto]. exists c. auto.
  - destruct e as [[]|]; simpl in Hp'; eauto. rewrite map_lookup_imap in Hp'.
    destruct (cs !! p) as [c|]; [|done]. injection Hp' as <-. exists c. split; [done|]. left. by case_decide.
  - apply lookup_insert_Some in Hp' as [[-> <-]|[_ Hp']]; [|eauto]. simpl in Hpc. congruence.
Qed.

Lemma protocol_step_session P P' p c :
  protocol_step lf cls ok dims socket P P' → clients P !! p = Some c → main_at c = PSession →
  ∃ c', clients P' !! p = Some c' ∧ (main_at c' = PSession ∨ main_at c' = PLeft ∨ main_at c' = PDead).
Proof.
  intros Hs Hp Hpc.
  destruct Hs as [s cs q c1 c' Hq Hs|s s' cs q c1 message e Hq _ _|s s' cs e _ _|s cs q c1 Hq Hd _| |]; cbn [clients] in *; eauto.
  - destruct (decide (q = p)) as [->|Hne]; [|rewrite lookup_insert_ne by done; eauto]. rewrite lookup_insert_eq.
    exists c'. split; [done|]. assert (c1 = c) as -> by congruence. destruct Hs; simpl in *; auto; done.
  - destruct (decide (q = p)) as [->|Hne]; [|rewrite lookup_insert_ne by done; eauto]. rewrite lookup_insert_eq.
    assert (c1 = c) as -> by congruence. eauto.
  - destruct e as [[]|]; simpl; eauto. rewrite map_lookup_imap, Hp. simpl. eexists. split; [done|].
    left. by case_decide.
  - destruct (decide (q = p)) as [->|Hne]; [|rewrite lookup_insert_ne by done; eauto]. rewrite lookup_insert_eq.
    assert (c1 = c) as -> by congruence. eauto.
Qed.

(** What a step that is not the dispatcher's does to the server. *)
Inductive server_change (P : protocol) : server_state → server_state → Prop :=
  | change_none s : server_change P s s
  | change_msg inp s e s' :
      msg_step lf cls ok inp s e s' →
      (∀ fd message, inp = Some (fd, message) → ∃ p c, clients P !! p = Some c ∧ head (sent c) = Some message) →
      server_change P s s'
  | change_enter b v u r p m d l : server_change P (mkServer b v u r p m d l) (mkServer b v u false p m d l).

Lemma protocol_step_server P P' :
  protocol_step lf cls ok dims socket P P' → disp (Protocol.server P') = disp (Protocol.server P) →
  server_change P (Protocol.server P) (Protocol.server P').
Proof.
  intros Hs Hd. destruct Hs as [s cs p c c' Hp _|s s' cs p c message e Hp Hh Hs|s s' cs e Hs _|s cs p c Hp _ _|s s' cs e Hs|];
    cbn [Protocol.server clients] in *; try constructor.
  - eapply change_msg; [exact Hs|]. intros fd ? [= _ <-]. by exists p, c.
  - by eapply change_msg.
  - by apply disp_step_moves in Hs.
Qed.
End clients.

(** ** The invariant of the service *)

Section service_inv.
Context `{PosixShmSpec} (lf : bool) (cls : Z) (ok : Z → bool).
Context (dims : Z → Z * Z * Z) (socket : Z → Z) `{!Inj (=) (=) socket}.
Context {X : Type} (M : session_machine X) (ps : gset Z) (session_good : Z → X → Prop).
Context (serve_cost : X → Z) (max_cost : Z) (will_serve : X → bool).

Abbreviation step := (service_step lf cls ok dims socket M).
Abbreviation pstep := (protocol_step lf cls ok dims socket).

Record service_inv (S : service X) : Prop := {
  sv_proto : protocol_inv dims socket (proto S);
  sv_published : published_bits (Protocol.server (proto S));
  sv_exit : exit_stopped (Protocol.server (proto S));
  sv_clients : dom (clients (proto S)) = ps;
  sv_sessions : dom (sessions S) = ps;
  sv_known : known_clients ps (Protocol.server (proto S));
  sv_inv : ∀ p sn, sessions S !! p = Some sn → session_good p sn;
  sv_left : ∀ p c sn, clients (proto S) !! p = Some c → main_at c = PLeft → sessions S !! p = Some sn → at_check M sn
}.

Hypothesis laws : session_laws M ps session_good serve_cost max_cost will_serve.

(** One session takes a step. *)
Lemma service_inv_session P ss p sn sn' :
  service_inv (mkService P ss) → ss !! p = Some sn → (p ∈ ps → session_good p sn → session_good p sn') →
  (∀ c, clients P !! p = Some c → main_at c = PLeft → at_check M sn → at_check M sn') →
  service_inv (mkService P (<[p := sn']> ss)).
Proof.
  intros HS Hp Hgood Hleft.
  assert (session_good p sn') as Hinv.
  { apply Hgood; [rewrite <-(sv_sessions _ HS); by eapply elem_of_dom_2|by apply (sv_inv _ HS)]. }
  destruct HS. split; cbn [proto sessions] in *; try done.
  - by rewrite dom_insert_lookup_L.
  - intros q s' [[-> <-]|[_ Hq]]%lookup_insert_Some; [done|by eauto].
  - intros q c s' Hc Hl [[<- <-]|[_ Hq]]%lookup_insert_Some; [|by eauto].
    apply (Hleft c Hc Hl). by eapply sv_left0.
Qed.

Lemma service_inv_serves P ss p sn sn' o :
  service_inv (mkService P ss) → ss !! p = Some sn → dispatcher_move M p sn sn' o →
  service_inv (mkService P (<[p := sn']> ss)).
Proof.
  intros HS Hp Hm. eapply service_inv_session; [done..| |].
  - intros. by eapply (dispatcher_move_good _ _ _ _ _ _ laws).
  - intros _ _ _. by eapply (dispatcher_keeps_check _ _ _ _ _ _ laws).
Qed.

(** The dispatcher takes a step. *)
Lemma service_inv_disp s s' e cs ss :
  service_inv (mkService (mkProtocol s cs) ss) → disp_step s e s' → service_inv (mkService (mkProtocol s' cs) ss).
Proof.
  intros [HP Hpub Hex Hc Hss Hk Hinv Hl] Hs. cbn [proto sessions Protocol.server clients] in *.
  pose proof HP as ([Hh _] & _). destruct (disp_published s e s' Hs Hh Hpub Hex) as [Hpub' Hex'].
  split; cbn [proto sessions Protocol.server clients]; try done.
  - eapply (protocol_inv_step lf cls ok dims socket); [exact HP|by eapply by_dispatcher].
  - by eapply disp_known.
Qed.

Lemma service_inv_protocol P P' ss :
  service_inv (mkService P ss) → pstep P P' → disp (Protocol.server P') = disp (Protocol.server P) →
  loops_done M P P' ss → service_inv (mkService P' ss).
Proof.
  intros [HP Hpub Hex Hc Hss Hk Hinv Hl] Hs Hd Hdone. cbn [proto sessions Protocol.server clients] in *.
  assert ((published_bits (Protocol.server P') ∧ exit_stopped (Protocol.server P')) ∧ known_clients ps (Protocol.server P'))
    as [[? ?] ?].
  { destruct HP as (Hinv0 & _ & Hcs). destruct (protocol_step_server _ _ _ _ _ _ _ Hs Hd) as [s|inp s e s' Hm Hinp|b v u r p m d l].
    - done.
    - split; [by eapply msg_published|]. eapply msg_known; [exact Hinv0|exact Hm| |done].
      intros fd message (p & c & Hp & Hh)%Hinp. rewrite (sent_sender dims socket s p c message (Hcs p c Hp) Hh), <-Hc.
      by eapply elem_of_dom_2.
    - by split. }
  split; cbn [proto sessions]; try done.
  - by eapply protocol_inv_step.
  - by rewrite (protocol_step_dom _ _ _ _ _ _ _ Hs).
  - intros p c' sn Hp' Hpc Hp. destruct (protocol_step_left _ _ _ _ _ _ _ _ _ Hs Hp' Hpc) as (c & Hcp & [Hl'|Hse]).
    + by eapply Hl.
    + destruct (Hdone p c c' Hcp Hse Hp' Hpc) as (sn' & ? & ?). congruence.
Qed.

Lemma next_slot_step s i : disp s = DServe i → disp_step s None (next_slot i s).
Proof. destruct s. simpl. intros ->. apply serve_empty. Qed.
Lemma record_stats_step s i ctx start stop :
  disp s = DServe i → zget (clientBank s) i = Some ctx →
  disp_step s None (next_slot i (record_stats i start stop ctx s)).
Proof. destruct s. simpl. intros -> ?. by apply serve_request. Qed.

Lemma service_inv_step d S S' : service_inv S → step d S S' → service_inv S'.
Proof.
  intros HS Hs.
  destruct Hs as [P P' ss Hs Hd Hdone|P ss p c sn sn' Hc Hpc Hp Hm|s s' e cs ss _ Hs
    |s cs ss i ctx sn sn' Hd Hi Hp Hm|s cs ss i ctx sn sn' start stop Hd Hi Hp Hm|s cs ss i ctx sn sn' Hd Hi Hp Hm].
  - by eapply service_inv_protocol.
  - eapply service_inv_session; [done..| |].
    + intros. by eapply (client_move_good _ _ _ _ _ _ laws).
    + intros c' ? ?. congruence.
  - by eapply service_inv_disp.
  - by eapply service_inv_serves.
  - eapply service_inv_disp; [|by apply record_stats_step]. by eapply service_inv_serves.
  - eapply service_inv_disp; [|by apply next_slot_step]. by eapply service_inv_serves.
Qed.

Lemma service_inv_init start pid S :
  service_init start pid ps S → (∀ p sn, p ∈ ps → start p sn → session_good p sn) → service_inv S.
Proof.
  intros (HP & Hdom & Hss) Hstart.
  assert (protocol_inv dims socket (proto S)) as Hinv by (rewrite HP; apply protocol_inv_init).
  split; try done; rewrite ?HP.
  - intros j _. simpl. by rewrite getBit_0.
  - by intros [=].
  - apply dom_gset_to_gmap.
  - split; [|done]. by intros i ctx ->%zget_replicate_inv.
  - intros p sn Hp. apply Hstart; [rewrite <-Hdom; by eapply elem_of_dom_2|by apply Hss].
  - by intros p c sn [_ <-]%lookup_gset_to_gmap_Some.
Qed.

Lemma service_inv_rtc S0 S : service_inv S0 → rtc (service_rel lf cls ok dims socket M) S0 S → service_inv S.
Proof. apply invariant_rtc. intros S1 S2 H1 [d Hs]. by eapply service_inv_step. Qed.

(** * The dispatcher serves everyone *)

(** Client [p] is in [Wait] and the server is up. *)
Definition waits_for_server (p : Z) (S : service X) : Prop :=
  running (Protocol.server (proto S)) = true ∧
  (∃ c, clients (proto S) !! p = Some c ∧ main_at c = PSession) ∧
  ∃ sn, sessions S !! p = Some sn ∧ in_wait M sn.

(** What is left of the work on slot [j]. *)
Definition slot_cost (S : service X) (j : Z) : Z :=
  match zget (clientBank (Protocol.server (proto S))) j with
  | Some ctx => match sessions S !! id ctx with Some sn => serve_cost sn | None => max_cost end
  | None => max_cost
  end.

(** The steps of the dispatcher until it has left slot [i], where it finds what was
    requested before it came. *)
Definition turns_left (S : service X) (i : Z) : Z :=
  let s := Protocol.server (proto S) in
  let round := (max_cost + 1) * (i + 1) in
  let ahead j := getBit (localValidClientsBitSet s) i && bool_decide (j ≤ i) in
  match disp s with
  | DTop => 4 + round
  | DLoad => 3 + round
  | DCopy => 2 + round
  | DClear => 1 + round
  | DScan j => if ahead j then (max_cost + 1) * (i - j + 1) else (max_cost + 1) * (MAX_CLIENTS - j) + 5 + round
  | DServe j =>
      slot_cost S j +
      if ahead j then (max_cost + 1) * (i - j) else (max_cost + 1) * (MAX_CLIENTS - 1 - j) + 5 + round
  | DExit => 0
  end.

(** A second turn is needed if the [Dequeue] under way began too early. *)
Definition second_turn (sn : X) : Z := if will_serve sn then 0 else (max_cost + 1) * MAX_CLIENTS + 5.
Definition extra_turn (S : service X) (p : Z) : Z :=
  match sessions S !! p with Some sn => second_turn sn | None => 0 end.

Definition steps_left (S : service X) (p i : Z) : Z := turns_left S i + extra_turn S p.

Lemma slot_cost_range S j : 1 ≤ max_cost → 1 ≤ slot_cost S j ≤ max_cost.
Proof.
  intros Hmax. unfold slot_cost. repeat case_match; try lia. apply (serve_cost_range _ _ _ _ _ _ laws).
Qed.

Lemma turns_left_bound S i :
  1 ≤ max_cost → handshake_of (Protocol.server (proto S)) → 0 ≤ i < MAX_CLIENTS →
  0 ≤ turns_left S i ≤ (max_cost + 1) * (2 * MAX_CLIENTS) + 5.
Proof.
  intros Hmax Hh Hi. pose proof (hs_disp _ _ _ _ _ Hh) as Hd. unfold turns_left, MAX_CLIENTS in *.
  pose proof (λ j, slot_cost_range S j Hmax) as Hcost.
  destruct (disp _) as [| | | |j|j|]; try nia; [|specialize (Hcost j)];
    destruct (getBit _ i); simpl; try case_bool_decide; nia.
Qed.

Lemma extra_turn_range S p : 1 ≤ max_cost → 0 ≤ extra_turn S p ≤ (max_cost + 1) * MAX_CLIENTS + 5.
Proof. intros. unfold extra_turn, second_turn, MAX_CLIENTS. repeat case_match; lia. Qed.

Lemma waiting_slot p S :
  service_inv S → waits_for_server p S → has_status dims socket (Protocol.server (proto S)) p Present.
Proof.
  intros HS (_ & (c & Hc & Hpc) & _). destruct (sv_proto S HS) as (_ & _ & Hcs). specialize (Hcs p c Hc).
  unfold client_inv in Hcs. rewrite Hpc in Hcs. apply Hcs.
Qed.

Lemma slot_stays d S S' p i :
  service_inv S → step d S S' → waits_for_server p S' →
  present_at dims socket (Protocol.server (proto S)) p i → present_at dims socket (Protocol.server (proto S')) p i.
Proof.
  intros HS Hs Hw Hat. pose proof (service_inv_step _ _ _ HS Hs) as HS'.
  pose proof (waiting_slot _ _ HS' Hw) as Hst. clear Hw HS'. pose proof (sv_proto S HS) as (Hinv & _ & _).
  destruct Hs as [P P' ss Hs Hd Hdone|P ss p' c sn sn' Hc Hpc Hp Hs|s s' e cs ss _ Hs
    |s cs ss j ctx sn sn' Hd Hj Hp Hs|s cs ss j ctx sn sn' start stop Hd Hj Hp Hs|s cs ss j ctx sn sn' Hd Hj Hp Hs];
    cbn [proto Protocol.server] in *; try done.
  - destruct (protocol_step_server _ _ _ _ _ _ _ Hs Hd) as [s|inp s e s' Hm Hinp|b v u r p' m d l]; [done| |done].
    by eapply present_at_msg.
  - by eapply present_at_disp.
  - eapply present_at_disp; [by eapply record_stats_step|done].
Qed.

(** The other steps do not delay the dispatcher. *)
Lemma turns_other S S' i : service_inv S → step false S S' → turns_left S' i = turns_left S i.
Proof.
  intros HS Hs. inversion Hs as [P P' ss Hp Hd Hdone|P ss p c sn sn' Hc Hpc Hp Hm| | | |]; subst; unfold turns_left;
    cbn [proto].
  - pose proof (sv_proto _ HS) as (Hinv & _ & _). cbn [proto] in Hinv.
    assert (localValidClientsBitSet (Protocol.server P') = localValidClientsBitSet (Protocol.server P) ∧
      ∀ j, disp (Protocol.server P) = DServe j → slot_cost (mkService P' ss) j = slot_cost (mkService P ss) j) as [-> Hcost].
    { unfold slot_cost. cbn [proto sessions].
      destruct (protocol_step_server _ _ _ _ _ _ _ Hp Hd) as [s|inp s e s' Hm Hinp|b v u r p m d l]; [done| |done].
      split; [by destruct Hm|]. intros j Hj.
      destruct (proj2 (zget_is_Some (clientBank s) j)) as [ctx Hget].
      { destruct Hinv as [Hh Hb]. rewrite (bk_len _ _ _ Hb). by apply (serving_slot s j Hh Hj). }
      destruct (served_id_kept lf cls ok inp s e s' j ctx Hinv Hm Hj Hget) as (ctx' & -> & Hid). by rewrite Hget, Hid. }
    rewrite Hd. destruct (disp (Protocol.server P)) eqn:Hdp; try done. by rewrite Hcost.
  - destruct (disp (Protocol.server P)) as [| | | | |j|]; try done. f_equal. unfold slot_cost. cbn [proto sessions].
    destruct (zget _ j) as [ctx|]; [|done]. destruct (decide (p = id ctx)) as [->|Hne].
    + rewrite lookup_insert_eq, Hp. by eapply (client_move_cost _ _ _ _ _ _ laws).
    + by rewrite lookup_insert_ne.
Qed.

Lemma turns_loop s s' e cs ss i :
  1 ≤ max_cost → handshake_of s → published_bits s → running s = true → 0 ≤ i < MAX_CLIENTS →
  getBit (validClientsBitSet s) i = true → msg s ≠ MAddStore i → (∀ j, disp s ≠ DServe j) → disp_step s e s' →
  turns_left (mkService (mkProtocol s' cs) ss) i < turns_left (mkService (mkProtocol s cs) ss) i.
Proof.
  intros Hmax Hh Hpub Hrun Hi Hbit Hmsg Hno Hs. pose proof (hs_disp _ _ _ _ _ Hh) as Hd. specialize (Hpub i Hi Hbit).
  unfold turns_left. cbn [proto Protocol.server].
  destruct Hs as [b v u p m l|b v u p m l|b v r p m l|b v r p m l|b v u r p m l|b v u r p m l
    |b v u r p m l j Hj Hl|b v u r p m l j ctx Hj Hl Hget|b v u r p m l j Hj|b v u r p m l j|b v u r p m l j]; simpl in *;
    try (by destruct (Hno j)); try lia; try done.
  - destruct Hpub as [Hl|[?|?]]; [|done..]. rewrite Hl. simpl. rewrite bool_decide_true by lia. lia.
  - pose proof (hs_clear _ _ _ _ _ Hh eq_refl) as Hl. simpl in Hl. subst l. rewrite Hbit. simpl.
    rewrite bool_decide_true by lia. lia.
  - destruct (getBit l i) eqn:Hli; simpl; [|nia]. assert (j ≠ i) by congruence. repeat case_bool_decide; nia.
  - pose proof (slot_cost_range (mkService (mkProtocol (mkServer b v u r p m (DServe j) l) cs) ss) j Hmax).
    destruct (getBit l i); simpl; repeat case_bool_decide; unfold MAX_CLIENTS in *; nia.
  - destruct (getBit l i); simpl; repeat case_bool_decide; unfold MAX_CLIENTS in *; nia.
Qed.

(** It leaves a slot.  If this is slot [i], a whole round is ahead. *)
Lemma turns_next S S' s j i :
  1 ≤ max_cost → disp (Protocol.server (proto S)) = DServe j → 0 ≤ i < MAX_CLIENTS →
  Protocol.server (proto S') = next_slot j s →
  localValidClientsBitSet s = localValidClientsBitSet (Protocol.server (proto S)) →
  turns_left S' i < turns_left S i + if decide (j = i) then (max_cost + 1) * MAX_CLIENTS + 5 else 0.
Proof.
  intros Hmax Hd Hi Hs' Hl. pose proof (slot_cost_range S j Hmax). unfold turns_left. rewrite Hs', Hd, <-Hl. simpl.
  destruct (getBit _ i); simpl; repeat case_bool_decide; repeat case_decide; unfold MAX_CLIENTS in *; nia.
Qed.

Lemma extra_turn_own P ss p sn : extra_turn (mkService P (<[p := sn]> ss)) p = second_turn sn.
Proof. unfold extra_turn. cbn [sessions]. by rewrite lookup_insert_eq. Qed.
Lemma extra_turn_other P P' ss q sn p :
  q ≠ p → extra_turn (mkService P' (<[q := sn]> ss)) p = extra_turn (mkService P ss) p.
Proof. intros. unfold extra_turn. cbn [sessions]. by rewrite lookup_insert_ne. Qed.
Lemma extra_turn_lookup P ss p sn : ss !! p = Some sn → extra_turn (mkService P ss) p = second_turn sn.
Proof. intros Hp. unfold extra_turn. cbn [sessions]. by rewrite Hp. Qed.

(** A step in the slot of a client. *)
Lemma steps_in_slot s cs ss j ctx sn sn' p i :
  1 ≤ max_cost → service_inv (mkService (mkProtocol s cs) ss) → disp s = DServe j → zget (clientBank s) j = Some ctx →
  ss !! id ctx = Some sn → dispatcher_move M (id ctx) sn sn' InSlot → (id ctx = p → in_wait M sn) →
  steps_left (mkService (mkProtocol s cs) (<[id ctx := sn']> ss)) p i < steps_left (mkService (mkProtocol s cs) ss) p i.
Proof.
  intros Hmax HS Hd Hj Hp Hm Hw. pose proof (in_slot_cost _ _ _ _ _ _ laws _ _ _ Hm) as Hcost.
  assert (id ctx ∈ ps) as Hps by (rewrite <-(sv_sessions _ HS); by eapply elem_of_dom_2).
  pose proof (sv_inv _ HS _ _ Hp) as Hgood. unfold steps_left.
  assert (turns_left (mkService (mkProtocol s cs) (<[id ctx := sn']> ss)) i < turns_left (mkService (mkProtocol s cs) ss) i).
  { unfold turns_left. cbn [proto Protocol.server]. rewrite Hd. apply Z.add_lt_mono_r.
    unfold slot_cost. cbn [proto sessions Protocol.server]. by rewrite Hj, lookup_insert_eq, Hp. }
  destruct (decide (id ctx = p)) as [<-|Hne]; [|rewrite (extra_turn_other (mkProtocol s cs)) by done; lia].
  rewrite extra_turn_own, (extra_turn_lookup _ _ _ _ Hp). unfold second_turn. destruct (will_serve sn) eqn:Hws.
  - rewrite (will_stays _ _ _ _ _ _ laws _ _ _ Hps Hgood (Hw eq_refl) Hm Hws). lia.
  - unfold MAX_CLIENTS. destruct (will_serve sn'); lia.
Qed.

(** Leaving a slot. *)
Lemma steps_next s s0 cs ss j ctx sn sn' o p i :
  1 ≤ max_cost → service_inv (mkService (mkProtocol s cs) ss) → disp s = DServe j → zget (clientBank s) j = Some ctx →
  ss !! id ctx = Some sn → dispatcher_move M (id ctx) sn sn' o → o ≠ InSlot →
  (id ctx = p → in_wait M sn ∧ in_wait M sn') → 0 ≤ i < MAX_CLIENTS →
  (∀ c, zget (clientBank s) i = Some c → id c = p) → localValidClientsBitSet s0 = localValidClientsBitSet s →
  steps_left (mkService (mkProtocol (next_slot j s0) cs) (<[id ctx := sn']> ss)) p i <
    steps_left (mkService (mkProtocol s cs) ss) p i.
Proof.
  intros Hmax HS Hd Hj Hp Hm Ho Hw Hi Hid Hl.
  pose proof (turns_next (mkService (mkProtocol s cs) ss) (mkService (mkProtocol (next_slot j s0) cs) (<[id ctx := sn']> ss))
    s0 j i Hmax Hd Hi eq_refl Hl) as Ht. unfold steps_left. destruct (decide (id ctx = p)) as [He|Hne].
  - assert (id ctx ∈ ps) as Hps by (rewrite <-(sv_sessions _ HS); by eapply elem_of_dom_2).
    destruct (Hw He) as [Hw1 Hw2]. subst p. destruct o; [done|by destruct (served_signals _ _ _ _ _ _ laws _ _ _ Hm)|].
    destruct (empty_refused _ _ _ _ _ _ laws _ _ _ Hps (sv_inv _ HS _ _ Hp) Hw1 Hm) as [H1 H2].
    rewrite extra_turn_own, (extra_turn_lookup _ _ _ _ Hp). unfold second_turn. rewrite H1, H2.
    unfold MAX_CLIENTS in *. case_decide; lia.
  - rewrite (extra_turn_other (mkProtocol s cs)) by done. rewrite decide_False in Ht; [lia|].
    intros ->. by apply Hne, Hid.
Qed.

(** Every step of the dispatcher brings the client's turn nearer. *)
Lemma turns_disp S S' p i :
  1 ≤ max_cost → service_inv S → step true S S' → waits_for_server p S → waits_for_server p S' →
  present_at dims socket (Protocol.server (proto S)) p i → steps_left S' p i < steps_left S p i.
Proof.
  intros Hmax HS Hs Hw Hw' Hat. pose proof (sv_proto _ HS) as (Hinv & _ & _). pose proof (proj1 Hinv) as Hh.
  destruct (present_at_bit _ _ _ _ _ Hinv Hat) as [Hi Hbit]. destruct Hat as (ctxp & Hgetp & (_ & Hidp & _) & Hbusy).
  pose proof Hw as (Hrun & _ & sn1 & Hp1 & Hin). pose proof Hw' as (_ & _ & sn2 & Hp2 & Hin').
  inversion Hs as [| |s s' e cs ss Hno Hd|s cs ss j ctx sn sn' Hd Hj Hp Hm
    |s cs ss j ctx sn sn' t0 t1 Hd Hj Hp Hm|s cs ss j ctx sn sn' Hd Hj Hp Hm]; subst S S'; cbn [proto sessions Protocol.server] in *;
    try assert (id ctx = p → in_wait M sn ∧ in_wait M sn') as Hww
      by (intros <-; rewrite lookup_insert_eq in Hp2; split; congruence).
  - unfold steps_left. apply Z.add_lt_le_mono; [|apply Z.le_refl].
    eapply turns_loop; try done; [apply (sv_published _ HS)|]. intros Hms. by rewrite Hms in Hbusy.
  - eapply steps_in_slot; try done. intros Hx. by apply Hww, Hx.
  - eapply (steps_next s (record_stats j t0 t1 ctx s)); try done. intros c Hc. congruence.
  - eapply (steps_next s s); try done. intros c Hc. congruence.
Qed.

Lemma steps_other S S' p i :
  service_inv S → step false S S' → waits_for_server p S → steps_left S' p i = steps_left S p i.
Proof.
  intros HS Hs (_ & _ & sn1 & Hp1 & Hin). unfold steps_left. rewrite (turns_other _ _ _ HS Hs). f_equal.
  inversion Hs as [P P' ss Hp Hd Hdone|P ss q c sn sn' Hc Hpc Hp Hm| | | |]; subst S S'; cbn [sessions] in *; [done|].
  apply extra_turn_other. intros ->. assert (sn1 = sn) as -> by congruence.
  by eapply (wait_blocks _ _ _ _ _ _ laws).
Qed.

(** ** The dispatcher is never stuck *)

Lemma serve_can_step s cs ss i :
  service_inv (mkService (mkProtocol s cs) ss) → disp s = DServe i →
  ∃ S', step true (mkService (mkProtocol s cs) ss) S'.
Proof.
  intros HS Hd. pose proof (sv_proto _ HS) as ([Hh Hb] & _ & _). cbn [proto Protocol.server] in *.
  destruct (serving_slot _ _ Hh Hd) as [Hi Hor].
  destruct (proj2 (zget_is_Some (clientBank s) i)) as [ctx Hget]; [by rewrite (bk_len _ _ _ Hb)|].
  assert (id ctx ∈ dom ss) as [sn Hp]%elem_of_dom.
  { rewrite (sv_sessions _ HS : dom ss = ps). apply (proj1 (sv_known _ HS) i ctx Hget). by eapply bit_subscribed. }
  assert (id ctx ∈ ps) as Hps by (rewrite <-(sv_sessions _ HS); by eapply elem_of_dom_2).
  destruct (dispatcher_can_move _ _ _ _ _ _ laws _ _ Hps (sv_inv _ HS _ _ Hp)) as (sn' & [] & Hm); eexists.
  - by eapply serve_works.
  - by eapply serve_wakes with (start := 0) (stop := 0).
  - by eapply serve_nothing.
Qed.

Lemma dispatcher_can_step S :
  service_inv S → running (Protocol.server (proto S)) = true → ∃ S', step true S S'.
Proof.
  destruct S as [[s cs] ss]. intros HS Hrun. cbn [proto Protocol.server] in Hrun.
  assert ((∃ i, disp s = DServe i) ∨ ∀ i, disp s ≠ DServe i) as [[i Hd]|Hno] by (destruct (disp s); eauto; by right).
  { by eapply serve_can_step. }
  cut (∃ e s', disp_step s e s'); [intros (e & s' & Hs); eexists; by eapply dispatcher_loops|].
  pose proof (sv_proto _ HS) as ([Hh Hb] & _ & _). cbn [proto Protocol.server] in *.
  pose proof (sv_exit _ HS : disp s = DExit → running s = false) as Hx.
  pose proof (hs_disp _ _ _ _ _ Hh) as Hd. pose proof (bk_len _ _ _ Hb) as Hlen. clear HS Hh Hb.
  destruct s as [b v u r p m d l]. simpl in *. subst r. destruct d as [| | | |j|j|].
  - eexists _, _. apply top_running.
  - destruct u; eexists _, _; [apply load_update|apply load_none].
  - eexists _, _. apply copy.
  - eexists _, _. apply clear.
  - destruct (decide (j < MAX_CLIENTS)); [|eexists _, _; apply scan_end; lia].
    destruct (getBit l j) eqn:Hbit; [|eexists _, _; by apply scan_skip].
    destruct (proj2 (zget_is_Some b j)) as [ctx Hget]; [lia|]. eexists _, _. by eapply scan_serve.
  - by destruct (Hno j).
  - by specialize (Hx eq_refl).
Qed.

(** * Executions in which the client goes on waiting *)

(** An execution through states in [W], with the number of steps of the
    dispatcher. *)
Inductive run (W : service X → Prop) : nat → service X → service X → Prop :=
  | run_nil S : W S → run W 0 S S
  | run_dispatcher m S S1 S2 : W S → step true S S1 → run W m S1 S2 → run W (Datatypes.S m) S S2
  | run_other m S S1 S2 : W S → step false S S1 → run W m S1 S2 → run W m S S2.

Lemma run_start W m S S' : run W m S S' → W S.
Proof. by destruct 1. Qed.

Lemma run_turns p i m S S' :
  1 ≤ max_cost → run (waits_for_server p) m S S' → service_inv S → present_at dims socket (Protocol.server (proto S)) p i →
  Z.of_nat m ≤ steps_left S p i.
Proof.
  intros Hmax Hr. induction Hr as [S Hw|m S S1 S2 Hw Hs Hr IH|m S S1 S2 Hw Hs Hr IH]; intros HS Hat.
  - destruct (sv_proto _ HS) as (Hinv & _ & _). destruct (present_at_bit _ _ _ _ _ Hinv Hat) as [Hi _].
    pose proof (turns_left_bound S i Hmax (proj1 Hinv) Hi). pose proof (extra_turn_range S p Hmax). unfold steps_left. lia.
  - pose proof (run_start _ _ _ _ Hr) as Hw1. pose proof (turns_disp _ _ _ _ Hmax HS Hs Hw Hw1 Hat).
    assert (Z.of_nat m ≤ steps_left S1 p i); [|lia].
    apply IH; [by eapply service_inv_step|by eapply slot_stays].
  - pose proof (run_start _ _ _ _ Hr) as Hw1. rewrite <-(steps_other _ _ _ _ HS Hs Hw).
    apply IH; [by eapply service_inv_step|by eapply slot_stays].
Qed.

(** The wait of a client is bounded: by two rounds, and by a third one if it is possible
    that its request is refused. *)
Lemma wait_bounded p m S S' :
  1 ≤ max_cost → service_inv S → run (waits_for_server p) m S S' →
  Z.of_nat m ≤ (max_cost + 1) * (2 * MAX_CLIENTS) + 5 + extra_turn S p.
Proof.
  intros Hmax HS Hrun. pose proof (run_start _ _ _ _ Hrun) as Hw.
  destruct (waiting_slot p S HS Hw) as (i & ctx & Hat).
  assert (present_at dims socket (Protocol.server (proto S)) p i) as Hpres by (by exists ctx).
  destruct (sv_proto _ HS) as (Hinv & _ & _). destruct (present_at_bit _ _ _ _ _ Hinv Hpres) as [Hr' _].
  pose proof (turns_left_bound S i Hmax (proj1 Hinv) Hr').
  pose proof (run_turns p i m S S' Hmax Hrun HS Hpres). unfold steps_left in *. lia.
Qed.

(** It ends only by the signal, unless the server stops or the client is killed. *)
Lemma wait_ends d S S' p :
  step d S S' → waits_for_server p S →
  waits_for_server p S' ∨ running (Protocol.server (proto S')) = false ∨ ended p (proto S') ∨
  ∃ sn, sessions S' !! p = Some sn ∧ has_signal M sn.
Proof.
  intros Hs (Hrun & (c & Hc & Hpc) & sn & Hp & Hin).
  destruct (running (Protocol.server (proto S'))) eqn:Hrun'; [|by right; left].
  assert ((∃ c', clients (proto S') !! p = Some c' ∧ main_at c' = PSession) →
    (∃ sn', sessions S' !! p = Some sn' ∧ (in_wait M sn' ∨ has_signal M sn')) →
    waits_for_server p S' ∨ true = false ∨ ended p (proto S') ∨ ∃ sn, sessions S' !! p = Some sn ∧ has_signal M sn)
    as Hgo.
  { intros Hs1 (sn' & Hp' & [Hw|Hg]); [|by eauto 6]. left. split_and!; [done|done|]. by exists sn'. }
  assert (∀ q sn1 sn' o, sessions S !! q = Some sn1 → dispatcher_move M q sn1 sn' o →
    ∃ sn0, <[q := sn']> (sessions S) !! p = Some sn0 ∧ (in_wait M sn0 ∨ has_signal M sn0)) as Hserve.
  { intros q sn1 sn' o Hq Hm. destruct (decide (q = p)) as [->|Hne]; [|rewrite lookup_insert_ne by done; eauto].
    rewrite lookup_insert_eq. exists sn'. split; [done|]. assert (sn1 = sn) as -> by congruence.
    by eapply (wait_stays _ _ _ _ _ _ laws). }
  destruct Hs as [P P' ss Hs Hd Hdone|P ss p' c' sn1 sn' Hc' Hpc' Hp' Hm|s s' e cs ss _ Hs
    |s cs ss j ctx sn1 sn' Hd Hj Hp' Hm|s cs ss j ctx sn1 sn' start stop Hd Hj Hp' Hm|s cs ss j ctx sn1 sn' Hd Hj Hp' Hm];
    cbn [proto sessions Protocol.server clients] in *; try (by apply Hgo; eauto).
  - destruct (protocol_step_session _ _ _ _ _ _ _ _ _ Hs Hc Hpc) as (c' & Hc' & [Hpc'|[Hpc'|Hpc']]).
    + apply Hgo; eauto.
    + destruct (Hdone p c c' Hc Hpc Hc' Hpc') as (sn' & Hp' & Hch). assert (sn' = sn) as -> by congruence.
      by destruct (wait_not_check _ _ _ _ _ _ laws sn Hin).
    + right; right; left. by exists c'.
  - apply Hgo; eauto. destruct (decide (p' = p)) as [->|Hne]; [|rewrite lookup_insert_ne by done; eauto].
    assert (sn1 = sn) as -> by congruence. by destruct (wait_blocks _ _ _ _ _ _ laws _ _ _ Hin Hm).
Qed.
End service_inv.

(** * Examples *)

(** One client, number 7, with one 2 by 2 matrix on the connection 12. *)
Definition alone {X} (s : server_state) (c : client_state) (sn : X) : service X :=
  mkService (mkProtocol s {[7 := c]}) {[7 := sn]}.

Section demo.
Context {X : Type} (M : session_machine X).
Implicit Type sn : X.

Abbreviation demo_service := (service_rel true 64 (λ _, true) (λ _, (1, 1, 1)) (Z.add 5) M).

Lemma alone_client s c c' sn :
  client_step (λ _, (1, 1, 1)) 7 c c' → main_at c' ≠ PLeft ∨ at_check M sn →
  demo_service (alone s c sn) (alone s c' sn).
Proof.
  intros Hs Hl. exists false. unfold alone. apply protocol_moves; [|done|].
  - replace {[7 := c']} with (<[7 := c']> ({[7 := c]} : gmap Z client_state)) by apply insert_singleton_eq.
    eapply by_client; [apply lookup_singleton_eq|exact Hs].
  - intros p c1 c2 _ _ Hp Hpc. cbn [clients] in Hp. apply lookup_singleton_Some in Hp as [<- <-]. exists sn. split; [apply lookup_singleton_eq|by destruct Hl].
Qed.

Lemma alone_server s s' c c' sn :
  protocol_step true 64 (λ _, true) (λ _, (1, 1, 1)) (Z.add 5) (mkProtocol s {[7 := c]}) (mkProtocol s' {[7 := c']}) →
  disp s' = disp s → main_at c' ≠ PLeft → demo_service (alone s c sn) (alone s' c' sn).
Proof.
  intros Hs Hd Hc. exists false. apply protocol_moves; [by apply Hs|done|].
  intros p c1 c2 _ _ Hp Hpc. cbn [clients] in Hp. apply lookup_singleton_Some in Hp as [<- <-]. done.
Qed.

Lemma alone_works s c sn sn' :
  main_at c = PSession → client_move M 7 sn sn' → demo_service (alone s c sn) (alone s c sn').
Proof.
  intros Hc Hm. exists false. unfold alone.
  replace {[7 := sn']} with (<[7 := sn']> ({[7 := sn]} : gmap Z X)) by apply insert_singleton_eq.
  eapply client_moves; [apply lookup_singleton_eq|done|apply lookup_singleton_eq|done].
Qed.

Lemma alone_loops s s' e c sn :
  (∀ i, disp s ≠ DServe i) → disp_step s e s' → demo_service (alone s c sn) (alone s' c sn).
Proof. intros Hd Hs. exists true. by eapply dispatcher_loops. Qed.

Lemma alone_serves s c sn sn' ctx o :
  disp s = DServe 0 → zget (clientBank s) 0 = Some ctx → id ctx = 7 → dispatcher_move M 7 sn sn' o →
  demo_service (alone s c sn)
    (alone (match o with
            | InSlot => s
            | SlotServed => next_slot 0 (record_stats 0 0 0 ctx s)
            | SlotEmpty => next_slot 0 s
            end) c sn').
Proof.
  intros Hd Hget Hid Hm. exists true. unfold alone.
  replace {[7 := sn']} with (<[id ctx := sn']> ({[7 := sn]} : gmap Z X))
    by (rewrite Hid; apply insert_singleton_eq).
  rewrite <-Hid in Hm.
  destruct o; [eapply serve_works|eapply serve_wakes|eapply serve_nothing]; try done; rewrite Hid; apply lookup_singleton_eq.
Qed.

Lemma respond_at b v u r p d l i ctx e :
  zget b i = Some ctx → e = Some (EvSent (ipcContext ctx) (subscribe_response p (id ctx) (zlen b))) →
  msg_step true 64 (λ _, true) None (mkServer b v u r p (MRespond i) d l) e (mkServer b v u r p MIdle d l).
Proof. intros Hget ->. by apply respond. Qed.

(** The client subscribes. *)
Definition demo_start sn : service X := mkService (protocol_init 1 {[7]}) {[7 := sn]}.

Lemma demo_subscribed sn :
  ∃ b m l, rtc demo_service (demo_start sn)
      (alone (mkServer b 1 true true 1 m DTop l) (mkClient PSession true [] []) sn) ∧
    ∃ ctx, zget b 0 = Some ctx ∧ id ctx = 7.
Proof.
  assert (demo_start sn = alone (server_init 1) client_start sn) as ->.
  { unfold demo_start, alone, protocol_init. by rewrite gset_to_gmap_singleton. }
  eexists _, _, _. split.
  - eapply rtc_l; [apply alone_client; [by apply (send_subscribe _ 7 false [] [] (mkMessage 0 0 0 0 0) 1 1 1)|by left]|].
    eapply rtc_l.
    { eapply (alone_server _ _ _ waiting); [|shelve|done].
      set (c := mkClient PWait false _ _).
      replace {[7 := waiting]} with (<[7 := read_sent c]> ({[7 := c]} : gmap Z client_state)) by apply insert_singleton_eq.
      eapply (by_arrival _ _ _ _ _ _ _ _ 7); [apply lookup_singleton_eq|reflexivity|].
      eapply (subscribe_begin _ _ _ _ _ _ _ _ _ _ (mkMessage 0 7 1 1 1) 12);
        [reflexivity|done|vm_compute; reflexivity|vm_compute; reflexivity|vm_compute; reflexivity].
    }
    eapply rtc_l; [eapply alone_server; [quietly (setup_done _ _ _ _ _ _ _ _ _ _ _ _ _ _ _ _ boot); vm_compute; reflexivity|reflexivity|done]|].
    eapply rtc_l; [eapply alone_server; [quietly add_spin|reflexivity|done]|].
    eapply rtc_l; [eapply alone_server; [quietly add_set; vm_compute; reflexivity|reflexivity|done]|].
    eapply rtc_l; [eapply alone_server; [quietly add_store|reflexivity|done]|].
    eapply rtc_l.
    { eapply (alone_server _ _ _ (receive (subscribe_response 1 7 64) waiting)); [|shelve|done].
      replace {[7 := receive _ _]} with
        (deliver (Z.add 5) (Some (EvSent 12 (subscribe_response 1 7 64))) {[7 := waiting]}) by (vm_compute; reflexivity).
      eapply by_handler; [eapply respond_at; vm_compute; reflexivity|].
      intros (q & c & message & _ & [<- <-]%lookup_singleton_Some & [=]).
    }
    eapply rtc_l; [apply alone_client; [by apply message_arrives|by left]|].
    eapply rtc_l; [apply alone_client; [by apply response_seen|by left]|]. reflexivity.
  - eexists. split; vm_compute; reflexivity.
  Unshelve. all: reflexivity.
Qed.

(** The dispatcher comes to the slot of the client. *)
Lemma demo_scans b m l c sn ctx :
  zget b 0 = Some ctx →
  rtc demo_service (alone (mkServer b 1 true true 1 m DTop l) c sn) (alone (mkServer b 1 false true 1 m (DServe 0) 1) c sn).
Proof.
  intros Hget.
  eapply rtc_l; [eapply alone_loops; [done|apply top_running]|].
  eapply rtc_l; [eapply alone_loops; [done|apply load_update]|].
  eapply rtc_l; [eapply alone_loops; [done|apply copy]|].
  eapply rtc_l; [eapply alone_loops; [done|apply clear]|].
  apply rtc_once. eapply alone_loops; [done|by eapply scan_serve].
Qed.

(** It goes on to the other slots, which are empty, and comes back. *)
Lemma demo_round b m c sn ctx :
  zget b 0 = Some ctx →
  rtc demo_service (alone (mkServer b 1 false true 1 m (DScan 1) 1) c sn) (alone (mkServer b 1 false true 1 m (DServe 0) 1) c sn).
Proof.
  intros Hget. assert (∀ j, (j ≤ 63)%nat → rtc demo_service
    (alone (mkServer b 1 false true 1 m (DScan (64 - Z.of_nat j)) 1) c sn) (alone (mkServer b 1 false true 1 m (DServe 0) 1) c sn))
    as Hj; [|by apply (Hj 63%nat)].
  intros j. induction j as [|j IH]; intros Hj.
  - eapply rtc_l; [eapply alone_loops; [done|by apply scan_end]|].
    eapply rtc_l; [eapply alone_loops; [done|apply top_running]|].
    eapply rtc_l; [eapply alone_loops; [done|apply load_none]|].
    apply rtc_once. eapply alone_loops; [done|by eapply scan_serve].
  - eapply rtc_l; [|apply IH; lia]. replace (64 - Z.of_nat j) with (64 - Z.of_nat (S j) + 1) by lia.
    eapply alone_loops; [done|]. apply scan_skip; [unfold MAX_CLIENTS; lia|].
    rewrite getBit_testbit by lia. apply (Z.bits_above_log2 1); simpl; lia.
Qed.
End demo.
