(* ===== verification/ServiceSessions.v ===== *)
(** The service with the sessions of [System]: an operation of the queue is one step,
    and the queue is any implementation of the interface [Spsc]. *)

From S2P Require Import Prelude TiledTranspose ShmNames PosixShm SpscQueue SeqLock ClientStats ClientBank Messages Server Protocol System Service.
#[local] Open Scope Z_scope.

(** * The code *)

Section code.
Context (dims : Z → Z * Z * Z).

(** The parameters of client [p]: [2^m] rows, [2^n] columns, [k] buffers. *)
Definition rows (p : Z) : Z := 2 ^ (dims p).1.1.
Definition columns (p : Z) : Z := 2 ^ (dims p).1.2.
Definition buffer_count (p : Z) : Z := (dims p).2.

Context {Q : Type} `{Spsc Q} (tileSize numWorkerThreads : Z) (repetitions : Z → Z) (matrices : Z → list (list Z)).

Definition session_of (p : Z) : session Q → session Q → Prop :=
  session_step (buffer_count p) (repetitions p) (rows p) (columns p) tileSize numWorkerThreads (matrices p).

(** A step of the client's loops leaves the dispatcher where it is, and a step of
    the dispatcher the client. *)
Definition loops_move (p : Z) (sn sn' : session Q) : Prop :=
  session_of p sn sn' ∧ System.server sn' = System.server sn.

(** [Dequeue] answers [false] if the queue is empty, and it can be refused if the client
    is inside [Enqueue]. *)
Definition worker_move (p : Z) (sn sn' : session Q) (o : slot_outcome) : Prop :=
  match o with
  | InSlot => session_of p sn sn' ∧ System.client sn' = System.client sn ∧ System.server sn' ≠ SPoll
  | SlotServed => session_of p sn sn' ∧ System.client sn' = System.client sn ∧ System.server sn' = SPoll
  | SlotEmpty =>
      sn' = sn ∧ System.server sn = SPoll ∧
      ((∃ q, spsc_dequeue (queue sn) = Ok (None, q)) ∨ ∃ rep b, System.client sn = CInner rep b)
  end.

Definition session_moves : session_machine (session Q) := {|
  client_move := loops_move;
  dispatcher_move := worker_move;
  at_check sn := System.client sn = CCheck;
  in_wait sn := (∃ rep b, System.client sn = CWait rep b) ∧ signalled sn = false;
  has_signal sn := signalled sn = true
|}.

(** A session that starts, with a queue for [n] requests. *)
Definition atomic_starts (n p : Z) (sn : session Q) : Prop :=
  session_init n sn ∧ buffers_ok (buffer_count p) (rows p) (columns p) (results sn).
End code.

(** * The laws of the service *)

Section laws.
Context (dims : Z → Z * Z * Z) (T N : Z) (reps : Z → Z) (matrices : Z → list (list Z)) (n : Z) (ps : gset Z).

(** The buffers of every client fit its session, see [System]. *)
Definition sessions_ok : Prop :=
  ∀ p, p ∈ ps → session_ok (buffer_count dims p) (reps p) (rows dims p) (columns dims p) T N (matrices p) n.

Hypothesis Hok : sessions_ok.

(** What the client's final check finds. *)
Lemma checked_exit {Q} `{SpscLaws Q} p (sn : session Q) references :
  p ∈ ps → session_inv (buffer_count dims p) (reps p) (rows dims p) (columns dims p) (matrices p) n sn →
  System.client sn = CCheck → 0 < reps p → buffers_ok (buffer_count dims p) (rows dims p) (columns dims p) references →
  exit_code (buffer_count dims p) (rows dims p) (columns dims p) (matrices p) references (results sn) = Ok 0.
Proof.
  intros Hps [Htr Hdst _ _ Hgot] Hc Hpos [Hrl Href]. pose proof (ok_k _ _ _ _ _ _ _ _ (Hok p Hps)) as Hk.
  destruct (check_from_spec _ _ _ _ _ _ _ _ (Z.to_nat (buffer_count dims p)) 0 references (results sn) false (Hok p Hps))
    as (err & Hrun & Herr); try done; [lia|].
  assert (err = false) as ->; [|unfold exit_code, check_results; by rewrite Hrun].
  apply Herr. split; [done|]. intros b Hb. apply Hgot; [done|]. by rewrite Hc.
Qed.

Context {Q : Type} `{SpscLaws Q}.

Abbreviation good p := (session_inv (buffer_count dims p) (reps p) (rows dims p) (columns dims p) (matrices p) n).
Abbreviation M := (session_moves dims T N reps matrices).

(** The steps left in a slot. *)
Definition serve_steps (sn : session Q) : Z :=
  match System.server sn with SPoll => 3 | STranspose _ => 2 | SWake => 1 end.

(** What the dispatcher does in the session. *)
Lemma worker_cases p (sn sn' : session Q) :
  session_of dims T N reps matrices p sn sn' → System.client sn' = System.client sn →
  (System.server sn = SPoll ∧ ∃ b, System.server sn' = STranspose b) ∨
  (∃ b, System.server sn = STranspose b ∧ System.server sn' = SWake) ∨
  (System.server sn = SWake ∧ System.server sn' = SPoll ∧ signalled sn' = true).
Proof. intros Hs Hc. destruct Hs; simpl in *; try discriminate; eauto 8. Qed.

(** A client that waits is in no call of [Enqueue], and its request is in the queue. *)
Lemma waiting_not_empty p (sn : session Q) rep b q :
  good p sn → System.client sn = CWait rep b → signalled sn = false → System.server sn = SPoll →
  spsc_dequeue (queue sn) = Ok (None, q) → False.
Proof.
  intros [_ _ _ (l & Hq & Hph) _] Hc Hsig Hs Hd. rewrite Hc in Hph. simpl in Hph.
  destruct Hph as [(_ & -> & _)|[(_ & _ & ?)|[(_ & _ & ? & _)|(? & _)]]]; [|congruence..].
  destruct (spsc_dequeue_item n (queue sn) b [] Hq) as (q' & Hrun & _). congruence.
Qed.

Lemma session_moves_laws : session_laws M ps (λ p, good p) serve_steps 3 (λ _, true).
Proof.
  split; simpl.
  - intros p x x' Hp Hg [Hs _]. eapply session_inv_step; [by apply Hok|done|exact Hs].
  - intros p x x' [] Hp Hg Hm; simpl in Hm; [destruct Hm as [Hs _]..|by destruct Hm as [-> _]];
      (eapply session_inv_step; [by apply Hok|done|exact Hs]).
  - intros p x x' [] Hm; simpl in Hm; [destruct Hm as (_ & -> & _)..|destruct Hm as [-> _]]; done.
  - intros x. unfold serve_steps. case_match; lia.
  - intros p x x' [_ Hs]. unfold serve_steps. by rewrite Hs.
  - intros p x x' (Hs & Hc & Hpc). unfold serve_steps.
    destruct (worker_cases _ _ _ Hs Hc) as [(-> & b & ->)|[(b & -> & ->)|(_ & ? & _)]]; done.
  - intros p x x' ((rep & b & Hc) & Hsig) [Hs Hm]. destruct Hs; simpl in *; congruence.
  - intros x ((rep & b & Hc) & _). congruence.
  - intros p x x' o ((rep & b & Hc) & Hsig) Hm. assert (System.client x' = System.client x) as Hc'.
    { destruct o; simpl in Hm; [by destruct Hm as (_ & ? & _)..|by destruct Hm as [-> _]]. }
    destruct (signalled x') eqn:Hsig'; [by right|left]. split; [|done]. exists rep, b. congruence.
  - intros p x x' (Hs & Hc & Hpc) [_ Hsig].
    destruct (worker_cases _ _ _ Hs Hc) as [(_ & b & ?)|[(b & _ & ?)|(_ & _ & ?)]]; congruence.
  - intros p x x' Hp Hg ((rep & b & Hc) & Hsig) (-> & Hs & [(q & Hd)|(rep' & b' & ?)]); [|congruence].
    by destruct (waiting_not_empty p x rep b q Hg Hc Hsig Hs Hd).
  - done.
  - intros p x Hp Hg. destruct (server_progress _ _ _ _ _ _ _ _ x (Hok p Hp) Hg) as [[Hs Hd]|(x' & Hs & Hc)].
    + exists x, SlotEmpty. simpl. auto.
    + exists x'. destruct (decide (System.server x' = SPoll)); [exists SlotServed|exists InSlot]; done.
Qed.

Lemma atomic_starts_good p sn : p ∈ ps → atomic_starts dims n p sn → good p sn.
Proof. intros Hp [Hi Hb]. eapply session_inv_init; [by apply Hok|done|done]. Qed.
End laws.

(** * Examples *)

#[local] Existing Instance add_inj.
#[local] Existing Instance SeqLock.SeqLock_spsc.
#[local] Existing Instance SeqLock.SeqLock_laws.

Abbreviation demo_moves := (session_moves (λ _, (1, 1, 1)) 2 1 (λ _, 1) (λ _, [[1; 2; 3; 4]])).
Abbreviation demo_service := (service_rel true 64 (λ _, true) (λ _, (1, 1, 1)) (Z.add 5) demo_moves).

Lemma demo_start_init : service_init (atomic_starts (λ _, (1, 1, 1)) 15) 1 {[7]} (demo_start demo_session).
Proof.
  split_and!; [done|apply leibniz_equiv, dom_singleton|].
  intros p sn Hp. unfold demo_start in Hp. cbn [sessions] in Hp. apply lookup_singleton_Some in Hp as [<- <-].
  split; [|exact demo_buffers_ok].
  split; [exact demo_queue_empty|split_and!; reflexivity].
Qed.

Lemma demo_sessions_ok : sessions_ok (λ _, (1, 1, 1)) 2 1 (λ _, 1) (λ _, [[1; 2; 3; 4]]) 15 {[7]}.
Proof. intros p _. exact demo_session_ok. Qed.

(** It sends its request. *)
Definition demo_requested (c : client_pc) (w : bool) (tr : list (list Z)) (pc : worker_pc) :=
  mkSession (SeqLock.mkSeqLockQueue 15 (SeqLock.mkQueueData 1 0 2 (replicate 16 0))) w tr c pc.

Lemma demo_waiting :
  ∃ b m l, rtc demo_service (demo_start demo_session)
      (alone (mkServer b 1 true true 1 m DTop l) (mkClient PSession true [] [])
        (demo_requested (CWait 0 0) false [[0; 0; 0; 0]] SPoll)) ∧
    ∃ ctx, zget b 0 = Some ctx ∧ id ctx = 7.
Proof.
  destruct (demo_subscribed demo_moves demo_session) as (b & m & l & Hr & Hctx). exists b, m, l. split; [|exact Hctx].
  etrans; [exact Hr|].
  eapply rtc_l; [eapply alone_works; [done|split; [by apply outer_enter|done]]|].
  eapply rtc_l; [eapply alone_works; [done|split; [by eapply inner_enqueue|done]]|]. reflexivity.
Qed.

(** It is served, and leaves. *)
Lemma demo_served :
  ∃ s, rtc demo_service (demo_start demo_session)
    (alone s (mkClient PLeft true [GenerateUnsubscribeMessage (mkMessage 0 0 0 0 0) 7] [])
      (demo_after false CCheck)).
Proof.
  destruct demo_waiting as (b & m & l & Hr & ctx & Hget & Hid). eexists. etrans; [exact Hr|].
  etrans; [by eapply demo_scans|].
  eapply rtc_l; [eapply (alone_serves _ _ _ _ _ ctx InSlot); [done|done|done|split; [by eapply poll_request|done]]|].
  eapply rtc_l; [eapply (alone_serves _ _ _ _ _ ctx InSlot); [done|done|done|split; [|]]|].
  { eapply (do_transpose _ _ _ _ _ _ _ _ _ _ _ 0 [1; 2; 3; 4] [0; 0; 0; 0] [1; 3; 2; 4]); [done|done|].
    apply tiled_returns_transpose; try done; by exists 1. }
  { done. }
  eapply rtc_l; [eapply (alone_serves _ _ _ _ _ ctx SlotServed); [done|done|done|split; [apply do_wake|done]]|].
  eapply rtc_l; [eapply alone_works; [done|split; [by apply wait_returns|done]]|].
  eapply rtc_l; [eapply alone_works; [done|split; [by apply inner_exit|done]]|].
  eapply rtc_l; [eapply alone_works; [done|split; [by apply outer_exit|done]]|].
  eapply rtc_l; [apply alone_client; [by apply (send_unsubscribe _ 7 true [] [] (mkMessage 0 0 0 0 0))|by right]|].
  reflexivity.
Qed.

(** * Properties *)

(** C1: Every client succeeds.  In the whole service, with any number of clients and
    under every interleaving of their processes with the server's threads, whatever
    clients are killed meanwhile, a client that has sent its unsubscription finds no
    error in its final check and exits with 0, if it asked for at least one
    repetition.  The tile size divides both dimensions of every client's matrices, and
    there is at least one worker. *)
Theorem service_clients_succeed `{PosixShmSpec} lf cls ok dims socket `{!Inj (=) (=) socket}
    {Q} `{SpscLaws Q} T N reps matrices n pid ps (S0 S : service (session Q)) p c references :
  sessions_ok dims T N reps matrices n ps → service_init (atomic_starts dims n) pid ps S0 →
  rtc (service_rel lf cls ok dims socket (session_moves dims T N reps matrices)) S0 S →
  clients (proto S) !! p = Some c → main_at c = PLeft → 0 < reps p →
  buffers_ok (buffer_count dims p) (rows dims p) (columns dims p) references →
  ∃ sn, sessions S !! p = Some sn ∧
    exit_code (buffer_count dims p) (rows dims p) (columns dims p) (matrices p) references (results sn) = Ok 0.
Proof.
  intros Hok Hi Hr Hc Hpc Hpos Href.
  pose proof (service_inv_rtc lf cls ok dims socket _ ps _ _ _ _ (session_moves_laws dims T N reps matrices n ps Hok) S0 S
    (service_inv_init dims socket _ ps _ _ pid S0 Hi (atomic_starts_good dims T N reps matrices n ps Hok)) Hr) as HS.
  destruct (sessions S !! p) as [sn|] eqn:Hp.
  - exists sn. split; [done|]. eapply (checked_exit dims T N reps matrices n ps Hok); try done.
    + rewrite <-(sv_sessions _ _ _ _ _ _ HS). by eapply elem_of_dom_2.
    + by apply (sv_inv _ _ _ _ _ _ HS).
    + by eapply (sv_left _ _ _ _ _ _ HS).
  - apply not_elem_of_dom in Hp. destruct Hp. rewrite (sv_sessions _ _ _ _ _ _ HS), <-(sv_clients _ _ _ _ _ _ HS).
    by eapply elem_of_dom_2.
Qed.

Lemma service_clients_succeed_witness :
  ∃ (S : service _) sn, rtc demo_service (demo_start demo_session) S ∧ sessions S !! 7 = Some sn ∧
    exit_code 1 2 2 [[1; 2; 3; 4]] [[0; 0; 0; 0]] (results sn) = Ok 0.
Proof.
  destruct demo_served as (s & Hr).
  destruct (service_clients_succeed true 64 (λ _, true) (λ _, (1, 1, 1)) (Z.add 5) 2 1 (λ _, 1)
    (λ _, [[1; 2; 3; 4]]) 15 1 {[7]} _ _ 7 _ [[0; 0; 0; 0]] demo_sessions_ok demo_start_init Hr
    (lookup_singleton_eq _ _) eq_refl eq_refl demo_buffers_ok) as (sn & Hp & Hcheck).
  eexists _, sn. split; [exact Hr|]. split; [exact Hp|exact Hcheck].
Defined.

(** C2: No client starves.  In every reachable state of the whole service in which the
    server runs, the dispatcher can take a step.  A client that is in [Wait] stays
    there for at most 517 steps of the dispatcher, whatever the other clients and
    the other threads of the server do, and it leaves [Wait] only by the
    dispatcher's signal, if the server is not stopped and the client not killed.  The
    tile size divides both dimensions of every client's matrices, and there is at
    least one worker. *)
Theorem requests_served `{PosixShmSpec} lf cls ok dims socket `{!Inj (=) (=) socket}
    {Q} `{SpscLaws Q} T N reps matrices n pid ps (S0 S : service (session Q)) :
  let M := session_moves dims T N reps matrices in
  sessions_ok dims T N reps matrices n ps → service_init (atomic_starts dims n) pid ps S0 →
  rtc (service_rel lf cls ok dims socket M) S0 S →
  (running (Protocol.server (proto S)) = true → ∃ S', service_step lf cls ok dims socket M true S S') ∧
  ∀ p, waits_for_server M p S →
    (∀ m S', run lf cls ok dims socket M (waits_for_server M p) m S S' → (m ≤ 517)%nat) ∧
    (∀ d S', service_step lf cls ok dims socket M d S S' →
       waits_for_server M p S' ∨ running (Protocol.server (proto S')) = false ∨ ended p (proto S') ∨
       ∃ sn, sessions S' !! p = Some sn ∧ signalled sn = true).
Proof.
  intros M Hok Hi Hr. pose proof (session_moves_laws dims T N reps matrices n ps Hok) as HM.
  pose proof (service_inv_rtc lf cls ok dims socket _ ps _ _ _ _ HM S0 S
    (service_inv_init dims socket _ ps _ _ pid S0 Hi (atomic_starts_good dims T N reps matrices n ps Hok)) Hr) as HS.
  split; [intros; by eapply dispatcher_can_step|]. intros p Hw. split.
  - intros m S' Hrun. pose proof (wait_bounded _ _ _ _ _ _ _ _ _ _ _ HM p m S S' ltac:(done) HS Hrun) as Hb.
    assert (extra_turn 3 (λ _ : session Q, true) S p = 0) as Hx by (unfold extra_turn, second_turn; by case_match).
    unfold MAX_CLIENTS in Hb. lia.
  - intros d S' Hs. exact (wait_ends _ _ _ _ _ _ _ _ _ _ _ HM d S S' p Hs Hw).
Qed.

Lemma requests_served_witness :
  ∃ S : service _, rtc demo_service (demo_start demo_session) S ∧ waits_for_server demo_moves 7 S ∧
    ∀ m S', run true 64 (λ _, true) (λ _, (1, 1, 1)) (Z.add 5) demo_moves
      (waits_for_server demo_moves 7) m S S' → (m ≤ 517)%nat.
Proof.
  destruct demo_waiting as (b & m & l & Hr & _).
  assert (waits_for_server demo_moves 7 (alone (mkServer b 1 true true 1 m DTop l) (mkClient PSession true [] [])
        (demo_requested (CWait 0 0) false [[0; 0; 0; 0]] SPoll))) as Hw.
  { split; [reflexivity|]. split; [eexists; split; [apply lookup_singleton_eq|reflexivity]|].
    eexists. split; [apply lookup_singleton_eq|]. split; [by exists 0, 0|reflexivity]. }
  eexists. split; [exact Hr|]. split; [exact Hw|].
  apply (requests_served true 64 (λ _, true) (λ _, (1, 1, 1)) (Z.add 5) 2 1 (λ _, 1)
    (λ _, [[1; 2; 3; 4]]) 15 1 {[7]} _ _ demo_sessions_ok demo_start_init Hr). exact Hw.
Defined.
