(* ===== verification/ServiceQueue.v ===== *)
(** The service with the sessions of [SessionQueue]: an access of the shared queue is
    one step, so that the clients are inside [Enqueue] while the dispatcher is inside
    [Dequeue], and a [Dequeue] that a write overlaps is refused.  The queues are those
    of [SeqLock], as [SharedMemory] creates them. *)

From S2P Require Import Prelude TiledTranspose ShmNames PosixShm SpscQueue SeqLock ClientStats ClientBank Messages Server Protocol System SessionQueue Service ServiceSessions.
#[local] Open Scope Z_scope.

(** * The code *)

(** [Wake] has been called, or [Dequeue] has answered [false]. *)
Definition slot_left (sn sn' : fine_session) : slot_outcome :=
  match dispatcher_at sn, dispatcher_at sn', dequeuing sn' with
  | SWake, _, _ => SlotServed
  | SPoll, SPoll, CIdle => SlotEmpty
  | _, _, _ => InSlot
  end.

Section code.
Context (dims : Z → Z * Z * Z) (tileSize numWorkerThreads : Z) (repetitions : Z → Z) (matrices : Z → list (list Z)).
Context (cap : Z).

Definition accesses_of (p : Z) : fine_state → fine_state → Prop :=
  fine_step (cap - 1) (buffer_count dims p) (repetitions p) (rows dims p) (columns dims p) tileSize numWorkerThreads
    (matrices p).

Definition client_access (p : Z) (sn sn' : fine_session) : Prop :=
  accesses_of p (FRun sn) (FRun sn') ∧ dispatcher_at sn' = dispatcher_at sn ∧ dequeuing sn' = dequeuing sn.
Definition dispatcher_access (p : Z) (sn sn' : fine_session) (o : slot_outcome) : Prop :=
  accesses_of p (FRun sn) (FRun sn') ∧ client_at sn' = client_at sn ∧ enqueuing sn' = enqueuing sn ∧ o = slot_left sn sn'.

Definition access_moves : session_machine fine_session := {|
  client_move := client_access;
  dispatcher_move := dispatcher_access;
  at_check sn := client_at sn = CCheck;
  in_wait := waiting;
  has_signal sn := word sn = true
|}.

Definition access_starts (p : Z) (sn : fine_session) : Prop :=
  ∃ trs, sn = fine_init cap trs ∧ buffers_ok (buffer_count dims p) (rows dims p) (columns dims p) trs.
End code.

(** * The laws of the service *)

(** The accesses that are left in a slot. *)
Definition access_steps (sn : fine_session) : Z :=
  match dispatcher_at sn with
  | SPoll =>
      match dequeuing sn with
      | CIdle => 8 | CHead _ => 7 | CLoaded _ => 6 | CSeq _ _ => 5 | CRead _ _ _ => 4 | CValid _ _ => 3
      end
  | STranspose _ => 2
  | SWake => 1
  end.

(** What the [Dequeue] under way has read is not out of date. *)
Definition up_to_date (sn : fine_session) : bool :=
  match dispatcher_at sn, dequeuing sn with
  | SPoll, CHead h => bool_decide (tail (shared sn) ≠ h)
  | SPoll, (CSeq _ seqStart | CRead _ seqStart _) => bool_decide (seqStart = seq (shared sn))
  | _, _ => true
  end.

(** Every access moves on. *)
Lemma producer_moves mask p q q' e : producer_step mask p q ≠ Some (Ok (p, q', e)).
Proof. destruct p; simpl; try case_decide; try destruct (store _ _ _); simpl; intros [=]. Qed.

Section laws.
Context (dims : Z → Z * Z * Z) (T N : Z) (reps : Z → Z) (matrices : Z → list (list Z)) (cap : Z) (ps : gset Z).
Hypothesis Hcap : valid_capacity cap.
Hypothesis Hok : sessions_ok dims T N reps matrices (cap - 1) ps.

Abbreviation M := (access_moves dims T N reps matrices cap).
Abbreviation accesses := (accesses_of dims T N reps matrices cap).

Definition access_good (p : Z) (sn : fine_session) : Prop :=
  fine_inv (Q := SeqLockQueue) (buffer_count dims p) (reps p) (rows dims p) (columns dims p) (matrices p) cap (cap - 1) (FRun sn).

Lemma access_good_step p sn sn' : p ∈ ps → access_good p sn → accesses p (FRun sn) (FRun sn') → access_good p sn'.
Proof. intros Hp Hg Hs. exact (fine_inv_step _ _ _ _ _ _ _ _ Hcap _ (Hok p Hp) _ _ Hg Hs). Qed.

Lemma access_starts_good p sn : p ∈ ps → access_starts dims cap p sn → access_good p sn.
Proof.
  intros Hp (trs & -> & Hb). exact (fine_inv_init _ _ _ _ _ _ _ _ Hcap _ eq_refl (Hok p Hp) _ _ (start_init cap trs Hcap) eq_refl Hb).
Qed.

(** Case analysis of a step, and of the access of [Dequeue]. *)
Ltac by_access Hs :=
  inversion Hs as [| | |? ? ? ? ? ? ? ? ? ? ? Henq| | | |? ? ? ? ?|? ? ? d ? ? ? ? ? Hacc| |? ? ? ? ? ? ? ? ? ?|? ? ? ? ? ?]; subst;
  simpl in *; try congruence; try (subst; by destruct (producer_moves _ _ _ _ _ Henq));
  try (destruct d; simpl in Hacc; repeat case_decide; try destruct (load _ _); simpl in Hacc; simplify_eq; simpl in *);
  repeat case_bool_decide; try congruence; try lia; try done.

Lemma client_keeps p sn sn' : client_access dims T N reps matrices cap p sn sn' → ¬ waiting sn.
Proof. intros (Hs & Hd & Hc) ((rep & b & Hcl) & Hw). by_access Hs. Qed.

Lemma in_slot_steps p sn sn' :
  dispatcher_access dims T N reps matrices cap p sn sn' InSlot → access_steps sn' < access_steps sn.
Proof. intros (Hs & Hc & Hp & Ho). unfold slot_left, access_steps in *. by_access Hs. Qed.

Lemma served_word p sn sn' : dispatcher_access dims T N reps matrices cap p sn sn' SlotServed → word sn' = true.
Proof. intros (Hs & Hc & Hp & Ho). unfold slot_left in *. by_access Hs. Qed.

(** A request that is waited for is refused only if what [Dequeue] has read is out of
    date, and then it is taken by the next one. *)
Lemma refused p sn sn' :
  access_good p sn → waiting sn → dispatcher_access dims T N reps matrices cap p sn sn' SlotEmpty →
  up_to_date sn = false ∧ up_to_date sn' = true.
Proof.
  intros Hg Hw (Hs & Hc & Hp & Ho). destruct (waiting_queue _ _ _ _ _ _ _ eq_refl sn Hg Hw) as (_ & Hseq & Hne).
  unfold slot_left, up_to_date in *. by_access Hs.
Qed.

Lemma stays_up_to_date p sn sn' :
  access_good p sn → waiting sn → dispatcher_access dims T N reps matrices cap p sn sn' InSlot →
  up_to_date sn = true → up_to_date sn' = true.
Proof.
  intros Hg Hw (Hs & Hc & Hp & Ho). destruct (waiting_queue _ _ _ _ _ _ _ eq_refl sn Hg Hw) as (_ & Hseq & Hne).
  unfold slot_left, up_to_date in *. by_access Hs. by destruct Hne.
Qed.

Lemma access_moves_laws : session_laws M ps access_good access_steps 8 up_to_date.
Proof.
  split; simpl.
  - intros p x x' Hp Hg (Hs & _). by eapply access_good_step.
  - intros p x x' o Hp Hg (Hs & _). by eapply access_good_step.
  - intros p x x' o (_ & -> & _). done.
  - intros x. unfold access_steps. repeat case_match; lia.
  - intros p x x' (_ & Hd & Hc). unfold access_steps. by rewrite Hd, Hc.
  - apply in_slot_steps.
  - intros p x x' Hw Hm. by eapply client_keeps.
  - intros x ((rep & b & Hc) & _). congruence.
  - intros p x x' o ((rep & b & Hc) & Hw) (_ & Hc' & _). destruct (word x') eqn:Hw'; [by right|left].
    split; [|done]. exists rep, b. congruence.
  - intros p x x' Hm%served_word [_ Hw]. congruence.
  - intros p x x' Hp Hg Hw Hm. by eapply refused.
  - intros p x x' Hp Hg Hw Hm. by eapply stays_up_to_date.
  - intros p x Hp Hg. destruct (dispatcher_goes_on _ _ _ _ _ _ _ _ Hcap _ eq_refl (Hok p Hp) x Hg) as (x' & Hs & Hc & He).
    by exists x', (slot_left x x').
Qed.
End laws.

(** * Examples *)

(** The clients start with the queue of [SharedMemory]; the dispatcher comes to the slot
    of client 7 while it is inside [Enqueue]. *)
#[local] Existing Instance add_inj.

Abbreviation demo_accesses := (access_moves (λ _, (1, 1, 1)) 2 1 (λ _, 1) (λ _, [[1; 2; 3; 4]]) 16).
Abbreviation demo_service := (service_rel true 64 (λ _, true) (λ _, (1, 1, 1)) (Z.add 5) demo_accesses).
Abbreviation demo_fine := (fine_init 16 [[0; 0; 0; 0]]).

Lemma demo_accesses_init :
  service_init (access_starts (λ _, (1, 1, 1)) 16) 1 {[7]} (demo_start demo_fine).
Proof.
  split_and!; [done|apply leibniz_equiv, dom_singleton|].
  intros p sn Hp. unfold demo_start in Hp. cbn [sessions] in Hp. apply lookup_singleton_Some in Hp as [<- <-].
  exists [[0; 0; 0; 0]]. split; [done|exact demo_buffers_ok].
Qed.

Definition demo_stale : fine_session :=
  mkFine (mkQueueData 1 0 2 (replicate 16 0)) PIdle (CHead 0) false [[0; 0; 0; 0]] (CWait 0 0) SPoll.

Tactic Notation "client_goes" tactic3(t) := eapply rtc_l; [eapply alone_works; [done|split; [t|done]]|].
Tactic Notation "dispatcher_goes" uconstr(ctx) uconstr(o) tactic3(t) :=
  eapply rtc_l; [eapply (alone_serves _ _ _ _ _ ctx o); [done|done|done|split; [t|done]]|].

(** [Dequeue] has read [head] before the request was published. *)
Lemma demo_overlaps :
  ∃ b m, rtc demo_service (demo_start demo_fine)
      (alone (mkServer b 1 false true 1 m (DServe 0) 1) (mkClient PSession true [] []) demo_stale) ∧
    ∃ ctx, zget b 0 = Some ctx ∧ id ctx = 7.
Proof.
  destruct (demo_subscribed demo_accesses demo_fine) as (b & m & l & Hr & ctx & Hget & Hid). exists b, m.
  split; [|by exists ctx]. etrans; [exact Hr|]. etrans; [by eapply demo_scans|].
  client_goes (by apply fine_outer_enter). client_goes (by apply fine_enqueue_call).
  dispatcher_goes ctx InSlot (apply fine_dequeue_call).
  do 5 client_goes (by eapply fine_enqueue_access). reflexivity.
Qed.

(** This [Dequeue] answers [false]; the next one takes the request, and the client
    leaves. *)
Lemma demo_leaves :
  ∃ s, rtc demo_service (demo_start demo_fine)
    (alone s (mkClient PLeft true [GenerateUnsubscribeMessage (mkMessage 0 0 0 0 0) 7] []) demo_ends).
Proof.
  destruct demo_overlaps as (b & m & Hr & ctx & Hget & Hid). eexists. etrans; [exact Hr|].
  dispatcher_goes ctx SlotEmpty (by eapply fine_dequeue_access).
  etrans; [by eapply demo_round|].
  dispatcher_goes ctx InSlot (apply fine_dequeue_call).
  do 5 dispatcher_goes ctx InSlot (by eapply fine_dequeue_access).
  dispatcher_goes ctx InSlot
    (eapply (fine_transpose _ _ _ _ _ _ _ _ _ _ _ _ _ _ 0 [1; 2; 3; 4] [0; 0; 0; 0] [1; 3; 2; 4]); [done|done|];
     apply tiled_returns_transpose; try done; by exists 1).
  dispatcher_goes ctx SlotServed (apply fine_wake).
  client_goes (by apply fine_wait_returns). client_goes (by apply fine_inner_exit). client_goes (by apply fine_outer_exit).
  eapply rtc_l; [apply alone_client; [by apply (send_unsubscribe _ 7 true [] [] (mkMessage 0 0 0 0 0))|by right]|].
  reflexivity.
Qed.

(** * Properties *)

(** C3: Every client succeeds, access by access.  In the whole service, with any number of
    clients, and with each of them inside [Enqueue] while the dispatcher is inside
    [Dequeue] of the same queue, no access of a queue leaves it, and a client that has
    sent its unsubscription finds no error in its final check and exits with 0, if it
    asked for at least one repetition.  The tile size divides both dimensions of every
    client's matrices, and there is at least one worker. *)
Theorem fine_clients_succeed `{PosixShmSpec} lf cls ok dims socket `{!Inj (=) (=) socket}
    T N reps matrices cap pid ps (S0 S : service fine_session) p :
  valid_capacity cap → sessions_ok dims T N reps matrices (cap - 1) ps →
  service_init (access_starts dims cap) pid ps S0 →
  rtc (service_rel lf cls ok dims socket (access_moves dims T N reps matrices cap)) S0 S → p ∈ ps →
  ∃ sn, sessions S !! p = Some sn ∧
    ¬ accesses_of dims T N reps matrices cap p (FRun sn) FFault ∧
    ∀ c references, clients (proto S) !! p = Some c → main_at c = PLeft → 0 < reps p →
      buffers_ok (buffer_count dims p) (rows dims p) (columns dims p) references →
      exit_code (buffer_count dims p) (rows dims p) (columns dims p) (matrices p) references (transposes sn) = Ok 0.
Proof.
  intros Hcap Hok Hi Hr Hp.
  pose proof (service_inv_rtc lf cls ok dims socket _ ps _ _ _ _ (access_moves_laws dims T N reps matrices cap ps Hcap Hok) S0 S
    (service_inv_init dims socket _ ps _ _ pid S0 Hi (access_starts_good dims T N reps matrices cap ps Hcap Hok)) Hr) as HS.
  pose proof Hp as Hdom. rewrite <-(sv_sessions _ _ _ _ _ _ HS) in Hdom. apply elem_of_dom in Hdom as [sn Hsn].
  exists sn. pose proof (sv_inv _ _ _ _ _ _ HS _ _ Hsn) as Hg. split_and!; [done| |].
  - exact (fine_no_fault _ _ _ _ _ _ _ _ Hcap _ (Hok p Hp) _ Hg).
  - intros c references Hc Hpc Hpos Href. pose proof (sv_left _ _ _ _ _ _ HS p c sn Hc Hpc Hsn) as Hch. simpl in Hch.
    destruct Hg as (a & [_ _ <- _ Hcl _ _] & Hinv).
    eapply (checked_exit dims T N reps matrices (cap - 1) ps Hok); try done. rewrite Hcl, Hch. by destruct (enqueuing sn).
Qed.

Lemma fine_clients_succeed_witness :
  ∃ (S : service _) sn, rtc demo_service (demo_start demo_fine) S ∧ sessions S !! 7 = Some sn ∧
    exit_code 1 2 2 [[1; 2; 3; 4]] [[0; 0; 0; 0]] (transposes sn) = Ok 0.
Proof.
  destruct demo_leaves as (s & Hr).
  destruct (fine_clients_succeed true 64 (λ _, true) (λ _, (1, 1, 1)) (Z.add 5) 2 1 (λ _, 1)
    (λ _, [[1; 2; 3; 4]]) 16 1 {[7]} _ _ 7 ltac:(by exists 4) demo_sessions_ok demo_accesses_init Hr
    ltac:(by apply elem_of_singleton)) as (sn & Hp & _ & Hcheck).
  eexists _, sn. split; [exact Hr|]. split; [exact Hp|].
  exact (Hcheck _ [[0; 0; 0; 0]] (lookup_singleton_eq _ _) eq_refl eq_refl demo_buffers_ok).
Defined.

(** C4: No client starves, access by access.  In every reachable state of the service in
    which the server runs, the dispatcher can take a step.  A client that is in [Wait]
    stays there for at most 1738 of its steps, whatever the others do, although a
    [Dequeue] that began before the request was complete is refused; and it leaves
    [Wait] only by the signal, if the server is not stopped and the client not
    killed.  The tile size divides both dimensions of every client's matrices, and
    there is at least one worker. *)
Theorem fine_requests_served `{PosixShmSpec} lf cls ok dims socket `{!Inj (=) (=) socket}
    T N reps matrices cap pid ps (S0 S : service fine_session) :
  let M := access_moves dims T N reps matrices cap in
  valid_capacity cap → sessions_ok dims T N reps matrices (cap - 1) ps →
  service_init (access_starts dims cap) pid ps S0 → rtc (service_rel lf cls ok dims socket M) S0 S →
  (running (Protocol.server (proto S)) = true → ∃ S', service_step lf cls ok dims socket M true S S') ∧
  ∀ p, waits_for_server M p S →
    (∀ m S', run lf cls ok dims socket M (waits_for_server M p) m S S' → (m ≤ 1738)%nat) ∧
    (∀ d S', service_step lf cls ok dims socket M d S S' →
       waits_for_server M p S' ∨ running (Protocol.server (proto S')) = false ∨ ended p (proto S') ∨
       ∃ sn, sessions S' !! p = Some sn ∧ word sn = true).
Proof.
  intros M Hcap Hok Hi Hr. pose proof (access_moves_laws dims T N reps matrices cap ps Hcap Hok) as HM.
  pose proof (service_inv_rtc lf cls ok dims socket _ ps _ _ _ _ HM S0 S
    (service_inv_init dims socket _ ps _ _ pid S0 Hi (access_starts_good dims T N reps matrices cap ps Hcap Hok)) Hr) as HS.
  split; [intros; by eapply dispatcher_can_step|]. intros p Hw. split.
  - intros m S' Hrun. pose proof (wait_bounded _ _ _ _ _ _ _ _ _ _ _ HM p m S S' ltac:(done) HS Hrun) as Hb.
    pose proof (extra_turn_range 8 up_to_date S p ltac:(done)) as Hx. unfold MAX_CLIENTS in *. lia.
  - intros d S' Hs. exact (wait_ends _ _ _ _ _ _ _ _ _ _ _ HM d S S' p Hs Hw).
Qed.

Lemma fine_requests_served_witness :
  ∃ S : service _, rtc demo_service (demo_start demo_fine) S ∧ waits_for_server demo_accesses 7 S ∧
    ∀ m S', run true 64 (λ _, true) (λ _, (1, 1, 1)) (Z.add 5) demo_accesses
      (waits_for_server demo_accesses 7) m S S' → (m ≤ 1738)%nat.
Proof.
  destruct demo_overlaps as (b & m & Hr & _).
  assert (waits_for_server demo_accesses 7 (alone (mkServer b 1 false true 1 m (DServe 0) 1) (mkClient PSession true [] [])
        demo_stale)) as Hw.
  { split; [reflexivity|]. split; [eexists; split; [apply lookup_singleton_eq|reflexivity]|].
    eexists. split; [apply lookup_singleton_eq|]. split; [by exists 0, 0|reflexivity]. }
  eexists. split; [exact Hr|]. split; [exact Hw|].
  apply (fine_requests_served true 64 (λ _, true) (λ _, (1, 1, 1)) (Z.add 5) 2 1 (λ _, 1)
    (λ _, [[1; 2; 3; 4]]) 16 1 {[7]} _ _ ltac:(by exists 4) demo_sessions_ok demo_accesses_init Hr). exact Hw.
Defined.
