(* ===== verification/Numbers.v ===== *)
(** Reading decimal numbers: what the program uses of [std::stoi], [std::atoi] and
    the extraction of words and unsigned integers from a stream, with the proof
    that they read back what the program prints. *)

From stdpp Require Import pretty.
From S2P Require Import Prelude ShmNames.
#[local] Open Scope Z_scope.

Definition is_space (c : Ascii.ascii) : bool :=
  match Ascii.nat_of_ascii c with
  | 32%nat | 9%nat | 10%nat | 11%nat | 12%nat | 13%nat => true
  | _ => false
  end.

Fixpoint skip_spaces (s : string) : string :=
  match s with
  | String c s' => if is_space c then skip_spaces s' else s
  | EmptyString => s
  end.

(** [stream >> word]: the characters up to the next space. *)
Fixpoint take_word (s : string) : string :=
  match s with
  | String c s' => if is_space c then EmptyString else String c (take_word s')
  | EmptyString => s
  end.

Definition read_word (s : string) : string := take_word (skip_spaces s).

(** The value of the digits at the front of [s], after [acc]. *)
Fixpoint digits_from (acc : Z) (s : string) : Z :=
  match s with
  | String c s' =>
      match Ascii.is_nat c with
      | Some d => digits_from (10 * acc + Z.of_nat d) s'
      | None => acc
      end
  | EmptyString => acc
  end.

Definition starts_with_digit (s : string) : bool :=
  match s with String c _ => is_digit c | EmptyString => false end.

Definition plus_sign : Ascii.ascii := Ascii.Ascii true true false true false true false false.
Definition minus_sign : Ascii.ascii := Ascii.Ascii true false true true false true false false.

(** The conversion of strtol: spaces, a sign, digits; [None] without digits. *)
Definition strtol (s : string) : option Z :=
  let s := skip_spaces s in
  let '(sign, s) :=
    match s with
    | String c s' =>
        if decide (c = minus_sign) then (-1, s') else if decide (c = plus_sign) then (1, s') else (1, s)
    | EmptyString => (1, s)
    end in
  if starts_with_digit s then Some (sign * digits_from 0 s) else None.

Definition is_int (x : Z) : Prop := - 2 ^ 31 ≤ x < 2 ^ 31.
#[export] Instance is_int_dec x : Decision (is_int x).
Proof. unfold is_int. apply _. Defined.

Definition stoi (s : string) : result Z :=
  match strtol s with
  | None => Throw (InvalidArgument "stoi")
  | Some x => if decide (is_int x) then Ok x else Throw (OutOfRange "stoi")
  end.

(** [atoi] answers 0 without digits; a value outside [int] is undefined. *)
Definition atoi (s : string) : result Z :=
  match strtol s with
  | None => Ok 0
  | Some x => if decide (is_int x) then Ok x else Undef
  end.

(** * Reading back what was printed *)

Lemma is_nat_pretty_char d :
  (d < 10)%N → Ascii.is_nat (pretty_N_char d) = Some (N.to_nat d).
Proof.
  intros Hd. assert (d ∈ [0; 1; 2; 3; 4; 5; 6; 7; 8; 9]%N) as Hin.
  { rewrite !elem_of_cons. lia. }
  rewrite !elem_of_cons, elem_of_nil in Hin. by destruct_or? Hin; subst.
Qed.

Lemma digits_from_pretty_go x s : digits_from 0 (pretty_N_go x s) = digits_from (Z.of_N x) s.
Proof.
  revert s. induction (N.lt_wf_0 x) as [x _ IH]; intros s.
  destruct (decide (0 < x)%N) as [Hx|Hx].
  - rewrite pretty_N_go_step by done. rewrite IH by (by apply N.div_lt). cbn [digits_from].
    rewrite is_nat_pretty_char by (by apply N.mod_lt). f_equal.
    rewrite N_nat_Z. pose proof (N.div_mod x 10). lia.
  - assert (x = 0%N) as -> by lia. done.
Qed.

Lemma digits_from_end acc s : starts_with_digit s = false → digits_from acc s = acc.
Proof. destruct s as [|c s]; [done|]. simpl. unfold is_digit. by destruct (Ascii.is_nat c). Qed.

(** Digits are followed by something else, and the rest is not read. *)
Lemma digits_from_app acc s1 s2 :
  all_digits s1 = true → starts_with_digit s2 = false → digits_from acc (s1 +:+ s2) = digits_from acc s1.
Proof.
  intros H1 H2. revert acc. induction s1 as [|c s1 IH]; intros acc; simpl.
  - by apply digits_from_end.
  - simpl in H1. apply andb_true_iff in H1 as [Hc H1]. destruct (Ascii.is_nat c); [by apply IH|done].
Qed.

Lemma digits_from_dec n : 0 ≤ n → digits_from 0 (dec n) = n.
Proof.
  intros Hn. destruct n as [|p|p]; [done| |lia].
  unfold dec, pretty, pretty_Z, pretty, pretty_positive, pretty, pretty_N.
  case_decide; [done|]. by rewrite digits_from_pretty_go.
Qed.

Lemma pretty_go_nonempty x s : s ≠ EmptyString → pretty_N_go x s ≠ EmptyString.
Proof.
  revert s. induction (N.lt_wf_0 x) as [x _ IH]; intros s Hs.
  destruct (decide (0 < x)%N) as [Hx|Hx].
  - rewrite pretty_N_go_step by done. apply IH; [by apply N.div_lt|done].
  - assert (x = 0%N) as -> by lia. done.
Qed.

Lemma dec_starts n : 0 ≤ n → ∃ c s, dec n = String c s ∧ is_digit c = true.
Proof.
  intros Hn. pose proof (dec_digits n Hn) as Hd. destruct (dec n) as [|c s] eqn:E.
  - exfalso. destruct n as [|p|p]; [done| |lia]. revert E.
    unfold dec, pretty, pretty_Z, pretty, pretty_positive, pretty, pretty_N.
    case_decide; [done|]. rewrite pretty_N_go_step by lia. by apply pretty_go_nonempty.
  - exists c, s. split; [done|]. by apply andb_true_iff in Hd as [? _].
Qed.

Lemma digit_not_special c :
  is_digit c = true → is_space c = false ∧ c ≠ minus_sign ∧ c ≠ plus_sign.
Proof.
  destruct c as [[] [] [] [] [] [] [] []]; vm_compute; intros H; (done || by split_and!).
Qed.

(** A printed number, followed by something that is no digit, is read back. *)
Lemma strtol_dec n rest :
  0 ≤ n → starts_with_digit rest = false → strtol (dec n +:+ rest) = Some n.
Proof.
  intros Hn Hrest. pose proof (digits_from_app 0 (dec n) rest (dec_digits n Hn) Hrest) as Hv.
  rewrite digits_from_dec in Hv by done.
  destruct (dec_starts n Hn) as (c & s & Heq & Hc). rewrite Heq in *. simpl in Hv.
  destruct (digit_not_special c Hc) as (Hsp & Hm & Hp).
  unfold strtol. simpl. rewrite Hsp, !decide_False by done. simpl. rewrite Hc.
  unfold is_digit in Hc. simpl. destruct (Ascii.is_nat c); [|done]. f_equal. lia.
Qed.
