(* ===== verification/MemoryUtils.v ===== *)
(** [src/lib/mem-utils/MemoryUtils.h]: the sizes read from [/sys] and from
    [sysinfo].  The file system and the system call are arguments. *)

From S2P Require Import Prelude ShmNames Numbers.
#[local] Open Scope Z_scope.

(** * The code *)

Definition char_K : Ascii.ascii := Ascii.Ascii true true false true false false true false.
Definition char_M : Ascii.ascii := Ascii.Ascii true false true true false false true false.

(** [sizeStr.back()], undefined on the empty string. *)
Fixpoint back (s : string) : result Ascii.ascii :=
  match s with
  | EmptyString => Undef
  | String c EmptyString => Ok c
  | String _ s' => back s'
  end.

(** A product of two [int]s. *)
Definition int_mul (x y : Z) : result Z := if decide (is_int (x * y)) then Ok (x * y) else Undef.

(** [stream >> lineSize] for an unsigned number: 0 without digits, the largest
    value when it is too large. *)
Definition read_unsigned (s : string) : Z :=
  match strtol s with
  | None => 0
  | Some x => if decide (Z.abs x < 2 ^ 64) then u64 x else 2 ^ 64 - 1
  end.

(** What [sysinfo] fills in, if it succeeds. *)
Record sysinfo := mkSysinfo { totalram : Z; freeram : Z; mem_unit : Z }.

Section code.
(** The contents of a file, if it can be opened. *)
Variable read_file : string → option string.

Definition GetCacheLineSize : Z :=
  match read_file "/sys/devices/system/cpu/cpu0/cache/index0/coherency_line_size" with
  | Some contents => read_unsigned contents
  | None => 0
  end.

(** The parameter [type] is not used. *)
Definition getCacheSize (level : Z) (type : string) : result Z :=
  match read_file ("/sys/devices/system/cpu/cpu0/cache/index" +:+ dec level +:+ "/size") with
  | None => Ok 0
  | Some contents =>
      let sizeStr := read_word contents in
      c ← back sizeStr;
      if decide (c = char_K) then
        x ← stoi sizeStr; y ← int_mul x 1024; Ok (u64 y)
      else if decide (c = char_M) then
        x ← stoi sizeStr; y ← int_mul x 1024; z ← int_mul y 1024; Ok (u64 z)
      else
        x ← stoi sizeStr; Ok (u64 x)
  end.

Definition GetL1DataCacheSize : result Z := getCacheSize 1 "data".
Definition GetL1InstructionCacheSize : result Z := getCacheSize 1 "instruction".
Definition GetL2CacheSize : result Z := getCacheSize 2 "unified".
Definition GetL3CacheSize : result Z := getCacheSize 3 "unified".
End code.

Definition GetTotalMemory (info : option sysinfo) : Z :=
  match info with Some i => u64 (totalram i * mem_unit i) | None => 0 end.
Definition GetUsedMemory (info : option sysinfo) : Z :=
  match info with Some i => u64 (u64 (totalram i - freeram i) * mem_unit i) | None => 0 end.
Definition GetFreeMemory (info : option sysinfo) : Z :=
  match info with Some i => u64 (freeram i * mem_unit i) | None => 0 end.

(** * Reading a size *)

Definition newline : Ascii.ascii := Ascii.Ascii false true false true false false false false.

(** A suffix of the kernel's size files: nothing, or one letter. *)
Inductive suffix := NoSuffix | KiB | MiB.

Definition suffix_text (u : suffix) : string :=
  match u with NoSuffix => EmptyString | KiB => String char_K EmptyString | MiB => String char_M EmptyString end.
Definition suffix_factor (u : suffix) : Z :=
  match u with NoSuffix => 1 | KiB => 1024 | MiB => 1024 * 1024 end.

Lemma suffix_not_digit u : starts_with_digit (suffix_text u) = false.
Proof. by destruct u. Qed.

Lemma take_word_digits s u rest :
  all_digits s = true → take_word (s +:+ suffix_text u +:+ String newline rest) = s +:+ suffix_text u.
Proof.
  induction s as [|c s IH]; simpl; [by destruct u|].
  intros [Hc Hs]%andb_true_iff. destruct (digit_not_special c Hc) as [-> _]. by rewrite IH.
Qed.

Lemma read_word_size n u rest :
  0 ≤ n → read_word (dec n +:+ suffix_text u +:+ String newline rest) = dec n +:+ suffix_text u.
Proof.
  intros Hn. rewrite <-(take_word_digits (dec n) u rest) by (by apply dec_digits). unfold read_word. f_equal.
  destruct (dec_starts n Hn) as (c & s & -> & Hc). simpl.
  by destruct (digit_not_special c Hc) as [-> _].
Qed.

Lemma back_app s c : back (s +:+ String c EmptyString) = Ok c.
Proof. induction s as [|a s IH]; [done|]. destruct s; [done|exact IH]. Qed.

Lemma back_digits s : all_digits s = true → s ≠ EmptyString → ∃ c, back s = Ok c ∧ is_digit c = true.
Proof.
  induction s as [|a s IH]; [done|]. simpl. intros [Ha Hs]%andb_true_iff _.
  destruct s as [|b s]; [by exists a|]. by apply IH.
Qed.

Lemma stoi_size n u : 0 ≤ n < 2 ^ 31 → stoi (dec n +:+ suffix_text u) = Ok n.
Proof.
  intros Hn. unfold stoi. rewrite strtol_dec by (lia || apply suffix_not_digit).
  by rewrite decide_True by (unfold is_int; lia).
Qed.

(** * Properties *)

(** Cache sizes are read correctly.  When the size file of a level holds a
    number below [2^31], possibly with the suffix K or M, and ends its first line,
    [getCacheSize] returns that many bytes, KiB or MiB, provided they fit an [int]; from
    2 GiB on the product overflows, which is undefined. *)
Theorem getCacheSize_reads read_file level type n u rest :
  read_file ("/sys/devices/system/cpu/cpu0/cache/index" +:+ dec level +:+ "/size") =
    Some (dec n +:+ suffix_text u +:+ String newline rest) →
  0 ≤ n < 2 ^ 31 →
  getCacheSize read_file level type =
    if decide (n * suffix_factor u < 2 ^ 31) then Ok (n * suffix_factor u) else Undef.
Proof.
  intros Hfile Hn. unfold getCacheSize. rewrite Hfile, read_word_size by lia. cbv zeta.
  destruct u; cbn [suffix_factor].
  - destruct (back_digits (dec n)) as (c & Hb & Hc); [apply dec_digits; lia| |].
    { by destruct (dec_starts n) as (? & ? & -> & _); [lia|]. }
    rewrite (stoi_size n NoSuffix) by lia. cbn [suffix_text].
    rewrite app_empty.
    rewrite Hb. cbn [mbind result_bind].
    assert (c ≠ char_K ∧ c ≠ char_M) as [HK HM] by (split; intros ->; discriminate).
    rewrite (decide_False (P := c = char_K)), (decide_False (P := c = char_M)) by done.
    rewrite Z.mul_1_r, decide_True by lia. by rewrite u64_small by lia.
  - rewrite stoi_size by lia. cbn [suffix_text]. rewrite back_app. cbn [mbind result_bind].
    rewrite (decide_True (P := char_K = char_K)) by done. unfold int_mul.
    destruct (decide (n * 1024 < 2 ^ 31)).
    + rewrite decide_True by (unfold is_int; lia). cbn [mbind result_bind]. by rewrite u64_small by lia.
    + by rewrite decide_False by (unfold is_int; lia).
  - rewrite stoi_size by lia. cbn [suffix_text]. rewrite back_app. cbn [mbind result_bind].
    rewrite (decide_False (P := char_M = char_K)), (decide_True (P := char_M = char_M)) by done. unfold int_mul.
    destruct (decide (n * (1024 * 1024) < 2 ^ 31)).
    + rewrite decide_True by (unfold is_int; lia). cbn [mbind result_bind].
      rewrite decide_True by (unfold is_int; lia). cbn [mbind result_bind].
      rewrite u64_small by lia. f_equal. lia.
    + destruct (decide (is_int (n * 1024))); [|done]. cbn [mbind result_bind].
      by rewrite decide_False by (unfold is_int; lia).
Qed.

Lemma getCacheSize_reads_witness :
  getCacheSize (λ _, Some (dec 512 +:+ suffix_text KiB +:+ String newline "")) 2 "unified" = Ok 524288.
Proof. apply (getCacheSize_reads _ 2 "unified" 512 KiB ""); [reflexivity|by vm_compute]. Defined.
