(* ===== verification/Arguments.v ===== *)
(** The command lines: [ProcessArguments] of [transpose_client.cpp], and the
    number of worker threads in the [main] of [transpose_server.cpp]. *)

From S2P Require Import Prelude ShmNames Numbers SpscQueue.
#[local] Open Scope Z_scope.

(** * The code *)

(** [argv], the program's name included; [None] is the answer [false].  The [int]s
    are converted to [uint32_t]. *)
Definition ProcessArguments (argv : list string) : result (option (Z * Z * Z * Z)) :=
  match argv with
  | [_] => Ok (Some (4, 4, 8, 1))
  | [_; a1; a2; a3; a4] =>
      m ← atoi a1; n ← atoi a2; k ← atoi a3; requestRepetitions ← atoi a4;
      Ok (Some (u32 m, u32 n, u32 k, u32 requestRepetitions))
  | _ => Ok None
  end.

(** [hardware] is [std::thread::hardware_concurrency()]; [None] is the exit with
    the error message. *)
Definition numWorkerThreads (argv : list string) (hardware : Z) : result (option Z) :=
  n ← match argv with
      | _ :: a1 :: _ => x ← atoi a1; Ok (u32 x)
      | _ => Ok (u32 hardware)
      end;
  if decide (Z.land n (u32 (n - 1)) ≠ 0) then Ok None else Ok (Some n).

(** * Lemmas *)

Lemma atoi_dec n : 0 ≤ n < 2 ^ 31 → atoi (dec n) = Ok n.
Proof.
  intros Hn. unfold atoi. rewrite <-(app_empty (dec n)), strtol_dec by (done || lia).
  by rewrite decide_True by (unfold is_int; lia).
Qed.

(** A word that starts with a letter has no digits to read. *)
Lemma atoi_letter c s :
  is_space c = false → is_digit c = false → c ≠ minus_sign → c ≠ plus_sign → atoi (String c s) = Ok 0.
Proof.
  intros Hs Hd Hm Hp. unfold atoi, strtol. simpl. rewrite Hs, !decide_False by done. simpl. by rewrite Hd.
Qed.

Lemma power_of_two_or_zero n :
  is_u32 n → Z.land n (u32 (n - 1)) = 0 ↔ n = 0 ∨ ∃ j, 0 ≤ j ∧ n = 2 ^ j.
Proof.
  unfold is_u32. intros Hn. destruct (decide (n = 0)) as [->|Hne]; [by split; [left|]|].
  rewrite u32_small by lia. rewrite land_pred_pow2 by lia. split; [by right|]. by intros [|].
Qed.

(** * Properties *)

(** C40: The client reads the parameters it is given.  Four numbers below [2^31],
    as they are printed, are read as these numbers; without arguments the
    parameters are 4, 4, 8 and 1; with any other number of arguments the client
    refuses. *)
Theorem ProcessArguments_reads prog m n k r :
  0 ≤ m < 2 ^ 31 → 0 ≤ n < 2 ^ 31 → 0 ≤ k < 2 ^ 31 → 0 ≤ r < 2 ^ 31 →
  ProcessArguments [prog; dec m; dec n; dec k; dec r] = Ok (Some (m, n, k, r)) ∧
  ProcessArguments [prog] = Ok (Some (4, 4, 8, 1)) ∧
  (∀ argv, length argv ≠ 1%nat → length argv ≠ 5%nat → ProcessArguments argv = Ok None).
Proof.
  intros Hm Hn Hk Hr. split_and!; [|done|].
  - unfold ProcessArguments. rewrite !atoi_dec by done. cbn [mbind result_bind].
    by rewrite !u32_small by lia.
  - intros argv H1 H5. do 6 (destruct argv as [|? argv]; [done|]). done.
Qed.

Lemma ProcessArguments_reads_witness :
  ProcessArguments ["transpose_client"; "6"; "7"; "8"; "100"] = Ok (Some (6, 7, 8, 100)).
Proof. apply (ProcessArguments_reads "transpose_client" 6 7 8 100); by vm_compute. Defined.

(** The server accepts exactly the powers of two as its number of worker
    threads, and zero, which is also what it reads from an argument that is not
    a number. *)
Theorem numWorkerThreads_accepts prog n rest hardware :
  0 ≤ n < 2 ^ 31 →
  (numWorkerThreads (prog :: dec n :: rest) hardware = Ok (Some n) ↔ n = 0 ∨ ∃ j, 0 ≤ j ∧ n = 2 ^ j) ∧
  (numWorkerThreads (prog :: dec n :: rest) hardware = Ok None ↔ ¬ (n = 0 ∨ ∃ j, 0 ≤ j ∧ n = 2 ^ j)) ∧
  numWorkerThreads (prog :: "four" :: rest) hardware = Ok (Some 0).
Proof.
  intros Hn. unfold numWorkerThreads. rewrite atoi_dec by done. cbn [mbind result_bind].
  rewrite (u32_small n) by lia. rewrite <-power_of_two_or_zero by (unfold is_u32; lia).
  case_decide as Hl; split_and!; try done; try naive_solver.
Qed.

Lemma numWorkerThreads_accepts_witness :
  numWorkerThreads ["transpose_server"; "0"] 8 = Ok (Some 0).
Proof.
  assert (0 ≤ 0 < 2 ^ 31) as Hn by lia.
  exact (proj2 (proj1 (numWorkerThreads_accepts "transpose_server" 0 [] 8 Hn)) (or_introl eq_refl)).
Defined.
