(* ===== verification/UnixSock.v ===== *)
(** The receiving side of [src/lib/unix-socks]: the threads of
    [UnixSockIpcServer] and [UnixSockIpcClient], with the events of [epoll] and
    the outcomes of [accept] and [recv] as their input. *)

From S2P Require Import Prelude PosixShm Bytes Messages.
#[local] Open Scope Z_scope.

(** * The system calls *)

(** What a turn of the receiving loop meets: [m_Running] found false at the test,
    or the outcome of [recv]: not ready ([EAGAIN]), another error, or bytes (none
    when the peer has closed the connection). *)
Inductive recv_outcome :=
  | RStopped
  | RAgain
  | RError
  | RData (bytes : list Z).

(** recv(2) never returns more bytes than were asked for. *)
Fixpoint recv_valid (room : Z) (outs : list recv_outcome) : Prop :=
  match outs with
  | [] => True
  | RData bytes :: outs' => zlen bytes ≤ room ∧ recv_valid (room - zlen bytes) outs'
  | _ :: outs' => recv_valid room outs'
  end.

(** [epoll_event], with the result of [accept] or the outcomes of [recv] that
    the thread meets when it handles the event.  The flags are those of Linux. *)
Record epoll_event := mkEvent {
  event_fd : Z;
  event_flags : Z;
  accepted : Z;
  outcomes : list recv_outcome
}.

Definition EPOLLIN : Z := 1.
Definition EPOLLERR : Z := 8.
Definition EPOLLHUP : Z := 16.
Definition EPOLLRDHUP : Z := 8192.

(** * The code *)

Inductive loop_end := Full | Stopped | Failed.

#[export] Instance loop_end_eq_dec : EqDecision loop_end.
Proof. solve_decision. Defined.

(** The receiving loop: bytes go to [buffer + totalRead].  [None] means that the
    thread is still in the loop when the outcomes are used up. *)
Fixpoint recv_loop (size : Z) (outs : list recv_outcome) (buffer : list Z) (totalRead : Z) :
    option (list Z * loop_end) :=
  if decide (totalRead < size) then
    match outs with
    | [] => None
    | RStopped :: _ => Some (buffer, Stopped)
    | RAgain :: outs' => recv_loop size outs' buffer totalRead
    | RError :: _ => Some (buffer, Failed)
    | RData bytes :: outs' =>
        recv_loop size outs' (splice (Z.to_nat totalRead) bytes buffer) (totalRead + zlen bytes)
    end
  else Some (buffer, Full).

(** The server thread's variables, the sockets it has registered with [epoll],
    and the calls of the message handler so far. *)
Record server_ipc := mkServerIpc {
  buffer : list Z;
  connections : gset Z;
  m_ConnectionCount : Z;
  handled : list (Z * list Z)
}.

Definition add_connection (fd : Z) (s : server_ipc) : server_ipc :=
  mkServerIpc (buffer s) ({[fd]} ∪ connections s) (u32 (m_ConnectionCount s + 1)) (handled s).
Definition drop_connection (fd : Z) (s : server_ipc) : server_ipc :=
  mkServerIpc (buffer s) (connections s ∖ {[fd]}) (u32 (m_ConnectionCount s - 1)) (handled s).
Definition call_handler (fd : Z) (s : server_ipc) : server_ipc :=
  mkServerIpc (buffer s) (connections s) (m_ConnectionCount s) (handled s ++ [(fd, buffer s)]).
Definition set_buffer (b : list Z) (s : server_ipc) : server_ipc :=
  mkServerIpc b (connections s) (m_ConnectionCount s) (handled s).

(** One event of [ServerThread].  After an error of [recv] the connection is
    dropped, and the handler is called all the same. *)
Definition handle_server_event (baseFd size : Z) (ev : epoll_event) (s : server_ipc) : option server_ipc :=
  if decide (event_fd ev = baseFd) then
    if decide (accepted ev < 0) then Some s else Some (add_connection (accepted ev) s)
  else if decide (Z.land (event_flags ev) (Z.lor (Z.lor EPOLLHUP EPOLLERR) EPOLLRDHUP) ≠ 0) then
    Some (drop_connection (event_fd ev) s)
  else if decide (Z.land (event_flags ev) EPOLLIN ≠ 0) then
    '(b, e) ← recv_loop size (outcomes ev) (buffer s) 0;
    let s1 := set_buffer b s in
    let s2 := if decide (e = Failed) then drop_connection (event_fd ev) s1 else s1 in
    Some (call_handler (event_fd ev) s2)
  else Some s.

Definition handle_server_events (baseFd size : Z) (evs : list epoll_event) (s : server_ipc) : option server_ipc :=
  foldl (λ o ev, s ← o; handle_server_event baseFd size ev s) (Some s) evs.

(** The client thread: [m_Running], its counter, its buffer and the messages
    handed to the handler.  Any error ends the thread. *)
Record client_ipc := mkClientIpc {
  c_buffer : list Z;
  c_running : bool;
  c_connectionCount : Z;
  c_handled : list (list Z)
}.

Definition client_stop (s : client_ipc) : client_ipc :=
  mkClientIpc (c_buffer s) false (u32 (c_connectionCount s - 1)) (c_handled s).

Definition handle_client_event (size : Z) (ev : epoll_event) (s : client_ipc) : option client_ipc :=
  if decide (Z.land (event_flags ev) (Z.lor (Z.lor EPOLLHUP EPOLLERR) EPOLLRDHUP) ≠ 0) then
    Some (client_stop s)
  else if decide (Z.land (event_flags ev) EPOLLIN ≠ 0) then
    '(b, e) ← recv_loop size (outcomes ev) (c_buffer s) 0;
    if decide (e = Failed) then
      Some (client_stop (mkClientIpc b (c_running s) (c_connectionCount s) (c_handled s)))
    else
      Some (mkClientIpc b (if decide (e = Stopped) then false else c_running s) (c_connectionCount s)
              (c_handled s ++ [b]))
  else Some s.

(** [UnixSockIpcBase]'s counter starts at zero for both. *)
Definition server_ipc_init (size : nat) : server_ipc := mkServerIpc (replicate size 0) ∅ 0 [].

(** * The receiving loop *)

(** The bytes of a sequence of outcomes. *)
Definition data_of (outs : list recv_outcome) : list Z :=
  outs ≫= λ o, match o with RData bytes => bytes | _ => [] end.

(** Only bytes and [EAGAIN]. *)
Definition undisturbed (outs : list recv_outcome) : Prop :=
  Forall (λ o, match o with RStopped | RError => False | _ => True end) outs.

Lemma splice_length off (new bs : list Z) :
  (off + length new ≤ length bs)%nat → length (splice off new bs) = length bs.
Proof. intros. unfold splice. rewrite !length_app, length_take, length_drop. lia. Qed.

Lemma take_splice off (new bs : list Z) :
  (off ≤ length bs)%nat → take (off + length new) (splice off new bs) = take off bs ++ new.
Proof.
  intros. unfold splice. rewrite app_assoc.
  assert ((off + length new)%nat = length (take off bs ++ new)) as -> by (rewrite length_app, length_take; lia).
  apply take_app_length.
Qed.

Lemma recv_loop_all size outs : ∀ buffer t,
  zlen buffer = size → 0 ≤ t ≤ size → undisturbed outs → recv_valid (size - t) outs →
  t + zlen (data_of outs) = size →
  recv_loop size outs buffer t = Some (take (Z.to_nat t) buffer ++ data_of outs, Full).
Proof.
  induction outs as [|o outs IH]; intros buf t Hb Ht Hu Hv Hd.
  - cbn in Hd. change (zlen []) with 0 in Hd. simpl. rewrite decide_False by lia. rewrite app_nil_r, take_ge; [done|].
    unfold zlen in Hb. lia.
  - apply Forall_cons in Hu as [Ho Hu']. cbn [recv_loop]. case_decide as Hlt.
    + destruct o as [| | |bytes]; try done; [by apply IH|]. destruct Hv as [Hroom Hv].
      unfold data_of in Hd. rewrite bind_cons, zlen_app in Hd. fold (data_of outs) in Hd.
      pose proof (zlen_nonneg bytes). unfold zlen in Hb, Hroom, Hlt, Ht.
      rewrite IH; [|unfold zlen; rewrite splice_length by lia; lia|unfold zlen; lia|done| |lia].
      2:{ by replace (size - (t + zlen bytes)) with (size - t - zlen bytes) by lia. }
      unfold data_of. rewrite bind_cons, app_assoc. do 3 f_equal.
      rewrite Z2Nat.inj_add by lia. unfold zlen. rewrite Nat2Z.id. apply take_splice. lia.
    + pose proof (zlen_nonneg (data_of (o :: outs))). assert (data_of (o :: outs) = []) as ->.
      { apply nil_length_inv. unfold zlen in *. lia. }
      rewrite app_nil_r, take_ge; [done|]. unfold zlen in *. lia.
Qed.

(** The buffer keeps its length, whatever happens. *)
Lemma recv_loop_length size outs : ∀ buffer t buffer' e,
  zlen buffer = size → 0 ≤ t → recv_valid (size - t) outs →
  recv_loop size outs buffer t = Some (buffer', e) → zlen buffer' = size.
Proof.
  induction outs as [|o outs IH]; intros buf t buffer' e Hb Ht Hv Hrun; cbn [recv_loop] in Hrun;
    case_decide as Hlt; try (injection Hrun as <- _; done); [done|].
  destruct o as [| | |bytes]; try (injection Hrun as <- _; done); [by eapply IH|].
  destruct Hv as [Hroom Hv]. pose proof (zlen_nonneg bytes). unfold zlen in Hb, Hroom, Hlt.
  eapply (IH _ (t + zlen bytes)) in Hrun; [done|unfold zlen; rewrite splice_length by lia; lia|lia|].
  by replace (size - (t + zlen bytes)) with (size - t - zlen bytes) by lia.
Qed.

(** * The server's connections *)

(** What [epoll] and [accept] report: events of registered sockets, new sockets. *)
Definition event_ok (baseFd size : Z) (s : server_ipc) (ev : epoll_event) : Prop :=
  recv_valid size (outcomes ev) ∧
  if decide (event_fd ev = baseFd) then 0 ≤ accepted ev → accepted ev ∉ connections s
  else event_fd ev ∈ connections s.

Definition server_ipc_step (baseFd size : Z) (s s' : server_ipc) : Prop :=
  ∃ ev, event_ok baseFd size s ev ∧ handle_server_event baseFd size ev s = Some s'.

Definition ipc_inv (size : Z) (s : server_ipc) : Prop :=
  m_ConnectionCount s = u32 (Z.of_nat (base.size (connections s))) ∧ zlen (buffer s) = size.

Lemma add_connection_inv size fd s : fd ∉ connections s → ipc_inv size s → ipc_inv size (add_connection fd s).
Proof.
  intros Hfd [Hc Hb]. split; [|done]. simpl. rewrite size_union by set_solver.
  rewrite size_singleton, Hc, u32_add_l. f_equal. lia.
Qed.

Lemma drop_connection_inv size fd s : fd ∈ connections s → ipc_inv size s → ipc_inv size (drop_connection fd s).
Proof.
  intros Hfd [Hc Hb]. split; [|done]. simpl. rewrite size_difference by set_solver.
  rewrite size_singleton, Hc, u32_sub_l. f_equal.
  assert (base.size (connections s) ≠ 0%nat) by (rewrite size_non_empty_iff; set_solver). lia.
Qed.

Lemma ipc_inv_step baseFd size s s' : ipc_inv size s → server_ipc_step baseFd size s s' → ipc_inv size s'.
Proof.
  intros Hinv (ev & [Hv Hok] & Hrun). unfold handle_server_event in Hrun.
  case_decide as Hbase; [|case_decide; [|case_decide]].
  - case_decide; injection Hrun as <-; [done|]. apply add_connection_inv; [|done]. apply Hok. lia.
  - injection Hrun as <-. by apply drop_connection_inv.
  - destruct (recv_loop size (outcomes ev) (buffer s) 0) as [[b e]|] eqn:Hloop; [|done].
    injection Hrun as <-. destruct Hinv as [Hc Hb].
    apply recv_loop_length in Hloop; [|done|done|by rewrite Z.sub_0_r].
    assert (ipc_inv size (set_buffer b s)) as Hinv by done.
    case_decide; [|exact Hinv]. by apply (drop_connection_inv size (event_fd ev)) in Hinv.
  - by injection Hrun as <-.
Qed.

(** * Properties *)

(** The outcomes of [recv] that bring exactly the bytes of a message, in any
    number of pieces, with any number of failed attempts in between. *)
Definition brings (outs : list recv_outcome) (bytes : list Z) : Prop :=
  undisturbed outs ∧ recv_valid (zlen bytes) outs ∧ data_of outs = bytes.

(** A readable connection without a hang-up. *)
Definition readable (flags : Z) : Prop :=
  Z.land flags (Z.lor (Z.lor EPOLLHUP EPOLLERR) EPOLLRDHUP) = 0 ∧ Z.land flags EPOLLIN ≠ 0.

Lemma brings_loop outs bytes buf size :
  brings outs bytes → zlen bytes = size → zlen buf = size →
  recv_loop size outs buf 0 = Some (bytes, Full).
Proof.
  intros (Hu & Hv & Hd) Hs Hb. pose proof (zlen_nonneg bytes).
  rewrite recv_loop_all; [by rewrite Hd|done|lia|done| |by rewrite Hd].
  by rewrite Z.sub_0_r, <-Hs.
Qed.

(** C26: Messages arrive whole.  However [recv] cuts the twenty bytes of a message
    into pieces, and whatever the buffer held before, server and client thread
    hand exactly these bytes to their handler, who reads back the message that
    was sent; the connections are left alone. *)
Theorem message_delivered baseFd fd flags acc outs msg s c :
  fd ≠ baseFd → readable flags → is_message msg → brings outs (message_bytes msg) →
  zlen (buffer s) = 20 → zlen (c_buffer c) = 20 →
  let ev := mkEvent fd flags acc outs in
  handle_server_event baseFd 20 ev s =
    Some (mkServerIpc (message_bytes msg) (connections s) (m_ConnectionCount s)
            (handled s ++ [(fd, message_bytes msg)])) ∧
  handle_client_event 20 ev c =
    Some (mkClientIpc (message_bytes msg) (c_running c) (c_connectionCount c)
            (c_handled c ++ [message_bytes msg])) ∧
  message_of_bytes (message_bytes msg) = msg.
Proof.
  intros Hfd [Hhup Hin] Hmsg Hbr Hs Hc ev.
  assert (zlen (message_bytes msg) = 20) as Hl by (unfold zlen; by rewrite length_message_bytes).
  assert (∀ buf, zlen buf = 20 → recv_loop 20 outs buf 0 = Some (message_bytes msg, Full)) as Hloop
    by (intros buf Hbuf; by apply brings_loop).
  unfold handle_server_event, handle_client_event. simpl. rewrite Hhup, !Hloop by done. split_and!.
  - by rewrite (decide_False (P := fd = baseFd)), (decide_False (P := 0 ≠ 0)), (decide_True (P := Z.land _ _ ≠ 0)) by auto.
  - by rewrite (decide_False (P := 0 ≠ 0)), (decide_True (P := Z.land _ _ ≠ 0)) by auto.
  - by apply message_of_message_bytes.
Qed.

Lemma message_delivered_witness :
  handle_server_event 3 20
    (mkEvent 7 1 0 [RAgain; RData (take 5 (message_bytes (mkMessage 1 77 0 0 0))); RAgain;
                    RData (drop 5 (message_bytes (mkMessage 1 77 0 0 0)))]) (server_ipc_init 20) =
  Some (mkServerIpc (message_bytes (mkMessage 1 77 0 0 0)) ∅ 0
          [(7, message_bytes (mkMessage 1 77 0 0 0))]).
Proof.
  apply (message_delivered 3 7 1 0 _ (mkMessage 1 77 0 0 0) (server_ipc_init 20)
    (mkClientIpc (replicate 20 0) true 0 []));
    [done|by split|by vm_compute|split_and!; [by repeat constructor|by vm_compute|reflexivity]|done|done].
Defined.

(** [GetConnectionCount] is right on the server: after any sequence of
    connections, hang-ups, errors and messages, the counter is the number of
    sockets the server holds (as 32 bits), and the buffer still has the size of
    a message. *)
Theorem connection_count_exact baseFd n s :
  rtc (server_ipc_step baseFd (Z.of_nat n)) (server_ipc_init n) s →
  m_ConnectionCount s = u32 (Z.of_nat (size (connections s))) ∧ zlen (buffer s) = Z.of_nat n.
Proof.
  apply (invariant_rtc _ (ipc_inv (Z.of_nat n))); [intros; by eapply ipc_inv_step|].
  split; [done|]. apply zlen_replicate.
Qed.

Lemma connection_count_exact_witness :
  m_ConnectionCount (add_connection 5 (server_ipc_init 20)) =
    u32 (Z.of_nat (size (connections (add_connection 5 (server_ipc_init 20))))) ∧
  zlen (buffer (add_connection 5 (server_ipc_init 20))) = Z.of_nat 20.
Proof.
  apply (connection_count_exact 3 20). apply rtc_once. exists (mkEvent 3 1 5 []).
  split; [split; [done|]; simpl; set_solver|reflexivity].
Defined.

(** After an error of [recv] the server handles a message nobody sent: the
    connection is dropped, but the handler is still called, with whatever the
    buffer held, so that a connection that fails before its first byte repeats
    the last message of another client. *)
Theorem recv_error_replays baseFd fd flags acc outs s :
  fd ≠ baseFd → readable flags → Forall (λ o, o = RAgain) outs → zlen (buffer s) = 20 →
  handle_server_event baseFd 20 (mkEvent fd flags acc (outs ++ [RError])) s =
    Some (mkServerIpc (buffer s) (connections s ∖ {[fd]}) (u32 (m_ConnectionCount s - 1))
            (handled s ++ [(fd, buffer s)])).
Proof.
  intros Hfd [Hhup Hin] Houts Hs.
  assert (recv_loop 20 (outs ++ [RError]) (buffer s) 0 = Some (buffer s, Failed)) as Hloop
    by (induction Houts as [|o l -> _ IH]; [done|exact IH]).
  unfold handle_server_event. simpl. rewrite Hhup, Hloop.
  rewrite (decide_False (P := fd = baseFd)), (decide_False (P := 0 ≠ 0)), (decide_True (P := Z.land _ _ ≠ 0)) by auto.
  done.
Qed.

Definition after_message : server_ipc := mkServerIpc (message_bytes (mkMessage 1 77 0 0 0)) {[7; 8]} 2 [].

Lemma recv_error_replays_witness :
  handle_server_event 3 20 (mkEvent 8 1 0 ([RAgain] ++ [RError])) after_message =
  Some (mkServerIpc (buffer after_message) (connections after_message ∖ {[8]})
          (u32 (m_ConnectionCount after_message - 1))
          (handled after_message ++ [(8, buffer after_message)])).
Proof.
  apply (recv_error_replays 3 8 1 0 [RAgain] after_message);
    [done|by split|by repeat constructor|reflexivity].
Defined.
