(* ===== verification/SockObjects.v ===== *)
(** The life of a [UnixSockIpcServer] and of a [UnixSockIpcClient]
    ([src/lib/unix-socks]): construction on every path, [Send], the threads' outer
    loops, the draining of the server's connections, and destruction.  The
    handling of one event is in [UnixSock]. *)

From S2P Require Import Prelude ShmNames PosixShm Sockets Messages UnixSock.
#[local] Open Scope Z_scope.

(** * Construction *)

(** The members of [UnixSockIpcBase]; [m_ConnectionCount] is the thread's. *)
Record UnixSockIpcBase := mkBase {
  m_BaseSocketFd : Z;
  m_AddrStruct : sockaddr_un;
  m_BaseSocketAddress : string
}.

Record UnixSockIpc := mkIpc {
  base_part : UnixSockIpcBase;
  m_Running : bool;
  m_epollFd : Z
}.

Definition AF_UNIX : Z := 1.
Definition sizeof_sun_path : nat := 108.

(** [strncpy(dst, src, n)]: at most [n] characters, padded with NULs to [n]. *)
Definition strncpy (dst src : list Z) (n : nat) : list Z :=
  let copied := take n (c_string src) in
  copied ++ replicate (n - length copied) 0 ++ drop n dst.

Definition make_address (address : string) : sockaddr_un :=
  mkSockaddr AF_UNIX (strncpy (replicate sizeof_sun_path 0) (bytes_of_string address) (sizeof_sun_path - 1)).

Section code.
Context `{SocketApi}.

Definition socket_error (what : string) (k : net) : exn :=
  RuntimeError (what +:+ " (errno: " +:+ dec (net_errno k) +:+ "): " +:+ error_text (net_errno k)).

Definition too_long : exn :=
  RuntimeError ("Address is too long. Must be less than " +:+ dec (Z.of_nat sizeof_sun_path - 1) +:+ " characters").

Definition UnixSockIpcBase_ctor (address : string) (instanceIsServer : bool) : netM UnixSockIpcBase := λ k,
  if decide (Z.of_nat sizeof_sun_path - 1 ≤ slen address) then (k, Throw too_long) else
  let '(k1, fd) := socket k in
  if decide (fd < 0) then (k1, Throw (socket_error "Failed to create socket" k1)) else
  let k2 := if instanceIsServer then remove k1 (c_path address) else k1 in
  (k2, Ok (mkBase fd (make_address address) address)).

(** A call that must not fail: on failure the base socket is closed and an
    exception is thrown, with the [errno] that [close] has left. *)
Definition or_close (baseFd : Z) (what : string) (call : net → net * Z) : netM Z := λ k,
  let '(k1, r) := call k in
  if decide (r < 0) then
    let k2 := close_descriptor k1 baseFd in (k2, Throw (socket_error what k2))
  else (k1, Ok r).

(** [m_CommunicatorThread = std::thread(...)]; a refusal is a [system_error]. *)
Definition launch : netM () := λ k,
  let '(k1, ok) := start_thread k in
  (k1, if ok : bool then Ok () else Throw (RuntimeError "Resource temporarily unavailable")).

(** What both constructors end with. *)
Definition watch_base (b : UnixSockIpcBase) : netM UnixSockIpc :=
  ep ← or_close (m_BaseSocketFd b) "Failed to create epoll instance" epoll_create1;
  _ ← or_close (m_BaseSocketFd b) "Failed to add server socket to epoll instance"
        (λ k, epoll_ctl_add k ep (m_BaseSocketFd b));
  _ ← launch;
  mret (mkIpc b true ep).

Definition UnixSockIpcServer_ctor (address : string) : netM UnixSockIpc :=
  b ← UnixSockIpcBase_ctor address true;
  _ ← or_close (m_BaseSocketFd b) "Failed to bind socket" (λ k, bind k (m_BaseSocketFd b) (m_AddrStruct b));
  _ ← or_close (m_BaseSocketFd b) "Failed to listen on socket" (λ k, listen k (m_BaseSocketFd b) 16);
  watch_base b.

Definition UnixSockIpcClient_ctor (address : string) : netM UnixSockIpc :=
  b ← UnixSockIpcBase_ctor address false;
  _ ← or_close (m_BaseSocketFd b) "Failed to connect to server"
        (λ k, connect k (m_BaseSocketFd b) (m_AddrStruct b));
  watch_base b.

(** The destructors, after the join of the thread. *)
Definition UnixSockIpcServer_dtor (o : UnixSockIpc) (k : net) : net :=
  let k1 := close_descriptor k (m_epollFd o) in
  let k2 := close_descriptor k1 (m_BaseSocketFd (base_part o)) in
  remove k2 (c_path (m_BaseSocketAddress (base_part o))).

Definition UnixSockIpcClient_dtor (o : UnixSockIpc) (k : net) : net :=
  let k1 := close_descriptor k (m_epollFd o) in
  close_descriptor k1 (m_BaseSocketFd (base_part o)).
End code.

(** * Sending *)

(** What [send] does: it takes some of the bytes, fails, or raises [SIGPIPE],
    which ends the process, because the other side has closed the connection. *)
Inductive send_outcome := STaken (n : nat) | SError | SPipe.

(** The bytes that enter the stream; [None] if the process ends. *)
Definition send_bytes (message : list Z) (o : send_outcome) : option (list Z) :=
  match o with
  | STaken n => Some (take n message)
  | SError => Some []
  | SPipe => None
  end.

Definition server_Send (running : bool) (message : list Z) (o : send_outcome) : option (list Z) :=
  if running then send_bytes message o else Some [].

Definition client_Send (running : bool) (message : list Z) (o : send_outcome) : result (option (list Z)) :=
  if running then Ok (send_bytes message o)
  else Throw (RuntimeError "Communicator is not initialized or is not running").

(** * The threads *)

(** What [epoll_wait] returns, and what a turn of a thread's loop meets. *)
Inductive wait_result := WaitError | WaitEvents (evs : list epoll_event).
Inductive turn := NotRunning | Turn (w : wait_result).

(** The first loop of [ServerThread]; [None] when the thread is still in it. *)
Fixpoint server_loop (baseFd size : Z) (turns : list turn) (s : server_ipc) : option server_ipc :=
  match turns with
  | [] => None
  | NotRunning :: _ | Turn WaitError :: _ => Some s
  | Turn (WaitEvents evs) :: turns' =>
      s' ← handle_server_events baseFd size evs s; server_loop baseFd size turns' s'
  end.

(** The second loop: every event closes its connection, whatever it reports. *)
Definition close_connection (fd : Z) (s : server_ipc) : server_ipc :=
  mkServerIpc (buffer s) (connections s ∖ {[fd]}) (m_ConnectionCount s) (handled s).
Definition drain_event (baseFd : Z) (s : server_ipc) (ev : epoll_event) : server_ipc :=
  if decide (event_fd ev ≠ baseFd) then close_connection (event_fd ev) s else s.

Fixpoint drain_loop (baseFd : Z) (waits : list wait_result) (s : server_ipc) : option server_ipc :=
  match waits with
  | [] => None
  | WaitError :: _ | WaitEvents [] :: _ => Some s
  | WaitEvents evs :: waits' => drain_loop baseFd waits' (foldl (drain_event baseFd) s evs)
  end.

Definition ServerThread (baseFd size : Z) (turns : list turn) (waits : list wait_result) (s : server_ipc) :
    option server_ipc :=
  s' ← server_loop baseFd size turns s; drain_loop baseFd waits s'.

(** [ClientThread]: one event at most per turn. *)
Fixpoint client_loop (size : Z) (turns : list turn) (s : client_ipc) : option client_ipc :=
  match turns with
  | [] => None
  | NotRunning :: _ => Some s
  | Turn WaitError :: _ =>
      Some (mkClientIpc (c_buffer s) false (c_connectionCount s) (c_handled s))
  | Turn (WaitEvents []) :: turns' => client_loop size turns' s
  | Turn (WaitEvents (ev :: _)) :: turns' =>
      s' ← handle_client_event size ev s;
      if c_running s' then client_loop size turns' s' else Some s'
  end.

(** The accessors. *)
Definition GetConnectionCount (s : server_ipc) : Z := m_ConnectionCount s.
Definition IsRunning (o : UnixSockIpc) : bool := m_Running o.

(** * Addresses *)

Lemma c_string_length bs : (length (c_string bs) ≤ length bs)%nat.
Proof. induction bs as [|b bs IH]; simpl; [lia|]. case_decide; simpl; lia. Qed.

Lemma c_string_terminated bs rest : c_string (c_string bs ++ 0 :: rest) = c_string bs.
Proof.
  induction bs as [|b bs IH]; [done|]. simpl. case_decide as Hb; [done|]. simpl.
  by rewrite decide_False, IH.
Qed.

Lemma length_bytes_of_string s : Z.of_nat (length (bytes_of_string s)) = slen s.
Proof.
  unfold bytes_of_string, slen. rewrite length_fmap. induction s as [|c s IH]; [done|].
  cbn [String.list_ascii_of_string length String.length]. lia.
Qed.

(** The address carries the whole path: [strncpy] truncates nothing. *)
Lemma make_address_path address :
  slen address < Z.of_nat sizeof_sun_path - 1 → address_path (make_address address) = c_path address.
Proof.
  intros Hlen. unfold address_path, make_address, c_path. cbn [sun_path]. f_equal. unfold strncpy.
  pose proof (c_string_length (bytes_of_string address)) as Hc. pose proof (length_bytes_of_string address).
  unfold sizeof_sun_path in *. rewrite take_ge by lia.
  destruct (108 - 1 - length (c_string (bytes_of_string address)))%nat eqn:Hn; [lia|].
  cbn [replicate app]. apply c_string_terminated.
Qed.

(** * What the constructors establish *)

Section proofs.
Context `{SocketSpec}.

Lemma or_close_cases fd what call k k' r :
  or_close fd what call k = (k', r) →
  (∃ v, call k = (k', v) ∧ 0 ≤ v ∧ r = Ok v) ∨
  (∃ k1 v, call k = (k1, v) ∧ v < 0 ∧ k' = close_descriptor k1 fd ∧ r = Throw (socket_error what k')).
Proof.
  unfold or_close. destruct (call k) as [k1 v]. case_decide; intros [= <- <-].
  - right. by exists k1, v.
  - left. exists v. split_and!; [done|lia|done].
Qed.

(** A failing call gives the base socket back. *)
Lemma close_base k k1 fd x f0 :
  fdtab k = <[fd := x]> f0 → f0 !! fd = None → net_unchanged k k1 → fdtab (close_descriptor k1 fd) = f0.
Proof.
  intros Hf Hfree (Hk & _). destruct (close_descriptor_spec k1 fd) as (-> & _).
  rewrite Hk, Hf. by apply delete_insert_id.
Qed.

(** How a construction can end, from descriptors [f0]: running, refused without
    a trace in the table of descriptors, or with one of the two leaks. *)
Inductive ctor_outcome (f0 : gmap Z Z) (k' : net) (fd x : Z) : result UnixSockIpc → Prop :=
  | ctor_running o e s :
      m_Running o = true → m_BaseSocketFd (base_part o) = fd →
      fdtab k' = <[m_epollFd o := e]> (<[fd := x]> f0) → fd ≠ m_epollFd o → f0 !! m_epollFd o = None →
      watched k' !! e = Some s → x ∈ s →
      ctor_outcome f0 k' fd x (Ok o)
  | ctor_refused what :
      fdtab k' = f0 → ctor_outcome f0 k' fd x (Throw (RuntimeError what))
  | ctor_leaks_epoll ep e :
      f0 !! ep = None → fdtab k' = <[ep := e]> f0 →
      ctor_outcome f0 k' fd x (Throw (socket_error "Failed to add server socket to epoll instance" k'))
  | ctor_leaks_both ep e :
      f0 !! ep = None → fd ≠ ep → fdtab k' = <[ep := e]> (<[fd := x]> f0) →
      ctor_outcome f0 k' fd x (Throw (RuntimeError "Resource temporarily unavailable")).

Lemma watch_base_outcome f0 b x k k' r :
  fdtab k = <[m_BaseSocketFd b := x]> f0 → f0 !! m_BaseSocketFd b = None →
  watch_base b k = (k', r) →
  ctor_outcome f0 k' (m_BaseSocketFd b) x r ∧
  ((∃ o, r = Ok o) → paths k' = paths k ∧ listening k' = listening k ∧ live k ⊆ live k' ∧
     ∃ o, r = Ok o ∧ base_part o = b).
Proof.
  intros Hf Hfree Hrun. set (fd := m_BaseSocketFd b) in *. unfold watch_base in Hrun. fold fd in Hrun.
  apply stM_bind_cases in Hrun as [(k1 & ep & Hep & Hrun)|[(e & Hep & ->)|[[Hep ->]|[Hep ->]]]];
    apply or_close_cases in Hep as [(v & Hep & Hv & Hr)|(k2 & v & Hep & Hv & Hk & Hr)]; try done.
  2:{ apply epoll_create1_spec in Hep. injection Hr as ->. split; [|by intros [? ?]]. apply ctor_refused.
      rewrite Hk. eapply close_base; [done..|]. destruct Hep as [|k2 ? x' [? _ _ _ _ _ _]]; [done|lia]. }
  injection Hr as ->. apply epoll_create1_spec in Hep.
  destruct Hep as [? ep Hneg|k1 ep e [_ Hepfree Hefresh Hf1 Hv1 Hp1 Hl1] Hw1]; [lia|].
  rewrite Hf in Hepfree. apply lookup_insert_None in Hepfree as [Hepf0 Hne].
  apply stM_bind_cases in Hrun as [(k2 & v2 & Hadd & Hrun)|[(exc & Hadd & ->)|[[Hadd ->]|[Hadd ->]]]];
    apply or_close_cases in Hadd as [(v' & Hadd & Hv' & Hr)|(k3 & v' & Hadd & Hv' & Hk & Hr)]; try done.
  2:{ apply epoll_ctl_add_spec in Hadd. injection Hr as ->. split; [|by intros [? ?]].
      apply (ctor_leaks_epoll _ _ _ _ ep e); [done|]. rewrite Hk.
      destruct Hadd as [k3 ? _ (Hk3 & _)|]; [|lia].
      destruct (close_descriptor_spec k3 fd) as (-> & _). rewrite Hk3, Hf1, Hf.
      rewrite delete_insert_ne by done. by rewrite delete_insert_id. }
  injection Hr as ->. apply epoll_ctl_add_spec in Hadd.
  destruct Hadd as [? ? Hneg|k2 e' x' s He Hx Hws Hf2 Hv2 Hp2 Hl2 Hw2]; [lia|].
  rewrite Hf1, lookup_insert_eq in He. injection He as <-.
  rewrite Hf1, lookup_insert_ne, Hf, lookup_insert_eq in Hx by done. injection Hx as <-.
  rewrite Hf1, Hf in Hf2.
  unfold launch, mbind, stM_bind in Hrun. destruct (start_thread k2) as [k3 ok] eqn:Hth.
  apply start_thread_spec in Hth as (Hf3 & Hv3 & Hp3 & Hl3 & Hw3). destruct ok; injection Hrun as <- <-.
  - split.
    + eapply ctor_running; simpl; [done|done|by rewrite Hf3, Hf2|done|done|rewrite Hw3, Hw2; apply lookup_insert_eq|set_solver].
    + intros _. split_and!; [congruence..|set_solver|eauto].
  - split; [|by intros [? ?]]. apply (ctor_leaks_both _ _ _ _ ep e); [done|done|congruence].
Qed.

Definition path_limit : Z := Z.of_nat sizeof_sun_path - 1.

(** The base constructor: a fresh socket, with a server's old path removed. *)
Lemma base_ctor_cases address srv k k' r :
  slen address < path_limit → UnixSockIpcBase_ctor address srv k = (k', r) →
  (∃ what, r = Throw (RuntimeError what) ∧ fdtab k' = fdtab k) ∨
  ∃ fd x, r = Ok (mkBase fd (make_address address) address) ∧ fdtab k !! fd = None ∧ x ∉ live k ∧
    fdtab k' = <[fd := x]> (fdtab k) ∧ live k' = {[x]} ∪ live k ∧ listening k' = listening k ∧
    (paths k' = paths k ∨ srv = true ∧ paths k' = delete (c_path address) (paths k)).
Proof.
  intros Hlen. unfold UnixSockIpcBase_ctor, path_limit in *. rewrite decide_False by lia.
  destruct (socket k) as [k1 fd] eqn:Hs. apply socket_spec in Hs.
  destruct Hs as [k1 fd Hfd (Hf & _)|k1 fd x [Hfd Hfree Hfresh Hf Hl Hp Hli] Hw].
  - rewrite decide_True by done. intros [= <- <-]. left. by eexists.
  - rewrite decide_False by lia. intros [= <- <-]. right. exists fd, x.
    destruct srv; [|split_and!; auto].
    destruct (remove_spec k1 (c_path address)) as [k2 (-> & -> & -> & -> & _)|k2 -> -> -> ->];
      split_and!; auto; [rewrite Hp; auto..].
Qed.

(** What a constructed server stands for: a listening socket that its path names. *)
Lemma server_ctor_cases address k k' r :
  slen address < path_limit → UnixSockIpcServer_ctor address k = (k', r) →
  (∃ what, r = Throw (RuntimeError what) ∧ fdtab k' = fdtab k) ∨
  ∃ fd x, fdtab k !! fd = None ∧ x ∉ live k ∧ ctor_outcome (fdtab k) k' fd x r ∧
    (∀ o, r = Ok o → paths k' !! c_path address = Some x ∧ x ∈ listening k' ∧ x ∈ live k' ∧
       base_part o = mkBase fd (make_address address) address).
Proof.
  intros Hlen Hrun. unfold UnixSockIpcServer_ctor in Hrun.
  apply stM_bind_cases in Hrun as [(k1 & b & Hb & Hrun)|[(e & Hb & ->)|[[Hb ->]|[Hb ->]]]];
    apply base_ctor_cases in Hb as [(what & Hr & Hf)|(fd & x & Hr & Hfree & Hfresh & Hf & Hv1 & Hli & _)]; try done.
  2:{ left. exists what. by injection Hr as ->. }
  injection Hr as ->. cbn [m_BaseSocketFd m_AddrStruct] in Hrun.
  apply stM_bind_cases in Hrun as [(k2 & v2 & Hbind & Hrun)|[(exc & Hbind & ->)|[[Hbind ->]|[Hbind ->]]]];
    apply or_close_cases in Hbind as [(v & Hbind & Hv & Hr)|(k3 & v & Hbind & Hv & Hk & Hr)]; try done;
    apply bind_spec in Hbind.
  2:{ left. injection Hr as ->. eexists. split; [done|]. rewrite Hk.
      destruct Hbind as [k3 ? _ Hun|]; [|lia]. by eapply close_base. }
  injection Hr as ->.
  destruct Hbind as [? ? Hneg|k2 x' Hx _ Hf2 Hv2 Hp2 Hl2 _]; [lia|].
  rewrite Hf, lookup_insert_eq in Hx. injection Hx as <-. rewrite make_address_path in Hp2 by done.
  rewrite Hf in Hf2. clear Hv.
  apply stM_bind_cases in Hrun as [(k3 & v3 & Hlis & Hrun)|[(exc & Hlis & ->)|[[Hlis ->]|[Hlis ->]]]];
    apply or_close_cases in Hlis as [(v & Hlis & Hv & Hr)|(k4 & v & Hlis & Hv & Hk & Hr)]; try done;
    apply listen_spec in Hlis.
  2:{ left. injection Hr as ->. eexists. split; [done|]. rewrite Hk.
      destruct Hlis as [k4 ? _ Hun|]; [|lia]. by eapply close_base. }
  destruct Hlis as [? ? Hneg|k3 x' Hx Hf3 Hv3 Hp3 Hl3 _]; [lia|].
  rewrite Hf2, lookup_insert_eq in Hx. injection Hx as <-. rewrite Hf2 in Hf3.
  right. exists fd, x. destruct (watch_base_outcome (fdtab k) (mkBase fd (make_address address) address) x k3 k' r Hf3 Hfree Hrun) as [Hout Hok].
  split_and!; [done..|]. intros o ->. destruct Hok as (Hp & Hl & Hlv & o' & [= <-] & Hbase); [by eexists|].
  rewrite Hp, Hp3, Hp2, Hl, Hl3. split_and!; [apply lookup_insert_eq|set_solver|set_solver|done].
Qed.

Lemma client_ctor_cases address k k' r :
  slen address < path_limit → UnixSockIpcClient_ctor address k = (k', r) →
  (∃ what, r = Throw (RuntimeError what) ∧ fdtab k' = fdtab k) ∨
  ∃ fd x, fdtab k !! fd = None ∧ x ∉ live k ∧ ctor_outcome (fdtab k) k' fd x r ∧
    (∃ y, paths k !! c_path address = Some y ∧ y ∈ listening k) ∧
    (∀ o, r = Ok o → paths k' = paths k ∧ listening k' = listening k ∧
       base_part o = mkBase fd (make_address address) address).
Proof.
  intros Hlen Hrun. unfold UnixSockIpcClient_ctor in Hrun.
  apply stM_bind_cases in Hrun as [(k1 & b & Hb & Hrun)|[(e & Hb & ->)|[[Hb ->]|[Hb ->]]]];
    apply base_ctor_cases in Hb as [(what & Hr & Hf)|(fd & x & Hr & Hfree & Hfresh & Hf & _ & Hli & Hp)]; try done.
  2:{ left. exists what. by injection Hr as ->. }
  injection Hr as ->. destruct Hp as [Hp|[? _]]; [|done]. cbn [m_BaseSocketFd m_AddrStruct] in Hrun.
  apply stM_bind_cases in Hrun as [(k2 & v2 & Hcon & Hrun)|[(exc & Hcon & ->)|[[Hcon ->]|[Hcon ->]]]];
    apply or_close_cases in Hcon as [(v & Hcon & Hv & Hr)|(k3 & v & Hcon & Hv & Hk & Hr)]; try done;
    apply connect_spec in Hcon.
  2:{ left. injection Hr as ->. eexists. split; [done|]. rewrite Hk.
      destruct Hcon as [k3 ? _ Hun|]; [|lia]. by eapply close_base. }
  destruct Hcon as [? ? Hneg|k2 y Hy Hly (Hf2 & _ & Hp2 & Hl2 & _)]; [lia|].
  rewrite make_address_path in Hy by done. rewrite Hf in Hf2.
  right. exists fd, x. destruct (watch_base_outcome (fdtab k) (mkBase fd (make_address address) address) x k2 k' r Hf2 Hfree Hrun) as [Hout Hok].
  split_and!; [done..|exists y; by rewrite <-Hp, <-Hli|]. intros o ->.
  destruct Hok as (Hp' & Hl & _ & o' & [= <-] & Hbase); [by eexists|]. split_and!; congruence.
Qed.

(** Closing both descriptors of a running object gives the table back. *)
Lemma close_both f0 k' fd x o k :
  ctor_outcome f0 k' fd x (Ok o) → f0 !! fd = None → fdtab k = fdtab k' →
  fdtab (close_descriptor (close_descriptor k (m_epollFd o)) (m_BaseSocketFd (base_part o))) = f0.
Proof.
  intros Hout Hfree Hk. inversion Hout as [o' e s Hrun Hb Hf Hne Hep Hw Hx| | |]; subst.
  destruct (close_descriptor_spec k (m_epollFd o)) as (Hf1 & _).
  destruct (close_descriptor_spec (close_descriptor k (m_epollFd o)) (m_BaseSocketFd (base_part o))) as (-> & _).
  rewrite Hf1, Hk, Hf. rewrite delete_insert_id by (by rewrite lookup_insert_ne).
  by apply delete_insert_id.
Qed.

(** The same when there are connections besides. *)
Lemma close_both_serving (f0 f2 : gmap Z Z) k' fd x o (conns : gset Z) :
  ctor_outcome f0 k' fd x (Ok o) → f0 !! fd = None →
  fdtab k' ⊆ f2 → dom f2 = dom (fdtab k') ∪ conns → conns ## dom (fdtab k') →
  f0 ⊆ delete fd (delete (m_epollFd o) f2) ∧ dom (delete fd (delete (m_epollFd o) f2)) = dom f0 ∪ conns.
Proof.
  intros Hout Hfree Hsub Hdom Hdisj. inversion Hout as [o' e w Hrun Hb Hf Hne Hep Hw Hx| | |]; subst.
  apply not_elem_of_dom in Hfree as Hfree', Hep as Hep'. rewrite Hf in *. split.
  - apply map_subseteq_spec. intros i y Hi. rewrite !lookup_delete_ne by congruence.
    eapply lookup_weaken; [|done]. by rewrite !lookup_insert_ne by congruence.
  - rewrite !dom_delete_L, Hdom, !dom_insert_L. rewrite !dom_insert_L in Hdisj. set_solver.
Qed.
End proofs.

(** * Draining *)

(** What a level-triggered [epoll_wait] reports, when the descriptors in [ready]
    have something to report: at most [MAX_EVENTS] of the watched ones, each
    once, and none only if none of the watched ones is ready. *)
Definition wait_ok (baseFd : Z) (ready : gset Z) (s : server_ipc) (evs : list epoll_event) : Prop :=
  NoDup (event_fd <$> evs) ∧ (length evs ≤ 4)%nat ∧
  (∀ fd, fd ∈ event_fd <$> evs → fd ∈ ready ∧ (fd = baseFd ∨ fd ∈ connections s)) ∧
  (evs = [] → baseFd ∉ ready ∧ ∀ fd, fd ∈ connections s → fd ∉ ready).

Fixpoint drain_valid (baseFd : Z) (rs : list (gset Z * wait_result)) (s : server_ipc) : Prop :=
  match rs with
  | [] => True
  | (_, WaitError) :: _ => True
  | (ready, WaitEvents evs) :: rs' =>
      wait_ok baseFd ready s evs ∧ drain_valid baseFd rs' (foldl (drain_event baseFd) s evs)
  end.

Lemma drain_events baseFd evs : ∀ s,
  connections (foldl (drain_event baseFd) s evs) = connections s ∖ (list_to_set (event_fd <$> evs) ∖ {[baseFd]}) ∧
  m_ConnectionCount (foldl (drain_event baseFd) s evs) = m_ConnectionCount s ∧
  handled (foldl (drain_event baseFd) s evs) = handled s.
Proof.
  induction evs as [|ev evs IH]; intros s; simpl.
  - split_and!; [set_solver|done|done].
  - destruct (IH (drain_event baseFd s ev)) as (-> & -> & ->). unfold drain_event.
    case_decide; simpl; (split_and!; [set_solver|done|done]).
Qed.

(** A turn that reports a connection leaves fewer of them. *)
Lemma drain_turn_smaller baseFd ready s evs :
  wait_ok baseFd ready s evs → baseFd ∉ ready → evs ≠ [] →
  (size (connections (foldl (drain_event baseFd) s evs)) < size (connections s))%nat.
Proof.
  intros (_ & _ & Hin & _) Hbase Hne. destruct evs as [|ev evs]; [done|].
  destruct (Hin (event_fd ev)) as [Hr [Hb|Hc]]; [by left|congruence|].
  destruct (drain_events baseFd (ev :: evs) s) as (-> & _ & _). apply subset_size.
  assert (event_fd ev ≠ baseFd) by congruence. set_solver.
Qed.

Lemma drain_loop_terminates baseFd rs : ∀ s,
  drain_valid baseFd rs s → Forall (λ r, baseFd ∉ r.1) rs → (size (connections s) < length rs)%nat →
  ∃ s', drain_loop baseFd rs.*2 s = Some s'.
Proof.
  induction rs as [|[ready w] rs IH]; intros s Hv Hf Hlen; simpl in *; [lia|].
  apply Forall_cons in Hf as [Hb Hf]. destruct w as [|evs]; [by eexists|]. destruct Hv as [Hok Hv].
  destruct evs as [|ev evs]; [by eexists|]. apply IH; [done|done|].
  apply (drain_turn_smaller _ ready) in Hok; [lia|done|done].
Qed.

Lemma drain_loop_hangs baseFd rs : ∀ s,
  drain_valid baseFd rs s → Forall (λ r, baseFd ∈ r.1 ∧ r.2 ≠ WaitError) rs →
  drain_loop baseFd rs.*2 s = None.
Proof.
  induction rs as [|[ready w] rs IH]; intros s Hv Hf; simpl in *; [done|].
  apply Forall_cons in Hf as [[Hb Hw] Hf]. simpl in *. destruct w as [|evs]; [done|].
  destruct Hv as [(_ & _ & _ & Hempty) Hv]. destruct evs as [|ev evs]; [by destruct Hempty|]. by apply IH.
Qed.

Lemma drain_loop_keeps baseFd rs : ∀ s s',
  drain_valid baseFd rs s → drain_loop baseFd rs.*2 s = Some s' →
  connections s' ⊆ connections s ∧ m_ConnectionCount s' = m_ConnectionCount s ∧ handled s' = handled s ∧
  ∀ fd, fd ∈ connections s → Forall (λ r, fd ∉ r.1) rs → fd ∈ connections s'.
Proof.
  induction rs as [|[ready w] rs IH]; intros s s' Hv Hrun; simpl in *; [done|].
  destruct w as [|evs]; [by injection Hrun as <-|]. destruct Hv as [(_ & _ & Hin & _) Hv].
  destruct evs as [|ev evs]; [by injection Hrun as <-|].
  destruct (IH _ _ Hv Hrun) as (Hsub & Hcount & Hh & Hkeep).
  destruct (drain_events baseFd (ev :: evs) s) as (Hc & Hc2 & Hh2). simpl in Hsub, Hcount, Hh, Hkeep, Hc, Hc2, Hh2.
  rewrite Hc2 in Hcount. rewrite Hh2 in Hh. split_and!; [set_solver|done|done|].
  intros fd Hfd [Hnr Hf]%Forall_cons. apply Hkeep; [|done]. rewrite Hc.
  apply elem_of_difference. split; [done|]. intros [Hev _]%elem_of_difference.
  destruct (Hin fd) as [? _]; [|done]. apply elem_of_union in Hev as [->%elem_of_singleton|He]; [by left|].
  right. by apply elem_of_list_to_set in He.
Qed.

(** * Properties *)

(** C36: Both socket constructors are safe, apart from two leaks.  An address of
    107 characters or more is refused before anything is created.  Otherwise the
    constructor either throws a [runtime_error], or returns a running object
    whose base socket is watched by its epoll instance; a server's socket then
    listens and is what the path names, and a client has found such a socket
    there.  When it throws, the descriptors of the process are those before the
    call, except that the epoll descriptor stays open when the base socket cannot
    be watched, and both stay open when the thread cannot be started. *)
Theorem ipc_ctor_safe `{SocketSpec} address (server : bool) k k' r :
  (if server then UnixSockIpcServer_ctor else UnixSockIpcClient_ctor) address k = (k', r) →
  (path_limit ≤ slen address → k' = k ∧ r = Throw too_long) ∧
  (slen address < path_limit →
     (∃ what, r = Throw (RuntimeError what) ∧ fdtab k' = fdtab k) ∨
     ∃ fd x, fdtab k !! fd = None ∧ ctor_outcome (fdtab k) k' fd x r ∧
       ∀ o, r = Ok o → IsRunning o = true ∧
         if server then paths k' !! c_path address = Some x ∧ x ∈ listening k'
         else ∃ y, paths k !! c_path address = Some y ∧ y ∈ listening k).
Proof.
  intros Hrun. split.
  - intros Hlen. destruct server; unfold UnixSockIpcServer_ctor, UnixSockIpcClient_ctor, mbind, stM_bind,
      UnixSockIpcBase_ctor, path_limit in *; rewrite decide_True in Hrun by done; by injection Hrun as <- <-.
  - intros Hlen. destruct server.
    + apply server_ctor_cases in Hrun as [?|(fd & x & Hfree & _ & Hout & Hok)]; [by left| |done].
      right. exists fd, x. split_and!; [done..|]. intros o ->. inversion Hout; subst. naive_solver.
    + apply client_ctor_cases in Hrun as [?|(fd & x & Hfree & _ & Hout & Hy & _)]; [by left| |done].
      right. exists fd, x. split_and!; [done..|]. intros o ->. by inversion Hout; subst.
Qed.

Lemma ipc_ctor_safe_witness :
  ∃ k' r, UnixSockIpcServer_ctor "/tmp/transpose_server.sock" net_boot = (k', r) ∧
     ((∃ what, r = Throw (RuntimeError what) ∧ fdtab k' = fdtab net_boot) ∨
     ∃ fd x, fdtab net_boot !! fd = None ∧ ctor_outcome (fdtab net_boot) k' fd x r ∧
       ∀ o, r = Ok o → IsRunning o = true ∧
         paths k' !! c_path "/tmp/transpose_server.sock" = Some x ∧ x ∈ listening k').
Proof.
  eexists _, _. split; [apply surjective_pairing|].
  refine (proj2 (ipc_ctor_safe "/tmp/transpose_server.sock" true net_boot _ _ (surjective_pairing _)) _). by vm_compute.
Defined.

(** C35: The draining of the server's connections ends exactly when nobody is
    waiting to connect.  As long as no connection request is pending, the second
    loop of [ServerThread] ends after at most one turn more than there are
    connections; while one is pending it never ends, whatever else is reported,
    because the loop ignores the base socket and [epoll_wait] keeps reporting it.
    A connection with nothing to report is never closed, and the counter of
    connections is left as it was. *)
Theorem drain_ends_unless_pending baseFd rs s :
  drain_valid baseFd rs s →
  (Forall (λ r, baseFd ∉ r.1) rs → (size (connections s) < length rs)%nat →
     ∃ s', drain_loop baseFd rs.*2 s = Some s') ∧
  (Forall (λ r, baseFd ∈ r.1 ∧ r.2 ≠ WaitError) rs → drain_loop baseFd rs.*2 s = None) ∧
  (∀ s', drain_loop baseFd rs.*2 s = Some s' →
     m_ConnectionCount s' = m_ConnectionCount s ∧ connections s' ⊆ connections s ∧
     ∀ fd, fd ∈ connections s → Forall (λ r, fd ∉ r.1) rs → fd ∈ connections s').
Proof.
  intros Hv. split_and!.
  - intros. by apply drain_loop_terminates.
  - by apply drain_loop_hangs.
  - intros s' Hrun. destruct (drain_loop_keeps _ _ _ _ Hv Hrun) as (? & ? & _ & ?). done.
Qed.

(** A connection request on socket 3, and a client on socket 7 that hangs up. *)
Definition pending_request : list (gset Z * wait_result) :=
  [({[3; 7]}, WaitEvents [mkEvent 3 1 0 []; mkEvent 7 17 0 []]); ({[3]}, WaitEvents [mkEvent 3 1 0 []])].

Lemma drain_ends_unless_pending_witness :
  drain_loop 3 pending_request.*2 (mkServerIpc (replicate 20 0) {[7; 8]} 2 []) = None.
Proof.
  apply (drain_ends_unless_pending 3 pending_request (mkServerIpc (replicate 20 0) {[7; 8]} 2 [])).
  - unfold pending_request. split; [|split; [|done]]; (split_and!; [|simpl; lia| |done]).
    + by apply (bool_decide_unpack _).
    + intros fd Hfd. simpl in Hfd. set_solver.
    + by apply (bool_decide_unpack _).
    + intros fd Hfd. simpl in Hfd. set_solver.
  - repeat (apply Forall_cons; split; [split; [set_solver|done]|]). done.
Defined.

(** The process's descriptors while a server runs: those after its construction
    and the accepted connections. *)
Definition serving (k1 k2 : net) (s : server_ipc) : Prop :=
  fdtab k1 ⊆ fdtab k2 ∧ dom (fdtab k2) = dom (fdtab k1) ∪ connections s ∧ connections s ## dom (fdtab k1).

(** A server's life leaves nothing behind but its idle connections.  When the
    destructor runs after the thread has ended in state [s], the descriptors of
    the process are again those before the construction, together with the
    connections of [s] that the draining left open; the path is removed unless
    the system refuses.  A client leaves nothing behind. *)
Theorem ipc_lifecycle `{SocketSpec} address (server : bool) k k1 k2 o s :
  slen address < path_limit →
  (if server then UnixSockIpcServer_ctor else UnixSockIpcClient_ctor) address k = (k1, Ok o) →
  (if server then serving k1 k2 s else fdtab k2 = fdtab k1) →
  if server then
    let k3 := UnixSockIpcServer_dtor o k2 in
    fdtab k ⊆ fdtab k3 ∧ dom (fdtab k3) = dom (fdtab k) ∪ connections s ∧
    (paths k3 = paths k2 ∨ paths k3 = delete (c_path address) (paths k2))
  else fdtab (UnixSockIpcClient_dtor o k2) = fdtab k.
Proof.
  intros Hlen Hrun Hk2. destruct server.
  - apply server_ctor_cases in Hrun as [(? & ? & _)|(fd & x & Hfree & _ & Hout & Hok)]; [done| |done].
    destruct (Hok o eq_refl) as (_ & _ & _ & Hbase). destruct Hk2 as (Hsub & Hdom & Hdisj).
    unfold UnixSockIpcServer_dtor. set (k3 := close_descriptor (close_descriptor k2 _) _).
    assert (fdtab k3 = delete fd (delete (m_epollFd o) (fdtab k2))) as Hf3.
    { unfold k3. rewrite Hbase. cbn [m_BaseSocketFd].
      destruct (close_descriptor_spec k2 (m_epollFd o)) as (Hc1 & _).
      destruct (close_descriptor_spec (close_descriptor k2 (m_epollFd o)) fd) as (-> & _). by rewrite Hc1. }
    assert (paths k3 = paths k2) as Hp3.
    { unfold k3. destruct (close_descriptor_spec k2 (m_epollFd o)) as (_ & _ & Hc1 & _).
      destruct (close_descriptor_spec (close_descriptor k2 (m_epollFd o)) (m_BaseSocketFd (base_part o)))
        as (_ & _ & -> & _). done. }
    assert (fdtab k ⊆ fdtab k3 ∧ dom (fdtab k3) = dom (fdtab k) ∪ connections s) as [Hsub3 Hdom3].
    { rewrite Hf3. by eapply close_both_serving. }
    rewrite Hbase. cbn [m_BaseSocketAddress].
    destruct (remove_spec k3 (c_path address)) as [k4 (-> & _ & -> & _)|k4 -> _ -> _ _]; rewrite Hp3; auto.
  - apply client_ctor_cases in Hrun as [(? & ? & _)|(fd & x & Hfree & _ & Hout & _)]; [done| |done].
    by apply (close_both (fdtab k) k1 fd x).
Qed.

Definition demo_server : UnixSockIpc := mkIpc (mkBase 1 (make_address "/tmp/s") "/tmp/s") true 2.

Lemma ipc_lifecycle_witness :
  let k1 := (UnixSockIpcServer_ctor "/tmp/s" net_boot).1 in
  let k3 := UnixSockIpcServer_dtor demo_server k1 in
  fdtab net_boot ⊆ fdtab k3 ∧ dom (fdtab k3) = dom (fdtab net_boot) ∪ ∅ ∧
  (paths k3 = paths k1 ∨ paths k3 = delete (c_path "/tmp/s") (paths k1)).
Proof.
  assert (UnixSockIpcServer_ctor "/tmp/s" net_boot = ((UnixSockIpcServer_ctor "/tmp/s" net_boot).1, Ok demo_server))
    as Hrun by (vm_compute; reflexivity).
  refine (ipc_lifecycle "/tmp/s" true net_boot _ _ demo_server (server_ipc_init 20) _ Hrun _); [by vm_compute|].
  split; [done|]. simpl connections. set_solver.
Defined.

(** The system as another process sees it: its own descriptors, the same objects
    and the same file system. *)
Definition other_process (k : net) (f : gmap Z Z) : net :=
  mkNet f (live k) (paths k) (listening k) (watched k) (net_errno k) (net_world k).

(** Nothing keeps a second server out.  When two processes construct a
    server for one address, both succeed as far as the first is concerned: the
    second takes the path over, so that every later client reaches the second
    server only, and when the first server is destroyed, it removes the path of
    the second, unless the system refuses. *)
Theorem second_server_takes_over `{SocketSpec} address k k1 o1 f k2 o2 :
  slen address < path_limit →
  UnixSockIpcServer_ctor address k = (k1, Ok o1) →
  UnixSockIpcServer_ctor address (other_process k1 f) = (k2, Ok o2) →
  let k3 := UnixSockIpcServer_dtor o1 (other_process k2 (fdtab k1)) in
  (∃ x1 x2, paths k1 !! c_path address = Some x1 ∧ paths k2 !! c_path address = Some x2 ∧ x1 ≠ x2) ∧
  (paths k3 = paths k2 ∨ paths k3 !! c_path address = None).
Proof.
  intros Hlen H1 H2.
  apply server_ctor_cases in H1 as [(? & ? & _)|(fd1 & x1 & _ & _ & _ & Hok1)]; [done| |done].
  apply server_ctor_cases in H2 as [(? & ? & _)|(fd2 & x2 & _ & Hfresh & _ & Hok2)]; [done| |done].
  destruct (Hok1 o1 eq_refl) as (Hp1 & _ & Hl1 & Hb1), (Hok2 o2 eq_refl) as (Hp2 & _ & _ & _).
  split.
  - exists x1, x2. split_and!; [done|done|]. intros ->. done.
  - unfold UnixSockIpcServer_dtor. rewrite Hb1. cbn [m_BaseSocketAddress m_BaseSocketFd].
    set (k4 := close_descriptor (close_descriptor (other_process k2 (fdtab k1)) _) _).
    assert (paths k4 = paths k2) as Hp4.
    { unfold k4. destruct (close_descriptor_spec (other_process k2 (fdtab k1)) (m_epollFd o1)) as (_ & _ & Hc1 & _).
      destruct (close_descriptor_spec (close_descriptor (other_process k2 (fdtab k1)) (m_epollFd o1)) fd1)
        as (_ & _ & -> & _). by rewrite Hc1. }
    destruct (remove_spec k4 (c_path address)) as [k5 (_ & _ & -> & _)|k5 _ _ -> _ _]; rewrite Hp4; [by left|].
    right. apply lookup_delete_eq.
Qed.

Lemma second_server_takes_over_witness :
  let k1 := (UnixSockIpcServer_ctor "/tmp/s" net_boot).1 in
  let k2 := (UnixSockIpcServer_ctor "/tmp/s" (other_process k1 ∅)).1 in
  let k3 := UnixSockIpcServer_dtor demo_server (other_process k2 (fdtab k1)) in
  (∃ x1 x2, paths k1 !! c_path "/tmp/s" = Some x1 ∧ paths k2 !! c_path "/tmp/s" = Some x2 ∧ x1 ≠ x2) ∧
  (paths k3 = paths k2 ∨ paths k3 !! c_path "/tmp/s" = None).
Proof.
  intros k1 k2. apply (second_server_takes_over "/tmp/s" net_boot k1 demo_server ∅ k2 demo_server);
    vm_compute; reflexivity.
Defined.
