(* ===== verification/Shutdown.v ===== *)
(** The [main] of the server ([transpose_server.cpp]): what it sets up before the
    threads run, and what happens when Enter is pressed: the end of the
    dispatcher, and of the communication thread, which the destructor of the
    [UnixSockIpcServer] joins. *)

From S2P Require Import Prelude ShmNames PosixShm ClientBank Messages Server Sockets SockObjects Arguments.
#[local] Open Scope Z_scope.

(** * The start *)

Inductive main_result :=
  | ExitCode (code : Z)
  | Serving (numWorkerThreads : Z) (pIpcServer : UnixSockIpc) (start : server_state).

(** Up to the wait for Enter: the number of worker threads, the bank, and the
    communication thread; any exception of the server object ends the program.
    The dispatcher's thread and the communication thread run from [start]. *)
Definition server_main `{SocketApi} (argv : list string) (hardware getpid : Z) : netM main_result := λ k,
  match numWorkerThreads argv hardware with
  | Ok None => (k, Ok (ExitCode 1))
  | Ok (Some workers) =>
      match UnixSockIpcServer_ctor SERVER_SOCKET_ADDRESS k with
      | (k', Ok server) => (k', Ok (Serving workers server (server_init getpid)))
      | (k', Throw _) => (k', Ok (ExitCode 1))
      | (k', Undef) => (k', Undef)
      | (k', NoFuel) => (k', NoFuel)
      end
  | Throw e => (k, Throw e)
  | Undef => (k, Undef)
  | NoFuel => (k, NoFuel)
  end.

(** A server that serves listens at the path the clients connect to. *)
Lemma server_main_serves `{SocketSpec} argv hardware pid k k' workers server start :
  server_main argv hardware pid k = (k', Ok (Serving workers server start)) →
  numWorkerThreads argv hardware = Ok (Some workers) ∧ start = server_init pid ∧
  ∃ x, paths k' !! c_path SERVER_SOCKET_ADDRESS = Some x ∧ x ∈ listening k'.
Proof.
  unfold server_main. destruct (numWorkerThreads argv hardware) as [[w|]| | |]; try done.
  destruct (UnixSockIpcServer_ctor SERVER_SOCKET_ADDRESS k) as [k1 [o|e| |]] eqn:Hctor; intros [= <- <- <- <-].
  apply server_ctor_cases in Hctor as [(? & ? & _)|(fd & x & _ & _ & _ & Hok)]; [done| |by vm_compute].
  destruct (Hok o eq_refl) as (? & ? & _). eauto.
Qed.

(** * The dispatcher ends *)

(** The dispatcher's steps left when [running] is false; the other threads'
    steps do not count. *)
Definition stop_measure (d : disp_pc) : nat :=
  match d with
  | DExit => 0
  | DTop => 1
  | DScan i => Z.to_nat (2 * (MAX_CLIENTS - i) + 2)
  | DServe i => Z.to_nat (2 * (MAX_CLIENTS - i) + 1)
  | DClear => 131
  | DCopy => 132
  | DLoad => 133
  end.

Section stopping.
Context `{PosixShmSpec} (lf : bool) (cls : Z) (ok : Z → bool) (pid : Z).

(** Executions with the number of steps of the dispatcher. *)
Inductive stopping : nat → server_state → server_state → Prop :=
  | stopping_nil s : stopping 0 s s
  | stopping_disp n s e s' s'' : disp_step s e s' → stopping n s' s'' → stopping (S n) s s''
  | stopping_msg n inp s e s' s'' : msg_step lf cls ok inp s e s' → stopping n s' s'' → stopping n s s''.

Lemma stop_measure_disp s e s' :
  server_inv s → running s = false → disp_step s e s' →
  running s' = false ∧ (stop_measure (disp s') < stop_measure (disp s))%nat.
Proof.
  intros [Hh _] Hr Hs. pose proof (hs_disp _ _ _ _ _ Hh) as Hi. unfold stop_measure, MAX_CLIENTS in *.
  destruct Hs; simpl in *; subst; try done; split; try done; unfold MAX_CLIENTS in *; lia.
Qed.

Lemma stopping_bound n s s' :
  server_inv s → running s = false → stopping n s s' →
  server_inv s' ∧ running s' = false ∧ (n + stop_measure (disp s') ≤ stop_measure (disp s))%nat.
Proof.
  intros Hi Hr Hs. induction Hs as [s|n s e s' s'' Hd Hs IH|n inp s e s' s'' Hm Hs IH].
  - split_and!; [done|done|lia].
  - destruct (stop_measure_disp _ _ _ Hi Hr Hd) as [Hr' Hlt].
    destruct IH as (? & ? & ?); [|done|split_and!; [done|done|lia]].
    apply (server_inv_step lf cls ok _ e _ Hi). by apply by_disp.
  - assert (running s' = running s ∧ disp s' = disp s) as [Hr' Hd'] by (by destruct Hm).
    destruct IH as (? & ? & ?); [|congruence|rewrite Hd' in *; split_and!; [done|done|lia]].
    apply (server_inv_step lf cls ok _ e _ Hi). by eapply by_msg.
Qed.

(** Unless it has ended, the dispatcher can go on, whatever the others do. *)
Lemma dispatcher_never_blocks s : server_inv s → disp s ≠ DExit → ∃ e s', disp_step s e s'.
Proof.
  intros [Hh Hb] Hd. pose proof (hs_disp _ _ _ _ _ Hh) as Hi. pose proof (bk_len _ _ _ Hb) as Hlen.
  destruct s as [b v u r p m d l]. simpl in *. destruct d as [| | | |i|i|]; try done.
  - destruct r; repeat econstructor.
  - destruct u; repeat econstructor.
  - repeat econstructor.
  - repeat econstructor.
  - destruct (decide (i < MAX_CLIENTS)); [|eexists _, _; apply scan_end; lia].
    destruct (getBit l i) eqn:Hbit; [|eexists _, _; by apply scan_skip].
    destruct (proj2 (zget_is_Some b i)) as [ctx Hget]; [lia|]. eexists _, _. by eapply scan_serve.
  - repeat econstructor.
Qed.

(** * The communication thread *)

(** A wait for a dispatcher that has gone. *)
Definition stuck (s : server_state) : Prop :=
  disp s = DExit ∧ clientBankUpdateAvailable s = true ∧
  match msg s with MAddSpin _ | MRmSpin _ | MRmWait _ => True | _ => False end.

Lemma stuck_no_msg inp s e s' : stuck s → ¬ msg_step lf cls ok inp s e s'.
Proof. intros (Hd & Hu & Hm) Hs. by destruct Hs; simpl in *. Qed.

Lemma stuck_forever s e s' : stuck s → server_step lf cls ok s e s' → stuck s' ∧ msg s' = msg s.
Proof.
  intros Hst Hs. destruct Hs as [inp s e s' Hs|s e s' Hs|b v u r p m d l].
  - by apply stuck_no_msg in Hs.
  - destruct Hst as (Hd & _). by destruct Hs; simpl in *.
  - done.
Qed.
End stopping.

(** A client that subscribes, Enter, and then the client's unsubscription. *)
Lemma stuck_reachable :
  ∃ tr s, exec (server_step true 64 (λ _, true)) (server_init 1) tr s ∧ stuck s ∧ msg s = MRmSpin 0.
Proof.
  eexists _, _. split; [|split].
  - eapply exec_tau.
    { eapply by_msg. eapply (subscribe_begin _ _ _ _ _ _ _ _ _ _ (mkMessage 0 7 1 1 1) 5);
        [reflexivity|done|vm_compute; reflexivity|vm_compute; reflexivity|vm_compute; reflexivity]. }
    eapply exec_tau.
    { eapply by_msg. eapply (setup_done _ _ _ _ _ _ _ _ _ _ _ _ _ _ _ _ boot);
        [vm_compute; reflexivity|vm_compute; reflexivity]. }
    eapply exec_tau; [eapply by_msg, add_spin|].
    eapply exec_event; [eapply by_msg; eapply add_set; vm_compute; reflexivity|].
    eapply exec_tau; [eapply by_msg, add_store|].
    eapply exec_event; [eapply by_msg; eapply respond; vm_compute; reflexivity|].
    eapply exec_tau; [apply by_main|].
    eapply exec_tau; [apply by_disp, top_stopped|].
    eapply exec_tau.
    { eapply by_msg. eapply (unsubscribe _ _ _ _ _ _ _ _ _ _ (mkMessage 1 7 0 0 0) 5); [reflexivity|vm_compute; reflexivity]. }
    apply exec_nil.
  - split_and!; reflexivity || exact I.
  - reflexivity.
Qed.

(** * Properties *)

(** C32: Pressing Enter ends the dispatcher.  From any state the server can reach
    in which [running] is cleared, and under every interleaving with the
    communication thread, the dispatcher makes at most 133 more steps, and it can
    always make one until it has left its loop, so that the join in [main]
    returns. *)
Theorem dispatcher_ends `{PosixShmSpec} lf cls ok pid tr s n s' :
  exec (server_step lf cls ok) (server_init pid) tr s → running s = false →
  stopping lf cls ok n s s' →
  (n ≤ 133)%nat ∧ (disp s' ≠ DExit → ∃ e s'', disp_step s' e s'').
Proof.
  intros Hi%server_inv_exec Hr Hs. destruct (stopping_bound _ _ _ _ _ _ Hi Hr Hs) as (Hi' & Hr' & Hle).
  split; [|by apply dispatcher_never_blocks].
  enough (stop_measure (disp s) ≤ 133)%nat by lia. destruct Hi as [Hh _].
  pose proof (hs_disp _ _ _ _ _ Hh) as Hd. unfold stop_measure, MAX_CLIENTS in *. destruct (disp s); lia.
Qed.

(** A server without clients, before and after the dispatcher has ended. *)
Definition stopped_server (d : disp_pc) : server_state :=
  mkServer (replicate (Z.to_nat MAX_CLIENTS) ClientContext_init) 0 false false 1 MIdle d 0.

Lemma dispatcher_ends_witness :
  stopping true 64 (λ _, true) 1 (stopped_server DTop) (stopped_server DExit) ∧
  (1 ≤ 133)%nat ∧ (DExit ≠ DExit → ∃ e s'', disp_step (stopped_server DExit) e s'').
Proof.
  assert (stopping true 64 (λ _, true) 1 (stopped_server DTop) (stopped_server DExit)) as Hs
    by (eapply stopping_disp; [apply top_stopped|apply stopping_nil]).
  split; [exact Hs|].
  refine (dispatcher_ends true 64 (λ _, true) 1 [] (stopped_server DTop) 1 _ _ eq_refl Hs).
  eapply exec_tau; [apply by_main|apply exec_nil].
Defined.

(** C31: The server may never stop.  [AddClient] and [RemoveClient] wait for the
    dispatcher without a look at [running]: once the dispatcher has ended with an
    update pending, a communication thread in one of these waits stays there in
    every execution, so that the destructor that joins it does not return.  The
    state is reachable: a client subscribes, Enter is pressed, and the client
    unsubscribes. *)
Theorem shutdown_can_hang `{PosixShmSpec} lf cls ok s tr s' :
  stuck s → exec (server_step lf cls ok) s tr s' →
  msg s' = msg s ∧ ∀ inp e s'', ¬ msg_step lf cls ok inp s' e s''.
Proof.
  intros Hst Hexec. assert (stuck s' ∧ msg s' = msg s) as [Hst' Hm].
  { apply (exec_invariant (server_step lf cls ok) (λ s', stuck s' ∧ msg s' = msg s)) in Hexec; [done| |done].
    intros s1 l s2 [H1 H2] Hs. destruct (stuck_forever lf cls ok _ _ _ H1 Hs). split; [done|congruence]. }
  split; [done|]. intros inp e s'' Hs. by apply stuck_no_msg in Hs.
Qed.

Lemma shutdown_can_hang_witness :
  ∃ tr s, exec (server_step true 64 (λ _, true)) (server_init 1) tr s ∧ msg s = MRmSpin 0 ∧
    ∀ inp e s'', ¬ msg_step true 64 (λ _, true) inp s e s''.
Proof.
  destruct stuck_reachable as (tr & s & Hexec & Hst & Hm). exists tr, s. split; [done|]. split; [done|].
  apply (shutdown_can_hang true 64 (λ _, true) s [] s Hst). apply exec_nil.
Defined.
