(* ===== verification/Workspace.v ===== *)
(** The client's [main] ([transpose_client.cpp]) around its request loop, and
    [ClientWorkspace.h]: the creation of the workspace, the two messages, the final
    check and the ways in which the process ends, with what remains then; and how
    client and server meet in the state in which a session of [System] starts. *)

From S2P Require Import Prelude ShmNames PosixShm SharedMemory Bytes SpscQueue SeqLock QueueCtor SharedMatrixBuffer FutexSignaller ClientStats ClientBank Messages Ownership System SessionQueue ServiceSessions ServiceQueue Sockets SockObjects Arguments.
#[local] Open Scope Z_scope.

(** * The code *)

(** [ClientWorkspace], without the connection, which [client_setup] returns. *)
Record ClientWorkspace := mkWorkspace {
  requestRepetitions : Z;
  clientPid : Z;
  buffers : BufferDimensions;
  ws_stats : ClientStats;
  subscribeResponseReceived : bool;
  ws_matrixBuffers : list SharedMatrixBuffer;
  ws_matrixBuffersTr : list SharedMatrixBuffer;
  ws_matrixBuffersTrReference : list SharedMatrixBuffer;
  ws_pRequestQueue : option queue_handle;
  ws_pTransposeReadyFutex : option FutexSignaller
}.

(** The workspace after the arguments have been stored; [numRows] and
    [numColumns] of its dimensions are not used by the client. *)
Definition workspace_init (m n k reps pid : Z) : ClientWorkspace :=
  mkWorkspace reps pid (mkBufferDimensions m n k 0 0) ClientStats_init false [] [] [] None None.

Definition ws_put_futex (h : FutexSignaller) (w : ClientWorkspace) : ClientWorkspace :=
  mkWorkspace (requestRepetitions w) (clientPid w) (buffers w) (ws_stats w) (subscribeResponseReceived w)
    (ws_matrixBuffers w) (ws_matrixBuffersTr w) (ws_matrixBuffersTrReference w) (ws_pRequestQueue w) (Some h).
Definition ws_put_queue (h : queue_handle) (w : ClientWorkspace) : ClientWorkspace :=
  mkWorkspace (requestRepetitions w) (clientPid w) (buffers w) (ws_stats w) (subscribeResponseReceived w)
    (ws_matrixBuffers w) (ws_matrixBuffersTr w) (ws_matrixBuffersTrReference w) (Some h) (ws_pTransposeReadyFutex w).
Definition ws_push_buffer (b : SharedMatrixBuffer) (w : ClientWorkspace) : ClientWorkspace :=
  mkWorkspace (requestRepetitions w) (clientPid w) (buffers w) (ws_stats w) (subscribeResponseReceived w)
    (ws_matrixBuffers w ++ [b]) (ws_matrixBuffersTr w) (ws_matrixBuffersTrReference w) (ws_pRequestQueue w)
    (ws_pTransposeReadyFutex w).
Definition ws_push_buffer_tr (b : SharedMatrixBuffer) (w : ClientWorkspace) : ClientWorkspace :=
  mkWorkspace (requestRepetitions w) (clientPid w) (buffers w) (ws_stats w) (subscribeResponseReceived w)
    (ws_matrixBuffers w) (ws_matrixBuffersTr w ++ [b]) (ws_matrixBuffersTrReference w) (ws_pRequestQueue w)
    (ws_pTransposeReadyFutex w).
Definition ws_push_reference (b : SharedMatrixBuffer) (w : ClientWorkspace) : ClientWorkspace :=
  mkWorkspace (requestRepetitions w) (clientPid w) (buffers w) (ws_stats w) (subscribeResponseReceived w)
    (ws_matrixBuffers w) (ws_matrixBuffersTr w) (ws_matrixBuffersTrReference w ++ [b]) (ws_pRequestQueue w)
    (ws_pTransposeReadyFutex w).

Section code.
Context `{PosixShm}.

(** [lock_free], [cacheLine] and [reserve_ok] as for the server; [random j] are
    the numbers drawn for matrix [j]. *)
Context (lock_free : bool) (cacheLine : Z) (reserve_ok : Z → bool) (random : Z → Z → Z).

Definition client_buffer (pid m n bufferIndex : Z) (mode : SharedMatrixBuffer.BufferInitMode) (suffix : string) :
    stM (kernel * ClientWorkspace) SharedMatrixBuffer :=
  in_kernel (SharedMatrixBuffer_ctor (random bufferIndex) pid Client m n bufferIndex mode suffix).

(** The loop over the buffers, with [count] turns left.  The index is an [int];
    the theorems ask for fewer than 2^31 buffers, so that it does not overflow. *)
Fixpoint create_from (pid m n : Z) (count : nat) (bufferIndex : Z) : stM (kernel * ClientWorkspace) () :=
  match count with
  | O => mret ()
  | S count' =>
      b ← client_buffer pid m n bufferIndex Random MATRIX_BUF_NAME_SUFFIX;
      _ ← modify (ws_push_buffer b);
      bt ← client_buffer pid m n bufferIndex SharedMatrixBuffer.Zero TR_MATRIX_BUF_NAME_SUFFIX;
      _ ← modify (ws_push_buffer_tr bt);
      br ← client_buffer pid m n bufferIndex SharedMatrixBuffer.Zero TR_GOLDEN_MATRIX_BUF_NAME_SUFFIX;
      _ ← modify (ws_push_reference br);
      create_from pid m n count' (bufferIndex + 1)
  end.

(** The rest of the [try] block, after the connection to the server. *)
Definition create_workspace (pid m n k : Z) : stM (kernel * ClientWorkspace) () :=
  futex ← in_kernel (FutexSignaller_ctor cacheLine pid Waiter "");
  _ ← modify (ws_put_futex futex);
  queue ← in_kernel (SpscQueueSeqLock_ctor lock_free cacheLine pid QueueCtor.Producer
                       REQ_QUEUE_CAPACITY REQ_QUEUE_NAME_SUFFIX);
  _ ← modify (ws_put_queue queue);
  _ ← reserve reserve_ok k;
  _ ← reserve reserve_ok k;
  _ ← reserve reserve_ok k;
  create_from pid m n (Z.to_nat k) 0.
End code.

(** The shared objects of the workspace, in the order in which the destructor of
    the global [gWorkspace] destroys them: the members in reverse. *)
Definition shm_of_workspace (w : ClientWorkspace) : list SharedMemory :=
  option_list (FutexSignaller.mp_SharedMemory <$> ws_pTransposeReadyFutex w) ++
  option_list (QueueCtor.mp_SharedMemory <$> ws_pRequestQueue w) ++
  omap SharedMatrixBuffer.mp_SharedMemory (ws_matrixBuffersTrReference w) ++
  omap SharedMatrixBuffer.mp_SharedMemory (ws_matrixBuffersTr w) ++
  omap SharedMatrixBuffer.mp_SharedMemory (ws_matrixBuffers w).

(** The end of the process, with or without a connection. *)
Definition client_exit `{PosixShm, SocketApi} (ipc : option UnixSockIpc) (w : ClientWorkspace)
    (s : net * kernel) : net * kernel :=
  (match ipc with Some o => UnixSockIpcClient_dtor o s.1 | None => s.1 end,
   destroy_all s.2 (shm_of_workspace w)).

(** [main] up to the subscription: the process ends with a code, or goes on with a
    connection and a workspace. *)
Definition client_setup `{PosixShm, SocketApi} (lock_free : bool) (cacheLine : Z) (reserve_ok : Z → bool)
    (random : Z → Z → Z) (argv : list string) (pid : Z) :
    stM (net * kernel) (Z + UnixSockIpc * ClientWorkspace) := λ '(nk, k),
  match ProcessArguments argv with
  | Ok None => ((nk, k), Ok (inl 1))
  | Ok (Some (m, n, count, reps)) =>
      let w0 := workspace_init m n count reps pid in
      match UnixSockIpcClient_ctor SERVER_SOCKET_ADDRESS nk with
      | (nk1, Ok ipc) =>
          match create_workspace lock_free cacheLine reserve_ok random pid m n count (k, w0) with
          | ((k1, w), Ok _) => ((nk1, k1), Ok (inr (ipc, w)))
          | ((k1, w), Throw _) => (client_exit (Some ipc) w (nk1, k1), Ok (inl 1))
          | ((k1, w), Undef) => ((nk1, k1), Undef)
          | ((k1, w), NoFuel) => ((nk1, k1), NoFuel)
          end
      | (nk1, Throw _) => (client_exit None w0 (nk1, k), Ok (inl 1))
      | (nk1, Undef) => ((nk1, k), Undef)
      | (nk1, NoFuel) => ((nk1, k), NoFuel)
      end
  | Throw e => ((nk, k), Throw e)
  | Undef => ((nk, k), Undef)
  | NoFuel => ((nk, k), NoFuel)
  end.

(** How a process ends: it exits with a code; an exception that nobody catches
    ends it through [std::terminate]; or a signal does. *)
Inductive process_end := Exits (code : Z) | Terminates | Killed.

(** What [main] meets between its set-up and its end, which other processes and its
    own thread decide: whether the thread still runs when a message is sent, what
    becomes of the bytes, what the variables of the messages held before, and what
    the wait for the response and the request loops, the subject of [Protocol] and
    [System], leave in memory and on the sockets. *)
Record surroundings := mkSurroundings {
  runs_at_subscribe : bool;
  subscribe_sent : send_outcome;
  subscribe_old : ClientServerMessage;
  memory_after : kernel → kernel;
  net_after : net → net;
  runs_at_unsubscribe : bool;
  unsubscribe_sent : send_outcome;
  unsubscribe_old : ClientServerMessage
}.

(** The cells a process reads through its buffers. *)
Definition read_buffer (K : kernel) (b : SharedMatrixBuffer) : list Z :=
  match mappings K !! SharedMatrixBuffer.GetRawPointer b with
  | Some (x, _) => cells (default [] (objects K !! x))
  | None => []
  end.
Definition read_buffers (K : kernel) (bs : list SharedMatrixBuffer) : list (list Z) := read_buffer K <$> bs.

(** The loop of the final check; its answer is [errorFound].  The bytes it writes
    are those of the reference buffers, which are destroyed next. *)
Definition final_check (K : kernel) (w : ClientWorkspace) : result bool :=
  let k := dim_k (buffers w) in
  if decide (k ≤ 0) then Ok false else
  rowCount ← shift_dimension (dim_m (buffers w));
  columnCount ← shift_dimension (dim_n (buffers w));
  check_results k rowCount columnCount (read_buffers K (ws_matrixBuffers w))
    (read_buffers K (ws_matrixBuffersTrReference w)) (read_buffers K (ws_matrixBuffersTr w)).

(** [main] from the subscription on.  [exit] and the return from [main] both
    destroy [gWorkspace]; an exception that leaves [main] does not. *)
Definition client_rest `{PosixShm, SocketApi} (E : surroundings) (ipc : UnixSockIpc) (w : ClientWorkspace) :
    stM (net * kernel) process_end := λ '(nk, K),
  let subscribe := GenerateSubscribeMessage (subscribe_old E) (clientPid w) (dim_m (buffers w)) (dim_n (buffers w))
                     (dim_k (buffers w)) in
  match client_Send (runs_at_subscribe E) (message_bytes subscribe) (subscribe_sent E) with
  | Ok None => ((nk, K), Ok Killed)
  | Ok (Some _) =>
      let '(nk1, K1) := (net_after E nk, memory_after E K) in
      let unsubscribe := GenerateUnsubscribeMessage (unsubscribe_old E) (clientPid w) in
      match client_Send (runs_at_unsubscribe E) (message_bytes unsubscribe) (unsubscribe_sent E) with
      | Ok None => ((nk1, K1), Ok Killed)
      | Ok (Some _) =>
          match final_check K1 w with
          | Ok errorFound => (client_exit (Some ipc) w (nk1, K1), Ok (Exits (if errorFound : bool then 1 else 0)))
          | Throw _ => ((nk1, K1), Ok Terminates)
          | Undef => ((nk1, K1), Undef)
          | NoFuel => ((nk1, K1), NoFuel)
          end
      | Throw _ => ((nk1, K1), Ok Terminates)
      | Undef => ((nk1, K1), Undef)
      | NoFuel => ((nk1, K1), NoFuel)
      end
  | Throw _ => ((nk, K), Ok Terminates)
  | Undef => ((nk, K), Undef)
  | NoFuel => ((nk, K), NoFuel)
  end.

Definition client_main `{PosixShm, SocketApi} (lock_free : bool) (cacheLine : Z) (reserve_ok : Z → bool)
    (random : Z → Z → Z) (argv : list string) (pid : Z) (E : surroundings) : stM (net * kernel) process_end :=
  r ← client_setup lock_free cacheLine reserve_ok random argv pid;
  match r with
  | inl code => mret (Exits code)
  | inr (ipc, w) => client_rest E ipc w
  end.

(** * What the creation establishes *)

Abbreviation queue_bytes cls := (replicate (Z.to_nat (CalculateBufferSize seqlock_header REQ_QUEUE_CAPACITY cls)) 0).
Abbreviation word_bytes cls := (replicate (Z.to_nat (word_size cls)) 0).

Section creation.
Context `{PosixShmSpec} (lock_free : bool) (cacheLine : Z) (reserve_ok : Z → bool) (random : Z → Z → Z).
Context (pid m n : Z) (K0 : kernel).
Hypothesis Hm : 0 ≤ m < 64.
Hypothesis Hn : 0 ≤ n < 64.
Hypothesis Hcls : cacheLine = 0 ∨ 4 ≤ cacheLine ≤ 2 ^ 20.

(** The bytes of matrix [j], and those of the zeroed ones. *)
Definition source_bytes (j : Z) : list Z := cell_bytes (initial_cells (random j) Random (2 ^ (m + n))).
Definition zero_bytes (j : Z) : list Z := cell_bytes (initial_cells (random j) SharedMatrixBuffer.Zero (2 ^ (m + n))).

Definition futex_held (K : kernel) (f : option FutexSignaller) : Prop :=
  ∃ h, f = Some h ∧ FutexSignaller.m_RawPointer h = ptr (FutexSignaller.mp_SharedMemory h) ∧
    shm_name (FutexSignaller.mp_SharedMemory h) = FutexSignaller_CreateShmObjectName pid "" ∧
    region K (FutexSignaller.mp_SharedMemory h) (word_bytes cacheLine).

Definition queue_held (K : kernel) (q : option queue_handle) : Prop :=
  ∃ h, q = Some h ∧ m_Capacity h = REQ_QUEUE_CAPACITY ∧ handle_mask h = REQ_QUEUE_CAPACITY - 1 ∧
    shm_name (QueueCtor.mp_SharedMemory h) = SpscQueueSeqLock_CreateShmObjectName pid REQ_QUEUE_NAME_SUFFIX ∧
    region K (QueueCtor.mp_SharedMemory h) (queue_bytes cacheLine).

Abbreviation matrices K suffix contents count bs :=
  (matrices_held K pid (2 ^ m) (2 ^ n) suffix contents count bs) (only parsing).

(** [i] matrices, [j] results and [l] references are there. *)
Record workspace_held (K : kernel) (w : ClientWorkspace) (i j l : Z) : Prop := {
  wh_futex : futex_held K (ws_pTransposeReadyFutex w);
  wh_queue : queue_held K (ws_pRequestQueue w);
  wh_matrices : matrices K MATRIX_BUF_NAME_SUFFIX source_bytes i (ws_matrixBuffers w);
  wh_results : matrices K TR_MATRIX_BUF_NAME_SUFFIX zero_bytes j (ws_matrixBuffersTr w);
  wh_references : matrices K TR_GOLDEN_MATRIX_BUF_NAME_SUFFIX zero_bytes l (ws_matrixBuffersTrReference w);
  wh_small : i = 0 ∨ m + n < 32
}.

Lemma futex_held_mono K K' f : (∀ sm c, region K sm c → region K' sm c) → futex_held K f → futex_held K' f.
Proof. intros Hr (h & ? & ? & ? & ?). exists h. auto. Qed.
Lemma queue_held_mono K K' q : (∀ sm c, region K sm c → region K' sm c) → queue_held K q → queue_held K' q.
Proof. intros Hr (h & ? & ? & ? & ? & ?). exists h. auto 6. Qed.
Lemma workspace_held_mono K K' w i j l :
  (∀ sm c, region K sm c → region K' sm c) → workspace_held K w i j l → workspace_held K' w i j l.
Proof.
  intros Hr []. split; eauto using futex_held_mono, queue_held_mono, matrices_held_mono.
Qed.

(** The invariant of the creation, and what an exception leaves. *)
Definition creating (P : kernel → ClientWorkspace → Prop) (s : kernel * ClientWorkspace) : Prop :=
  owns K0 s.1 (shm_of_workspace s.2) ∧ P s.1 s.2.
Definition abandoned (s : kernel * ClientWorkspace) : Prop := owns K0 s.1 (shm_of_workspace s.2).

(** An owner's constructor, with the object put into the workspace. *)
Lemma create_hoare {A B} (ctor : kernelM A) (mem : A → option SharedMemory) name bs (extra : A → Prop)
    (put : A → ClientWorkspace → ClientWorkspace) (rest : stM (kernel * ClientWorkspace) B)
    (P R : kernel → ClientWorkspace → Prop) Q :
  (∀ k k' r, ctor k = (k', r) → owner_ends mem name bs k k' r ∧ ∀ a, r = Ok a → extra a) →
  (∀ K K' w a sm x, mem a = Some sm → shm_name sm = name → extra a → created K K' sm x bs → P K w →
     shm_of_workspace (put a w) ≡ₚ sm :: shm_of_workspace w ∧ R K' (put a w)) →
  hoare (creating R) rest Q abandoned →
  hoare (creating P) (a ← in_kernel ctor; _ ← modify (put a); rest) Q abandoned.
Proof.
  intros Hctor Hput Hrest [k w] [Hs HP]. simpl in HP. unfold mbind, stM_bind, in_kernel, modify.
  destruct (ctor k) as [k' r] eqn:Hrun.
  apply Hctor in Hrun as [[(a & sm & x & -> & Hmem & Hname & Hc)|(e & -> & Hsp)] Hextra].
  - destruct (Hput k k' w a sm x Hmem Hname (Hextra a eq_refl) Hc HP) as [Hperm HR].
    apply (Hrest (k', put a w)). split; [|done]. by eapply owns_created.
  - by eapply owns_spared.
Qed.

Lemma shm_ws_push_buffer b sm w :
  SharedMatrixBuffer.mp_SharedMemory b = Some sm →
  shm_of_workspace (ws_push_buffer b w) ≡ₚ sm :: shm_of_workspace w.
Proof.
  intros Hb. unfold shm_of_workspace. simpl. rewrite omap_app. simpl. rewrite Hb. solve_Permutation.
Qed.
Lemma shm_ws_push_buffer_tr b sm w :
  SharedMatrixBuffer.mp_SharedMemory b = Some sm →
  shm_of_workspace (ws_push_buffer_tr b w) ≡ₚ sm :: shm_of_workspace w.
Proof.
  intros Hb. unfold shm_of_workspace. simpl. rewrite omap_app. simpl. rewrite Hb. solve_Permutation.
Qed.
Lemma shm_ws_push_reference b sm w :
  SharedMatrixBuffer.mp_SharedMemory b = Some sm →
  shm_of_workspace (ws_push_reference b w) ≡ₚ sm :: shm_of_workspace w.
Proof.
  intros Hb. unfold shm_of_workspace. simpl. rewrite omap_app. simpl. rewrite Hb. solve_Permutation.
Qed.

Definition dims_ok (b : SharedMatrixBuffer) : Prop := m + n < 32 ∧ RowCount b = 2 ^ m ∧ ColumnCount b = 2 ^ n.

Lemma client_buffer_ends idx mode suffix k k' r :
  SharedMatrixBuffer_ctor (random idx) pid Client m n idx mode suffix k = (k', r) →
  owner_ends SharedMatrixBuffer.mp_SharedMemory (SharedMatrixBuffer_CreateShmObjectName pid idx suffix)
    (cell_bytes (initial_cells (random idx) mode (2 ^ (m + n)))) k k' r ∧ ∀ b, r = Ok b → dims_ok b.
Proof. apply matrix_client_ends; done. Qed.

Lemma create_from_hoare count i :
  hoare (creating (λ K w, workspace_held K w i i i)) (create_from random pid m n count i)
    (λ _, creating (λ K w, workspace_held K w (i + Z.of_nat count) (i + Z.of_nat count) (i + Z.of_nat count)))
    abandoned.
Proof.
  revert i. induction count as [|count IH]; intros i; cbn [create_from].
  { rewrite Z.add_0_r. apply hoare_ret. done. }
  unfold client_buffer.
  eapply (create_hoare _ _ _ _ dims_ok _ _ _ (λ K w, workspace_held K w (i + 1) i i)); [apply client_buffer_ends|..].
  { intros K K' w b sm x Hb Hname (Hlt & Hr & Hc) Hcr Hw. split; [by apply shm_ws_push_buffer|].
    apply (workspace_held_mono K K') in Hw; [|intros; by eapply region_created]. destruct Hw. split; try done; [|by right].
    simpl. apply (matrices_held_snoc _ _ _ _ _ _ _ _ _ sm); try done. by eapply region_new. }
  eapply (create_hoare _ _ _ _ dims_ok _ _ _ (λ K w, workspace_held K w (i + 1) (i + 1) i)); [apply client_buffer_ends|..].
  { intros K K' w b sm x Hb Hname (_ & Hr & Hc) Hcr Hw. split; [by apply shm_ws_push_buffer_tr|].
    apply (workspace_held_mono K K') in Hw; [|intros; by eapply region_created]. destruct Hw. split; try done.
    simpl. apply (matrices_held_snoc _ _ _ _ _ _ _ _ _ sm); try done. by eapply region_new. }
  eapply (create_hoare _ _ _ _ dims_ok _ _ _ (λ K w, workspace_held K w (i + 1) (i + 1) (i + 1))); [apply client_buffer_ends|..].
  { intros K K' w b sm x Hb Hname (_ & Hr & Hc) Hcr Hw. split; [by apply shm_ws_push_reference|].
    apply (workspace_held_mono K K') in Hw; [|intros; by eapply region_created]. destruct Hw. split; try done.
    simpl. apply (matrices_held_snoc _ _ _ _ _ _ _ _ _ sm); try done. by eapply region_new. }
  replace (i + Z.of_nat (S count)) with (i + 1 + Z.of_nat count) by lia. apply IH.
Qed.

(** An empty workspace, as far as shared objects go. *)
Definition workspace_empty (w : ClientWorkspace) : Prop :=
  ws_matrixBuffers w = [] ∧ ws_matrixBuffersTr w = [] ∧ ws_matrixBuffersTrReference w = [] ∧
  ws_pRequestQueue w = None ∧ ws_pTransposeReadyFutex w = None.

Lemma reserve_creating P z :
  hoare (creating P) (reserve reserve_ok z) (λ _, creating P) abandoned.
Proof. intros s Hs. unfold reserve. destruct (reserve_ok z); [done|apply Hs]. Qed.

Lemma create_workspace_hoare k :
  0 ≤ k →
  hoare (creating (λ _ w, workspace_empty w))
    (create_workspace lock_free cacheLine reserve_ok random pid m n k)
    (λ _, creating (λ K w, workspace_held K w k k k)) abandoned.
Proof.
  intros Hk. unfold create_workspace.
  eapply (create_hoare _ _ _ _ (λ h, FutexSignaller.m_RawPointer h = ptr (FutexSignaller.mp_SharedMemory h)) _ _ _
    (λ K w, futex_held K (ws_pTransposeReadyFutex w) ∧ ws_pRequestQueue w = None ∧ ws_matrixBuffers w = [] ∧
            ws_matrixBuffersTr w = [] ∧ ws_matrixBuffersTrReference w = [])).
  { intros K K' r Hrun. eapply waiter_ends, Hrun. lia. }
  { intros K K' w h sm x [= <-] Hname Hp Hc (Hb & Ht & Hr & Hq & Hf). unfold shm_of_workspace. simpl.
    rewrite Hb, Ht, Hr, Hq, Hf. split; [done|]. split_and!; try done. exists h. split_and!; try done.
    by eapply region_new. }
  eapply (create_hoare _ _ _ _ (λ h, m_Capacity h = REQ_QUEUE_CAPACITY ∧ handle_mask h = REQ_QUEUE_CAPACITY - 1) _ _ _
    (λ K w, workspace_held K w 0 0 0)).
  { intros K K' r Hrun. unfold SpscQueueSeqLock_ctor in Hrun. apply producer_ends in Hrun as [Hends Hex];
      [|by vm_compute|lia|by vm_compute]. split; [exact Hends|]. intros h Hh. by destruct (Hex h Hh) as (? & ? & _). }
  { intros K K' w h sm x [= <-] Hname [Hcap Hmask] Hc (Hf & Hq & Hb & Ht & Hr). unfold shm_of_workspace. simpl.
    rewrite Hb, Ht, Hr, Hq. split; [solve_Permutation|]. split; simpl; rewrite ?Hb, ?Ht, ?Hr; try apply matrices_held_nil.
    - eapply futex_held_mono; [|done]. intros; by eapply region_created.
    - exists h. split_and!; try done. by eapply region_new.
    - by left. }
  eapply hoare_bind; [apply (reserve_creating (λ K w, workspace_held K w 0 0 0))|]. intros [].
  eapply hoare_bind; [apply (reserve_creating (λ K w, workspace_held K w 0 0 0))|]. intros [].
  eapply hoare_bind; [apply (reserve_creating (λ K w, workspace_held K w 0 0 0))|]. intros [].
  pose proof (create_from_hoare (Z.to_nat k) 0) as Hloop. rewrite Z.add_0_l, Z2Nat.id in Hloop by done. exact Hloop.
Qed.
End creation.

(** * The server attaches to it *)

Lemma zlen_matrix_bytes random mode m n :
  0 ≤ m → 0 ≤ n → zlen (cell_bytes (initial_cells random mode (2 ^ (m + n)))) = 8 * 2 ^ (m + n).
Proof.
  intros. unfold zlen, initial_cells. rewrite length_cell_bytes.
  case_decide; rewrite ?length_fmap, ?length_seqZ, ?length_replicate; lia.
Qed.

Section attachment.
Context `{PosixShmSpec} (lock_free : bool) (cacheLine : Z) (reserve_ok : Z → bool) (random : Z → Z → Z).
Context (pid m n : Z) (K1 : kernel).
Hypothesis Hm : 0 ≤ m < 64.
Hypothesis Hn : 0 ≤ n < 64.
Hypothesis Hcls : cacheLine = 0 ∨ 4 ≤ cacheLine ≤ 2 ^ 20.

Abbreviation matrices K suffix contents count bs :=
  (matrices_held K pid (2 ^ m) (2 ^ n) suffix contents count bs) (only parsing).

(** The slot's objects, with [i] matrices and [j] results attached. *)
Record context_held (K : kernel) (c : ClientContext) (i j : Z) : Prop := {
  ch_futex : futex_held cacheLine pid K (pTransposeReadyFutex c);
  ch_queue : queue_held cacheLine pid K (pRequestQueue c);
  ch_matrices : matrices K MATRIX_BUF_NAME_SUFFIX (source_bytes random m n) i (matrixBuffers c);
  ch_results : matrices K TR_MATRIX_BUF_NAME_SUFFIX (zero_bytes random m n) j (matrixBuffersTr c)
}.

Lemma context_held_mono K K' c i j :
  (∀ sm b, region K sm b → region K' sm b) → context_held K c i j → context_held K' c i j.
Proof. intros Hr []. split; eauto using futex_held_mono, queue_held_mono, matrices_held_mono. Qed.

(** Borrowing adds mappings to the system the client has left, and nothing else. *)
Definition attaching (P : kernel → ClientContext → Prop) (s : kernel * ClientContext) : Prop :=
  names s.1 = names K1 ∧ objects s.1 = objects K1 ∧ mappings K1 ⊆ mappings s.1 ∧ P s.1 s.2.

Lemma attach_region_hoare {A B} (ctor : kernelM A) (mem : A → option SharedMemory) name size bs (extra : A → Prop)
    (put : A → ClientContext → ClientContext) (rest : slotM B) (P R : kernel → ClientContext → Prop) Q :
  (∃ sm0, shm_name sm0 = name ∧ region K1 sm0 bs) → size = zlen bs →
  (∀ k k' r, ctor k = (k', r) → borrower_ends mem name size k k' r ∧ ∀ a, r = Ok a → extra a) →
  (∀ K K' c a sm, mem a = Some sm → shm_name sm = name → extra a →
     (∀ sm' b, region K sm' b → region K' sm' b) → region K' sm bs → P K c → R K' (put a c)) →
  hoare (attaching R) rest Q (λ _, True) →
  hoare (attaching P) (a ← in_kernel ctor; _ ← modify (put a); rest) Q (λ _, True).
Proof.
  intros (sm0 & Hname0 & Hr0) Hsize Hctor Hput Hrest [k c] (Hns & Hos & Hms & HP). simpl in *.
  unfold mbind, stM_bind, in_kernel, modify. destruct (ctor k) as [k' r] eqn:Hrun.
  apply Hctor in Hrun as [[(a & sm & -> & Hmem & Hname & Hb)|(e & -> & _)] Hextra]; [|done].
  assert (region k sm0 bs) as Hr by (by eapply region_same).
  destruct (borrowed_region _ _ _ _ _ _ Hb Hr) as (Hn2 & Ho2 & Hm2 & Hreg); [congruence|done|].
  apply (Hrest (k', put a c)). unfold attaching. simpl. split_and!; [congruence|congruence|by etrans|].
  apply (Hput k k' c a sm Hmem Hname (Hextra a eq_refl)); [|done|done]. intros sm' b. by apply region_same.
Qed.

Section loop.
Context (k : Z).
Hypothesis Hmats : ∀ j, 0 ≤ j < k → ∃ sm0, shm_name sm0 = SharedMatrixBuffer_CreateShmObjectName pid j MATRIX_BUF_NAME_SUFFIX ∧
  region K1 sm0 (source_bytes random m n j).
Hypothesis Htrs : ∀ j, 0 ≤ j < k → ∃ sm0, shm_name sm0 = SharedMatrixBuffer_CreateShmObjectName pid j TR_MATRIX_BUF_NAME_SUFFIX ∧
  region K1 sm0 (zero_bytes random m n j).

Lemma server_buffer_ends idx suffix K K' r :
  SharedMatrixBuffer_ctor (λ i, i) pid Server m n idx SharedMatrixBuffer.NoInit suffix K = (K', r) →
  borrower_ends SharedMatrixBuffer.mp_SharedMemory (SharedMatrixBuffer_CreateShmObjectName pid idx suffix)
    (8 * 2 ^ (m + n)) K K' r ∧ ∀ b, r = Ok b → dims_ok m n b.
Proof. apply matrix_server_ends; done. Qed.

Lemma attach_from_held count i :
  0 ≤ i → i + Z.of_nat count = k →
  hoare (attaching (λ K c, context_held K c i i)) (attach_from pid m n count i)
    (λ _, attaching (λ K c, context_held K c k k)) (λ _, True).
Proof.
  revert i. induction count as [|count IH]; intros i Hi Hk; cbn [attach_from].
  { rewrite Z.add_0_r in Hk. subst. apply hoare_ret. done. }
  unfold server_buffer.
  eapply (attach_region_hoare _ _ _ _ _ (dims_ok m n) _ _ _ (λ K c, context_held K c (i + 1) i));
    [| |apply server_buffer_ends|..]; [apply Hmats; lia|symmetry; apply zlen_matrix_bytes; lia|..].
  { intros K K' c b sm Hb Hname (_ & Hr & Hc) Hmono Hreg Hh. apply (context_held_mono K K') in Hh; [|done].
    destruct Hh. split; try done. simpl. by apply (matrices_held_snoc _ _ _ _ _ _ _ _ _ sm). }
  eapply (attach_region_hoare _ _ _ _ _ (dims_ok m n) _ _ _ (λ K c, context_held K c (i + 1) (i + 1)));
    [| |apply server_buffer_ends|..]; [apply Htrs; lia|symmetry; apply zlen_matrix_bytes; lia|..].
  { intros K K' c b sm Hb Hname (_ & Hr & Hc) Hmono Hreg Hh. apply (context_held_mono K K') in Hh; [|done].
    destruct Hh. split; try done. simpl. by apply (matrices_held_snoc _ _ _ _ _ _ _ _ _ sm). }
  apply IH; lia.
Qed.
End loop.

Lemma reserve_attaching P z :
  hoare (attaching P) (reserve reserve_ok z) (λ _, attaching P) (λ _, True).
Proof. intros s Hs. unfold reserve. by destruct (reserve_ok z). Qed.

(** The whole [try] block of [AddClient], in the system the client has left. *)
Lemma setup_context_held w k :
  0 ≤ k → workspace_held cacheLine random pid m n K1 w k k k →
  hoare (attaching (λ _ c, matrixBuffers c = [] ∧ matrixBuffersTr c = []))
    (setup_context lock_free cacheLine reserve_ok pid m n k)
    (λ _, attaching (λ K c, context_held K c k k)) (λ _, True).
Proof.
  intros Hk [(hf & _ & _ & Hfn & Hfr) (hq & _ & _ & _ & Hqn & Hqr) [Hmc Hme] [Htc Hte] _ _].
  assert (4 ≤ word_size cacheLine) as Hws by (apply word_size_ge; lia).
  destruct (CalculateBufferSize_covers seqlock_header REQ_QUEUE_CAPACITY cacheLine) as [Hqs _];
    [by vm_compute|by vm_compute|lia|]. unfold seqlock_header, REQ_QUEUE_CAPACITY in Hqs.
  unfold setup_context. set (P := λ (_ : kernel) c, matrixBuffers c = [] ∧ matrixBuffersTr c = []).
  eapply hoare_bind; [apply (reserve_attaching P)|]. intros [].
  eapply hoare_bind; [apply (reserve_attaching P)|]. intros [].
  eapply (attach_region_hoare _ _ _ _ _ (λ h, FutexSignaller.m_RawPointer h = ptr (FutexSignaller.mp_SharedMemory h)) _ _ _
    (λ K c, futex_held cacheLine pid K (pTransposeReadyFutex c) ∧ P K c)).
  { by exists (FutexSignaller.mp_SharedMemory hf). }
  { rewrite zlen_replicate. symmetry. apply Z2Nat.id. lia. }
  { apply waker_ends. }
  { intros K K' c h sm [= <-] Hname Hp Hmono Hreg [Hb Ht]. split; [|done]. exists h. done. }
  eapply (attach_region_hoare _ _ _ _ _ (λ h, m_Capacity h = REQ_QUEUE_CAPACITY ∧ handle_mask h = REQ_QUEUE_CAPACITY - 1) _ _ _
    (λ K c, context_held K c 0 0)).
  { by exists (QueueCtor.mp_SharedMemory hq). }
  { rewrite zlen_replicate. symmetry. apply Z2Nat.id. unfold seqlock_header, REQ_QUEUE_CAPACITY. lia. }
  { intros K K' r Hrun. unfold SpscQueueSeqLock_ctor in Hrun. apply consumer_ends in Hrun; [exact Hrun|by vm_compute]. }
  { intros K K' c h sm [= <-] Hname [Hcap Hmask] Hmono Hreg (Hf & Hb & Ht). split; simpl.
    - by eapply futex_held_mono.
    - exists h. done.
    - rewrite Hb. apply matrices_held_nil.
    - rewrite Ht. apply matrices_held_nil. }
  eapply hoare_bind.
  { apply (attach_from_held k); [|..|lia].
    - intros j Hj. destruct (proj2 (zget_is_Some (ws_matrixBuffers w) j)) as [b Hb]; [lia|].
      destruct (Hme j b Hb) as (_ & _ & sm & _ & ? & ?). eauto.
    - intros j Hj. destruct (proj2 (zget_is_Some (ws_matrixBuffersTr w) j)) as [b Hb]; [lia|].
      destruct (Hte j b Hb) as (_ & _ & sm & _ & ? & ?). eauto.
    - lia. }
  intros []. intros [K c] (Hns & Hos & Hms & Hh). unfold attaching. simpl in *. split_and!; [done..|].
  by destruct Hh.
Qed.
End attachment.

(** * Reading the shared bytes *)

(** The cells that a process reads through its buffers. *)
Definition buffers_hold (K : kernel) (pid : Z) (suffix : string) (bs : list SharedMatrixBuffer)
    (ms : list (list Z)) : Prop :=
  zlen bs = zlen ms ∧
  ∀ j b, zget bs j = Some b → ∃ x bytes,
    names K !! SharedMatrixBuffer_CreateShmObjectName pid j suffix = Some x ∧
    mappings K !! SharedMatrixBuffer.GetRawPointer b = Some (x, zlen bytes) ∧ objects K !! x = Some bytes ∧
    zget ms j = Some (cells bytes).

(** [k] matrices, each made of the cells [f j]. *)
Definition family (k : Z) (f : Z → list Z) : list (list Z) := f <$> seqZ 0 k.

Lemma zlen_family k f : 0 ≤ k → zlen (family k f) = k.
Proof. intros. unfold family. by rewrite zlen_fmap, zlen_seqZ. Qed.
Lemma zget_family k f j : 0 ≤ j < k → zget (family k f) j = Some (f j).
Proof. intros. unfold family. by rewrite zget_fmap, zget_seqZ. Qed.

Lemma matrices_held_cells K pid rows columns suffix f k bs :
  0 ≤ k → (∀ j, Forall is_u64 (f j)) →
  matrices_held K pid rows columns suffix (λ j, cell_bytes (f j)) k bs → buffers_hold K pid suffix bs (family k f).
Proof.
  intros Hk Hf [Hc He]. split; [by rewrite zlen_family|]. intros j b Hb.
  destruct (He j b Hb) as (_ & _ & sm & Hmem & <- & x & Hname & Hx & Hp). pose proof (zget_Some_range _ _ _ Hb).
  exists x, (cell_bytes (f j)). unfold SharedMatrixBuffer.GetRawPointer. rewrite Hmem.
  split_and!; [done|done|done|]. rewrite zget_family by lia. by rewrite cells_cell_bytes.
Qed.

Lemma buffers_ok_family k R C f : 0 ≤ k → (∀ j, zlen (f j) = R * C) → buffers_ok k R C (family k f).
Proof.
  intros Hk Hf. split; [by apply zlen_family|]. intros j buf Hj. pose proof (zget_Some_range _ _ _ Hj) as Hr.
  rewrite zlen_family in Hr by done. rewrite zget_family in Hj by done. by injection Hj as <-.
Qed.

(** The initial cells, as families. *)
Definition source_cells (random : Z → Z → Z) (m n j : Z) : list Z := initial_cells (random j) Random (2 ^ (m + n)).
Definition zero_cells (random : Z → Z → Z) (m n j : Z) : list Z :=
  initial_cells (random j) SharedMatrixBuffer.Zero (2 ^ (m + n)).

Lemma zlen_initial_cells random mode count : 0 ≤ count → zlen (initial_cells random mode count) = count.
Proof.
  intros. unfold initial_cells. case_decide; [by rewrite zlen_fmap, zlen_seqZ|]. rewrite zlen_replicate. lia.
Qed.

Lemma empty_queue_view cls h :
  0 ≤ cls ≤ 2 ^ 20 → m_Capacity h = REQ_QUEUE_CAPACITY → handle_mask h = REQ_QUEUE_CAPACITY - 1 →
  seqlock_view h (queue_bytes cls) = mkSeqLockQueue (REQ_QUEUE_CAPACITY - 1)
    (SeqLock.mkQueueData 0 0 0 (replicate (Z.to_nat REQ_QUEUE_CAPACITY) 0)).
Proof.
  intros Hcls Hcap Hmask. unfold seqlock_view. rewrite Hcap, Hmask, !le_at_zeros, cells_at_zeros. done.
Qed.

(** What the correctness of sessions assumes of the parameters. *)
Lemma session_params_ok k reps m n T N ms :
  0 ≤ m → 0 ≤ n → m + n < 32 → 0 ≤ k < 2 ^ 31 → 0 ≤ reps < 2 ^ 32 →
  0 < T → (T | 2 ^ m) → (T | 2 ^ n) → 0 < N < 2 ^ 32 →
  buffers_ok k (2 ^ m) (2 ^ n) ms → session_ok k reps (2 ^ m) (2 ^ n) T N ms (REQ_QUEUE_CAPACITY - 1).
Proof.
  intros Hm Hn Hmn Hk Hreps HT HTm HTn HN [Hc Hms].
  assert (2 ^ m ≤ 2 ^ 31) by (apply Z.pow_le_mono_r; lia).
  assert (2 ^ n ≤ 2 ^ 31) by (apply Z.pow_le_mono_r; lia).
  assert (2 ^ (m + n) < 2 ^ 32) by (apply Z.pow_lt_mono_r; lia).
  assert (T ≤ 2 ^ m) by (apply Z.divide_pos_le; [lia|done]).
  assert (T ≤ 2 ^ n) by (apply Z.divide_pos_le; [lia|done]).
  rewrite Z.pow_add_r in * by lia. unfold REQ_QUEUE_CAPACITY. split; try done; try lia.
Qed.

(** Client and server map one object, whose bytes are [bs]. *)
Definition meet (K : kernel) (client server : SharedMemory) (bs : list Z) : Prop :=
  ∃ x, objects K !! x = Some bs ∧ mappings K !! ptr client = Some (x, zlen bs) ∧
    mappings K !! ptr server = Some (x, zlen bs).

Lemma region_meet K sm1 sm2 bs : region K sm1 bs → region K sm2 bs → shm_name sm1 = shm_name sm2 → meet K sm1 sm2 bs.
Proof. intros H1 H2 Hn. destruct (regions_shared K sm1 sm2 bs bs H1 H2 Hn) as (_ & x & ? & ? & ?). by exists x. Qed.

(** * The end of the process *)

(** Names, mappings and descriptors of shared memory as they were. *)
Definition restored (K K' : kernel) : Prop := names K' = names K ∧ mappings K' = mappings K ∧ fds K' = fds K.

(** A phase in which bytes are written and nothing else happens to memory. *)
Definition writes_bytes (f : kernel → kernel) : Prop :=
  ∀ K, names (f K) = names K ∧ mappings (f K) = mappings K ∧ fds (f K) = fds K ∧
    ∀ x bs, objects K !! x = Some bs → ∃ bs', objects (f K) !! x = Some bs' ∧ zlen bs' = zlen bs.

(** The two leaks of the constructor of the connection. *)
Definition connection_leaks `{SocketApi} (nk nk' : net) : Prop :=
  ∃ ep e, fdtab nk !! ep = None ∧
    ((UnixSockIpcClient_ctor SERVER_SOCKET_ADDRESS nk =
        (nk', Throw (socket_error "Failed to add server socket to epoll instance" nk')) ∧
      fdtab nk' = <[ep := e]> (fdtab nk)) ∨
     (UnixSockIpcClient_ctor SERVER_SOCKET_ADDRESS nk =
        (nk', Throw (RuntimeError "Resource temporarily unavailable")) ∧
      ∃ fd x, fdtab nk !! fd = None ∧ fd ≠ ep ∧ fdtab nk' = <[ep := e]> (<[fd := x]> (fdtab nk)))).

(** Both calls of [Send] return: the thread runs, and no SIGPIPE is raised. *)
Definition sends_return (E : surroundings) : Prop :=
  runs_at_subscribe E = true ∧ subscribe_sent E ≠ SPipe ∧ runs_at_unsubscribe E = true ∧ unsubscribe_sent E ≠ SPipe.

(** How the first send that fails ends the process. *)
Definition failed_send (runs : bool) (o : send_outcome) : option process_end :=
  if runs then (if send_bytes [] o then None else Some Killed) else Some Terminates.
Definition unsent (E : surroundings) : option process_end :=
  match failed_send (runs_at_subscribe E) (subscribe_sent E) with
  | Some e => Some e
  | None => failed_send (runs_at_unsubscribe E) (unsubscribe_sent E)
  end.

#[local] Instance sends_return_dec E : Decision (sends_return E).
Proof.
  refine (cast_if (decide (runs_at_subscribe E = true ∧ is_Some (send_bytes [] (subscribe_sent E)) ∧
    runs_at_unsubscribe E = true ∧ is_Some (send_bytes [] (unsubscribe_sent E))))); unfold sends_return;
    destruct (subscribe_sent E), (unsubscribe_sent E); simpl in *; naive_solver (by eexists || by eapply is_Some_None).
Defined.

(** Every result in memory is the transpose of its matrix. *)
Definition results_transposed (m n count : Z) (K : kernel) (w : ClientWorkspace) : Prop :=
  ∀ b, 0 ≤ b < count →
    transposed (2 ^ m) (2 ^ n) (read_buffers K (ws_matrixBuffers w)) (read_buffers K (ws_matrixBuffersTr w)) b.

(** [main] after the set-up. *)
Lemma client_rest_cases `{PosixShm, SocketApi} E ipc w nk K :
  let '((nk1, K1), r) := client_rest E ipc w (nk, K) in
  if decide (sends_return E) then
    match final_check (memory_after E K) w with
    | Ok err => nk1 = UnixSockIpcClient_dtor ipc (net_after E nk) ∧
        K1 = destroy_all (memory_after E K) (shm_of_workspace w) ∧ r = Ok (Exits (if err then 1 else 0))
    | _ => True
    end
  else (∃ e, unsent E = Some e ∧ r = Ok e) ∧ (K1 = K ∨ K1 = memory_after E K).
Proof.
  unfold client_rest, client_Send. destruct (decide (sends_return E)) as [(-> & Ho1 & -> & Ho2)|Hs].
  - destruct (subscribe_sent E), (unsubscribe_sent E); try done; simpl; by destruct (final_check _ _).
  - unfold sends_return in Hs. unfold unsent, failed_send.
    destruct (runs_at_subscribe E); [|by eauto]. destruct (subscribe_sent E); simpl; [| |by eauto];
      (destruct (runs_at_unsubscribe E); [|by eauto]); destruct (unsubscribe_sent E); simpl; eauto;
      destruct Hs; auto.
Qed.

(** Destroying the workspace after others have written bytes. *)
Lemma restored_moved `{PosixShmSpec} K K0 sms f :
  owns K K0 sms → writes_bytes f → restored K (destroy_all (f K0) sms).
Proof.
  intros [Hh Hn Hr Hwf] Hf. destruct (Hf K0) as (Hn' & Hm' & Hf' & Ho').
  assert (owns K (f K0) sms) as Hown.
  { split; [by eapply held_same|done|by rewrite Hn'|]. intros Hk. destruct (Hwf Hk) as [H1 H2].
    split; rewrite Hn'; [|done]. intros nm x Hx. destruct (H1 nm x Hx) as [bs Hbs].
    destruct (Ho' x bs Hbs) as (bs' & -> & _). by eexists. }
  destruct (destroy_owned _ _ _ Hown) as (? & ? & ?). by split_and!.
Qed.

(** The fields that the creation of the workspace leaves alone. *)
Definition keeps {A} (f : stM (kernel * ClientWorkspace) A) : Prop :=
  ∀ s, clientPid (f s).1.2 = clientPid s.2 ∧ buffers (f s).1.2 = buffers s.2.

Lemma keeps_bind {A B} (f : stM (kernel * ClientWorkspace) A) (g : A → stM (kernel * ClientWorkspace) B) :
  keeps f → (∀ a, keeps (g a)) → keeps (f ≫= g).
Proof.
  intros Hf Hg s. unfold mbind, stM_bind. destruct (Hf s) as [Hp Hb]. destruct (f s) as [s' [a|e| |]]; simpl in *; try done.
  destruct (Hg a s') as [-> ->]. by rewrite Hp, Hb.
Qed.
Lemma keeps_in_kernel {A} (f : kernelM A) : keeps (in_kernel f).
Proof. intros [K w]. unfold in_kernel. by destruct (f K). Qed.
Lemma keeps_reserve ok z : keeps (reserve ok z).
Proof. intros [K w]. unfold reserve. by destruct (ok z). Qed.
Lemma keeps_modify f : (∀ w, clientPid (f w) = clientPid w ∧ buffers (f w) = buffers w) → keeps (modify f).
Proof. intros Hf [K w]. apply Hf. Qed.

Lemma create_workspace_keeps `{PosixShm} lf cls ok random pid m n k :
  keeps (create_workspace lf cls ok random pid m n k).
Proof.
  assert (∀ count i, keeps (create_from random pid m n count i)) as Hloop.
  { induction count as [|count IH]; intros i; cbn [create_from]; [done|]. unfold client_buffer.
    repeat (apply keeps_bind; [apply keeps_in_kernel || by apply keeps_modify|intros ?]). apply IH. }
  unfold create_workspace.
  repeat (apply keeps_bind; [apply keeps_in_kernel || apply keeps_reserve || by apply keeps_modify|intros ?]). apply Hloop.
Qed.

(** How the set-up ends. *)
Lemma client_setup_cases `{PosixShmSpec} `{SocketSpec} lf cls ok random argv pid m n count reps nk K nk1 K1 r :
  ProcessArguments argv = Ok (Some (m, n, count, reps)) →
  0 ≤ m < 64 → 0 ≤ n < 64 → 0 ≤ count < 2 ^ 31 → cls = 0 ∨ 4 ≤ cls ≤ 2 ^ 20 →
  client_setup lf cls ok random argv pid (nk, K) = ((nk1, K1), r) →
  (r = Ok (inl 1) ∧ restored K K1 ∧ (fdtab nk1 = fdtab nk ∨ connection_leaks nk nk1)) ∨
  ∃ ipc w, r = Ok (inr (ipc, w)) ∧ owns K K1 (shm_of_workspace w) ∧
    workspace_held cls random pid m n K1 w count count count ∧
    (clientPid w = pid ∧ buffers w = mkBufferDimensions m n count 0 0) ∧
    (∀ nk2, fdtab nk2 = fdtab nk1 → fdtab (UnixSockIpcClient_dtor ipc nk2) = fdtab nk).
Proof.
  intros Hargs Hm Hn Hcount Hcls Hrun. unfold client_setup in Hrun. rewrite Hargs in Hrun.
  set (w0 := workspace_init m n count reps pid) in *.
  assert (slen SERVER_SOCKET_ADDRESS < path_limit) as Hlen by (by vm_compute).
  destruct (UnixSockIpcClient_ctor SERVER_SOCKET_ADDRESS nk) as [nk0 ri] eqn:Hipc. pose proof Hipc as Hctor.
  apply client_ctor_cases in Hipc as [(what & -> & Hf)|(fd & x & Hfree & _ & Hout & _)]; [| |done].
  { injection Hrun as <- <- <-. left. split_and!; [done..|by left]. }
  destruct ri as [ipc|e| |]; [| |by inversion Hout|by inversion Hout].
  2:{ injection Hrun as <- <- <-. left. split_and!; [done..|]. simpl.
      inversion Hout as [|what Hf|ep y Hep Hf|ep y Hep Hne Hf]; subst; [by left|right..]; exists ep, y; (split; [done|]).
      - left. by split.
      - right. split; [done|]. by exists fd, x. }
  destruct (create_workspace lf cls ok random pid m n count (K, w0)) as [[K2 w] rw] eqn:Hcreate.
  pose proof (create_workspace_keeps lf cls ok random pid m n count (K, w0)) as Hkeeps. rewrite Hcreate in Hkeeps.
  pose proof (create_workspace_hoare lf cls ok random pid m n K Hm Hn Hcls count (proj1 Hcount)) as Ht.
  eapply (hoare_run _ _ _ _ _ _ _ Ht) in Hcreate; [|split; [apply owns_nil|done]].
  assert (∀ nk2, fdtab nk2 = fdtab nk0 → fdtab (UnixSockIpcClient_dtor ipc nk2) = fdtab nk) as Hfd
    by (intros; by eapply close_both).
  destruct Hcreate as [([] & -> & Hown & Hheld)|(e & -> & Hown)]; injection Hrun as <- <- <-; simpl in *; [right|left].
  - by exists ipc, w.
  - split; [done|]. split; [|left; by apply Hfd]. destruct (destroy_owned _ _ _ Hown) as (? & ? & ?). by split_and!.
Qed.

(** What the workspace names, when it is complete. *)
Lemma named_matrices `{PosixShm} K pid R C suffix f count bs sm :
  matrices_held K pid R C suffix f count bs → sm ∈ omap SharedMatrixBuffer.mp_SharedMemory bs →
  is_Some (names K !! shm_name sm).
Proof.
  intros [_ He] (b & Hb & Hsm)%list_elem_of_omap. apply list_elem_of_lookup in Hb as [j Hj].
  destruct (He (Z.of_nat j) b) as (_ & _ & sm' & Hsm' & _ & x & Hx & _); [by rewrite zget_of_nat|].
  assert (sm' = sm) as -> by congruence. by exists x.
Qed.

Lemma omap_matrices `{PosixShm} K pid R C suffix f count bs :
  matrices_held K pid R C suffix f count bs → zlen (omap SharedMatrixBuffer.mp_SharedMemory bs) = count.
Proof.
  intros [<- He]. assert (Forall (λ b, is_Some (SharedMatrixBuffer.mp_SharedMemory b)) bs) as Hall.
  { apply Forall_lookup. intros j b Hj. destruct (He (Z.of_nat j) b) as (_ & _ & sm & -> & _); [by rewrite zget_of_nat|].
    by eexists. }
  clear He. unfold zlen. f_equal. induction Hall as [|b bs [sm Hsm] _ IH]; [done|]. simpl. by rewrite Hsm, <-IH.
Qed.

Lemma shm_of_workspace_named `{PosixShm} cls random pid m n K w count sm :
  workspace_held cls random pid m n K w count count count → sm ∈ shm_of_workspace w →
  is_Some (names K !! shm_name sm).
Proof.
  intros [(hf & Hf & _ & _ & x & Hx & _) (hq & Hq & _ & _ & _ & y & Hy & _) Hwm Hwr Hwref _].
  unfold shm_of_workspace. rewrite Hf, Hq. simpl.
  rewrite !elem_of_cons, !elem_of_app.
  intros [->|[->|[Hin|[Hin|Hin]]]]; [by exists x|by exists y|..].
  - exact (named_matrices _ _ _ _ _ _ _ _ _ Hwref Hin).
  - exact (named_matrices _ _ _ _ _ _ _ _ _ Hwr Hin).
  - exact (named_matrices _ _ _ _ _ _ _ _ _ Hwm Hin).
Qed.

Lemma shm_of_workspace_count `{PosixShm} cls random pid m n K w count :
  workspace_held cls random pid m n K w count count count → zlen (shm_of_workspace w) = 2 + 3 * count.
Proof.
  intros [(hf & Hf & _) (hq & Hq & _) Hwm Hwr Hwref _]. unfold shm_of_workspace. rewrite Hf, Hq, !zlen_app.
  rewrite (omap_matrices _ _ _ _ _ _ _ _ Hwm), (omap_matrices _ _ _ _ _ _ _ _ Hwr), (omap_matrices _ _ _ _ _ _ _ _ Hwref).
  change (1 + (1 + (count + (count + count))) = 2 + 3 * count). lia.
Qed.

(** * The final check *)

Lemma zlen_cells bs c : zlen bs = 8 * c → zlen (cells bs) = c.
Proof.
  unfold zlen, cells. rewrite length_fmap, length_seq. intros Hl.
  rewrite Nat2Z.inj_div, Hl, Z.mul_comm. by rewrite Z.div_mul.
Qed.

Lemma read_buffers_ok `{PosixShm} K pid m n suffix f k bs g :
  0 ≤ m → 0 ≤ n → (∀ j, zlen (f j) = 8 * 2 ^ (m + n)) →
  matrices_held K pid (2 ^ m) (2 ^ n) suffix f k bs → writes_bytes g →
  buffers_ok k (2 ^ m) (2 ^ n) (read_buffers (g K) bs).
Proof.
  intros Hm Hn Hf [Hc He] Hg. destruct (Hg K) as (_ & Hmap & _ & Hobj). unfold read_buffers.
  split; [by rewrite zlen_fmap|]. intros j cs Hj. rewrite zget_fmap in Hj. destruct (zget bs j) as [b|] eqn:Hb; [|done].
  injection Hj as <-. destruct (He j b Hb) as (_ & _ & sm & Hsm & _ & x & _ & Hx & Hp).
  destruct (Hobj x _ Hx) as (bs' & Hx' & Hl). unfold read_buffer, SharedMatrixBuffer.GetRawPointer.
  rewrite Hsm, Hmap. rewrite Hp, Hx'. simpl. rewrite <-Z.pow_add_r by done. apply zlen_cells. by rewrite Hl.
Qed.

Lemma final_check_transposed `{PosixShm} cls random pid m n count K w g :
  0 ≤ m < 64 → 0 ≤ n < 64 → 0 ≤ count < 2 ^ 31 → writes_bytes g →
  workspace_held cls random pid m n K w count count count →
  clientPid w = pid ∧ buffers w = mkBufferDimensions m n count 0 0 →
  ∃ err, final_check (g K) w = Ok err ∧ (err = false ↔ results_transposed m n count (g K) w).
Proof.
  intros Hm Hn Hcount Hg [_ _ Hwm Hwr Hwref Hsmall] [_ Hd]. unfold final_check, results_transposed. rewrite Hd. cbn [dim_k dim_m dim_n].
  case_decide as Hk; [exists false; split; [done|]; split; [lia|done]|].
  destruct Hsmall as [|Hlt]; [lia|].
  assert (∀ j, zlen (source_bytes random m n j) = 8 * 2 ^ (m + n)) as Hs by (intros; apply zlen_matrix_bytes; lia).
  assert (∀ j, zlen (zero_bytes random m n j) = 8 * 2 ^ (m + n)) as Hz by (intros; apply zlen_matrix_bytes; lia).
  assert (∀ a, 0 ≤ a < 32 → shift_dimension a = Ok (2 ^ a)) as Hshift.
  { intros a Ha. unfold shift_dimension. rewrite decide_True by lia. f_equal. rewrite Z.shiftl_1_l.
    apply u32_small. split; [lia|]. apply Z.pow_lt_mono_r; lia. }
  rewrite !Hshift by lia. cbn [mbind result_bind].
  eapply (final_check_exact count 1 (2 ^ m) (2 ^ n) 1 1 _ (REQ_QUEUE_CAPACITY - 1)).
  - apply session_params_ok; try lia; [apply Z.divide_1_l..|].
    exact (read_buffers_ok K pid m n _ _ count _ g (proj1 Hm) (proj1 Hn) Hs Hwm Hg).
  - exact (read_buffers_ok K pid m n _ _ count _ g (proj1 Hm) (proj1 Hn) Hz Hwref Hg).
  - exact (read_buffers_ok K pid m n _ _ count _ g (proj1 Hm) (proj1 Hn) Hz Hwr Hg).
Qed.

(** * Properties *)

(** C24: What a client leaves behind when its process ends.  When the set-up fails
    anywhere, the process exits with code 1, and the names, mappings and descriptors
    of shared memory are those before it started; so are the descriptors of its
    sockets, unless the connection could not be watched or the thread not be
    started, when one or two are still open.  After a set-up, suppose that the wait
    for the response and the request loops end and that meanwhile the processes only
    write bytes.  If both calls of [Send] return, which they also do when [send]
    fails, the process exits with the names, mappings and descriptors of both kinds
    as they were, and with code 0 precisely when every result it reads is the
    transpose of its matrix, and otherwise with 1.  If the thread has stopped when
    [Send] is called, its exception, which nobody catches, terminates the process,
    and if the server has closed the connection SIGPIPE kills it: nothing is
    destroyed then, and the names of all its objects, two and three for each buffer,
    are left in the system. *)
Theorem client_cleans_up `{PosixShmSpec} `{SocketSpec} lf cls ok random argv pid m n count reps E nk K nk1 K1 r :
  ProcessArguments argv = Ok (Some (m, n, count, reps)) →
  0 ≤ m < 64 → 0 ≤ n < 64 → 0 ≤ count < 2 ^ 31 → cls = 0 ∨ 4 ≤ cls ≤ 2 ^ 20 →
  writes_bytes (memory_after E) → (∀ k, fdtab (net_after E k) = fdtab k) →
  client_main lf cls ok random argv pid E (nk, K) = ((nk1, K1), r) →
  (client_setup lf cls ok random argv pid (nk, K) = ((nk1, K1), Ok (inl 1)) ∧ r = Ok (Exits 1) ∧
     restored K K1 ∧ (fdtab nk1 = fdtab nk ∨ connection_leaks nk nk1)) ∨
  (∃ nk0 K0 ipc w,
     client_setup lf cls ok random argv pid (nk, K) = ((nk0, K0), Ok (inr (ipc, w))) ∧
     (sends_return E → restored K K1 ∧ fdtab nk1 = fdtab nk ∧
        ∃ code, r = Ok (Exits code) ∧ (code = 0 ∨ code = 1) ∧
          (code = 0 ↔ results_transposed m n count (memory_after E K0) w)) ∧
     (¬ sends_return E → (∃ e, unsent E = Some e ∧ r = Ok e) ∧ zlen (shm_of_workspace w) = 2 + 3 * count ∧
        ∀ sm, sm ∈ shm_of_workspace w → names K !! shm_name sm = None ∧ is_Some (names K1 !! shm_name sm))).
Proof.
  intros Hargs Hm Hn Hcount Hcls Hbytes Hnet Hrun. unfold client_main, mbind, stM_bind in Hrun.
  destruct (client_setup lf cls ok random argv pid (nk, K)) as [[nk0 K0] r0] eqn:Hsetup.
  pose proof Hsetup as Hcase.
  eapply client_setup_cases in Hcase as [(-> & Hres & Hfd)|(ipc & w & -> & Hown & Hheld & Hws & Hfd)]; try done.
  { injection Hrun as <- <- <-. by left. }
  right. exists nk0, K0, ipc, w. split; [done|].
  pose proof (client_rest_cases E ipc w nk0 K0) as Hcases. rewrite Hrun in Hcases. split.
  - intros Hs. rewrite decide_True in Hcases by done.
    destruct (final_check_transposed cls random pid m n count K0 w (memory_after E))
      as (err & Herr & Hexact); try done.
    rewrite Herr in Hcases. destruct Hcases as (-> & -> & ->). split; [by apply restored_moved|].
    split; [by rewrite Hfd|]. exists (if err then 1 else 0). rewrite <-Hexact.
    destruct err; (split; [done|]); (split; [by auto|]); by split.
  - intros Hs. rewrite decide_False in Hcases by done. destruct Hcases as [Hr HK]. split; [done|].
    split; [by eapply shm_of_workspace_count|]. intros sm Hsm. split; [by apply (o_names _ _ _ Hown)|].
    assert (is_Some (names K0 !! shm_name sm)) by (by eapply shm_of_workspace_named).
    destruct HK as [->| ->]; [done|]. by rewrite (proj1 (Hbytes K0)).
Qed.

(** A client's network, with a server that listens, and its arguments. *)
Definition demo_net : net := other_process (UnixSockIpcServer_ctor SERVER_SOCKET_ADDRESS net_boot).1 ∅.
Definition demo_argv : list string := ["transpose_client"; "1"; "1"; "1"; "1"].

(** The demo's client, when every byte of the shared memory has been set to one: it
    runs to its end, or its thread has stopped before the unsubscription. *)
Definition demo_message : ClientServerMessage := mkMessage 0 0 0 0 0.
Definition demo_memory (K : kernel) : kernel :=
  mkKernel (names K) ((λ bs, replicate (length bs) 1) <$> objects K) (fds K) (mappings K) (errno K) (world K).
Definition demo_surroundings (runs : bool) : surroundings :=
  mkSurroundings true (STaken 20) demo_message demo_memory (λ nk, nk) runs (STaken 20) demo_message.
Definition demo_run (runs : bool) :=
  client_main true 64 (λ _, true) (λ _ i, u64 (7 * i)) demo_argv 9 (demo_surroundings runs) (demo_net, boot).

Lemma demo_writes_bytes : writes_bytes demo_memory.
Proof.
  intros K. split_and!; try done. intros x bs Hx. exists (replicate (length bs) 1).
  split; [|by rewrite zlen_replicate]. simpl. by rewrite lookup_fmap, Hx.
Qed.

Lemma client_cleans_up_witness :
  (demo_run true).2 = Ok (Exits 0) ∧ restored boot (demo_run true).1.2 ∧ fdtab (demo_run true).1.1 = fdtab demo_net ∧
  (demo_run false).2 = Ok Terminates ∧
  ∃ w, zlen (shm_of_workspace w) = 5 ∧
    ∀ sm, sm ∈ shm_of_workspace w → is_Some (names (demo_run false).1.2 !! shm_name sm).
Proof.
  assert (∀ runs, demo_run runs = ((demo_run runs).1.1, (demo_run runs).1.2, (demo_run runs).2)) as Hrun
    by (intros; by rewrite <-!surjective_pairing).
  pose proof (λ runs, client_cleans_up true 64 (λ _, true) (λ _ i, u64 (7 * i)) demo_argv 9 1 1 1 1 (demo_surroundings runs)
    demo_net boot _ _ _ ltac:(vm_compute; reflexivity) ltac:(lia) ltac:(lia) ltac:(lia) ltac:(right; lia)
    demo_writes_bytes (λ _, eq_refl) (Hrun runs)) as Hcase.
  assert ((demo_run true).2 = Ok (Exits 0)) as Ht by (vm_compute; reflexivity).
  assert ((demo_run false).2 = Ok Terminates) as Hf by (vm_compute; reflexivity).
  split; [exact Ht|].
  destruct (Hcase true) as [(_ & He & _)|(nk0 & K0 & ipc & w & _ & Hs & _)]; [rewrite Ht in He; discriminate He|].
  destruct Hs as (Hres & Hfd & _); [by split_and!|]. split; [exact Hres|]. split; [exact Hfd|]. split; [exact Hf|].
  destruct (Hcase false) as [(_ & He & _)|(nk1 & K1 & ipc1 & w1 & _ & _ & Hs)]; [rewrite Hf in He; discriminate He|].
  destruct Hs as (_ & Hl & Hn); [by intros (_ & _ & ? & _)|]. exists w1. split; [exact Hl|]. intros sm Hsm. by apply Hn.
Defined.

(** C8: Client and server meet in the state in which a session starts.  When the
    client has created its workspace and the server has then set up the slot for
    its subscription, both map one queue, which is empty, one futex word, which is
    zero, and the same matrices and results, object by object, with the random
    numbers and with zeros; different names stand for different objects; and the
    session between them satisfies all that the correctness of sessions, and of the
    whole service, assumes, with one step for an operation of the queue and with one
    for an access. *)
Theorem session_starts `{PosixShmSpec} lf lf' cls ok ok' random pid m n k reps socket T N K K1 K2 w c0 c :
  0 ≤ m → 0 ≤ n → 0 ≤ k < 2 ^ 31 → 0 ≤ reps < 2 ^ 32 → cls = 0 ∨ 4 ≤ cls ≤ 2 ^ 20 →
  (∀ j i, is_u64 (random j i)) → 0 < T → (T | 2 ^ m) → (T | 2 ^ n) → m + n < 32 → 0 < N < 2 ^ 32 → names_wf K →
  create_workspace lf cls ok random pid m n k (K, workspace_init m n k reps pid) = ((K1, w), Ok ()) →
  begin_context pid m n k socket = Ok c0 →
  setup_context lf' cls ok' pid m n k (K1, c0) = ((K2, c), Ok ()) →
  let sources := family k (source_cells random m n) in
  let zeros := family k (zero_cells random m n) in
  let start := mkSession demo_queue false zeros (COuter 0) SPoll in
  (∃ hq hqs, ws_pRequestQueue w = Some hq ∧ pRequestQueue c = Some hqs ∧
     ∃ bs, meet K2 (QueueCtor.mp_SharedMemory hq) (QueueCtor.mp_SharedMemory hqs) bs ∧
       seqlock_view hq bs = queue start ∧ seqlock_view hqs bs = queue start) ∧
  (∃ hf hfs, ws_pTransposeReadyFutex w = Some hf ∧ pTransposeReadyFutex c = Some hfs ∧
     ∃ bs, meet K2 (FutexSignaller.mp_SharedMemory hf) (FutexSignaller.mp_SharedMemory hfs) bs ∧ word_view bs = 0) ∧
  buffers_hold K2 pid MATRIX_BUF_NAME_SUFFIX (ws_matrixBuffers w) sources ∧
  buffers_hold K2 pid MATRIX_BUF_NAME_SUFFIX (matrixBuffers c) sources ∧
  buffers_hold K2 pid TR_MATRIX_BUF_NAME_SUFFIX (ws_matrixBuffersTr w) (results start) ∧
  buffers_hold K2 pid TR_MATRIX_BUF_NAME_SUFFIX (matrixBuffersTr c) (results start) ∧
  buffers_hold K2 pid TR_GOLDEN_MATRIX_BUF_NAME_SUFFIX (ws_matrixBuffersTrReference w) zeros ∧
  names_wf K2 ∧
  session_ok k reps (2 ^ m) (2 ^ n) T N sources (REQ_QUEUE_CAPACITY - 1) ∧
  session_init (REQ_QUEUE_CAPACITY - 1) start ∧ buffers_ok k (2 ^ m) (2 ^ n) (results start) ∧
  atomic_starts (λ _, (m, n, k)) (REQ_QUEUE_CAPACITY - 1) pid start ∧
  access_starts (λ _, (m, n, k)) REQ_QUEUE_CAPACITY pid (fine_init REQ_QUEUE_CAPACITY (results start)) ∧
  shared (fine_init REQ_QUEUE_CAPACITY (results start)) = SeqLock.data (queue start).
Proof.
  intros Hm Hn Hk Hreps Hcls Hrandom HT HTm HTn Hmn HN Hwf Hcreate Hbegin Hsetup sources zeros start.
  assert (0 ≤ 2 ^ (m + n)) as Hpow by lia.
  assert (∀ mode j, Forall is_u64 (initial_cells (random j) mode (2 ^ (m + n)))) as Hu64
    by (intros; by apply Forall_initial_cells).
  assert (∀ mode j, zlen (initial_cells (random j) mode (2 ^ (m + n))) = 2 ^ m * 2 ^ n) as Hlen
    by (intros; rewrite zlen_initial_cells, Z.pow_add_r by lia; done).
  pose proof (create_workspace_hoare lf cls ok random pid m n K ltac:(lia) ltac:(lia) Hcls k ltac:(lia)) as Ht.
  eapply (hoare_run _ _ _ _ _ _ _ Ht) in Hcreate as [([] & _ & Hown & Hws)|(e & [=] & _)];
    [|split; [apply owns_nil|done]]. simpl in Hown, Hws.
  assert (matrixBuffers c0 = [] ∧ matrixBuffersTr c0 = []) as Hc0.
  { unfold begin_context in Hbegin. apply result_bind_Ok in Hbegin as (? & _ & Hbegin).
    by apply result_bind_Ok in Hbegin as (? & _ & [= <-]). }
  pose proof (setup_context_held lf' cls ok' random pid m n K1 ltac:(lia) ltac:(lia) Hcls w k ltac:(lia) Hws) as Hts.
  eapply (hoare_run _ _ _ _ _ _ _ Hts) in Hsetup as [([] & _ & Hns & Hos & Hms & Hch)|(e & [=] & _)]; [|done].
  simpl in Hns, Hos, Hms, Hch.
  apply (workspace_held_mono cls random pid m n K1 K2) in Hws; [|intros; by eapply region_same].
  destruct Hws as [(hf & Hf & _ & Hfn & Hfr) (hq & Hq & Hqc & Hqm & Hqn & Hqr) Hwm Hwr Hwref _].
  destruct Hch as [(hfs & Hfs & _ & Hfsn & Hfsr) (hqs & Hqs & Hqsc & Hqsm & Hqsn & Hqsr) Hcm Hcr].
  assert (buffers_ok k (2 ^ m) (2 ^ n) zeros) as Hzeros by (apply buffers_ok_family; [lia|intros; apply Hlen]).
  split_and!.
  - exists hq, hqs. split_and!; [done|done|]. exists (queue_bytes cls).
    split; [apply region_meet; [done|done|congruence]|]. by split; apply empty_queue_view; try lia.
  - exists hf, hfs. split_and!; [done|done|]. exists (word_bytes cls).
    split; [apply region_meet; [done|done|congruence]|apply le_at_zeros].
  - eapply matrices_held_cells; [lia|intros; apply Hu64|exact Hwm].
  - eapply matrices_held_cells; [lia|intros; apply Hu64|exact Hcm].
  - eapply matrices_held_cells; [lia|intros; apply Hu64|exact Hwr].
  - eapply matrices_held_cells; [lia|intros; apply Hu64|exact Hcr].
  - eapply matrices_held_cells; [lia|intros; apply Hu64|exact Hwref].
  - destruct (o_wf _ _ _ Hown Hwf) as [Hex Hinj]. split; rewrite Hns, ?Hos; done.
  - apply session_params_ok; try done. apply buffers_ok_family; [lia|intros; apply Hlen].
  - split; [exact demo_queue_empty|done].
  - exact Hzeros.
  - split; [by split; [exact demo_queue_empty|]|exact Hzeros].
  - by exists zeros.
  - done.
Qed.

(** The demo's run on the concrete system: one matrix of 2 by 2 cells. *)
Definition demo_created :=
  create_workspace true 64 (λ _, true) (λ _ i, u64 (7 * i)) 9 1 1 1 (boot, workspace_init 1 1 1 1 9).
Definition demo_context : ClientContext :=
  mkClientContext false 9 (mkBufferDimensions 1 1 1 2 2) ClientStats_init 5 [] [] None None.
Definition demo_attached :=
  setup_context true 64 (λ _, true) 9 1 1 1 (demo_created.1.1, demo_context).

Lemma boot_wf : names_wf boot.
Proof. split; intros ?; intros; simpl in *; simplify_map_eq. Qed.

Lemma session_starts_witness :
  demo_created.2 = Ok () ∧ demo_attached.2 = Ok () ∧
  let zeros := family 1 (zero_cells (λ _ i, u64 (7 * i)) 1 1) in
  names_wf demo_attached.1.1 ∧
  session_ok 1 1 2 2 2 1 (family 1 (source_cells (λ _ i, u64 (7 * i)) 1 1)) 15 ∧
  session_init 15 (mkSession demo_queue false zeros (COuter 0) SPoll) ∧ buffers_ok 1 2 2 zeros.
Proof.
  assert (demo_created = (demo_created.1, Ok ())) as Hc by (vm_compute; reflexivity).
  assert (demo_attached = (demo_attached.1, Ok ())) as Ha by (vm_compute; reflexivity).
  split; [vm_compute; reflexivity|]. split; [vm_compute; reflexivity|]. cbv zeta.
  destruct (session_starts true true 64 (λ _, true) (λ _, true) (λ _ i, u64 (7 * i)) 9 1 1 1 1 5 2 1 boot
    demo_created.1.1 demo_attached.1.1 demo_created.1.2 demo_context demo_attached.1.2)
    as (_ & _ & _ & _ & _ & _ & _ & Hwf & Hok & Hinit & Hzeros & _);
    [lia|lia|lia|lia|right; lia|intros; apply u64_range|lia|by exists 1|by exists 1|lia|lia|exact boot_wf
    |rewrite <-surjective_pairing; exact Hc|vm_compute; reflexivity|rewrite <-surjective_pairing; exact Ha|].
  split; [exact Hwf|]. split; [exact Hok|]. split; [exact Hinit|exact Hzeros].
Defined.
