(* ===== verification/Table.v ===== *)
(** [src/lib/presentation/Table.h]: text tables, which collect rows up to a limit
    and are rendered with columns as wide as their widest cell. *)

From S2P Require Import Prelude.
From Stdlib Require Import Ascii.
#[local] Open Scope Z_scope.

(** * The code *)

Record Table := mkTable {
  title : string;
  footer : string;
  headers : list string;
  rows : list (list string);
  columnWidths : list Z;
  maxRows : Z
}.

(** [std::string(n, c)]. *)
Fixpoint string_of_char (n : nat) (c : ascii) : string :=
  match n with O => "" | S n' => String c (string_of_char n' c) end.

(** A cell written with [std::setw(w) << std::left]: blanks up to [w]
    characters.  The argument of [setw] is an [int]. *)
Definition to_int (x : Z) : Z := (x + 2 ^ 31) mod 2 ^ 32 - 2 ^ 31.
Definition write_left (w : Z) (s : string) : string :=
  s +:+ string_of_char (Z.to_nat (to_int w - slen s)) " ".

Definition column_width (allRows : list (list string)) (i : nat) (header : string) : Z :=
  foldl (λ w row, match row !! i with Some cell => Z.max w (slen cell) | None => w end)
    (slen header) allRows.

Definition calculateColumnWidths (t : Table) : Table :=
  mkTable (title t) (footer t) (headers t) (rows t) (imap (column_width (rows t)) (headers t)) (maxRows t).

(** The loops of [createLine] and [createRow], from column [i] on. *)
Fixpoint line_from (fill middle : ascii) (columns i : Z) (widths : list Z) : string :=
  match widths with
  | [] => ""
  | w :: widths' =>
      string_of_char (Z.to_nat (u64 (w + 2))) fill +:+
      (if decide (i < u64 (columns - 1)) then String middle "" else "") +:+
      line_from fill middle columns (i + 1) widths'
  end.

Definition createLine (t : Table) (left fill middle right : ascii) : string :=
  String left (line_from fill middle (zlen (columnWidths t)) 0 (columnWidths t) +:+ String right "").

Fixpoint row_from (row : list string) (i : nat) (widths : list Z) : string :=
  match widths with
  | [] => ""
  | w :: widths' =>
      " " +:+ write_left w (default "" (row !! i)) +:+ " |" +:+ row_from row (S i) widths'
  end.

Definition createRow (t : Table) (row : list string) : string := "|" +:+ row_from row 0 (columnWidths t).

(** The constructor reserves room for the rows; [reserve_fails] is the exception
    with which [std::vector] refuses, if it does. *)
Definition Table_ctor (reserve_fails : Z → option exn) (title : string) (headers : list string) (maxRows : Z)
    (footer : string) : result Table :=
  match reserve_fails maxRows with
  | Some e => Throw e
  | None => Ok (mkTable title footer headers [] [] maxRows)
  end.

Definition addRow (t : Table) (row : list string) : Table :=
  if decide (zlen (rows t) < maxRows t) then
    mkTable (title t) (footer t) (headers t) (rows t ++ [row]) (columnWidths t) (maxRows t)
  else t.

Definition clear (t : Table) : Table :=
  mkTable (title t) (footer t) (headers t) [] (columnWidths t) (maxRows t).

Definition newline : string := String (ascii_of_nat 10) "".

(** Lines, each followed by a newline. *)
Fixpoint unlines (ls : list string) : string :=
  match ls with [] => "" | l :: ls' => l +:+ newline +:+ unlines ls' end.

(** [render]: the table with its new widths, and the text. *)
Definition render (t0 : Table) : Table * string :=
  let t := calculateColumnWidths t0 in
  let line := createLine t "+" "-" "+" "+" in
  (t, title t +:+ newline +:+ line +:+ newline +:+ createRow t (headers t) +:+ newline +:+
      line +:+ newline +:+ unlines (createRow t <$> rows t) +:+ line +:+ newline +:+
      (if decide (footer t = "") then "" else footer t +:+ newline)).

(** * Lengths *)

Lemma slen_string_of_char n c : slen (string_of_char n c) = Z.of_nat n.
Proof. unfold slen. induction n; cbn [string_of_char String.length]; lia. Qed.
Lemma unlines_app l1 l2 : unlines (l1 ++ l2) = unlines l1 +:+ unlines l2.
Proof. induction l1 as [|l l1 IH]; [done|]. simpl. by rewrite IH, !string_app_assoc. Qed.

Lemma to_int_small x : 0 ≤ x < 2 ^ 31 → to_int x = x.
Proof. intros. unfold to_int. rewrite Z.mod_small; lia. Qed.

(** Widths that [setw] takes as they are. *)
Definition narrow (w : Z) : Prop := 0 ≤ w < 2 ^ 31.

Lemma slen_write_left w s : narrow w → slen s ≤ w → slen (write_left w s) = w.
Proof.
  intros Hw Hs. unfold write_left. rewrite slen_app, slen_string_of_char, to_int_small by done. lia.
Qed.

(** The columns' positions: each takes its width and three more characters. *)
Definition column_start (widths : list Z) : Z := foldr (λ w n, w + 3 + n) 0 widths.

Lemma slen_line_from fill middle columns widths : ∀ i,
  Forall narrow widths → 0 ≤ i → i + zlen widths = columns → columns < 2 ^ 64 →
  slen (line_from fill middle columns i widths) =
    column_start widths - (if decide (widths = []) then 0 else 1).
Proof.
  induction widths as [|w widths IH]; intros i Hw Hi Hc Hlt; [done|].
  apply Forall_cons in Hw as [[Hw0 Hw1] Hws]. cbn [line_from column_start foldr].
  unfold zlen in Hc. simpl in Hc. rewrite (u64_small (columns - 1)), (u64_small (w + 2)) by lia.
  rewrite !slen_app, slen_string_of_char, IH by (done || unfold zlen; lia).
  fold (column_start widths). rewrite (decide_False (P := w :: widths = [])) by done.
  destruct widths as [|w' widths]; simpl in *.
  - rewrite decide_False by lia. change (slen "") with 0. lia.
  - rewrite decide_True by lia. change (slen (String middle "")) with 1. lia.
Qed.

(** The cells of a row fit the columns from [i] on. *)
Definition fits (row : list string) (i : nat) (widths : list Z) : Prop :=
  ∀ j w, widths !! j = Some w → slen (default "" (row !! (i + j)%nat)) ≤ w.

Lemma fits_cons row i w widths :
  fits row i (w :: widths) → slen (default "" (row !! i)) ≤ w ∧ fits row (S i) widths.
Proof.
  intros H. split.
  - specialize (H 0%nat w eq_refl). by rewrite Nat.add_0_r in H.
  - intros j w' Hj. specialize (H (S j) w' Hj). by replace (S i + j)%nat with (i + S j)%nat by lia.
Qed.

Lemma slen_row_from row widths : ∀ i,
  Forall narrow widths → fits row i widths → slen (row_from row i widths) = column_start widths.
Proof.
  induction widths as [|w widths IH]; intros i Hw Hf; [done|].
  apply Forall_cons in Hw as [Hw Hws]. apply fits_cons in Hf as [Hc Hf]. cbn [row_from column_start foldr].
  rewrite !slen_app, slen_write_left, IH by done. change (slen " ") with 1. change (slen " |") with 2.
  unfold column_start. lia.
Qed.

(** Cell [j] of a row stands at the start of its column, padded with blanks. *)
Lemma row_from_cell row widths : ∀ i j w,
  Forall narrow widths → fits row i widths → widths !! j = Some w →
  let cell := default "" (row !! (i + j)%nat) in
  ∃ before after,
    row_from row i widths =
      before +:+ (cell +:+ string_of_char (Z.to_nat (w - slen cell)) " ") +:+ after ∧
    slen before = column_start (take j widths) + 1.
Proof.
  induction widths as [|w0 widths IH]; intros i j w Hw Hf Hj; [done|]. cbv zeta.
  apply Forall_cons in Hw as [Hw Hws]. apply fits_cons in Hf as [Hc Hf].
  destruct j as [|j]; simpl in Hj.
  - injection Hj as ->. rewrite Nat.add_0_r. exists " ", (" |" +:+ row_from row (S i) widths).
    cbn [row_from]. unfold write_left. rewrite to_int_small by done. done.
  - destruct (IH (S i) j w) as (before & after & Hrow & Hlen); [done..|].
    replace (i + S j)%nat with (S i + j)%nat by lia.
    exists (" " +:+ write_left w0 (default "" (row !! i)) +:+ " |" +:+ before), after.
    cbn [row_from]. rewrite Hrow. split; [by rewrite !string_app_assoc|].
    rewrite !slen_app, Hlen, slen_write_left by done. unfold column_start. cbn [take foldr].
    change (slen " ") with 1. change (slen " |") with 2. lia.
Qed.

(** * Column widths *)

Lemma column_width_spec allRows i header :
  slen header ≤ column_width allRows i header ∧
  (∀ row, row ∈ allRows → slen (default "" (row !! i)) ≤ column_width allRows i header) ∧
  (column_width allRows i header = slen header ∨
   ∃ row cell, row ∈ allRows ∧ row !! i = Some cell ∧ column_width allRows i header = slen cell).
Proof.
  unfold column_width. induction allRows as [|row allRows IH] using rev_ind; simpl.
  { split_and!; [lia| |by left]. by intros row ?%elem_of_nil. }
  rewrite foldl_app. simpl. destruct IH as (H0 & H1 & H2). pose proof (slen_nonneg header).
  revert H0 H1 H2. generalize (foldl
    (λ (w : Z) (row : list string), match row !! i with Some cell => w `max` slen cell | None => w end)
    (slen header) allRows). intros w H0 H1 H2.
  split_and!.
  - destruct (row !! i); lia.
  - intros row' [Hr%H1|Hr]%elem_of_app.
    + destruct (row !! i); lia.
    + apply list_elem_of_singleton in Hr as ->. destruct (row !! i); simpl; [lia|].
      change (slen "") with 0. lia.
  - destruct (row !! i) as [cell|] eqn:Hcell.
    2:{ destruct H2 as [?|(r & c & ? & ? & ?)]; [by left|right; exists r, c; set_solver]. }
    destruct (Z.max_spec w (slen cell)) as [[_ ->]|[_ ->]].
    + right. exists row, cell. set_solver.
    + destruct H2 as [?|(r & c & ? & ? & ?)]; [by left|right; exists r, c; set_solver].
Qed.

(** All texts of a table are short enough for [setw]. *)
Definition short_texts (allRows : list (list string)) : Prop := Forall (Forall (λ s, slen s < 2 ^ 31)) allRows.

Lemma widths_lookup hs rs i w :
  imap (column_width rs) hs !! i = Some w → ∃ h, hs !! i = Some h ∧ w = column_width rs i h.
Proof. rewrite list_lookup_imap. destruct (hs !! i); naive_solver. Qed.

Lemma widths_narrow hs rs :
  short_texts (hs :: rs) → Forall narrow (imap (column_width rs) hs).
Proof.
  intros [Hh Hr]%Forall_cons. apply Forall_lookup_2. intros i w (h & Hi & ->)%widths_lookup.
  destruct (column_width_spec rs i h) as (H0 & _ & Hw). pose proof (slen_nonneg h).
  split; [lia|]. destruct Hw as [->|(row & cell & Hrow & Hcell & ->)].
  - exact (Forall_lookup_1 _ _ _ _ Hh Hi).
  - apply (Forall_lookup_1 (λ s, slen s < 2 ^ 31) row i); [|done]. by eapply Forall_forall in Hr.
Qed.

Lemma widths_fit hs rs row : row ∈ hs :: rs → fits row 0 (imap (column_width rs) hs).
Proof.
  intros Hrow j w (h & Hj & ->)%widths_lookup. simpl. destruct (column_width_spec rs j h) as (H0 & H1 & _).
  apply elem_of_cons in Hrow as [->|Hrow]; [by rewrite Hj|by apply H1].
Qed.

(** * Rows *)

Lemma foldl_addRow added : ∀ t,
  zlen (rows t) ≤ maxRows t →
  let t' := foldl addRow t added in
  rows t' = take (Z.to_nat (maxRows t)) (rows t ++ added) ∧ title t' = title t ∧ footer t' = footer t ∧
  headers t' = headers t ∧ maxRows t' = maxRows t.
Proof.
  induction added as [|row added IH]; intros t Ht; simpl.
  { rewrite app_nil_r, take_ge; [done|]. unfold zlen in Ht. lia. }
  unfold addRow at 2 4 6 8 10. case_decide as Hlt.
  - destruct (IH (mkTable (title t) (footer t) (headers t) (rows t ++ [row]) (columnWidths t) (maxRows t)))
      as (-> & -> & -> & -> & ->); simpl; [rewrite zlen_app; unfold zlen in *; simpl; lia|].
    by rewrite <-app_assoc.
  - destruct (IH t Ht) as (-> & -> & -> & -> & ->). split_and!; try done.
    rewrite !take_app_le by (unfold zlen in *; lia). done.
Qed.

(** * The text *)

Lemma render_lines t0 :
  let '(t, text) := render t0 in
  let line := createLine t "+" "-" "+" "+" in
  text = unlines (title t :: (line :: createRow t (headers t) :: line :: (createRow t <$> rows t) ++ [line]) ++
                  (if decide (footer t = "") then [] else [footer t])).
Proof.
  unfold render. set (t := calculateColumnWidths t0). cbv zeta. set (line := createLine _ _ _ _ _).
  cbn [unlines app]. rewrite <-app_assoc, unlines_app. cbn [unlines app].
  rewrite !string_app_assoc. f_equal. by case_decide; cbn [unlines]; rewrite ?app_empty.
Qed.

Lemma createRow_cell t row i w :
  Forall narrow (columnWidths t) → fits row 0 (columnWidths t) → columnWidths t !! i = Some w →
  let cell := default "" (row !! i) in
  ∃ before after,
    createRow t row = before +:+ (cell +:+ string_of_char (Z.to_nat (w - slen cell)) " ") +:+ after ∧
    slen before = column_start (take i (columnWidths t)) + 2.
Proof.
  intros Hn Hf Hi. destruct (row_from_cell row (columnWidths t) 0 i w Hn Hf Hi) as (before & after & Hrow & Hlen).
  exists ("|" +:+ before), after. unfold createRow. rewrite Hrow, !string_app_assoc. split; [done|].
  rewrite slen_app, Hlen. change (slen "|") with 1. lia.
Qed.

(** The width of a column is the length of one of its texts. *)
Lemma width_attained hs rs i w :
  imap (column_width rs) hs !! i = Some w →
  ∃ row cell, row ∈ hs :: rs ∧ row !! i = Some cell ∧ w = slen cell.
Proof.
  intros (h & Hi & ->)%widths_lookup.
  destruct (column_width_spec rs i h) as (_ & _ & [->|(row & cell & Hrow & Hcell & ->)]).
  - exists hs, h. split_and!; [by left|done|done].
  - exists row, cell. split_and!; [by right|done|done].
Qed.

(** * Properties *)

(** A rendered table is aligned.  A table to which any number of rows was
    added shows the first [maxRows] of them, between its title and its footer, as
    lines that all have the same length; the cell of column [i] stands in every
    line at the same position, followed by blanks up to the width of the column,
    and that width is the length of the longest text in the column. *)
Theorem render_aligned reserve_fails title headers maxRows footer added t0 :
  0 ≤ maxRows → headers ≠ [] → zlen headers < 2 ^ 64 → short_texts (headers :: added) →
  Table_ctor reserve_fails title headers maxRows footer = Ok t0 →
  let '(t, text) := render (foldl addRow t0 added) in
  let shown := take (Z.to_nat maxRows) added in
  ∃ lines, text = unlines (title :: lines ++ (if decide (footer = "") then [] else [footer])) ∧
    length lines = (4 + length shown)%nat ∧
    Forall (λ line, slen line = 1 + column_start (columnWidths t)) lines ∧
    ∀ r i row cell, (headers :: shown) !! r = Some row → row !! i = Some cell → (i < length headers)%nat →
      ∃ w before after,
        columnWidths t !! i = Some w ∧ slen cell ≤ w ∧
        (∃ row' cell', row' ∈ headers :: shown ∧ row' !! i = Some cell' ∧ w = slen cell') ∧
        slen before = column_start (take i (columnWidths t)) + 2 ∧
        lines !! (if decide (r = 0%nat) then 1 else r + 2)%nat =
          Some (before +:+ (cell +:+ string_of_char (Z.to_nat (w - slen cell)) " ") +:+ after).
Proof.
  intros Hmax Hne Hcols Hshort Hctor. unfold Table_ctor in Hctor. destruct (reserve_fails maxRows); [done|].
  injection Hctor as <-. unfold render. set (t := calculateColumnWidths _). cbv zeta.
  destruct (foldl_addRow added (mkTable title footer headers [] [] maxRows)) as (Hrows & Ht & Hf & Hh & _); [done|].
  simpl in Hrows, Ht, Hf, Hh. set (shown := take (Z.to_nat maxRows) added) in *.
  assert (columnWidths t = imap (column_width shown) headers) as Hwidths by (simpl; by rewrite Hrows, Hh).
  assert (short_texts (headers :: shown)) as Hshown.
  { apply Forall_cons in Hshort as [? ?]. apply Forall_cons. split; [done|]. by apply Forall_take. }
  pose proof (widths_narrow _ _ Hshown) as Hnarrow. rewrite <-Hwidths in Hnarrow.
  assert (∀ row, row ∈ headers :: shown → fits row 0 (columnWidths t)) as Hfit
    by (intros row Hrow; rewrite Hwidths; by apply widths_fit).
  assert (∀ row, row ∈ headers :: shown → slen (createRow t row) = 1 + column_start (columnWidths t)) as Hrow.
  { intros row Hin. unfold createRow. rewrite slen_app, slen_row_from by auto. done. }
  assert (slen (createLine t "+" "-" "+" "+") = 1 + column_start (columnWidths t)) as Hline.
  { unfold createLine. change (String "+" ?s) with ("+" +:+ s). rewrite !slen_app.
    rewrite slen_line_from by (done || rewrite Hwidths; unfold zlen in *; rewrite length_imap; lia).
    rewrite decide_False; [change (slen "+") with 1; change (slen (String "+" "")) with 1; lia|].
    rewrite Hwidths. intros Hnil. apply Hne. apply nil_length_inv.
    by rewrite <-(length_imap (column_width shown) headers), Hnil. }
  exists (createLine t "+" "-" "+" "+" :: createRow t headers :: createLine t "+" "-" "+" "+" ::
     (createRow t <$> shown) ++ [createLine t "+" "-" "+" "+"]).
  split_and!.
  - pose proof (render_lines (foldl addRow (mkTable title footer headers [] [] maxRows) added)) as Htext.
    unfold render in Htext. fold t in Htext. cbv zeta in Htext.
    simpl in Htext. rewrite Hrows, Hh, Ht, Hf in Htext. simpl. rewrite Hrows, Hh, Ht, Hf. exact Htext.
  - simpl. rewrite length_app, length_fmap. simpl. lia.
  - repeat (apply Forall_cons; split; [by auto using list_elem_of_here|]).
    apply Forall_app. split; [|by apply Forall_singleton]. apply Forall_fmap, Forall_forall. intros row Hin.
    apply Hrow. by right.
  - intros r i row cell Hr Hi Hlt. assert (row ∈ headers :: shown) as Hin by (by eapply list_elem_of_lookup_2).
    destruct (lookup_lt_is_Some_2 (columnWidths t) i) as [w Hw]; [by rewrite Hwidths, length_imap|].
    destruct (createRow_cell t row i w Hnarrow (Hfit row Hin) Hw) as (before & after & Hcr & Hb).
    rewrite Hi in Hcr. exists w, before, after. split_and!; [done| | |done|].
    + specialize (Hfit row Hin i w Hw). simpl in Hfit. by rewrite Hi in Hfit.
    + rewrite Hwidths in Hw. destruct (width_attained _ _ _ _ Hw) as (row' & cell' & ? & ? & ?). eauto.
    + simpl in Hcr. rewrite <-Hcr. destruct r as [|r]; simpl in Hr; [by injection Hr as <-|].
      rewrite decide_False by done. replace (S r + 2)%nat with (S (S (S r))) by lia. simpl.
      rewrite lookup_app_l by (rewrite length_fmap; by eapply lookup_lt_Some). by rewrite list_lookup_fmap, Hr.
Qed.

Lemma render_aligned_witness :
  let '(t, text) := render (foldl addRow (mkTable "T" "end" ["ab"; "c"] [] [] 2) [["1"; "22"]; ["333"]; ["4"; "5"]]) in
  let shown := [["1"; "22"]; ["333"]] in
  ∃ lines, text = unlines ("T" :: lines ++ ["end"]) ∧ length lines = (4 + 2)%nat ∧
    Forall (λ line, slen line = 1 + column_start (columnWidths t)) lines ∧
    ∀ r i row cell, (["ab"; "c"] :: shown) !! r = Some row → row !! i = Some cell → (i < 2)%nat →
      ∃ w before after,
        columnWidths t !! i = Some w ∧ slen cell ≤ w ∧
        (∃ row' cell', row' ∈ ["ab"; "c"] :: shown ∧ row' !! i = Some cell' ∧ w = slen cell') ∧
        slen before = column_start (take i (columnWidths t)) + 2 ∧
        lines !! (if decide (r = 0%nat) then 1 else r + 2)%nat =
          Some (before +:+ (cell +:+ string_of_char (Z.to_nat (w - slen cell)) " ") +:+ after).
Proof.
  apply (render_aligned (λ _, None) "T" ["ab"; "c"] 2 "end" [["1"; "22"]; ["333"]; ["4"; "5"]]);
    [lia|done|done|by repeat constructor|reflexivity].
Defined.
